(* ===== verification/_CoqProject ===== *)
-Q . S2P
Prelude.v
CxxStrings.v
Result.v
StringUtil.v
Hashing.v
Hex.v
Base64.v
Url.v
RingBuffer.v
Cache.v
ResourcePool.v
Client.v
Io.v
BufferedReader.v
BufferedWriter.v
Chunked.v
StringMap.v
Buckets.v
Headers.v
HeaderMap.v
Messages.v
Http11.v
Http2.v
Router.v
Server.v
Session.v
IpAddr.v
ThreadPool.v
Pattern.v
Doubles.v
Metrics.v
Exposition.v
Otel.v
TraceContext.v
Coro.v
TaskGroup.v
Scheduler.v
EpollLoop.v
KqueueLoop.v
Sockets.v
Serve.v
Network.v
SessionNet.v
Examples.v
Dns.v
Platform.v
Programs.v
