(* ===== verification/Prelude.v ===== *)
(** * A verification of cppnet

    cppnet (src/) is a C++ networking library: coroutines and an event loop at
    the bottom, readers and writers over sockets, HTTP/1.1 on top of them, and
    the encodings, containers and utilities these use.  This development models
    the parts that carry the library's logic and proves what makes them correct.
    Paths below are relative to src/.

    ** How code is modelled

    - A function is a Rocq function to [outcome] (below): it returns, throws,
      ends the process (an exception leaving a [noexcept] function that is not a
      coroutine), or is undefined (an access out of range, a missing return).
    - Strings and byte spans are [list byte]; [char] is signed ([char_val]);
      [size_t] and other machine integers are [Z] with their wrap-around
      ([u64], [u32]) where it can matter, and [nat] where they index or measure
      a container.
    - Objects are records and member functions pass the state.  A [coro::task]
      is modelled by its result: the code awaits every task at once, so a task
      runs to its end, and its exceptions surface at the await.  [Coro] models
      the coroutines themselves and proves that awaiting is calling;
      [Exposition] models tasks that are passed on before they start.  A
      parameter lives to the end of the expression that calls the function
      (the standard leaves it to the implementation), which
      [writer::write(char)] relies on.
    - Virtual interfaces are type classes: [Reader] and [Writer] are the calls,
      [StreamReader], [EofReader], [FullReader], [SinkWriter], [OrderedWriter]
      and [ReliableWriter] the promises a client may rely on; theorems about
      clients are proved against the promises, and each reader and writer of
      the library is an instance.  [KeyOps] and [KeyLaws] do the same for the
      hash and equality of a map, [JsonOps] and [JsonLaws] for the JSON library,
      [Kernel], [KernelLaws] and [KQueue] for the system calls of the event
      loops.  [Scheduler] and [Net] are what a socket calls, [Connection],
      [FdLaws] and [SchedulerLaws] what it relies on; [Network] makes a
      [Scheduler] of either event loop, which both keep [SchedulerLaws], and
      shows that kqueue keeps the promises of [Connection].  [Validity] and
      [ValidityLaws] are [conn.valid()] of a kept connection.  [MessageReader] is what a connection promises whose peer
      waits for each answer, [BucketPolicy] and [BucketLaws] how the library
      chooses the buckets of a map.
    - What the standard leaves undefined is [Undef].  Where an implementation
      gives it a meaning the code relies on, that is an argument: the cache's
      [std::prev(begin())], whose theorems ask for the [end()] that the usual
      libraries give.  Which coroutine frames there are, and which are done, is
      an argument of a turn of an event loop: a handle to any other address is
      undefined.
    - The iteration order of an unordered map is an argument, any permutation
      of its elements.  The library's hash of a string is an argument.
    - A loop that is not structurally recursive runs on fuel.  Where the code
      bounds it by a size, the definition supplies that size plus one; where it
      depends on the input (reading a line, a chunk size, the headers), the
      caller supplies it and the theorems ask for more than the bytes left in
      the stream, a turn consuming at least one.  [OutOfFuel] then does not
      occur, which the theorems state by giving the result; two theorems show
      loops that do not end whatever the fuel.

    ** The files

    - [Prelude]: outcomes, bytes, machine integers, tactics and hint databases.
    - [CxxStrings]: the parts of [std::string_view], [from_chars] and
      [to_chars] that the code uses.
    - [Result]: include/util/result.hpp and defer.hpp.
    - [StringUtil]: include/util/string_util.hpp.  Splitting and joining,
      trimming, replacing, comparison without case.
    - [Hashing]: include/util/hash.hpp and fnv1a.hpp, with the specializations
      of [std::hash] built on them.
    - [Hex], [Base64]: src/encoding.  Encoders and decoders over their buffers.
    - [Url]: src/url.cpp.  The parser's state machine, escaping, building.
    - [RingBuffer], [Cache], [ResourcePool]: include/util.  The pool is a step
      relation over the operations of concurrent threads, in which [make] may
      throw.
    - [Client]: the connection table of src/http/client.cpp, a step relation over
      the threads that ask for connections, on top of [ResourcePool].
    - [Io]: the interfaces and the simple readers and writers (string, limit,
      buffer); [BufferedReader] (with [readline]) and [BufferedWriter].
    - [Chunked]: src/http/chunked_reader.cpp and chunked_writer.cpp.
    - [StringMap]: include/util/string_map.hpp as a map, and [Buckets]: as a
      table with buckets, iterators and hints; [Headers]: src/http/headers.cpp,
      a [string_map] whose keys ignore case, and [HeaderMap]: its operations
      against a table of lower-case names.
    - [Messages]: methods, statuses and versions; [Http11]: src/http/http11.cpp;
      [Http2]: the types and frame layouts of src/http/http2.cpp;
      [Router]: src/http/router.cpp; [Server]: the connection loop of
      src/http/server.cpp, [response_writer] and [client::send]; [Session]: that
      loop on a connection that is kept.
    - [IpAddr]: src/ipv4_addr.cpp, src/ipv6_addr.cpp, src/ip_addr.cpp and their
      headers.  Addresses as byte arrays, their words, texts and ordering.
    - [ThreadPool]: src/coro/thread_pool.cpp and its header.  A step relation
      over the workers, the callers and the thread that shuts the pool down,
      whose steps are the accesses to the atomics, the mutex and the queue.
    - [Pattern]: src/pattern/pattern.cpp.  The operator-precedence parser and
      the matcher, which runs on any list of states.
    - [Doubles]: binary64 arithmetic by the Standard Library's [SpecFloat], with
      the order lemmas the next file uses.
    - [Metrics]: src/instrument/prometheus.  Counters, gauges, histograms and
      their buckets, trackers, and the registry; [Exposition]: their text
      encoders.
    - [Otel]: src/instrument/opentelemetry/protocol.cpp and its header.  The
      messages of the protocol and their conversions to and from JSON;
      [TraceContext]: src/instrument/opentelemetry/tracecontext.cpp.
    - [Coro]: include/coro/task.hpp and generator.hpp.  Frames, promises and
      handles as a machine, the ownership of task variables, and generators;
      [TaskGroup]: include/coro/task_group.hpp over that machine.
    - [Scheduler]: the list of tasks of src/io/scheduler.cpp over these
      coroutines.
    - [EpollLoop]: src/io/epoll_loop.cpp, src/io/poll.cpp and the dispatching
      loop of src/io/scheduler.cpp; [KqueueLoop]: src/io/kqueue_loop.cpp, and the
      race of the scheduler's run and shutdown.
    - [Sockets]: src/socket.cpp, src/tcp.cpp, src/udp.cpp, src/listen.cpp and
      src/exception.cpp; [Serve]: construction, closing and the accepting loop of
      src/http/server.cpp; [Network]: sockets over the two event loops;
      [SessionNet]: a kept connection over the kqueue loop.
    - [Examples]: the coroutines of the programs of example/; [Programs]: their
      main functions.
    - [Dns]: src/dns.cpp, src/dns and include/dns.
    - [Platform]: include/config.hpp, src/net.cpp, and the parts that are only
      begun (src/instrument/system.cpp, src/crypto/aes.cpp,
      include/prefix_path_array.hpp).

    ** What the theorems show

    - Round trips: encode and decode of hex, base64 and URLs; splitting and
      joining; chunked writer and reader; requests and responses of HTTP/1.1;
      an exchange from [client::send] through the server's router and handler
      and back, also through sockets that wait on the kqueue loop, and between
      the programs http-get and http-server; and a whole session, in which the
      server answers every request of a kept connection, in order.
    - Refinement: buffered readers and writers are the streams below them, the
      ring buffer is a queue, the cache a map of bounded size (which forgets what
      SIEVE says, and nothing before it is full), the headers a table of values
      by lower-case name, the string map a finite map on classes of keys (and its
      buckets a partition of it, each key in its own), the router
      its table of routes, the metric registry the table of first registrations,
      and the coroutine machinery is direct style.
    - Equivalence: the byte-wise ordering of addresses is the ordering of the
      numbers they stand for; the matcher accepts what a
      greedy reading accepts, which is sound for the language of the pattern and
      complete for states without repetition and alternatives; two
      export requests have the same JSON exactly if they agree in what the
      encoders send.
    - Concurrency: in every interleaving the thread pool runs each queued job
      once and in order, loses no wake-up while it runs, and drains its queue
      before the workers end, unless jobs come in while it shuts down.  Threads that ask the client for connections find
      one pool for each host, within its limit, and share no connection.  A turn
      of an event loop yields the events the kernel reports, in every state the
      loop reaches, and is undefined exactly if one is not for a frame it may
      resume (on epoll: also the timer's and the shutdown event).
    - Sockets: reads and writes are a stream, over any scheduler that says how
      much is ready; opening sockets leaks no descriptor, and opening a listener
      only one that the scheduler refuses; the echo server echoes.
    - Safety and termination: the URL parser ends on every input, the request
      decoder is total on plain bytes, the base64 decoder stays in bounds on
      its domain, the resource pool keeps its limit, loses no wake-up, and
      loses a resource only when [make] throws or an owner is assigned over.
    - Where the code does not do this, theorems give the inputs: decoders that
      leave their buffers, loops that do not end, requests that end the server,
      a pipelined request that is lost, sockets on the epoll loop, shutdowns of
      the scheduler, text encoders that read memory that is gone.

    ** What is not modelled

    Logging; the delivery of signals; allocators; memory orders; headers that
    only declare, concepts, and members that cannot be instantiated as they are
    written.  Of the modelled files, what is left out is named at the head of
    each file. *)

From Stdlib Require Import ZArith Strings.Byte Lia String.
From Stdlib Require Export ZifyNat.
From stdpp Require Import prelude list gmap strings.

#[global] Open Scope Z_scope.

(** ** Outcomes of a C++ operation

    A C++ function may return, throw, end the process ([std::terminate], when
    an exception leaves a [noexcept] function), or run into behaviour the
    standard leaves undefined (an out-of-range access).  Loops that are not
    structurally recursive run on fuel; [OutOfFuel] is the model's own value
    for a loop that has not ended yet, and the termination theorems show when
    it does not occur. *)

Inductive exn : Type :=
| out_of_range
| runtime_error (what : string)
| thrown_condition
| bad_variant_access
| json_type_error
| system_error (errno : Z).

#[global] Instance exn_eq_dec : EqDecision exn.
Proof. solve_decision. Defined.

Inductive outcome (A : Type) : Type :=
| Ret (a : A)
| Throw (e : exn)
| Terminate
| Undef
| OutOfFuel.
Arguments Ret {A} a.
Arguments Throw {A} e.
Arguments Terminate {A}.
Arguments Undef {A}.
Arguments OutOfFuel {A}.

Definition obind {A B} (m : outcome A) (f : A -> outcome B) : outcome B :=
  match m with
  | Ret a => f a
  | Throw e => Throw e
  | Terminate => Terminate
  | Undef => Undef
  | OutOfFuel => OutOfFuel
  end.

Declare Scope cpp_scope.
Delimit Scope cpp_scope with cpp.
Notation "'let*' x := m 'in' k" := (obind m (fun x => k))
  (at level 200, x pattern, m at level 100, k at level 200, right associativity,
   format "'[v' 'let*'  x  :=  m  'in' '/' k ']'") : cpp_scope.
#[global] Open Scope cpp_scope.

(** What the caller of a [noexcept] function sees. *)
Definition noexcept {A} (m : outcome A) : outcome A :=
  match m with Throw _ => Terminate | _ => m end.

(** The operation ends in a value: it neither throws nor is undefined. *)
Definition returns {A} (m : outcome A) : Prop := exists a, m = Ret a.

Definition is_ret {A} (m : outcome A) : bool :=
  match m with Ret _ => true | _ => false end.

(** Access through [operator[]] of a container: undefined out of range. *)
Definition index {A} (l : list A) (i : nat) : outcome A :=
  match l !! i with Some x => Ret x | None => Undef end.

Definition store {A} (l : list A) (i : nat) (x : A) : outcome (list A) :=
  if (i <? length l)%nat then Ret (<[i := x]> l) else Undef.

Lemma bind_ret {A B} (a : A) (f : A -> outcome B) : obind (Ret a) f = f a.
Proof. reflexivity. Qed.

Lemma bind_Ret_inv {A B} (m : outcome A) (f : A -> outcome B) b :
  obind m f = Ret b -> exists a, m = Ret a /\ f a = Ret b.
Proof. destruct m; simpl; try discriminate; eauto. Qed.

Lemma bind_assoc {A B C} (m : outcome A) (f : A -> outcome B) (g : B -> outcome C) :
  obind (obind m f) g = obind m (fun a => obind (f a) g).
Proof. by destruct m. Qed.

Lemma index_lt {A} (l : list A) i : (i < length l)%nat -> returns (index l i).
Proof.
  intros H. unfold index, returns. destruct (lookup_lt_is_Some_2 l i H) as [x ->]. eauto.
Qed.

Lemma index_Some {A} (l : list A) i x : l !! i = Some x -> index l i = Ret x.
Proof. intros H. unfold index. by rewrite H. Qed.

Lemma index_app_mid {A} (a : list A) x b : index (a ++ x :: b) (length a) = Ret x.
Proof. unfold index. by rewrite list_lookup_middle. Qed.

Lemma store_lt {A} (l : list A) i x :
  (i < length l)%nat -> store l i x = Ret (<[i := x]> l).
Proof. intros H. unfold store. by apply Nat.ltb_lt in H as ->. Qed.

Lemma store_length {A} (l l' : list A) i x : store l i x = Ret l' -> length l' = length l.
Proof. unfold store. case_match; intros; simplify_eq. by rewrite length_insert. Qed.

Lemma store_app_mid {A} (a : list A) y b x :
  store (a ++ y :: b) (length a) x = Ret (a ++ x :: b).
Proof.
  rewrite store_lt by (rewrite length_app; simpl; lia).
  by rewrite insert_app_r_alt, Nat.sub_diag.
Qed.

Lemma index_app_r {A} (a l : list A) i : index (a ++ l) (length a + i) = index l i.
Proof. unfold index. by rewrite lookup_app_r, Nat.add_sub_swap, Nat.sub_diag by lia. Qed.

Lemma store_app_r {A} (a l : list A) i x :
  store (a ++ l) (length a + i) x = (let* l' := store l i x in Ret (a ++ l')).
Proof.
  unfold store. rewrite length_app.
  replace (length a + i <? length a + length l)%nat with (i <? length l)%nat
    by (destruct (i <? length l)%nat eqn:E; symmetry;
        [apply Nat.ltb_lt in E; apply Nat.ltb_lt; lia|apply Nat.ltb_ge in E; apply Nat.ltb_ge; lia]).
  destruct (i <? length l)%nat; simpl; [|done].
  by rewrite insert_app_r.
Qed.

Lemma index_app_0 {A} (a l : list A) : index (a ++ l) (length a) = index l 0.
Proof. rewrite <- (Nat.add_0_r (length a)). apply index_app_r. Qed.

Lemma store_app_0 {A} (a l : list A) x :
  store (a ++ l) (length a) x = (let* l' := store l 0 x in Ret (a ++ l')).
Proof. rewrite <- (Nat.add_0_r (length a)). apply store_app_r. Qed.

Lemma index_0 {A} (x : A) l : index (x :: l) 0 = Ret x.
Proof. reflexivity. Qed.

Lemma index_S {A} (x : A) l i : index (x :: l) (S i) = index l i.
Proof. reflexivity. Qed.

Lemma store_0 {A} (x y : A) l : store (x :: l) 0 y = Ret (y :: l).
Proof. reflexivity. Qed.

Lemma store_S {A} (x y : A) l i :
  store (x :: l) (S i) y = (let* l' := store l i y in Ret (x :: l')).
Proof. apply (store_app_r [x]). Qed.

(** Reads and writes at constant offsets into a window [a ++ x :: y :: ...]. *)
Create Rewrite HintDb window.
#[export] Hint Rewrite @index_app_0 @store_app_0 @index_app_r @store_app_r
  @index_0 @index_S @store_0 @store_S @bind_ret : window.

(** ** Bytes and characters

    A [char] and a [std::byte] are both one of the 256 constructors of
    [Byte.byte]; [byte_val] is the value as an unsigned byte, [char_val] the
    value of a (signed, as on x86-64) [char], and [byte_of_Z] the narrowing
    conversion. *)

#[global] Instance byte_eq_decision : EqDecision byte := Byte.byte_eq_dec.

Definition byte_val (b : byte) : Z := Z.of_N (Byte.to_N b).
Definition byte_of_Z (z : Z) : byte := default x00 (Byte.of_N (Z.to_N (z mod 256))).
Definition char_val (c : byte) : Z :=
  if byte_val c <? 128 then byte_val c else byte_val c - 256.

(** String literals. *)
Definition lit (s : string) : list byte := list_byte_of_string s.

Lemma byte_val_range b : 0 <= byte_val b < 256.
Proof. unfold byte_val. pose proof (Byte.to_N_bounded b). lia. Qed.

Lemma byte_of_val b : byte_of_Z (byte_val b) = b.
Proof.
  unfold byte_of_Z. rewrite Z.mod_small by apply byte_val_range.
  unfold byte_val. by rewrite N2Z.id, Byte.of_to_N.
Qed.

Lemma byte_val_of_Z z : byte_val (byte_of_Z z) = z mod 256.
Proof.
  unfold byte_of_Z, byte_val. pose proof (Z.mod_pos_bound z 256 eq_refl) as Hz.
  destruct (Byte.of_N (Z.to_N (z mod 256))) as [b|] eqn:E; simpl.
  - apply Byte.to_of_N in E. rewrite E. lia.
  - apply Byte.of_N_None_iff in E. lia.
Qed.

Lemma byte_val_inj a b : byte_val a = byte_val b -> a = b.
Proof. intros H. by rewrite <- (byte_of_val a), H, byte_of_val. Qed.

Lemma byte_of_Z_mod z : byte_of_Z (z mod 256) = byte_of_Z z.
Proof. unfold byte_of_Z. by rewrite Z.mod_mod by lia. Qed.

#[global] Instance byte_countable : Countable byte :=
  inj_countable' byte_val byte_of_Z byte_of_val.

(** A boolean property of bytes that holds of all 256 of them, by evaluation. *)
Definition all_bytes : list byte := map byte_of_Z (seqZ 0 256).

Lemma all_bytes_complete b : In b all_bytes.
Proof.
  apply in_map_iff. exists (byte_val b). split; [apply byte_of_val|].
  apply list_elem_of_In, elem_of_seqZ. pose proof (byte_val_range b). lia.
Qed.

Lemma byte_forall (p : byte -> bool) : forallb p all_bytes = true -> forall b, p b = true.
Proof. rewrite forallb_forall. auto using all_bytes_complete. Qed.

Definition byte_eqb (a b : byte) : bool := Byte.eqb a b.

Lemma byte_eqb_spec a b : reflect (a = b) (byte_eqb a b).
Proof.
  unfold byte_eqb. destruct (Byte.eqb a b) eqn:E; constructor.
  - by apply Byte.byte_dec_bl.
  - by apply Byte.eqb_false.
Qed.

Lemma byte_eqb_refl a : byte_eqb a a = true.
Proof. by destruct (byte_eqb_spec a a). Qed.

Lemma byte_eqb_eq a b : byte_eqb a b = true <-> a = b.
Proof. destruct (byte_eqb_spec a b); naive_solver. Qed.

Lemma byte_eqb_neq a b : byte_eqb a b = false <-> a <> b.
Proof. destruct (byte_eqb_spec a b); naive_solver. Qed.

Fixpoint bytes_eqb (s t : list byte) : bool :=
  match s, t with
  | [], [] => true
  | a :: s, b :: t => byte_eqb a b && bytes_eqb s t
  | _, _ => false
  end.

Lemma bytes_eqb_eq s t : bytes_eqb s t = true <-> s = t.
Proof.
  revert t; induction s as [|a s IH]; intros [|b t]; simpl; try (split; congruence).
  rewrite andb_true_iff, byte_eqb_eq, IH. split; [intros [-> ->] | intros [= -> ->]]; auto.
Qed.

Lemma bytes_eqb_spec s t : reflect (s = t) (bytes_eqb s t).
Proof. apply iff_reflect. symmetry. apply bytes_eqb_eq. Qed.

(** ** Machine integers: arithmetic modulo [2^w] *)

Definition wrap (w : Z) (z : Z) : Z := z mod 2 ^ w.
Definition u8 : Z -> Z := wrap 8.
Definition u16 : Z -> Z := wrap 16.
Definition u32 : Z -> Z := wrap 32.
Definition u64 : Z -> Z := wrap 64.

Lemma wrap_small w z : 0 <= z < 2 ^ w -> wrap w z = z.
Proof. apply Z.mod_small. Qed.

Lemma wrap_range w z : 0 <= w -> 0 <= wrap w z < 2 ^ w.
Proof. intros. apply Z.mod_pos_bound. lia. Qed.

(** ** Automation shared by the components *)

Create HintDb cppnet.
#[export] Hint Resolve byte_val_range byte_of_val byte_eqb_refl index_app_mid : cppnet.

(** Split a chain of binds that ended in a value. *)
Ltac outcome_inv :=
  repeat match goal with
  | H : obind _ _ = Ret _ |- _ => apply bind_Ret_inv in H as (? & ? & H)
  | H : Ret _ = Ret _ |- _ => injection H as H; subst
  | H : Ret _ = _ |- _ => discriminate H
  | H : _ = Ret _ |- _ => discriminate H
  end.

(** [lia] with divisions and remainders by constants. *)
Ltac lia_div := zify; Z.to_euclidean_division_equations; lia.

(** Turn boolean tests on integers and bytes into propositions. *)
Ltac reflect_bools :=
  repeat match goal with
  | H : byte_eqb _ _ = true |- _ => apply byte_eqb_eq in H
  | H : byte_eqb _ _ = false |- _ => apply byte_eqb_neq in H
  | H : (_ =? _) = true |- _ => apply Z.eqb_eq in H
  | H : (_ =? _) = false |- _ => apply Z.eqb_neq in H
  | H : (_ <? _) = true |- _ => apply Z.ltb_lt in H
  | H : (_ <? _) = false |- _ => apply Z.ltb_ge in H
  | H : (_ <=? _) = true |- _ => apply Z.leb_le in H
  | H : (_ <=? _) = false |- _ => apply Z.leb_gt in H
  | H : (_ =? _)%nat = true |- _ => apply Nat.eqb_eq in H
  | H : (_ =? _)%nat = false |- _ => apply Nat.eqb_neq in H
  | H : (_ <? _)%nat = true |- _ => apply Nat.ltb_lt in H
  | H : (_ <? _)%nat = false |- _ => apply Nat.ltb_ge in H
  | H : (_ <=? _)%nat = true |- _ => apply Nat.leb_le in H
  | H : (_ <=? _)%nat = false |- _ => apply Nat.leb_gt in H
  | H : _ && _ = true |- _ => apply andb_true_iff in H as [? ?]
  | H : _ || _ = false |- _ => apply orb_false_iff in H as [? ?]
  | H : negb _ = true |- _ => apply negb_true_iff in H
  | H : negb _ = false |- _ => apply negb_false_iff in H
  end.

Create Rewrite HintDb lengths.
#[export] Hint Rewrite @length_app @length_take @length_drop @length_insert
  @length_replicate @length_map @length_seq @length_reverse : lengths.

(** Arithmetic on the lengths of lists. *)
Ltac solve_length :=
  try lia; simpl in *; autorewrite with lengths in *; simpl in *; lia.

(** ** Bit fields as arithmetic

    Packing fields with shifts and [|] is addition when the fields do not
    overlap; masks and right shifts are [mod] and [/].  [solve_bits] turns a
    packing into such arithmetic and leaves it to [lia]. *)

Lemma lor_shiftl_add a b n : 0 <= n -> 0 <= b < 2 ^ n -> Z.lor (Z.shiftl a n) b = a * 2 ^ n + b.
Proof.
  intros Hn Hb. rewrite <- Z.shiftl_mul_pow2 by done.
  assert (Z.land (Z.shiftl a n) b = 0) as H0.
  { apply Z.bits_inj'. intros i Hi. rewrite Z.land_spec, Z.bits_0.
    destruct (Z.lt_ge_cases i n).
    - by rewrite Z.shiftl_spec_low.
    - replace (Z.testbit b i) with false; [apply andb_false_r|]. symmetry.
      rewrite <- (Z.mod_small b (2 ^ n)) by done. by apply Z.mod_pow2_bits_high. }
  pose proof (Z.add_lor_land (Z.shiftl a n) b). lia.
Qed.

Lemma land_ones_mod a n : 0 <= n -> Z.land a (2 ^ n - 1) = a mod 2 ^ n.
Proof. intros Hn. rewrite <- Z.land_ones by done. f_equal. rewrite Z.ones_equiv. lia. Qed.

(** Induction three elements at a time. *)
Lemma list_ind3 {A} (P : list A -> Prop) :
  P [] -> (forall a, P [a]) -> (forall a b, P [a; b]) ->
  (forall a b c l, P l -> P (a :: b :: c :: l)) -> forall l, P l.
Proof.
  intros H0 H1 H2 H3. fix IH 1. intros [|a [|b [|c l]]]; [exact H0|apply H1|apply H2|apply H3, IH].
Qed.
