(* ===== verification/CxxStrings.v ===== *)
(** * The parts of the C++ standard library the sources use on strings

    [std::string_view] searches and slices, [std::from_chars] and
    [std::to_chars].  A string is a list of bytes; a position is a [nat]
    (sizes of objects are far below [2^64]); [npos] is [None].  Positions past
    the end behave as the standard says: searches find nothing, [substr]
    throws [out_of_range], [operator[]] is undefined (see [index] in
    [Prelude]). *)

From Stdlib Require Import ZArith Strings.Byte Lia String.
From stdpp Require Import prelude list gmap strings.
From S2P Require Import Prelude.

(** ** Searching *)

Fixpoint find_index {A} (p : A -> bool) (l : list A) : option nat :=
  match l with
  | [] => None
  | x :: l => if p x then Some 0%nat else S <$> find_index p l
  end.

Fixpoint find_last_index {A} (p : A -> bool) (l : list A) : option nat :=
  match l with
  | [] => None
  | x :: l =>
      match find_last_index p l with
      | Some i => Some (S i)
      | None => if p x then Some 0%nat else None
      end
  end.

Definition find_from {A} (p : A -> bool) (l : list A) (pos : nat) : option nat :=
  (fun i => pos + i)%nat <$> find_index p (drop pos l).

Definition mem (set : list byte) (c : byte) : bool := existsb (byte_eqb c) set.

(** [s.find(c, pos)] *)
Definition sv_find (s : list byte) (c : byte) (pos : nat) : option nat :=
  find_from (byte_eqb c) s pos.
(** [optional_from_iterator(range, iter)]: the end gives nothing. *)
Definition optional_from_iterator {A} (range : list A) (iter : nat) : outcome (option A) :=
  if (iter =? length range)%nat then Ret None else let* x := index range iter in Ret (Some x).
(** [s.find_first_of(set, pos)] *)
Definition sv_find_first_of (s set : list byte) (pos : nat) : option nat :=
  find_from (mem set) s pos.
(** [s.find_first_not_of(set)] *)
Definition sv_find_first_not_of (s set : list byte) : option nat :=
  find_index (fun c => negb (mem set c)) s.
(** [s.find_last_not_of(set)] *)
Definition sv_find_last_not_of (s set : list byte) : option nat :=
  find_last_index (fun c => negb (mem set c)) s.

(** [s.substr(pos, n)] and [s.substr(pos)] *)
Definition sv_substr {A} (s : list A) (pos n : nat) : outcome (list A) :=
  if (pos <=? length s)%nat then Ret (take n (drop pos s)) else Throw out_of_range.
Definition sv_substr_from {A} (s : list A) (pos : nat) : outcome (list A) :=
  if (pos <=? length s)%nat then Ret (drop pos s) else Throw out_of_range.

(** [s.at(pos)] *)
Definition sv_at {A} (s : list A) (pos : nat) : outcome A :=
  match s !! pos with Some x => Ret x | None => Throw out_of_range end.

Fixpoint starts_with (s prefix : list byte) {struct prefix} : bool :=
  match prefix, s with
  | [], _ => true
  | b :: prefix, a :: s => byte_eqb a b && starts_with s prefix
  | _ :: _, [] => false
  end.

Definition ends_with (s suffix : list byte) : bool :=
  (length suffix <=? length s)%nat
  && bytes_eqb (drop (length s - length suffix) s) suffix.

Lemma find_index_Some {A} (p : A -> bool) l i :
  find_index p l = Some i ->
  exists a x b, l = a ++ x :: b /\ length a = i /\ p x = true /\ Forall (fun y => p y = false) a.
Proof.
  revert i; induction l as [|y l IH]; intros i; simpl; [done|].
  destruct (p y) eqn:E.
  - intros [= <-]. exists [], y, l. auto.
  - destruct (find_index p l) as [j|]; simpl; [|done]. intros [= <-].
    destruct (IH j eq_refl) as (a & x & b & -> & <- & Hx & Ha).
    exists (y :: a), x, b. auto.
Qed.

Lemma find_index_app {A} (p : A -> bool) a x b :
  Forall (fun y => p y = false) a -> p x = true ->
  find_index p (a ++ x :: b) = Some (length a).
Proof. intros Ha Hx. induction Ha as [|y a Hy Ha IH]; simpl; [by rewrite Hx|]. by rewrite Hy, IH. Qed.

Lemma find_index_None {A} (p : A -> bool) l :
  find_index p l = None <-> Forall (fun y => p y = false) l.
Proof.
  induction l as [|y l IH]; simpl; [by split|]. rewrite Forall_cons, <- IH.
  destruct (p y); [naive_solver|]. destruct (find_index p l); naive_solver.
Qed.

Lemma find_index_lt {A} (p : A -> bool) l i : find_index p l = Some i -> (i < length l)%nat.
Proof. intros (a & x & b & -> & <- & _)%find_index_Some. solve_length. Qed.

Lemma find_from_Some {A} (p : A -> bool) l pos i :
  find_from p l pos = Some i -> (pos <= i < length l)%nat.
Proof.
  unfold find_from. destruct (find_index p (drop pos l)) as [j|] eqn:E; simpl; [|done].
  intros [= <-]. apply find_index_lt in E. solve_length.
Qed.

(** The same search, seen as a decomposition of the string at [pos]. *)
Lemma find_from_split {A} (p : A -> bool) l pos i :
  find_from p l pos = Some i ->
  exists a x b, drop pos l = a ++ x :: b /\ i = (pos + length a)%nat /\ p x = true
    /\ Forall (fun y => p y = false) a.
Proof.
  unfold find_from. destruct (find_index p (drop pos l)) as [j|] eqn:E; simpl; [|done].
  intros [= <-]. apply find_index_Some in E as (a & x & b & E & <- & ? & ?). eauto 10.
Qed.

Lemma find_from_app {A} (p : A -> bool) pre a x b :
  Forall (fun y => p y = false) a -> p x = true ->
  find_from p (pre ++ a ++ x :: b) (length pre) = Some (length pre + length a)%nat.
Proof. intros Ha Hx. unfold find_from. by rewrite drop_app_length, find_index_app. Qed.

Lemma find_from_0_app {A} (p : A -> bool) a x b :
  Forall (fun y => p y = false) a -> p x = true -> find_from p (a ++ x :: b) 0 = Some (length a).
Proof. apply (find_from_app p []). Qed.

Lemma find_from_None {A} (p : A -> bool) l pos :
  find_from p l pos = None <-> Forall (fun y => p y = false) (drop pos l).
Proof. unfold find_from. rewrite fmap_None. apply find_index_None. Qed.

Lemma mem_elem_of set c : mem set c = true <-> c ∈ set.
Proof.
  unfold mem. rewrite existsb_exists. setoid_rewrite byte_eqb_eq.
  rewrite list_elem_of_In. naive_solver.
Qed.

Lemma mem_false set c : mem set c = false <-> c ∉ set.
Proof. rewrite <- mem_elem_of. destruct (mem set c); naive_solver. Qed.

Lemma find_last_index_None {A} (p : A -> bool) l :
  find_last_index p l = None <-> Forall (fun y => p y = false) l.
Proof.
  induction l as [|y l IH]; simpl; [by split|]. rewrite Forall_cons, <- IH.
  destruct (find_last_index p l), (p y); naive_solver.
Qed.

Lemma find_last_index_app {A} (p : A -> bool) a x b :
  Forall (fun y => p y = false) b -> p x = true ->
  find_last_index p (a ++ x :: b) = Some (length a).
Proof.
  intros Hb Hx. induction a as [|y a IH]; simpl; [|by rewrite IH].
  by rewrite (proj2 (find_last_index_None p b) Hb), Hx.
Qed.

Lemma find_last_index_Some {A} (p : A -> bool) l i :
  find_last_index p l = Some i ->
  exists a x b, l = a ++ x :: b /\ length a = i /\ p x = true /\ Forall (fun y => p y = false) b.
Proof.
  revert i; induction l as [|y l IH]; intros i; simpl; [done|].
  destruct (find_last_index p l) as [j|] eqn:E.
  - intros [= <-]. destruct (IH j eq_refl) as (a & x & b & -> & <- & ? & ?).
    exists (y :: a), x, b. auto.
  - apply find_last_index_None in E. destruct (p y) eqn:Ey; [|done]. intros [= <-].
    exists [], y, l. auto.
Qed.

(** ** Slices *)

Lemma sv_substr_Ret {A} (s : list A) pos n :
  (pos <= length s)%nat -> sv_substr s pos n = Ret (take n (drop pos s)).
Proof. intros H. unfold sv_substr. by apply Nat.leb_le in H as ->. Qed.

Lemma sv_substr_from_Ret {A} (s : list A) pos :
  (pos <= length s)%nat -> sv_substr_from s pos = Ret (drop pos s).
Proof. intros H. unfold sv_substr_from. by apply Nat.leb_le in H as ->. Qed.

Lemma sv_substr_app {A} (a b c : list A) :
  sv_substr (a ++ b ++ c) (length a) (length b) = Ret b.
Proof.
  rewrite sv_substr_Ret by solve_length. by rewrite drop_app_length, take_app_length.
Qed.

Lemma sv_substr_0_app {A} (b c : list A) : sv_substr (b ++ c) 0 (length b) = Ret b.
Proof. apply (sv_substr_app []). Qed.

Lemma sv_substr_from_app {A} (a b : list A) n :
  (n <= length b)%nat -> sv_substr_from (a ++ b) (length a + n) = Ret (drop n b).
Proof. intros H. rewrite sv_substr_from_Ret by solve_length. by rewrite drop_app_add. Qed.

Lemma sv_substr_from_cons {A} (a : list A) x b : sv_substr_from (a ++ x :: b) (length a + 1) = Ret b.
Proof. by rewrite sv_substr_from_app by (simpl; lia). Qed.

Lemma sv_substr_from_length {A} (a b : list A) : sv_substr_from (a ++ b) (length a) = Ret b.
Proof. rewrite <- (Nat.add_0_r (length a)). by rewrite sv_substr_from_app by lia. Qed.

Lemma sv_at_app {A} (a : list A) x b : sv_at (a ++ x :: b) (length a) = Ret x.
Proof. unfold sv_at. by rewrite list_lookup_middle. Qed.

Lemma sv_at_lt {A} (s : list A) pos : (pos < length s)%nat -> exists x, sv_at s pos = Ret x /\ s !! pos = Some x.
Proof. intros H. unfold sv_at. destruct (lookup_lt_is_Some_2 s pos H) as [x ->]. eauto. Qed.

Lemma starts_with_app s p : starts_with (p ++ s) p = true.
Proof. induction p as [|b p IH]; simpl; [done|]. by rewrite byte_eqb_refl. Qed.

Lemma starts_with_spec s p : starts_with s p = true <-> exists r, s = p ++ r.
Proof.
  split; [|intros [r ->]; apply starts_with_app].
  revert s; induction p as [|b p IH]; intros [|a s]; simpl; try discriminate; eauto.
  rewrite andb_true_iff, byte_eqb_eq. intros [-> (r & ->)%IH]. eauto.
Qed.

Lemma ends_with_app s p : ends_with (s ++ p) p = true.
Proof.
  unfold ends_with. rewrite length_app.
  replace (length s + length p - length p)%nat with (length s) by lia.
  rewrite drop_app_length, andb_true_iff, bytes_eqb_eq, Nat.leb_le. split; [lia|done].
Qed.

Lemma ends_with_spec s p : ends_with s p = true <-> exists r, s = r ++ p.
Proof.
  split; [|intros [r ->]; apply ends_with_app].
  unfold ends_with. rewrite andb_true_iff, bytes_eqb_eq. intros [_ H].
  exists (take (length s - length p) s). rewrite <- H at 2. by rewrite take_drop.
Qed.

(** ** [<charconv>] *)

Inductive errc : Type :=
| errc_ok
| invalid_argument
| result_out_of_range
| value_too_large
| illegal_byte_sequence
| not_supported.

#[global] Instance errc_eq_dec : EqDecision errc.
Proof. solve_decision. Defined.

(** The digits [0-9a-zA-Z], as [from_chars] reads them for a base up to 36. *)
Definition digit_val (c : byte) : option Z :=
  let v := byte_val c in
  if (48 <=? v) && (v <=? 57) then Some (v - 48)
  else if (97 <=? v) && (v <=? 122) then Some (v - 87)
  else if (65 <=? v) && (v <=? 90) then Some (v - 55)
  else None.

Definition base_digit (base : Z) (c : byte) : option Z :=
  match digit_val c with
  | Some d => if d <? base then Some d else None
  | None => None
  end.

Fixpoint digits_prefix (base : Z) (s : list byte) : list Z :=
  match s with
  | [] => []
  | c :: s =>
      match base_digit base c with
      | Some d => d :: digits_prefix base s
      | None => []
      end
  end.

Definition from_digits (base : Z) (ds : list Z) : Z :=
  fold_left (fun acc d => acc * base + d) ds 0.

Record from_chars_result := { fc_ptr : nat; fc_ec : errc; fc_value : option Z }.

(** [std::from_chars(first, last, value, base)] for an unsigned [value] of
    [bits] bits: the longest prefix of digits, no sign and no leading blank;
    [value] is written ([fc_value]) only when the parse succeeds. *)
Definition from_chars (base bits : Z) (s : list byte) : from_chars_result :=
  match digits_prefix base s with
  | [] => {| fc_ptr := 0; fc_ec := invalid_argument; fc_value := None |}
  | ds =>
      let v := from_digits base ds in
      if v <? 2 ^ bits
      then {| fc_ptr := length ds; fc_ec := errc_ok; fc_value := Some v |}
      else {| fc_ptr := length ds; fc_ec := result_out_of_range; fc_value := None |}
  end.

Definition digit_char (d : Z) : byte := byte_of_Z (if d <? 10 then 48 + d else 87 + d).

Fixpoint to_digits (fuel : nat) (base n : Z) (acc : list Z) : list Z :=
  match fuel with
  | O => acc
  | S fuel =>
      if n <? base then n :: acc
      else to_digits fuel base (n / base) (n mod base :: acc)
  end.

(** The characters of a non-negative integer; [log2 n + 1] divisions by a base
    of at least 2 reach a single digit. *)
Definition to_chars (base n : Z) : list byte :=
  map digit_char (to_digits (S (Z.to_nat (Z.log2 n))) base n []).

(** [std::to_chars(first, last, n, base)] into a buffer of [room] characters. *)
Definition to_chars_n (room : nat) (base n : Z) : option (list byte) :=
  let s := to_chars base n in
  if (length s <=? room)%nat then Some s else None.

Lemma from_digits_cons_acc base ds acc :
  fold_left (fun acc d => acc * base + d) ds acc
  = acc * base ^ Z.of_nat (length ds) + from_digits base ds.
Proof.
  unfold from_digits. revert acc. induction ds as [|d ds IH]; intros acc; simpl; [lia|].
  rewrite (IH (acc * base + d)), (IH (0 * base + d)), Nat2Z.inj_succ, Z.pow_succ_r by lia. lia.
Qed.

Lemma from_digits_cons base d ds :
  from_digits base (d :: ds) = d * base ^ Z.of_nat (length ds) + from_digits base ds.
Proof. unfold from_digits at 1. cbn [fold_left]. rewrite from_digits_cons_acc. lia. Qed.

Lemma from_digits_bound base ds :
  2 <= base -> Forall (fun d => 0 <= d < base) ds ->
  0 <= from_digits base ds < base ^ Z.of_nat (length ds).
Proof.
  intros Hb. induction 1 as [|d ds Hd Hds IH]; [cbn; lia|].
  rewrite from_digits_cons. cbn [length]. rewrite Nat2Z.inj_succ, Z.pow_succ_r by lia. nia.
Qed.

Lemma to_digits_acc fuel base n acc :
  2 <= base -> 0 <= n -> n < 2 ^ Z.of_nat fuel ->
  from_digits base (to_digits fuel base n acc)
  = n * base ^ Z.of_nat (length acc) + from_digits base acc.
Proof.
  intros Hb. revert n acc. induction fuel as [|fuel IH]; intros n acc Hn Hf.
  - simpl in *. assert (n = 0) as -> by lia. lia.
  - cbn [to_digits]. destruct (n <? base) eqn:E; reflect_bools.
    { apply from_digits_cons. }
    rewrite Nat2Z.inj_succ, Z.pow_succ_r in Hf by lia.
    rewrite IH; [| apply Z.div_pos; lia | apply Z.div_lt_upper_bound; nia].
    rewrite from_digits_cons. cbn [length]. rewrite Nat2Z.inj_succ, Z.pow_succ_r by lia.
    rewrite (Z.div_mod n base) at 3 by lia. ring.
Qed.

Lemma to_digits_range fuel base n acc :
  2 <= base -> 0 <= n -> Forall (fun d => 0 <= d < base) acc ->
  Forall (fun d => 0 <= d < base) (to_digits fuel base n acc).
Proof.
  intros Hb. revert n acc. induction fuel as [|fuel IH]; intros n acc Hn Ha; [done|].
  cbn [to_digits]. destruct (n <? base) eqn:E; reflect_bools.
  - constructor; [lia|done].
  - apply IH; [apply Z.div_pos; lia|]. constructor; [apply Z.mod_pos_bound; lia|done].
Qed.

Lemma to_digits_length fuel base n acc k :
  2 <= base -> 0 <= n < base ^ Z.of_nat (S k) -> (S k <= fuel)%nat ->
  (length acc < length (to_digits fuel base n acc) <= S k + length acc)%nat.
Proof.
  intros Hb. revert fuel n acc. induction k as [|k IH]; intros [|fuel] n acc Hn Hf; try lia.
  - cbn [to_digits]. rewrite (proj2 (Z.ltb_lt n base)) by lia. simpl. lia.
  - cbn [to_digits]. destruct (n <? base) eqn:E; reflect_bools; [simpl; lia|].
    specialize (IH fuel (n / base) (n mod base :: acc)).
    rewrite Nat2Z.inj_succ, Z.pow_succ_r in Hn by lia.
    cbn [length] in IH. assert (n / base < base ^ Z.of_nat (S k)) by (apply Z.div_lt_upper_bound; lia).
    assert (0 <= n / base) by (apply Z.div_pos; lia). lia.
Qed.

Lemma log2_fuel n : 0 <= n -> n < 2 ^ Z.of_nat (S (Z.to_nat (Z.log2 n))).
Proof.
  intros Hn. rewrite Nat2Z.inj_succ, Z2Nat.id by apply Z.log2_nonneg.
  destruct (Z.eq_dec n 0) as [->|]; [done|]. apply Z.log2_spec. lia.
Qed.

Lemma digit_char_val base d :
  2 <= base <= 36 -> 0 <= d < base -> base_digit base (digit_char d) = Some d.
Proof.
  intros Hb Hd. unfold base_digit, digit_val, digit_char.
  rewrite byte_val_of_Z. destruct (d <? 10) eqn:E; reflect_bools;
    rewrite Z.mod_small by lia.
  - rewrite (proj2 (Z.leb_le 48 _)), (proj2 (Z.leb_le _ 57)) by lia. simpl.
    replace (48 + d - 48) with d by lia. by rewrite (proj2 (Z.ltb_lt d base)) by lia.
  - rewrite (proj2 (Z.leb_gt (87 + d) 57)), andb_false_r by lia.
    rewrite (proj2 (Z.leb_le 97 _)), (proj2 (Z.leb_le _ 122)) by lia. simpl.
    replace (87 + d - 87) with d by lia. by rewrite (proj2 (Z.ltb_lt d base)) by lia.
Qed.

(** A character that does not continue a number in [base]. *)
Definition stops (base : Z) (s : list byte) : Prop :=
  match s with [] => True | c :: _ => base_digit base c = None end.

Lemma digits_prefix_chars base ds rest :
  2 <= base <= 36 -> Forall (fun d => 0 <= d < base) ds -> stops base rest ->
  digits_prefix base (map digit_char ds ++ rest) = ds.
Proof.
  intros Hb Hds Hr. induction Hds as [|d ds Hd Hds IH]; simpl.
  - destruct rest as [|c rest]; [done|]. simpl in *. by rewrite Hr.
  - by rewrite digit_char_val, IH by lia.
Qed.

Lemma to_chars_digits base n :
  2 <= base -> 0 <= n ->
  exists ds, to_chars base n = map digit_char ds /\ ds <> []
    /\ Forall (fun d => 0 <= d < base) ds /\ from_digits base ds = n.
Proof.
  intros Hb Hn. unfold to_chars. set (fuel := S (Z.to_nat (Z.log2 n))).
  exists (to_digits fuel base n []). split_and!; [done| | by apply to_digits_range |].
  - subst fuel. cbn [to_digits]. destruct (n <? base); [done|].
    generalize (Z.to_nat (Z.log2 n)). intros k. generalize (n / base) (n mod base).
    intros q r. assert (Hne : forall k q acc, acc <> [] -> to_digits k base q acc <> []).
    { clear. induction k as [|k IH]; intros q acc Ha; [done|].
      cbn [to_digits]. destruct (q <? base); [done|]. by apply IH. }
    by apply Hne.
  - rewrite to_digits_acc; [cbn; lia | lia | lia |]. by apply log2_fuel.
Qed.

(** Printing and reading back, in any base and width. *)
Lemma from_chars_to_chars base bits n rest :
  2 <= base <= 36 -> 0 <= n < 2 ^ bits -> stops base rest ->
  from_chars base bits (to_chars base n ++ rest)
  = {| fc_ptr := length (to_chars base n); fc_ec := errc_ok; fc_value := Some n |}.
Proof.
  intros Hb Hn Hr. destruct (to_chars_digits base n) as (ds & -> & Hne & Hds & Hv); try lia.
  unfold from_chars. rewrite digits_prefix_chars by done. rewrite length_map.
  destruct ds as [|d ds]; [done|]. rewrite Hv. by rewrite (proj2 (Z.ltb_lt n (2 ^ bits))) by lia.
Qed.

Lemma to_chars_length base n k :
  2 <= base -> 0 <= n < base ^ Z.of_nat (S k) -> n < 2 ^ Z.of_nat (S (Z.to_nat (Z.log2 n))) ->
  (0 < length (to_chars base n) <= S k)%nat.
Proof.
  intros Hb Hn Hf. unfold to_chars. rewrite length_map.
  destruct (Nat.le_gt_cases (S k) (S (Z.to_nat (Z.log2 n)))) as [Hle|Hlt].
  - pose proof (to_digits_length (S (Z.to_nat (Z.log2 n))) base n [] k Hb Hn Hle). simpl in *. lia.
  - set (m := Z.to_nat (Z.log2 n)) in *.
    assert (n < base ^ Z.of_nat (S m)) as Hm.
    { apply Z.lt_le_trans with (1 := Hf). apply Z.pow_le_mono_l. lia. }
    pose proof (to_digits_length (S m) base n [] m Hb ltac:(lia) ltac:(lia)). simpl in *. lia.
Qed.

Lemma to_chars_bound base n k :
  2 <= base -> 0 <= n < base ^ Z.of_nat (S k) -> (0 < length (to_chars base n) <= S k)%nat.
Proof. intros Hb Hn. apply to_chars_length; try done. apply log2_fuel. lia. Qed.

(** No digit of a base up to 36 is one of the separators the sources use. *)
Lemma to_chars_Forall base n (p : byte -> bool) :
  2 <= base <= 36 -> 0 <= n ->
  (forall d, 0 <= d < 36 -> p (digit_char d) = true) ->
  Forall (fun c => p c = true) (to_chars base n).
Proof.
  intros Hb Hn Hp. destruct (to_chars_digits base n) as (ds & -> & _ & Hds & _); try lia.
  apply Forall_map. eapply Forall_impl; [exact Hds|]. intros d Hd. apply Hp. simpl in Hd. lia.
Qed.
