(* ===== verification/Result.v ===== *)
(** * Results and deferred calls (include/util/result.hpp, include/util/defer.hpp)

    A [result] is its variant.  A callback is an action on a state, with its
    exceptions: a function of the outer code.  [or_else(Value)], which returns
    the variant where a value is declared, and [map], which needs the callback
    to take the error as well, cannot be instantiated and have no definition.

    A [defer] is a variable that owns a call; programs create, move and
    destroy such variables, and the calls made are the trace. *)

From Stdlib Require Import ZArith Lia Strings.Byte String.
From stdpp Require Import prelude list gmap.
From S2P Require Import Prelude.

(** ** [result] *)

Section Result.
Context {Value Error : Type}.

(** [std::variant<Value, Error> value] *)
Inductive result := of_value (v : Value) | of_error (e : Error).

Definition has_value (r : result) : bool := match r with of_value _ => true | of_error _ => false end.
Definition has_error (r : result) : bool := match r with of_value _ => false | of_error _ => true end.

(** [std::get] *)
Definition to_value (r : result) : outcome Value := match r with of_value v => Ret v | of_error _ => Throw bad_variant_access end.
Definition to_error (r : result) : outcome Error := match r with of_value _ => Throw bad_variant_access | of_error e => Ret e end.

(** The callbacks act on a state [St]. *)
Definition if_value {St} (f : Value -> St -> outcome St) (r : result) (s : St) : outcome (result * St) :=
  let* s := match r with of_value v => f v s | of_error _ => Ret s end in Ret (r, s).

Definition if_error {St} (f : Error -> St -> outcome St) (r : result) (s : St) : outcome (result * St) :=
  let* s := match r with of_value _ => Ret s | of_error e => f e s end in Ret (r, s).

Definition or_else {St} (f : St -> outcome (Value * St)) (r : result) (s : St) : outcome (Value * St) :=
  if has_error r then f s else let* v := to_value r in Ret (v, s).

(** Move construction and assignment move the alternative: the source keeps its
    kind, with a moved-from content. *)
Definition move_result (moved_value : Value -> Value) (moved_error : Error -> Error) (other : result) : result * result :=
  (other, match other with of_value v => of_value (moved_value v) | of_error e => of_error (moved_error e) end).

(** A chain [r.if_value(f).if_error(g)] runs exactly one of the two callbacks,
    on what the result holds, and leaves the result as it was; the accessors
    agree with it, and the one for the other alternative throws. *)
Lemma result_exactly_one {St} (f : Value -> St -> outcome St) (g : Error -> St -> outcome St) (r : result) (s : St) :
  (let* (r, s) := if_value f r s in if_error g r s)
    = (let* s := match r with of_value v => f v s | of_error e => g e s end in Ret (r, s))
  /\ has_error r = negb (has_value r)
  /\ (if has_value r then (exists v, to_value r = Ret v) /\ to_error r = Throw bad_variant_access
      else (exists e, to_error r = Ret e) /\ to_value r = Throw bad_variant_access).
Proof.
  unfold if_value, if_error. destruct r as [v|e]; cbn; (split; [|by split_and!; [..|by eexists|]]); [|done].
  by destruct (f v s).
Qed.

(** [or_else] does not throw an access error: it calls the function exactly for
    an error. *)
Lemma or_else_spec {St} (f : St -> outcome (Value * St)) (r : result) (s : St) :
  or_else f r s = match r with of_value v => Ret (v, s) | of_error _ => f s end.
Proof. by destruct r. Qed.
End Result.
Arguments result : clear implicits.

(** ** [defer] *)

(** The variables of a program, with the call they own and [invoke]; a moved-from
    variable keeps a call it does not make. *)
Record defers := { vars : gmap nat (nat * bool); trace : list nat }.

Inductive defer_op := d_create (x f : nat) | d_move (x y : nat) | d_destroy (x : nat).

Definition perform (o : defer_op) (s : defers) : outcome defers :=
  match o with
  | d_create x f => Ret {| vars := <[x := (f, true)]> (vars s); trace := trace s |}
  | d_move x y =>
      match vars s !! y with
      | Some (f, i) => Ret {| vars := <[x := (f, i)]> (<[y := (f, false)]> (vars s)); trace := trace s |}
      | None => Undef
      end
  | d_destroy x =>
      match vars s !! x with
      | Some (f, i) => Ret {| vars := delete x (vars s); trace := if i : bool then trace s ++ [f] else trace s |}
      | None => Undef
      end
  end.

(** What the language allows: a new variable is new, the others exist. *)
Definition allowed (o : defer_op) (s : defers) : Prop :=
  match o with
  | d_create x f => vars s !! x = None
  | d_move x y => vars s !! x = None /\ is_Some (vars s !! y)
  | d_destroy x => is_Some (vars s !! x)
  end.

Inductive defer_run : list defer_op -> defers -> defers -> Prop :=
| defer_nil s : defer_run [] s s
| defer_cons o os s s1 s2 : allowed o s -> perform o s = Ret s1 -> defer_run os s1 s2 -> defer_run (o :: os) s s2.

(** The calls still owned *)
Definition pending (s : defers) : list nat := omap (fun e => if e.2.2 : bool then Some e.2.1 else None) (map_to_list (vars s)).

Definition created (os : list defer_op) : list nat := omap (fun o => match o with d_create _ f => Some f | _ => None end) os.

Lemma pending_insert x f i s t : vars s !! x = None -> pending {| vars := <[x := (f, i)]> (vars s); trace := t |} ≡ₚ (if i : bool then [f] else []) ++ pending s.
Proof. intros Hx. unfold pending. cbn [vars]. rewrite map_to_list_insert by done. by destruct i. Qed.

Lemma pending_delete x f i s : vars s !! x = Some (f, i) ->
  pending s ≡ₚ (if i : bool then [f] else []) ++ pending {| vars := delete x (vars s); trace := [] |}.
Proof. intros Hx. unfold pending at 1. rewrite <- (map_to_list_delete _ _ _ Hx). by destruct i. Qed.

Lemma pending_trace vs t t' : pending {| vars := vs; trace := t |} = pending {| vars := vs; trace := t' |}.
Proof. done. Qed.

(** In every program each deferred call is made or still owned, once: no move
    loses or doubles one.  When no variable is left, the calls made are those
    created. *)
Lemma defer_exactly_once os s s' :
  defer_run os s s' ->
  trace s' ++ pending s' ≡ₚ trace s ++ pending s ++ created os
  /\ (vars s' = ∅ -> trace s' ≡ₚ trace s ++ pending s ++ created os).
Proof.
  intros Hr. assert (trace s' ++ pending s' ≡ₚ trace s ++ pending s ++ created os) as Hp.
  { induction Hr as [s|o os s s1 s2 Ha Hp _ IH]; [by rewrite app_nil_r|]. rewrite IH. clear IH s2. destruct o as [x f|x y|x]; cbn in Ha, Hp |- *.
    - injection Hp as <-. cbn [trace]. rewrite (pending_insert x f true) by done. cbn. solve_Permutation.
    - destruct Ha as [Hx _]. destruct (vars s !! y) as [[f i]|] eqn:Ey; [|done]. injection Hp as <-. cbn [trace].
      assert (x <> y) as Hne by congruence.
      change (<[y:=(f, false)]> (vars s)) with (vars {| vars := <[y:=(f, false)]> (vars s); trace := [] |}).
      rewrite pending_insert by (cbn; by rewrite lookup_insert_ne).
      rewrite <- insert_delete_eq. change (delete y (vars s)) with (vars {| vars := delete y (vars s); trace := [] |}).
      rewrite pending_insert by (cbn; apply lookup_delete_eq). rewrite (pending_delete y f i s Ey). cbn. by rewrite <- !app_assoc.
    - destruct (vars s !! x) as [[f i]|] eqn:Ex; [|done]. injection Hp as <-. cbn [trace]. rewrite (pending_delete x f i s Ex).
      rewrite (pending_trace _ _ []). destruct i; cbn; [|done]. rewrite <- !app_assoc. done. }
  split; [done|]. intros Hv. rewrite <- Hp. unfold pending. rewrite Hv, map_to_list_empty. cbn. by rewrite app_nil_r.
Qed.
