(* ===== verification/StringUtil.v ===== *)
(** * String utilities (include/util/string_util.hpp)

    [split_string] is a generator; its consumers are pure, so it is the list of
    the strings it yields.  [replace] and [replace_all_to] loop on a shrinking
    view and run on fuel: with an empty pattern the view does not shrink, and
    [replace_empty_diverges] shows that the loop then never ends. *)

From Stdlib Require Import ZArith Strings.Byte Lia String.
From stdpp Require Import prelude list gmap strings.
From S2P Require Import Prelude CxxStrings.

(** ** Definitions *)

(** The body of [split_string]'s loop, from position [i]. *)
Fixpoint split_loop (fuel : nat) (input : list byte) (sep : byte) (i : nat)
    : outcome (list (list byte)) :=
  match fuel with
  | O => OutOfFuel
  | S fuel =>
      if (i <=? length input)%nat then
        match sv_find input sep i with
        | None => let* part := sv_substr_from input i in Ret [part]
        | Some next =>
            let* part := sv_substr input i (next - i) in
            let* rest := split_loop fuel input sep (S next) in
            Ret (part :: rest)
        end
      else Ret []
  end.

Definition split_string (input : list byte) (sep : byte) (start : nat)
    : outcome (list (list byte)) :=
  split_loop (S (S (length input))) input sep start.

(** [std::tolower] in the "C" locale, on the value of an [unsigned char]. *)
Definition tolower (c : Z) : Z := if (65 <=? c) && (c <=? 90) then c + 32 else c.

Definition lower (c : byte) : byte := byte_of_Z (tolower (byte_val c)).

(** [std::equal] of two ranges under a predicate: the lengths must agree. *)
Fixpoint std_equal (p : byte -> byte -> bool) (s t : list byte) : bool :=
  match s, t with
  | [], [] => true
  | a :: s, b :: t => p a b && std_equal p s t
  | _, _ => false
  end.

Definition equal_ignore_case (lhs rhs : list byte) : bool :=
  std_equal (fun l r => tolower (byte_val l) =? tolower (byte_val r)) lhs rhs.

Definition less_ignore_case (lhs rhs : list byte) : bool :=
  std_equal (fun l r => tolower (byte_val l) <? tolower (byte_val r)) lhs rhs.

(** The bytes of the literal in [trim_string]: the ASCII blanks, then the UTF-8
    encodings of U+2000 .. U+200A, U+2028, U+2029, U+202F, U+205F and U+3000. *)
Definition whitespace : list byte :=
  [x20; x08; x0c; x0a; x0d; x09; x0b]
  ++ [xe2; x80; x80; xe2; x80; x81; xe2; x80; x82; xe2; x80; x83; xe2; x80; x84;
      xe2; x80; x85; xe2; x80; x86; xe2; x80; x87; xe2; x80; x88; xe2; x80; x89;
      xe2; x80; x8a; xe2; x80; xa8; xe2; x80; xa9; xe2; x80; xaf; xe2; x81; x9f;
      xe3; x80; x80].

Definition is_space (c : byte) : bool := mem whitespace c.

Definition trim_string (str : list byte) : outcome (list byte) :=
  let first_not_space := default 0%nat (sv_find_first_not_of str whitespace) in
  let last_not_space := default (length str) (sv_find_last_not_of str whitespace) in
  let count := u64 (Z.of_nat last_not_space - u64 (Z.of_nat first_not_space - 1)) in
  sv_substr str first_not_space (Z.to_nat count).

Definition join (join_with : list byte) (strings : list (list byte)) : list byte :=
  match strings with
  | [] => []
  | [s] => s
  | s :: rest => s ++ concat (map (fun it => join_with ++ it) rest)
  end.

Definition unquote (str : list byte) : outcome (list byte) :=
  if (length str <? 3)%nat then Ret str
  else
    let* first := index str 0 in
    let* back := index str (length str - 1) in
    if negb (byte_eqb first x22) && negb (byte_eqb first x27) then Ret str
    else if negb (byte_eqb first back) then Ret str
    else sv_substr str 1 (length str - 2).

Fixpoint replace_loop (fuel : nat) (view pat with_this : list byte) : outcome (list byte) :=
  match fuel with
  | O => OutOfFuel
  | S fuel =>
      match view with
      | [] => Ret []
      | front :: rest =>
          if starts_with view pat then
            let* view' := sv_substr_from view (length pat) in
            let* out := replace_loop fuel view' pat with_this in
            Ret (with_this ++ out)
          else
            let* out := replace_loop fuel rest pat with_this in
            Ret (front :: out)
      end
  end.

Definition replace (view pat with_this : list byte) : outcome (list byte) :=
  replace_loop (S (length view)) view pat with_this.

(** The first replacement whose pattern starts the view. *)
Fixpoint first_replacement (view : list byte) (rs : list (list byte * list byte))
    : option (list byte * list byte) :=
  match rs with
  | [] => None
  | (pat, with_this) :: rs =>
      if starts_with view pat then Some (pat, with_this) else first_replacement view rs
  end.

Fixpoint replace_all_loop (fuel : nat) (view : list byte)
    (replacements : list (list byte * list byte)) : outcome (list byte) :=
  match fuel with
  | O => OutOfFuel
  | S fuel =>
      match view with
      | [] => Ret []
      | front :: rest =>
          match first_replacement view replacements with
          | Some (pat, with_this) =>
              let* view' := sv_substr_from view (length pat) in
              let* out := replace_all_loop fuel view' replacements in
              Ret (with_this ++ out)
          | None =>
              let* out := replace_all_loop fuel rest replacements in
              Ret (front :: out)
          end
      end
  end.

Definition replace_all (view : list byte) (replacements : list (list byte * list byte))
    : outcome (list byte) :=
  replace_all_loop (S (length view)) view replacements.

(** ** [split_string] against its specification *)

(** The fields of a string separated by [sep]. *)
Fixpoint split_on (sep : byte) (s : list byte) : list (list byte) :=
  match s with
  | [] => [[]]
  | c :: s =>
      if byte_eqb sep c then [] :: split_on sep s
      else match split_on sep s with
           | [] => [[c]]
           | field :: fields => (c :: field) :: fields
           end
  end.

Lemma split_on_none sep s :
  Forall (fun c => byte_eqb sep c = false) s -> split_on sep s = [s].
Proof. induction 1 as [|c s Hc Hs IH]; simpl; [done|]. by rewrite Hc, IH. Qed.

Lemma split_on_app sep a b :
  Forall (fun c => byte_eqb sep c = false) a ->
  split_on sep (a ++ sep :: b) = a :: split_on sep b.
Proof.
  induction 1 as [|c a Hc Ha IH]; simpl; [by rewrite byte_eqb_refl|]. by rewrite Hc, IH.
Qed.

Lemma split_loop_spec fuel input sep i :
  (i <= length input)%nat -> (length input - i < fuel)%nat ->
  split_loop fuel input sep i = Ret (split_on sep (drop i input)).
Proof.
  revert i. induction fuel as [|fuel IH]; intros i Hi Hf; [lia|].
  cbn [split_loop]. rewrite (proj2 (Nat.leb_le _ _) Hi).
  destruct (sv_find input sep i) as [next|] eqn:E.
  - apply find_from_split in E as (a & x & b & E & -> & Hx & Ha). apply byte_eqb_eq in Hx as <-.
    assert (length (drop i input) = length (a ++ sep :: b)) as Hl by (by rewrite E).
    rewrite length_drop, length_app in Hl. simpl in Hl.
    rewrite sv_substr_Ret by done. simpl.
    rewrite E, split_on_app by done.
    replace (i + length a - i)%nat with (length a) by lia. rewrite take_app_length.
    destruct fuel as [|fuel']; [lia|].
    assert (drop (S (i + length a)) input = b) as Hb.
    { replace (S (i + length a))%nat with (i + S (length a))%nat by lia.
      rewrite <- drop_drop, E. replace (S (length a)) with (length (a ++ [sep])) by solve_length.
      replace (a ++ sep :: b) with ((a ++ [sep]) ++ b) by (by rewrite <- app_assoc).
      apply drop_app_length. }
    rewrite IH by solve_length. by rewrite Hb.
  - apply find_from_None in E. rewrite sv_substr_from_Ret by done. simpl. by rewrite split_on_none.
Qed.

Lemma split_string_spec input sep start :
  split_string input sep start
  = Ret (if (start <=? length input)%nat then split_on sep (drop start input) else []).
Proof.
  unfold split_string. destruct (start <=? length input)%nat eqn:E.
  - apply split_loop_spec; reflect_bools; lia.
  - cbn [split_loop]. by rewrite E.
Qed.

Lemma split_on_nonempty sep s : split_on sep s <> [].
Proof. induction s as [|c s IH]; simpl; [done|]. destruct (byte_eqb sep c); [done|]. by destruct (split_on sep s). Qed.

Lemma split_on_fields sep s :
  Forall (Forall (fun c => c <> sep)) (split_on sep s).
Proof.
  induction s as [|c s IH]; simpl; [by repeat constructor|].
  destruct (byte_eqb_spec sep c) as [->|Hne]; [by constructor|].
  destruct (split_on sep s) as [|f fs]; [by repeat constructor|].
  apply Forall_cons in IH as [Hf Hfs]. constructor; [constructor|]; congruence || done.
Qed.

Lemma join_cons sep f fs :
  fs <> [] -> join sep (f :: fs) = f ++ sep ++ join sep fs.
Proof.
  destruct fs as [|g fs]; [done|]. intros _. simpl.
  destruct fs as [|h fs]; simpl; by rewrite <- ?app_assoc, ?app_nil_r.
Qed.

Lemma join_split_on sep s : join [sep] (split_on sep s) = s.
Proof.
  induction s as [|c s IH]; [done|]. cbn [split_on].
  destruct (byte_eqb_spec sep c) as [->|Hne].
  - rewrite join_cons by apply split_on_nonempty. by rewrite IH.
  - pose proof (split_on_nonempty sep s). destruct (split_on sep s) as [|f fs]; [done|].
    destruct fs as [|g fs]; [simpl in *; by rewrite IH|].
    rewrite join_cons in * by done. simpl. by rewrite <- IH.
Qed.

Lemma split_on_join sep fs :
  fs <> [] -> Forall (Forall (fun c => c <> sep)) fs ->
  split_on sep (join [sep] fs) = fs.
Proof.
  intros Hne Hfs. induction Hfs as [|f fs Hf Hfs IH]; [done|].
  assert (Forall (fun c => byte_eqb sep c = false) f) as Hf'.
  { eapply Forall_impl; [exact Hf|]. intros c Hc. by apply byte_eqb_neq. }
  destruct fs as [|g fs]; [simpl; by apply split_on_none|].
  rewrite join_cons by done. simpl. rewrite split_on_app by done. f_equal. by apply IH.
Qed.

(** splitting never throws and loses nothing: no field contains the separator,
    and joining the fields gives the input back. *)
Lemma split_string_join (input : list byte) (sep : byte) :
  exists parts, split_string input sep 0 = Ret parts
    /\ join [sep] parts = input
    /\ Forall (Forall (fun c => c <> sep)) parts.
Proof.
  exists (split_on sep input). rewrite split_string_spec. simpl. rewrite drop_0.
  split_and!; [done | apply join_split_on | apply split_on_fields].
Qed.

(** Joining fields that do not contain the separator, then splitting. *)
Lemma join_split_string (fields : list (list byte)) (sep : byte) :
  fields <> [] -> Forall (Forall (fun c => c <> sep)) fields ->
  split_string (join [sep] fields) sep 0 = Ret fields.
Proof. intros. rewrite split_string_spec. simpl. by rewrite drop_0, split_on_join. Qed.

(** ** Case-insensitive comparison *)

Lemma tolower_byte_range b : 0 <= tolower (byte_val b) < 256.
Proof.
  unfold tolower. pose proof (byte_val_range b). case_match; reflect_bools; lia.
Qed.

Lemma lower_val b : byte_val (lower b) = tolower (byte_val b).
Proof.
  unfold lower. rewrite byte_val_of_Z. apply Z.mod_small, tolower_byte_range.
Qed.

Lemma equal_ignore_case_iff s t : equal_ignore_case s t = true <-> map lower s = map lower t.
Proof.
  unfold equal_ignore_case. revert t; induction s as [|a s IH]; intros [|b t]; simpl;
    try (split; congruence).
  rewrite andb_true_iff, IH, Z.eqb_eq, <- !lower_val. split.
  - intros [H1%byte_val_inj H2]. congruence.
  - intros [= -> H2]. auto.
Qed.

Lemma equal_ignore_case_refl s : equal_ignore_case s s = true.
Proof. by apply equal_ignore_case_iff. Qed.

(** The relation the header map compares its keys with is an equivalence. *)
Definition same_key (s t : list byte) : Prop := equal_ignore_case s t = true.

#[global] Instance same_key_equivalence : Equivalence same_key.
Proof.
  unfold same_key. split.
  - intros s. apply equal_ignore_case_refl.
  - intros s t. rewrite !equal_ignore_case_iff. congruence.
  - intros s t u. rewrite !equal_ignore_case_iff. congruence.
Qed.

#[global] Instance same_key_dec s t : Decision (same_key s t).
Proof. unfold same_key. apply _. Defined.

(** ** [trim_string] *)

(** A non-empty string that neither starts nor ends with a blank. *)
Definition trimmed (m : list byte) : Prop :=
  exists x mid, (m = [x] \/ exists y, m = x :: mid ++ [y] /\ is_space y = false)
    /\ is_space x = false.

Lemma trimmed_first m : trimmed m -> exists x r, m = x :: r /\ is_space x = false.
Proof. intros (x & mid & [-> | (y & -> & _)] & Hx); eauto. Qed.

Lemma trimmed_last m : trimmed m -> exists r y, m = r ++ [y] /\ is_space y = false.
Proof.
  intros (x & mid & [-> | (y & -> & Hy)] & Hx).
  - by exists [], x.
  - by exists (x :: mid), y.
Qed.

Lemma trim_count (first last : nat) :
  (first <= last)%nat -> Z.of_nat last < 2 ^ 63 ->
  Z.to_nat (u64 (Z.of_nat last - u64 (Z.of_nat first - 1))) = (last - first + 1)%nat.
Proof.
  intros Hle Hlt. unfold u64, wrap. change (2 ^ 64) with (2 * 2 ^ 63).
  assert (0 < 2 ^ 63) as HM by lia. set (M := 2 ^ 63) in *. clearbody M. destruct first as [|first].
  - replace (Z.of_nat 0 - 1) with (- 1) by lia.
    replace ((-1) mod (2 * M)) with (2 * M - 1) by (apply Z.mod_unique with (-1); lia).
    replace (Z.of_nat last - (2 * M - 1)) with ((Z.of_nat last + 1) + (-1) * (2 * M)) by lia.
    rewrite Z.mod_add by lia. rewrite Z.mod_small by lia. lia.
  - rewrite (Z.mod_small (Z.of_nat (S first) - 1)) by lia.
    rewrite Z.mod_small by lia. lia.
Qed.

Lemma not_space_neg a :
  Forall (fun c => is_space c = true) a -> Forall (fun c => negb (mem whitespace c) = false) a.
Proof. intros H. eapply Forall_impl; [exact H|]. intros c Hc. unfold is_space in Hc. by rewrite Hc. Qed.

(** Leading and trailing blanks go, the rest stays. *)
Lemma trim_string_middle (a m b : list byte)
    (Ha : Forall (fun c => is_space c = true) a)
    (Hm : trimmed m)
    (Hb : Forall (fun c => is_space c = true) b)
    (Hlen : Z.of_nat (length (a ++ m ++ b)) < 2 ^ 63) :
  trim_string (a ++ m ++ b) = Ret m.
Proof.
  unfold trim_string. apply not_space_neg in Ha, Hb.
  destruct (trimmed_first m Hm) as (x & r & Em & Hx).
  destruct (trimmed_last m Hm) as (r' & y & Em' & Hy).
  unfold is_space in Hx, Hy.
  assert (sv_find_first_not_of (a ++ m ++ b) whitespace = Some (length a)) as ->.
  { unfold sv_find_first_not_of. rewrite Em. apply find_index_app; [done|]. by rewrite Hx. }
  assert (sv_find_last_not_of (a ++ m ++ b) whitespace = Some (length a + length r')%nat) as ->.
  { unfold sv_find_last_not_of. rewrite Em'.
    replace (a ++ (r' ++ [y]) ++ b) with ((a ++ r') ++ y :: b) by (by rewrite <- !app_assoc).
    rewrite find_last_index_app by (done || by rewrite Hy). by rewrite length_app. }
  cbn [from_option]. unfold id. rewrite trim_count by (rewrite ?Em' in *; solve_length).
  rewrite sv_substr_Ret by solve_length. rewrite drop_app_length.
  replace (length a + length r' - length a + 1)%nat with (length m) by (rewrite Em'; solve_length).
  by rewrite take_app_length.
Qed.

(** A string of blanks only is returned as it is: both searches fail and the
    defaults select the whole string. *)
Lemma trim_string_blanks (s : list byte)
    (Hs : Forall (fun c => is_space c = true) s)
    (Hlen : Z.of_nat (length s) < 2 ^ 63) :
  trim_string s = Ret s.
Proof.
  unfold trim_string. apply not_space_neg in Hs.
  unfold sv_find_first_not_of, sv_find_last_not_of.
  rewrite (proj2 (find_index_None _ _) Hs), (proj2 (find_last_index_None _ _) Hs). simpl.
  rewrite trim_count by lia. rewrite sv_substr_Ret by lia. rewrite drop_0, take_ge by lia. done.
Qed.

(** Every string is blanks only, or blanks around a trimmed middle. *)
Lemma blanks_or_trimmed s :
  Forall (fun c => is_space c = true) s \/
  exists a m b, s = a ++ m ++ b /\ Forall (fun c => is_space c = true) a /\ trimmed m
    /\ Forall (fun c => is_space c = true) b.
Proof.
  induction s as [|c s [IH | (a & m & b & -> & Ha & Hm & Hb)]]; [by left| |].
  - destruct (is_space c) eqn:E; [left; by constructor|right].
    exists [], [c], s. split_and!; [done|done| |done]. exists c, []. by split; [left|].
  - right. destruct (is_space c) eqn:E.
    + exists (c :: a), m, b. split_and!; [done|by constructor|done|done].
    + exists [], (c :: a ++ m), b. split_and!; [simpl; by rewrite <- app_assoc|done| |done].
      destruct (trimmed_last m Hm) as (r & y & -> & Hy).
      exists c, (a ++ r). split; [right; exists y; by rewrite <- app_assoc|done].
Qed.

Lemma trim_string_returns s : Z.of_nat (length s) < 2 ^ 63 -> exists a r b, trim_string s = Ret r /\ s = a ++ r ++ b.
Proof.
  intros Hlen. destruct (blanks_or_trimmed s) as [Hs | (a & m & b & -> & Ha & Hm & Hb)].
  - exists [], s, []. by rewrite trim_string_blanks, app_nil_r.
  - exists a, m, b. by rewrite trim_string_middle.
Qed.

(** trimming never throws, takes leading and trailing blanks away and keeps
    the rest: the result neither starts nor ends with a blank.  The exception
    is a string of blanks only, which both searches leave as it is. *)
Lemma trim_string_total (s : list byte) (Hlen : Z.of_nat (length s) < 2 ^ 63) :
  exists a r b, trim_string s = Ret r /\ s = a ++ r ++ b
    /\ Forall (fun c => is_space c = true) (a ++ b)
    /\ (trimmed r \/ (Forall (fun c => is_space c = true) r /\ r = s)).
Proof.
  destruct (blanks_or_trimmed s) as [Hs | (a & m & b & -> & Ha & Hm & Hb)].
  - exists [], s, []. rewrite trim_string_blanks, app_nil_r by done. split_and!; auto.
  - exists a, m, b. rewrite trim_string_middle by done. split_and!; [done|done|by apply Forall_app|by left].
Qed.

Lemma trim_string_total_witness :
  trim_string (lit "  a b ") = Ret (lit "a b")
  /\ exists a r b, trim_string (lit "  a b ") = Ret r /\ lit "  a b " = a ++ r ++ b
    /\ Forall (fun c => is_space c = true) (a ++ b)
    /\ (trimmed r \/ (Forall (fun c => is_space c = true) r /\ r = lit "  a b ")).
Proof. split; [by vm_compute|]. apply trim_string_total. vm_compute. reflexivity. Defined.

(** ** [replace] and [replace_all] *)

(** Leftmost, non-overlapping replacement, as a relation. *)
Inductive replaced (rs : list (list byte * list byte)) : list byte -> list byte -> Prop :=
| replaced_nil : replaced rs [] []
| replaced_hit view pat with_this rest out :
    view <> [] -> first_replacement view rs = Some (pat, with_this) -> view = pat ++ rest ->
    replaced rs rest out -> replaced rs view (with_this ++ out)
| replaced_skip c rest out :
    first_replacement (c :: rest) rs = None ->
    replaced rs rest out -> replaced rs (c :: rest) (c :: out).

Lemma first_replacement_Some view rs pat w :
  first_replacement view rs = Some (pat, w) ->
  (pat, w) ∈ rs /\ starts_with view pat = true.
Proof.
  induction rs as [|[p v] rs IH]; simpl; [done|].
  destruct (starts_with view p) eqn:E.
  - intros [= -> ->]. split; [left|done].
  - intros [? ?]%IH. split; [by right|done].
Qed.

Lemma replaced_functional rs view out1 out2 :
  Forall (fun r => r.1 <> []) rs -> replaced rs view out1 -> replaced rs view out2 -> out1 = out2.
Proof.
  intros Hrs H1. revert out2. induction H1 as [|view pat w rest out Hv Hf He H IH|c rest out Hf H IH];
    intros out2 H2.
  - inversion H2; subst; [done|]. exfalso. congruence.
  - inversion H2 as [|view' pat' w' rest' out' Hv' Hf' He' H'|c' rest' out' Hf' H']; subst; try congruence.
    rewrite Hf in Hf'. injection Hf' as -> ->. apply app_inv_head in He' as ->. f_equal. by apply IH.
  - inversion H2 as [|view' pat' w' rest' out' Hv' Hf' He' H'|c' rest' out' Hf' H']; subst; try congruence.
    f_equal. by apply IH.
Qed.

Lemma replace_all_loop_spec fuel view rs :
  Forall (fun r => r.1 <> []) rs -> (length view < fuel)%nat ->
  exists out, replace_all_loop fuel view rs = Ret out /\ replaced rs view out.
Proof.
  intros Hrs. revert view. induction fuel as [|fuel IH]; intros view Hf; [lia|].
  destruct view as [|c rest]; [exists []; split; [done|constructor]|].
  cbn [replace_all_loop]. destruct (first_replacement (c :: rest) rs) as [[pat w]|] eqn:E.
  - pose proof (first_replacement_Some _ _ _ _ E) as [Hin [r Hr]%starts_with_spec].
    rewrite Forall_forall in Hrs. specialize (Hrs _ Hin). simpl in Hrs.
    assert (length (c :: rest) = length (pat ++ r)) as Hlen by (by rewrite Hr).
    assert (0 < length pat)%nat by (destruct pat; [done|simpl; lia]).
    rewrite Hr, sv_substr_from_Ret by solve_length. rewrite drop_app_length, bind_ret.
    destruct (IH r ltac:(solve_length)) as (out & -> & Hout). simpl.
    exists (w ++ out). split; [done|]. rewrite <- Hr. by eapply replaced_hit.
  - destruct (IH rest ltac:(simpl in *; lia)) as (out & -> & Hout). simpl.
    exists (c :: out). split; [done|]. by constructor.
Qed.

(** With non-empty patterns [replace_all] ends, for every input, with the
    leftmost replacement. *)
Lemma replace_all_spec view rs :
  Forall (fun r => r.1 <> []) rs ->
  exists out, replace_all view rs = Ret out /\ replaced rs view out.
Proof. intros Hrs. apply replace_all_loop_spec; [done|lia]. Qed.

(** [replace] is [replace_all] with one replacement. *)
Lemma replace_loop_all fuel view pat w :
  replace_loop fuel view pat w = replace_all_loop fuel view [(pat, w)].
Proof.
  revert view. induction fuel as [|fuel IH]; intros [|c rest]; try done.
  cbn [replace_loop replace_all_loop first_replacement].
  destruct (starts_with (c :: rest) pat); [|by rewrite IH].
  destruct (sv_substr_from (c :: rest) (length pat)); simpl; try done. by rewrite IH.
Qed.

Lemma replace_spec view pat w :
  pat <> [] -> exists out, replace view pat w = Ret out /\ replaced [(pat, w)] view out.
Proof.
  intros Hp. unfold replace. rewrite replace_loop_all. apply replace_all_spec.
  by repeat constructor.
Qed.

(** Single-character patterns: a substitution on characters. *)
Definition substitute (rs : list (byte * list byte)) (c : byte) : list byte :=
  match find (fun r => byte_eqb r.1 c) rs with Some r => r.2 | None => [c] end.

Lemma replaced_chars rs view :
  replaced (map (fun r => ([r.1], r.2)) rs) view (concat (map (substitute rs) view)).
Proof.
  induction view as [|c view IH]; simpl; [constructor|].
  assert (first_replacement (c :: view) (map (fun r => ([r.1], r.2)) rs)
    = (fun r => ([r.1], r.2)) <$> find (fun r => byte_eqb r.1 c) rs) as E.
  { clear. induction rs as [|[b w] rs IH]; [done|]. simpl.
    replace (byte_eqb c b) with (byte_eqb b c)
      by (destruct (byte_eqb_spec b c), (byte_eqb_spec c b); congruence).
    destruct (byte_eqb b c); simpl; [done|]. apply IH. }
  unfold substitute at 1. destruct (find (fun r => byte_eqb r.1 c) rs) as [[b w]|] eqn:Ef.
  - apply find_some in Ef as [_ Hb]. simpl in Hb. apply byte_eqb_eq in Hb as ->.
    eapply replaced_hit; [done| rewrite E; done| done |done].
  - by apply replaced_skip.
Qed.

Lemma replace_all_chars rs view :
  replace_all view (map (fun r => ([r.1], r.2)) rs) = Ret (concat (map (substitute rs) view)).
Proof.
  assert (Forall (fun r : list byte * list byte => r.1 <> []) (map (fun r => ([r.1], r.2)) rs)) as H
    by (apply Forall_map, Forall_true; done).
  destruct (replace_all_spec view _ H) as (out & -> & Hout).
  f_equal. eapply replaced_functional; [done|done|apply replaced_chars].
Qed.

(** An empty pattern starts every view and consumes nothing: on a non-empty
    view the loop of [replace] runs for ever, whatever the fuel. *)
Lemma replace_empty_diverges (fuel : nat) (c : byte) (view with_this : list byte) :
  replace_loop fuel (c :: view) [] with_this = OutOfFuel.
Proof. induction fuel as [|fuel IH]; [done|]. cbn [replace_loop starts_with]. simpl. by rewrite IH. Qed.

(** ** [unquote] *)

Lemma unquote_quoted q s :
  q = x22 \/ q = x27 -> s <> [] -> unquote (q :: s ++ [q]) = Ret s.
Proof.
  intros Hq Hs. unfold unquote. destruct s as [|a s]; [done|].
  assert (length (q :: (a :: s) ++ [q]) = S (S (S (length s)))) as -> by solve_length.
  cbn [Nat.ltb Nat.leb]. replace (S (S (S (length s))) - 1)%nat with (length (q :: a :: s)) by (cbn [length]; lia).
  assert (index (q :: (a :: s) ++ [q]) (length (q :: a :: s)) = Ret q) as ->
    by apply (index_app_mid (q :: a :: s)).
  simpl.
  assert (negb (byte_eqb q x22) && negb (byte_eqb q x27) = false) as -> by (by destruct Hq as [-> | ->]).
  rewrite byte_eqb_refl. cbn [negb].
  change (q :: a :: s ++ [q]) with ([q] ++ (a :: s) ++ [q]).
  replace (S (S (S (length s))) - 2)%nat with (length (a :: s)) by (cbn [length]; lia).
  apply (sv_substr_app [q] (a :: s) [q]).
Qed.

Lemma unquote_plain s c r :
  s = c :: r -> c <> x22 -> c <> x27 -> unquote s = Ret s.
Proof.
  intros -> H1 H2. unfold unquote. destruct (length (c :: r) <? 3)%nat eqn:E; [done|].
  destruct (index_lt (c :: r) (length (c :: r) - 1)) as [x ->]; [cbn [length] in *; lia|].
  simpl. by rewrite (proj2 (byte_eqb_neq c x22) H1), (proj2 (byte_eqb_neq c x27) H2).
Qed.
