(* ===== verification/Hashing.v ===== *)
(** * Hash functions (include/util/hash.hpp, include/util/fnv1a.hpp, and the
    specializations of [std::hash] in registry.hpp, metric.hpp and base64.cpp)

    64-bit words are integers below [2^64].  The standard library's [std::hash]
    is an argument. *)

From Stdlib Require Import ZArith Lia Strings.Byte String.
From stdpp Require Import prelude list strings.
From S2P Require Import Prelude CxxStrings.

Definition word (n : Z) : Prop := 0 <= n < 2 ^ 64.

(** ** Definitions *)

Definition xorshift (n i : Z) : Z := Z.lxor n (Z.shiftr n i).

Definition distribute (n : Z) : Z :=
  let p := 0x5555555555555555 in
  let c := 17316035218449499591 in
  let shift_size := 32 in
  u64 (c * xorshift (u64 (p * xorshift n shift_size)) shift_size).

(** [std::rotl] of a 64-bit word, for [0 < r < 64] *)
Definition rotl (x r : Z) : Z := Z.lor (u64 (Z.shiftl x r)) (Z.shiftr x (64 - r)).

(** [hash_combine(seed, v)], where [h] is [std::hash<T>{}(v)] *)
Definition rotate_by : Z := 64 / 3.
Definition hash_combine (seed h : Z) : Z := Z.lxor (rotl seed rotate_by) (distribute h).

(** [for (c : alphabet) h = hash_combine(h, c)], over the hash codes *)
Definition combine_all (h : Z) (hs : list Z) : Z := fold_left hash_combine hs h.

(** [std::hash<alphabet>] *)
Definition alphabet_hash (size_hash : Z -> Z) (char_hash : byte -> Z) (alphabet : list byte) : Z :=
  combine_all (size_hash (Z.of_nat (length alphabet))) (map char_hash alphabet).

(** [std::hash<std::vector<T>>]: the hash of an element is hashed again. *)
Definition vector_hash {T} (size_hash : Z -> Z) (elem_hash : T -> Z) (value : list T) : Z :=
  combine_all (size_hash (Z.of_nat (length value))) (map (fun e => size_hash (elem_hash e)) value).

(** [std::hash<metric_label>] *)
Definition label_hash (string_hash : list byte -> Z) (key val : list byte) : Z :=
  let key_hash := hash_combine 0 (string_hash key) in hash_combine key_hash (string_hash val).

(** [hash ^= c; hash *= prime], the character converted to [size_t] *)
Definition fnv_prime : Z := 0x00000100000001b3.
Definition fnv_basis : Z := 0xcbf29ce484222325.
Definition fnv_step (hash : Z) (c : byte) : Z := u64 (Z.lxor hash (u64 (char_val c)) * fnv_prime).
Definition fnv1a (s : list byte) : Z := fold_left fnv_step s fnv_basis.

(** ** Words *)

Lemma u64_word n : word (u64 n).
Proof. apply wrap_range. lia. Qed.

Lemma lxor_word a b : word a -> word b -> word (Z.lxor a b).
Proof.
  intros [Ha Ha'] [Hb Hb']. assert (0 <= Z.lxor a b) as H0 by (apply Z.lxor_nonneg; lia). split; [done|].
  destruct (Z.eq_dec (Z.lxor a b) 0) as [->|Hne]; [lia|]. apply Z.log2_lt_pow2; [lia|].
  pose proof (Z.log2_lxor a b Ha Hb) as Hl.
  assert (forall n, 0 <= n < 2 ^ 64 -> Z.log2 n < 64) as Hlog.
  { intros n [Hn Hn']. destruct (Z.eq_dec n 0) as [->|]; [done|]. apply Z.log2_lt_pow2; lia. }
  pose proof (Hlog a ltac:(done)). pose proof (Hlog b ltac:(done)). lia.
Qed.

Lemma lxor_cancel_l a b c : Z.lxor a b = Z.lxor a c -> b = c.
Proof.
  intros E. apply (f_equal (Z.lxor a)) in E. by rewrite <- !Z.lxor_assoc, Z.lxor_nilpotent, !Z.lxor_0_l in E.
Qed.

Lemma lxor_cancel_r a b c : Z.lxor b a = Z.lxor c a -> b = c.
Proof. rewrite !(Z.lxor_comm _ a). apply lxor_cancel_l. Qed.

(** Multiplication by a number with an inverse loses nothing. *)
Lemma mul_inj k inv a b : u64 (inv * k) = 1 -> word a -> word b -> u64 (k * a) = u64 (k * b) -> a = b.
Proof.
  unfold u64, wrap. intros Hi Ha Hb E. rewrite <- (Z.mod_small a (2 ^ 64)), <- (Z.mod_small b (2 ^ 64)) by done.
  rewrite <- (Z.mul_1_l a), <- (Z.mul_1_l b), <- Hi, !Z.mul_mod_idemp_l by lia.
  rewrite <- !Z.mul_assoc, <- (Z.mul_mod_idemp_r inv (k * a)), <- (Z.mul_mod_idemp_r inv (k * b)) by lia. by rewrite E.
Qed.

(** Half a word shifted onto the other half and back. *)
Lemma xorshift_involutive n : word n -> xorshift (xorshift n 32) 32 = n.
Proof.
  intros [Hn Hn']. unfold xorshift. apply Z.bits_inj'. intros i Hi.
  rewrite !Z.lxor_spec, !Z.shiftr_spec, !Z.lxor_spec, !Z.shiftr_spec by lia.
  assert (Z.testbit n (i + 32 + 32) = false) as ->.
  { destruct (Z.eq_dec n 0) as [->|]; [apply Z.testbit_0_l|]. apply Z.bits_above_log2; [done|].
    assert (Z.log2 n < 64) by (apply Z.log2_lt_pow2; lia). lia. }
  by destruct (Z.testbit n i), (Z.testbit n (i + 32)).
Qed.

Lemma xorshift_word n : word n -> word (xorshift n 32).
Proof.
  intros Hn. apply lxor_word; [done|]. destruct Hn. rewrite Z.shiftr_div_pow2 by lia. split; lia_div.
Qed.

Lemma xorshift_inj a b : word a -> word b -> xorshift a 32 = xorshift b 32 -> a = b.
Proof. intros Ha Hb E. by rewrite <- (xorshift_involutive a), <- (xorshift_involutive b), E. Qed.

Lemma distribute_inj a b : word a -> word b -> distribute a = distribute b -> a = b.
Proof.
  intros Ha Hb E. unfold distribute in E.
  apply (mul_inj _ 0x476fba256c382bf7) in E; [|by vm_compute|by apply xorshift_word, u64_word..].
  apply xorshift_inj in E; [|apply u64_word..].
  apply (mul_inj _ 0xfffffffffffffffd) in E; [|by vm_compute|by apply xorshift_word..].
  by apply xorshift_inj.
Qed.

Lemma rotl_sum x : word x -> rotl x rotate_by = x mod 2 ^ 43 * 2 ^ 21 + x / 2 ^ 43.
Proof.
  intros [Hx Hx']. unfold rotl. change rotate_by with 21. change (64 - 21) with 43.
  rewrite Z.shiftr_div_pow2 by lia. unfold u64, wrap. rewrite Z.shiftl_mul_pow2 by lia.
  replace (x * 2 ^ 21) with (Z.shiftl x 21) by (rewrite Z.shiftl_mul_pow2; lia).
  replace (Z.shiftl x 21 mod 2 ^ 64) with (Z.shiftl (x mod 2 ^ 43) 21) by (rewrite !Z.shiftl_mul_pow2 by lia; lia_div).
  apply lor_shiftl_add; [lia|]. lia_div.
Qed.

Lemma rotl_word x : word x -> word (rotl x rotate_by).
Proof. intros Hx. rewrite rotl_sum by done. destruct Hx. split; lia_div. Qed.

Lemma rotl_inj a b : word a -> word b -> rotl a rotate_by = rotl b rotate_by -> a = b.
Proof. intros Ha Hb. rewrite !rotl_sum by done. destruct Ha, Hb. lia_div. Qed.

Lemma hash_combine_word s h : word s -> word (hash_combine s h).
Proof. intros Hs. apply lxor_word; [by apply rotl_word|apply u64_word]. Qed.

Lemma hash_combine_inj_value s a b : word a -> word b -> hash_combine s a = hash_combine s b -> a = b.
Proof. intros Ha Hb E. by apply lxor_cancel_l, distribute_inj in E. Qed.

Lemma hash_combine_inj_seed s t h : word s -> word t -> hash_combine s h = hash_combine t h -> s = t.
Proof. intros Hs Ht E. by apply lxor_cancel_r, rotl_inj in E. Qed.

Lemma combine_all_word h hs : word h -> word (combine_all h hs).
Proof. revert h. induction hs as [|x hs IH]; intros h Hh; [done|]. by apply IH, hash_combine_word. Qed.

Lemma combine_all_inj a b hs : word a -> word b -> combine_all a hs = combine_all b hs -> a = b.
Proof.
  revert a b. induction hs as [|x hs IH]; intros a b Ha Hb E; [done|].
  by apply IH, hash_combine_inj_seed in E; try apply hash_combine_word.
Qed.

Lemma fnv_step_word h c : word (fnv_step h c).
Proof. apply u64_word. Qed.

Lemma char_word_inj c d : u64 (char_val c) = u64 (char_val d) -> c = d.
Proof.
  intros E. apply byte_val_inj. pose proof (byte_val_range c). pose proof (byte_val_range d). revert E. unfold u64, wrap, char_val.
  destruct (byte_val c <? 128) eqn:Hc, (byte_val d <? 128) eqn:Hd; reflect_bools; lia_div.
Qed.

Lemma fnv_step_inj h h' c d : word h -> word h' -> fnv_step h c = fnv_step h' d -> Z.lxor h (u64 (char_val c)) = Z.lxor h' (u64 (char_val d)).
Proof.
  intros Hh Hh'. unfold fnv_step. rewrite !(Z.mul_comm _ fnv_prime).
  apply (mul_inj fnv_prime 0xce965057aff6957b); [by vm_compute|apply lxor_word; [done|apply u64_word]..].
Qed.

Lemma fnv_fold_inj s h h' : word h -> word h' -> fold_left fnv_step s h = fold_left fnv_step s h' -> h = h'.
Proof.
  revert h h'. induction s as [|c s IH]; intros h h' Hh Hh' E; [done|].
  apply IH, fnv_step_inj in E; [|done|done|apply fnv_step_word..]. by apply lxor_cancel_r in E.
Qed.

Lemma fnv_fold_word s h : word h -> word (fold_left fnv_step s h).
Proof. revert h. induction s as [|c s IH]; intros h Hh; [done|]. apply IH, fnv_step_word. Qed.

(** FNV-1a as published: the octets are not negative. *)
Definition fnv1a_reference (s : list byte) : Z :=
  fold_left (fun h c => (Z.lxor h (byte_val c) * fnv_prime) mod 2 ^ 64) s fnv_basis.

Lemma combine_all_changes seed pre x y post :
  word seed -> word x -> word y -> x <> y ->
  word (combine_all seed (pre ++ x :: post))
  /\ combine_all seed (pre ++ x :: post) <> combine_all seed (pre ++ y :: post).
Proof.
  intros Hs Hx Hy Hne. split; [by apply combine_all_word|]. intros E. unfold combine_all in E.
  rewrite !fold_left_app in E. cbn [fold_left] in E. fold (combine_all seed pre) in E.
  pose proof (combine_all_word seed pre Hs) as Hw.
  apply combine_all_inj in E; [|by apply hash_combine_word..]. by apply hash_combine_inj_value in E.
Qed.

Lemma alphabet_hash_changes size_hash char_hash pre c d post :
  (forall n, word (size_hash n)) -> (forall a, word (char_hash a)) -> char_hash c <> char_hash d ->
  alphabet_hash size_hash char_hash (pre ++ c :: post) <> alphabet_hash size_hash char_hash (pre ++ d :: post).
Proof.
  intros Hsz Hch Hne. unfold alphabet_hash. rewrite !map_app, !length_app. cbn [map length].
  by apply combine_all_changes.
Qed.

Lemma label_hash_changes string_hash k v w :
  (forall s, word (string_hash s)) -> string_hash v <> string_hash w ->
  label_hash string_hash k v <> label_hash string_hash k w /\ label_hash string_hash v k <> label_hash string_hash w k.
Proof.
  intros Hw Hne. unfold label_hash. assert (word 0) by done. split; intros E.
  - by apply hash_combine_inj_value in E.
  - apply hash_combine_inj_seed in E; [|by apply hash_combine_word..]. by apply hash_combine_inj_value in E.
Qed.

(** The combined hash is a 64-bit word, and neither the mixing of a hash
    code nor the rotation of the seed loses anything: lists of hash codes that
    differ in one place have different hashes, as have the alphabets that
    differ in one character, the labels that differ in the key or in the value,
    and, under [fnv1a], the texts that differ in one character.  On ASCII [fnv1a] is the published function. *)
Lemma one_change_changes_hash :
  (forall seed pre x y post, word seed -> word x -> word y -> x <> y ->
     word (combine_all seed (pre ++ x :: post))
     /\ combine_all seed (pre ++ x :: post) <> combine_all seed (pre ++ y :: post))
  /\ (forall size_hash char_hash pre c d post,
     (forall n, word (size_hash n)) -> (forall a, word (char_hash a)) -> char_hash c <> char_hash d ->
     alphabet_hash size_hash char_hash (pre ++ c :: post) <> alphabet_hash size_hash char_hash (pre ++ d :: post))
  /\ (forall string_hash k v w, (forall s, word (string_hash s)) -> string_hash v <> string_hash w ->
     label_hash string_hash k v <> label_hash string_hash k w
     /\ label_hash string_hash v k <> label_hash string_hash w k)
  /\ (forall pre c d post, c <> d ->
     word (fnv1a (pre ++ c :: post)) /\ fnv1a (pre ++ c :: post) <> fnv1a (pre ++ d :: post))
  /\ (forall s, Forall (fun c => byte_val c < 128) s -> fnv1a s = fnv1a_reference s).
Proof.
  split_and!.
  - apply combine_all_changes.
  - apply alphabet_hash_changes.
  - apply label_hash_changes.
  - intros pre c d post Hne. assert (word fnv_basis) as Hb by (split; vm_compute; congruence).
    split; [by apply fnv_fold_word|]. unfold fnv1a. rewrite !fold_left_app. cbn [fold_left]. intros E.
    pose proof (fnv_fold_word pre _ Hb) as Hw. apply fnv_fold_inj in E; [|apply fnv_step_word..].
    apply fnv_step_inj in E; [|done|done]. by apply lxor_cancel_l, char_word_inj in E.
  - intros s. unfold fnv1a, fnv1a_reference. generalize fnv_basis. induction s as [|c s IH]; intros h Hs; [done|].
    apply Forall_cons in Hs as [Hc Hs]. cbn [fold_left]. rewrite IH by done. f_equal. unfold fnv_step.
    pose proof (byte_val_range c). unfold char_val. rewrite (proj2 (Z.ltb_lt _ _) Hc). unfold u64 at 2.
    by rewrite wrap_small by lia.
Qed.

Lemma one_change_changes_hash_witness :
  combine_all 3 ([1; 2] ++ 5 :: [4]) <> combine_all 3 ([1; 2] ++ 6 :: [4])
  /\ alphabet_hash u64 byte_val (lit "ABC") <> alphabet_hash u64 byte_val (lit "ABD")
  /\ label_hash (fun s => u64 (Z.of_nat (length s))) (lit "k") (lit "a") <> label_hash (fun s => u64 (Z.of_nat (length s))) (lit "k") (lit "ab")
  /\ fnv1a (lit "foobar") = fnv1a_reference (lit "foobar").
Proof.
  destruct one_change_changes_hash as (H1 & Ha & Hl & _ & H3). split_and!.
  - apply (H1 3 [1; 2] 5 6 [4]); [split; vm_compute; congruence..|discriminate].
  - apply (Ha u64 byte_val (lit "AB") _ _ []); [apply u64_word| |by vm_compute].
    intros a. pose proof (byte_val_range a). unfold word. lia.
  - apply Hl; [intros s; apply u64_word|by vm_compute].
  - apply H3. apply (bool_decide_unpack _). by vm_compute.
Defined.

(** The published test vector of "foobar", and a character above 127, whose
    sign is extended. *)
Example fnv1a_vectors :
  fnv1a (lit "foobar") = 0x85944171f73967e8 /\ fnv1a [x80] <> fnv1a_reference [x80].
Proof. split; vm_compute; congruence. Qed.
