(* ===== verification/Hex.v ===== *)
(** * Hexadecimal encoding (src/encoding/hex.cpp, include/encoding/hex.hpp)

    The two overloads of [encode] and of [decode] are [encode_byte]/[encode]
    and [decode_byte]/[decode].  Writing through [out[i]] is [store]: a write
    past the end of the string is undefined, as is a read past the end of the
    input span. *)

From Stdlib Require Import ZArith Strings.Byte Lia String.
From stdpp Require Import prelude list gmap strings.
From S2P Require Import Prelude CxxStrings.

(** ** Definitions *)

Definition encoded_size (input_size : nat) : nat := input_size * 2.
Definition decoded_size (input_size : nat) : nat := (input_size / 2)%nat.

Definition is_hex_char (c : byte) : bool :=
  ((48 <=? char_val c) && (char_val c <=? 57))
  || ((65 <=? char_val c) && (char_val c <=? 70))
  || ((97 <=? char_val c) && (char_val c <=? 102)).

Definition encode_byte (b : byte) : byte * byte :=
  let v := byte_val b in
  let hi := Z.shiftr (Z.land v 0xF0) 4 in
  let lo := Z.land v 0x0F in
  (byte_of_Z (if hi <? 0xA then hi + 48 else hi - 0xA + 65),
   byte_of_Z (if lo <? 0xA then lo + 48 else lo - 0xA + 65)).

(** [encode_to(span, out, offset)], the loop from index [i]. *)
Fixpoint encode_to_loop (data out : list byte) (offset i : nat) : outcome (list byte) :=
  match data with
  | [] => Ret out
  | b :: data =>
      let chars := encode_byte b in
      let* out := store out (offset + i * 2 + 0) chars.1 in
      let* out := store out (offset + i * 2 + 1) chars.2 in
      encode_to_loop data out offset (S i)
  end.

Definition encode_to (data out : list byte) (offset : nat) : outcome (list byte) :=
  encode_to_loop data out offset 0.

Definition encode_byte_to (data : byte) (out : list byte) (offset : nat) : outcome (list byte) :=
  let '(hi, lo) := encode_byte data in
  let* out := store out (offset + 0) hi in
  store out (offset + 1) lo.

Definition encode (data : list byte) : outcome (list byte) :=
  encode_to data (replicate (encoded_size (length data)) x00) 0.

(** [decode(hi, lo)]: the lambdas [ensure_uppercase] and [parse], then the byte. *)
Definition ensure_uppercase (c : byte) : byte :=
  if 70 <? char_val c then byte_of_Z (char_val c - (97 - 65)) else c.
Definition parse_nibble (c : byte) : Z :=
  u8 (if 65 <=? char_val c then char_val c - 65 + 0xA else char_val c - 48).
Definition decode_byte (hi lo : byte) : byte :=
  let upper := parse_nibble (ensure_uppercase hi) in
  let lower := parse_nibble (ensure_uppercase lo) in
  byte_of_Z (Z.lor (Z.shiftl upper 4) lower).

(** The loop of [decode_to] over the cells of [out]; [i] is the current one. *)
Fixpoint decode_to_loop (fuel i : nat) (data out : list byte) : outcome (bool * list byte) :=
  match fuel with
  | O => Ret (true, out)
  | S fuel =>
      let* hi := index data (i * 2 + 0) in
      let* lo := index data (i * 2 + 1) in
      if negb (is_hex_char hi) || negb (is_hex_char lo) then Ret (false, out)
      else
        let* out := store out i (decode_byte hi lo) in
        decode_to_loop fuel (S i) data out
  end.

(** [decode_to(data, out)]: the flag, and the contents of [out] afterwards. *)
Definition decode_to (data out : list byte) : outcome (bool * list byte) :=
  if negb (length data mod 2 =? 0)%nat || (length out * 2 <? length data)%nat
  then Ret (false, out)
  else decode_to_loop (length out) 0 data out.

Definition decode (data : list byte) : outcome (option (list byte)) :=
  if negb (length data mod 2 =? 0)%nat then Ret None
  else
    let* (valid, out) := decode_to data (replicate (decoded_size (length data)) x00) in
    Ret (if valid then Some out else None).

Arguments encode_byte : simpl never.
Arguments decode_byte : simpl never.
Arguments is_hex_char : simpl never.

(** ** One byte *)

Lemma encode_byte_hex b : is_hex_char (encode_byte b).1 = true /\ is_hex_char (encode_byte b).2 = true.
Proof.
  apply andb_true_iff.
  apply (byte_forall (fun b => is_hex_char (encode_byte b).1 && is_hex_char (encode_byte b).2)).
  vm_compute. reflexivity.
Qed.

Lemma decode_encode_byte b : decode_byte (encode_byte b).1 (encode_byte b).2 = b.
Proof.
  apply byte_eqb_eq.
  apply (byte_forall (fun b => byte_eqb (decode_byte (encode_byte b).1 (encode_byte b).2) b)).
  vm_compute. reflexivity.
Qed.

(** The upper-case form of a hexadecimal digit. *)
Definition hex_upper (c : byte) : byte := if is_hex_char c then ensure_uppercase c else c.

Lemma encode_decode_byte hi lo :
  is_hex_char hi = true -> is_hex_char lo = true ->
  encode_byte (decode_byte hi lo) = (hex_upper hi, hex_upper lo).
Proof.
  intros Hh Hl. pose proof (all_bytes_complete hi) as Ih. pose proof (all_bytes_complete lo) as Il.
  assert (forallb (fun a => forallb (fun b =>
      byte_eqb (encode_byte (decode_byte a b)).1 (hex_upper a)
      && byte_eqb (encode_byte (decode_byte a b)).2 (hex_upper b))
    (List.filter is_hex_char all_bytes)) (List.filter is_hex_char all_bytes) = true) as H
    by (vm_compute; reflexivity).
  rewrite forallb_forall in H. specialize (H hi (proj2 (filter_In _ _ _) (conj Ih Hh))).
  rewrite forallb_forall in H. specialize (H lo (proj2 (filter_In _ _ _) (conj Il Hl))).
  reflect_bools. destruct (encode_byte (decode_byte hi lo)). simpl in *. congruence.
Qed.

(** ** The loops *)

(** The characters of a byte string, two per byte. *)
Definition hex_chars (data : list byte) : list byte :=
  flat_map (fun b => [(encode_byte b).1; (encode_byte b).2]) data.

Lemma hex_chars_length data : length (hex_chars data) = (2 * length data)%nat.
Proof. induction data as [|b data IH]; simpl; [done|]. rewrite IH. lia. Qed.

Lemma hex_chars_hex data : Forall (fun c => is_hex_char c = true) (hex_chars data).
Proof.
  induction data as [|b data IH]; simpl; [done|].
  destruct (encode_byte_hex b). by repeat constructor.
Qed.

Lemma store_pair {A} (pre : list A) a b post x y :
  (let* l := store (pre ++ a :: b :: post) (length pre) x in store l (length pre + 1) y)
  = Ret (pre ++ x :: y :: post).
Proof.
  rewrite store_app_mid, bind_ret.
  replace (pre ++ x :: b :: post) with ((pre ++ [x]) ++ b :: post) by (by rewrite <- app_assoc).
  replace (length pre + 1)%nat with (length (pre ++ [x])) by solve_length.
  rewrite store_app_mid. by rewrite <- app_assoc.
Qed.

Lemma encode_to_loop_spec data pre mid post offset i :
  length pre = (offset + i * 2)%nat -> length mid = (2 * length data)%nat ->
  encode_to_loop data (pre ++ mid ++ post) offset i = Ret (pre ++ hex_chars data ++ post).
Proof.
  revert pre mid i. induction data as [|b data IH]; intros pre mid i Hpre Hmid; simpl in Hmid.
  - destruct mid; [done|simpl in Hmid; lia].
  - destruct mid as [|m1 [|m2 mid]]; simpl in Hmid; try lia.
    cbn [encode_to_loop hex_chars flat_map]. fold (hex_chars data).
    replace (offset + i * 2 + 0)%nat with (length pre) by lia.
    replace (offset + i * 2 + 1)%nat with (length pre + 1)%nat by lia.
    rewrite <- (bind_assoc (store _ _ _)).
    rewrite (store_pair pre m1 m2 (mid ++ post)), bind_ret.
    set (c := encode_byte b).
    replace (pre ++ c.1 :: c.2 :: mid ++ post) with ((pre ++ [c.1; c.2]) ++ mid ++ post)
      by (by rewrite <- app_assoc).
    rewrite IH by solve_length. by rewrite <- app_assoc.
Qed.

(** Encoding into a window of a larger string touches the window only. *)
Lemma encode_to_window data pre mid post :
  length mid = (2 * length data)%nat ->
  encode_to data (pre ++ mid ++ post) (length pre) = Ret (pre ++ hex_chars data ++ post).
Proof. intros H. apply encode_to_loop_spec; [lia|done]. Qed.

Lemma hex_encode_spec data : encode data = Ret (hex_chars data).
Proof.
  unfold encode, encoded_size.
  pose proof (encode_to_window data [] (replicate (length data * 2) x00) []) as H.
  simpl in H. rewrite !app_nil_r in H. apply H. rewrite length_replicate. lia.
Qed.

(** The bytes of a string of hexadecimal digits. *)
Fixpoint hex_bytes (s : list byte) : list byte :=
  match s with
  | hi :: lo :: s => decode_byte hi lo :: hex_bytes s
  | _ => []
  end.

Lemma hex_bytes_chars data : hex_bytes (hex_chars data) = data.
Proof.
  induction data as [|b data IH]; [done|].
  cbn [hex_chars flat_map app hex_bytes]. fold (hex_chars data). by rewrite decode_encode_byte, IH.
Qed.

Lemma hex_chars_bytes s :
  (length s mod 2 = 0)%nat -> Forall (fun c => is_hex_char c = true) s ->
  hex_chars (hex_bytes s) = map hex_upper s.
Proof.
  induction s as [s IH] using (induction_ltof1 _ (@length byte)). unfold ltof in IH.
  destruct s as [|hi [|lo s]]; intros Hl Hs; [done|by rewrite Nat.mod_small in Hl|].
  apply Forall_cons in Hs as [H1 [H2 Hs]%Forall_cons].
  cbn [hex_bytes hex_chars flat_map map]. fold (hex_chars (hex_bytes s)).
  assert ((length s mod 2 = 0)%nat) as Hl'.
  { cbn [length] in Hl. replace (S (S (length s))) with (length s + 1 * 2)%nat in Hl by lia.
    by rewrite Nat.Div0.mod_add in Hl. }
  rewrite encode_decode_byte, IH by (done || cbn [length]; lia). done.
Qed.

Lemma decode_to_loop_spec data pre mid :
  length data = (2 * length mid)%nat ->
  forall front, length front = (2 * length pre)%nat ->
  exists out, decode_to_loop (length mid) (length pre) (front ++ data) (pre ++ mid)
    = Ret (forallb is_hex_char data, out)
    /\ (forallb is_hex_char data = true -> out = pre ++ hex_bytes data).
Proof.
  revert data pre. induction mid as [|m mid IH]; intros data pre Hd front Hf; simpl in Hd.
  - destruct data; [|simpl in Hd; lia]. eexists. split; [done|]. done.
  - destruct data as [|hi [|lo data]]; simpl in Hd; try lia.
    cbn [length decode_to_loop forallb].
    replace (length pre * 2 + 0)%nat with (length front) by lia.
    rewrite index_app_mid, bind_ret.
    replace (front ++ hi :: lo :: data) with ((front ++ [hi]) ++ lo :: data)
      by (by rewrite <- app_assoc).
    replace (length pre * 2 + 1)%nat with (length (front ++ [hi])) by solve_length.
    rewrite index_app_mid, bind_ret.
    destruct (is_hex_char hi); simpl; [|eexists; split; [done|done]].
    destruct (is_hex_char lo); simpl; [|eexists; split; [done|done]].
    rewrite store_app_mid. simpl.
    destruct (IH data (pre ++ [decode_byte hi lo]) ltac:(lia) (front ++ [hi; lo]))
      as (out & Hout & Hv); [solve_length|].
    rewrite <- !app_assoc in Hout. rewrite length_app in Hout. simpl in Hout.
    replace (length pre + 1)%nat with (S (length pre)) in Hout by lia.
    rewrite <- app_assoc. simpl. rewrite Hout. eexists. split; [done|].
    intros H. rewrite Hv by done. by rewrite <- app_assoc.
Qed.

(** [decode_to] on an output of exactly half the size. *)
Lemma decode_to_exact data out :
  length data = (2 * length out)%nat ->
  exists out', decode_to data out = Ret (forallb is_hex_char data, out')
    /\ (forallb is_hex_char data = true -> out' = hex_bytes data).
Proof.
  intros Hl. unfold decode_to.
  assert ((length data mod 2 =? 0)%nat = true) as ->.
  { rewrite Hl, Nat.mul_comm, Nat.Div0.mod_mul. done. }
  rewrite (proj2 (Nat.ltb_ge _ _)) by lia. simpl.
  apply (decode_to_loop_spec data [] out Hl []). done.
Qed.

Lemma even_half n : (n mod 2 =? 0)%nat = true -> n = (2 * (n / 2))%nat.
Proof. intros H. reflect_bools. pose proof (Nat.div_mod_eq n 2). lia. Qed.

Lemma decode_spec data :
  decode data = Ret (if (length data mod 2 =? 0)%nat && forallb is_hex_char data
                     then Some (hex_bytes data) else None).
Proof.
  unfold decode, decoded_size. destruct (length data mod 2 =? 0)%nat eqn:E; [|done]. cbn [negb].
  destruct (decode_to_exact data (replicate (length data / 2) x00)) as (out & -> & Hout).
  { rewrite length_replicate. by apply even_half. }
  simpl. destruct (forallb is_hex_char data); [|done]. by rewrite Hout.
Qed.

(** ** Properties *)

(** decoding what was encoded gives the bytes back, for every input. *)
Lemma hex_roundtrip (data : list byte) :
  exists s, encode data = Ret s /\ length s = encoded_size (length data)
    /\ decode s = Ret (Some data).
Proof.
  exists (hex_chars data). rewrite hex_encode_spec, decode_spec, hex_chars_length.
  split_and!; [done|unfold encoded_size; lia|].
  rewrite Nat.mul_comm, Nat.Div0.mod_mul. simpl.
  rewrite (proj2 (forallb_forall _ _)), hex_bytes_chars; [done|].
  pose proof (hex_chars_hex data) as H. rewrite Forall_forall in H.
  intros c Hc. apply H. by apply list_elem_of_In.
Qed.

(** [decode] is total, and accepts exactly the strings of an even number of
    hexadecimal digits, in either case; encoding the result gives the string
    back in upper case. *)
Lemma hex_decode_accepts (s : list byte) :
  exists r, decode s = Ret r
    /\ (is_Some r <-> (length s mod 2 = 0)%nat /\ Forall (fun c => is_hex_char c = true) s)
    /\ (forall data, r = Some data -> encode data = Ret (map hex_upper s)).
Proof.
  rewrite decode_spec. eexists. split; [done|].
  assert (forallb is_hex_char s = true <-> Forall (fun c => is_hex_char c = true) s) as Hf.
  { rewrite forallb_forall, Forall_forall. setoid_rewrite list_elem_of_In. done. }
  destruct (length s mod 2 =? 0)%nat eqn:E; reflect_bools; cbn [andb].
  - destruct (forallb is_hex_char s) eqn:F; split.
    + split; [|eauto]. intros _. split; [lia|]. by apply Hf.
    + intros data [= <-]. rewrite hex_encode_spec, hex_chars_bytes; [done|lia|by apply Hf].
    + split; [intros [? [=]]|]. intros [_ H]. apply Hf in H. congruence.
    + done.
  - split; [|done]. split; [intros [? [=]]|]. intros [H _]. lia.
Qed.

(** [decode_to] checks only that the input is not too long: with an output
    of more than half the input's length it reads past the input. *)
Lemma hex_decode_to_short_input (data out : list byte)
    (Heven : (length data mod 2 = 0)%nat)
    (Hshort : (length data < 2 * length out)%nat)
    (Hhex : Forall (fun c => is_hex_char c = true) data) :
  decode_to data out = Undef.
Proof.
  unfold decode_to. assert ((length data mod 2 =? 0)%nat = true) as Hev by (apply Nat.eqb_eq; lia).
  rewrite Hev, (proj2 (Nat.ltb_ge _ _)) by lia. simpl. apply even_half in Hev. clear Heven.
  assert (forall n i out, (length out = n + i)%nat -> (i <= length data / 2 < n + i)%nat ->
    decode_to_loop n i data out = Undef) as H; [|by apply H; lia].
  clear Hshort out. induction n as [|n IH]; intros i out Hout Hi; [lia|]. cbn [decode_to_loop].
  destruct (Nat.eq_dec i (length data / 2)%nat) as [->|Hne].
  { unfold index. by rewrite lookup_ge_None_2 by lia. }
  rewrite Forall_forall in Hhex.
  destruct (lookup_lt_is_Some_2 data (i * 2 + 0)) as [hi Hhi]; [lia|].
  destruct (lookup_lt_is_Some_2 data (i * 2 + 1)) as [lo Hlo]; [lia|].
  unfold index. rewrite Hhi, Hlo. simpl.
  rewrite (Hhex hi), (Hhex lo) by (eapply list_elem_of_lookup_2; eassumption). simpl.
  rewrite store_lt by lia. simpl. apply IH; rewrite ?length_insert; lia.
Qed.
