(* ===== verification/Base64.v ===== *)
(** * Base64 (src/encoding/base64.cpp, include/encoding/base64.hpp)

    [encode] fills a string of the computed size in place, triplet by triplet;
    [decode] does the reverse into a vector.  Both are modelled with the index
    arithmetic of the source: a read or a write outside its object is [Undef].

    The decoder reads its input through a raw pointer, and when it skips
    padding it loads one character more than it uses.  The input is therefore
    given as the memory [mem] that starts at the span's first character, and
    the span's length: reading past the span but inside [mem] is harmless (the
    NUL of a string literal or of a [std::string]), reading past [mem] is not.

    A [char] above 127 is negative; [static_cast<std::size_t>] makes a huge
    index of it, so such an access to the tables is [Undef] too.  The sizes of
    objects stay far below [2^60], so that the [size_t] arithmetic of
    [encoded_size] does not wrap. *)

From Stdlib Require Import ZArith Strings.Byte Lia String.
From stdpp Require Import prelude list gmap strings.
From S2P Require Import Prelude CxxStrings.

(** ** Definitions *)

Definition standard_alphabet : list byte :=
  lit "ABCDEFGHIJKLMNOPQRSTUVWXYZabcdefghijklmnopqrstuvwxyz0123456789+/".
Definition url_alphabet : list byte :=
  lit "ABCDEFGHIJKLMNOPQRSTUVWXYZabcdefghijklmnopqrstuvwxyz0123456789-_".

Definition encoded_size (input_size : nat) (padding : bool) : nat :=
  (if padding then (input_size + 2) / 3 * 4 else (input_size * 8 + 5) / 6)%nat.
Definition decoded_size (input_size : nat) (padding : bool) : nat :=
  (if padding then input_size / 4 * 3 else input_size * 6 / 8)%nat.

(** [table[static_cast<std::size_t>(c)]] for a table of 256 entries. *)
Definition char_index (c : byte) : option nat :=
  if char_val c <? 0 then None else Some (Z.to_nat (char_val c)).
Definition table_at (t : list byte) (c : byte) : outcome byte :=
  match char_index c with Some i => index t i | None => Undef end.
Definition table_store (t : list byte) (c x : byte) : outcome (list byte) :=
  match char_index c with Some i => store t i x | None => Undef end.

(** The loop of [build_decoder] that fills the table, from entry [i]. *)
Fixpoint fill_decoder (alphabet : list byte) (i : nat) (out : list byte) : outcome (list byte) :=
  match alphabet with
  | [] => Ret out
  | c :: alphabet =>
      let* out := table_store out c (byte_of_Z (Z.of_nat i)) in
      fill_decoder alphabet (S i) out
  end.

Definition decoder_of (alphabet : list byte) : outcome (list byte) :=
  fill_decoder alphabet 0 (replicate 256 xff).

(** [decoders_cache].  [build_decoder] looks the alphabet up under the shared
    lock, then, under the exclusive lock, looks again and fills the cache. *)
Definition probe_cache (cache : gmap (list byte) (list byte)) (alphabet : list byte)
    : option (list byte) := cache !! alphabet.

Definition fill_cache (cache : gmap (list byte) (list byte)) (alphabet : list byte)
    : outcome (list byte * gmap (list byte) (list byte)) :=
  match cache !! alphabet with
  | Some map => Ret (map, cache)
  | None =>
      let* out := decoder_of alphabet in
      Ret (out, <[alphabet := out]> cache)
  end.

Definition build_decoder (cache : gmap (list byte) (list byte)) (alphabet : list byte)
    : outcome (list byte * gmap (list byte) (list byte)) :=
  match probe_cache cache alphabet with
  | Some map => Ret (map, cache)
  | None => fill_cache cache alphabet
  end.

Record encoding := { encoder : list byte; decoder : list byte; padchar : byte }.

Definition make_encoding (cache : gmap (list byte) (list byte)) (alphabet : list byte) (pad : byte)
    : outcome (encoding * gmap (list byte) (list byte)) :=
  let* (map, cache) := build_decoder cache alphabet in
  Ret ({| encoder := alphabet; decoder := map; padchar := pad |}, cache).

(** [padchar != 0] *)
Definition pads (e : encoding) : bool := negb (byte_eqb (padchar e) x00).

(** [encoder[(combined >> shift) & 0b0011'1111]] *)
Definition sextet (e : encoding) (combined shift : Z) : outcome byte :=
  index (encoder e) (Z.to_nat (Z.land (Z.shiftr combined shift) 63)).

Definition encode_triplet (e : encoding) (out : list byte) (out_i : nat) (data : list byte) (in_i : nat)
    : outcome (list byte) :=
  let* d0 := index data in_i in
  let* d1 := index data (in_i + 1) in
  let* d2 := index data (in_i + 2) in
  let combined := Z.lor (Z.lor (Z.shiftl (byte_val d0) 16) (Z.shiftl (byte_val d1) 8)) (byte_val d2) in
  let* c0 := sextet e combined 18 in
  let* out := store out out_i c0 in
  let* c1 := sextet e combined 12 in
  let* out := store out (out_i + 1) c1 in
  let* c2 := sextet e combined 6 in
  let* out := store out (out_i + 2) c2 in
  let* c3 := sextet e combined 0 in
  store out (out_i + 3) c3.

(** The number of characters written, and the string. *)
Definition encode_trailing (e : encoding) (out : list byte) (out_i : nat) (data : list byte)
    (in_i remaining : nat) : outcome (nat * list byte) :=
  match remaining with
  | 1%nat =>
      let* d0 := index data in_i in
      let combined := Z.shiftl (byte_val d0) 16 in
      let* c0 := sextet e combined 18 in
      let* out := store out out_i c0 in
      let* c1 := sextet e combined 12 in
      let* out := store out (out_i + 1) c1 in
      Ret (2%nat, out)
  | 2%nat =>
      let* d0 := index data in_i in
      let* d1 := index data (in_i + 1) in
      let combined := Z.lor (Z.shiftl (byte_val d0) 16) (Z.shiftl (byte_val d1) 8) in
      let* c0 := sextet e combined 18 in
      let* out := store out out_i c0 in
      let* c1 := sextet e combined 12 in
      let* out := store out (out_i + 1) c1 in
      let* c2 := sextet e combined 6 in
      let* out := store out (out_i + 2) c2 in
      Ret (3%nat, out)
  | _ => Ret (0%nat, out)
  end.

(** The loop over whole triplets: [blocks] of them are left. *)
Fixpoint encode_blocks (blocks : nat) (e : encoding) (out : list byte) (out_i : nat)
    (data : list byte) (in_i : nat) : outcome (list byte * nat * nat) :=
  match blocks with
  | O => Ret (out, out_i, in_i)
  | S blocks =>
      let* out := encode_triplet e out out_i data in_i in
      encode_blocks blocks e out (out_i + 4) data (in_i + 3)
  end.

(** [for (i = from; i < out.size(); ++i) out[i] = padchar] *)
Fixpoint fill_padding (fuel : nat) (pad : byte) (out : list byte) (i : nat) : outcome (list byte) :=
  match fuel with
  | O => OutOfFuel
  | S fuel =>
      if (i <? length out)%nat then
        let* out := store out i pad in
        fill_padding fuel pad out (S i)
      else Ret out
  end.

Definition encode (e : encoding) (data : list byte) : outcome (list byte) :=
  let out := replicate (encoded_size (length data) (pads e)) (padchar e) in
  let* (out, out_i, in_i) := encode_blocks (length data / 3) e out 0 data 0 in
  let* (wrote, out) := encode_trailing e out out_i data in_i (length data - in_i) in
  if pads e then fill_padding (S (length out)) (padchar e) out (out_i + wrote) else Ret out.

(** The inner loop of [decode_triplet] over padding, at offset [i] of the
    triplet; [c] is the character last loaded. *)
Fixpoint skip_padding (fuel : nat) (pad : byte) (mem : list byte) (base i lookahead : nat) (c : byte)
    : outcome nat :=
  match fuel with
  | O => OutOfFuel
  | S fuel =>
      if (i <? lookahead)%nat && byte_eqb c pad then
        let* c := index mem (base + S i) in
        skip_padding fuel pad mem base (S i) lookahead c
      else Ret i
  end.

(** The loop that decodes up to four characters: the final [i], [buf], [buflen]. *)
Fixpoint scan_triplet (fuel : nat) (e : encoding) (mem : list byte) (base i lookahead : nat)
    (buf : list byte) (buflen : nat) : outcome (nat * list byte * nat) :=
  match fuel with
  | O => OutOfFuel
  | S fuel =>
      if (i <? lookahead)%nat then
        let* c := index mem (base + i) in
        let* dec := table_at (decoder e) c in
        if byte_eqb dec xff then
          let* i := if pads e then skip_padding 5 (padchar e) mem base i lookahead c else Ret i in
          Ret (i, buf, buflen)
        else
          let* buf := store buf i dec in
          scan_triplet fuel e mem base (S i) lookahead buf (S buflen)
      else Ret (i, buf, buflen)
  end.

(** [static_cast<std::byte>(combined >> shift)] into [out[out_i + k]], if [buflen >= needed]. *)
Definition write_byte (out : list byte) (i buflen needed : nat) (combined shift : Z) : outcome (list byte) :=
  if (needed <=? buflen)%nat then store out i (byte_of_Z (Z.shiftr combined shift)) else Ret out.

Definition decode_triplet (e : encoding) (out : list byte) (out_i : nat) (mem : list byte)
    (base remaining : nat) : outcome (bool * list byte) :=
  let lookahead := Nat.min remaining 4 in
  let* (i, buf, buflen) := scan_triplet 5 e mem base 0 lookahead [x00; x00; x00; x00] 0 in
  if (i <? lookahead)%nat then Ret (false, out)
  else
    let* b0 := index buf 0 in
    let* b1 := index buf 1 in
    let* b2 := index buf 2 in
    let* b3 := index buf 3 in
    let combined := Z.lor (Z.lor (Z.lor (Z.shiftl (byte_val b0) 18) (Z.shiftl (byte_val b1) 12))
                                 (Z.shiftl (byte_val b2) 6)) (byte_val b3) in
    let* out := write_byte out (out_i + 2) buflen 4 combined 0 in
    let* out := write_byte out (out_i + 1) buflen 3 combined 8 in
    let* out := write_byte out out_i buflen 2 combined 16 in
    Ret (true, out).

Fixpoint decode_loop (fuel : nat) (e : encoding) (mem : list byte) (size in_i out_i : nat) (out : list byte)
    : outcome (option (list byte)) :=
  match fuel with
  | O => OutOfFuel
  | S fuel =>
      if (in_i <? size)%nat then
        let* (valid, out) := decode_triplet e out out_i mem in_i (size - in_i) in
        if valid then decode_loop fuel e mem size (in_i + 4) (out_i + 3) out else Ret None
      else Ret (Some out)
  end.

(** The number of padding characters among the last two of the span;
    [span::last(2)] of a shorter span is undefined. *)
Definition count_padding (pad : byte) (mem : list byte) (size : nat) : outcome nat :=
  if (size <? 2)%nat then Undef
  else
    let* a := index mem (size - 2) in
    let* b := index mem (size - 1) in
    Ret ((if byte_eqb a pad then 1 else 0) + (if byte_eqb b pad then 1 else 0))%nat.

(** [decode(span)], [noexcept]: when more padding is subtracted than the size
    the difference wraps, and the allocation throws out of the function. *)
Definition decode (e : encoding) (mem : list byte) (size : nat) : outcome (option (list byte)) :=
  let out_size := decoded_size size (pads e) in
  let* padding := if pads e then count_padding (padchar e) mem size else Ret 0%nat in
  if (out_size <? padding)%nat then Terminate
  else decode_loop (S size) e mem size 0 0 (replicate (out_size - padding) x00).

(** ** The decoding table *)

Definition nonneg_char (c : byte) : Prop := 0 <= char_val c.

#[global] Instance nonneg_char_dec c : Decision (nonneg_char c).
Proof. unfold nonneg_char. apply _. Defined.

Lemma char_index_nonneg c : nonneg_char c -> char_index c = Some (Z.to_nat (byte_val c)).
Proof.
  unfold nonneg_char, char_index, char_val. pose proof (byte_val_range c).
  destruct (byte_val c <? 128) eqn:E; reflect_bools; [|lia].
  intros _. by rewrite (proj2 (Z.ltb_ge _ _)) by lia.
Qed.

Lemma table_at_store t c d x t' :
  nonneg_char c -> nonneg_char d -> table_store t c x = Ret t' ->
  table_at t' d = if decide (c = d) then Ret x else table_at t d.
Proof.
  unfold table_store, table_at. intros Hc Hd. rewrite !char_index_nonneg by done.
  unfold store, index. destruct (Z.to_nat (byte_val c) <? length t)%nat eqn:E; [|done].
  intros [= <-]. reflect_bools. case_decide as Hcd; subst.
  - by rewrite list_lookup_insert_eq by done.
  - rewrite list_lookup_insert_ne; [done|]. pose proof (byte_val_range c).
    pose proof (byte_val_range d). intros H'. apply Hcd, byte_val_inj. lia.
Qed.

Lemma table_store_length t c x t' : table_store t c x = Ret t' -> length t' = length t.
Proof. unfold table_store. destruct (char_index c); [|done]. apply store_length. Qed.

Lemma table_store_Ret t c x :
  nonneg_char c -> length t = 256%nat -> returns (table_store t c x).
Proof.
  intros Hc Ht. unfold table_store. rewrite char_index_nonneg by done.
  pose proof (byte_val_range c). rewrite store_lt by lia. unfold returns. eauto.
Qed.

Lemma fill_decoder_spec alphabet i out :
  length out = 256%nat -> Forall nonneg_char alphabet ->
  exists m, fill_decoder alphabet i out = Ret m /\ length m = 256%nat
    /\ (forall c, nonneg_char c -> c ∉ alphabet -> table_at m c = table_at out c)
    /\ (NoDup alphabet -> forall j c, alphabet !! j = Some c ->
          table_at m c = Ret (byte_of_Z (Z.of_nat (i + j)))).
Proof.
  intros Hl Ha. revert i out Hl. induction Ha as [|a alphabet Ha Hall IH]; intros i out Hl; simpl.
  { exists out. split_and!; done. }
  destruct (table_store_Ret out a (byte_of_Z (Z.of_nat i)) Ha Hl) as [out' E]. rewrite E. simpl.
  destruct (IH (S i) out') as (m & Hm & Hlm & Hout & Hin).
  { by rewrite (table_store_length _ _ _ _ E). }
  exists m. split_and!; [done|done| |].
  - intros c Hc Hnin. apply not_elem_of_cons in Hnin as [Hne Hnin]. rewrite Hout by done.
    rewrite (table_at_store _ _ _ _ _ Ha Hc E). by rewrite decide_False by congruence.
  - intros Hnd j c Hj. apply NoDup_cons in Hnd as [Hnin Hnd]. destruct j as [|j]; simpl in Hj.
    + injection Hj as ->. rewrite Hout, (table_at_store _ _ _ _ _ Ha Ha E) by done.
      by rewrite decide_True, Nat.add_0_r.
    + rewrite (Hin Hnd j c Hj). do 3 f_equal. lia.
Qed.

(** What the constructor of [encoding] establishes. *)
Record encoding_ok (e : encoding) : Prop := {
  ok_length : length (encoder e) = 64%nat;
  ok_table : forall k c, encoder e !! k = Some c -> table_at (decoder e) c = Ret (byte_of_Z (Z.of_nat k));
  ok_pad : pads e = true -> table_at (decoder e) (padchar e) = Ret xff;
  ok_total : forall c, nonneg_char c -> returns (table_at (decoder e) c);
}.

(** The alphabets the class is made for: 64 distinct ASCII characters, the
    padding character being a further one. *)
Definition alphabet_ok (alphabet : list byte) (pad : byte) : Prop :=
  length alphabet = 64%nat /\ NoDup alphabet /\ Forall nonneg_char alphabet
  /\ nonneg_char pad /\ (pad <> x00 -> pad ∉ alphabet).

#[global] Instance alphabet_ok_dec a p : Decision (alphabet_ok a p).
Proof. unfold alphabet_ok. apply _. Defined.

(** The cache holds only tables that [decoder_of] builds. *)
Definition cache_ok (cache : gmap (list byte) (list byte)) : Prop :=
  map_Forall (fun a m => decoder_of a = Ret m) cache.

Lemma fill_cache_ok cache alphabet m cache' :
  cache_ok cache -> fill_cache cache alphabet = Ret (m, cache') ->
  decoder_of alphabet = Ret m /\ cache_ok cache' /\ cache ⊆ cache'.
Proof.
  unfold fill_cache. intros Hc. destruct (cache !! alphabet) as [m'|] eqn:E.
  - intros [= <- <-]. split_and!; [by apply (Hc _ _ E)|done|done].
  - intros H. outcome_inv. split_and!; [done| |].
    + apply map_Forall_insert_2; done.
    + by apply insert_subseteq.
Qed.

Lemma nonneg_in alphabet k c : Forall nonneg_char alphabet -> alphabet !! k = Some c -> nonneg_char c.
Proof. intros H Hk. rewrite Forall_lookup in H. eauto. Qed.

Lemma decoder_of_ok alphabet pad m :
  alphabet_ok alphabet pad -> decoder_of alphabet = Ret m ->
  encoding_ok {| encoder := alphabet; decoder := m; padchar := pad |}.
Proof.
  intros (Hl & Hnd & Hnn & Hp & Hpad) Hm.
  destruct (fill_decoder_spec alphabet 0 (replicate 256 xff)) as (m' & Hm' & Hlen & Hout & Hin);
    [by rewrite length_replicate|done|].
  unfold decoder_of in Hm. rewrite Hm in Hm'. injection Hm' as <-.
  constructor; simpl; [done| | |].
  - intros k c Hk. by apply (Hin Hnd).
  - unfold pads. simpl. intros Hne. reflect_bools. rewrite Hout by (try apply Hpad; done).
    unfold table_at. rewrite char_index_nonneg by done. unfold index.
    pose proof (byte_val_range pad). by rewrite lookup_replicate_2 by lia.
  - intros c Hc. unfold table_at. rewrite char_index_nonneg by done. apply index_lt.
    pose proof (byte_val_range c). lia.
Qed.

(** Whatever other threads put into the cache between the probe and the fill,
    the encoding that is built is the same. *)
Lemma make_encoding_ok cache alphabet pad :
  cache_ok cache -> alphabet_ok alphabet pad ->
  exists e cache', make_encoding cache alphabet pad = Ret (e, cache')
    /\ encoding_ok e /\ encoder e = alphabet /\ padchar e = pad
    /\ cache_ok cache' /\ cache ⊆ cache'.
Proof.
  intros Hc Ha. unfold make_encoding, build_decoder, probe_cache.
  destruct (cache !! alphabet) as [m|] eqn:E.
  - do 2 eexists. split; [done|]. split_and!; try done.
    apply decoder_of_ok; [done|]. by apply (Hc _ _ E).
  - assert (exists m, decoder_of alphabet = Ret m) as [m Hm].
    { destruct Ha as (_ & _ & Hnn & _). unfold decoder_of.
      destruct (fill_decoder_spec alphabet 0 (replicate 256 xff)) as (m & Hm & _); eauto. }
    assert (fill_cache cache alphabet = Ret (m, <[alphabet := m]> cache)) as Hf.
    { unfold fill_cache. by rewrite E, Hm. }
    rewrite Hf. do 2 eexists. split; [done|].
    destruct (fill_cache_ok _ _ _ _ Hc Hf) as (_ & ? & ?).
    split_and!; try done. by apply decoder_of_ok.
Qed.

(** ** Encoding

    [b64] is the textbook encoding, three bytes at a time: the 24-bit number
    they form is written as four digits in base 64. *)

Definition sym (e : encoding) (k : Z) : byte := default x00 (encoder e !! Z.to_nat k).

Definition group (a b c : byte) : Z := byte_val a * 65536 + byte_val b * 256 + byte_val c.

Definition digits (n : Z) : list Z := [n / 262144 mod 64; n / 4096 mod 64; n / 64 mod 64; n mod 64].

Definition padding_of (e : encoding) (k : nat) : list byte :=
  if pads e then replicate k (padchar e) else [].

Fixpoint b64 (e : encoding) (data : list byte) : list byte :=
  match data with
  | a :: b :: c :: rest => map (sym e) (digits (group a b c)) ++ b64 e rest
  | [a; b] => map (sym e) (take 3 (digits (group a b x00))) ++ padding_of e 1
  | [a] => map (sym e) (take 2 (digits (group a x00 x00))) ++ padding_of e 2
  | [] => []
  end.

Lemma sextet_spec e n s :
  length (encoder e) = 64%nat -> 0 <= s -> sextet e n s = Ret (sym e (n / 2 ^ s mod 64)).
Proof.
  intros Hl Hs. unfold sextet, index, sym. rewrite Z.shiftr_div_pow2 by done.
  rewrite (land_ones_mod _ 6) by lia. change (2 ^ 6) with 64.
  pose proof (Z.mod_pos_bound (n / 2 ^ s) 64 eq_refl).
  destruct (lookup_lt_is_Some_2 (encoder e) (Z.to_nat (n / 2 ^ s mod 64))) as [c ->]; [lia|done].
Qed.

Lemma combined3 a b c :
  Z.lor (Z.lor (Z.shiftl (byte_val a) 16) (Z.shiftl (byte_val b) 8)) (byte_val c) = group a b c.
Proof.
  pose proof (byte_val_range a). pose proof (byte_val_range b). pose proof (byte_val_range c).
  change 16 with (8 + 8). rewrite <- (Z.shiftl_shiftl (byte_val a) 8 8), <- Z.shiftl_lor by lia.
  rewrite lor_shiftl_add by lia. rewrite (lor_shiftl_add (byte_val a)) by lia. unfold group. lia.
Qed.

Lemma combined2 a b :
  Z.lor (Z.shiftl (byte_val a) 16) (Z.shiftl (byte_val b) 8) = group a b x00.
Proof. rewrite <- combined3. by rewrite Z.lor_0_r. Qed.

Lemma combined1 a : Z.shiftl (byte_val a) 16 = group a x00 x00.
Proof. rewrite <- combined2. by rewrite Z.lor_0_r. Qed.

Lemma encode_triplet_spec e o w x y z rest pre a b c d :
  length (encoder e) = 64%nat ->
  encode_triplet e (o ++ w :: x :: y :: z :: rest) (length o) (pre ++ a :: b :: c :: d) (length pre)
  = Ret (o ++ map (sym e) (digits (group a b c)) ++ rest).
Proof.
  intros Hl. unfold encode_triplet. autorewrite with window. rewrite combined3.
  rewrite !sextet_spec by (done || lia). autorewrite with window.
  cbn [digits map app]. by rewrite Z.div_1_r.
Qed.

Lemma encode_blocks_spec e k pre data o rest :
  length (encoder e) = 64%nat -> (3 * k <= length data)%nat -> (4 * k <= length rest)%nat ->
  encode_blocks k e (o ++ rest) (length o) (pre ++ data) (length pre)
  = Ret (o ++ b64 e (take (3 * k) data) ++ drop (4 * k) rest, (length o + 4 * k)%nat, (length pre + 3 * k)%nat).
Proof.
  intros Hl. revert pre data o rest. induction k as [|k IH]; intros pre data o rest Hd Hr.
  { simpl. by rewrite !Nat.add_0_r. }
  destruct data as [|a [|b [|c data]]]; [simpl in Hd; lia..|].
  destruct rest as [|w [|x [|y [|z rest]]]]; [simpl in Hr; lia..|].
  cbn [encode_blocks]. rewrite encode_triplet_spec by done. rewrite bind_ret.
  specialize (IH (pre ++ [a; b; c]) data (o ++ map (sym e) (digits (group a b c))) rest).
  rewrite !length_app, <- !app_assoc in IH. simpl in Hd, Hr. cbn [length app digits map] in *.
  rewrite IH by lia.
  replace (3 * S k)%nat with (S (S (S (3 * k)))) by lia.
  replace (4 * S k)%nat with (S (S (S (S (4 * k))))) by lia.
  cbn [take drop b64 app digits map]. f_equal. f_equal; [f_equal|]; (done || lia).
Qed.

Lemma encode_trailing_spec e o rest pre data :
  length (encoder e) = 64%nat -> (length data <= 2)%nat -> (length data = 0 \/ length data < length rest)%nat ->
  exists wrote, encode_trailing e (o ++ rest) (length o) (pre ++ data) (length pre) (length data)
    = Ret (length wrote, o ++ wrote ++ drop (length wrote) rest)
  /\ b64 e data = wrote ++ padding_of e (if decide (data = []) then 0 else 3 - length data).
Proof.
  intros Hl Hd Hr. destruct data as [|a [|b [|c data]]]; simpl in Hd, Hr; [..|lia]; unfold encode_trailing; cbn [length].
  - exists []. unfold padding_of. rewrite drop_0. by destruct (pads e).
  - destruct rest as [|w [|x rest]]; simpl in Hr; [lia..|].
    exists (map (sym e) (take 2 (digits (group a x00 x00)))). autorewrite with window.
    rewrite combined1, !sextet_spec by (done || lia). by autorewrite with window.
  - destruct rest as [|w [|x [|y rest]]]; simpl in Hr; [lia..|].
    exists (map (sym e) (take 3 (digits (group a b x00)))). autorewrite with window.
    rewrite combined2, !sextet_spec by (done || lia). by autorewrite with window.
Qed.

Lemma fill_padding_spec fuel pad o rest :
  (length rest < fuel)%nat ->
  fill_padding fuel pad (o ++ rest) (length o) = Ret (o ++ replicate (length rest) pad).
Proof.
  revert o rest. induction fuel as [|fuel IH]; intros o rest Hf; [lia|]. cbn [fill_padding].
  rewrite length_app. destruct rest as [|x rest]; simpl in *.
  - rewrite (proj2 (Nat.ltb_ge _ _)) by lia. done.
  - rewrite (proj2 (Nat.ltb_lt _ _)) by lia. autorewrite with window.
    specialize (IH (o ++ [pad]) rest). rewrite <- app_assoc, length_app in IH. simpl in IH.
    rewrite Nat.add_1_r in IH. rewrite IH by lia. by rewrite <- app_assoc.
Qed.

Lemma b64_take_drop e k data :
  (3 * k <= length data)%nat -> b64 e (take (3 * k) data) ++ b64 e (drop (3 * k) data) = b64 e data.
Proof.
  revert data. induction k as [|k IH]; intros data Hd; [done|].
  destruct data as [|a [|b [|c data]]]; [simpl in Hd; lia..|].
  replace (3 * S k)%nat with (S (S (S (3 * k)))) by lia.
  cbn [take drop b64 digits map app]. simpl in Hd. rewrite IH by lia. done.
Qed.

Lemma b64_length e data : length (b64 e data) = encoded_size (length data) (pads e).
Proof.
  unfold encoded_size. induction data as [|a|a b|a b c data IH] using list_ind3;
    cbn [b64]; rewrite ?length_app; unfold padding_of in *; [by destruct (pads e)..|].
  rewrite IH. cbn [length digits map]. destruct (pads e); lia_div.
Qed.

Lemma length_mod_3 {A} (data : list A) :
  exists k, (length data / 3 = k /\ length (drop (3 * k) data) <= 2 /\ 3 * k <= length data)%nat.
Proof. exists (length data / 3)%nat. rewrite length_drop. lia_div. Qed.

Lemma base64_encode_spec e data :
  length (encoder e) = 64%nat -> encode e data = Ret (b64 e data).
Proof.
  intros Hl. unfold encode. destruct (length_mod_3 data) as (k & -> & Hk & Hle).
  set (size := encoded_size _ _). pose proof (b64_take_drop e k data Hle) as Hsplit.
  assert (length (b64 e (take (3 * k) data)) = 4 * k)%nat as Hblocks.
  { rewrite b64_length. unfold encoded_size. rewrite length_take_le by done. destruct (pads e); lia_div. }
  assert (size = 4 * k + length (b64 e (drop (3 * k) data)))%nat as Hsize.
  { subst size. rewrite <- b64_length, <- Hsplit, length_app. lia. }
  pose proof (encode_blocks_spec e k [] data [] (replicate size (padchar e)) Hl Hle) as Hrun.
  cbn [app length Nat.add] in Hrun. rewrite Hrun, bind_ret by (rewrite length_replicate; lia).
  rewrite drop_replicate. set (rest := replicate _ _).
  destruct (encode_trailing_spec e (b64 e (take (3 * k) data)) rest (take (3 * k) data) (drop (3 * k) data))
    as (wrote & Ht & Hb); [done|done| |].
  { subst rest. rewrite length_replicate. destruct (drop (3 * k) data) as [|a [|b [|c l]]] eqn:E;
      [by left|right..]; simpl in *; autorewrite with lengths in *; simpl in *; lia. }
  rewrite take_drop, Hblocks, length_take_le, length_drop in Ht by lia.
  rewrite Ht, bind_ret. rewrite <- Hsplit, Hb.
  assert (length rest = length wrote + length (padding_of e (if decide (drop (3 * k) data = []) then 0 else 3 - length (drop (3 * k) data))))%nat as Hrest.
  { subst rest. rewrite length_replicate, <- length_app, <- Hb. lia. }
  unfold padding_of in *. destruct (pads e) eqn:Ep.
  - rewrite (app_assoc _ wrote).
    rewrite <- Hblocks, <- length_app, fill_padding_spec; [|autorewrite with lengths; lia].
    rewrite length_drop, Hrest, length_replicate, <- app_assoc. do 4 f_equal. lia.
  - simpl in Hrest. rewrite drop_ge by lia. done.
Qed.

(** ** Decoding *)

Lemma sym_decodes e k :
  encoding_ok e -> 0 <= k < 64 -> table_at (decoder e) (sym e k) = Ret (byte_of_Z k).
Proof.
  intros He Hk. unfold sym.
  destruct (lookup_lt_is_Some_2 (encoder e) (Z.to_nat k)) as [c Hc].
  { rewrite (ok_length e He). lia. }
  rewrite Hc. simpl. rewrite (ok_table e He _ _ Hc). by rewrite Z2Nat.id by lia.
Qed.

Lemma small_not_ff k : 0 <= k < 64 -> byte_eqb (byte_of_Z k) xff = false.
Proof.
  intros Hk. apply byte_eqb_neq. intros H. apply (f_equal byte_val) in H.
  rewrite byte_val_of_Z, Z.mod_small in H by lia. change (byte_val xff) with 255 in H. lia.
Qed.

Lemma scan_sym fuel e mem base i lookahead buf n k :
  encoding_ok e -> 0 <= k < 64 -> (i < lookahead)%nat -> index mem (base + i) = Ret (sym e k) ->
  scan_triplet (S fuel) e mem base i lookahead buf n
  = (let* buf := store buf i (byte_of_Z k) in scan_triplet fuel e mem base (S i) lookahead buf (S n)).
Proof.
  intros He Hk Hi Hm. cbn [scan_triplet]. rewrite (proj2 (Nat.ltb_lt _ _)) by done.
  rewrite Hm, bind_ret, sym_decodes, bind_ret by done. by rewrite small_not_ff.
Qed.

Lemma skip_padding_all fuel pad mem base i lookahead k c :
  (i + k = lookahead)%nat -> (k < fuel)%nat ->
  (forall j, (j < k)%nat -> index mem (base + (i + j)) = Ret pad) ->
  returns (index mem (base + lookahead)) -> (0 < k -> c = pad)%nat ->
  skip_padding fuel pad mem base i lookahead c = Ret lookahead.
Proof.
  revert i k c. induction fuel as [|fuel IH]; intros i k c Hk Hf Hm Hend Hc; [lia|].
  cbn [skip_padding]. destruct k as [|k].
  - rewrite (proj2 (Nat.ltb_ge _ _)) by lia. simpl. do 2 f_equal. lia.
  - rewrite (proj2 (Nat.ltb_lt _ _)), (Hc ltac:(lia)), byte_eqb_refl by lia. cbn [andb].
    assert (exists d, index mem (base + S i) = Ret d /\ (0 < k -> d = pad)%nat) as (d & -> & Hd).
    { destruct k as [|k].
      - destruct Hend as [d Hd]. exists d. split; [|lia]. by replace (S i) with lookahead by lia.
      - exists pad. split; [|done]. rewrite <- (Hm 1%nat) by lia. f_equal. lia. }
    rewrite bind_ret. apply (IH (S i) k); [lia|lia| |done|done].
    intros j Hj. rewrite <- (Hm (S j)) by lia. f_equal. lia.
Qed.

Lemma scan_pad fuel e mem base i lookahead buf n k :
  encoding_ok e -> pads e = true -> (i + S k = lookahead)%nat -> (k < 4)%nat ->
  (forall j, (j < S k)%nat -> index mem (base + (i + j)) = Ret (padchar e)) ->
  returns (index mem (base + lookahead)) ->
  scan_triplet (S fuel) e mem base i lookahead buf n = Ret (lookahead, buf, n).
Proof.
  intros He Hp Hk Hk4 Hm Hend. cbn [scan_triplet]. rewrite (proj2 (Nat.ltb_lt _ _)) by lia.
  pose proof (Hm 0%nat ltac:(lia)) as H0. rewrite Nat.add_0_r in H0.
  rewrite H0, bind_ret, (ok_pad e He), bind_ret by done. rewrite Hp, (byte_eqb_refl xff).
  by rewrite (skip_padding_all _ _ _ _ _ _ (S k)) by (done || lia).
Qed.

Lemma digits_range n : Forall (fun k => 0 <= k < 64) (digits n).
Proof. unfold digits. repeat constructor; lia_div. Qed.

Lemma pack4 a b c d : 0 <= a < 64 -> 0 <= b < 64 -> 0 <= c < 64 -> 0 <= d < 64 ->
  Z.lor (Z.lor (Z.lor (Z.shiftl a 18) (Z.shiftl b 12)) (Z.shiftl c 6)) d
  = a * 262144 + b * 4096 + c * 64 + d.
Proof.
  intros Ha Hb Hc Hd. rewrite (Z.shiftl_mul_pow2 b), (Z.shiftl_mul_pow2 c) by lia.
  rewrite (lor_shiftl_add a) by lia.
  replace (a * 2 ^ 18 + b * 2 ^ 12) with (Z.shiftl (a * 64 + b) 12) by (rewrite Z.shiftl_mul_pow2; lia).
  rewrite (lor_shiftl_add (a * 64 + b)) by lia.
  replace ((a * 64 + b) * 2 ^ 12 + c * 2 ^ 6) with (Z.shiftl ((a * 64 + b) * 64 + c) 6)
    by (rewrite Z.shiftl_mul_pow2; lia).
  rewrite lor_shiftl_add by lia. lia.
Qed.

Lemma group_range a b c : 0 <= group a b c < 16777216.
Proof.
  unfold group. pose proof (byte_val_range a). pose proof (byte_val_range b).
  pose proof (byte_val_range c). lia.
Qed.

(** The number a block of digits stands for. *)
Lemma recombine n : 0 <= n < 16777216 ->
  match map byte_of_Z (digits n) with
  | [b0; b1; b2; b3] =>
      Z.lor (Z.lor (Z.lor (Z.shiftl (byte_val b0) 18) (Z.shiftl (byte_val b1) 12))
                   (Z.shiftl (byte_val b2) 6)) (byte_val b3) = n
  | _ => False
  end.
Proof.
  intros Hn. cbn [digits map]. rewrite !byte_val_of_Z, pack4 by lia_div. lia_div.
Qed.

Lemma group_bytes a b c :
  byte_of_Z (Z.shiftr (group a b c) 16) = a /\ byte_of_Z (Z.shiftr (group a b c) 8) = b
  /\ byte_of_Z (Z.shiftr (group a b c) 0) = c.
Proof.
  pose proof (byte_val_range a). pose proof (byte_val_range b). pose proof (byte_val_range c).
  split_and!; apply byte_val_inj; rewrite byte_val_of_Z, Z.shiftr_div_pow2 by lia; unfold group; lia_div.
Qed.

Lemma scan_syms fuel e mem base ks lookahead p q n :
  encoding_ok e -> Forall (fun k => 0 <= k < 64) ks ->
  (length p + length ks <= lookahead)%nat -> (length ks <= length q)%nat ->
  (forall j k, ks !! j = Some k -> index mem (base + (length p + j)) = Ret (sym e k)) ->
  scan_triplet (length ks + fuel) e mem base (length p) lookahead (p ++ q) n
  = scan_triplet fuel e mem base (length p + length ks) lookahead
      (p ++ map byte_of_Z ks ++ drop (length ks) q) (n + length ks).
Proof.
  intros He. revert p q n. induction ks as [|k ks IH]; intros p q n Hks Hl Hq Hm;
    cbn [length map Nat.add] in *.
  { by rewrite !Nat.add_0_r. }
  destruct q as [|x q]; simpl in Hq; [lia|]. apply Forall_cons in Hks as [Hk Hks].
  rewrite (scan_sym _ _ _ _ _ _ _ _ k); [|done|done|lia|].
  2: { rewrite <- (Hm 0%nat k) by done. f_equal. lia. }
  autorewrite with window. specialize (IH (p ++ [byte_of_Z k]) q (S n)).
  rewrite length_app, <- !app_assoc in IH. simpl in IH. rewrite Nat.add_1_r in IH.
  rewrite IH; [|done|lia|lia|].
  - f_equal; lia.
  - intros j k' Hj. rewrite <- (Hm (S j) k') by done. f_equal. lia.
Qed.

Lemma index_map_sym e pre ks post j k :
  ks !! j = Some k -> index (pre ++ map (sym e) ks ++ post) (length pre + (0 + j)) = Ret (sym e k).
Proof.
  intros Hj. rewrite index_app_r. unfold index. simpl.
  rewrite lookup_app_l by (rewrite length_map; by eapply lookup_lt_Some).
  change (map (sym e) ks) with (sym e <$> ks). by rewrite list_lookup_fmap, Hj.
Qed.

(** A block of [k] digits, the rest of the group of four being padding or
    absent: what the scan leaves in [buf]. *)
Lemma scan_block e pre ks post pad lookahead :
  encoding_ok e -> Forall (fun k => 0 <= k < 64) ks -> (length ks + pad = lookahead)%nat -> (lookahead <= 4)%nat ->
  (pads e = false -> pad = 0%nat) -> (pad <> 0%nat -> post <> []) ->
  scan_triplet 5 e (pre ++ map (sym e) ks ++ replicate pad (padchar e) ++ post) (length pre) 0 lookahead
    [x00; x00; x00; x00] 0
  = Ret (lookahead, map byte_of_Z ks ++ drop (length ks) [x00; x00; x00; x00], length ks).
Proof.
  intros He Hks Hl Hl4 Hnp Hpost.
  replace 5%nat with (length ks + S (4 - length ks))%nat by lia.
  rewrite (scan_syms _ _ _ _ ks _ [] [x00; x00; x00; x00] 0 He Hks); [|simpl; lia|simpl; lia|].
  2: { intros j k Hj. by apply index_map_sym. }
  cbn [length Nat.add app]. destruct pad as [|pad].
  - cbn [scan_triplet]. rewrite (proj2 (Nat.ltb_ge _ _)) by lia. do 3 f_equal. lia.
  - assert (forall j, index (pre ++ map (sym e) ks ++ replicate (S pad) (padchar e) ++ post) (length pre + (length ks + j))
              = index (replicate (S pad) (padchar e) ++ post) j) as Hidx.
    { intros j. rewrite index_app_r. rewrite <- (length_map (sym e) ks). apply index_app_r. }
    apply (scan_pad _ _ _ _ _ _ _ _ pad); [done|destruct (pads e); [done|by specialize (Hnp eq_refl)]|lia|lia| |].
    + intros j Hj. rewrite Hidx. unfold index.
      by rewrite lookup_app_l, lookup_replicate_2 by (rewrite ?length_replicate; lia).
    + replace lookahead with (length ks + S pad)%nat by lia. rewrite Hidx. apply index_lt.
      destruct post as [|c post]; [by destruct Hpost|]. rewrite length_app, length_replicate. simpl. lia.
Qed.

(** The number the first three bytes of [data] form, absent ones being zero. *)
Definition group_of (data : list byte) : Z :=
  group (default x00 (data !! 0%nat)) (default x00 (data !! 1%nat)) (default x00 (data !! 2%nat)).

Ltac small_block data :=
  destruct data as [|? [|? [|? [|? ?]]]]; cbn [length] in *; try lia.

Lemma b64_block e data :
  (1 <= length data <= 3)%nat ->
  b64 e data = map (sym e) (take (S (length data)) (digits (group_of data)))
               ++ replicate (if pads e then 3 - length data else 0)%nat (padchar e).
Proof. intros Hl. small_block data; cbn [b64]; unfold padding_of; by destruct (pads e). Qed.

Lemma last_digits_zero data :
  (1 <= length data <= 3)%nat ->
  map byte_of_Z (take (S (length data)) (digits (group_of data)))
  ++ drop (S (length data)) [x00; x00; x00; x00] = map byte_of_Z (digits (group_of data)).
Proof.
  intros Hl. small_block data; unfold group_of, group; cbn -[Z.div Z.modulo Z.mul Z.add byte_val];
    repeat f_equal; change (byte_val x00) with 0.
  all: change x00 with (byte_of_Z 0); f_equal; lia_div.
Qed.

Lemma write_bytes_block o slots rest data :
  (1 <= length data <= 3)%nat -> length slots = length data ->
  (let* out := write_byte (o ++ slots ++ rest) (length o + 2) (S (length data)) 4 (group_of data) 0 in
   let* out := write_byte out (length o + 1) (S (length data)) 3 (group_of data) 8 in
   let* out := write_byte out (length o) (S (length data)) 2 (group_of data) 16 in
   Ret (true, out)) = Ret (true, o ++ data ++ rest).
Proof.
  intros Hl Hs. destruct (group_bytes (default x00 (data !! 0%nat)) (default x00 (data !! 1%nat))
    (default x00 (data !! 2%nat))) as (H0 & H1 & H2).
  unfold write_byte, group_of. rewrite H0, H1, H2.
  small_block data; small_block slots; cbn [Nat.leb app]; autorewrite with window; done.
Qed.

(** What [decode_triplet] makes of one block of the encoding of [data]. *)
Lemma decode_block e o slots rest pre data post remaining :
  encoding_ok e -> (1 <= length data <= 3)%nat -> length slots = length data ->
  (pads e = true -> (length data < 3)%nat -> post <> []) ->
  Nat.min remaining 4 = length (b64 e data) ->
  decode_triplet e (o ++ slots ++ rest) (length o) (pre ++ b64 e data ++ post) (length pre) remaining
  = Ret (true, o ++ data ++ rest).
Proof.
  intros He Hlen Hslots Hpost Hrem. unfold decode_triplet. rewrite Hrem.
  pose proof (group_range (default x00 (data !! 0%nat)) (default x00 (data !! 1%nat))
    (default x00 (data !! 2%nat))) as Hg. fold (group_of data) in Hg.
  assert (length (take (S (length data)) (digits (group_of data))) = S (length data)) as Ht
    by (rewrite length_take; cbn [length digits]; lia).
  rewrite (b64_block e data Hlen) in *. rewrite <- app_assoc, scan_block, bind_ret, Ht; try done.
  - rewrite Nat.ltb_irrefl, last_digits_zero by done.
    pose proof (recombine _ Hg) as Hrec. cbn [digits map] in Hrec |- *. autorewrite with window.
    rewrite Hrec. by apply write_bytes_block.
  - apply Forall_take, digits_range.
  - by autorewrite with lengths.
  - lia.
  - by intros ->.
  - destruct (pads e); [|done]. intros. apply Hpost; [done|lia].
Qed.

(** The tail of memory a padded decoder may look at: at least one character,
    when the encoding of [data] ends in padding. *)
Definition readable_end (e : encoding) (data tail : list byte) : Prop :=
  pads e = true -> (length data mod 3 <> 0)%nat -> tail <> [].

Lemma decode_last_block fuel e pre data tail o :
  encoding_ok e -> (1 <= length data <= 2)%nat -> readable_end e data tail -> (length data < fuel)%nat ->
  decode_loop fuel e (pre ++ b64 e data ++ tail) (length pre + length (b64 e data)) (length pre) (length o)
    (o ++ replicate (length data) x00) = Ret (Some (o ++ data)).
Proof.
  intros He Hl Hend Hf. destruct fuel as [|[|fuel]]; [lia..|]. cbn [decode_loop].
  assert (length (b64 e data) = S (length data) + if pads e then 3 - length data else 0)%nat as Hb.
  { rewrite b64_length. unfold encoded_size. small_block data; by destruct (pads e). }
  rewrite (proj2 (Nat.ltb_lt _ _)) by lia.
  rewrite <- (app_nil_r (replicate _ _)), decode_block; rewrite ?length_replicate; try done; try lia.
  - rewrite bind_ret, app_nil_r. rewrite (proj2 (Nat.ltb_ge _ _)); [done|]. destruct (pads e); lia.
  - intros Hp _. apply Hend; [done|]. small_block data; done.
  - destruct (pads e); lia.
Qed.

Lemma decode_loop_spec fuel e pre data tail o :
  encoding_ok e -> readable_end e data tail -> (length data < fuel)%nat ->
  decode_loop fuel e (pre ++ b64 e data ++ tail) (length pre + length (b64 e data)) (length pre) (length o)
    (o ++ replicate (length data) x00) = Ret (Some (o ++ data)).
Proof.
  intros He. revert fuel pre o.
  induction data as [|a|a b|a b c data IH] using list_ind3; intros fuel pre o Hend Hf.
  - destruct fuel as [|fuel]; [lia|]. cbn [decode_loop b64 length].
    rewrite Nat.add_0_r, Nat.ltb_irrefl. done.
  - apply decode_last_block; simpl in *; (done || lia).
  - apply decode_last_block; simpl in *; (done || lia).
  - destruct fuel as [|fuel]; [simpl in Hf; lia|]. cbn [decode_loop].
    change (b64 e (a :: b :: c :: data)) with (b64 e [a; b; c] ++ b64 e data).
    change (replicate (length (a :: b :: c :: data)) x00) with ([x00; x00; x00] ++ replicate (length data) x00).
    assert (length (b64 e [a; b; c]) = 4%nat) as H4 by done.
    rewrite length_app, H4. rewrite (proj2 (Nat.ltb_lt _ _)) by lia.
    rewrite <- (app_assoc (b64 e [a; b; c])), decode_block; [|done|simpl; lia|done|simpl; lia|lia].
    rewrite bind_ret.
    specialize (IH fuel (pre ++ b64 e [a; b; c]) (o ++ [a; b; c])).
    rewrite !length_app, H4, <- !app_assoc, <- Nat.add_assoc in IH. apply IH.
    + intros Hp Hm. apply Hend; [done|]. cbn [length]. lia_div.
    + simpl in Hf. lia.
Qed.

(** The characters of an encoding other than its padding are not the padding character. *)
Lemma sym_not_pad e k :
  encoding_ok e -> pads e = true -> 0 <= k < 64 -> byte_eqb (sym e k) (padchar e) = false.
Proof.
  intros He Hp Hk. apply byte_eqb_neq. intros Heq.
  pose proof (sym_decodes e k He Hk) as H. rewrite Heq, (ok_pad e He Hp) in H.
  injection H as H. pose proof (small_not_ff k Hk) as Hff. rewrite <- H in Hff. discriminate.
Qed.

Lemma b64_last_block e data :
  data <> [] -> exists init last, data = init ++ last /\ (1 <= length last <= 3)%nat
    /\ (length init mod 3 = 0)%nat /\ b64 e data = b64 e init ++ b64 e last.
Proof.
  induction data as [|a|a b|a b c data IH] using list_ind3; intros Hne; [done| | |].
  - exists [], [a]. simpl. split_and!; (done || lia).
  - exists [], [a; b]. simpl. split_and!; (done || lia).
  - destruct data as [|d data].
    { exists [], [a; b; c]. simpl. split_and!; (done || lia). }
    destruct IH as (init & last & E & Hl & Hm & Hb); [done|].
    exists (a :: b :: c :: init), last. rewrite E. split_and!; [done|lia|lia| |].
    + cbn [length]. lia_div.
    + cbn [b64 app]. rewrite E in Hb. rewrite Hb. by rewrite app_assoc.
Qed.

Lemma count_padding_b64 e data tail :
  encoding_ok e -> pads e = true -> data <> [] ->
  count_padding (padchar e) (b64 e data ++ tail) (length (b64 e data))
  = Ret ((3 - length data mod 3) mod 3)%nat.
Proof.
  intros He Hp Hne. destruct (b64_last_block e data Hne) as (init & last & E & Hl & Hm & Hb).
  assert (length (b64 e last) = 4%nat) as H4.
  { rewrite b64_length. unfold encoded_size. rewrite Hp. small_block last; done. }
  rewrite Hb, length_app, H4, <- app_assoc. unfold count_padding.
  rewrite (proj2 (Nat.ltb_ge _ _)) by lia.
  replace (length (b64 e init) + 4 - 2)%nat with (length (b64 e init) + 2)%nat by lia.
  replace (length (b64 e init) + 4 - 1)%nat with (length (b64 e init) + 3)%nat by lia.
  rewrite E, length_app. rewrite !index_app_r.
  destruct last as [|a [|b [|c [|]]]]; cbn [length] in *; try lia; unfold padding_of;
    cbn [b64]; unfold padding_of; rewrite ?Hp; cbn [digits map take app replicate index lookup];
    autorewrite with window; rewrite ?byte_eqb_refl, ?sym_not_pad by (done || lia_div);
    cbn [Nat.add]; f_equal; lia_div.
Qed.

(** ** Memory safety of decoding, whatever the characters *)

Lemma skip_padding_returns fuel pad mem base i lookahead c :
  (i <= lookahead)%nat -> (lookahead - i < fuel)%nat -> (base + lookahead < length mem)%nat ->
  returns (skip_padding fuel pad mem base i lookahead c).
Proof.
  revert i c. induction fuel as [|fuel IH]; intros i c Hi Hf Hm; [lia|]. cbn [skip_padding].
  destruct (i <? lookahead)%nat eqn:E; simpl; [|unfold returns; eauto]. reflect_bools.
  destruct (byte_eqb c pad); [|unfold returns; eauto].
  destruct (index_lt mem (base + S i) ltac:(lia)) as [d ->]. rewrite bind_ret. apply IH; lia.
Qed.

(** What the scan leaves: how far it read, and that every character it counted
    in [buflen] is in the alphabet. *)
Lemma scan_triplet_returns fuel e mem base i buf :
  encoding_ok e -> Forall nonneg_char mem -> (base + 4 < length mem)%nat -> length buf = 4%nat ->
  (i <= 4)%nat -> (4 - i < fuel)%nat ->
  exists i' buf' n, scan_triplet fuel e mem base i 4 buf i = Ret (i', buf', n)
    /\ length buf' = 4%nat /\ (i <= n <= 4)%nat
    /\ forall j, (i <= j < n)%nat -> forall c, mem !! (base + j)%nat = Some c -> table_at (decoder e) c <> Ret xff.
Proof.
  intros He Hmem Hb. revert i buf. induction fuel as [|fuel IH]; intros i buf Hbuf Hi Hf; [lia|].
  cbn [scan_triplet]. destruct (i <? 4)%nat eqn:E; reflect_bools.
  2: { exists i, buf, i. split_and!; try done; lia. }
  destruct (lookup_lt_is_Some_2 mem (base + i) ltac:(lia)) as [c Hc].
  assert (index mem (base + i) = Ret c) as -> by (unfold index; by rewrite Hc). rewrite bind_ret.
  destruct (ok_total e He c) as [d Hd]; [rewrite Forall_lookup in Hmem; eauto|]. rewrite Hd, bind_ret.
  destruct (byte_eqb_spec d xff) as [->|Hne].
  - assert (returns (if pads e then skip_padding 5 (padchar e) mem base i 4 c else Ret i)) as [i' ->].
    { destruct (pads e); [apply skip_padding_returns; lia|unfold returns; eauto]. }
    exists i', buf, i. split_and!; try done; lia.
  - rewrite store_lt, bind_ret by lia.
    destruct (IH (S i) (<[i:=d]> buf)) as (i' & buf' & n & Heq & Hl & Hn & Hin);
      [by rewrite length_insert|lia|lia|].
    exists i', buf', n. split_and!; [done|done|lia|lia|]. intros j Hj c' Hc'.
    destruct (decide (j = i)) as [->|]; [rewrite Hc in Hc'; simplify_eq; rewrite Hd; congruence|].
    apply (Hin j); [lia|done].
Qed.

Lemma write_byte_returns out i n needed v s :
  ((needed <= n)%nat -> (i < length out)%nat) ->
  exists out', write_byte out i n needed v s = Ret out' /\ length out' = length out.
Proof.
  intros H. unfold write_byte. destruct (needed <=? n)%nat eqn:E; [|eauto]. reflect_bools.
  rewrite store_lt by auto. eexists; split; [done|]. by rewrite length_insert.
Qed.

Lemma decode_triplet_returns e out out_i mem base remaining :
  encoding_ok e -> Forall nonneg_char mem -> (base + 4 < length mem)%nat -> (4 <= remaining)%nat ->
  (forall n, (2 <= n <= 4)%nat ->
     (forall j, (j < n)%nat -> forall c, mem !! (base + j)%nat = Some c -> table_at (decoder e) c <> Ret xff) ->
     (out_i + n - 2 < length out)%nat) ->
  exists valid out', decode_triplet e out out_i mem base remaining = Ret (valid, out') /\ length out' = length out.
Proof.
  intros He Hmem Hb Hrem Hroom. unfold decode_triplet. rewrite Nat.min_r by lia.
  destruct (scan_triplet_returns 5 e mem base 0 [x00; x00; x00; x00] He Hmem Hb)
    as (i & buf & n & -> & Hl & Hn & Hin); [done|lia|lia|]. rewrite bind_ret.
  destruct (i <? 4)%nat; [eauto|].
  destruct buf as [|b0 [|b1 [|b2 [|b3 [|]]]]]; simpl in Hl; try lia. autorewrite with window.
  assert ((2 <= n)%nat -> (out_i + n - 2 < length out)%nat) as Hbound.
  { intros H2. apply Hroom; [lia|]. intros j Hj. apply (Hin j). lia. }
  destruct (write_byte_returns out (out_i + 2) n 4
    (Z.lor (Z.lor (Z.lor (Z.shiftl (byte_val b0) 18) (Z.shiftl (byte_val b1) 12))
                  (Z.shiftl (byte_val b2) 6)) (byte_val b3)) 0) as (o1 & -> & H1); [lia|]. rewrite bind_ret.
  destruct (write_byte_returns o1 (out_i + 1) n 3
    (Z.lor (Z.lor (Z.lor (Z.shiftl (byte_val b0) 18) (Z.shiftl (byte_val b1) 12))
                  (Z.shiftl (byte_val b2) 6)) (byte_val b3)) 8) as (o2 & -> & H2); [lia|]. rewrite bind_ret.
  destruct (write_byte_returns o2 out_i n 2
    (Z.lor (Z.lor (Z.lor (Z.shiftl (byte_val b0) 18) (Z.shiftl (byte_val b1) 12))
                  (Z.shiftl (byte_val b2) 6)) (byte_val b3)) 16) as (o3 & -> & H3); [lia|]. rewrite bind_ret.
  exists true, o3. split; [done|lia].
Qed.

(** [room] leftover slots: [blocks] groups of four are left, and the room for
    the last of them is what its padding says. *)
Lemma decode_loop_returns fuel e mem size blocks out_i out :
  encoding_ok e -> pads e = true -> Forall nonneg_char mem -> (size < length mem)%nat ->
  (4 * blocks <= size)%nat -> (blocks < fuel)%nat ->
  (0 < blocks -> exists pad, (pad <= 2 /\ length out = out_i + 3 * blocks - pad
     /\ (pad <> 0 -> mem !! (size - 1)%nat = Some (padchar e) \/ mem !! (size - 2)%nat = Some (padchar e))
     /\ (pad = 2 -> mem !! (size - 2)%nat = Some (padchar e))))%nat ->
  returns (decode_loop fuel e mem size (size - 4 * blocks) out_i out).
Proof.
  intros He Hp Hmem Hsz. revert blocks out_i out.
  induction fuel as [|fuel IH]; intros blocks out_i out Hle Hf Hroom; [lia|]. cbn [decode_loop].
  destruct blocks as [|blocks].
  { rewrite (proj2 (Nat.ltb_ge _ _)) by lia. unfold returns; eauto. }
  rewrite (proj2 (Nat.ltb_lt _ _)) by lia. destruct (Hroom ltac:(lia)) as (pad & Hpad & Hlen & Hone & Htwo).
  destruct (decode_triplet_returns e out out_i mem (size - 4 * S blocks) (size - (size - 4 * S blocks)))
    as (valid & out' & -> & Hout); [done|done|lia|lia| |].
  - intros n Hn Hin. destruct blocks as [|blocks]; [|lia].
    destruct (decide (pad = 0%nat)) as [->|Hp0]; [lia|].
    assert (forall k, (k < n)%nat -> mem !! (size - 4 + k)%nat <> Some (padchar e)) as Hno.
    { intros k Hk Hc. apply (Hin k Hk (padchar e)); [by rewrite <- Hc; f_equal; lia|by apply ok_pad]. }
    destruct (decide (n = 4)%nat) as [->|H4].
    { exfalso. destruct (Hone Hp0) as [H|H].
      - apply (Hno 3%nat); [lia|]. rewrite <- H. f_equal. lia.
      - apply (Hno 2%nat); [lia|]. rewrite <- H. f_equal. lia. }
    destruct (decide (n = 3)%nat) as [->|H3]; [|lia].
    destruct (decide (pad = 2%nat)) as [->|]; [|lia].
    exfalso. apply (Hno 2%nat); [lia|]. rewrite <- (Htwo eq_refl). f_equal. lia.
  - rewrite bind_ret. destruct valid; [|unfold returns; eauto].
    replace (size - 4 * S blocks + 4)%nat with (size - 4 * blocks)%nat by lia.
    apply IH; [lia|lia|]. intros Hb. exists pad. rewrite Hout, Hlen. split_and!; try done; lia.
Qed.

(** *** The text determines the data *)

Lemma sym_inj e i j :
  NoDup (encoder e) -> length (encoder e) = 64%nat -> 0 <= i < 64 -> 0 <= j < 64 -> sym e i = sym e j -> i = j.
Proof.
  intros Hn Hl Hi Hj. unfold sym.
  destruct (lookup_lt_is_Some_2 (encoder e) (Z.to_nat i)) as [x Hx]; [lia|].
  destruct (lookup_lt_is_Some_2 (encoder e) (Z.to_nat j)) as [y Hy]; [lia|].
  rewrite Hx, Hy. simpl. intros <-. pose proof (NoDup_lookup _ _ _ _ Hn Hx Hy). lia.
Qed.

Lemma sym_in e i : length (encoder e) = 64%nat -> 0 <= i < 64 -> sym e i ∈ encoder e.
Proof.
  intros Hl Hi. unfold sym. destruct (lookup_lt_is_Some_2 (encoder e) (Z.to_nat i)) as [x Hx]; [lia|].
  rewrite Hx. simpl. by eapply list_elem_of_lookup_2.
Qed.

Lemma map_sym_inj e ks ls :
  NoDup (encoder e) -> length (encoder e) = 64%nat ->
  Forall (fun k => 0 <= k < 64) ks -> Forall (fun k => 0 <= k < 64) ls -> map (sym e) ks = map (sym e) ls -> ks = ls.
Proof.
  intros Hn Hl Hks. revert ls. induction Hks as [|k ks Hk Hks IH]; intros [|l ls] Hls E; try done.
  apply Forall_cons in Hls as [Hl0 Hls]. injection E as E1 E2. f_equal; [by apply (sym_inj e)|by apply IH].
Qed.

Lemma digits_inj n m : 0 <= n < 16777216 -> 0 <= m < 16777216 -> digits n = digits m -> n = m.
Proof. intros Hn Hm E. injection E as E1 E2 E3 E4. lia_div. Qed.

Lemma group_inj a b c a' b' c' : group a b c = group a' b' c' -> a = a' /\ b = b' /\ c = c'.
Proof.
  intros E. destruct (group_bytes a b c) as (H1 & H2 & H3). destruct (group_bytes a' b' c') as (H1' & H2' & H3').
  rewrite E in H1, H2, H3. split_and!; congruence.
Qed.

(** The last digits of a short group are zero, so the others determine it. *)
Lemma short_group a b a' b' k :
  (k = 3 \/ k = 2 /\ b = x00 /\ b' = x00)%nat ->
  take k (digits (group a b x00)) = take k (digits (group a' b' x00)) -> a = a' /\ b = b'.
Proof.
  intros Hk E. enough (group a b x00 = group a' b' x00) as G by (apply group_inj in G; tauto).
  apply digits_inj; try apply group_range.
  assert (forall x y, group x y x00 mod 64 = 0) as Z1 by (intros x y; unfold group; change (byte_val x00) with 0; lia_div).
  assert (forall x, group x x00 x00 / 64 mod 64 = 0) as Z2 by (intros x; unfold group; change (byte_val x00) with 0; lia_div).
  revert E. unfold digits. destruct Hk as [->|(-> & -> & ->)]; cbn [take]; intros E; injection E; intros; rewrite ?Z1, ?Z2; congruence.
Qed.

Lemma b64_inj e xs ys :
  NoDup (encoder e) -> length (encoder e) = 64%nat -> pads e = true -> padchar e ∉ encoder e ->
  b64 e xs = b64 e ys -> xs = ys.
Proof.
  intros Hn Hl Hp Hpad. assert (forall n, Forall (fun k => 0 <= k < 64) (digits n)) as Hd by apply digits_range.
  assert (forall n i, padchar e = sym e (n mod 64) -> i = true) as Hsym.
  { intros n i H. destruct Hpad. rewrite H. apply sym_in; [done|]. apply Z.mod_pos_bound. lia. }
  assert (forall n m k, map (sym e) (take k (digits n)) = map (sym e) (take k (digits m)) -> take k (digits n) = take k (digits m)) as Ht.
  { intros n m k. apply map_sym_inj; try done; by apply Forall_take. }
  revert ys. induction xs as [|a|a b|a b c xs IH] using list_ind3; intros ys;
    destruct ys as [|a' [|b' [|c' ys]]]; cbn [b64]; unfold padding_of; rewrite ?Hp; intros E; try done.
  - injection E as E1 E2. destruct (short_group a x00 a' x00 2) as [-> _]; [auto| |done].
    apply Ht. unfold digits. cbn [take map]. by rewrite E1, E2.
  - injection E as _ _ E3. by specialize (Hsym _ false E3).
  - injection E as _ _ E3. by specialize (Hsym _ false E3).
  - injection E as _ _ E3. symmetry in E3. by specialize (Hsym _ false E3).
  - injection E as E1 E2 E3. destruct (short_group a b a' b' 3) as [-> ->]; [auto| |done].
    apply Ht. unfold digits. cbn [take map]. by rewrite E1, E2, E3.
  - injection E as _ _ _ E4. by specialize (Hsym _ false E4).
  - injection E as _ _ E3. symmetry in E3. by specialize (Hsym _ false E3).
  - injection E as _ _ _ E4. symmetry in E4. by specialize (Hsym _ false E4).
  - apply app_inj_1 in E as [E1 E2]; [|by rewrite !length_map]. apply map_sym_inj in E1; [|done..].
    apply digits_inj in E1; [|apply group_range..]. apply group_inj in E1 as (-> & -> & ->). f_equal. f_equal. f_equal. by apply IH.
Qed.

(** ** Properties *)

(** The encodings a program has built before, one after the other: they are
    what is in the cache of decoders. *)
Fixpoint make_encodings (cache : gmap (list byte) (list byte)) (built : list (list byte * byte)) : outcome (gmap (list byte) (list byte)) :=
  match built with
  | [] => Ret cache
  | (alphabet, pad) :: built => let* (_, cache) := make_encoding cache alphabet pad in make_encodings cache built
  end.

Lemma make_encodings_ok cache built :
  cache_ok cache -> Forall (fun ap => alphabet_ok ap.1 ap.2) built ->
  exists cache', make_encodings cache built = Ret cache' /\ cache_ok cache'.
Proof.
  intros Hc Hb. revert cache Hc. induction Hb as [|[alphabet pad] built Ha _ IH]; intros cache Hc; cbn [make_encodings]; [eauto|].
  destruct (make_encoding_ok cache alphabet pad Hc Ha) as (e & cache' & -> & _ & _ & _ & Hc' & _). rewrite bind_ret. by apply IH.
Qed.

Lemma decode_b64 e data tail :
  encoding_ok e -> (pads e = true -> data <> []) -> readable_end e data tail ->
  decode e (b64 e data ++ tail) (length (b64 e data)) = Ret (Some data).
Proof.
  intros He Hp Hend.
  assert ((if pads e then count_padding (padchar e) (b64 e data ++ tail) (length (b64 e data)) else Ret 0%nat)
    = Ret (if pads e then (3 - length data mod 3) mod 3 else 0)%nat) as Hcount.
  { destruct (pads e) eqn:E; [|done]. apply count_padding_b64; try done. apply Hp; done. }
  unfold decode. rewrite Hcount, bind_ret. rewrite b64_length. unfold decoded_size, encoded_size.
  set (pn := if pads e then ((3 - length data mod 3) mod 3)%nat else 0%nat).
  set (size := (if pads e then (length data + 2) / 3 * 4 else (length data * 8 + 5) / 6)%nat).
  assert ((if pads e then size / 4 * 3 else size * 6 / 8) - pn = length data
    /\ pn <= (if pads e then size / 4 * 3 else size * 6 / 8))%nat as [Hsz Hle].
  { subst pn size. destruct (pads e); lia_div. }
  rewrite (proj2 (Nat.ltb_ge _ _)), Hsz by lia.
  replace size with (length (b64 e data)) by apply b64_length.
  apply (decode_loop_spec _ e [] data tail []); [done|done|].
  rewrite b64_length. unfold encoded_size. destruct (pads e); lia_div.
Qed.

(** C15: take an encoding made of a legal alphabet, with or without padding,
    whatever legal encodings have been made before it (the cache of decoders).
    Encoding fills exactly the computed size with the textbook base64 text.
    Decoding that text gives the data back, except that with padding the text of
    no data is undefined to decode ([last(2)] of an empty span), and that a text
    that ends in padding must be followed by a readable character, as it is in a
    string. *)
Theorem base64_roundtrip built alphabet pad data tail :
  Forall (fun ap => alphabet_ok ap.1 ap.2) built -> alphabet_ok alphabet pad ->
  exists cache e cache' s,
    make_encodings ∅ built = Ret cache /\ make_encoding cache alphabet pad = Ret (e, cache')
    /\ encode e data = Ret s /\ s = b64 e data
    /\ length s = encoded_size (length data) (pads e)
    /\ if byte_eqb pad x00 then decode e (s ++ tail) (length s) = Ret (Some data)
       else if bool_decide (data = []) then decode e (s ++ tail) (length s) = Undef
       else (length data mod 3 = 0)%nat \/ tail <> [] -> decode e (s ++ tail) (length s) = Ret (Some data).
Proof.
  intros Hb Ha. destruct (make_encodings_ok ∅ built (map_Forall_empty _) Hb) as (cache & Hbuilt & Hc).
  destruct (make_encoding_ok cache alphabet pad Hc Ha) as (e & cache' & Hm & He & _ & Hpad & _).
  exists cache, e, cache', (b64 e data). rewrite base64_encode_spec by apply He. split_and!; try done; [apply b64_length|].
  assert (pads e = negb (byte_eqb pad x00)) as Hp by (unfold pads; by rewrite Hpad).
  destruct (byte_eqb pad x00) eqn:E; [apply decode_b64; [done|by rewrite Hp|intros Hpt; by rewrite Hp in Hpt]|].
  case_bool_decide as Hd.
  - subst data. unfold decode, count_padding. rewrite Hp. done.
  - intros Ht. apply decode_b64; [done|done|]. intros _ Hmod. by destruct Ht.
Qed.

Lemma base64_roundtrip_witness :
  exists cache e cache' s,
    make_encodings ∅ [(url_alphabet, x00); (standard_alphabet, x00)] = Ret cache
    /\ make_encoding cache standard_alphabet "="%byte = Ret (e, cache')
    /\ encode e (lit "fooba") = Ret s /\ decode e (s ++ [x00]) (length s) = Ret (Some (lit "fooba")).
Proof.
  destruct (base64_roundtrip [(url_alphabet, x00); (standard_alphabet, x00)] standard_alphabet "="%byte (lit "fooba") [x00])
    as (cache & e & cache' & s & H1 & H2 & H3 & _ & _ & H4).
  - repeat (apply Forall_cons_2; [apply (bool_decide_unpack _); vm_compute; exact I|]). apply Forall_nil_2.
  - apply (bool_decide_unpack _). vm_compute. exact I.
  - exists cache, e, cache', s. split_and!; [exact H1|exact H2|exact H3|]. apply H4. right. discriminate.
Defined.

(** a padding decoder never touches memory outside its buffers, whatever
    ASCII text it is given, provided the text is a non-empty multiple of four
    characters long and is followed by a readable character: it either
    rejects the text or returns the decoded bytes. *)
Lemma base64_decode_safe cache alphabet pad e cache' mem size :
  cache_ok cache -> alphabet_ok alphabet pad -> make_encoding cache alphabet pad = Ret (e, cache') ->
  pad <> x00 -> (0 < size)%nat -> (size mod 4 = 0)%nat -> (size < length mem)%nat -> Forall nonneg_char mem ->
  returns (decode e mem size).
Proof.
  intros Hc Ha Hmk Hpad Hpos H4 Hlen Hmem.
  destruct (make_encoding_ok cache alphabet pad Hc Ha) as (e' & c' & Hm & He & _ & Hpc & _).
  rewrite Hmk in Hm. injection Hm as <- <-.
  assert (pads e = true) as Hp by (unfold pads; rewrite Hpc; by apply negb_true_iff, byte_eqb_neq).
  unfold decode, decoded_size, count_padding. rewrite Hp, (proj2 (Nat.ltb_ge _ _)) by lia_div.
  destruct (lookup_lt_is_Some_2 mem (size - 2) ltac:(lia)) as [a Hla].
  destruct (lookup_lt_is_Some_2 mem (size - 1) ltac:(lia)) as [b Hlb].
  unfold index. rewrite Hla, Hlb, !bind_ret.
  assert (size / 4 * 4 = size /\ 1 <= size / 4)%nat as [Hsz H1] by lia_div.
  set (pn := ((if byte_eqb a (padchar e) then 1 else 0) + (if byte_eqb b (padchar e) then 1 else 0))%nat).
  assert (pn <= 2)%nat as Hpn by (subst pn; destruct (byte_eqb a _), (byte_eqb b _); lia).
  rewrite (proj2 (Nat.ltb_ge _ _)) by lia.
  pose proof (decode_loop_returns (S size) e mem size (size / 4) 0 (replicate (size / 4 * 3 - pn) x00) He Hp Hmem Hlen) as H.
  replace (size - 4 * (size / 4))%nat with 0%nat in H by lia. apply H; [lia|lia|].
  intros _. exists pn. rewrite length_replicate, Hla, Hlb. split_and!; [done|lia| |]; subst pn;
    destruct (byte_eqb_spec a (padchar e)) as [->|], (byte_eqb_spec b (padchar e)) as [->|]; try done; eauto; lia.
Qed.

Definition standard_encoding : encoding :=
  match make_encoding ∅ standard_alphabet "="%byte with
  | Ret (e, _) => e
  | _ => {| encoder := []; decoder := []; padchar := x00 |}
  end.

Lemma base64_decode_safe_witness : returns (decode standard_encoding (lit "Zm=9v===" ++ [x00]) 8).
Proof.
  assert (alphabet_ok standard_alphabet "="%byte) as Ha.
  { apply (bool_decide_unpack _). vm_compute. exact I. }
  assert (cache_ok ∅) as Hc by apply map_Forall_empty.
  destruct (make_encoding_ok ∅ standard_alphabet "="%byte Hc Ha) as (e & cache & Hm & _).
  assert (standard_encoding = e) as -> by (unfold standard_encoding; rewrite Hm; reflexivity).
  apply (base64_decode_safe ∅ standard_alphabet "="%byte e cache _ 8 Hc Ha Hm).
  - discriminate.
  - lia.
  - reflexivity.
  - simpl. lia.
  - apply (bool_decide_unpack _). vm_compute. exact I.
Defined.

(** Outside that domain the padding decoder is not safe: an empty input
    and an input without its padding are undefined, a negative [char] indexes
    outside the table, and a padded input with nothing readable behind it is
    read out of bounds; [==] alone ends the process. *)
Lemma base64_decode_unsafe_inputs :
  decode standard_encoding [x00] 0 = Undef
  /\ decode standard_encoding (lit "Zm9vIQ" ++ [x00]) 6 = Undef
  /\ decode standard_encoding ([xc3; xa9; "A"%byte; "A"%byte; x00]) 4 = Undef
  /\ decode standard_encoding (lit "Zg==") 4 = Undef
  /\ decode standard_encoding (lit "==" ++ [x00]) 2 = Terminate.
Proof. vm_compute. split_and!; reflexivity. Qed.
