(* ===== verification/Url.v ===== *)
(** * URLs (src/url.cpp, include/url.hpp)

    [url_parser] is a state machine over one string: [step] is one turn of the
    loop of [url_parser::parse], one definition per [parse_*] member.  The
    members are [noexcept], so an exception inside one of them ends the
    process ([Terminate]).  [unordered_map] is a finite map; the order in which
    [build] walks it is an argument, any listing of the map's entries. *)

From Stdlib Require Import ZArith Strings.Byte Lia String.
From stdpp Require Import prelude list gmap strings.
From S2P Require Import Prelude CxxStrings.

(** ** Definitions *)

Inductive url_parse_state : Type :=
| scheme_st | authority_st | userinfo_st | host_st | port_st | path_st | query_st | fragment_st | done_st.

#[global] Instance url_parse_state_eq_dec : EqDecision url_parse_state.
Proof. solve_decision. Defined.

Definition url_parse_state_to_string (s : url_parse_state) : list byte :=
  match s with
  | scheme_st => lit "scheme"
  | authority_st => lit "authority"
  | userinfo_st => lit "userinfo"
  | host_st => lit "host"
  | port_st => lit "port"
  | path_st => lit "path"
  | query_st => lit "query"
  | fragment_st => lit "fragment"
  | done_st => lit "done"
  end.

Definition next_state (s : url_parse_state) : url_parse_state :=
  match s with
  | scheme_st => authority_st
  | authority_st => userinfo_st
  | userinfo_st => host_st
  | host_st => port_st
  | port_st => path_st
  | path_st => query_st
  | query_st => fragment_st
  | fragment_st => done_st
  | done_st => done_st
  end.

Record url_parse_failure := { failed_at : url_parse_state; failed_index : nat }.

Record user_info := { username : list byte; password : list byte }.

Notation query_values := (gmap (list byte) (list (list byte))) (only parsing).

Record url := {
  scheme : list byte;
  userinfo : user_info;
  host : list byte;
  port : list byte;
  path : list byte;
  query : query_values;
  fragment : list byte;
}.

Definition empty_url : url :=
  {| scheme := []; userinfo := {| username := []; password := [] |}; host := []; port := [];
     path := []; query := ∅; fragment := [] |}.

#[global] Instance user_info_eq_dec : EqDecision user_info.
Proof. solve_decision. Defined.
#[global] Instance url_eq_dec : EqDecision url.
Proof. solve_decision. Defined.

(** The assignments to the members of [out]. *)
Definition set_scheme (u : url) (s : list byte) : url :=
  {| scheme := s; userinfo := userinfo u; host := host u; port := port u; path := path u; query := query u; fragment := fragment u |}.
Definition set_userinfo (u : url) (i : user_info) : url :=
  {| scheme := scheme u; userinfo := i; host := host u; port := port u; path := path u; query := query u; fragment := fragment u |}.
Definition set_host (u : url) (s : list byte) : url :=
  {| scheme := scheme u; userinfo := userinfo u; host := s; port := port u; path := path u; query := query u; fragment := fragment u |}.
Definition set_port (u : url) (s : list byte) : url :=
  {| scheme := scheme u; userinfo := userinfo u; host := host u; port := s; path := path u; query := query u; fragment := fragment u |}.
Definition set_path (u : url) (s : list byte) : url :=
  {| scheme := scheme u; userinfo := userinfo u; host := host u; port := port u; path := s; query := query u; fragment := fragment u |}.
Definition set_query (u : url) (q : query_values) : url :=
  {| scheme := scheme u; userinfo := userinfo u; host := host u; port := port u; path := path u; query := q; fragment := fragment u |}.
Definition set_fragment (u : url) (s : list byte) : url :=
  {| scheme := scheme u; userinfo := userinfo u; host := host u; port := port u; path := path u; query := query u; fragment := s |}.

(** *** Percent-encoding *)

Definition reserved_characters : list byte := lit "!#$%&'()*+,/:;=?@[]".

(** The two characters of [buf] after [to_chars(buf, c, 16)]: [buf] starts as
    two NULs; a negative [char] below [-15] does not fit, and what is in [buf]
    then is unspecified. *)
Definition hex_pair (c : byte) : outcome (byte * byte) :=
  let v := char_val c in
  let s := if v <? 0 then "-"%byte :: to_chars 16 (- v) else to_chars 16 v in
  match s with
  | [a] => Ret (a, x00)
  | [a; b] => Ret (a, b)
  | _ => Undef
  end.

(** The loop keeps [idx] from one turn to the next: the search of the next
    turn starts at the index found in this one. *)
Fixpoint encode_loop (fuel : nat) (str reserved : list byte) (idx : nat) (out : list byte)
    : outcome (list byte) :=
  match fuel with
  | O => OutOfFuel
  | S fuel =>
      match sv_find_first_of str reserved idx with
      | None => Ret (out ++ str)
      | Some idx =>
          let* c := index str idx in
          let* (a, b) := hex_pair c in
          let* prefix := sv_substr str 0 idx in
          let out := out ++ prefix ++ ["%"%byte; a; b] in
          let* str := sv_substr_from str (idx + 1) in
          encode_loop fuel str reserved idx out
      end
  end.

Definition encode (str reserved : list byte) : outcome (list byte) :=
  noexcept (encode_loop (S (length str)) str reserved 0 []).

Fixpoint decode_loop (fuel : nat) (str out : list byte) : outcome (list byte) :=
  match fuel with
  | O => OutOfFuel
  | S fuel =>
      match sv_find str "%" 0 with
      | None => Ret (out ++ str)
      | Some idx =>
          let* hex_val := sv_substr str (idx + 1) 2 in
          let* out :=
            match fc_value (from_chars 16 8 hex_val) with
            | Some val => let* prefix := sv_substr str 0 idx in Ret (out ++ prefix ++ [byte_of_Z val])
            | None => Ret out
            end in
          let* str := sv_substr_from str (idx + 3) in
          decode_loop fuel str out
      end
  end.

Definition decode (str : list byte) : outcome (list byte) :=
  noexcept (decode_loop (S (length str)) str []).

(** *** The parser *)

Record url_parser := {
  input : list byte;
  out : url;
  state : url_parse_state;
  start : nat;
  pend : nat;
}.

Definition parse_scheme (p : url_parser) : outcome url_parser :=
  let* c := sv_at (input p) (pend p) in
  if negb (byte_eqb c ":") then
    let e := S (pend p) in
    if (e =? length (input p))%nat then
      let* first := index (input p) 0 in
      let st := if starts_with (input p) (lit "//") then authority_st
                else if byte_eqb first "/" then path_st
                else host_st in
      Ret {| input := input p; out := out p; state := st; start := start p; pend := 0 |}
    else Ret {| input := input p; out := out p; state := state p; start := start p; pend := e |}
  else
    let* s := sv_substr (input p) (start p) (pend p - start p) in
    Ret {| input := input p; out := set_scheme (out p) s; state := next_state (state p);
           start := pend p + 1; pend := pend p + 1 |}.

Definition parse_authority (p : url_parser) : outcome url_parser :=
  let e := S (pend p) in
  let* slashes :=
    if (e <? length (input p))%nat then
      let* a := sv_at (input p) (start p) in
      if byte_eqb a "/" then let* b := sv_at (input p) e in Ret (byte_eqb b "/") else Ret false
    else Ret false in
  if (slashes : bool)
  then Ret {| input := input p; out := out p; state := userinfo_st; start := e + 1; pend := e + 1 |}
  else Ret {| input := input p; out := out p; state := path_st; start := start p; pend := start p |}.

Definition parse_userinfo (p : url_parser) : outcome url_parser :=
  match sv_find (input p) "@" (start p) with
  | Some e =>
      let* ui := sv_substr (input p) (start p) (e - start p) in
      let* info :=
        match sv_find ui ":" 0 with
        | Some split =>
            let* u := sv_substr ui 0 split in
            let* w := sv_substr ui (split + 1) (e - (split + 1)) in
            Ret {| username := u; password := w |}
        | None => Ret {| username := ui; password := password (userinfo (out p)) |}
        end in
      Ret {| input := input p; out := set_userinfo (out p) info; state := host_st; start := e + 1; pend := e + 1 |}
  | None => Ret {| input := input p; out := out p; state := host_st; start := start p; pend := pend p |}
  end.

(** Where the parser goes after a delimiter at [idx]: the path keeps its
    slash, the other parts lose their delimiter. *)
Definition after_delim (p : url_parser) (out : url) (c : byte) (idx : nat) : url_parser :=
  let go st at_ := {| input := input p; out := out; state := st; start := at_; pend := at_ |} in
  if byte_eqb c ":" then go port_st (idx + 1)%nat
  else if byte_eqb c "/" then go path_st idx
  else if byte_eqb c "?" then go query_st (idx + 1)%nat
  else if byte_eqb c "#" then go fragment_st (idx + 1)%nat
  else go (state p) (idx + 1)%nat.

Definition finished (p : url_parser) (out : url) : url_parser :=
  {| input := input p; out := out; state := done_st; start := start p; pend := length (input p) |}.

(** The common shape of [parse_host], [parse_port] and [parse_path]: the part
    is everything up to the first of [delims], or the rest of the input. *)
Definition parse_part (delims : list byte) (set : url -> list byte -> url) (p : url_parser) : outcome url_parser :=
  match sv_find_first_of (input p) delims (start p) with
  | Some idx =>
      let* s := sv_substr (input p) (start p) (idx - start p) in
      let* c := index (input p) idx in
      Ret (after_delim p (set (out p) s) c idx)
  | None =>
      let* s := sv_substr_from (input p) (start p) in
      Ret (finished p (set (out p) s))
  end.

Definition parse_host : url_parser -> outcome url_parser := parse_part (lit ":/?#") set_host.
Definition parse_port : url_parser -> outcome url_parser := parse_part (lit "/?#") set_port.
Definition parse_path : url_parser -> outcome url_parser := parse_part (lit "?#") set_path.

(** [out.query[key].emplace_back(val)] and [out.query.try_emplace(key)] *)
Definition query_append (q : query_values) (key val : list byte) : query_values :=
  <[key := default [] (q !! key) ++ [val]]> q.
Definition query_touch (q : query_values) (key : list byte) : query_values :=
  match q !! key with Some _ => q | None => <[key := []]> q end.

(** One [key=value] (or bare [key]) of the query. *)
Definition query_pair (kv : list byte) (q : query_values) : outcome query_values :=
  let eq_idx := sv_find kv "=" 0 in
  let* rawkey := match eq_idx with Some n => sv_substr kv 0 n | None => sv_substr_from kv 0 end in
  let* key := decode rawkey in
  match eq_idx with
  | Some n =>
      let* rawval := sv_substr_from kv (n + 1) in
      let* val := decode rawval in
      Ret (query_append q key val)
  | None => Ret (query_touch q key)
  end.

Fixpoint query_loop (fuel : nat) (raw_query : list byte) (q : query_values) : outcome query_values :=
  match fuel with
  | O => OutOfFuel
  | S fuel =>
      match raw_query with
      | [] => Ret q
      | _ =>
          let next_var := sv_find raw_query "&" 0 in
          let* kv := match next_var with Some n => sv_substr raw_query 0 n | None => sv_substr_from raw_query 0 end in
          let* q := query_pair kv q in
          match next_var with
          | None => Ret q
          | Some n =>
              let* raw_query := sv_substr_from raw_query (n + 1) in
              query_loop fuel raw_query q
          end
      end
  end.

Definition parse_query (p : url_parser) : outcome url_parser :=
  let* (raw_query, p) :=
    match sv_find_first_of (input p) (lit "#") (start p) with
    | Some idx =>
        let* raw := sv_substr (input p) (start p) (idx - start p) in
        Ret (raw, {| input := input p; out := out p; state := fragment_st; start := idx + 1; pend := idx + 1 |})
    | None =>
        let* raw := sv_substr_from (input p) (start p) in
        Ret (raw, finished p (out p))
    end in
  let* q := query_loop (S (length raw_query)) raw_query (query (out p)) in
  Ret {| input := input p; out := set_query (out p) q; state := state p; start := start p; pend := pend p |}.

Definition parse_fragment (p : url_parser) : outcome url_parser :=
  let* s := sv_substr_from (input p) (start p) in
  Ret {| input := input p; out := set_fragment (out p) s; state := done_st; start := start p; pend := pend p |}.

Definition step (p : url_parser) : outcome url_parser :=
  noexcept
    match state p with
    | scheme_st => parse_scheme p
    | authority_st => parse_authority p
    | userinfo_st => parse_userinfo p
    | host_st => parse_host p
    | port_st => parse_port p
    | path_st => parse_path p
    | query_st => parse_query p
    | fragment_st => parse_fragment p
    | done_st => Ret (finished p (out p))
    end.

(** The loop of [url_parser::parse]. *)
Fixpoint parse_loop (fuel : nat) (p : url_parser) : outcome url_parser :=
  match fuel with
  | O => OutOfFuel
  | S fuel =>
      if (pend p <? length (input p))%nat then let* p := step p in parse_loop fuel p else Ret p
  end.

Definition decode_part (s : list byte) : outcome (list byte) :=
  match s with [] => Ret [] | _ => decode s end.

(** The parts are unescaped once the loop has ended. *)
Definition decode_parts (u : url) : outcome url :=
  let* sch := decode_part (scheme u) in
  let* usr := decode_part (username (userinfo u)) in
  let* pwd := decode_part (password (userinfo u)) in
  let* hst := decode_part (host u) in
  let* prt := decode_part (port u) in
  let* pth := decode_part (path u) in
  let* frg := decode_part (fragment u) in
  Ret {| scheme := sch; userinfo := {| username := usr; password := pwd |}; host := hst; port := prt;
         path := pth; query := query u; fragment := frg |}.

(** The scheme state is left after at most one turn per character (and one
    backtrack), the others are each left after one turn. *)
Definition parse_fuel (s : list byte) : nat := length s + 12.

Definition run_parser (p : url_parser) : outcome url_parser :=
  let* p := parse_loop (parse_fuel (input p)) p in
  let* u := decode_parts (out p) in
  Ret {| input := input p; out := u; state := state p; start := start p; pend := pend p |}.

Definition initial (s : list byte) : url_parser :=
  {| input := s; out := empty_url; state := scheme_st; start := 0; pend := 0 |}.

Definition parse (s : list byte) : outcome (url + url_parse_failure) :=
  let* p := run_parser (initial s) in
  if decide (state p = done_st) then Ret (inl (out p))
  else Ret (inr {| failed_at := state p; failed_index := pend p |}).

(** *** Building *)

Definition user_info_empty (i : user_info) : bool :=
  match username i, password i with [], [] => true | _, _ => false end.

(** The loops over the query: [sep] is ['?'] until something has been written. *)
Fixpoint build_values (key : list byte) (vals : list (list byte)) (sep : byte) : list byte * byte :=
  match vals with
  | [] => ([], sep)
  | v :: vals =>
      let (s, sep') := build_values key vals "&"%byte in
      (sep :: key ++ "="%byte :: v ++ s, sep')
  end.

Fixpoint build_query (order : list (list byte * list (list byte))) (sep : byte) : list byte :=
  match order with
  | [] => []
  | (key, vals) :: order =>
      let (s, sep) := build_values key vals sep in s ++ build_query order sep
  end.

(** [u.build()], the query being walked in the given [order]. *)
Definition build (u : url) (order : list (list byte * list (list byte))) : list byte :=
  (match scheme u with [] => [] | s => s ++ lit "://" end)
  ++ (if user_info_empty (userinfo u) then []
      else username (userinfo u) ++ lit ":" ++ password (userinfo u) ++ lit "@")
  ++ host u
  ++ (match port u with [] => [] | s => lit ":" ++ s end)
  ++ path u
  ++ build_query order "?"%byte
  ++ (match fragment u with [] => [] | s => lit "#" ++ s end).

(** The order is a listing of the map. *)
Definition lists_query (order : list (list byte * list (list byte))) (q : query_values) : Prop :=
  order ≡ₚ map_to_list q.

(** [operator==] of the two structures *)
Definition user_info_eqb (lhs rhs : user_info) : bool :=
  bytes_eqb (username lhs) (username rhs) && bytes_eqb (password lhs) (password rhs).

Definition url_eqb (lhs rhs : url) : bool :=
  bytes_eqb (scheme lhs) (scheme rhs)
  && user_info_eqb (userinfo lhs) (userinfo rhs)
  && bytes_eqb (host lhs) (host rhs)
  && bytes_eqb (port lhs) (port rhs)
  && bytes_eqb (path lhs) (path rhs)
  && bool_decide (query lhs = query rhs)
  && bytes_eqb (fragment lhs) (fragment rhs).

(** No member is forgotten. *)
Lemma url_eqb_eq lhs rhs : url_eqb lhs rhs = true <-> lhs = rhs.
Proof.
  unfold url_eqb, user_info_eqb. rewrite !andb_true_iff, !bytes_eqb_eq, bool_decide_eq_true.
  destruct lhs as [? [? ?] ? ? ? ? ?], rhs as [? [? ?] ? ? ? ? ?]. cbn. split.
  - by intros [[[[[[-> [-> ->]] ->] ->] ->] ->] ->].
  - intros Heq. injection Heq. intros. by subst.
Qed.

(** ** Percent-encoding *)

Definition no_percent (s : list byte) : Prop := "%"%byte ∉ s.

Lemma not_elem_Forall (c : byte) s : c ∉ s -> Forall (fun y => byte_eqb c y = false) s.
Proof.
  intros H. apply Forall_forall. intros y Hy. apply byte_eqb_neq. intros ->.
  apply H, list_elem_of_In. by apply list_elem_of_In in Hy.
Qed.

Lemma find_absent c s pos : c ∉ s -> sv_find s c pos = None.
Proof.
  intros H. apply find_from_None, not_elem_Forall. intros Hin. apply H.
  by apply (subseteq_drop pos).
Qed.

Lemma decode_loop_plain fuel s o : no_percent s -> decode_loop (S fuel) s o = Ret (o ++ s).
Proof. intros H. cbn [decode_loop]. by rewrite find_absent. Qed.

Lemma decode_plain s : no_percent s -> decode s = Ret s.
Proof. intros H. unfold decode. by rewrite decode_loop_plain. Qed.

(** One escape: the text before it is kept, the two digits become a byte. *)
Lemma decode_loop_escape fuel a h l rest o v :
  no_percent a -> from_chars 16 8 [h; l] = {| fc_ptr := 2; fc_ec := errc_ok; fc_value := Some v |} ->
  decode_loop (S fuel) (a ++ "%"%byte :: h :: l :: rest) o
  = decode_loop fuel rest (o ++ a ++ [byte_of_Z v]).
Proof.
  intros Ha Hv. cbn [decode_loop]. unfold sv_find.
  rewrite find_from_0_app by (apply byte_eqb_refl || by apply not_elem_Forall).
  rewrite sv_substr_Ret by solve_length.
  rewrite drop_app_add, bind_ret. change (take 2 _) with [h; l]. rewrite Hv. cbn [fc_value].
  rewrite sv_substr_Ret, !bind_ret by lia. rewrite drop_0, take_app_length.
  rewrite sv_substr_from_Ret by solve_length. rewrite bind_ret.
  by rewrite drop_app_add.
Qed.

(** Every turn of the loop shortens the string: it ends, with a value or (an
    escape cut short) with an exception. *)
Lemma decode_loop_ends fuel s o :
  (length s < fuel)%nat -> returns (decode_loop fuel s o) \/ decode_loop fuel s o = Throw out_of_range.
Proof.
  revert s o. induction fuel as [|fuel IH]; intros s o Hf; [lia|]. cbn [decode_loop].
  destruct (sv_find s "%" 0) as [i|] eqn:E; [|left; unfold returns; eauto].
  apply find_from_Some in E. rewrite sv_substr_Ret, bind_ret by lia.
  set (m := match fc_value _ with Some _ => _ | None => _ end).
  assert (exists o', m = Ret o') as [o' ->].
  { subst m. destruct (fc_value _); [|eauto]. rewrite sv_substr_Ret by lia. simpl. eauto. }
  rewrite bind_ret. unfold sv_substr_from. destruct (i + 3 <=? length s)%nat eqn:E3; [|right; done].
  rewrite bind_ret. apply IH. reflect_bools. rewrite length_drop. lia.
Qed.

Lemma decode_ends s : returns (decode s) \/ decode s = Terminate.
Proof.
  unfold decode. destruct (decode_loop_ends (S (length s)) s []) as [[r ->]| ->]; [lia|left|right; done].
  unfold returns; eauto.
Qed.

(** The characters [url::encode] escapes by default are escaped by two digits
    that read back as the character; checked on all of them. *)
Definition escape_reads_back (c : byte) : bool :=
  negb (mem reserved_characters c) ||
  match hex_pair c with
  | Ret (h, l) =>
      let r := from_chars 16 8 [h; l] in
      bool_decide (fc_ptr r = 2%nat) && bool_decide (fc_ec r = errc_ok)
      && bool_decide (fc_value r = Some (byte_val c))
  | _ => false
  end.

Lemma reserved_hex c :
  mem reserved_characters c = true ->
  exists h l, hex_pair c = Ret (h, l)
    /\ from_chars 16 8 [h; l] = {| fc_ptr := 2; fc_ec := errc_ok; fc_value := Some (byte_val c) |}.
Proof.
  intros Hc. pose proof (byte_forall escape_reads_back ltac:(vm_compute; reflexivity) c) as H.
  unfold escape_reads_back in H. rewrite Hc in H. cbn [negb orb] in H.
  destruct (hex_pair c) as [[h l]| | | |]; try done. exists h, l. split; [done|].
  destruct (from_chars 16 8 [h; l]) as [p ec v]. cbn [fc_ptr fc_ec fc_value] in H.
  rewrite !andb_true_iff, !bool_decide_eq_true in H. naive_solver.
Qed.

Lemma no_percent_app a b : no_percent (a ++ b) <-> no_percent a /\ no_percent b.
Proof. unfold no_percent. rewrite elem_of_app. naive_solver. Qed.

(** Escaping what the loop has left, then unescaping, in step. *)
Lemma encode_loop_decodes fuel s idx o :
  (length s < fuel)%nat -> no_percent s ->
  exists t, encode_loop fuel s reserved_characters idx o = Ret (o ++ t)
    /\ forall fuel' o', (length t < fuel')%nat -> decode_loop fuel' t o' = Ret (o' ++ s).
Proof.
  revert s idx o. induction fuel as [|fuel IH]; intros s idx o Hf Hs; [lia|]. cbn [encode_loop].
  destruct (sv_find_first_of s reserved_characters idx) as [i|] eqn:E.
  2: { exists s. split; [done|]. intros [|f] o' H'; [lia|]. by apply decode_loop_plain. }
  pose proof (find_from_Some _ _ _ _ E) as Hi. apply find_from_split in E as (a & c & b & Hd & -> & Hc & _).
  assert (s = take idx s ++ a ++ c :: b) as Hsplit by (rewrite <- Hd; symmetry; apply take_drop).
  set (pre := take idx s ++ a) in *. rewrite app_assoc in Hsplit. fold pre in Hsplit.
  assert ((idx + length a)%nat = length pre) as -> by (subst pre; rewrite length_app, length_take; lia).
  clearbody pre. subst s. clear Hd. rewrite index_app_mid, bind_ret.
  destruct (reserved_hex c Hc) as (h & l & -> & Hfc). rewrite bind_ret.
  rewrite sv_substr_Ret, drop_0, take_app_length, bind_ret by lia.
  rewrite sv_substr_from_Ret, bind_ret by solve_length.
  rewrite drop_app_add. change (drop 1 (c :: b)) with b.
  apply no_percent_app in Hs as [Hpre Hb].
  destruct (IH b (length pre) (o ++ pre ++ ["%"%byte; h; l])) as (t & -> & Ht).
  { solve_length. }
  { intros Hin. apply Hb. by right. }
  exists (pre ++ "%"%byte :: h :: l :: t). split; [by rewrite <- !app_assoc|].
  intros [|f] o' Hf'; [lia|]. rewrite (decode_loop_escape f pre h l t o' (byte_val c)) by done.
  rewrite byte_of_val, Ht by solve_length. by rewrite <- !app_assoc.
Qed.

(** ** The parser ends

    [settles clean m P]: the computation ends in a value that satisfies [P],
    or, unless [clean], it ends the process.  The clean inputs are those in
    which no escape is cut short, by the end or by a character that ends a part. *)

Definition ends_part (c : byte) : bool := mem (lit ":/?#@&=") c.

Definition whole_escapes (s : list byte) : Prop :=
  forall i, s !! i = Some "%"%byte ->
    exists a b, s !! S i = Some a /\ s !! S (S i) = Some b /\ ends_part a = false /\ ends_part b = false.

Lemma no_percent_whole s : no_percent s -> whole_escapes s.
Proof. intros Hs i Hi. destruct (Hs (list_elem_of_lookup_2 _ _ _ Hi)). Qed.

Lemma whole_drop n s : whole_escapes s -> whole_escapes (drop n s).
Proof.
  intros H i. rewrite !lookup_drop. intros Hi. rewrite !Nat.add_succ_r. by apply H.
Qed.

Lemma whole_take n s : whole_escapes s -> (length s <= n)%nat \/ (exists c, s !! n = Some c /\ ends_part c = true) -> whole_escapes (take n s).
Proof.
  intros H Hn i Hi. apply lookup_take_Some in Hi as [Hi Hlt]. destruct (H i Hi) as (a & b & Ha & Hb & Ea & Eb).
  assert (S (S i) < n)%nat.
  { destruct Hn as [Hn|(c & Hc & Ec)]; [apply lookup_lt_Some in Hb; lia|].
    destruct (decide (S i = n)) as [<-|]; [congruence|]. destruct (decide (S (S i) = n)) as [<-|]; [congruence|lia]. }
  exists a, b. rewrite !lookup_take_lt by lia. done.
Qed.

(** An escape that is whole is decoded or dropped. *)
Lemma decode_loop_whole fuel s o : (length s < fuel)%nat -> whole_escapes s -> returns (decode_loop fuel s o).
Proof.
  revert s o. induction fuel as [|fuel IH]; intros s o Hf Hs; [lia|]. cbn [decode_loop].
  destruct (sv_find s "%" 0) as [i|] eqn:E; [|unfold returns; eauto].
  pose proof (find_from_Some _ _ _ _ E) as Hi. apply find_from_split in E as (a & c & b & Hd & -> & Hm & _).
  rewrite drop_0 in Hd. apply byte_eqb_eq in Hm as <-. cbn [Nat.add] in *.
  destruct (Hs (length a)) as (x & y & _ & Hy & _); [rewrite Hd; by apply list_lookup_middle|]. apply lookup_lt_Some in Hy.
  rewrite sv_substr_Ret, bind_ret by lia. set (m := match fc_value _ with Some _ => _ | None => _ end).
  assert (exists o', m = Ret o') as [o' ->].
  { subst m. destruct (fc_value _); [|eauto]. rewrite sv_substr_Ret by lia. simpl. eauto. }
  rewrite bind_ret, sv_substr_from_Ret, bind_ret by lia. apply IH; [rewrite length_drop; lia|by apply whole_drop].
Qed.

Definition settles {A} (clean : bool) (m : outcome A) (P : A -> Prop) : Prop :=
  (exists a, m = Ret a /\ P a) \/ (clean = false /\ m = Terminate).

Lemma settles_ret {A} clean (a : A) (P : A -> Prop) : P a -> settles clean (Ret a) P.
Proof. intros H. left. eauto. Qed.

Lemma settles_bind {A B} clean (m : outcome A) (f : A -> outcome B) P Q :
  settles clean m P -> (forall a, P a -> settles clean (f a) Q) -> settles clean (obind m f) Q.
Proof. intros [(a & -> & Ha)|[Hc ->]] Hf; [by apply Hf|by right]. Qed.

Lemma settles_weaken {A} clean (m : outcome A) (P Q : A -> Prop) :
  settles clean m P -> (forall a, P a -> Q a) -> settles clean m Q.
Proof. intros [(a & -> & Ha)|[Hc ->]] H; [left; eauto|by right]. Qed.

Lemma settles_noexcept {A} clean (m : outcome A) P : settles clean m P -> settles clean (noexcept m) P.
Proof. intros [(a & -> & Ha)|[Hc ->]]; [left; eauto|by right]. Qed.

(** The strings the parser handles are as clean as its input. *)
Definition as_clean (clean : bool) (s : list byte) : Prop := clean = true -> whole_escapes s.

Lemma as_clean_drop clean n s : as_clean clean s -> as_clean clean (drop n s).
Proof. intros H Hc. by apply whole_drop, H. Qed.

Lemma as_clean_rest clean n s : as_clean clean s -> (length s <= n)%nat -> as_clean clean (take n s).
Proof. intros H Hn Hc. apply whole_take; [by apply H|by left]. Qed.

(** A part is cut off in front of a character that ends it. *)
Lemma as_clean_cut clean c n s : as_clean clean s -> s !! n = Some c -> ends_part c = true -> as_clean clean (take n s).
Proof. intros H Hn Hc Hcl. apply whole_take; [by apply H|right; eauto]. Qed.

Lemma as_clean_slice clean c i n s :
  as_clean clean s -> (i <= n)%nat -> s !! n = Some c -> ends_part c = true -> as_clean clean (take (n - i) (drop i s)).
Proof.
  intros H Hi Hn Hc. apply (as_clean_cut clean c); [by apply as_clean_drop| |done]. rewrite lookup_drop.
  by replace (i + (n - i))%nat with n by lia.
Qed.

Lemma as_clean_find clean c s n : as_clean clean s -> ends_part c = true -> sv_find s c 0 = Some n -> as_clean clean (take n s).
Proof.
  intros H Hc E. apply find_from_split in E as (a & d & b & Hd & -> & Hm & _). rewrite drop_0 in Hd. apply byte_eqb_eq in Hm as <-.
  apply (as_clean_cut clean c); [done| |done]. rewrite Hd. by apply list_lookup_middle.
Qed.

Lemma as_clean_nil clean : as_clean clean [].
Proof. by intros _ i. Qed.

#[export] Hint Resolve as_clean_drop as_clean_nil settles_ret : cppnet.

Lemma find_from_at {A} (q : A -> bool) l pos i : find_from q l pos = Some i -> exists x, l !! i = Some x /\ q x = true.
Proof.
  intros (a & x & b & Hd & -> & Hx & _)%find_from_split. exists x. split; [|done]. rewrite <- lookup_drop, Hd. by apply list_lookup_middle.
Qed.

Lemma decode_settles clean s : as_clean clean s -> settles clean (decode s) (fun _ => True).
Proof.
  intros Hs. destruct clean.
  { unfold decode. destruct (decode_loop_whole (S (length s)) s []) as [r ->]; [lia|by apply Hs|by apply settles_ret]. }
  destruct (decode_ends s) as [[r ->]| ->]; [by apply settles_ret|by right].
Qed.

Lemma query_pair_settles clean kv q : as_clean clean kv -> settles clean (query_pair kv q) (fun _ => True).
Proof.
  intros Hkv. unfold query_pair.
  assert (exists k, (match sv_find kv "=" 0 with Some n => sv_substr kv 0 n | None => sv_substr_from kv 0 end)
    = Ret k /\ as_clean clean k) as (k & -> & Hk).
  { destruct (sv_find kv "=" 0) as [n|] eqn:E; rewrite ?sv_substr_Ret, ?sv_substr_from_Ret, drop_0 by lia; eexists; (split; [done|]);
      [by apply (as_clean_find clean "="%byte)|done]. }
  rewrite bind_ret. eapply settles_bind; [by apply decode_settles|]. intros key _.
  destruct (sv_find kv "=" 0) as [n|] eqn:E; [|by apply settles_ret].
  apply find_from_Some in E. rewrite sv_substr_from_Ret, bind_ret by lia.
  eapply settles_bind; [apply decode_settles; auto with cppnet|]. intros; by apply settles_ret.
Qed.

Lemma query_loop_settles clean fuel raw q :
  as_clean clean raw -> (length raw < fuel)%nat -> settles clean (query_loop fuel raw q) (fun _ => True).
Proof.
  revert raw q. induction fuel as [|fuel IH]; intros raw q Hraw Hf; [lia|]. cbn [query_loop].
  destruct raw as [|c0 raw0] eqn:Eraw; [by apply settles_ret|]. rewrite <- Eraw in *. clear Eraw.
  assert (exists kv, (match sv_find raw "&" 0 with Some n => sv_substr raw 0 n | None => sv_substr_from raw 0 end)
    = Ret kv /\ as_clean clean kv) as (kv & -> & Hkv).
  { destruct (sv_find raw "&" 0) as [n|] eqn:E; rewrite ?sv_substr_Ret, ?sv_substr_from_Ret, drop_0 by lia; eexists; (split; [done|]);
      [by apply (as_clean_find clean "&"%byte)|done]. }
  rewrite bind_ret. eapply settles_bind; [by apply query_pair_settles|]. intros q' _.
  destruct (sv_find raw "&" 0) as [n|] eqn:E; [|by apply settles_ret].
  apply find_from_Some in E. rewrite sv_substr_from_Ret, bind_ret by lia.
  apply IH; [auto with cppnet|]. rewrite length_drop. lia.
Qed.

(** What holds of the parser between two turns of the loop. *)
Record parser_inv (clean : bool) (s : list byte) (p : url_parser) : Prop := {
  inv_input : input p = s;
  inv_clean : as_clean clean s;
  inv_bounds : (start p <= pend p <= length s)%nat;
  inv_scheme_start : state p = scheme_st -> start p = 0%nat;
  inv_parts : Forall (as_clean clean)
    [scheme (out p); username (userinfo (out p)); password (userinfo (out p)); host (out p); port (out p);
     path (out p); fragment (out p)];
}.

(** How many turns are left: the states are visited in their order. *)
Definition turns_left (p : url_parser) : nat :=
  match state p with
  | scheme_st => 10 + (length (input p) - pend p)
  | authority_st => 9
  | userinfo_st => 8
  | host_st => 7
  | port_st => 6
  | path_st => 5
  | query_st => 4
  | fragment_st => 3
  | done_st => 2
  end.

Definition progress (clean : bool) (s : list byte) (p p' : url_parser) : Prop :=
  parser_inv clean s p' /\ (turns_left p' < turns_left p \/ length s <= pend p')%nat.

Ltac parts :=
  repeat match goal with H : Forall _ (_ :: _) |- _ => apply Forall_cons in H as [? H] end;
  repeat (apply Forall_cons; split); try apply Forall_nil_2; simpl; auto with cppnet.

Section Steps.
Context (clean : bool) (s : list byte) (p : url_parser).
Context (Hinv : parser_inv clean s p) (Hmore : (pend p < length s)%nat).

Lemma parse_scheme_settles :
  state p = scheme_st -> settles clean (parse_scheme p) (progress clean s p).
Proof using Hinv Hmore.
  destruct Hinv as [Hi Hc Hb Hs Hp]. intros Hst. unfold parse_scheme, progress, turns_left. rewrite Hst, Hi.
  destruct (sv_at_lt s (pend p) Hmore) as (c & -> & Hat). rewrite bind_ret.
  destruct (byte_eqb_spec c ":") as [->|_]; cbn [negb].
  - rewrite sv_substr_Ret, bind_ret by lia. apply settles_ret. split; [|left; simpl; lia].
    pose proof (as_clean_slice clean ":"%byte (start p) (pend p) s Hc ltac:(lia) Hat eq_refl) as Hpart.
    constructor; simpl; try done; try lia. parts.
  - destruct (S (pend p) =? length s)%nat eqn:E; reflect_bools.
    + destruct (index_lt s 0 ltac:(lia)) as [first ->]. rewrite bind_ret.
      destruct (starts_with s (lit "//")), (byte_eqb first "/"); apply settles_ret;
        (split; [constructor; simpl; try done; lia|left; simpl; lia]).
    + apply settles_ret. split; [|left; simpl; lia]. constructor; simpl; try done; try lia.
Qed.

Lemma parse_authority_settles :
  state p = authority_st -> settles clean (parse_authority p) (progress clean s p).
Proof using Hinv Hmore.
  destruct Hinv as [Hi Hc Hb Hs Hp]. intros Hst. unfold parse_authority, progress, turns_left. rewrite Hst, Hi.
  apply (settles_bind _ _ _ (fun b => b = true -> (S (pend p) < length s)%nat)).
  - destruct (S (pend p) <? length s)%nat eqn:E; [|by apply settles_ret]. reflect_bools.
    destruct (sv_at_lt s (start p) ltac:(lia)) as (a & -> & _). rewrite bind_ret.
    destruct (byte_eqb a "/"); [|by apply settles_ret].
    destruct (sv_at_lt s (S (pend p)) E) as (b & -> & _). by apply settles_ret.
  - intros [|] Hlt; apply settles_ret; (split; [|left; simpl; lia]); constructor; simpl; try done; lia.
Qed.

Lemma parse_userinfo_settles :
  state p = userinfo_st -> settles clean (parse_userinfo p) (progress clean s p).
Proof using Hinv Hmore.
  destruct Hinv as [Hi Hc Hb Hs Hp]. intros Hst. unfold parse_userinfo, progress, turns_left. rewrite Hst, Hi.
  destruct (sv_find s "@" (start p)) as [e|] eqn:E.
  2: { apply settles_ret. split; [|left; simpl; lia]. constructor; simpl; done. }
  pose proof (find_from_at _ _ _ _ E) as (x & Hx & Hm). apply byte_eqb_eq in Hm as <-.
  apply find_from_Some in E. rewrite sv_substr_Ret, bind_ret by lia.
  pose proof (as_clean_slice clean "@"%byte (start p) e s Hc ltac:(lia) Hx eq_refl) as Hui. set (ui := take _ _) in *.
  assert (length ui = e - start p)%nat as Hlen by (subst ui; rewrite length_take, length_drop; lia).
  apply (settles_bind _ _ _ (fun i => as_clean clean (username i) /\ as_clean clean (password i))).
  - destruct (sv_find ui ":" 0) as [n|] eqn:E'.
    + pose proof (as_clean_find clean ":"%byte ui n Hui eq_refl E') as Hname. apply find_from_Some in E'.
      rewrite !sv_substr_Ret, !bind_ret, drop_0 by lia. apply settles_ret. split; [done|]. simpl.
      apply as_clean_rest; [by apply as_clean_drop|]. rewrite length_drop. lia.
    + apply settles_ret. simpl. split; [done|]. parts.
  - intros i [Hu Hw]. apply settles_ret. split; [|left; simpl; lia].
    constructor; simpl; try done; try lia. parts.
Qed.

Lemma parse_part_settles delims set :
  (forall u v, as_clean clean v ->
     Forall (as_clean clean) [scheme u; username (userinfo u); password (userinfo u); host u; port u; path u; fragment u] ->
     let u' := set u v in
     Forall (as_clean clean) [scheme u'; username (userinfo u'); password (userinfo u'); host u'; port u'; path u'; fragment u']) ->
  (forall c, mem delims c = true -> forall u i,
     (turns_left (after_delim p u c i) < turns_left p)%nat /\ state (after_delim p u c i) <> scheme_st) ->
  (forall c, mem delims c = true -> ends_part c = true) ->
  settles clean (parse_part delims set p) (progress clean s p).
Proof using Hinv Hmore.
  destruct Hinv as [Hi Hc Hb Hs Hp]. intros Hset Hdelims Hends. unfold parse_part. rewrite Hi.
  destruct (sv_find_first_of s delims (start p)) as [i|] eqn:E.
  - pose proof (find_from_Some _ _ _ _ E) as Hlt. rewrite sv_substr_Ret, bind_ret by lia.
    apply find_from_split in E as (a & c & b & Hd & -> & Hm & _).
    assert (s !! (start p + length a)%nat = Some c) as Hl.
    { rewrite <- lookup_drop, Hd. by apply list_lookup_middle. }
    unfold index. rewrite Hl, bind_ret. apply settles_ret.
    pose proof (as_clean_slice clean c (start p) (start p + length a) s Hc ltac:(lia) Hl (Hends c Hm)) as Hpart.
    destruct (Hdelims c Hm (set (out p) (take (start p + length a - start p) (drop (start p) s))) (start p + length a)%nat) as [Ht Hns].
    split; [|by left]. unfold after_delim in *.
    destruct (byte_eqb c ":"), (byte_eqb c "/"), (byte_eqb c "?"), (byte_eqb c "#");
      constructor; simpl in *; try done; try lia; by apply Hset.
  - rewrite sv_substr_from_Ret, bind_ret by lia. apply settles_ret. split; [|right; simpl; rewrite Hi; lia].
    constructor; simpl; try done; try (rewrite ?Hi; lia). apply Hset; auto with cppnet.
Qed.

Lemma parse_query_settles :
  state p = query_st -> settles clean (parse_query p) (progress clean s p).
Proof using Hinv Hmore.
  destruct Hinv as [Hi Hc Hb Hs Hp]. intros Hst. unfold parse_query. rewrite Hi.
  apply (settles_bind _ _ _ (fun r => as_clean clean r.1 /\ progress clean s p r.2)).
  - unfold progress, turns_left. rewrite Hst.
    destruct (sv_find_first_of s (lit "#") (start p)) as [i|] eqn:E.
    + pose proof (find_from_at _ _ _ _ E) as (x & Hx & Hm). apply mem_elem_of, list_elem_of_singleton in Hm as ->.
      apply find_from_Some in E. rewrite sv_substr_Ret, bind_ret by lia. apply settles_ret.
      split; [apply (as_clean_slice clean "#"%byte); [done|lia|done|done]|]. split; [|left; simpl; lia]. constructor; simpl; try done; lia.
    + rewrite sv_substr_from_Ret, bind_ret by lia. apply settles_ret.
      split; [simpl; auto with cppnet|]. split; [|left; simpl; lia].
      constructor; simpl; try done; rewrite ?Hi; lia.
  - intros [raw p'] [Hraw [[Hi' Hc' Hb' Hs' Hp'] Ht]]. cbn [fst snd] in *.
    eapply settles_bind; [apply query_loop_settles; [done|lia]|]. intros q _. apply settles_ret.
    split; [|exact Ht]. by constructor.
Qed.

Lemma parse_fragment_settles :
  state p = fragment_st -> settles clean (parse_fragment p) (progress clean s p).
Proof using Hinv Hmore.
  destruct Hinv as [Hi Hc Hb Hs Hp]. intros Hst. unfold parse_fragment, progress, turns_left. rewrite Hst, Hi.
  rewrite sv_substr_from_Ret, bind_ret by lia. apply settles_ret. split; [|left; simpl; lia].
  constructor; simpl; try done. parts.
Qed.

Ltac delims :=
  let c := fresh in let Hm := fresh in
  intros c Hm ? ?; apply mem_elem_of in Hm; unfold turns_left;
  match goal with H : state p = _ |- _ => rewrite H end;
  repeat (apply elem_of_cons in Hm as [->|Hm]; [simpl; split; [lia|done]|]); by apply elem_of_nil in Hm.

Ltac part_ends :=
  let c := fresh in let Hm := fresh in
  intros c Hm; apply mem_elem_of in Hm;
  repeat (apply elem_of_cons in Hm as [->|Hm]; [reflexivity|]); by apply elem_of_nil in Hm.

Lemma step_settles : settles clean (step p) (progress clean s p).
Proof using Hinv Hmore.
  unfold step. apply settles_noexcept. destruct (state p) eqn:Hst.
  - by apply parse_scheme_settles.
  - by apply parse_authority_settles.
  - by apply parse_userinfo_settles.
  - apply parse_part_settles; [intros u v Hv H; parts|delims|part_ends].
  - apply parse_part_settles; [intros u v Hv H; parts|delims|part_ends].
  - apply parse_part_settles; [intros u v Hv H; parts|delims|part_ends].
  - by apply parse_query_settles.
  - by apply parse_fragment_settles.
  - destruct Hinv as [Hi Hc Hb Hs Hp]. apply settles_ret. split; [|right; simpl; rewrite Hi; lia].
    constructor; simpl; try done; rewrite ?Hi; lia.
Qed.
End Steps.

Lemma parse_loop_settles clean s fuel p :
  parser_inv clean s p -> (0 < fuel)%nat -> (turns_left p < fuel \/ length s <= pend p)%nat ->
  settles clean (parse_loop fuel p) (fun p => parser_inv clean s p /\ pend p = length s).
Proof.
  revert p. induction fuel as [|fuel IH]; intros p Hp H0 Hf; [lia|]. cbn [parse_loop].
  rewrite (inv_input _ _ _ Hp). destruct (pend p <? length s)%nat eqn:E; reflect_bools; [|apply settles_ret; split; [done|]; destruct Hp; lia].
  eapply settles_bind; [by apply step_settles|]. intros p' [Hp' Ht].
  apply IH; [done| |]; unfold turns_left in *; destruct (state p), (state p'); lia.
Qed.

Lemma decode_part_settles clean s : as_clean clean s -> settles clean (decode_part s) (fun _ => True).
Proof. intros H. destruct s; [by apply settles_ret|by apply decode_settles]. Qed.

Lemma decode_parts_settles clean u :
  Forall (as_clean clean) [scheme u; username (userinfo u); password (userinfo u); host u; port u; path u; fragment u] ->
  settles clean (decode_parts u) (fun _ => True).
Proof.
  intros H. repeat (apply Forall_cons in H as [? H]). unfold decode_parts.
  repeat (eapply settles_bind; [by apply decode_part_settles|]; intros ? _). by apply settles_ret.
Qed.

Lemma parse_settles clean s :
  as_clean clean s ->
  settles clean (parse s) (fun r => match r with inr f => failed_index f = length s /\ failed_at f <> done_st | inl _ => True end).
Proof.
  intros Hs. unfold parse, run_parser. eapply settles_bind.
  - eapply settles_bind.
    + apply (parse_loop_settles clean s); [|unfold parse_fuel; lia|].
      * constructor; simpl; try done; [lia|]. parts.
      * left. unfold turns_left, parse_fuel. simpl. lia.
    + intros p [Hp He]. eapply settles_bind; [apply decode_parts_settles, Hp|]. intros u _.
      by apply (settles_ret _ _ (fun p => pend p = length s)).
  - intros p Hp. simpl. case_decide; by apply settles_ret.
Qed.

(** ** Parsing what [build] writes *)

Lemma parse_loop_mono fuel fuel' p :
  (fuel <= fuel')%nat -> parse_loop fuel p <> OutOfFuel -> parse_loop fuel' p = parse_loop fuel p.
Proof.
  revert fuel' p. induction fuel as [|fuel IH]; intros fuel' p Hle H; [done|].
  destruct fuel' as [|fuel']; [lia|]. cbn [parse_loop] in *.
  destruct (pend p <? length (input p))%nat; [|done].
  destruct (step p); try done. simpl in *. apply IH; [lia|done].
Qed.

(** The loop, from [p], ends in the state [done] with the parts [u]. *)
Definition reaches (p : url_parser) (u : url) : Prop :=
  exists fuel q, parse_loop fuel p = Ret q /\ out q = u /\ state q = done_st.

Lemma reaches_end p u :
  (length (input p) <= pend p)%nat -> out p = u -> state p = done_st -> reaches p u.
Proof. intros H ? ?. exists 1%nat, p. cbn [parse_loop]. by rewrite (proj2 (Nat.ltb_ge _ _)). Qed.

Lemma reaches_step p p' u :
  (pend p < length (input p))%nat -> step p = Ret p' -> reaches p' u -> reaches p u.
Proof.
  intros Hlt Hs (f & q & Hq & Ho). exists (S f), q. cbn [parse_loop].
  rewrite (proj2 (Nat.ltb_lt _ _)) by done. by rewrite Hs.
Qed.

(** The parser at the border of what it has consumed and what is left. *)
Definition at_border (st : url_parse_state) (o : url) (A B : list byte) : url_parser :=
  {| input := A ++ B; out := o; state := st; start := length A; pend := length A |}.

Definition avoids (delims s : list byte) : Prop := Forall (fun c => mem delims c = false) s.

#[global] Instance avoids_dec delims s : Decision (avoids delims s).
Proof. unfold avoids. apply _. Defined.

Lemma avoids_one c s : avoids [c] s -> Forall (fun y => byte_eqb c y = false) s.
Proof.
  intros Hs. eapply Forall_impl; [exact Hs|]. intros x H. apply mem_false in H. apply byte_eqb_neq.
  intros ->. apply H. by left.
Qed.

Lemma avoids_incl d d' s : forallb (mem d') d = true -> avoids d' s -> avoids d s.
Proof.
  intros Hd Hs. eapply Forall_impl; [exact Hs|]. simpl. intros x H. rewrite mem_false in *.
  intros Hx. apply H. rewrite forallb_forall in Hd. apply mem_elem_of, Hd. by apply list_elem_of_In.
Qed.

(** A string that avoids more characters avoids fewer. *)
Ltac avoid_one H := eapply avoids_incl; [|exact H]; reflexivity.

Lemma avoids_app d a b : avoids d (a ++ b) <-> avoids d a /\ avoids d b.
Proof. apply Forall_app. Qed.

Lemma reaches_scheme sch B o u k :
  avoids (lit ":") sch -> (k <= length sch)%nat ->
  reaches (at_border authority_st (set_scheme o sch) (sch ++ lit ":") B) u ->
  reaches {| input := sch ++ ":"%byte :: B; out := o; state := scheme_st; start := 0; pend := k |} u.
Proof.
  intros Hs Hk Hr. remember (length sch - k)%nat as m eqn:Em. revert k Hk Em.
  induction m as [|m IH]; intros k Hk Em.
  - assert (k = length sch) as -> by lia. eapply reaches_step; [solve_length| |exact Hr].
    unfold step, parse_scheme. simpl. rewrite sv_at_app. simpl.
    rewrite Nat.sub_0_r, drop_0, take_app_length.
    unfold at_border. rewrite length_app, <- app_assoc. simpl. done.
  - destruct (lookup_lt_is_Some_2 sch k ltac:(lia)) as [c Hc]. eapply reaches_step; [solve_length| |apply (IH (S k)); lia].
    unfold step, parse_scheme. cbn [state input pend out start]. unfold sv_at. rewrite lookup_app_l, Hc by lia. rewrite bind_ret.
    assert (byte_eqb c ":" = false) as ->.
    { unfold avoids in Hs. rewrite Forall_lookup in Hs. specialize (Hs _ _ Hc). apply mem_false in Hs. apply byte_eqb_neq.
      intros ->. apply Hs. by left. }
    cbn [negb]. rewrite (proj2 (Nat.eqb_neq _ _)) by solve_length. done.
Qed.

Lemma reaches_authority A B o u :
  reaches (at_border userinfo_st o (A ++ lit "//") B) u ->
  reaches (at_border authority_st o A (lit "//" ++ B)) u.
Proof.
  intros Hr. eapply reaches_step; [solve_length| |exact Hr].
  unfold step, parse_authority, at_border. cbn [state input pend out start].
  rewrite (proj2 (Nat.ltb_lt _ _)) by solve_length.
  pose proof (sv_at_app A "/"%byte ("/"%byte :: B)) as H1.
  pose proof (sv_at_app (A ++ ["/"%byte]) "/"%byte B) as H2.
  rewrite <- app_assoc, length_app, Nat.add_1_r in H2. cbn [app] in H2.
  change (lit "//" ++ B) with ("/"%byte :: "/"%byte :: B).
  rewrite H1, bind_ret. cbn [byte_eqb Byte.eqb]. rewrite H2. simpl.
  rewrite length_app, <- app_assoc. simpl. do 2 f_equal; lia.
Qed.

Lemma reaches_userinfo A B o u usr pwd :
  avoids (lit ":@") usr -> avoids (lit "@") pwd ->
  reaches (at_border host_st (set_userinfo o {| username := usr; password := pwd |})
             (A ++ usr ++ lit ":" ++ pwd ++ lit "@") B) u ->
  reaches (at_border userinfo_st o A (usr ++ lit ":" ++ pwd ++ lit "@" ++ B)) u.
Proof.
  intros Hu Hw Hr. eapply reaches_step; [solve_length| |exact Hr].
  set (ui := usr ++ lit ":" ++ pwd).
  unfold step, parse_userinfo, at_border. cbn [state input pend out start].
  replace (A ++ usr ++ lit ":" ++ pwd ++ lit "@" ++ B) with (A ++ ui ++ "@"%byte :: B)
    by (subst ui; by rewrite <- !app_assoc).
  replace (A ++ usr ++ lit ":" ++ pwd ++ lit "@") with (A ++ ui ++ lit "@")
    by (subst ui; by rewrite <- !app_assoc).
  assert (avoids (lit "@") ui) as Hui.
  { subst ui. rewrite !avoids_app. split_and!; [|by repeat constructor|done].
    avoid_one Hu. }
  unfold sv_find. rewrite find_from_app by (done || by apply avoids_one).
  rewrite Nat.add_sub_swap, Nat.sub_diag, Nat.add_0_l, sv_substr_app, bind_ret by lia.
  assert (avoids (lit ":") usr) as Hu' by avoid_one Hu.
  subst ui. change (usr ++ lit ":" ++ pwd) with (usr ++ ":"%byte :: pwd).
  rewrite find_from_0_app by (done || by apply avoids_one).
  rewrite sv_substr_0_app, bind_ret, sv_substr_Ret, bind_ret by solve_length.
  rewrite drop_app_add. change (drop 1 (":"%byte :: pwd)) with pwd. rewrite take_ge by solve_length.
  cbn [obind noexcept]. rewrite !length_app. cbn [length lit list_byte_of_string app].
  rewrite <- !app_assoc. do 2 f_equal; simpl; lia.
Qed.

Lemma reaches_no_userinfo A B o u :
  B <> [] -> "@"%byte ∉ B ->
  reaches (at_border host_st o A B) u -> reaches (at_border userinfo_st o A B) u.
Proof.
  intros HB Hat Hr. eapply reaches_step; [destruct B; [done|solve_length]| |exact Hr].
  unfold step, parse_userinfo, at_border. cbn [state input pend out start].
  unfold sv_find. rewrite (proj2 (find_from_None _ _ _)); [done|].
  rewrite drop_app_length. by apply not_elem_Forall.
Qed.

(** The states that read a part up to a delimiter. *)
Inductive part_state : url_parse_state -> list byte -> (url -> list byte -> url) -> Prop :=
| part_host : part_state host_st (lit ":/?#") set_host
| part_port : part_state port_st (lit "/?#") set_port
| part_path : part_state path_st (lit "?#") set_path.

Lemma step_part st delims set p :
  part_state st delims set -> state p = st -> step p = noexcept (parse_part delims set p).
Proof. intros [] H; unfold step; by rewrite H. Qed.

Lemma reaches_part st delims set A v B o u :
  part_state st delims set -> avoids delims v -> v ++ B <> [] ->
  match B with
  | [] => set o v = u
  | c :: B' => mem delims c = true
      /\ reaches (after_delim (at_border st o A (v ++ B)) (set o v) c (length A + length v)) u
  end -> reaches (at_border st o A (v ++ B)) u.
Proof.
  intros Hst Hv Hne HB.
  assert (length A < length (A ++ v ++ B))%nat as Hlt.
  { rewrite length_app. destruct (v ++ B); [done|simpl; lia]. }
  destruct B as [|c B'].
  - eapply reaches_step; [done| |].
    + rewrite (step_part _ _ _ _ Hst) by done. unfold parse_part, at_border, sv_find_first_of. cbn [state input pend out start].
      rewrite app_nil_r, (proj2 (find_from_None _ _ _)) by (by rewrite drop_app_length).
      rewrite sv_substr_from_length. reflexivity.
    + by apply reaches_end.
  - destruct HB as [Hc Hr]. eapply reaches_step; [done| |exact Hr].
    rewrite (step_part _ _ _ _ Hst) by done. unfold parse_part, sv_find_first_of. cbn [at_border state input pend out start].
    rewrite find_from_app by done.
    rewrite Nat.add_sub_swap, Nat.sub_diag, Nat.add_0_l, sv_substr_app, bind_ret by lia.
    rewrite index_app_r, index_app_0. by autorewrite with window.
Qed.

(** Where each delimiter leads. *)
Lemma after_slash st o o' A v B :
  after_delim (at_border st o A (v ++ "/"%byte :: B)) o' "/"%byte (length A + length v)
  = at_border path_st o' (A ++ v) ("/"%byte :: B).
Proof. unfold after_delim, at_border. cbn. by rewrite length_app, <- app_assoc. Qed.

Lemma after_other st st' c o o' A v B :
  (c, st') ∈ [(":"%byte, port_st); ("?"%byte, query_st); ("#"%byte, fragment_st)] ->
  after_delim (at_border st o A (v ++ c :: B)) o' c (length A + length v)
  = at_border st' o' (A ++ v ++ [c]) B.
Proof.
  intros Hc. unfold after_delim, at_border. cbn [input state]. rewrite !length_app, <- !app_assoc. cbn [length app].
  repeat (apply elem_of_cons in Hc as [[= -> ->]|Hc]; [cbn; f_equal; lia|]). by apply elem_of_nil in Hc.
Qed.

Lemma reaches_fragment A f o u :
  f <> [] -> set_fragment o f = u -> reaches (at_border fragment_st o A f) u.
Proof.
  intros Hf Hu. eapply reaches_step; [destruct f; [done|solve_length]| |].
  - unfold step, parse_fragment, at_border. cbn [state input pend out start].
    rewrite sv_substr_from_length. reflexivity.
  - eapply reaches_step; [destruct f; [done|solve_length]|reflexivity|].
    by apply reaches_end.
Qed.

Definition fragment_string (f : list byte) : list byte := match f with [] => [] | _ => lit "#" ++ f end.

Lemma reaches_query A raw f o u q :
  raw <> [] -> avoids (lit "#") raw -> query_loop (S (length raw)) raw (query o) = Ret q ->
  fragment o = [] -> set_fragment (set_query o q) f = u ->
  reaches (at_border query_st o A (raw ++ fragment_string f)) u.
Proof.
  intros Hne Hraw Hq Hfo Hu.
  assert (length A < length (A ++ raw ++ fragment_string f))%nat as Hlt.
  { destruct raw; [done|]. solve_length. }
  unfold at_border. destruct f as [|c f]; cbn [fragment_string] in *.
  - eapply reaches_step; [done| |].
    + unfold step, parse_query, sv_find_first_of. cbn [state input pend out start].
      rewrite app_nil_r, (proj2 (find_from_None _ _ _)) by (by rewrite drop_app_length).
      rewrite sv_substr_from_length, !bind_ret. cbn [finished out]. rewrite Hq. reflexivity.
    + apply reaches_end; [done| |done]. subst u. destruct o; simpl in *. by subst.
  - change (lit "#" ++ c :: f) with ("#"%byte :: c :: f) in *.
    pose proof (reaches_fragment (A ++ raw ++ lit "#") (c :: f) (set_query o q) u ltac:(done) Hu) as H.
    unfold at_border in H. rewrite !length_app, <- !app_assoc in H.
    change (lit "#" ++ c :: f) with ("#"%byte :: c :: f) in H. change (length (lit "#")) with 1%nat in H.
    rewrite Nat.add_assoc in H. eapply reaches_step; [done| |exact H].
    unfold step, parse_query, sv_find_first_of. cbn [state input pend out start].
    rewrite find_from_app by done.
    rewrite Nat.add_sub_swap, Nat.sub_diag, Nat.add_0_l, sv_substr_app, !bind_ret by lia.
    cbn [out]. rewrite Hq. reflexivity.
Qed.

(** *** The query string *)

Fixpoint pairs_of (order : list (list byte * list (list byte))) : list (list byte * list byte) :=
  match order with
  | [] => []
  | (k, vals) :: order => map (pair k) vals ++ pairs_of order
  end.

Definition pair_string (kv : list byte * list byte) : list byte := kv.1 ++ "="%byte :: kv.2.

Fixpoint pairs_string (pairs : list (list byte * list byte)) : list byte :=
  match pairs with
  | [] => []
  | kv :: pairs => "&"%byte :: pair_string kv ++ pairs_string pairs
  end.

Lemma build_values_string key vals sep :
  build_values key vals sep =
  match vals with
  | [] => ([], sep)
  | v :: vals => (sep :: pair_string (key, v) ++ pairs_string (map (pair key) vals), "&"%byte)
  end.
Proof.
  revert sep. induction vals as [|v vals IH]; intros sep; [done|]. cbn [build_values].
  rewrite IH. destruct vals as [|v' vals]; unfold pair_string; cbn; unfold pair_string; cbn; by rewrite <- ?app_assoc.
Qed.

Lemma pairs_string_app a b : pairs_string (a ++ b) = pairs_string a ++ pairs_string b.
Proof. induction a as [|kv a IH]; simpl; [done|]. by rewrite IH, app_assoc. Qed.

Lemma build_query_string order sep :
  build_query order sep =
  match pairs_of order with
  | [] => []
  | kv :: pairs => sep :: pair_string kv ++ pairs_string pairs
  end.
Proof.
  revert sep. induction order as [|[k vals] order IH]; intros sep; [done|]. cbn [build_query].
  rewrite build_values_string. cbn [pairs_of].
  destruct vals as [|v vals]; [by rewrite IH|]. rewrite IH. cbn [map app].
  rewrite pairs_string_app, <- app_assoc. by destruct (pairs_of order) as [|kv pairs].
Qed.

Definition add_pair (q : query_values) (kv : list byte * list byte) : query_values :=
  query_append q kv.1 kv.2.

Definition pair_ok (kv : list byte * list byte) : Prop :=
  avoids (lit "&=#%") kv.1 /\ avoids (lit "&#%") kv.2.

Lemma avoids_percent d s : avoids d s -> "%"%byte ∈ d -> no_percent s.
Proof.
  intros Hs Hd Hin. apply list_elem_of_lookup in Hin as [i Hi]. unfold avoids in Hs.
  rewrite Forall_lookup in Hs. specialize (Hs _ _ Hi). apply mem_false in Hs. done.
Qed.

Lemma query_pair_plain kv q : pair_ok kv -> query_pair (pair_string kv) q = Ret (add_pair q kv).
Proof.
  intros [Hk Hv]. destruct kv as [k v]. simpl in Hk, Hv. unfold query_pair, pair_string, sv_find. cbn [fst snd].
  assert (avoids (lit "=") k) as Heq by avoid_one Hk.
  assert (no_percent k) as Hpk by (apply (avoids_percent _ _ Hk); do 3 right; left).
  assert (no_percent v) as Hpv by (apply (avoids_percent _ _ Hv); do 2 right; left).
  rewrite find_from_0_app by (done || by apply avoids_one).
  rewrite sv_substr_0_app, bind_ret, decode_plain, bind_ret by done.
  by rewrite sv_substr_from_cons, bind_ret, decode_plain.
Qed.

Lemma pair_string_avoids_amp kv : pair_ok kv -> avoids (lit "&") (pair_string kv).
Proof.
  intros [Hk Hv]. apply avoids_app. split; [avoid_one Hk|constructor; [done|avoid_one Hv]].
Qed.

(** The loop of [parse_query] reads the pairs one after the other. *)
Lemma query_loop_pairs fuel kv pairs q :
  Forall pair_ok (kv :: pairs) -> (length pairs < fuel)%nat ->
  query_loop fuel (pair_string kv ++ pairs_string pairs) q = Ret (fold_left add_pair (kv :: pairs) q).
Proof.
  revert fuel kv q. induction pairs as [|kv' pairs IH]; intros fuel kv q Hok Hf;
    (destruct fuel as [|fuel]; [lia|]); apply Forall_cons in Hok as [Hkv Hok]; cbn [query_loop].
  - cbn [pairs_string]. rewrite app_nil_r.
    destruct (pair_string kv) as [|c l] eqn:E; [by destruct kv as [[|] ?]|]. rewrite <- E.
    unfold sv_find. rewrite (proj2 (find_from_None _ _ _)).
    2: { rewrite drop_0. apply avoids_one. by apply pair_string_avoids_amp. }
    rewrite sv_substr_from_Ret, drop_0, bind_ret by lia. by rewrite query_pair_plain.
  - cbn [pairs_string].
    destruct (pair_string kv ++ _) as [|c l] eqn:E; [by destruct kv as [[|] ?]|]. rewrite <- E.
    unfold sv_find. rewrite find_from_0_app by (done || by apply avoids_one, pair_string_avoids_amp).
    rewrite sv_substr_0_app, bind_ret, query_pair_plain, bind_ret by done.
    rewrite sv_substr_from_cons, bind_ret. rewrite IH; [done|done|simpl in Hf; lia].
Qed.

(** *** From the pairs back to the map *)

Lemma fold_add_vals k vals q :
  fold_left add_pair (map (pair k) vals) q
  = match vals with [] => q | _ => <[k := default [] (q !! k) ++ vals]> q end.
Proof.
  revert q. induction vals as [|v vals IH]; intros q; [done|]. cbn [map fold_left].
  rewrite IH. unfold add_pair, query_append. cbn [fst snd]. destruct vals as [|v' vals]; [done|].
  rewrite lookup_insert_eq, insert_insert_eq. simpl. by rewrite <- app_assoc.
Qed.

Lemma fold_add_order order q :
  NoDup order.*1 -> Forall (fun kv => kv.2 <> [] /\ q !! kv.1 = None) order ->
  fold_left add_pair (pairs_of order) q = list_to_map order ∪ q.
Proof.
  revert q. induction order as [|[k vals] order IH]; intros q Hnd Hall; cbn [pairs_of].
  { cbn. by rewrite (left_id_L ∅ (∪)). }
  apply NoDup_cons in Hnd as [Hk Hnd]. apply Forall_cons in Hall as [[Hv Hq] Hall]. cbn [fst snd] in *.
  rewrite fold_left_app, fold_add_vals, Hq. destruct vals as [|v vals]; [done|]. simpl app.
  rewrite IH; [|done|].
  - cbn [list_to_map foldr uncurry]. rewrite <- insert_union_l, insert_union_r; [done|].
    by apply not_elem_of_list_to_map_1.
  - apply Forall_forall. intros [k' vs'] Hin. rewrite Forall_forall in Hall.
    destruct (Hall _ Hin) as [H1 H2]. split; [done|]. cbn [fst]. rewrite lookup_insert_ne; [done|].
    intros <-. apply Hk, list_elem_of_fmap. exists (k, vs'). done.
Qed.

Lemma fold_add_listed order q :
  lists_query order q -> map_Forall (fun _ vals => vals <> []) q ->
  fold_left add_pair (pairs_of order) ∅ = q.
Proof.
  intros Hperm Hne. unfold lists_query in Hperm.
  assert (NoDup order.*1) as Hnd by (rewrite Hperm; apply NoDup_fst_map_to_list).
  rewrite fold_add_order; [|done|].
  - rewrite (right_id_L ∅ (∪)). rewrite <- (list_to_map_to_list q). by apply list_to_map_proper.
  - apply Forall_forall. intros [k vs] Hin. split; [|apply lookup_empty]. simpl.
    apply (Hne k). apply elem_of_map_to_list. by rewrite <- Hperm.
Qed.

(** *** The whole URL *)

Definition port_string (s : list byte) : list byte := match s with [] => [] | _ => lit ":" ++ s end.

(** What [build] writes after the scheme and the user. *)
Definition after_authority (u : url) (order : list (list byte * list (list byte))) : list byte :=
  host u ++ port_string (port u) ++ path u ++ build_query order "?"%byte ++ fragment_string (fragment u).

(** The URLs whose parts contain none of the characters that would end them
    (and no ['%'], since [build] does not escape). *)
Record url_ok (u : url) (order : list (list byte * list (list byte))) : Prop := {
  ok_scheme : scheme u <> [] /\ avoids (lit ":%") (scheme u);
  ok_user : avoids (lit ":@%") (username (userinfo u)) /\ avoids (lit "@%") (password (userinfo u));
  ok_host : avoids (lit ":/?#%") (host u);
  ok_port : avoids (lit "/?#%") (port u);
  ok_path : avoids (lit "?#%") (path u) /\ (path u = [] \/ exists r, path u = "/"%byte :: r);
  ok_query : map_Forall (fun k vals => vals <> [] /\ Forall (fun v => pair_ok (k, v)) vals) (query u);
  ok_fragment : avoids (lit "%") (fragment u);
  ok_order : lists_query order (query u);
  ok_at : user_info_empty (userinfo u) = true -> "@"%byte ∉ after_authority u order;
  ok_rest : after_authority u order <> [];
}.

(** What is left to show after a part [v] that ends where [B] starts. *)
Definition resumes (st : url_parse_state) (delims : list byte) (o : url) (A v : list byte) (o' : url)
    (B : list byte) (u : url) : Prop :=
  match B with
  | [] => o' = u
  | c :: B' => mem delims c = true
      /\ reaches (after_delim (at_border st o A (v ++ B)) o' c (length A + length v)) u
  end.

Section Tail.
Context (order : list (list byte * list (list byte))) (q : query_values) (f : list byte).
Context (Hq : query_loop (S (length (tail (build_query order "?"%byte)))) (tail (build_query order "?"%byte)) ∅ = Ret q).
Context (Havoid : avoids (lit "#") (tail (build_query order "?"%byte))).

Lemma resumes_query st delims set o A v o' :
  part_state st delims set -> query o' = ∅ -> fragment o' = [] ->
  resumes st delims o A v o' (build_query order "?"%byte ++ fragment_string f) (set_fragment (set_query o' q) f).
Proof using Hq Havoid.
  intros Hst Hqo Hfo. rewrite build_query_string in *.
  destruct (pairs_of order) as [|kv pairs]; cbn [tail app] in *.
  - cbn in Hq. injection Hq as <-. destruct f as [|c f']; cbn [fragment_string].
    + cbn [resumes]. destruct o'; simpl in *. by subst.
    + change (lit "#" ++ c :: f') with ("#"%byte :: c :: f'). cbn [resumes].
      split; [by destruct Hst|]. rewrite (after_other _ fragment_st) by (do 2 right; left).
      apply reaches_fragment; [done|]. destruct o'; simpl in *. by subst.
  - cbn [resumes]. split; [by destruct Hst|].
    rewrite (after_other _ query_st) by (right; left). eapply reaches_query; try done.
    + by destruct kv as [[|] ?].
    + by rewrite Hqo.
Qed.

Lemma resumes_path st delims set pa o A v o' :
  part_state st delims set -> "/"%byte ∈ delims -> avoids (lit "?#") pa -> (pa = [] \/ exists r, pa = "/"%byte :: r) ->
  path o' = [] -> query o' = ∅ -> fragment o' = [] ->
  resumes st delims o A v o' (pa ++ build_query order "?"%byte ++ fragment_string f)
    (set_fragment (set_query (set_path o' pa) q) f).
Proof using Hq Havoid.
  intros Hst Hin Hpa Hslash Hpo Hqo Hfo. destruct Hslash as [->|[r ->]].
  - replace (set_path o' []) with o' by (destruct o'; simpl in *; by subst). by eapply resumes_query.
  - cbn [resumes app]. split; [by apply mem_elem_of|]. rewrite after_slash.
    rewrite app_comm_cons. eapply reaches_part; [constructor|done|done|].
    apply (resumes_query path_st (lit "?#") set_path); [constructor|done|done].
Qed.

Lemma resumes_port pt pa o A v o' :
  avoids (lit "/?#") pt -> avoids (lit "?#") pa -> (pa = [] \/ exists r, pa = "/"%byte :: r) ->
  port o' = [] -> path o' = [] -> query o' = ∅ -> fragment o' = [] ->
  resumes host_st (lit ":/?#") o A v o' (port_string pt ++ pa ++ build_query order "?"%byte ++ fragment_string f)
    (set_fragment (set_query (set_path (set_port o' pt) pa) q) f).
Proof using Hq Havoid.
  intros Hpt Hpa Hslash Hpo Hpao Hqo Hfo. destruct pt as [|c pt].
  - replace (set_port o' []) with o' by (destruct o'; simpl in *; by subst).
    eapply resumes_path; try done; [constructor|right; left].
  - unfold port_string. change (lit ":" ++ c :: pt) with (":"%byte :: c :: pt). cbn [resumes].
    split; [done|]. rewrite <- app_comm_cons, (after_other _ port_st) by left.
    eapply reaches_part; [constructor|done|done|].
    eapply (resumes_path port_st (lit "/?#") set_port); try done; [constructor|left].
Qed.
End Tail.

Lemma decode_part_plain s : no_percent s -> decode_part s = Ret s.
Proof. intros H. destruct s; [done|]. by apply decode_plain. Qed.

Lemma url_ok_pairs u order : url_ok u order -> Forall pair_ok (pairs_of order).
Proof.
  intros Hok. pose proof (ok_order u order Hok) as Hperm. pose proof (ok_query u order Hok) as Hq.
  assert (Forall (fun kv => Forall (fun v => pair_ok (kv.1, v)) kv.2) order) as Hall.
  { unfold lists_query in Hperm. rewrite Hperm. apply Forall_forall. intros [k vs] Hin.
    apply elem_of_map_to_list in Hin. by destruct (Hq _ _ Hin). }
  clear -Hall. induction Hall as [|[k vs] order Hkv Hall IH]; [constructor|]. cbn [pairs_of].
  apply Forall_app. split; [by apply Forall_map|done].
Qed.

Lemma pairs_avoid_hash kv pairs :
  Forall pair_ok (kv :: pairs) -> avoids (lit "#") (pair_string kv ++ pairs_string pairs).
Proof.
  assert (forall kv, pair_ok kv -> avoids (lit "#") (pair_string kv)) as H1.
  { intros kv' [Hk Hv]. apply avoids_app. split; [avoid_one Hk|constructor; [done|avoid_one Hv]]. }
  revert kv. induction pairs as [|kv' pairs IH]; intros kv Hok; apply Forall_cons in Hok as [Hkv Hok]; apply avoids_app.
  - split; [by apply H1|constructor].
  - split; [by apply H1|]. constructor; [done|]. by apply IH.
Qed.

Lemma url_ok_query u order :
  url_ok u order ->
  let raw := tail (build_query order "?"%byte) in
  query_loop (S (length raw)) raw ∅ = Ret (query u) /\ avoids (lit "#") raw.
Proof.
  intros Hok raw. subst raw. pose proof (url_ok_pairs u order Hok) as Hpairs.
  rewrite build_query_string. pose proof (fold_add_listed order (query u) (ok_order _ _ Hok)) as Hfold.
  assert (map_Forall (fun _ vals => vals <> []) (query u)) as Hne.
  { intros k vals Hk. by destruct (ok_query _ _ Hok _ _ Hk). }
  specialize (Hfold Hne). destruct (pairs_of order) as [|kv pairs] eqn:E; cbn [tail].
  - split; [|constructor]. cbn in *. by rewrite Hfold.
  - split; [|by apply pairs_avoid_hash]. rewrite query_loop_pairs; [by rewrite Hfold|done|].
    clear. rewrite length_app. enough (length pairs <= length (pairs_string pairs))%nat by lia.
    induction pairs as [|kv' pairs IH]; [simpl; lia|]. cbn [pairs_string length]. rewrite length_app. lia.
Qed.

Lemma build_unfold u order :
  scheme u <> [] ->
  build u order = scheme u ++ ":"%byte :: lit "//" ++
    (if user_info_empty (userinfo u) then []
     else username (userinfo u) ++ lit ":" ++ password (userinfo u) ++ lit "@") ++ after_authority u order.
Proof.
  intros Hs. unfold build, after_authority, port_string, fragment_string.
  destruct (scheme u) as [|c s]; [done|]. rewrite <- !app_assoc. by destruct (port u), (fragment u).
Qed.

Lemma build_reaches u order : url_ok u order -> reaches (initial (build u order)) u.
Proof.
  intros Hok. destruct (ok_scheme _ _ Hok) as [Hs Hsa]. rewrite build_unfold by done.
  destruct (url_ok_query u order Hok) as [Hq Ha].
  apply reaches_scheme; [avoid_one Hsa|lia|]. apply reaches_authority.
  assert (forall A o, o = {| scheme := scheme u; userinfo := userinfo u; host := []; port := []; path := []; query := ∅; fragment := [] |} ->
    reaches (at_border host_st o A (after_authority u order)) u) as Hhost.
  { intros A o ->. unfold after_authority. pose proof (ok_host _ _ Hok) as Hh.
    eapply reaches_part; [constructor|avoid_one Hh|apply (ok_rest _ _ Hok)|].
    pose proof (ok_port _ _ Hok) as Hp. destruct (ok_path _ _ Hok) as [Hpa Hsl].
    set (o := {| scheme := _ |}).
    assert (set_fragment (set_query (set_path (set_port (set_host o (host u)) (port u)) (path u)) (query u)) (fragment u) = u)
      as Hu by (by destruct u).
    pose proof (resumes_port order (query u) (fragment u) Hq Ha (port u) (path u) o A (host u) (set_host o (host u))) as H.
    rewrite Hu in H. apply H; try done; [avoid_one Hp|avoid_one Hpa]. }
  destruct (user_info_empty (userinfo u)) eqn:Eu.
  - apply reaches_no_userinfo; [apply (ok_rest _ _ Hok)|by apply (ok_at _ _ Hok)|].
    apply Hhost. unfold user_info_empty in Eu. destruct u as [? [[|] [|]] ? ? ? ? ?]; done.
  - rewrite <- !app_assoc. destruct (ok_user _ _ Hok) as [Hu Hw].
    apply reaches_userinfo; [avoid_one Hu|avoid_one Hw|]. apply Hhost. by destruct u as [? [? ?] ? ? ? ? ?].
Qed.

Lemma parse_reaches s u :
  reaches (initial s) u ->
  Forall no_percent [scheme u; username (userinfo u); password (userinfo u); host u; port u; path u; fragment u] ->
  parse s = Ret (inl u).
Proof.
  intros (f & p & Hp & Ho & Hst) Hparts. unfold parse, run_parser.
  assert (settles false (parse_loop (parse_fuel s) (initial s)) (fun p => parser_inv false s p /\ pend p = length s)) as Hset.
  { apply parse_loop_settles; [|unfold parse_fuel; lia|].
    - constructor; simpl; try done; [lia|]. parts.
    - left. unfold turns_left, parse_fuel. simpl. lia. }
  change (input (initial s)) with s. assert (parse_loop (parse_fuel s) (initial s) = Ret p) as ->.
  { rewrite <- Hp. rewrite <- (parse_loop_mono (parse_fuel s) (f + parse_fuel s)), <- (parse_loop_mono f (f + parse_fuel s));
      [done|lia|by rewrite Hp|lia|]. by destruct Hset as [(a & -> & _)|[_ ->]]. }
  rewrite bind_ret, Ho. repeat (apply Forall_cons in Hparts as [? Hparts]).
  unfold decode_parts. rewrite !decode_part_plain by done. cbn [obind]. rewrite Hst.
  rewrite decide_True by done. by destruct u as [? [? ?] ? ? ? ? ?].
Qed.

Lemma parse_build u order : url_ok u order -> parse (build u order) = Ret (inl u).
Proof.
  intros Hok. apply parse_reaches; [by apply build_reaches|].
  destruct (ok_scheme _ _ Hok) as [_ Hs], (ok_user _ _ Hok) as [Hu Hw], (ok_path _ _ Hok) as [Hpa _].
  pose proof (ok_host _ _ Hok) as Hh. pose proof (ok_port _ _ Hok) as Hp. pose proof (ok_fragment _ _ Hok) as Hf.
  assert (forall s, avoids (lit "%") s -> no_percent s) as Hpc by (intros s H; apply (avoids_percent _ _ H); left).
  repeat (apply Forall_cons; split); try apply Forall_nil_2; apply Hpc;
    [avoid_one Hs|avoid_one Hu|avoid_one Hw|avoid_one Hh|avoid_one Hp|avoid_one Hpa|done].
Qed.

(** ** Properties *)

(** C12: parsing ends on every string, within its fuel and without undefined
    behaviour.  It gives a URL, or a failure in a state other than [done] whose
    index is the length of the string; only if an escape is cut short (a ['%']
    with fewer than two characters before the end, or before a character that
    ends a part) may an exception leave a [noexcept] function and end the
    process. *)
Theorem url_parse_total s :
  (exists u, parse s = Ret (inl u))
  \/ (exists f, parse s = Ret (inr f) /\ failed_index f = length s /\ failed_at f <> done_st)
  \/ (parse s = Terminate /\ ~ whole_escapes s).
Proof.
  destruct (parse_settles false s ltac:(done)) as [([u|f] & -> & Hf)|[_ Ht]]; [left; eauto|right; left; eauto|].
  right; right. split; [done|]. intros Hs. destruct (parse_settles true s ltac:(intros _; exact Hs)) as [(r & Hr & _)|[? _]]; [congruence|done].
Qed.

(** The three ends *)
Example url_parse_ends :
  (exists u, parse (lit "http://a%40b/c?d=e#f") = Ret (inl u)) /\ parse (lit "http:") = Ret (inr {| failed_at := authority_st; failed_index := 5 |})
  /\ parse (lit "http://a%4/b") = Terminate.
Proof. split_and!; [eexists; vm_compute; reflexivity|vm_compute; reflexivity..]. Qed.

(** C11: parsing the text that [build] writes gives the URL back, for every URL
    with a scheme whose parts avoid the characters that delimit them, and in
    whatever order the query map is walked. *)
Theorem url_build_parse u order : url_ok u order -> parse (build u order) = Ret (inl u).
Proof. apply parse_build. Qed.

Definition sample_query : query_values := {[ lit "k" := [lit "1"; lit "2"]; lit "n" := [lit ""] ]}.
Definition sample_url : url :=
  {| scheme := lit "http"; userinfo := {| username := lit "user"; password := lit "pw:x" |};
     host := lit "host"; port := lit "9123"; path := lit "/a/b"; query := sample_query; fragment := lit "frag" |}.

Lemma url_build_parse_witness :
  parse (build sample_url (map_to_list sample_query)) = Ret (inl sample_url).
Proof.
  apply (url_build_parse sample_url (map_to_list sample_query)). constructor.
  - split; [discriminate|]. apply (bool_decide_unpack _). vm_compute. exact I.
  - split; apply (bool_decide_unpack _); vm_compute; exact I.
  - apply (bool_decide_unpack _). vm_compute. exact I.
  - apply (bool_decide_unpack _). vm_compute. exact I.
  - split; [apply (bool_decide_unpack _); vm_compute; exact I|right; eexists; reflexivity].
  - unfold pair_ok. apply (bool_decide_unpack _). vm_compute. exact I.
  - apply (bool_decide_unpack _). vm_compute. exact I.
  - apply Permutation_refl.
  - discriminate.
  - discriminate.
Defined.

(** unescaping inverts escaping: for every string without ['%'],
    [decode] of [encode] with the default reserved characters is the string
    itself, although not every reserved character is escaped. *)
Lemma url_encode_decode s :
  no_percent s -> exists t, encode s reserved_characters = Ret t /\ decode t = Ret s.
Proof.
  intros Hs. destruct (encode_loop_decodes (S (length s)) s 0 [] ltac:(lia) Hs) as (t & He & Hd).
  exists t. unfold encode, decode. rewrite He, (Hd (S (length t)) []) by lia. done.
Qed.

Lemma url_encode_decode_witness :
  exists t, encode (lit "a b/c?d=e&f") reserved_characters = Ret t /\ decode t = Ret (lit "a b/c?d=e&f").
Proof. apply (url_encode_decode (lit "a b/c?d=e&f")). apply (bool_decide_unpack _). vm_compute. exact I. Defined.

(** The escaping loop does not restart its search: in a string with a
    second reserved character at a smaller offset from the first than the
    first was from the start, the second is left as it is, and unescaping the
    result then ends the process. *)
Lemma url_encode_skips :
  encode (lit "ab%c%") reserved_characters = Ret (lit "ab%25c%")
  /\ decode (lit "ab%25c%") = Terminate
  /\ encode (lit "a/b/c") reserved_characters = Ret (lit "a%2fb%2fc")
  /\ encode (lit "aa/b/c") reserved_characters = Ret (lit "aa%2fb/c").
Proof. vm_compute. split_and!; reflexivity. Qed.

(** An invalid escape loses the text in front of it, and an escape cut
    short at the end of a part ends the process, also through [parse]. *)
Lemma url_decode_invalid :
  decode (lit "ab%zzcd") = Ret (lit "cd")
  /\ decode (lit "ab%4") = Terminate
  /\ parse (lit "/index%") = Terminate
  /\ parse (lit "/index?a=%2") = Terminate.
Proof. vm_compute. split_and!; reflexivity. Qed.
