(* ===== verification/RingBuffer.v ===== *)
(** * The ring buffer (include/util/ring_buffer.hpp)

    A fixed array of [N] slots, the index of the oldest element and the number
    of elements.  [push] overwrites the oldest element when the buffer is
    full; [pop] on an empty buffer returns whatever is in the slot.  The
    theorems relate it to a bounded queue that forgets its oldest element. *)

From Stdlib Require Import ZArith Strings.Byte Lia String.
From stdpp Require Import prelude list.
From S2P Require Import Prelude.

(** ** Definitions *)

Record ring_buffer (T : Type) := { values : list T; begin : nat; current_size : nat }.
Arguments values {T}.
Arguments begin {T}.
Arguments current_size {T}.

(** [std::array<T, N> values{}]: [N] value-initialised slots. *)
Definition make {T} (zero : T) (N : nat) : ring_buffer T :=
  {| values := replicate N zero; begin := 0; current_size := 0 |}.

Definition empty {T} (r : ring_buffer T) : bool := (current_size r =? 0)%nat.
Definition capacity {T} (r : ring_buffer T) : nat := length (values r).
Definition size {T} (r : ring_buffer T) : nat := current_size r.

(** [a % capacity()]: undefined for a capacity of zero. *)
Definition modulo {T} (r : ring_buffer T) (a : nat) : outcome nat :=
  if (capacity r =? 0)%nat then Undef else Ret (a mod capacity r)%nat.

Definition push {T} (r : ring_buffer T) (value : T) : outcome (ring_buffer T) :=
  let* idx := modulo r (begin r + current_size r) in
  let* vs := store (values r) idx value in
  if (capacity r <? current_size r + 1)%nat then
    let* b := modulo r (begin r + 1) in
    Ret {| values := vs; begin := b; current_size := current_size r |}
  else Ret {| values := vs; begin := begin r; current_size := current_size r + 1 |}.

Definition pop {T} (r : ring_buffer T) : outcome (T * ring_buffer T) :=
  let* value := index (values r) (begin r) in
  let* b := modulo r (begin r + 1) in
  let n := if negb (current_size r =? 0)%nat then (current_size r - 1)%nat else current_size r in
  Ret (value, {| values := values r; begin := b; current_size := n |}).

(** [operator[]] *)
Definition at_index {T} (r : ring_buffer T) (i : nat) : outcome T :=
  let* idx := modulo r (begin r + i) in index (values r) idx.

(** ** The bounded queue it implements *)

Definition contents {T} (r : ring_buffer T) : list T :=
  take (current_size r) (drop (begin r) (values r) ++ take (begin r) (values r)).

Record ring_ok {T} (N : nat) (r : ring_buffer T) : Prop := {
  ring_capacity : length (values r) = N;
  ring_begin : (begin r < N)%nat;
  ring_size : (current_size r <= N)%nat;
}.

(** The array seen from the oldest slot. *)
Definition rotation {T} (r : ring_buffer T) : list T :=
  drop (begin r) (values r) ++ take (begin r) (values r).

Lemma rotation_length {T} N (r : ring_buffer T) : ring_ok N r -> length (rotation r) = N.
Proof. intros [<- Hb Hs]. unfold rotation. solve_length. Qed.

Lemma contents_length {T} N (r : ring_buffer T) : ring_ok N r -> length (contents r) = current_size r.
Proof.
  intros H. unfold contents. fold (rotation r). rewrite length_take, (rotation_length N r H).
  destruct H. lia.
Qed.

Lemma wrap_index b i N : (b < N)%nat -> (i < N)%nat ->
  ((b + i) mod N = if b + i <? N then b + i else b + i - N)%nat.
Proof.
  intros Hb Hi. destruct (b + i <? N)%nat eqn:E; reflect_bools.
  - by apply Nat.mod_small.
  - symmetry. apply (Nat.mod_unique _ _ 1); lia.
Qed.

Lemma rotation_lookup {T} N (r : ring_buffer T) i :
  ring_ok N r -> (i < N)%nat -> rotation r !! i = values r !! ((begin r + i) mod N)%nat.
Proof.
  intros [Hc Hb Hs] Hi. rewrite wrap_index by done. unfold rotation.
  destruct (begin r + i <? N)%nat eqn:E; reflect_bools.
  - rewrite lookup_app_l by solve_length. by rewrite lookup_drop.
  - rewrite lookup_app_r by solve_length. rewrite length_drop, lookup_take_lt by lia. f_equal. lia.
Qed.

(** Writing the slot behind the newest element, seen from the oldest. *)
Lemma rotation_store {T} N (r : ring_buffer T) i x :
  ring_ok N r -> (i < N)%nat ->
  rotation {| values := <[((begin r + i) mod N)%nat := x]> (values r); begin := begin r; current_size := current_size r |}
  = <[i := x]> (rotation r).
Proof.
  intros [Hc Hb Hs] Hi. rewrite wrap_index by done. unfold rotation. cbn [values begin].
  destruct (begin r + i <? N)%nat eqn:E; reflect_bools.
  - rewrite drop_insert_ge, take_insert_ge, insert_app_l by solve_length. do 2 f_equal. lia.
  - rewrite drop_insert_lt, take_insert_lt by lia.
    rewrite insert_app_r_alt by solve_length. rewrite length_drop. do 2 f_equal. lia.
Qed.

(** Advancing [begin] rotates by one. *)
Lemma rotation_advance {T} N (r : ring_buffer T) n :
  ring_ok N r ->
  rotation {| values := values r; begin := ((begin r + 1) mod N)%nat; current_size := n |}
  = tail (rotation r) ++ take 1 (rotation r).
Proof.
  intros [Hc Hb Hs]. unfold rotation. cbn [values begin].
  destruct (lookup_lt_is_Some_2 (values r) (begin r) ltac:(lia)) as [x Hx].
  rewrite (drop_S _ _ _ Hx). cbn [tail app]. change (take 1 (x :: ?l)) with [x].
  destruct (decide (begin r + 1 = N)%nat) as [He|Hn].
  - rewrite He, Nat.Div0.mod_same, drop_0, take_0, app_nil_r.
    rewrite (drop_ge _ (S (begin r))) by lia. cbn [app].
    rewrite <- (take_drop_middle _ _ _ Hx) at 1. by rewrite (drop_ge _ (S (begin r))) by lia.
  - rewrite Nat.mod_small, Nat.add_1_r by lia. rewrite (take_S_r _ _ _ Hx), app_assoc. done.
Qed.

Lemma modulo_ok {T} N (r : ring_buffer T) a : ring_ok N r -> modulo r a = Ret (a mod N)%nat.
Proof.
  intros [Hc Hb Hs]. unfold modulo, capacity. rewrite Hc. by rewrite (proj2 (Nat.eqb_neq _ _)) by lia.
Qed.

(** The queue of at most [N] elements that forgets the oldest. *)
Definition enqueue {T} (N : nat) (q : list T) (x : T) : list T :=
  if (length q <? N)%nat then q ++ [x] else tail q ++ [x].

Lemma push_contents {T} N (r : ring_buffer T) x :
  ring_ok N r -> exists r', push r x = Ret r' /\ ring_ok N r' /\ contents r' = enqueue N (contents r) x.
Proof.
  intros H. pose proof H as [Hc Hb Hs]. unfold push, enqueue. rewrite (contents_length N r H).
  rewrite !(modulo_ok N) by done. rewrite bind_ret, store_lt, bind_ret by (rewrite Hc; apply Nat.mod_upper_bound; lia).
  unfold capacity. rewrite Hc. set (vs := <[_ := x]> _).
  assert (length vs = N) as Hvs by (subst vs; by rewrite length_insert).
  destruct (decide (current_size r < N)%nat) as [Hlt|Hge].
  - rewrite (proj2 (Nat.ltb_ge _ _)), (proj2 (Nat.ltb_lt (current_size r) N)) by lia.
    eexists; split; [done|]. split; [by constructor; simpl; [|lia|lia]|].
    pose proof (rotation_store N r (current_size r) x H Hlt) as Hrot. unfold rotation in Hrot. cbn [values begin] in Hrot.
    unfold contents. cbn [values begin current_size]. fold vs in Hrot. rewrite Hrot.
    pose proof (rotation_length N r H) as Hl. unfold rotation in Hl.
    rewrite Nat.add_1_r. rewrite (take_S_r _ _ x); [by rewrite take_insert_ge by lia|].
    by rewrite list_lookup_insert_eq by lia.
  - assert (current_size r = N) as Hn by lia. rewrite Hn.
    rewrite (proj2 (Nat.ltb_lt _ _)), Nat.ltb_irrefl by lia. rewrite bind_ret.
    eexists; split; [done|].
    assert (((begin r + N) mod N)%nat = ((begin r + 0) mod N)%nat) as Hmod.
    { rewrite Nat.add_0_r. replace (begin r + N)%nat with (begin r + 1 * N)%nat by lia. apply Nat.Div0.mod_add. }
    pose proof (rotation_store N r 0 x H ltac:(lia)) as Hst. rewrite <- Hmod in Hst. rewrite <- Hn in Hst at 1.
    fold vs in Hst. set (r1 := {| values := vs; begin := begin r; current_size := current_size r |}) in Hst.
    assert (ring_ok N r1) as H1 by (by constructor).
    pose proof (rotation_advance N r1 N H1) as Hadv. rewrite Hst in Hadv.
    split; [constructor; simpl; [done|apply Nat.mod_upper_bound; lia|lia]|].
    pose proof (rotation_length N r H) as Hl.
    unfold contents. fold (rotation r). cbn [values begin current_size]. unfold rotation in Hadv at 1. cbn [values begin] in Hadv.
    change (values r1) with vs in Hadv. change (begin r1) with (begin r) in Hadv. rewrite Hn, Hadv. destruct (rotation r) as [|y l]; [simpl in Hl; lia|].
    cbn [insert list_insert tail] in *. simpl in Hl. rewrite take_ge, (take_ge (y :: l)) by solve_length. done.
Qed.

Lemma pop_contents {T} N (r : ring_buffer T) :
  ring_ok N r -> exists x r', pop r = Ret (x, r') /\ ring_ok N r' /\ contents r' = tail (contents r)
    /\ (forall y q, contents r = y :: q -> x = y).
Proof.
  intros H. pose proof H as [Hc Hb Hs]. unfold pop. destruct (lookup_lt_is_Some_2 (values r) (begin r) ltac:(lia)) as [x Hx].
  assert (index (values r) (begin r) = Ret x) as -> by (unfold index; by rewrite Hx).
  rewrite bind_ret, (modulo_ok N) by done. rewrite bind_ret. exists x. eexists. split; [done|].
  pose proof (rotation_advance N r (current_size r - 1) H) as Hadv.
  pose proof (rotation_length N r H) as Hl.
  assert (rotation r !! 0%nat = Some x) as H0.
  { rewrite (rotation_lookup N) by (done || lia). by rewrite Nat.add_0_r, Nat.mod_small by lia. }
  split_and!.
  - constructor; simpl; [done|apply Nat.mod_upper_bound; lia|]. destruct (negb _); lia.
  - unfold contents. fold (rotation r). cbn [values begin current_size].
    unfold rotation in Hadv at 1. cbn [values begin] in Hadv. rewrite Hadv.
    destruct (rotation r) as [|y l]; [done|]. destruct (current_size r) as [|n]; [done|].
    cbn [tail]. change (take (S n) (y :: l)) with (y :: take n l). cbn [tail negb Nat.eqb Nat.sub].
    rewrite Nat.sub_0_r. rewrite take_app_le; [done|]. simpl in Hl. lia.
  - intros y q Hq. unfold contents in Hq. fold (rotation r) in Hq.
    destruct (rotation r) as [|z l]; [done|]. destruct (current_size r); [done|]. simpl in H0, Hq. congruence.
Qed.

Lemma at_index_contents {T} N (r : ring_buffer T) i :
  ring_ok N r -> (i < current_size r)%nat -> exists x, at_index r i = Ret x /\ contents r !! i = Some x.
Proof.
  intros H Hi. pose proof H as [Hc Hb Hs]. unfold at_index. rewrite (modulo_ok N), bind_ret by done.
  destruct (lookup_lt_is_Some_2 (rotation r) i) as [x Hx]; [rewrite (rotation_length N) by done; lia|].
  exists x. unfold contents. fold (rotation r). rewrite lookup_take_lt by done. split; [|done].
  rewrite (rotation_lookup N) in Hx by (done || lia). unfold index. by rewrite Hx.
Qed.

(** ** Runs of operations *)

Inductive operation (T : Type) := Push (x : T) | Pop.
Arguments Push {T} x.
Arguments Pop {T}.

(** The values the pops of a run return. *)
Fixpoint run {T} (r : ring_buffer T) (ops : list (operation T)) : outcome (list T * ring_buffer T) :=
  match ops with
  | [] => Ret ([], r)
  | Push x :: ops => let* r := push r x in run r ops
  | Pop :: ops =>
      let* (x, r) := pop r in
      let* (xs, r) := run r ops in Ret (x :: xs, r)
  end.

(** The same on the queue: [None] where nothing is promised. *)
Fixpoint run_queue {T} (N : nat) (q : list T) (ops : list (operation T)) : list (option T) * list T :=
  match ops with
  | [] => ([], q)
  | Push x :: ops => run_queue N (enqueue N q x) ops
  | Pop :: ops => let (xs, q') := run_queue N (tail q) ops in (head q :: xs, q')
  end.

(** The value is the promised one, if there is one. *)
Definition as_promised {T} (promise : option T) (x : T) : Prop :=
  match promise with Some y => x = y | None => True end.

Lemma run_refines {T} N (r : ring_buffer T) ops :
  ring_ok N r ->
  exists xs r', run r ops = Ret (xs, r') /\ ring_ok N r'
    /\ contents r' = (run_queue N (contents r) ops).2
    /\ Forall2 as_promised (run_queue N (contents r) ops).1 xs.
Proof.
  revert r. induction ops as [|[x|] ops IH]; intros r H; cbn [run run_queue].
  - exists [], r. split_and!; (done || constructor).
  - destruct (push_contents N r x H) as (r1 & -> & H1 & Hc). rewrite bind_ret, <- Hc. by apply IH.
  - destruct (pop_contents N r H) as (x & r1 & -> & H1 & Hc & Hx). rewrite bind_ret, <- Hc.
    destruct (IH r1 H1) as (xs & r2 & -> & H2 & Hc2 & Hxs). rewrite bind_ret.
    exists (x :: xs), r2. destruct (run_queue N (contents r1) ops) as [ys q]. simpl in *. split_and!; try done.
    constructor; [|done]. destruct (contents r) as [|y q']; [done|]. simpl. by eapply Hx.
Qed.

Lemma make_ring_ok {T} (zero : T) N : (0 < N)%nat -> ring_ok N (make zero N) /\ contents (make zero N) = [].
Proof. intros HN. split; [|done]. constructor; simpl; [by rewrite length_replicate|done|lia]. Qed.

(** ** Properties *)

(** C20: any sequence of pushes and pops on a ring buffer of [N > 0] slots is
    defined and behaves as a queue of at most [N] elements that drops its
    oldest one when full; the pops return the queue's front, and only a pop
    from an empty buffer returns a value nothing is promised about. *)
Theorem ring_buffer_refines_queue {T} (zero : T) N ops :
  (0 < N)%nat ->
  exists xs r, run (make zero N) ops = Ret (xs, r)
    /\ contents r = (run_queue N [] ops).2 /\ (size r <= N)%nat
    /\ Forall2 as_promised (run_queue N [] ops).1 xs
    /\ forall i, (i < size r)%nat -> exists x, at_index r i = Ret x /\ contents r !! i = Some x.
Proof.
  intros HN. destruct (make_ring_ok zero N HN) as [H Hc].
  destruct (run_refines N _ ops H) as (xs & r & Hr & Hok & Hcr & Hxs). rewrite Hc in Hcr, Hxs.
  exists xs, r. split_and!; try done; [by destruct Hok|]. intros i Hi. by apply (at_index_contents N).
Qed.

Lemma ring_buffer_refines_queue_witness :
  exists xs r, run (make 0 2) [Push 1; Push 2; Push 3; Pop; Pop; Pop] = Ret (xs, r)
    /\ contents r = (run_queue 2 [] [Push 1; Push 2; Push 3; Pop; Pop; Pop]).2 /\ (size r <= 2)%nat
    /\ Forall2 as_promised (run_queue 2 [] [Push 1; Push 2; Push 3; Pop; Pop; Pop]).1 xs
    /\ forall i, (i < size r)%nat -> exists x, at_index r i = Ret x /\ contents r !! i = Some x.
Proof. apply (ring_buffer_refines_queue 0 2 [Push 1; Push 2; Push 3; Pop; Pop; Pop]). lia. Defined.
