(* ===== verification/Cache.v ===== *)
(** * The SIEVE cache (include/util/cache.hpp)

    The entries are a doubly linked list, newest first; [lookup] maps a key to
    an iterator into it, and [hand] is the iterator the eviction resumes from.
    An iterator is the identity of its node, [None] being [end()]; identities
    are never reused, so an iterator to an erased node is recognised and any
    use of it is [Undef].  [erase] and [evict] step back from the front of the
    list: [std::prev] of [begin()], which the standard leaves undefined, is an
    argument of the model, [prev_begin].  The lists of the common standard
    libraries are circular and give [end()] there; theorems that need it say so.

    Each operation holds the cache's mutex from start to end, so a run of the
    cache is a sequence of operations.  [get_or_set] takes the mutex and then
    calls [set], which takes it again: that is undefined. *)

From Stdlib Require Import ZArith Lia.
From stdpp Require Import prelude list gmap.
From S2P Require Import Prelude CxxStrings.

Section Cache.
Context {K V : Type} `{Countable K} (prev_begin : outcome (option nat)).

(** ** Definitions *)

Record entry := { eid : nat; key : K; val : V; visited : bool }.

Notation iterator := (option nat) (only parsing).

Record cache := {
  capacity : nat;
  lookup_table : gmap K nat;
  entries : list entry;
  hand : iterator;
  next_id : nat;
}.

Definition make (capacity : nat) : cache :=
  {| capacity := capacity; lookup_table := ∅; entries := []; hand := None; next_id := 0 |}.

(** *** [std::list] *)

Definition position (l : list entry) (id : nat) : option nat := find_index (fun e => eid e =? id)%nat l.

Definition list_begin (l : list entry) : iterator := eid <$> head l.

Definition deref (l : list entry) (it : iterator) : outcome entry :=
  match it with
  | None => Undef
  | Some id =>
      match position l id with
      | Some i => index l i
      | None => Undef
      end
  end.

(** [std::prev(it)] *)
Definition prev (l : list entry) (it : iterator) : outcome iterator :=
  match it with
  | None => match last l with Some e => Ret (Some (eid e)) | None => prev_begin end
  | Some id =>
      match position l id with
      | None => Undef
      | Some O => prev_begin
      | Some (S i) => Ret (eid <$> l !! i)
      end
  end.

(** Assignment through an iterator. *)
Definition update (l : list entry) (it : iterator) (f : entry -> entry) : outcome (list entry) :=
  match it with
  | None => Undef
  | Some id =>
      match position l id with
      | Some i => Ret (alter f i l)
      | None => Undef
      end
  end.

Definition list_erase (l : list entry) (it : iterator) : outcome (list entry) :=
  match it with
  | None => Undef
  | Some id =>
      match position l id with
      | Some i => Ret (delete i l)
      | None => Undef
      end
  end.

Definition set_visited (b : bool) (e : entry) : entry :=
  {| eid := eid e; key := key e; val := val e; visited := b |}.
Definition set_val (v : V) (e : entry) : entry :=
  {| eid := eid e; key := key e; val := v; visited := visited e |}.

(** *** The cache *)

(** The loop of [evict]: clears marks walking from back to front, until it
    finds an entry without one. *)
Fixpoint evict_loop (fuel : nat) (l : list entry) (old : iterator) : outcome (list entry * iterator) :=
  match fuel with
  | O => OutOfFuel
  | S fuel =>
      let* e := deref l old in
      if visited e then
        let* l := update l old (set_visited false) in
        let* old := if decide (old = list_begin l) then prev l None else prev l old in
        evict_loop fuel l old
      else Ret (l, old)
  end.

Definition evict (c : cache) : outcome cache :=
  let* old := match hand c with None => prev (entries c) None | Some id => Ret (Some id) end in
  let* (l, old) := evict_loop (S (length (entries c))) (entries c) old in
  let* h := prev l old in
  let* e := deref l old in
  let* l := list_erase l old in
  Ret {| capacity := capacity c; lookup_table := delete (key e) (lookup_table c); entries := l; hand := h;
         next_id := next_id c |}.

Definition set (c : cache) (k : K) (v : V) : outcome cache :=
  match lookup_table c !! k with
  | Some id =>
      let* l := update (entries c) (Some id) (set_val v) in
      let* l := update l (Some id) (set_visited true) in
      Ret {| capacity := capacity c; lookup_table := lookup_table c; entries := l; hand := hand c; next_id := next_id c |}
  | None =>
      let* c := if (capacity c <=? length (entries c))%nat then evict c else Ret c in
      let ent := {| eid := next_id c; key := k; val := v; visited := false |} in
      Ret {| capacity := capacity c; lookup_table := <[k := next_id c]> (lookup_table c);
             entries := ent :: entries c; hand := hand c; next_id := S (next_id c) |}
  end.

Definition get (c : cache) (k : K) : outcome (option V * cache) :=
  match lookup_table c !! k with
  | Some id =>
      let* l := update (entries c) (Some id) (set_visited true) in
      let* e := deref l (Some id) in
      Ret (Some (val e),
           {| capacity := capacity c; lookup_table := lookup_table c; entries := l; hand := hand c; next_id := next_id c |})
  | None => Ret (None, c)
  end.

(** The second lock of the mutex by [set] is undefined. *)
Definition get_or_set (c : cache) (k : K) (f : K -> V) : outcome (V * cache) :=
  let* (o, c) := get c k in
  match o with
  | Some v => Ret (v, c)
  | None => Undef
  end.

Definition erase (c : cache) (k : K) : outcome (bool * cache) :=
  match lookup_table c !! k with
  | Some id =>
      let* h := if decide (Some id = hand c) then prev (entries c) (hand c) else Ret (hand c) in
      let* l := list_erase (entries c) (Some id) in
      Ret (true, {| capacity := capacity c; lookup_table := delete k (lookup_table c); entries := l; hand := h;
                    next_id := next_id c |})
  | None => Ret (false, c)
  end.

Definition contains (c : cache) (k : K) : bool := bool_decide (is_Some (lookup_table c !! k)).
Definition size (c : cache) : nat := length (entries c).
Definition empty (c : cache) : bool := match entries c with [] => true | _ => false end.

Definition purge (c : cache) : cache :=
  {| capacity := capacity c; lookup_table := ∅; entries := []; hand := hand c; next_id := next_id c |}.

(** A circular list *)
Context (circular : prev_begin = Ret None).

(** ** The invariant *)

Definition ids (l : list entry) : list nat := eid <$> l.

Record cache_ok (c : cache) : Prop := {
  ok_ids : NoDup (ids (entries c));
  ok_fresh : Forall (fun e => (eid e < next_id c)%nat) (entries c);
  ok_lookup : forall k id, lookup_table c !! k = Some id <-> exists e, e ∈ entries c /\ key e = k /\ eid e = id;
  ok_keys : NoDup (key <$> entries c);
  ok_size : (length (entries c) <= capacity c)%nat;
  ok_hand : forall id, hand c = Some id -> id ∈ ids (entries c);
}.

(** *** Nodes and positions *)

Lemma position_lookup l i e : NoDup (ids l) -> l !! i = Some e -> position l (eid e) = Some i.
Proof.
  unfold position. revert i. induction l as [|x l IH]; intros i Hnd Hi; [done|].
  apply NoDup_cons in Hnd as [Hx Hnd]. cbn [find_index]. destruct i as [|i]; simpl in Hi.
  - injection Hi as ->. by rewrite Nat.eqb_refl.
  - rewrite (proj2 (Nat.eqb_neq _ _)).
    + by rewrite (IH i) by done.
    + intros Heq. apply Hx. rewrite Heq. apply list_elem_of_fmap. exists e. split; [done|]. by eapply list_elem_of_lookup_2.
Qed.

Lemma position_Some l id i : position l id = Some i -> exists e, l !! i = Some e /\ eid e = id.
Proof.
  intros (a & x & b & -> & <- & Hx & _)%find_index_Some. exists x. reflect_bools. split; [by apply list_lookup_middle|done].
Qed.

Lemma elem_of_ids l id : id ∈ ids l <-> exists i e, l !! i = Some e /\ eid e = id.
Proof.
  unfold ids. rewrite list_elem_of_fmap. split.
  - intros (e & -> & He). apply list_elem_of_lookup in He as [i Hi]. eauto.
  - intros (i & e & Hi & <-). exists e. split; [done|]. by eapply list_elem_of_lookup_2.
Qed.

(** What the marks do not change. *)
Definition unmarked (e : entry) : nat * K * V := (eid e, key e, val e).

Lemma unmarked_ids (l l' : list entry) : unmarked <$> l = unmarked <$> l' -> ids l = ids l'.
Proof.
  intros Hu. apply (f_equal (fmap (fun x => x.1.1))) in Hu. by rewrite <- !list_fmap_compose in Hu.
Qed.

Lemma unmarked_keys (l l' : list entry) : unmarked <$> l = unmarked <$> l' -> key <$> l = key <$> l'.
Proof.
  intros Hu. apply (f_equal (fmap (fun x => x.1.2))) in Hu. by rewrite <- !list_fmap_compose in Hu.
Qed.

Lemma unmarked_alter (l : list entry) i b : unmarked <$> alter (set_visited b) i l = unmarked <$> l.
Proof. revert i. induction l as [|e l IH]; intros [|i]; cbn; try done. by rewrite <- (IH i). Qed.

Lemma unmarked_lookup (l l' : list entry) i e :
  unmarked <$> l = unmarked <$> l' -> l !! i = Some e -> exists e', l' !! i = Some e' /\ unmarked e' = unmarked e.
Proof.
  intros Hu Hi. apply (f_equal (.!! i)) in Hu. rewrite !list_lookup_fmap, Hi in Hu.
  destruct (l' !! i) as [e'|]; [|done]. simpl in Hu. exists e'. split; [done|congruence].
Qed.

(** *** The walk of the hand

    [back n p k] is the position [k] steps from [p] towards the front, going
    round; [cleared] are the positions passed on the way. *)

Definition back (n p k : nat) : nat := if (k <=? p)%nat then p - k else p + n - k.

Definition cleared (n p k i : nat) : bool := ((i <=? p) && (p <? i + k) || (p + n <? i + k))%nat.

Definition walked (l0 : list entry) (p k : nat) (l : list entry) : Prop :=
  length l = length l0 /\ forall i e, l0 !! i = Some e ->
    l !! i = Some (if cleared (length l0) p k i then set_visited false e else e).

Lemma walked_unmarked l0 p k l : walked l0 p k l -> unmarked <$> l = unmarked <$> l0.
Proof.
  intros [Hl Hw]. apply list_eq. intros i. rewrite !list_lookup_fmap.
  destruct (l0 !! i) as [e|] eqn:E.
  - rewrite (Hw i e E). by destruct (cleared _ _ _ _).
  - apply lookup_ge_None in E. by rewrite lookup_ge_None_2 by lia.
Qed.

Lemma back_lt n p k : (p < n)%nat -> (k <= n)%nat -> (back n p k < n)%nat.
Proof. unfold back. intros. destruct (k <=? p)%nat eqn:E; reflect_bools; lia. Qed.

Lemma back_not_cleared n p k : (p < n)%nat -> (k < n)%nat -> cleared n p k (back n p k) = false.
Proof.
  unfold back, cleared. intros. apply orb_false_iff. rewrite andb_false_iff, !Nat.leb_gt, !Nat.ltb_ge.
  destruct (k <=? p)%nat eqn:E; reflect_bools; lia.
Qed.

Lemma cleared_step n p k i :
  (p < n)%nat -> (k < n)%nat -> (i < n)%nat ->
  cleared n p (S k) i = bool_decide (back n p k = i) || cleared n p k i.
Proof.
  unfold back, cleared. intros. apply eq_iff_eq_true.
  rewrite !orb_true_iff, !andb_true_iff, bool_decide_eq_true, !Nat.leb_le, !Nat.ltb_lt.
  destruct (k <=? p)%nat eqn:E; reflect_bools; lia.
Qed.

Lemma cleared_all n p i : (p < n)%nat -> (i < n)%nat -> cleared n p n i = true.
Proof.
  unfold cleared. intros. rewrite orb_true_iff, andb_true_iff, Nat.leb_le, !Nat.ltb_lt. lia.
Qed.

Lemma walked_step l0 p k l e :
  (p < length l0)%nat -> (k < length l0)%nat -> walked l0 p k l -> l !! back (length l0) p k = Some e ->
  walked l0 p (S k) (alter (set_visited false) (back (length l0) p k) l).
Proof.
  intros Hp Hk [Hl Hw] He. split; [by rewrite length_alter|]. intros i e0 Hi.
  pose proof (lookup_lt_Some _ _ _ Hi). rewrite cleared_step by done.
  destruct (decide (back (length l0) p k = i)) as [<-|Hne].
  - rewrite bool_decide_true by done. rewrite list_lookup_alter_eq, (Hw _ _ Hi). cbn. f_equal.
    by destruct (cleared _ _ _ _).
  - rewrite bool_decide_false by done. rewrite list_lookup_alter_ne by done. apply Hw, Hi.
Qed.

Lemma deref_at l i e : NoDup (ids l) -> l !! i = Some e -> deref l (Some (eid e)) = Ret e.
Proof. intros Hnd Hi. unfold deref. rewrite (position_lookup l i e) by done. unfold index. by rewrite Hi. Qed.

Lemma update_at l i e f : NoDup (ids l) -> l !! i = Some e -> update l (Some (eid e)) f = Ret (alter f i l).
Proof. intros Hnd Hi. unfold update. by rewrite (position_lookup l i e). Qed.

Lemma list_erase_at l i e : NoDup (ids l) -> l !! i = Some e -> list_erase l (Some (eid e)) = Ret (delete i l).
Proof. intros Hnd Hi. unfold list_erase. by rewrite (position_lookup l i e). Qed.

(** One step back from position [i], in the loop of [evict]. *)
Lemma step_back l i e :
  NoDup (ids l) -> l !! i = Some e ->
  exists e', l !! back (length l) i 1 = Some e'
    /\ (if decide (Some (eid e) = list_begin l) then prev l None else prev l (Some (eid e))) = Ret (Some (eid e')).
Proof.
  intros Hnd Hi. pose proof (lookup_lt_Some _ _ _ Hi) as Hlt.
  destruct (lookup_lt_is_Some_2 l (back (length l) i 1)) as [e' He']; [apply back_lt; lia|].
  exists e'. split; [done|]. unfold list_begin. destruct l as [|x l]; [done|]. cbn [head fmap option_fmap option_map].
  destruct (decide (Some (eid e) = Some (eid x))) as [Heq|Hne].
  - assert (i = 0%nat) as ->.
    { injection Heq as Heq. pose proof (position_lookup _ _ _ Hnd Hi) as H1.
      rewrite Heq in H1. pose proof (position_lookup (x :: l) 0 x Hnd eq_refl) as H2. congruence. }
    unfold back in He'. simpl in He'. rewrite Nat.sub_0_r in He'. unfold prev. rewrite last_lookup.
    simpl. by rewrite He'.
  - unfold prev. rewrite (position_lookup _ _ _ Hnd Hi). destruct i as [|i].
    { simpl in Hi. congruence. }
    unfold back in He'. simpl in He'. rewrite Nat.sub_0_r in He'. by rewrite He'.
Qed.

(** The loop stops after at most one round: at the first entry without a mark,
    or, if all had one, at the entry it started from. *)
Lemma evict_loop_spec fuel l0 p k l e :
  NoDup (ids l0) -> (p < length l0)%nat -> (k <= length l0)%nat -> (length l0 - k < fuel)%nat ->
  walked l0 p k l -> (forall j e, (j < k)%nat -> l0 !! back (length l0) p j = Some e -> visited e = true) ->
  l0 !! back (length l0) p k = Some e ->
  exists k' e' l', evict_loop fuel l (Some (eid e)) = Ret (l', Some (eid e')) /\ (k' <= length l0)%nat
    /\ walked l0 p k' l' /\ l0 !! back (length l0) p k' = Some e'
    /\ (forall j e, (j < k')%nat -> l0 !! back (length l0) p j = Some e -> visited e = true)
    /\ (k' = length l0 \/ visited e' = false).
Proof.
  intros Hnd Hp. revert k l e. induction fuel as [|fuel IH]; intros k l e Hk Hf Hw Hvis He; [lia|].
  cbn [evict_loop]. assert (NoDup (ids l)) as Hndl by (by rewrite (unmarked_ids _ _ (walked_unmarked _ _ _ _ Hw))).
  pose proof (proj2 Hw _ _ He) as Hl. set (b := cleared _ _ _ _) in Hl.
  assert (eid (if b then set_visited false e else e) = eid e) as Hid by (by destruct b).
  rewrite <- Hid, (deref_at _ _ _ Hndl Hl), bind_ret.
  destruct (decide (k = length l0)) as [->|Hlt].
  { subst b. rewrite cleared_all in * by (done || apply back_lt; lia). simpl. eexists _, e, l. split_and!; eauto. }
  assert (b = false) as -> by (apply back_not_cleared; lia). cbv iota in *. destruct (visited e) eqn:Ev.
  2: { eexists k, e, l. split_and!; eauto. }
  rewrite (update_at _ _ _ _ Hndl Hl), bind_ret. set (l1 := alter _ _ _).
  assert (walked l0 p (S k) l1) as Hw1 by (eapply walked_step; eauto; lia).
  assert (NoDup (ids l1)) as Hnd1 by (by rewrite (unmarked_ids _ _ (walked_unmarked _ _ _ _ Hw1))).
  assert (l1 !! back (length l0) p k = Some (set_visited false e)) as Hl1.
  { subst l1. by rewrite list_lookup_alter_eq, Hl. }
  destruct (step_back _ _ _ Hnd1 Hl1) as (e1 & He1 & Hstep). cbn [eid set_visited] in Hstep.
  rewrite Hstep, bind_ret. rewrite (proj1 Hw1) in He1.
  assert (back (length l0) (back (length l0) p k) 1 = back (length l0) p (S k)) as Hback.
  { unfold back. destruct (k <=? p)%nat eqn:E1, (S k <=? p)%nat eqn:E2; reflect_bools;
      destruct (1 <=? _)%nat eqn:E3; reflect_bools; lia. }
  rewrite Hback in He1. destruct (lookup_lt_is_Some_2 l0 (back (length l0) p (S k))) as [e2 He2]; [apply back_lt; lia|].
  pose proof (proj2 Hw1 _ _ He2) as He12. rewrite He1 in He12.
  assert (eid e1 = eid e2) as Heid by (injection He12 as ->; by destruct (cleared _ _ _ _)). rewrite Heid.
  apply (IH (S k)); [lia|lia|done| |done].
  intros j ej Hj Hjl. destruct (decide (j = k)) as [->|]; [congruence|]. apply (Hvis j); [lia|done].
Qed.

(** ** The operations keep the invariant

    [holds c k v]: the cache holds the value [v] for [k]. *)

Definition holds (c : cache) (k : K) (v : V) : Prop := exists e, e ∈ entries c /\ key e = k /\ val e = v.

Lemma elem_fmap_eq {B} (f : entry -> B) (l l' : list entry) e :
  f <$> l = f <$> l' -> e ∈ l -> exists e', e' ∈ l' /\ f e' = f e.
Proof.
  intros Hu He. assert (f e ∈ f <$> l') as Hin by (rewrite <- Hu; by apply list_elem_of_fmap_2).
  apply list_elem_of_fmap in Hin as (e' & Hf & He'). eauto.
Qed.

(** The invariant speaks of the identities and the keys only. *)
Definition tag (e : entry) : nat * K := (eid e, key e).

Lemma unmarked_tags (l l' : list entry) : unmarked <$> l = unmarked <$> l' -> tag <$> l = tag <$> l'.
Proof. intros Hu. apply (f_equal (fmap fst)) in Hu. by rewrite <- !list_fmap_compose in Hu. Qed.

Definition with_entries (c : cache) (l : list entry) : cache :=
  {| capacity := capacity c; lookup_table := lookup_table c; entries := l; hand := hand c; next_id := next_id c |}.

Lemma cache_ok_tags c l : cache_ok c -> tag <$> l = tag <$> entries c -> cache_ok (with_entries c l).
Proof.
  intros [Hi Hf Hl Hk Hs Hh] Hu.
  assert (ids l = ids (entries c)) as Hids.
  { apply (f_equal (fmap fst)) in Hu. by rewrite <- !list_fmap_compose in Hu. }
  assert (key <$> l = key <$> entries c) as Hkeys.
  { apply (f_equal (fmap snd)) in Hu. by rewrite <- !list_fmap_compose in Hu. }
  constructor; unfold with_entries; cbn [entries capacity lookup_table hand next_id].
  - by rewrite Hids.
  - apply Forall_forall. intros e He. destruct (elem_fmap_eq _ _ _ _ Hu He) as (e' & He' & [= Heq _]).
    rewrite <- Heq. rewrite Forall_forall in Hf. by apply Hf.
  - intros k id. rewrite Hl. split; intros (e & He & Hke & Hie).
    + destruct (elem_fmap_eq _ _ _ _ (eq_sym Hu) He) as (e' & He' & [= ? ?]). exists e'. split; [done|]. split; congruence.
    + destruct (elem_fmap_eq _ _ _ _ Hu He) as (e' & He' & [= ? ?]). exists e'. split; [done|]. split; congruence.
  - by rewrite Hkeys.
  - apply (f_equal length) in Hu. rewrite !length_fmap in Hu. lia.
  - intros id Hid. rewrite Hids. auto.
Qed.

Lemma cache_ok_marks c l : cache_ok c -> unmarked <$> l = unmarked <$> entries c -> cache_ok (with_entries c l).
Proof. intros Hok Hu. by apply cache_ok_tags, unmarked_tags. Qed.

Lemma holds_marks c l k v :
  unmarked <$> l = unmarked <$> entries c ->
  (holds (with_entries c l) k v <-> holds c k v).
Proof.
  intros Hu. unfold holds, with_entries. cbn [entries]. split; intros (e & He & Hk & Hv).
  - destruct (elem_fmap_eq _ _ _ _ Hu He) as (e' & He' & [= ? ? ?]). exists e'. split; [done|]. split; congruence.
  - destruct (elem_fmap_eq _ _ _ _ (eq_sym Hu) He) as (e' & He' & [= ? ? ?]). exists e'. split; [done|]. split; congruence.
Qed.

(** Taking the entry at position [i] out of the list and of the table. *)
Definition without (c : cache) (i : nat) (e : entry) (h : option nat) : cache :=
  {| capacity := capacity c; lookup_table := delete (key e) (lookup_table c); entries := delete i (entries c); hand := h;
     next_id := next_id c |}.

Lemma elem_delete (l : list entry) i e x :
  NoDup (ids l) -> l !! i = Some e -> (x ∈ delete i l <-> x ∈ l /\ x <> e).
Proof.
  intros Hnd Hi. rewrite delete_take_drop. rewrite <- (take_drop_middle l i e Hi) at 3.
  rewrite <- (take_drop_middle l i e Hi) in Hnd. unfold ids in Hnd. rewrite fmap_app, fmap_cons in Hnd.
  apply NoDup_app in Hnd as (_ & H1 & H2). apply NoDup_cons in H2 as [H2 _].
  rewrite !elem_of_app, elem_of_cons. split.
  - intros [Hx|Hx]; (split; [tauto|]); intros ->.
    + apply (H1 (eid e)); [by apply list_elem_of_fmap_2|by left].
    + apply H2. by apply list_elem_of_fmap_2.
  - intros [[Hx|[Hx|Hx]] Hne]; [by left|done|by right].
Qed.

Lemma fmap_delete_NoDup {B} (f : entry -> B) (l : list entry) i : NoDup (f <$> l) -> NoDup (f <$> delete i l).
Proof.
  intros Hnd. rewrite list_fmap_delete. eapply sublist_NoDup; [exact Hnd|apply sublist_delete].
Qed.

Lemma same_key_same_entry c e e' : cache_ok c -> e ∈ entries c -> e' ∈ entries c -> key e = key e' -> e = e'.
Proof.
  intros Hok He He' Hk. apply list_elem_of_lookup in He as [i Hi]. apply list_elem_of_lookup in He' as [j Hj].
  assert (i = j) as ->; [|congruence]. eapply (NoDup_lookup _ _ _ _ (ok_keys c Hok)); rewrite list_lookup_fmap;
    [rewrite Hi|rewrite Hj]; cbn; [done|by rewrite Hk].
Qed.

Lemma without_ok c i e h :
  cache_ok c -> entries c !! i = Some e -> (forall id, h = Some id -> id <> eid e /\ id ∈ ids (entries c)) ->
  cache_ok (without c i e h).
Proof.
  intros Hok Hi Hh. pose proof Hok as [Hid Hf Hl Hk Hs _].
  assert (e ∈ entries c) as He by (by eapply list_elem_of_lookup_2).
  assert (forall x, x ∈ delete i (entries c) <-> x ∈ entries c /\ x <> e) as Hdel by (intros; by apply elem_delete).
  constructor; unfold without; cbn [entries capacity lookup_table hand next_id].
  - by apply fmap_delete_NoDup.
  - apply Forall_forall. intros x Hx. apply Hdel in Hx as [Hx _]. rewrite Forall_forall in Hf. by apply Hf.
  - intros k id. rewrite lookup_delete_Some, Hl. split.
    + intros [Hne (x & Hx & Hkx & Hix)]. exists x. split; [|done]. apply Hdel. split; [done|]. by intros ->.
    + intros (x & Hx & Hkx & Hix). apply Hdel in Hx as [Hx Hne]. split; [|eauto].
      intros Heq. apply Hne. apply (same_key_same_entry c); auto; congruence.
  - by apply fmap_delete_NoDup.
  - rewrite length_delete by (by eexists). lia.
  - intros id Hid'. destruct (Hh id Hid') as [Hne Hin]. apply elem_of_ids in Hin as (j & x & Hj & <-).
    apply list_elem_of_fmap. exists x. split; [done|]. apply Hdel. split; [by eapply list_elem_of_lookup_2|]. by intros ->.
Qed.

Lemma without_holds c i e h k v :
  cache_ok c -> entries c !! i = Some e -> (holds (without c i e h) k v <-> k <> key e /\ holds c k v).
Proof.
  intros Hok Hi. assert (e ∈ entries c) as He by (by eapply list_elem_of_lookup_2).
  assert (forall x, x ∈ delete i (entries c) <-> x ∈ entries c /\ x <> e) as Hdel.
  { intros. apply elem_delete; [apply Hok|done]. }
  unfold holds, without. cbn [entries]. split.
  - intros (x & Hx & Hkx & Hvx). apply Hdel in Hx as [Hx Hne]. split; [|eauto].
    intros ->. apply Hne. by apply (same_key_same_entry c).
  - intros [Hne (x & Hx & Hkx & Hvx)]. exists x. split; [|done]. apply Hdel. split; [done|]. by intros ->.
Qed.

(** The iterator before a node is another node, or the end. *)
Definition before (l : list entry) (i : nat) : option nat := match i with O => None | S j => eid <$> l !! j end.

Lemma prev_other l i e :
  NoDup (ids l) -> l !! i = Some e ->
  prev l (Some (eid e)) = Ret (before l i) /\ forall id, before l i = Some id -> id <> eid e /\ id ∈ ids l.
Proof.
  intros Hnd Hi. unfold prev. rewrite (position_lookup _ _ _ Hnd Hi). destruct i as [|i]; [by rewrite circular|]. cbn [before].
  pose proof (lookup_lt_Some _ _ _ Hi). destruct (lookup_lt_is_Some_2 l i) as [x Hx]; [lia|].
  rewrite Hx. split; [done|]. intros id [= <-]. split; [|apply elem_of_ids; eauto].
  intros Heq. assert (i = S i); [|lia]. apply (NoDup_lookup (ids l) _ _ (eid x) Hnd);
    unfold ids; rewrite list_lookup_fmap; [by rewrite Hx|rewrite Hi; cbn; by rewrite Heq].
Qed.

(** The order in which the marks are looked at, from the hand. *)
Definition start_of (c : cache) : nat :=
  match hand c with
  | Some id => default 0%nat (position (entries c) id)
  | None => length (entries c) - 1
  end.

(** The SIEVE victim: the first entry without a mark, [k] steps from the hand
    towards the front and round, or the one at the hand if all are marked. *)
Definition victim (c : cache) (k i : nat) : Prop :=
  let n := length (entries c) in
  (k <= n)%nat /\ i = back n (start_of c) k
    /\ (forall j e, (j < k)%nat -> entries c !! back n (start_of c) j = Some e -> visited e = true)
    /\ (k = n \/ exists e, entries c !! i = Some e /\ visited e = false).

Lemma evict_spec c :
  cache_ok c -> entries c <> [] ->
  exists c' k i e l, evict c = Ret c' /\ cache_ok c' /\ entries c !! i = Some e /\ victim c k i
    /\ walked (entries c) (start_of c) k l /\ entries c' = delete i l /\ hand c' = before (entries c) i
    /\ (forall k v, holds c' k v <-> k <> key e /\ holds c k v)
    /\ length (entries c') = (length (entries c) - 1)%nat /\ capacity c' = capacity c /\ next_id c' = next_id c
    /\ lookup_table c' = delete (key e) (lookup_table c).
Proof.
  intros Hok Hne. pose proof Hok as [Hid _ _ _ _ Hh]. set (n := length (entries c)).
  assert (0 < n)%nat as Hn by (subst n; destruct (entries c); [done|simpl; lia]).
  assert (exists e0, entries c !! start_of c = Some e0 /\ (start_of c < n)%nat
    /\ (match hand c with None => prev (entries c) None | Some id => Ret (Some id) end) = Ret (Some (eid e0)))
    as (e0 & He0 & Hp & Hstart).
  { unfold start_of. destruct (hand c) as [id|].
    - destruct (proj1 (elem_of_ids _ _) (Hh id eq_refl)) as (i & e & Hi & <-).
      rewrite (position_lookup _ _ _ Hid Hi). simpl. exists e. split_and!; try done. by eapply lookup_lt_Some.
    - destruct (lookup_lt_is_Some_2 (entries c) (n - 1)) as [e He]; [subst n; lia|]. exists e.
      split_and!; [done|lia|]. unfold prev. rewrite last_lookup. fold n.
      replace (pred n) with (n - 1)%nat by lia. by rewrite He. }
  unfold evict. fold n. rewrite Hstart, bind_ret.
  destruct (evict_loop_spec (S n) (entries c) (start_of c) 0 (entries c) e0) as (k & e & l & Hloop & Hk & Hw & He & Hvis & Hend);
    [done|done|lia|fold n; lia| |lia|unfold back; simpl; by rewrite Nat.sub_0_r|].
  { split; [done|]. intros i e Hi. replace (cleared _ _ _ _) with false; [done|]. symmetry. unfold cleared.
    pose proof (lookup_lt_Some _ _ _ Hi). fold n in Hp |- *. apply orb_false_iff. rewrite andb_false_iff, Nat.leb_gt, !Nat.ltb_ge. lia. }
  fold n in Hk, He, Hvis, Hend. rewrite Hloop, bind_ret.
  pose proof (walked_unmarked _ _ _ _ Hw) as Hu. set (i := back n (start_of c) k) in *.
  assert (NoDup (ids l)) as Hndl by (by rewrite (unmarked_ids _ _ Hu)).
  destruct (unmarked_lookup _ _ _ _ (eq_sym Hu) He) as (e1 & He1 & [= Heid Hekey _]).
  rewrite <- Heid. destruct (prev_other _ _ _ Hndl He1) as (Hprev & Hit). rewrite Hprev, bind_ret.
  rewrite (deref_at _ _ _ Hndl He1), bind_ret, (list_erase_at _ _ _ Hndl He1), bind_ret.
  pose proof (cache_ok_marks c l Hok Hu) as Hok1. set (c1 := with_entries c l) in Hok1.
  exists (without c1 i e1 (before l i)), k, i, e, l. split; [done|]. split_and!; try done.
  - by apply without_ok.
  - split_and!; try done. destruct Hend as [->|Hv]; [by left|right; eauto].
  - unfold without. cbn. destruct i as [|j]; [done|]. cbn. pose proof (f_equal (.!! j) (unmarked_ids _ _ Hu)) as Hj.
    unfold ids in Hj. by rewrite !list_lookup_fmap in Hj.
  - intros k' v. rewrite (without_holds c1) by done. rewrite Hekey. unfold c1. by rewrite holds_marks.
  - unfold without. cbn [entries]. rewrite length_delete by (by eexists). cbn.
    by rewrite <- (length_fmap unmarked l), Hu, length_fmap.
  - unfold without. cbn. by rewrite Hekey.
Qed.

Lemma lookup_holds c k : cache_ok c -> is_Some (lookup_table c !! k) <-> exists v, holds c k v.
Proof.
  intros Hok. split.
  - intros [id Hid]. apply (ok_lookup c Hok) in Hid as (e & He & Hk & _). exists (val e), e. done.
  - intros (v & e & He & Hk & Hv). exists (eid e). apply (ok_lookup c Hok). eauto.
Qed.

Lemma lookup_entry c k id :
  cache_ok c -> lookup_table c !! k = Some id ->
  exists i e, entries c !! i = Some e /\ key e = k /\ eid e = id.
Proof.
  intros Hok Hid. apply (ok_lookup c Hok) in Hid as (e & He & Hk & Hi).
  apply list_elem_of_lookup in He as [i He]. eauto.
Qed.

Lemma holds_fun c k v v' : cache_ok c -> holds c k v -> holds c k v' -> v = v'.
Proof.
  intros Hok (e & He & Hk & <-) (e' & He' & Hk' & <-). f_equal. apply (same_key_same_entry c); auto; congruence.
Qed.

Lemma get_spec c k :
  cache_ok c -> exists o c', get c k = Ret (o, c') /\ cache_ok c' /\ (forall v, o = Some v <-> holds c k v)
    /\ (forall k' v, holds c' k' v <-> holds c k' v) /\ capacity c' = capacity c.
Proof.
  intros Hok. unfold get. destruct (lookup_table c !! k) as [id|] eqn:E.
  - destruct (lookup_entry c k id Hok E) as (i & e & Hi & Hk & <-).
    rewrite (update_at _ _ _ _ (ok_ids c Hok) Hi), bind_ret.
    pose proof (unmarked_alter (entries c) i true) as Hu. set (l := alter _ _ _) in *.
    assert (l !! i = Some (set_visited true e)) as Hl by (subst l; by rewrite list_lookup_alter_eq, Hi).
    assert (NoDup (ids l)) as Hnd by (rewrite (unmarked_ids _ _ Hu); apply Hok).
    change (eid e) with (eid (set_visited true e)). rewrite (deref_at _ _ _ Hnd Hl), bind_ret.
    do 2 eexists. split; [done|]. split_and!; [by apply cache_ok_marks| |intros; by apply holds_marks|done].
    assert (holds c k (val e)) as Hh by (exists e; split; [by eapply list_elem_of_lookup_2|done]).
    intros v. cbn. split; [intros [= <-]; done|]. intros Hv. f_equal. by apply (holds_fun c k).
  - exists None, c. split_and!; try done. intros v. split; [done|]. intros Hv.
    assert (is_Some (lookup_table c !! k)) as [? Hs] by (apply lookup_holds; eauto). congruence.
Qed.

Lemma erase_spec c k :
  cache_ok c -> exists b c', erase c k = Ret (b, c') /\ cache_ok c' /\ (b = true <-> exists v, holds c k v)
    /\ (forall k' v, holds c' k' v <-> k' <> k /\ holds c k' v) /\ capacity c' = capacity c.
Proof.
  intros Hok. unfold erase. destruct (lookup_table c !! k) as [id|] eqn:E.
  - destruct (lookup_entry c k id Hok E) as (i & e & Hi & <- & <-). pose proof (ok_ids c Hok) as Hnd.
    assert (exists h, (if decide (Some (eid e) = hand c) then prev (entries c) (hand c) else Ret (hand c)) = Ret h
      /\ forall id, h = Some id -> id <> eid e /\ id ∈ ids (entries c)) as (h & -> & Hh).
    { case_decide as Hd.
      - rewrite <- Hd. destruct (prev_other _ i e Hnd Hi) as [-> Hb]. by eexists.
      - eexists; split; [done|]. intros id Hid. split; [congruence|]. by apply (ok_hand c Hok). }
    rewrite bind_ret, (list_erase_at _ _ _ Hnd Hi), bind_ret. exists true, (without c i e h).
    split_and!; [done|by apply without_ok| |intros; by apply without_holds|done].
    split; [intros _|done]. exists (val e), e. split; [by eapply list_elem_of_lookup_2|done].
  - exists false, c. split_and!; try done.
    + split; [done|]. intros Hv. apply lookup_holds in Hv as [? Hs]; [congruence|done].
    + intros k' v. split; [|tauto]. intros Hv. split; [|done]. intros ->.
      assert (is_Some (lookup_table c !! k)) as [? Hs] by (apply lookup_holds; eauto). congruence.
Qed.

Lemma tag_alter f i (l : list entry) : (forall e, tag (f e) = tag e) -> tag <$> alter f i l = tag <$> l.
Proof. intros Hf. revert i. induction l as [|e l IH]; intros [|i]; cbn; try done; [by rewrite Hf|by rewrite <- (IH i)]. Qed.

(** Replacing the value (and the mark) of the entry at position [i]. *)
Lemma set_existing c k v i e :
  cache_ok c -> entries c !! i = Some e -> key e = k ->
  let c' := with_entries c (alter (set_visited true) i (alter (set_val v) i (entries c))) in
  cache_ok c' /\ holds c' k v /\ forall k' v', k' <> k -> (holds c' k' v' <-> holds c k' v').
Proof.
  intros Hok Hi Hk c'. subst c'. set (l := alter _ _ _).
  assert (l = <[i := set_visited true (set_val v e)]> (entries c)) as Hl.
  { apply list_eq. intros j. subst l. destruct (decide (i = j)) as [<-|Hne].
    - rewrite !list_lookup_alter_eq, Hi, list_lookup_insert_eq; [done|by eapply lookup_lt_Some].
    - by rewrite !list_lookup_alter_ne, list_lookup_insert_ne by done. }
  assert (l !! i = Some (set_visited true (set_val v e))) as Hli
    by (rewrite Hl, list_lookup_insert_eq; [done|by eapply lookup_lt_Some]).
  split_and!.
  - apply cache_ok_tags; [done|]. subst l. by rewrite !tag_alter.
  - exists (set_visited true (set_val v e)). split; [by eapply list_elem_of_lookup_2|done].
  - intros k' v' Hne. unfold holds, with_entries. cbn [entries]. split; intros (x & Hx & Hkx & Hvx).
    + rewrite Hl in Hx. apply list_elem_of_lookup in Hx as [j Hj]. destruct (decide (i = j)) as [<-|Hij].
      * rewrite <- Hl, Hli in Hj. injection Hj as <-. simpl in Hkx. congruence.
      * rewrite list_lookup_insert_ne in Hj by done. exists x. split; [by eapply list_elem_of_lookup_2|done].
    + apply list_elem_of_lookup in Hx as [j Hj]. destruct (decide (i = j)) as [<-|Hij]; [congruence|].
      exists x. split; [|done]. rewrite Hl. eapply (list_elem_of_lookup_2 _ j). by rewrite list_lookup_insert_ne.
Qed.

(** A new entry at the front. *)
Lemma push_front_ok c k v :
  cache_ok c -> lookup_table c !! k = None -> (length (entries c) < capacity c)%nat ->
  let ent := {| eid := next_id c; key := k; val := v; visited := false |} in
  let c' := {| capacity := capacity c; lookup_table := <[k := next_id c]> (lookup_table c);
               entries := ent :: entries c; hand := hand c; next_id := S (next_id c) |} in
  cache_ok c' /\ holds c' k v /\ forall k' v', k' <> k -> (holds c' k' v' <-> holds c k' v').
Proof.
  intros Hok Hnone Hlt ent c'. pose proof Hok as [Hid Hf Hl Hk Hs Hh].
  assert (forall e, e ∈ entries c -> (eid e < next_id c)%nat) as Hfresh by (rewrite Forall_forall in Hf; done).
  split_and!.
  - constructor; subst c'; cbn [entries capacity lookup_table hand next_id].
    + cbn. apply NoDup_cons. split; [|done]. intros Hin. apply list_elem_of_fmap in Hin as (e & Heq & He).
      specialize (Hfresh e He). lia.
    + constructor; [simpl; lia|]. eapply Forall_impl; [exact Hf|]. simpl. lia.
    + intros k' id. destruct (decide (k = k')) as [<-|Hne].
      * rewrite lookup_insert_eq. split.
        -- intros [= <-]. exists ent. split; [by left|done].
        -- intros (e & He & Hke & Hie). apply elem_of_cons in He as [->|He]; [by rewrite <- Hie|].
           assert (lookup_table c !! k = Some id) as Hbad by (apply Hl; eauto). congruence.
      * rewrite lookup_insert_ne by done. rewrite Hl. split; intros (e & He & Hke & Hie).
        -- exists e. split; [by right|done].
        -- apply elem_of_cons in He as [->|He]; [done|]. eauto.
    + cbn. apply NoDup_cons. split; [|done]. intros Hin. apply list_elem_of_fmap in Hin as (e & Heq & He).
      assert (lookup_table c !! k = Some (eid e)) as Hbad by (apply Hl; eauto). congruence.
    + simpl. lia.
    + intros id Hid'. cbn. right. by apply Hh.
  - exists ent. split; [by left|done].
  - intros k' v' Hne. subst c'. unfold holds. cbn [entries]. split; intros (e & He & Hke & Hve).
    + apply elem_of_cons in He as [->|He]; [by simpl in Hke|]. eauto.
    + exists e. split; [by right|done].
Qed.

(** The contents after [set] of a key, [gone] being the key it takes out. *)
Definition replaced (c c' : cache) (k : K) (v : V) (gone : option K) : Prop :=
  forall k' v', holds c' k' v' <-> k' = k /\ v' = v \/ k' <> k /\ gone <> Some k' /\ holds c k' v'.

Lemma replaced_intro c0 c c' k v gone :
  cache_ok c' -> holds c' k v -> (forall k' v', k' <> k -> (holds c' k' v' <-> holds c0 k' v')) ->
  (forall k' v', k' <> k -> (holds c0 k' v' <-> gone <> Some k' /\ holds c k' v')) -> replaced c c' k v gone.
Proof.
  intros Hok Hkv Hc' Hc k' v'. destruct (decide (k' = k)) as [->|Hne].
  - split; [|naive_solver]. intros Hv. left. split; [done|]. by apply (holds_fun c' k).
  - rewrite Hc', Hc by done. naive_solver.
Qed.

Lemma set_present c k v :
  cache_ok c -> (exists v', holds c k v') ->
  exists c', set c k v = Ret c' /\ cache_ok c' /\ capacity c' = capacity c /\ size c' = size c /\ replaced c c' k v None.
Proof.
  intros Hok Hin. unfold set. destruct (proj2 (lookup_holds c k Hok) Hin) as [id E]. rewrite E.
  destruct (lookup_entry c k id Hok E) as (i & e & Hi & Hk & <-).
  rewrite (update_at _ _ _ _ (ok_ids c Hok) Hi), bind_ret.
  assert (alter (set_val v) i (entries c) !! i = Some (set_val v e)) as Hi1 by (by rewrite list_lookup_alter_eq, Hi).
  assert (NoDup (ids (alter (set_val v) i (entries c)))) as Hnd.
  { pose proof (tag_alter (set_val v) i (entries c) ltac:(done)) as Ht.
    apply (f_equal (fmap fst)) in Ht. rewrite <- !list_fmap_compose in Ht.
    change (ids (alter (set_val v) i (entries c)) = ids (entries c)) in Ht. rewrite Ht. apply Hok. }
  change (eid e) with (eid (set_val v e)). rewrite (update_at _ _ _ _ Hnd Hi1), bind_ret.
  destruct (set_existing c k v i e Hok Hi Hk) as (H1 & H2 & H3). eexists. split; [done|]. split_and!; try done.
  - unfold size. cbn [entries]. by rewrite !length_alter.
  - apply (replaced_intro c); [done..|]. naive_solver.
Qed.

Lemma set_room c k v :
  cache_ok c -> ~ (exists v', holds c k v') -> (size c < capacity c)%nat ->
  exists c', set c k v = Ret c' /\ cache_ok c' /\ capacity c' = capacity c /\ size c' = S (size c) /\ replaced c c' k v None.
Proof.
  intros Hok Hout Hlt. unfold set. assert (lookup_table c !! k = None) as E.
  { apply eq_None_not_Some. by rewrite lookup_holds. }
  unfold size in Hlt. rewrite E, (proj2 (Nat.leb_gt _ _)), bind_ret by done. destruct (push_front_ok c k v Hok E Hlt) as (H1 & H2 & H3).
  eexists. split; [done|]. split_and!; try done. apply (replaced_intro c); [done..|]. naive_solver.
Qed.

Lemma set_full c k v :
  cache_ok c -> ~ (exists v', holds c k v') -> size c = capacity c -> (0 < capacity c)%nat ->
  exists c' j i e l, set c k v = Ret c' /\ cache_ok c' /\ capacity c' = capacity c /\ size c' = size c
    /\ entries c !! i = Some e /\ victim c j i /\ replaced c c' k v (Some (key e))
    /\ walked (entries c) (start_of c) j l /\ hand c' = before (entries c) i
    /\ entries c' = {| eid := next_id c; key := k; val := v; visited := false |} :: delete i l.
Proof.
  intros Hok Hout Hfull Hcap. unfold set. assert (lookup_table c !! k = None) as E.
  { apply eq_None_not_Some. by rewrite lookup_holds. }
  unfold size in Hfull. rewrite E, (proj2 (Nat.leb_le _ _)) by lia.
  destruct (evict_spec c Hok) as (c1 & j & i & e & l & -> & Hok1 & Hi & Hvic & Hw & Hl & Hh & Hh1 & Hlen & Hcap1 & Hnext & Htab).
  { intros Hnil. rewrite Hnil in Hfull. simpl in Hfull. lia. }
  rewrite bind_ret. destruct (push_front_ok c1 k v Hok1) as (H1 & H2 & H3).
  { rewrite Htab. apply lookup_delete_None. by right. }
  { rewrite Hlen, Hcap1. lia. }
  eexists _, j, i, e, l. split; [done|]. split_and!; try done.
  - unfold size. cbn. rewrite Hlen. lia.
  - apply (replaced_intro c1); [done..|]. intros k' v' _. rewrite Hh1. naive_solver.
  - cbn. by rewrite Hnext, Hl.
Qed.

(** ** Runs *)

Inductive operation := Set_ (k : K) (v : V) | Get (k : K) | Erase (k : K) | Contains (k : K) | Size.
Inductive answer := Done | Got (o : option V) | Told (b : bool) | Sized (n : nat).

Definition perform (c : cache) (op : operation) : outcome (answer * cache) :=
  match op with
  | Set_ k v => let* c := set c k v in Ret (Done, c)
  | Get k => let* (o, c) := get c k in Ret (Got o, c)
  | Erase k => let* (b, c) := erase c k in Ret (Told b, c)
  | Contains k => Ret (Told (contains c k), c)
  | Size => Ret (Sized (size c), c)
  end.

Fixpoint run (c : cache) (ops : list operation) : outcome (list answer * cache) :=
  match ops with
  | [] => Ret ([], c)
  | op :: ops =>
      let* (a, c) := perform c op in
      let* (answers, c) := run c ops in
      Ret (a :: answers, c)
  end.

(** *** A bounded map

    The specification: a map of at most [n] entries, which forgets one entry
    when a new key is set and there is no room, and otherwise nothing. *)
Inductive bounded_step (n : nat) : gmap K V -> operation -> answer -> gmap K V -> Prop :=
| b_get m k : bounded_step n m (Get k) (Got (m !! k)) m
| b_contains m k : bounded_step n m (Contains k) (Told (bool_decide (is_Some (m !! k)))) m
| b_size m : bounded_step n m Size (Sized (base.size m)) m
| b_erase m k : bounded_step n m (Erase k) (Told (bool_decide (is_Some (m !! k)))) (delete k m)
| b_set m k v : is_Some (m !! k) \/ (base.size m < n)%nat -> bounded_step n m (Set_ k v) Done (<[k := v]> m)
| b_evict m k v gone : m !! k = None -> base.size m = n -> is_Some (m !! gone) ->
    bounded_step n m (Set_ k v) Done (<[k := v]> (delete gone m)).

Inductive bounded_run (n : nat) : gmap K V -> list operation -> list answer -> gmap K V -> Prop :=
| b_nil m : bounded_run n m [] [] m
| b_cons m op a m1 ops answers m2 :
    bounded_step n m op a m1 -> bounded_run n m1 ops answers m2 -> bounded_run n m (op :: ops) (a :: answers) m2.

(** The map a cache stands for. *)
Definition contents (c : cache) : gmap K V := list_to_map ((fun e => (key e, val e)) <$> entries c).

Lemma contents_holds c k v : cache_ok c -> contents c !! k = Some v <-> holds c k v.
Proof.
  intros Hok. unfold contents. rewrite <- elem_of_list_to_map; [|rewrite <- list_fmap_compose; apply Hok].
  rewrite list_elem_of_fmap. unfold holds. naive_solver.
Qed.

Lemma contents_size c : cache_ok c -> base.size (contents c) = size c.
Proof.
  intros Hok. unfold contents, size. rewrite map_size_list_to_map, length_fmap; [done|]. rewrite <- list_fmap_compose. apply Hok.
Qed.

Lemma contents_eq c m : cache_ok c -> (forall k v, holds c k v <-> m !! k = Some v) -> contents c = m.
Proof. intros Hok Hm. apply map_eq. intros k. apply option_eq. intros v. by rewrite contents_holds. Qed.

Lemma contents_Some c k : cache_ok c -> is_Some (contents c !! k) <-> exists v, holds c k v.
Proof. intros Hok. unfold is_Some. by setoid_rewrite contents_holds. Qed.

Lemma contents_replaced c c' k v gone :
  cache_ok c -> cache_ok c' -> replaced c c' k v gone ->
  contents c' = <[k := v]> (match gone with Some k0 => delete k0 (contents c) | None => contents c end).
Proof.
  intros Hok Hok' Hr. apply contents_eq; [done|]. intros k' v'. specialize (Hr k' v'). rewrite Hr, lookup_insert_Some, <- (contents_holds c) by done.
  destruct gone as [k0|]; [rewrite lookup_delete_Some|]; naive_solver.
Qed.

Lemma set_step c k v :
  cache_ok c -> (0 < capacity c)%nat ->
  exists c', set c k v = Ret c' /\ cache_ok c' /\ capacity c' = capacity c
    /\ bounded_step (capacity c) (contents c) (Set_ k v) Done (contents c').
Proof.
  intros Hok Hcap. destruct (decide (is_Some (contents c !! k))) as [Hin|Hout].
  - destruct (set_present c k v Hok) as (c' & E & Hok' & Hc & _ & Hr); [by apply contents_Some|].
    exists c'. split_and!; try done. rewrite (contents_replaced c c' k v None) by done. constructor. by left.
  - pose proof (ok_size c Hok) as Hle. fold (size c) in Hle. assert (~ exists v', holds c k v') as Hno by (by rewrite <- contents_Some).
    destruct (decide (size c < capacity c)%nat) as [Hlt|Hge].
    + destruct (set_room c k v Hok Hno Hlt) as (c' & E & Hok' & Hc & _ & Hr).
      exists c'. split_and!; try done. rewrite (contents_replaced c c' k v None) by done. constructor. right. by rewrite contents_size.
    + destruct (set_full c k v Hok Hno ltac:(lia) Hcap) as (c' & j & i & e & l & E & Hok' & Hc & _ & Hi & _ & Hr & _).
      exists c'. split_and!; try done. rewrite (contents_replaced c c' k v (Some (key e))) by done.
      constructor; [by apply eq_None_not_Some|rewrite contents_size; [lia|done]|].
      apply contents_Some; [done|]. exists (val e), e. split; [by eapply list_elem_of_lookup_2|done].
Qed.

Lemma perform_step c op :
  cache_ok c -> (0 < capacity c)%nat ->
  exists a c', perform c op = Ret (a, c') /\ cache_ok c' /\ capacity c' = capacity c
    /\ bounded_step (capacity c) (contents c) op a (contents c').
Proof.
  intros Hok Hcap. destruct op as [k v|k|k|k|]; cbn [perform].
  - destruct (set_step c k v Hok Hcap) as (c' & -> & Hs). rewrite bind_ret. by exists Done, c'.
  - destruct (get_spec c k Hok) as (o & c' & -> & Hok' & Ho & Hh & Hc'). rewrite bind_ret. exists (Got o), c'. split_and!; try done.
    replace (contents c') with (contents c); [|symmetry; apply contents_eq; [done|]; intros; by rewrite Hh, contents_holds].
    replace o with (contents c !! k); [constructor|]. apply option_eq. intros v. by rewrite contents_holds, Ho.
  - destruct (erase_spec c k Hok) as (b & c' & -> & Hok' & Hb & Hh & Hc'). rewrite bind_ret. exists (Told b), c'. split_and!; try done.
    replace (contents c') with (delete k (contents c)); [|symmetry; apply contents_eq; [done|]; intros; rewrite Hh, lookup_delete_Some, contents_holds; naive_solver].
    replace b with (bool_decide (is_Some (contents c !! k))); [constructor|].
    apply eq_iff_eq_true. by rewrite bool_decide_eq_true, contents_Some, Hb.
  - eexists _, c. split_and!; try done. unfold contains.
    replace (bool_decide (is_Some (lookup_table c !! k))) with (bool_decide (is_Some (contents c !! k))); [constructor|].
    apply bool_decide_ext. by rewrite contents_Some, lookup_holds.
  - eexists _, c. split_and!; try done. rewrite <- contents_size by done. constructor.
Qed.

Lemma run_steps c ops :
  cache_ok c -> (0 < capacity c)%nat ->
  exists answers c', run c ops = Ret (answers, c') /\ cache_ok c' /\ capacity c' = capacity c
    /\ bounded_run (capacity c) (contents c) ops answers (contents c').
Proof.
  revert c. induction ops as [|op ops IH]; intros c Hok Hcap; cbn [run]; [exists [], c; split_and!; try done; constructor|].
  destruct (perform_step c op Hok Hcap) as (a & c1 & -> & Hok1 & Hc1 & Hs). rewrite bind_ret.
  destruct (IH c1 Hok1 ltac:(lia)) as (answers & c2 & -> & Hok2 & Hc2 & Hr). rewrite bind_ret. rewrite Hc1 in Hr.
  exists (a :: answers), c2. split_and!; [done|done|congruence|by econstructor].
Qed.

Lemma make_cache_ok n : cache_ok (make n).
Proof.
  constructor; cbn; try apply NoDup_nil_2; try done; [|lia].
  intros k id. rewrite lookup_empty. split; [done|]. intros (e & He & _). by apply elem_of_nil in He.
Qed.
End Cache.

Arguments entry : clear implicits.
Arguments cache K V {_ _}.
Arguments operation : clear implicits.

(** ** Properties *)

Section Properties.
Context {K V : Type} `{Countable K}.

(** C16: over circular lists a cache of any positive capacity, under any
    sequence of [set], [get], [erase], [contains] and [size], is always defined
    (the eviction loop ends) and answers as a bounded map: a key that is set is
    there until it is erased, or until a new key is set in a full cache, which
    takes out exactly one key. *)
Theorem cache_refines_map (prev_begin : outcome (option nat)) (n : nat) (ops : list (operation K V)) :
  prev_begin = Ret None -> (0 < n)%nat ->
  exists answers c, run prev_begin (make n) ops = Ret (answers, c)
    /\ (size c <= n)%nat /\ cache_ok c /\ bounded_run n ∅ ops answers (contents c).
Proof.
  intros Hcirc Hn. destruct (run_steps prev_begin Hcirc (make n) ops (make_cache_ok n) Hn) as (answers & c & Hr & Hok & Hc & Hall).
  exists answers, c. split_and!; try done. unfold size. pose proof (ok_size c Hok). simpl in Hc. lia.
Qed.

(** C17: what [set] does, over circular lists.  A key that is there gets the
    value and nothing else changes.  A new key is added while there is room.  In
    a full cache the SIEVE victim (the first entry without a mark, walking from
    the hand towards the front and round) makes room for it and every other key
    stays; the marks of the entries on the way are cleared, the hand stays in
    front of the victim, and the new entry is at the front without a mark. *)
Theorem cache_set_evicts_victim (prev_begin : outcome (option nat)) (c : cache K V) k v :
  prev_begin = Ret None -> cache_ok c -> (0 < capacity c)%nat ->
  exists c', set prev_begin c k v = Ret c' /\ cache_ok c' /\ capacity c' = capacity c
    /\ if contains c k then size c' = size c /\ replaced c c' k v None
       else if (size c <? capacity c)%nat then size c' = S (size c) /\ replaced c c' k v None
       else exists j i e l, entries c !! i = Some e /\ victim c j i /\ size c' = size c /\ replaced c c' k v (Some (key e))
         /\ walked (entries c) (start_of c) j l /\ hand c' = before (entries c) i
         /\ entries c' = {| eid := next_id c; key := k; val := v; visited := false |} :: delete i l.
Proof.
  intros Hcirc Hok Hcap. unfold contains. case_bool_decide as Hin; rewrite lookup_holds in Hin by done.
  { destruct (set_present prev_begin c k v Hok Hin) as (c' & H1 & H2 & H3 & H4 & H5). by exists c'. }
  destruct (size c <? capacity c)%nat eqn:E; reflect_bools.
  { destruct (set_room prev_begin c k v Hok Hin E) as (c' & H1 & H2 & H3 & H4 & H5). by exists c'. }
  pose proof (ok_size c Hok) as Hle. fold (size c) in Hle.
  destruct (set_full prev_begin Hcirc c k v Hok Hin ltac:(lia) Hcap) as (c' & j & i & e & l & H1 & H2 & H3 & H4 & H5 & H6 & H7 & H8 & H9 & H10).
  exists c'. split_and!; try done. by exists j, i, e, l.
Qed.
End Properties.

(** The lists of the standard libraries *)
Definition end_before_begin : outcome (option nat) := Ret None.

Lemma cache_refines_map_witness :
  exists answers c,
    run end_before_begin (make 2) [Set_ 1%nat 10; Set_ 2%nat 20; Get 1%nat; Set_ 3%nat 30; Get 1%nat; Get 2%nat; Erase 3%nat; Size] = Ret (answers, c)
    /\ (size c <= 2)%nat /\ cache_ok c
    /\ bounded_run 2 ∅ [Set_ 1%nat 10; Set_ 2%nat 20; Get 1%nat; Set_ 3%nat 30; Get 1%nat; Get 2%nat; Erase 3%nat; Size] answers (contents c).
Proof.
  apply (cache_refines_map end_before_begin 2
    [Set_ 1%nat 10; Set_ 2%nat 20; Get 1%nat; Set_ 3%nat 30; Get 1%nat; Get 2%nat; Erase 3%nat; Size]).
  - reflexivity.
  - lia.
Defined.

(** A full cache whose oldest entry has been used. *)
Definition used_cache : cache nat Z :=
  match run end_before_begin (make 3) [Set_ 1%nat 10; Set_ 2%nat 20; Set_ 3%nat 30; Get 1%nat] with
  | Ret (_, c) => c
  | _ => make 1
  end.

Lemma used_cache_ok : cache_ok used_cache.
Proof.
  unfold used_cache.
  destruct (run_steps end_before_begin eq_refl (make 3) [Set_ 1%nat 10; Set_ 2%nat 20; Set_ 3%nat 30; Get 1%nat] (make_cache_ok 3))
    as (answers & c & -> & Hok & _); [cbn; lia|exact Hok].
Qed.

Lemma cache_set_evicts_victim_witness :
  exists c' j i e l, set end_before_begin used_cache 4%nat 40 = Ret c' /\ entries used_cache !! i = Some e /\ victim used_cache j i
    /\ replaced used_cache c' 4%nat 40 (Some (key e)) /\ walked (entries used_cache) (start_of used_cache) j l
    /\ hand c' = before (entries used_cache) i.
Proof.
  assert ((0 < capacity used_cache)%nat) as Hc by (vm_compute; lia).
  destruct (cache_set_evicts_victim end_before_begin used_cache 4%nat 40 eq_refl used_cache_ok Hc) as (c' & H1 & _ & _ & H2).
  change (contains used_cache 4%nat) with false in H2. change (size used_cache <? capacity used_cache)%nat with false in H2.
  cbv iota in H2. destruct H2 as (j & i & e & l & Hi & Hv & _ & Hr & Hw & Hh & _). exists c', j, i, e, l. split_and!; assumption.
Defined.

(** The victim of that cache is not its oldest entry, 1, but the next one. *)
Example used_cache_keeps :
  (let* c := set end_before_begin used_cache 4%nat 40 in Ret (key <$> entries c, contains c 1%nat, contains c 2%nat)) = Ret ([4; 3; 1]%nat, true, false).
Proof. vm_compute. reflexivity. Qed.

(** Where the cache is not safe: when [std::prev(begin())] is undefined, as the
    standard has it, taking out the front entry is (here the second key of a
    cache for one, and erasing the entry at the hand); a capacity of zero makes the first [set]
    undefined; [purge] keeps the hand, so that the next eviction goes through
    an iterator to a destroyed entry; and [get_or_set] of an absent key locks
    the mutex twice. *)
Lemma cache_unsafe_uses :
  run Undef (make 1 : cache nat Z) [Set_ 1%nat 10; Set_ 2%nat 20] = Undef
  /\ run Undef (make 3 : cache nat Z) [Set_ 1%nat 10; Set_ 2%nat 20; Set_ 3%nat 30; Set_ 4%nat 40; Erase 4%nat; Erase 3%nat; Erase 2%nat] = Undef
  /\ set end_before_begin (make 0 : cache nat Z) 1%nat 10 = Undef
  /\ (let* (_, c) := run end_before_begin (make 2 : cache nat Z) [Set_ 1%nat 10; Set_ 2%nat 20; Set_ 3%nat 30; Erase 1%nat] in
      run end_before_begin (purge c) [Set_ 4%nat 40; Set_ 5%nat 50; Set_ 6%nat 60]) = Undef
  /\ get_or_set (make 2 : cache nat Z) 1%nat (fun _ => 10) = Undef.
Proof. vm_compute. split_and!; reflexivity. Qed.
