(* ===== verification/ResourcePool.v ===== *)
(** * The resource pool (include/util/resource_pool.hpp, src/util/buffer_pool.cpp)

    Threads borrow resources and give them back.  Every member function holds
    the pool's mutex except while it waits on the condition variable, so the
    pool is a transition system whose steps are the critical sections: the
    start of [get] (which takes a resource, makes one, or begins to wait), the
    return from [wait] of a waiting [get], [try_get] and [put].  A condition
    variable is the number of threads that wait on it and the number that have
    been woken and not run yet; a wake-up may be spurious.

    Resources are numbered in the order [make] makes them.  [make] may throw:
    the exception leaves [get], which has counted the resource already.  The
    owner of a resource may be assigned over, which destroys the resource.
    Either way the count of the borrowed resources is one too high from there
    on; the model counts these, as [lost]. *)

From Stdlib Require Import ZArith Lia.
From stdpp Require Import prelude list.
From S2P Require Import Prelude.

(** ** Definitions *)

Record resource_pool := {
  target_size : nat;
  max_size : nat;
  pool : list nat;
  num_waiting : Z;
  num_borrowed : Z;
  made : nat;          (* how often [make] has been called *)
  asleep : nat;        (* threads in [wait], not woken *)
  woken : nat;         (* threads woken, that have not taken the lock yet *)
  borrowed : list nat; (* resources owned by a [borrowed_resource] *)
  lost : nat;          (* counted in [num_borrowed] and owned by nobody *)
}.

Definition make_pool (target max : nat) : resource_pool :=
  {| target_size := target; max_size := max; pool := []; num_waiting := 0; num_borrowed := 0; made := 0;
     asleep := 0; woken := 0; borrowed := []; lost := 0 |}.

(** [auto res = std::move(pool.back()); pool.pop_back();] after [++num_borrowed] *)
Definition take_back (p : resource_pool) : outcome (nat * resource_pool) :=
  match last (pool p) with
  | None => Undef
  | Some res =>
      Ret (res, {| target_size := target_size p; max_size := max_size p; pool := removelast (pool p);
                   num_waiting := num_waiting p; num_borrowed := u64 (num_borrowed p + 1); made := made p;
                   asleep := asleep p; woken := woken p; borrowed := res :: borrowed p; lost := lost p |})
  end.

Inductive get_result := Borrowed (res : nat) | Waits | Thrown (e : exn).

(** [get], up to its return, to [wait], or to the exception of [make], if it
    is called and throws one: [++num_borrowed] has run then. *)
Definition get (make_throws : option exn) (p : resource_pool) : outcome (get_result * resource_pool) :=
  match pool p with
  | [] =>
      if num_borrowed p <? Z.of_nat (max_size p) then
        match make_throws with
        | None =>
            Ret (Borrowed (made p),
                 {| target_size := target_size p; max_size := max_size p; pool := []; num_waiting := num_waiting p;
                    num_borrowed := u64 (num_borrowed p + 1); made := S (made p); asleep := asleep p; woken := woken p;
                    borrowed := made p :: borrowed p; lost := lost p |})
        | Some e =>
            Ret (Thrown e,
                 {| target_size := target_size p; max_size := max_size p; pool := []; num_waiting := num_waiting p;
                    num_borrowed := u64 (num_borrowed p + 1); made := made p; asleep := asleep p; woken := woken p;
                    borrowed := borrowed p; lost := S (lost p) |})
        end
      else
        Ret (Waits,
             {| target_size := target_size p; max_size := max_size p; pool := []; num_waiting := u64 (num_waiting p + 1);
                num_borrowed := num_borrowed p; made := made p; asleep := S (asleep p); woken := woken p;
                borrowed := borrowed p; lost := lost p |})
  | _ =>
      let* (res, p) := take_back p in Ret (Borrowed res, p)
  end.

(** A woken thread takes the lock and tests the predicate of [wait]; it goes
    back to sleep if the pool is empty. *)
Definition resume (p : resource_pool) : outcome (get_result * resource_pool) :=
  match pool p with
  | [] =>
      Ret (Waits,
           {| target_size := target_size p; max_size := max_size p; pool := []; num_waiting := num_waiting p;
              num_borrowed := num_borrowed p; made := made p; asleep := S (asleep p); woken := pred (woken p);
              borrowed := borrowed p; lost := lost p |})
  | _ =>
      let* (res, p) :=
        take_back {| target_size := target_size p; max_size := max_size p; pool := pool p;
                     num_waiting := u64 (num_waiting p - 1); num_borrowed := num_borrowed p; made := made p;
                     asleep := asleep p; woken := pred (woken p); borrowed := borrowed p; lost := lost p |} in
      Ret (Borrowed res, p)
  end.

Definition try_get (p : resource_pool) : outcome (option nat * resource_pool) :=
  match pool p with
  | [] => Ret (None, p)
  | _ => let* (res, p) := take_back p in Ret (Some res, p)
  end.

(** [notify_one] *)
Definition notify_one (p : resource_pool) : resource_pool :=
  match asleep p with
  | O => p
  | S n => {| target_size := target_size p; max_size := max_size p; pool := pool p; num_waiting := num_waiting p;
              num_borrowed := num_borrowed p; made := made p; asleep := n; woken := S (woken p);
              borrowed := borrowed p; lost := lost p |}
  end.

(** [put(res)], from the destructor of the [borrowed_resource] that owns [res]. *)
Definition put (p : resource_pool) (res : nat) : resource_pool :=
  let n := u64 (num_borrowed p - 1) in
  let out := remove Nat.eq_dec res (borrowed p) in
  if (target_size p <=? length (pool p))%nat && (num_waiting p =? 0) then
    {| target_size := target_size p; max_size := max_size p; pool := pool p; num_waiting := num_waiting p;
       num_borrowed := n; made := made p; asleep := asleep p; woken := woken p; borrowed := out; lost := lost p |}
  else
    notify_one
      {| target_size := target_size p; max_size := max_size p; pool := pool p ++ [res]; num_waiting := num_waiting p;
         num_borrowed := n; made := made p; asleep := asleep p; woken := woken p; borrowed := out; lost := lost p |}.

(** The defaulted move assignment of [borrowed_resource] over the owner of
    [res]: the resource is destroyed, and the pool is not told.  What the
    source owned is owned by the target from here on. *)
Definition move_assign_over (p : resource_pool) (res : nat) : resource_pool :=
  {| target_size := target_size p; max_size := max_size p; pool := pool p; num_waiting := num_waiting p;
     num_borrowed := num_borrowed p; made := made p; asleep := asleep p; woken := woken p;
     borrowed := remove Nat.eq_dec res (borrowed p); lost := S (lost p) |}.

(** The move constructor of [borrowed_resource] leaves null behind, and the
    destructor gives back what is left: [None] is null. *)
Definition borrowed_move (ptr : option nat) : option nat * option nat := (ptr, None).
Definition borrowed_destruct (p : resource_pool) (ptr : option nat) : resource_pool :=
  match ptr with Some res => put p res | None => p end.

(** [use]: the resource is given back when the function returns or throws; a
    thread that has to wait goes on with what [resume] gives it. *)
Definition use {A} (make_throws : option exn) (f : nat -> outcome A) (p : resource_pool) :
    outcome (option (outcome A) * resource_pool) :=
  let* (got, p) := get make_throws p in
  match got with
  | Waits => Ret (None, p)
  | Thrown e => Ret (Some (Throw e), p)
  | Borrowed res => Ret (Some (f res), borrowed_destruct p (Some res))
  end.

Definition available_resources (p : resource_pool) : nat := length (pool p).

(** A spurious wake-up. *)
Definition wake (p : resource_pool) : resource_pool := notify_one p.

(** [buffer_pool(buffer_size, num_buffers, max_buffers)]; the contents of a
    buffer are not modelled. *)
Definition buffer_pool (num_buffers max_buffers : nat) : resource_pool := make_pool num_buffers max_buffers.

(** ** The transition system *)

(** There are fewer than [2^64] threads. *)
Definition few_threads (p : resource_pool) : Prop := Z.of_nat (asleep p + woken p) + 1 < 2 ^ 64.

Inductive step : resource_pool -> resource_pool -> Prop :=
| step_get p make_throws r p' : few_threads p -> get make_throws p = Ret (r, p') -> step p p'
| step_resume p r p' : few_threads p -> (0 < woken p)%nat -> resume p = Ret (r, p') -> step p p'
| step_try_get p r p' : try_get p = Ret (r, p') -> step p p'
| step_put p res : res ∈ borrowed p -> step p (put p res)
| step_assign p res : res ∈ borrowed p -> step p (move_assign_over p res)
| step_wake p : step p (wake p).

Inductive reachable (target max : nat) : resource_pool -> Prop :=
| reach_init : reachable target max (make_pool target max)
| reach_step p p' : reachable target max p -> step p p' -> reachable target max p'.

(** ** The invariant *)

Record pool_ok (target max : nat) (p : resource_pool) : Prop := {
  ok_target : target_size p = target;
  ok_max : max_size p = max;
  ok_waiting : num_waiting p = Z.of_nat (asleep p + woken p);
  ok_borrowed : num_borrowed p = Z.of_nat (length (borrowed p) + lost p);
  ok_limit : (length (pool p) + length (borrowed p) + lost p <= max)%nat;
  ok_unique : NoDup (pool p ++ borrowed p);
  ok_made : Forall (fun r => (r < made p)%nat) (pool p ++ borrowed p);
  (* while a thread waits, every resource the pool may have exists or is lost *)
  ok_full : (0 < asleep p + woken p)%nat -> (length (pool p) + length (borrowed p) + lost p = max)%nat;
  (* there is a woken thread for every resource a thread waits for *)
  ok_notified : (Nat.min (length (pool p)) (asleep p + woken p) <= woken p)%nat;
}.

Lemma make_pool_ok target max : pool_ok target max (make_pool target max).
Proof. constructor; simpl; try done; try lia; constructor. Qed.

Lemma last_split (l : list nat) x : last l = Some x -> l = removelast l ++ [x].
Proof.
  intros Hl. destruct (decide (l = [])) as [->|Hne]; [done|].
  rewrite (app_removelast_last 0%nat Hne) at 1. f_equal. f_equal.
  apply last_Some in Hl as [l' ->]. by rewrite List.last_last.
Qed.

Lemma remove_length res (l : list nat) :
  NoDup l -> res ∈ l -> (length (remove Nat.eq_dec res l) = length l - 1)%nat
    /\ forall x, x ∈ remove Nat.eq_dec res l <-> x ∈ l /\ x <> res.
Proof.
  intros Hnd Hin. split.
  - induction Hnd as [|x l Hx Hnd IH]; [by apply elem_of_nil in Hin|]. cbn [remove].
    destruct (Nat.eq_dec res x) as [->|Hne].
    + rewrite notin_remove; [simpl; lia|]. by rewrite <- list_elem_of_In.
    + apply elem_of_cons in Hin as [?|Hin]; [done|]. cbn [length]. rewrite IH by done.
      destruct l; [by apply elem_of_nil in Hin|simpl; lia].
  - intros x. rewrite !list_elem_of_In. split.
    + intros H. apply in_remove in H. tauto.
    + intros [H1 H2]. by apply in_in_remove.
Qed.

Lemma NoDup_remove res (l : list nat) : NoDup l -> NoDup (remove Nat.eq_dec res l).
Proof.
  intros Hnd. induction Hnd as [|x l Hx Hnd IH]; cbn [remove]; [constructor|].
  destruct (Nat.eq_dec res x); [done|]. constructor; [|done]. intros Hin. apply Hx.
  rewrite list_elem_of_In in *. by apply in_remove in Hin as [? _].
Qed.

Section Preservation.
Context (target max : nat) (Hmax : Z.of_nat max < 2 ^ 64).

(** A take keeps the invariant, whether it comes from [get], [try_get] or a
    woken thread that has left the waiting ones. *)
Lemma take_ok p q res q' :
  pool_ok target max p -> pool p <> [] -> pool q = pool p -> borrowed q = borrowed p -> lost q = lost p -> made q = made p ->
  num_borrowed q = num_borrowed p -> target_size q = target -> max_size q = max ->
  num_waiting q = Z.of_nat (asleep q + woken q) -> (asleep q + woken q <= asleep p + woken p)%nat ->
  (Nat.min (length (pool p) - 1) (asleep q + woken q) <= woken q)%nat ->
  take_back q = Ret (res, q') -> pool_ok target max q'.
Proof using Hmax.
  intros Hok Hne Hp Hb Hlo Hm Hnb Ht Hmx Hw Hle Hn H. unfold take_back in H. rewrite Hp, Hb, Hlo, Hm, Hnb in H.
  destruct (last (pool p)) as [x|] eqn:E; [|done]. injection H as <- <-.
  pose proof (last_split _ _ E) as Hs. pose proof Hok as [_ _ _ Hbo Hl Hu Hmd Hf _].
  rewrite Hs in Hl, Hu, Hmd, Hf. rewrite Hs in Hn. rewrite length_app in *. cbn [length] in *.
  rewrite <- app_assoc in Hu, Hmd. constructor; cbn; try done; try lia.
  unfold u64. rewrite wrap_small; lia.
Qed.

Lemma get_ok p make_throws r p' : few_threads p -> pool_ok target max p -> get make_throws p = Ret (r, p') -> pool_ok target max p'.
Proof using Hmax.
  intros Hfew Hok. unfold get. destruct (pool p) as [|x xs] eqn:Ep.
  - pose proof Hok as [Ht Hm Hw Hb Hl Hu Hmd Hf Hn]. unfold few_threads in Hfew. rewrite Ep in *. cbn [app length] in *.
    destruct (num_borrowed p <? Z.of_nat (max_size p)) eqn:E; [destruct make_throws as [e|]|]; reflect_bools; intros [= <- <-];
      constructor; cbn; try done; try lia; try (unfold u64; rewrite wrap_small; lia).
    + apply NoDup_cons. split; [|done]. intros Hin. rewrite Forall_forall in Hmd. specialize (Hmd _ Hin). simpl in Hmd. lia.
    + constructor; [lia|]. eapply Forall_impl; [exact Hmd|]. simpl. lia.
  - intros H. destruct (take_back p) as [[res q]| | | |] eqn:E; try done. cbn in H. injection H as <- <-.
    pose proof Hok as [Ht Hm Hw Hb Hl Hu Hmd Hf Hn].
    apply (take_ok p p res q); try done; rewrite ?Ep; try done; rewrite Ep in Hn; cbn [length] in *; lia.
Qed.

Lemma try_get_ok p r p' : pool_ok target max p -> try_get p = Ret (r, p') -> pool_ok target max p'.
Proof using Hmax.
  intros Hok. unfold try_get. destruct (pool p) as [|x xs] eqn:Ep; [by intros [= _ <-]|].
  intros H. destruct (take_back p) as [[res q]| | | |] eqn:E; try done. cbn in H. injection H as <- <-.
  pose proof Hok as [Ht Hm Hw Hb Hl Hu Hmd Hf Hn].
  apply (take_ok p p res q); try done; rewrite ?Ep; try done; rewrite Ep in Hn; cbn [length] in *; lia.
Qed.

Lemma resume_ok p r p' :
  few_threads p -> (0 < woken p)%nat -> pool_ok target max p -> resume p = Ret (r, p') -> pool_ok target max p'.
Proof using Hmax.
  intros Hfew Hwk Hok. unfold resume. pose proof Hok as [Ht Hm Hw Hb Hl Hu Hmd Hf Hn].
  unfold few_threads in Hfew. destruct (pool p) as [|x xs] eqn:Ep.
  - intros [= <- <-]. cbn [app length] in *. constructor; cbn; try done; lia.
  - intros H. destruct (take_back _) as [[res q]| | | |] eqn:E; try done. cbn in H. injection H as <- <-.
    eapply (take_ok p); [exact Hok|..|exact E]; cbn; rewrite ?Ep; try done; try lia.
    unfold u64. rewrite wrap_small; lia.
Qed.

Lemma notify_one_ok p : pool_ok target max p -> pool_ok target max (notify_one p).
Proof using Hmax.
  intros Hok. unfold notify_one. destruct (asleep p) as [|n] eqn:E; [done|].
  destruct Hok. constructor; cbn; try done; rewrite ?E in *; lia.
Qed.

Lemma put_ok p res : res ∈ borrowed p -> pool_ok target max p -> pool_ok target max (put p res).
Proof using Hmax.
  intros Hin Hok. pose proof Hok as [Ht Hm Hw Hb Hl Hu Hmd Hf Hn].
  apply NoDup_app in Hu as (Hup & Hdis & Hub). apply Forall_app in Hmd as [Hmp Hmb].
  destruct (remove_length res (borrowed p) Hub Hin) as [Hlen Hrem].
  assert (0 < length (borrowed p))%nat as Hpos by (destruct (borrowed p); [by apply elem_of_nil in Hin|simpl; lia]).
  assert (u64 (num_borrowed p - 1) = Z.of_nat (length (remove Nat.eq_dec res (borrowed p)) + lost p)) as Hnb.
  { rewrite Hlen, Hb. unfold u64. rewrite wrap_small; lia. }
  assert (Forall (fun r => (r < made p)%nat) (remove Nat.eq_dec res (borrowed p))) as Hmr.
  { apply Forall_forall. intros x Hx. apply Hrem in Hx as [Hx _]. rewrite Forall_forall in Hmb. by apply Hmb. }
  unfold put. destruct ((target_size p <=? length (pool p))%nat && (num_waiting p =? 0)) eqn:E.
  - reflect_bools. constructor; cbn; try done; try lia.
    + apply NoDup_app. split_and!; [done| |by apply NoDup_remove]. intros x Hx Hx'. apply Hrem in Hx' as [Hx' _]. by apply (Hdis x).
    + by apply Forall_app.
  - assert (NoDup ((pool p ++ [res]) ++ remove Nat.eq_dec res (borrowed p))) as Hu'.
    { apply NoDup_app. split_and!; [| |by apply NoDup_remove].
      - apply NoDup_app. split_and!; [done| |apply NoDup_singleton]. intros x Hx Hx'.
        apply list_elem_of_singleton in Hx' as ->. by apply (Hdis res).
      - intros x Hx Hx'. apply Hrem in Hx' as [Hx' Hne]. apply elem_of_app in Hx as [Hx|Hx]; [by apply (Hdis x)|].
        by apply list_elem_of_singleton in Hx. }
    assert (Forall (fun r => (r < made p)%nat) ((pool p ++ [res]) ++ remove Nat.eq_dec res (borrowed p))) as Hm'.
    { rewrite !Forall_app. split_and!; try done. constructor; [|constructor]. rewrite Forall_forall in Hmb. by apply Hmb. }
    unfold notify_one. cbn [asleep]. destruct (asleep p) as [|n] eqn:Ea;
      constructor; cbn; rewrite ?length_app; cbn [length]; try done; rewrite ?Ea; lia.
Qed.

Lemma move_assign_over_ok p res : res ∈ borrowed p -> pool_ok target max p -> pool_ok target max (move_assign_over p res).
Proof using Type.
  intros Hin [Ht Hm Hw Hb Hl Hu Hmd Hf Hn]. apply NoDup_app in Hu as (Hup & Hdis & Hub). apply Forall_app in Hmd as [Hmp Hmb].
  destruct (remove_length res (borrowed p) Hub Hin) as [Hlen Hrem].
  assert (0 < length (borrowed p))%nat as Hpos by (destruct (borrowed p); [by apply elem_of_nil in Hin|simpl; lia]).
  constructor; cbn; rewrite ?Hlen; try done; try lia.
  - apply NoDup_app. split_and!; [done| |by apply NoDup_remove]. intros x Hx Hx'. apply Hrem in Hx' as [Hx' _]. by apply (Hdis x).
  - apply Forall_app. split; [done|]. apply Forall_forall. intros x Hx. apply Hrem in Hx as [Hx _]. rewrite Forall_forall in Hmb. by apply Hmb.
Qed.

Lemma step_ok p p' : pool_ok target max p -> step p p' -> pool_ok target max p'.
Proof using Hmax.
  intros Hok Hs. destruct Hs as [p mk r p' Hfew Hg|p r p' Hfew Hwk Hr|p r p' Hg|p res Hin|p res Hin|p].
  - by eapply get_ok.
  - by eapply resume_ok.
  - by eapply try_get_ok.
  - by apply put_ok.
  - by apply move_assign_over_ok.
  - by apply notify_one_ok.
Qed.

Lemma reachable_ok p : reachable target max p -> pool_ok target max p.
Proof using Hmax. induction 1; eauto using make_pool_ok, step_ok. Qed.
End Preservation.

Lemma get_borrowed make_throws p r p' :
  get make_throws p = Ret (r, p') -> borrowed p' = match r with Borrowed res => res :: borrowed p | _ => borrowed p end.
Proof.
  unfold get. destruct (pool p) as [|x xs]; [destruct (_ <? _); [destruct make_throws|]; by intros [= <- <-]|].
  intros ([res q] & Ht & E)%bind_Ret_inv. injection E as <- <-. unfold take_back in Ht. destruct (last (pool p)); [|done]. by injection Ht as <- <-.
Qed.

Lemma notify_one_borrowed p : borrowed (notify_one p) = borrowed p.
Proof. unfold notify_one. by destruct (asleep p). Qed.

(** What [use] borrows it gives back, however the function ends. *)
Lemma use_gives_back {A} target max make_throws (f : nat -> outcome A) p a p' :
  Z.of_nat max < 2 ^ 64 -> few_threads p -> pool_ok target max p -> use make_throws f p = Ret (Some a, p') ->
  pool_ok target max p' /\ borrowed p' = borrowed p /\ ((exists res, a = f res) \/ exists e, make_throws = Some e /\ a = Throw e).
Proof.
  intros Hmax Hfew Hok. unfold use. intros ([[res| |e] p1] & Hg & Hr)%bind_Ret_inv; [|done|].
  2: { injection Hr as <- <-. split_and!; [by eapply get_ok|exact (get_borrowed _ _ _ _ Hg)|]. right. exists e. split; [|done].
       unfold get in Hg. destruct (pool p); [|by apply bind_Ret_inv in Hg as ([? ?] & _ & Hg)].
       destruct (_ <? _); [|done]. destruct make_throws; [by injection Hg as <- _|done]. }
  injection Hr as <- <-.
  pose proof (get_ok target max Hmax p _ (Borrowed res) p1 Hfew Hok Hg) as Hok1. pose proof (get_borrowed _ p (Borrowed res) p1 Hg) as Hb. cbn in Hb.
  cbn [borrowed_destruct]. split_and!; [apply put_ok; [done|rewrite Hb; by left|done]| |left; by exists res].
  assert (remove Nat.eq_dec res (borrowed p1) = borrowed p) as Hrem.
  { pose proof (ok_unique _ _ _ Hok1) as (_ & _ & Hnd)%NoDup_app. rewrite Hb in Hnd |- *. apply NoDup_cons in Hnd as [Hin _].
    cbn [remove]. destruct (Nat.eq_dec res res); [|done]. apply notin_remove. by rewrite <- list_elem_of_In. }
  unfold put. destruct (_ && _); [done|]. by rewrite notify_one_borrowed.
Qed.

(** A step loses a resource only by an exception of [make] or an assignment. *)
Lemma take_back_lost p res p' : take_back p = Ret (res, p') -> lost p' = lost p.
Proof. unfold take_back. destruct (last (pool p)); [|done]. by intros [= <- <-]. Qed.

Lemma notify_one_lost p : lost (notify_one p) = lost p.
Proof. unfold notify_one. by destruct (asleep p). Qed.

Lemma get_lost make_throws p r p' :
  get make_throws p = Ret (r, p') ->
  lost p' = lost p \/ (lost p' = S (lost p) /\ exists e, get (Some e) p = Ret (Thrown e, p')).
Proof.
  unfold get. destruct (pool p) as [|x xs].
  - destruct (_ <? _); [|intros [= <- <-]; by left].
    destruct make_throws as [e|]; intros [= <- <-]; [right; split; [done|by exists e]|by left].
  - intros ([res q] & Ht & E)%bind_Ret_inv. injection E as <- <-. left. exact (take_back_lost _ _ _ Ht).
Qed.

Lemma resume_lost p r p' : resume p = Ret (r, p') -> lost p' = lost p.
Proof.
  unfold resume. destruct (pool p); [by intros [= <- <-]|].
  intros ([res q] & Ht & E)%bind_Ret_inv. injection E as <- <-. exact (take_back_lost _ _ _ Ht).
Qed.

Lemma step_lost p p' :
  step p p' ->
  lost p' = lost p
  \/ (lost p' = S (lost p)
      /\ ((exists e, get (Some e) p = Ret (Thrown e, p')) \/ exists res, res ∈ borrowed p /\ p' = move_assign_over p res)).
Proof.
  intros [q mk r q' _ Hg|q r q' _ _ Hg|q r q' Hg|q res Hin|q res Hin|q].
  - destruct (get_lost _ _ _ _ Hg) as [?|[? ?]]; [by left|right; split; [done|by left]].
  - left. by eapply resume_lost.
  - left. unfold try_get in Hg. destruct (pool q); [by injection Hg as <- <-|].
    apply bind_Ret_inv in Hg as ([res q2] & Ht & E). injection E as <- <-. exact (take_back_lost _ _ _ Ht).
  - left. unfold put. destruct (_ && _); [done|by rewrite notify_one_lost].
  - right. split; [done|]. right. by exists res.
  - left. apply notify_one_lost.
Qed.

(** ** Properties *)

(** C18: in every interleaving of threads that borrow (where [make] may throw),
    try to borrow, wait, give back and assign over what they borrowed, the
    resources that exist (idle or borrowed) never exceed the maximum and no
    resource has two owners; [num_waiting] is exact; and [num_borrowed] is the
    number of borrowed resources plus one for each exception of [make] and each
    assignment over an owner, which are never made up for: that many resources
    of the maximum are gone for good. *)
Theorem resource_pool_limit target max p :
  Z.of_nat max < 2 ^ 64 -> reachable target max p ->
  (available_resources p + length (borrowed p) + lost p <= max)%nat
  /\ NoDup (pool p ++ borrowed p)
  /\ num_borrowed p = Z.of_nat (length (borrowed p) + lost p)
  /\ num_waiting p = Z.of_nat (asleep p + woken p)
  /\ forall p', step p p' ->
       lost p' = lost p
       \/ (lost p' = S (lost p)
           /\ ((exists e, get (Some e) p = Ret (Thrown e, p')) \/ exists res, res ∈ borrowed p /\ p' = move_assign_over p res)).
Proof.
  intros Hmax Hr. pose proof (reachable_ok target max Hmax p Hr) as [Ht Hm Hw Hb Hl Hu Hmd Hf Hn].
  split_and!; try done. exact (step_lost p).
Qed.

(** C19: no wake-up is lost: whenever threads wait and a resource is idle, one
    of them has been woken, and once every resource has been given back while
    a thread waits (for a maximum above zero, and above the number of the lost
    ones), a resource is idle and a woken thread will take it. *)
Theorem resource_pool_no_lost_wakeup target max p :
  Z.of_nat max < 2 ^ 64 -> reachable target max p -> (0 < asleep p + woken p)%nat ->
  (pool p <> [] -> (0 < woken p)%nat)
  /\ (borrowed p = [] -> (lost p < max)%nat ->
      (0 < woken p)%nat /\ exists res p', resume p = Ret (Borrowed res, p') /\ borrowed p' = [res]).
Proof.
  intros Hmax Hr Hwait. pose proof (reachable_ok target max Hmax p Hr) as [Ht Hm Hw Hb Hl Hu Hmd Hf Hn].
  assert (pool p <> [] -> (0 < woken p)%nat) as H1.
  { intros Hne. destruct (pool p); [done|]. cbn [length] in Hn. lia. }
  split; [exact H1|]. intros Hnil Hpos. specialize (Hf Hwait). rewrite Hnil in Hf. cbn [length] in Hf.
  assert (pool p <> []) as Hne by (intros E; rewrite E in Hf; simpl in Hf; lia). split; [auto|].
  unfold resume. destruct (pool p) as [|x xs] eqn:Ep; [done|]. unfold take_back. cbn [pool num_waiting].
  destruct (last (x :: xs)) as [res|] eqn:E; [|by apply last_None in E].
  do 2 eexists. split; [reflexivity|]. cbn. by rewrite Hnil.
Qed.

(** A run of two threads on a pool of one: the second has to wait, the first
    gives its resource back, and the waiting one is woken. *)
Definition contended : resource_pool :=
  match get None (make_pool 1 1) with
  | Ret (_, p) => match get None p with Ret (_, p) => put p 0 | _ => p end
  | _ => make_pool 1 1
  end.

Lemma contended_reachable : reachable 1 1 contended.
Proof.
  unfold contended. eapply (reach_step 1 1); [eapply reach_step; [eapply reach_step; [apply reach_init|]|]|].
  - eapply (step_get _ None (Borrowed 0)); [unfold few_threads; simpl; lia|reflexivity].
  - eapply (step_get _ None Waits); [unfold few_threads; simpl; lia|reflexivity].
  - apply step_put. cbn. left.
Qed.

(** On a pool of three, [make] throws, then makes two resources, and the
    second is assigned over: one is left of the three, and it is borrowed. *)
Definition leaking : resource_pool :=
  match get (Some (system_error 111)) (make_pool 3 3) with
  | Ret (_, p) =>
      match get None p with
      | Ret (_, p) => match get None p with Ret (_, p) => move_assign_over p 1 | _ => p end
      | _ => p
      end
  | _ => make_pool 3 3
  end.

Lemma leaking_reachable : reachable 3 3 leaking.
Proof.
  unfold leaking. eapply (reach_step 3 3); [eapply reach_step; [eapply reach_step; [eapply reach_step; [apply reach_init|]|]|]|].
  - eapply (step_get _ (Some (system_error 111)) (Thrown (system_error 111))); [unfold few_threads; simpl; lia|reflexivity].
  - eapply (step_get _ None (Borrowed 0)); [unfold few_threads; simpl; lia|reflexivity].
  - eapply (step_get _ None (Borrowed 1)); [unfold few_threads; simpl; lia|reflexivity].
  - apply step_assign. cbn. left.
Qed.

Lemma resource_pool_limit_witness :
  borrowed leaking = [0%nat] /\ lost leaking = 2%nat
  /\ (available_resources leaking + length (borrowed leaking) + lost leaking <= 3)%nat
  /\ NoDup (pool leaking ++ borrowed leaking)
  /\ num_borrowed leaking = Z.of_nat (length (borrowed leaking) + lost leaking).
Proof.
  split; [reflexivity|]. split; [reflexivity|].
  destruct (resource_pool_limit 3 3 leaking) as (H1 & H2 & H3 & _); [lia|exact leaking_reachable|]. split_and!; [exact H1|exact H2|exact H3].
Defined.

Lemma resource_pool_no_lost_wakeup_witness :
  (0 < woken contended)%nat /\ exists res p', resume contended = Ret (Borrowed res, p') /\ borrowed p' = [res].
Proof.
  assert ((0 < asleep contended + woken contended)%nat) as Hw by (vm_compute; lia).
  apply (resource_pool_no_lost_wakeup 1 1 contended ltac:(lia) contended_reachable Hw); [reflexivity|vm_compute; lia].
Defined.

(** Assigning over a [borrowed_resource] destroys its resource without
    giving it back: on a pool of one, the next [get] waits although nothing is
    borrowed and nobody can wake it.  An exception of [make] does the same. *)
Lemma resource_pool_assign_leaks :
  exists p p', get None (make_pool 1 1) = Ret (Borrowed 0, p)
    /\ borrowed (move_assign_over p 0) = []
    /\ get None (move_assign_over p 0) = Ret (Waits, p') /\ borrowed p' = [] /\ pool p' = [].
Proof. do 2 eexists. split_and!; reflexivity. Qed.

Lemma resource_pool_make_throws e :
  exists p p', get (Some e) (make_pool 1 1) = Ret (Thrown e, p)
    /\ get None p = Ret (Waits, p') /\ borrowed p' = [] /\ pool p' = [].
Proof. do 2 eexists. split_and!; reflexivity. Qed.
