(* ===== verification/Client.v ===== *)
(** * The connection table of the client (src/http/client.cpp, include/http/client.hpp)

    Threads ask the client for a connection to a host.  The table of pools is
    guarded by a shared mutex, which is the set of the threads that hold it
    shared and the thread that holds it alone.  [get_connection] is cut at the
    points where a thread takes or leaves the mutex or the mutex of a pool, and
    the client is a transition system over the steps of any number of threads.
    The pools are those of [ResourcePool], where making a connection may throw;
    a connection is its number there. *)

From Stdlib Require Import ZArith Lia Strings.Byte String.
From stdpp Require Import prelude list gmap strings.
From S2P Require Import Prelude CxxStrings ResourcePool.

(** ** Definitions *)

(** [host + ":" + (!port.empty() ? port : "80")] *)
Definition connection_host (host port : list byte) : list byte :=
  host ++ lit ":" ++ match port with [] => lit "80" | _ => port end.

(** Where a thread is in [get_connection], and then with its connection *)
Inductive client_pc :=
| c_start                   (* takes the mutex shared *)
| c_find                    (* looks, holding it shared *)
| c_write                   (* has left it, takes it alone *)
| c_insert                  (* looks again and inserts, holding it alone *)
| c_read                    (* has left it, takes it shared *)
| c_borrow                  (* finds the pool and calls [get], holding it shared *)
| c_wait                    (* waits in [get], holding it shared *)
| c_have (connection : nat) (* has returned *)
| c_done                    (* has given the connection back *)
| c_failed                  (* has left with the exception of [make] *)
| c_undefined.              (* has dereferenced the end iterator *)

#[global] Instance client_pc_eq_dec : EqDecision client_pc.
Proof. solve_decision. Defined.

Record client_thread := { t_host : list byte; t_port : list byte; t_pc : client_pc }.

(** [host_connections]: the pool, and the thread whose [host] and [port] its
    [make] refers to *)
Record host_connections := { connections_of : resource_pool; made_by : nat }.

Record client := {
  readers : gset nat;
  writer : option nat;
  connections : gmap (list byte) host_connections;
  threads : gmap nat client_thread;
  max_connections_per_host : nat;
}.

Definition make_client (max_connections : nat) (calls : gmap nat (list byte * list byte)) : client :=
  {| readers := ∅; writer := None; connections := ∅;
     threads := (fun c => {| t_host := c.1; t_port := c.2; t_pc := c_start |}) <$> calls;
     max_connections_per_host := max_connections |}.

Definition key (t : client_thread) : list byte := connection_host (t_host t) (t_port t).

(** The client with another mutex, another table, and thread [i] elsewhere *)
Definition with_thread (i : nat) (t : client_thread) (pc : client_pc) (rs : gset nat) (w : option nat)
    (table : gmap (list byte) host_connections) (c : client) : client :=
  {| readers := rs; writer := w; connections := table;
     threads := <[i := {| t_host := t_host t; t_port := t_port t; t_pc := pc |}]> (threads c);
     max_connections_per_host := max_connections_per_host c |}.

(** [connections.find] and the insertion, under the exclusive lock *)
Definition insert_pool (i : nat) (k : list byte) (c : client) : gmap (list byte) host_connections :=
  match connections c !! k with
  | Some _ => connections c
  | None =>
      <[k := {| connections_of := make_pool (max_connections_per_host c) (max_connections_per_host c); made_by := i |}]> (connections c)
  end.

(** The pool at [k], changed *)
Definition update_pool (k : list byte) (h : host_connections) (p : resource_pool) (c : client) : gmap (list byte) host_connections :=
  <[k := {| connections_of := p; made_by := made_by h |}]> (connections c).

(** Where a thread goes after [get] *)
Definition after_get (r : get_result) : client_pc := match r with Borrowed res => c_have res | Waits => c_wait | Thrown _ => c_failed end.
Definition after_lock (i : nat) (r : get_result) (rs : gset nat) : gset nat := match r with Waits => rs | _ => rs ∖ {[i]} end.

Inductive client_step : client -> client -> Prop :=
| step_lock_shared c i t :
    threads c !! i = Some t -> t_pc t = c_start -> writer c = None ->
    client_step c (with_thread i t c_find ({[i]} ∪ readers c) None (connections c) c)
| step_find c i t :
    threads c !! i = Some t -> t_pc t = c_find ->
    client_step c
      match connections c !! key t with
      | Some _ => with_thread i t c_borrow (readers c) (writer c) (connections c) c
      | None => with_thread i t c_write (readers c ∖ {[i]}) (writer c) (connections c) c
      end
| step_lock c i t :
    threads c !! i = Some t -> t_pc t = c_write -> readers c = ∅ -> writer c = None ->
    client_step c (with_thread i t c_insert ∅ (Some i) (connections c) c)
| step_insert c i t :
    threads c !! i = Some t -> t_pc t = c_insert ->
    client_step c (with_thread i t c_read (readers c) None (insert_pool i (key t) c) c)
| step_relock c i t :
    threads c !! i = Some t -> t_pc t = c_read -> writer c = None ->
    client_step c (with_thread i t c_borrow ({[i]} ∪ readers c) None (connections c) c)
| step_borrow c i t h make_throws r p :
    threads c !! i = Some t -> t_pc t = c_borrow -> connections c !! key t = Some h ->
    few_threads (connections_of h) -> get make_throws (connections_of h) = Ret (r, p) ->
    client_step c (with_thread i t (after_get r) (after_lock i r (readers c)) (writer c) (update_pool (key t) h p c) c)
| step_borrow_end c i t :
    threads c !! i = Some t -> t_pc t = c_borrow -> connections c !! key t = None ->
    client_step c (with_thread i t c_undefined (readers c) (writer c) (connections c) c)
| step_wait c i t h r p :
    threads c !! i = Some t -> t_pc t = c_wait -> connections c !! key t = Some h ->
    few_threads (connections_of h) -> (0 < woken (connections_of h))%nat -> resume (connections_of h) = Ret (r, p) ->
    client_step c (with_thread i t (after_get r) (after_lock i r (readers c)) (writer c) (update_pool (key t) h p c) c)
| step_give_back c i t h res :
    threads c !! i = Some t -> t_pc t = c_have res -> connections c !! key t = Some h ->
    client_step c (with_thread i t c_done (readers c) (writer c) (update_pool (key t) h (put (connections_of h) res) c) c).

(** ** The invariant *)

Definition shares (pc : client_pc) : bool := match pc with c_find | c_borrow | c_wait => true | _ => false end.
Definition has_pool (pc : client_pc) : bool := match pc with c_read | c_borrow | c_wait | c_have _ | c_done => true | _ => false end.

Record client_ok (c : client) : Prop := {
  ok_readers i : i ∈ readers c -> exists t, threads c !! i = Some t /\ shares (t_pc t) = true;
  ok_shares i t : threads c !! i = Some t -> shares (t_pc t) = true -> i ∈ readers c;
  ok_writer i t : threads c !! i = Some t -> t_pc t = c_insert <-> writer c = Some i;
  ok_exclusive i : writer c = Some i -> readers c = ∅ /\ is_Some (threads c !! i);
  ok_present i t : threads c !! i = Some t -> has_pool (t_pc t) = true -> is_Some (connections c !! key t);
  ok_defined i t : threads c !! i = Some t -> t_pc t <> c_undefined;
  ok_pools k h : connections c !! k = Some h -> pool_ok (max_connections_per_host c) (max_connections_per_host c) (connections_of h);
  ok_held i t h res : threads c !! i = Some t -> t_pc t = c_have res -> connections c !! key t = Some h -> res ∈ borrowed (connections_of h);
  ok_owner i j t u res : threads c !! i = Some t -> threads c !! j = Some u -> key t = key u ->
    t_pc t = c_have res -> t_pc u = c_have res -> i = j;
}.

Inductive client_reachable (max_connections : nat) (calls : gmap nat (list byte * list byte)) : client -> Prop :=
| client_init : client_reachable max_connections calls (make_client max_connections calls)
| client_next c c' : client_reachable max_connections calls c -> client_step c c' -> client_reachable max_connections calls c'.

Lemma with_thread_ok c i t pc rs w table :
  client_ok c -> threads c !! i = Some t ->
  (forall j, j <> i -> j ∈ rs <-> j ∈ readers c) -> (i ∈ rs <-> shares pc = true) ->
  (pc = c_insert <-> w = Some i) -> (forall j, j <> i -> w = Some j <-> writer c = Some j) -> (forall j, w = Some j -> rs = ∅) ->
  (forall k, is_Some (connections c !! k) -> is_Some (table !! k)) -> (has_pool pc = true -> is_Some (table !! key t)) ->
  pc <> c_undefined ->
  (forall k h, table !! k = Some h -> pool_ok (max_connections_per_host c) (max_connections_per_host c) (connections_of h)) ->
  (forall j u h res, j <> i -> threads c !! j = Some u -> t_pc u = c_have res -> table !! key u = Some h -> res ∈ borrowed (connections_of h)) ->
  (forall h res, pc = c_have res -> table !! key t = Some h -> res ∈ borrowed (connections_of h)) ->
  (forall j u res, j <> i -> threads c !! j = Some u -> t_pc u = c_have res -> key u = key t -> pc <> c_have res) ->
  client_ok (with_thread i t pc rs w table c).
Proof.
  intros [Hr Hs Hw He Hp Hd Hpool Hheld Hown] Hi Hrs Hrsi Hwi Hwj Hex Htab Hhas Hdef Hpools Hothers Hself Hnew.
  assert (key {| t_host := t_host t; t_port := t_port t; t_pc := pc |} = key t) as Hk by done.
  constructor; cbn [with_thread readers writer connections threads max_connections_per_host].
  - intros j Hj. destruct (decide (j = i)) as [->|Hne].
    + rewrite lookup_insert_eq. eexists. split; [done|]. cbn. by apply Hrsi.
    + rewrite lookup_insert_ne by done. apply Hr. by apply Hrs.
  - intros j u [[<- <-] | [Hne Hj]]%lookup_insert_Some; cbn [t_pc]; [apply Hrsi|]. intros Hsh. apply Hrs; [done|]. by eapply Hs.
  - intros j u [[<- <-] | [Hne Hj]]%lookup_insert_Some; cbn [t_pc]; [done|]. rewrite (Hw _ _ Hj). symmetry. by apply Hwj.
  - intros j Hj. split; [by eapply Hex|]. destruct (decide (j = i)) as [->|Hne]; [rewrite lookup_insert_eq; by eexists|].
    rewrite lookup_insert_ne by done. apply He. by apply Hwj.
  - intros j u [[<- <-] | [Hne Hj]]%lookup_insert_Some; cbn [t_pc]; [done|]. intros Hu. apply Htab. by eapply Hp.
  - intros j u [[<- <-] | [Hne Hj]]%lookup_insert_Some; cbn [t_pc]; [done|]. by eapply Hd.
  - exact Hpools.
  - intros j u h res [[<- <-] | [Hne Hj]]%lookup_insert_Some; cbn [t_pc]; [by apply Hself|]. intros Hu Hh. by eapply (Hothers j).
  - intros j1 j2 u1 u2 res [[<- <-] | [Hne1 Hj1]]%lookup_insert_Some [[<- <-] | [Hne2 Hj2]]%lookup_insert_Some; cbn [t_pc]; rewrite ?Hk; try done.
    + intros Hkey H1 H2. exfalso. by eapply (Hnew j2).
    + intros Hkey H1 H2. exfalso. by eapply (Hnew j1).
    + intros Hkey H1 H2. by eapply Hown.
Qed.

(** What a call on the pool does to what is borrowed *)
Lemma resume_borrowed p r p' : resume p = Ret (r, p') -> borrowed p' = match r with Borrowed res => res :: borrowed p | _ => borrowed p end.
Proof.
  unfold resume. destruct (pool p) as [|x xs] eqn:Ep; [by intros [= <- <-]|].
  intros ([res q] & Ht & E)%bind_Ret_inv. injection E as <- <-. unfold take_back in Ht. cbn [pool] in Ht.
  destruct (last _); [|done]. by injection Ht as <- <-.
Qed.

Lemma put_borrowed p res : borrowed (put p res) = remove Nat.eq_dec res (borrowed p).
Proof. unfold put. destruct (_ && _); [done|]. unfold notify_one. cbn [asleep]. by destruct (asleep p). Qed.

Lemma add_reader i (rs : gset nat) : (forall j, j <> i -> j ∈ {[i]} ∪ rs <-> j ∈ rs) /\ (i ∈ {[i]} ∪ rs <-> true = true).
Proof. set_solver. Qed.

Lemma drop_reader i (rs : gset nat) : (forall j, j <> i -> j ∈ rs ∖ {[i]} <-> j ∈ rs) /\ (i ∈ rs ∖ {[i]} <-> false = true).
Proof. split; [set_solver|]. split; [set_solver|done]. Qed.

Section Preservation.
Context (n : nat) (Hn : Z.of_nat n < 2 ^ 64).

(** A thread that leaves [get], of the pool it found, in either way *)
Lemma leave_get_ok c i t h r p :
  client_ok c -> max_connections_per_host c = n -> threads c !! i = Some t -> t_pc t = c_borrow \/ t_pc t = c_wait ->
  connections c !! key t = Some h -> pool_ok n n p ->
  borrowed p = match r with Borrowed res => res :: borrowed (connections_of h) | _ => borrowed (connections_of h) end ->
  client_ok (with_thread i t (after_get r) (after_lock i r (readers c)) (writer c) (update_pool (key t) h p c) c).
Proof using Hn.
  intros Hok Hmax Hi Hpc Hh Hp Hb. pose proof Hok as [Hr Hs Hw He Hpr Hd Hpool Hheld Hown].
  assert (i ∈ readers c) as Hir by (eapply Hs; [exact Hi|]; by destruct Hpc as [-> | ->]).
  assert (writer c = None) as Hwn by (destruct (writer c) as [j|] eqn:E; [|done]; destruct (He j eq_refl) as [Hrr _]; set_solver).
  assert (forall res, res ∈ borrowed (connections_of h) -> res ∈ borrowed p) as Hsub by (intros res; rewrite Hb; destruct r; [by right|done..]).
  apply with_thread_ok; try done; unfold update_pool.
  - intros j Hj. destruct r; cbn [after_lock]; set_solver.
  - destruct r; cbn [after_lock after_get shares]; set_solver.
  - rewrite Hwn. by destruct r.
  - by rewrite Hwn.
  - intros k Hk. destruct (decide (k = key t)) as [->|Hne]; [rewrite lookup_insert_eq|rewrite lookup_insert_ne]; done.
  - rewrite lookup_insert_eq. by eexists.
  - by destruct r.
  - intros k h' [[<- <-] | [Hne Hk]]%lookup_insert_Some; [by rewrite Hmax|by eapply Hpool].
  - intros j u h' res Hne Hj Hu [[Hk <-] | [Hk Hh']]%lookup_insert_Some; [|by eapply Hheld].
    apply Hsub. eapply (Hheld j); [exact Hj|exact Hu|by rewrite <- Hk].
  - intros h' res Hr' [[_ <-] | [Hk _]]%lookup_insert_Some; [|done]. cbn. rewrite Hb. destruct r; [|done..]. injection Hr' as ->. by left.
  - intros j u res Hne Hj Hu Hk Hr'. destruct r as [res'| |]; [|done..]. injection Hr' as ->.
    assert (res ∈ borrowed (connections_of h)) as Hin by (eapply (Hheld j); [exact Hj|exact Hu|by rewrite Hk]).
    pose proof (ok_unique _ _ _ Hp) as Hu'. rewrite Hb in Hu'. apply NoDup_app in Hu' as (_ & _ & Hu'). by apply NoDup_cons in Hu' as [Hu' _].
Qed.

(** The one that inserts the pool, unless it is there *)
Lemma insert_ok c i t :
  client_ok c -> threads c !! i = Some t -> t_pc t = c_insert ->
  client_ok (with_thread i t c_read (readers c) None (insert_pool i (key t) c) c).
Proof using Type.
  intros Hok Hi Hpc. pose proof Hok as [Hr Hs Hw He Hpr Hd Hpool Hheld Hown].
  assert (writer c = Some i) as Hwi by (by apply (Hw i t)). destruct (He i Hwi) as [Hrn _].
  assert (forall k h, insert_pool i (key t) c !! k = Some h ->
    connections c !! k = Some h \/ (connections c !! k = None /\ k = key t
      /\ connections_of h = make_pool (max_connections_per_host c) (max_connections_per_host c))) as Hins.
  { intros k h. unfold insert_pool. destruct (connections c !! key t) eqn:E; [by left|].
    intros [[<- <-] | [_ Hk]]%lookup_insert_Some; [by right|by left]. }
  apply with_thread_ok; try done.
  - rewrite Hrn. by split; [intros Hin%not_elem_of_empty|].
  - intros j Hj. rewrite Hwi. split; congruence.
  - intros k Hk. unfold insert_pool. destruct (connections c !! key t) eqn:E; [done|].
    destruct (decide (k = key t)) as [->|Hne]; [rewrite lookup_insert_eq; by eexists|by rewrite lookup_insert_ne].
  - intros _. unfold insert_pool. destruct (connections c !! key t) eqn:E; [by rewrite E|rewrite lookup_insert_eq; by eexists].
  - intros k h Hk. destruct (Hins k h Hk) as [Hk' | (_ & _ & ->)]; [by eapply Hpool|apply make_pool_ok].
  - intros j u h res Hne Hj Hu Hk. destruct (Hins _ h Hk) as [Hk' | (Hk' & _)]; [by eapply Hheld|].
    destruct (Hpr j u Hj) as [h' Hh']; [by rewrite Hu|congruence].
Qed.

(** The one that gives its connection back *)
Lemma give_back_ok c i t h res :
  client_ok c -> max_connections_per_host c = n -> threads c !! i = Some t -> t_pc t = c_have res -> connections c !! key t = Some h ->
  client_ok (with_thread i t c_done (readers c) (writer c) (update_pool (key t) h (put (connections_of h) res) c) c).
Proof using Hn.
  intros Hok Hmax Hi Hpc Hh. pose proof Hok as [Hr Hs Hw He Hpr Hd Hpool Hheld Hown].
  assert (res ∈ borrowed (connections_of h)) as Hin by (by eapply Hheld).
  assert (i ∉ readers c) as Hnr.
  { intros (u & Hu & Hsh)%Hr. rewrite Hi in Hu. injection Hu as <-. by rewrite Hpc in Hsh. }
  assert (writer c <> Some i) as Hnw by (rewrite <- (Hw i t Hi), Hpc; done).
  apply with_thread_ok; try done; unfold update_pool.
  - intros j Hj. by apply (He j).
  - intros k Hk. destruct (decide (k = key t)) as [->|Hne]; [rewrite lookup_insert_eq; by eexists|by rewrite lookup_insert_ne].
  - intros _. rewrite lookup_insert_eq. by eexists.
  - intros k h' [[<- <-] | [Hne Hk]]%lookup_insert_Some; [|by eapply Hpool]. cbn.
    rewrite Hmax. apply put_ok; [done|done|]. rewrite <- Hmax. by eapply Hpool.
  - intros j u h' res' Hne Hj Hu [[Hk <-] | [Hk Hh']]%lookup_insert_Some; [|by eapply Hheld]. cbn. rewrite put_borrowed, list_elem_of_In.
    apply in_in_remove; [|apply list_elem_of_In; eapply (Hheld j); [exact Hj|exact Hu|by rewrite <- Hk]].
    intros ->. apply Hne. symmetry. by eapply (Hown i j).
Qed.

Lemma client_step_ok c c' : client_ok c -> max_connections_per_host c = n -> client_step c c' -> client_ok c'.
Proof using Hn.
  intros Hok Hmax Hstep. pose proof Hok as [Hr Hs Hw He Hpr Hd Hpool Hheld Hown].
  assert (forall i j u h res, j <> i -> threads c !! j = Some u -> t_pc u = c_have res -> connections c !! key u = Some h ->
    res ∈ borrowed (connections_of h)) as Hkeep by (intros _ j u h res _; apply Hheld).
  destruct Hstep as [c i t Hi Hpc Hwn|c i t Hi Hpc|c i t Hi Hpc Hrn Hwn|c i t Hi Hpc|c i t Hi Hpc Hwn|c i t h mk r p Hi Hpc Hh Hfew Hg
    |c i t Hi Hpc Hnone|c i t h r p Hi Hpc Hh Hfew Hwk Hg|c i t h res Hi Hpc Hh].
  - apply with_thread_ok; try done; try apply add_reader; rewrite ?Hwn; try done; try exact (Hkeep i).
  - assert (i ∈ readers c) as Hir by (eapply Hs; [exact Hi|]; by rewrite Hpc).
    assert (writer c = None) as Hwn by (destruct (writer c) as [j|] eqn:E; [|done]; destruct (He j eq_refl) as [Hrr _]; set_solver).
    destruct (connections c !! key t) as [h|] eqn:Ek; apply with_thread_ok; try done; try apply drop_reader; rewrite ?Hwn; try done; try exact (Hkeep i).
  - apply with_thread_ok; try done; rewrite ?Hrn, ?Hwn; try done; try exact (Hkeep i). intros j Hj. split; congruence.
  - by apply insert_ok.
  - apply with_thread_ok; try done; try apply add_reader; rewrite ?Hwn; try done; try exact (Hkeep i). intros _. apply (Hpr i t Hi). by rewrite Hpc.
  - eapply leave_get_ok; try done; [by left| |by eapply get_borrowed].
    eapply get_ok; [done|exact Hfew| |exact Hg]. rewrite <- Hmax. by eapply Hpool.
  - exfalso. destruct (Hpr i t Hi) as [h Hh]; [by rewrite Hpc|congruence].
  - eapply leave_get_ok; try done; [by right| |by apply resume_borrowed].
    eapply resume_ok; [done|exact Hfew|exact Hwk| |exact Hg]. rewrite <- Hmax. by eapply Hpool.
  - by apply give_back_ok.
Qed.

Lemma make_client_ok calls : client_ok (make_client n calls).
Proof using Type.
  assert (forall i t, threads (make_client n calls) !! i = Some t -> t_pc t = c_start) as Hstart.
  { intros i t. cbn. rewrite lookup_fmap. intros (c & _ & ->)%fmap_Some. done. }
  constructor.
  - intros i Hi. cbn in Hi. by apply not_elem_of_empty in Hi.
  - intros i t Hi. by rewrite (Hstart i t Hi).
  - intros i t Hi. by rewrite (Hstart i t Hi).
  - done.
  - intros i t Hi. by rewrite (Hstart i t Hi).
  - intros i t Hi. by rewrite (Hstart i t Hi).
  - intros k h Hk. cbn in Hk. by rewrite lookup_empty in Hk.
  - intros i t h res Hi Hpc. by rewrite (Hstart i t Hi) in Hpc.
  - intros i j t u res Hi _ _ Hpc. by rewrite (Hstart i t Hi) in Hpc.
Qed.

Lemma client_reachable_ok calls c : client_reachable n calls c -> client_ok c /\ max_connections_per_host c = n.
Proof using Hn.
  induction 1 as [|c c' _ [IH Hmax] Hs]; [split; [apply make_client_ok|done]|].
  split; [by eapply client_step_ok|]. destruct Hs; cbn; try done. by destruct (connections c !! key t).
Qed.
End Preservation.

(** ** Properties *)

(** C22: however the threads that ask for connections interleave, none of them
    dereferences the end of the table; a host and port has one pool from the
    moment it is there on, which no thread replaces; the connections to it, idle
    and in use, are at most [max_connections_per_host]; and no two threads have
    the same one. *)
Theorem client_connections (n : nat) (calls : gmap nat (list byte * list byte)) (c : client) :
  Z.of_nat n < 2 ^ 64 -> client_reachable n calls c ->
  (forall i t, threads c !! i = Some t -> t_pc t <> c_undefined)
  /\ (forall k h, connections c !! k = Some h ->
        (length (pool (connections_of h)) + length (borrowed (connections_of h)) <= n)%nat
        /\ forall c', client_step c c' -> exists h', connections c' !! k = Some h' /\ made_by h' = made_by h)
  /\ (forall i j t u res, threads c !! i = Some t -> threads c !! j = Some u -> key t = key u ->
        t_pc t = c_have res -> t_pc u = c_have res -> i = j).
Proof.
  intros Hn Hreach. destruct (client_reachable_ok n Hn calls c Hreach) as [[Hr Hs Hw He Hpr Hd Hpool Hheld Hown] Hmax].
  split_and!; [exact Hd| |exact Hown]. intros k h Hk. split.
  - pose proof (ok_limit _ _ _ (Hpool k h Hk)). lia.
  - intros c' Hstep. assert (forall k' h' p, connections c !! k' = Some h' ->
      exists h2, update_pool k' h' p c !! k = Some h2 /\ made_by h2 = made_by h) as Hup.
    { intros k' h' p Hk'. unfold update_pool. destruct (decide (k = k')) as [->|Hne]; [rewrite lookup_insert_eq|rewrite lookup_insert_ne by done].
      - rewrite Hk' in Hk. injection Hk as ->. by eexists.
      - by exists h. }
    destruct Hstep; cbn; try (by exists h); try by apply Hup.
    + destruct (connections c !! key t); by exists h.
    + exists h. split; [|done]. unfold insert_pool. destruct (connections c !! key t) eqn:E; [done|].
      rewrite lookup_insert_ne; [done|congruence].
Qed.

(** The step of thread [i], if it has one; a thread with a connection gives it back. *)
Definition client_exec (c : client) (i : nat) : option client :=
  match threads c !! i with
  | None => None
  | Some t =>
      match t_pc t with
      | c_start => if decide (writer c = None) then Some (with_thread i t c_find ({[i]} ∪ readers c) None (connections c) c) else None
      | c_find =>
          Some match connections c !! key t with
               | Some _ => with_thread i t c_borrow (readers c) (writer c) (connections c) c
               | None => with_thread i t c_write (readers c ∖ {[i]}) (writer c) (connections c) c
               end
      | c_write =>
          if decide (readers c = ∅ /\ writer c = None) then Some (with_thread i t c_insert ∅ (Some i) (connections c) c) else None
      | c_insert => Some (with_thread i t c_read (readers c) None (insert_pool i (key t) c) c)
      | c_read => if decide (writer c = None) then Some (with_thread i t c_borrow ({[i]} ∪ readers c) None (connections c) c) else None
      | c_borrow =>
          match connections c !! key t with
          | None => Some (with_thread i t c_undefined (readers c) (writer c) (connections c) c)
          | Some h =>
              if decide (few_threads (connections_of h)) then
                match get None (connections_of h) with
                | Ret (r, p) => Some (with_thread i t (after_get r) (after_lock i r (readers c)) (writer c) (update_pool (key t) h p c) c)
                | _ => None
                end
              else None
          end
      | c_wait =>
          match connections c !! key t with
          | None => None
          | Some h =>
              if decide (few_threads (connections_of h) /\ (0 < woken (connections_of h))%nat) then
                match resume (connections_of h) with
                | Ret (r, p) => Some (with_thread i t (after_get r) (after_lock i r (readers c)) (writer c) (update_pool (key t) h p c) c)
                | _ => None
                end
              else None
          end
      | c_have res =>
          match connections c !! key t with
          | None => None
          | Some h => Some (with_thread i t c_done (readers c) (writer c) (update_pool (key t) h (put (connections_of h) res) c) c)
          end
      | c_done | c_failed | c_undefined => None
      end
  end.

Lemma client_exec_step c i c' : client_exec c i = Some c' -> client_step c c'.
Proof.
  unfold client_exec. destruct (threads c !! i) as [t|] eqn:Hi; [|done]. destruct (t_pc t) eqn:Hpc.
  - case_decide; [|done]. intros [= <-]. by apply step_lock_shared.
  - intros [= <-]. by apply step_find.
  - case_decide as Hd; [|done]. destruct Hd. intros [= <-]. by apply step_lock.
  - intros [= <-]. by apply step_insert.
  - case_decide; [|done]. intros [= <-]. by apply step_relock.
  - destruct (connections c !! key t) as [h|] eqn:Hk; [|intros [= <-]; by apply step_borrow_end].
    case_decide; [|done]. destruct (get None (connections_of h)) as [[r p]| | | |] eqn:Hg; try done. intros [= <-]. by eapply step_borrow.
  - destruct (connections c !! key t) as [h|] eqn:Hk; [|done]. case_decide as Hd; [|done]. destruct Hd.
    destruct (resume (connections_of h)) as [[r p]| | | |] eqn:Hg; try done. intros [= <-]. by eapply step_wait.
  - destruct (connections c !! key t) as [h|] eqn:Hk; [|done]. intros [= <-]. by eapply step_give_back.
  - done.
  - done.
  - done.
Qed.

(** The steps of the threads of a list, one after the other *)
Fixpoint client_run (c : client) (schedule : list nat) : option client :=
  match schedule with
  | [] => Some c
  | i :: schedule => match client_exec c i with Some c => client_run c schedule | None => None end
  end.

Lemma client_run_reachable n calls schedule c : client_run (make_client n calls) schedule = Some c -> client_reachable n calls c.
Proof.
  assert (forall c0, client_reachable n calls c0 -> client_run c0 schedule = Some c -> client_reachable n calls c) as H; [|apply H, client_init].
  induction schedule as [|i schedule IH]; intros c0 H0; cbn [client_run]; [by intros [= <-]|].
  destruct (client_exec c0 i) as [c1|] eqn:E; [|done]. apply IH. eapply client_next; [exact H0|by eapply client_exec_step].
Qed.

(** Two threads ask for a connection to the same host, of which there may be
    one: the first has it and the second waits. *)
Definition two_calls : gmap nat (list byte * list byte) := {[ 0%nat := (lit "a", []); 1%nat := (lit "a", lit "80") ]}.
Definition two_waiting : client := default (make_client 1 two_calls) (client_run (make_client 1 two_calls) [0; 1; 0; 1; 0; 0; 1; 1; 1; 0; 0; 1]%nat).

Lemma client_connections_witness :
  (t_pc <$> threads two_waiting !! 0%nat) = Some (c_have 0) /\ (t_pc <$> threads two_waiting !! 1%nat) = Some c_wait
  /\ forall i j t u res, threads two_waiting !! i = Some t -> threads two_waiting !! j = Some u -> key t = key u ->
        t_pc t = c_have res -> t_pc u = c_have res -> i = j.
Proof.
  split; [vm_compute; reflexivity|]. split; [vm_compute; reflexivity|].
  apply (client_connections 1 two_calls two_waiting); [lia|].
  apply (client_run_reachable 1 two_calls [0; 1; 0; 1; 0; 0; 1; 1; 1; 0; 0; 1]%nat). vm_compute. reflexivity.
Defined.

(** [make] is a lambda that refers to the [host] and [port] of the call that
    made the pool.  Here that call (thread 0) and its request are gone, and
    thread 1 is about to make a second connection with them. *)
Lemma client_make_dangles :
  let calls := {[ 0%nat := (lit "a", []); 1%nat := (lit "a", []); 2%nat := (lit "a", []) ]} in
  exists c h r p, client_reachable 2 calls c /\ connections c !! lit "a:80" = Some h /\ made_by h = 0%nat
    /\ (t_pc <$> threads c !! 0%nat) = Some c_done /\ (t_pc <$> threads c !! 1%nat) = Some c_borrow
    /\ get None (connections_of h) = Ret (Borrowed r, p) /\ made p = S (made (connections_of h)).
Proof.
  intros calls. set (c := default (make_client 2 calls) (client_run (make_client 2 calls) [0; 0; 0; 0; 0; 0; 0; 2; 2; 2; 1; 1]%nat)).
  set (h := default {| connections_of := make_pool 0 0; made_by := 0 |} (connections c !! lit "a:80")).
  exists c, h, 1%nat, (match get None (connections_of h) with Ret (_, p) => p | _ => make_pool 0 0 end).
  split; [apply (client_run_reachable 2 calls [0; 0; 0; 0; 0; 0; 0; 2; 2; 2; 1; 1]%nat); vm_compute; reflexivity|].
  split_and!; vm_compute; reflexivity.
Qed.

(** [get] waits with the mutex of the table held shared: while thread 1 waits
    for a connection, thread 2 cannot enter a new host. *)
Lemma client_wait_blocks_others :
  let calls := {[ 0%nat := (lit "a", []); 1%nat := (lit "a", []); 2%nat := (lit "b", []) ]} in
  exists c, client_reachable 1 calls c /\ (t_pc <$> threads c !! 1%nat) = Some c_wait
    /\ (t_pc <$> threads c !! 2%nat) = Some c_write /\ client_exec c 2 = None.
Proof.
  intros calls. set (c := default (make_client 1 calls) (client_run (make_client 1 calls) [0; 0; 0; 0; 0; 0; 1; 1; 1; 2; 2]%nat)).
  exists c. split; [apply (client_run_reachable 1 calls [0; 0; 0; 0; 0; 0; 1; 1; 1; 2; 2]%nat); vm_compute; reflexivity|].
  split_and!; vm_compute; reflexivity.
Qed.

(** ** Moving a client *)

Record client_fields := {
  f_scheduler : bool; f_max : nat; f_keepalives : bool; f_timeout : Z; f_connections : gmap (list byte) host_connections }.

Definition make_client_fields (max_connections : nat) (timeout : Z) (keepalives : bool) : client_fields :=
  {| f_scheduler := true; f_max := max_connections; f_keepalives := keepalives; f_timeout := timeout; f_connections := ∅ |}.

(** The move constructor: the new client, and the old one *)
Definition move_client (other : client_fields) : client_fields * client_fields :=
  (other, {| f_scheduler := false; f_max := 0; f_keepalives := false; f_timeout := 0; f_connections := ∅ |}).

(** Move assignment *)
Definition move_assign_client (this other : client_fields) : client_fields * client_fields :=
  ({| f_scheduler := f_scheduler this; f_max := f_max other; f_keepalives := f_keepalives this; f_timeout := f_timeout this;
      f_connections := f_connections other |},
   {| f_scheduler := f_scheduler other; f_max := 0; f_keepalives := f_keepalives other; f_timeout := f_timeout other; f_connections := ∅ |}).

(** A moved-from client that is assigned to has connections and no scheduler. *)
Lemma move_assign_no_scheduler c :
  let gone := (move_client c).2 in
  f_scheduler (move_assign_client gone c).1 = false /\ f_connections (move_assign_client gone c).1 = f_connections c.
Proof. done. Qed.
