(* ===== verification/Io.v ===== *)
(** * Readers and writers (include/io, src/io/io.cpp, limit_reader.cpp, buffer.cpp)

    The abstract classes [io::reader] and [io::writer] are the type classes
    [Reader] and [Writer]; what their clients rely on is stated by
    [StreamReader] (a reader delivers a stream of bytes, in order),
    [EofReader] (it reports an error at the end of the stream), [FullReader]
    (it delivers all that is asked for), [SinkWriter] (a writer appends to
    a sink, all of the data or an error, and says how much) and the weaker
    [OrderedWriter] (how much is promised only without an error).  The clients (buffered readers and
    writers, chunked bodies, HTTP messages) are proved against these, and the
    implementations discharge them here and in the files of the buffered ones.

    The operations are coroutines that await one another; they are modelled as
    calls, one operation of an object running at a time.  Reading into a span
    of [n] bytes gives the bytes written to its start, whose number is the
    [count] of the result. *)

From Stdlib Require Import ZArith Strings.Byte Lia String.
From stdpp Require Import prelude list.
From S2P Require Import Prelude CxxStrings.

(** ** Error conditions (io.hpp, io.cpp) *)

Inductive status_condition : Type := closed | timed_out | error.

#[global] Instance status_condition_eq_dec : EqDecision status_condition.
Proof. solve_decision. Defined.

Definition status_value (s : status_condition) : Z :=
  match s with closed => 1 | timed_out => 2 | error => 3 end.

(** [std::error_condition]: no error, a value of the category of
    [status_condition], or of the generic category, by name or by its number
    (an [errno]). *)
Inductive error_condition : Type :=
| no_error
| status (s : status_condition)
| generic (e : errc)
| errno_condition (e : Z).

#[global] Instance error_condition_eq_dec : EqDecision error_condition.
Proof. solve_decision. Defined.

Definition make_error_condition (s : status_condition) : error_condition := status s.

(** [if (err)] *)
Definition failed (e : error_condition) : bool :=
  match e with
  | no_error => false
  | status _ => true
  | generic errc_ok => false
  | generic _ => true
  | errno_condition e => negb (e =? 0)
  end.

(** [status_condition_category::name] *)
Definition category_name : list byte := lit "net::io::status_condition".

(** [status_condition_category::message] *)
Definition category_message (ev : Z) : list byte :=
  if ev =? status_value closed then lit "closed"
  else if ev =? status_value timed_out then lit "timed out"
  else if ev =? status_value error then lit "error"
  else lit "(unrecognized)".

(** The values of [std::errc] (those of Linux) that mean [closed], in the order
    of the source: broken_pipe, connection_aborted, connection_refused,
    host_unreachable, interrupted, io_error, network_down, network_reset,
    network_unreachable, no_message_available, no_message,
    no_stream_resources, no_such_device_or_address, no_such_device,
    no_such_process, not_a_socket, not_a_stream, not_connected,
    operation_canceled, owner_dead, state_not_recoverable. *)
Definition closed_codes : list Z :=
  [32; 103; 111; 113; 4; 5; 100; 102; 101; 61; 42; 63; 6; 19; 3; 88; 60; 107; 125; 130; 131].

(** timed_out and stream_timeout *)
Definition timed_out_codes : list Z := [110; 62].

(** [status_condition_category::equivalent(code, condition)] *)
Definition equivalent (code_value condition : Z) : bool :=
  if condition =? status_value closed then existsb (Z.eqb code_value) closed_codes
  else if condition =? status_value timed_out then existsb (Z.eqb code_value) timed_out_codes
  else if condition =? status_value error then negb (code_value =? 0)
  else false.

(** ** The interfaces *)

Class Reader (R : Type) := rd : R -> nat -> outcome (list byte * error_condition * R).

(** [read(char&)]: the character keeps its value if nothing is read. *)
Definition read_char {R} `{Reader R} (r : R) (c : byte) : outcome (byte * error_condition * R) :=
  let* (got, err, r) := rd r 1 in Ret (default c (head got), err, r).

Class StreamReader (R : Type) `{Reader R} := {
  stream : R -> list byte;
  reader_ok : R -> Prop;
  rd_spec : forall r n, reader_ok r ->
    exists got err r', rd r n = Ret (got, err, r') /\ reader_ok r'
      /\ stream r = got ++ stream r' /\ (length got <= n)%nat
      /\ ((0 < n)%nat -> stream r <> [] -> got <> []);
}.

Class EofReader (R : Type) `{StreamReader R} := rd_eof :
  forall r n got err r', reader_ok r -> stream r = [] -> (0 < n)%nat ->
    rd r n = Ret (got, err, r') -> failed err = true.

Class FullReader (R : Type) `{StreamReader R} := rd_full :
  forall r n, reader_ok r -> exists r', rd r n = Ret (take n (stream r), no_error, r')
    /\ reader_ok r' /\ stream r' = drop n (stream r).

Class Writer (W : Type) := wr : W -> list byte -> outcome (nat * error_condition * W).

Class SinkWriter (W : Type) `{Writer W} := {
  sink : W -> list byte;
  writer_ok : W -> Prop;
  wr_spec : forall w d, writer_ok w ->
    exists k err w', wr w d = Ret (k, err, w') /\ writer_ok w'
      /\ (k <= length d)%nat /\ sink w' = sink w ++ take k d
      /\ (failed err = false -> k = length d);
}.

Class OrderedWriter (W : Type) `{Writer W} := {
  osink : W -> list byte;
  owriter_ok : W -> Prop;
  owr_spec : forall w d, owriter_ok w ->
    exists k err w' j, wr w d = Ret (k, err, w') /\ owriter_ok w'
      /\ (j <= length d)%nat /\ osink w' = osink w ++ take j d
      /\ (failed err = false -> k = length d /\ j = length d);
}.

#[global] Instance sink_ordered {W} `{SinkWriter W} : OrderedWriter W.
Proof.
  refine {| osink := sink; owriter_ok := writer_ok |}.
  intros w d Hok. destruct (wr_spec w d Hok) as (k & err & w' & Hw & Hok' & Hk & Hs & Hf).
  exists k, err, w', k. split_and!; try done. intros He. specialize (Hf He). done.
Defined.

(** A writer that never reports an error. *)
Class ReliableWriter (W : Type) `{OrderedWriter W} := owr_reliable :
  forall w d k err w', owriter_ok w -> wr w d = Ret (k, err, w') -> failed err = false.

(** ** [string_reader] *)

Record string_reader := { view : list byte; idx : nat }.

Definition string_reader_read (r : string_reader) (n : nat) : outcome (list byte * error_condition * string_reader) :=
  if (idx r =? length (view r))%nat then Ret ([], no_error, r)
  else
    let amount := Nat.min (length (view r) - idx r) n in
    Ret (take amount (drop (idx r) (view r)), no_error, {| view := view r; idx := idx r + amount |}).

#[global] Instance string_reader_Reader : Reader string_reader := string_reader_read.

Definition string_stream (r : string_reader) : list byte := drop (idx r) (view r).

Lemma take_min {A} (l : list A) n : take (Nat.min (length l) n) l = take n l.
Proof.
  destruct (Nat.le_gt_cases (length l) n).
  - by rewrite Nat.min_l, !take_ge by lia.
  - by rewrite Nat.min_r by lia.
Qed.

Lemma drop_min {A} (l : list A) n : drop (Nat.min (length l) n) l = drop n l.
Proof.
  destruct (Nat.le_gt_cases (length l) n).
  - by rewrite Nat.min_l, !drop_ge by lia.
  - by rewrite Nat.min_r by lia.
Qed.

Lemma string_reader_full r n :
  (idx r <= length (view r))%nat ->
  exists r', string_reader_read r n = Ret (take n (string_stream r), no_error, r')
    /\ (idx r' <= length (view r'))%nat /\ string_stream r' = drop n (string_stream r).
Proof.
  intros Hr. unfold string_reader_read, string_stream. destruct (idx r =? length (view r))%nat eqn:E; reflect_bools.
  - exists r. rewrite (drop_ge (view r)), take_nil, drop_nil by lia. done.
  - eexists. rewrite <- length_drop, take_min. split; [done|]. cbn. split; [rewrite length_drop; lia|].
    by rewrite <- drop_drop, drop_min.
Qed.

(** A reader that delivers all it is asked for, while there is something. *)
Lemma full_reader_spec {R} (rd' : R -> nat -> outcome (list byte * error_condition * R)) st (ok : R -> Prop) :
  (forall r n, ok r -> exists r', rd' r n = Ret (take n (st r), no_error, r') /\ ok r' /\ st r' = drop n (st r)) ->
  forall r n, ok r -> exists got err r', rd' r n = Ret (got, err, r') /\ ok r'
      /\ st r = got ++ st r' /\ (length got <= n)%nat /\ ((0 < n)%nat -> st r <> [] -> got <> []).
Proof.
  intros Hfull r n Hok. destruct (Hfull r n Hok) as (r' & Hr & Hok' & Hst).
  exists (take n (st r)), no_error, r'. split_and!; try done.
  - by rewrite Hst, take_drop.
  - rewrite length_take. lia.
  - intros Hn Hne. destruct n; [lia|]. by destruct (st r).
Qed.

#[global] Instance string_reader_stream : StreamReader string_reader := {|
  stream := string_stream;
  reader_ok r := (idx r <= length (view r))%nat;
  rd_spec := full_reader_spec string_reader_read string_stream _ string_reader_full;
|}.

#[global] Instance string_reader_FullReader : FullReader string_reader := string_reader_full.

Definition string_reader_of (s : list byte) : string_reader := {| view := s; idx := 0 |}.

(** ** [limit_reader] *)

Record limit_reader (R : Type) := { parent : R; limit : nat; progress : nat }.
Arguments parent {R}.
Arguments limit {R}.
Arguments progress {R}.

Definition limit_reader_read {R} `{Reader R} (r : limit_reader R) (n : nat)
    : outcome (list byte * error_condition * limit_reader R) :=
  if (limit r <=? progress r)%nat then Ret ([], make_error_condition closed, r)
  else
    let read_amount := Nat.min n (limit r - progress r) in
    let* (got, err, p) := rd (parent r) read_amount in
    Ret (got, err, {| parent := p; limit := limit r; progress := progress r + length got |}).

#[global] Instance limit_reader_Reader {R} `{Reader R} : Reader (limit_reader R) := limit_reader_read.

Section LimitReader.
Context {R : Type} `{StreamReader R}.

Definition limit_stream (r : limit_reader R) : list byte := take (limit r - progress r) (stream (parent r)).

Lemma limit_reader_spec (r : limit_reader R) n :
  reader_ok (parent r) ->
  exists got err r', limit_reader_read r n = Ret (got, err, r') /\ reader_ok (parent r')
    /\ limit_stream r = got ++ limit_stream r' /\ (length got <= n)%nat
    /\ ((0 < n)%nat -> limit_stream r <> [] -> got <> []).
Proof.
  intros Hok. unfold limit_reader_read, limit_stream. destruct (limit r <=? progress r)%nat eqn:E; reflect_bools.
  - exists [], (make_error_condition closed), r. split_and!; try done; [simpl; lia|].
    replace (limit r - progress r)%nat with 0%nat by lia. by rewrite take_0.
  - destruct (rd_spec (parent r) (Nat.min n (limit r - progress r)) Hok) as (got & err & p & -> & Hp & Hs & Hl & Hne).
    rewrite bind_ret. do 3 eexists. split; [done|]. cbn. split_and!; [done| |lia|].
    + rewrite Hs, take_app_ge by lia. do 2 f_equal. lia.
    + intros Hn Hnil. apply Hne; [lia|]. intros Hnil'. apply Hnil. by rewrite Hnil', take_nil.
Qed.

#[global] Instance limit_reader_stream : StreamReader (limit_reader R) := {|
  stream := limit_stream;
  reader_ok r := reader_ok (parent r);
  rd_spec := limit_reader_spec;
|}.

(** It ends with an error, if its parent does. *)
#[global] Instance limit_reader_Eof `{!EofReader R} : EofReader (limit_reader R).
Proof.
  intros r n got err r' Hok Hs Hn. cbn in *. unfold rd, limit_reader_Reader, limit_reader_read.
  destruct (limit r <=? progress r)%nat eqn:E; reflect_bools; [by intros [= _ <- _]|].
  intros Hr. apply bind_Ret_inv in Hr as ([[g e] p] & Hr & [= <- <- <-]).
  eapply (rd_eof (parent r) _ g e p); [done| | |exact Hr]; [|lia].
  unfold limit_stream in Hs. destruct (limit r - progress r)%nat eqn:E'; [lia|]. by destruct (stream (parent r)).
Qed.
End LimitReader.

(** ** [string_writer] *)

Record string_writer := { parts : list (list byte) }.

Definition string_writer_write (w : string_writer) (d : list byte) : outcome (nat * error_condition * string_writer) :=
  Ret (length d, no_error, {| parts := parts w ++ [d] |}).

Definition string_writer_build (w : string_writer) : list byte := foldl app [] (parts w).
Definition string_writer_length (w : string_writer) : nat := foldl (fun t p => t + length p)%nat 0%nat (parts w).
Definition string_writer_reset (w : string_writer) : string_writer := {| parts := [] |}.

#[global] Instance string_writer_Writer : Writer string_writer := string_writer_write.

Lemma string_writer_spec (w : string_writer) (d : list byte) :
  True -> exists k err w', string_writer_write w d = Ret (k, err, w') /\ True
    /\ (k <= length d)%nat /\ string_writer_build w' = string_writer_build w ++ take k d
    /\ (failed err = false -> k = length d).
Proof.
  intros _. do 3 eexists. split; [done|]. split_and!; try done.
  unfold string_writer_build. cbn. by rewrite foldl_app, firstn_all.
Qed.

#[global] Instance string_writer_sink : SinkWriter string_writer := {|
  sink := string_writer_build;
  writer_ok _ := True;
  wr_spec := string_writer_spec;
|}.

#[global] Instance string_writer_reliable : ReliableWriter string_writer.
Proof. intros w d k err w' _ [= _ <- _]. done. Qed.

Definition string_writer_empty : string_writer := {| parts := [] |}.

(** ** [io::buffer]

    [write] never moves [write_at], so it stays zero. *)

Record buffer := { content : list byte; write_at : nat; read_at : nat }.

(** [content.resize(n)] *)
Definition resize (l : list byte) (n : nat) : list byte := take n l ++ replicate (n - length l) x00.

(** [std::copy(data, &l[i])] *)
Definition copy_at (l : list byte) (i : nat) (d : list byte) : outcome (list byte) :=
  if (i + length d <=? length l)%nat then Ret (take i l ++ d ++ drop (i + length d) l) else Undef.

Definition buffer_write (b : buffer) (d : list byte) : outcome (nat * error_condition * buffer) :=
  let c := if (length (content b) - write_at b <? length d)%nat
           then resize (content b) (length (content b) - write_at b + length d) else content b in
  let* c := copy_at c (write_at b) d in
  Ret (length d, no_error, {| content := c; write_at := write_at b; read_at := read_at b |}).

Definition buffer_read (b : buffer) (n : nat) : outcome (list byte * error_condition * buffer) :=
  let read_amount := Nat.min n (length (content b) - read_at b) in
  let got := take read_amount (drop (read_at b) (content b)) in
  let at_ := (read_at b + read_amount)%nat in
  Ret (got, if (length (content b) <=? at_)%nat then make_error_condition closed else no_error,
       {| content := content b; write_at := write_at b; read_at := at_ |}).

Definition buffer_to_string (b : buffer) : list byte := content b.

Definition buffer_empty : buffer := {| content := []; write_at := 0; read_at := 0 |}.

#[global] Instance buffer_Reader : Reader buffer := buffer_read.
#[global] Instance buffer_Writer : Writer buffer := buffer_write.

Lemma buffer_read_spec (b : buffer) n :
  (read_at b <= length (content b))%nat ->
  exists got err b', buffer_read b n = Ret (got, err, b') /\ (read_at b' <= length (content b'))%nat
    /\ drop (read_at b) (content b) = got ++ drop (read_at b') (content b') /\ (length got <= n)%nat
    /\ ((0 < n)%nat -> drop (read_at b) (content b) <> [] -> got <> []).
Proof.
  intros Hb. unfold buffer_read. do 3 eexists. split; [done|]. cbn.
  rewrite Nat.min_comm, <- length_drop, take_min, <- drop_drop, drop_min, take_drop.
  split_and!; [rewrite length_drop; lia|done|rewrite length_take; lia|].
  intros Hn Hne. destruct n; [lia|]. by destruct (drop _ _).
Qed.

#[global] Instance buffer_stream : StreamReader buffer := {|
  stream b := drop (read_at b) (content b);
  reader_ok b := (read_at b <= length (content b))%nat;
  rd_spec := buffer_read_spec;
|}.

#[global] Instance buffer_Eof : EofReader buffer.
Proof.
  intros b n got err b' Hok Hs Hn. cbn in *. unfold rd, buffer_Reader, buffer_read. intros [= _ <- _].
  apply (f_equal length) in Hs. rewrite length_drop in Hs. simpl in Hs.
  by rewrite (proj2 (Nat.leb_le _ _)) by lia.
Qed.

(** ** [write_all] (writer.hpp): the writes in order, up to the first error. *)

Fixpoint write_all {W} `{Writer W} (w : W) (writes : list (list byte)) : outcome (nat * error_condition * W) :=
  match writes with
  | [] => Ret (0%nat, no_error, w)
  | d :: writes =>
      let* (k, err, w) := wr w d in
      if failed err then Ret (k, err, w)
      else
        let* (k', err', w) := write_all w writes in
        Ret ((k + k')%nat, err', w)
  end.

Lemma write_all_spec {W} `{OrderedWriter W} (w : W) writes :
  owriter_ok w ->
  exists k err w' j, write_all w writes = Ret (k, err, w') /\ owriter_ok w'
    /\ (j <= length (concat writes))%nat /\ osink w' = osink w ++ take j (concat writes)
    /\ (failed err = false -> k = length (concat writes) /\ j = length (concat writes)).
Proof.
  revert w. induction writes as [|d writes IH]; intros w Hok; cbn [write_all concat].
  - exists 0%nat, no_error, w, 0%nat. rewrite take_nil, app_nil_r. done.
  - destruct (owr_spec w d Hok) as (k & err & w1 & j & -> & Hok1 & Hj & Hs & Hf). rewrite bind_ret.
    destruct (failed err) eqn:E.
    + exists k, err, w1, j. rewrite take_app_le by lia. rewrite length_app.
      split_and!; try done; [lia|]. congruence.
    + destruct (IH w1 Hok1) as (k' & err' & w2 & j' & -> & Hok2 & Hj2 & Hs2 & Hf2). rewrite bind_ret.
      destruct (Hf eq_refl) as [-> ->]. exists (length d + k')%nat, err', w2, (length d + j')%nat. rewrite length_app.
      split_and!; try done; [lia| |intros Hn; destruct (Hf2 Hn); lia].
      rewrite Hs2, Hs, take_app_add, firstn_all, <- app_assoc. done.
Qed.

Lemma write_all_reliable {W} `{ReliableWriter W} writes (w : W) k err w' :
  owriter_ok w -> write_all w writes = Ret (k, err, w') -> failed err = false.
Proof.
  revert w k. induction writes as [|d writes IH]; intros w k Hok; cbn [write_all]; [by intros [= _ <- _]|].
  destruct (owr_spec w d Hok) as (k1 & e & w1 & j & Hw & Hok1 & _). rewrite Hw, bind_ret.
  rewrite (owr_reliable w d k1 e w1 Hok Hw). destruct (write_all w1 writes) as [[[k2 e2] w2]|?| | |] eqn:E; try done.
  cbn [obind]. intros [= _ <- <-]. by eapply IH.
Qed.

(** ** Properties *)

(** A sequence of reads of the given sizes, whatever errors they report. *)
Fixpoint reads {R} `{Reader R} (r : R) (sizes : list nat) : outcome (list byte * R) :=
  match sizes with
  | [] => Ret ([], r)
  | n :: sizes =>
      let* (got, _, r) := rd r n in
      let* (more, r) := reads r sizes in
      Ret (got ++ more, r)
  end.

Lemma reads_spec {R} `{StreamReader R} (r : R) sizes :
  reader_ok r -> exists got r', reads r sizes = Ret (got, r') /\ reader_ok r' /\ stream r = got ++ stream r'.
Proof.
  revert r. induction sizes as [|n sizes IH]; intros r Hok; cbn [reads].
  - exists [], r. done.
  - destruct (rd_spec r n Hok) as (got & err & r1 & -> & Hok1 & Hs & _). rewrite bind_ret.
    destruct (IH r1 Hok1) as (more & r2 & -> & Hok2 & Hs2). rewrite bind_ret.
    exists (got ++ more), r2. split_and!; try done. by rewrite Hs, Hs2, app_assoc.
Qed.

(** C21: reading any number of times, with any sizes, through a limit reader
    over any reader that delivers a stream, gives a prefix of the stream that
    is never longer than the limit. *)
Theorem limit_reader_bounded {R} `{StreamReader R} (p : R) n sizes :
  reader_ok p ->
  exists got r', reads {| parent := p; limit := n; progress := 0 |} sizes = Ret (got, r')
    /\ got `prefix_of` stream p /\ (length got <= n)%nat.
Proof.
  intros Hok. destruct (reads_spec {| parent := p; limit := n; progress := 0 |} sizes) as (got & r' & Hr & _ & Hs);
    [exact Hok|].
  exists got, r'. split; [done|]. cbn in Hs. unfold limit_stream in Hs. cbn in Hs. rewrite Nat.sub_0_r in Hs. split.
  - rewrite <- (take_drop n (stream p)), Hs, <- app_assoc. by apply prefix_app_r.
  - apply (f_equal length) in Hs. rewrite length_take, length_app in Hs. lia.
Qed.

Lemma limit_reader_bounded_witness :
  exists got r', reads {| parent := string_reader_of (lit "foobar"); limit := 4; progress := 0 |} [3; 2; 5]%nat = Ret (got, r')
    /\ got `prefix_of` stream (string_reader_of (lit "foobar")) /\ (length got <= 4)%nat.
Proof. apply (limit_reader_bounded (string_reader_of (lit "foobar")) 4 [3; 2; 5]%nat). simpl. lia. Defined.

(** The condition categories agree with each other: a code that means
    [closed] does not mean [timed_out], and both mean [error]; the code zero
    means none of them. *)
Lemma status_equivalence code :
  (equivalent code (status_value closed) = true -> equivalent code (status_value timed_out) = false
     /\ equivalent code (status_value error) = true)
  /\ (equivalent code (status_value timed_out) = true -> equivalent code (status_value error) = true)
  /\ (forall s, equivalent 0 (status_value s) = false).
Proof.
  unfold equivalent. cbn [status_value Z.eqb Pos.eqb]. split_and!.
  - intros H. apply existsb_exists in H as (x & Hx & He). reflect_bools. subst code.
    split.
    + apply not_true_iff_false. intros H'. apply existsb_exists in H' as (y & Hy & He). reflect_bools. subst y.
      revert x Hx Hy. vm_compute. lia.
    + apply negb_true_iff, Z.eqb_neq. intros ->. revert Hx. vm_compute. lia.
  - intros H. apply existsb_exists in H as (x & Hx & He). reflect_bools. subst code.
    apply negb_true_iff, Z.eqb_neq. intros ->. revert Hx. vm_compute. lia.
  - intros []; reflexivity.
Qed.

Lemma status_equivalence_witness : equivalent 104 (status_value closed) = false /\ equivalent 32 (status_value error) = true.
Proof. split; [reflexivity|]. apply (proj1 (status_equivalence 32)). reflexivity. Defined.

(** [io::buffer] keeps only its last write: the second write starts at the
    beginning again, and a longer one leaves zero bytes behind it. *)
Lemma buffer_writes_overlap :
  (let* (_, _, b) := buffer_write buffer_empty (lit "foo") in
   let* (_, _, b) := buffer_write b (lit "ba") in Ret (buffer_to_string b)) = Ret (lit "bao")
  /\ (let* (_, _, b) := buffer_write buffer_empty (lit "foo") in
      let* (_, _, b) := buffer_write b (lit "quux") in Ret (buffer_to_string b)) = Ret (lit "quux" ++ [x00; x00; x00]).
Proof. split; reflexivity. Qed.
