(* ===== verification/BufferedReader.v ===== *)
(** * The buffered reader and [readline] (src/io/buffered_reader.cpp, src/io/util.cpp)

    The buffer is a vector whose capacity stays what the constructor reserved.
    Where [read] moves the rest of the buffer to its front it calls
    [std::copy_backward] on ranges that may overlap the wrong way round, which
    the standard does not allow; for bytes the standard libraries do it with
    [memmove], and so does the model ([drop]).

    [read] asks its reader again and again while more than a buffer's worth is
    missing; over a reader that reports no error at its end this does not end.
    The theorems therefore ask for an [EofReader], or for a request that the
    stream can nearly satisfy. *)

From Stdlib Require Import ZArith Strings.Byte Lia String.
From stdpp Require Import prelude list.
From S2P Require Import Prelude CxxStrings Io.

(** ** Definitions *)

Record buffered_reader (R : Type) := { impl : R; buf : list byte; cap : nat; err : error_condition }.
Arguments impl {R}.
Arguments buf {R}.
Arguments cap {R}.
Arguments err {R}.

Definition make {R} (impl : R) (bufsize : nat) : buffered_reader R :=
  {| impl := impl; buf := []; cap := bufsize; err := no_error |}.

Definition set_buf {R} (r : buffered_reader R) (b : list byte) : buffered_reader R :=
  {| impl := impl r; buf := b; cap := cap r; err := err r |}.

Definition fill {R} `{Reader R} (r : buffered_reader R) : outcome (buffered_reader R) :=
  if (length (buf r) =? cap r)%nat then Ret r
  else
    let read_more := (cap r - length (buf r))%nat in
    let* (got, e, i) := rd (impl r) read_more in
    Ret {| impl := i; buf := buf r ++ got; cap := cap r; err := e |}.

(** The loop that reads straight into the caller's span while more than
    [capacity] bytes ([need] of them) are missing. *)
Fixpoint read_direct {R} `{Reader R} (fuel : nat) (i : R) (capacity need : nat)
    : outcome (list byte * error_condition * R) :=
  match fuel with
  | O => OutOfFuel
  | S fuel =>
      if (capacity <? need)%nat then
        let* (got, e, i) := rd i capacity in
        if failed e then Ret (got, e, i)
        else
          let* (more, e, i) := read_direct fuel i capacity (need - length got) in
          Ret (got ++ more, e, i)
      else Ret ([], no_error, i)
  end.

Definition read {R} `{Reader R} (r : buffered_reader R) (n : nat)
    : outcome (list byte * error_condition * buffered_reader R) :=
  if (n =? 0)%nat then Ret ([], no_error, r)
  else if (n <=? length (buf r))%nat then
    Ret (take n (buf r), no_error, set_buf r (drop n (buf r)))
  else
    let first := buf r in
    let r := set_buf r [] in
    let* (got, e, i) := read_direct (S n) (impl r) (cap r) (n - length first) in
    let r := {| impl := i; buf := []; cap := cap r; err := err r |} in
    let total := first ++ got in
    if failed e then Ret (total, e, r)
    else
      let leftover := (n - length total)%nat in
      if (0 <? leftover)%nat then
        let* r := fill r in
        let available := Nat.min leftover (length (buf r)) in
        let total := total ++ take available (buf r) in
        let r := set_buf r (drop available (buf r)) in
        if (available <? leftover)%nat then Ret (total, err r, r) else Ret (total, no_error, r)
      else Ret (total, no_error, r).

Definition peek {R} `{Reader R} (r : buffered_reader R) : outcome (byte * bool * buffered_reader R) :=
  match buf r with
  | c :: _ => Ret (c, true, r)
  | [] =>
      let* r := fill r in
      match buf r with
      | [] => Ret (x00, false, r)
      | c :: _ => Ret (c, true, r)
      end
  end.

(** [std::search]: the position of the first occurrence, or the length. *)
Fixpoint search (l delim : list byte) : nat :=
  if starts_with l delim then 0
  else match l with [] => 0 | _ :: l => S (search l delim) end.

Record read_until_result := { data : list byte; is_prefix : bool; until_err : error_condition }.

Definition read_until {R} (r : buffered_reader R) (delim : list byte) : read_until_result :=
  let i := search (buf r) delim in
  if negb (i =? length (buf r))%nat
  then {| data := take i (buf r); is_prefix := false; until_err := err r |}
  else {| data := buf r; is_prefix := true; until_err := no_error |}.

(** [reset(other)] with [other] not null, and [reset()]; [reset(nullptr)]
    clears the error too, and keeps the reader. *)
Definition reset_to {R} (r : buffered_reader R) (other : option R) : buffered_reader R :=
  {| impl := default (impl r) other; buf := []; cap := cap r; err := no_error |}.
Definition reset {R} (r : buffered_reader R) : buffered_reader R := set_buf r [].
Definition size {R} (r : buffered_reader R) : nat := length (buf r).
Definition get_error {R} (r : buffered_reader R) : error_condition := err r.

#[global] Instance buffered_reader_Reader {R} `{Reader R} : Reader (buffered_reader R) := read.

(** [readline]: the loop, from the line read so far. *)
Fixpoint readline_loop {R} `{Reader R} (fuel : nat) (r : buffered_reader R) (end_of_line line : list byte)
    : outcome (error_condition * list byte * buffered_reader R) :=
  match fuel with
  | O => OutOfFuel
  | S fuel =>
      if ends_with line end_of_line then Ret (no_error, line, r)
      else
        let* (next, have_next, r) := peek r in
        if negb have_next then Ret (no_error, line, r)
        else
          let* (got, e, r) := read r 1 in
          if failed e then Ret (e, line, r)
          else
            match got with
            | [] => Ret (make_error_condition closed, line, r)
            | c :: _ => readline_loop fuel r end_of_line (line ++ [c])
            end
  end.

(** A line, or an error.  The fuel bounds the number of bytes read: it is the
    caller's to choose, see [readline_reads]. *)
Definition readline {R} `{Reader R} (fuel : nat) (r : buffered_reader R) (end_of_line : list byte)
    : outcome ((list byte + error_condition) * buffered_reader R) :=
  let* (e, line, r) := readline_loop fuel r end_of_line [] in
  if failed e then Ret (inr e, r)
  else if ends_with line end_of_line
  then Ret (inl (take (length line - length end_of_line) line), r)
  else Ret (inl line, r).

Definition crlf : list byte := [x0d; x0a].

(** ** Reading *)

Section Spec.
Context {R : Type} `{StreamReader R}.

Definition buffered_ok (r : buffered_reader R) : Prop :=
  reader_ok (impl r) /\ (0 < cap r)%nat /\ (length (buf r) <= cap r)%nat.

Definition buffered_stream (r : buffered_reader R) : list byte := buf r ++ stream (impl r).

(** The reader reports an error when it is read at its end. *)
Definition ends_with_error : Prop := forall r n got err r',
  reader_ok (R := R) r -> stream r = [] -> (0 < n)%nat -> rd r n = Ret (got, err, r') -> failed err = true.

Lemma read_direct_spec fuel (i : R) c need :
  reader_ok i -> (0 < c)%nat -> (need < fuel)%nat -> (ends_with_error \/ (need <= c + length (stream i))%nat) ->
  exists got e i', read_direct fuel i c need = Ret (got, e, i') /\ reader_ok i'
    /\ stream i = got ++ stream i' /\ (length got <= need)%nat
    /\ (failed e = false -> (need - length got <= c)%nat)
    /\ (failed e = true -> (c < need)%nat)
    /\ ((c < need)%nat -> stream i <> [] -> got <> []).
Proof.
  intros Hok Hc. revert i need Hok. induction fuel as [|fuel IH]; intros i need Hok Hf Heof; [lia|]. cbn [read_direct].
  destruct (c <? need)%nat eqn:E; reflect_bools.
  2: { exists [], no_error, i. simpl. split_and!; (done || lia). }
  destruct (rd_spec i c Hok) as (got & e & i1 & Hr & Hok1 & Hs & Hl & Hne). rewrite Hr, bind_ret.
  destruct (failed e) eqn:Ee.
  { exists got, e, i1. split_and!; try done; try lia; [congruence|]. intros _ Hnil. apply Hne; done. }
  assert (stream i <> []) as Hnil.
  { intros Hnil. destruct Heof as [Heof|Hle]; [|rewrite Hnil in Hle; simpl in Hle; lia].
    rewrite (Heof i c got e i1 Hok Hnil Hc Hr) in Ee. done. }
  specialize (Hne Hc Hnil). assert (0 < length got)%nat as Hg by (destruct got; [done|simpl; lia]).
  destruct (IH i1 (need - length got)%nat Hok1) as (more & e' & i2 & -> & Hok2 & Hs2 & Hl2 & He2 & _ & _); [lia| |].
  { destruct Heof as [Heof|Hle]; [by left|right]. rewrite Hs, length_app in Hle. lia. }
  rewrite bind_ret. exists (got ++ more), e', i2. rewrite length_app. split_and!; try done.
  - by rewrite Hs, Hs2, app_assoc.
  - lia.
  - intros Hfe. specialize (He2 Hfe). lia.
  - intros _ _ Habs. apply app_eq_nil in Habs as [? _]. done.
Qed.

Lemma fill_spec (r : buffered_reader R) :
  buffered_ok r ->
  exists r', fill r = Ret r' /\ buffered_ok r' /\ cap r' = cap r /\ buffered_stream r' = buffered_stream r
    /\ (buffered_stream r <> [] -> buf r' <> []).
Proof.
  intros (Hok & Hc & Hb). unfold fill. destruct (length (buf r) =? cap r)%nat eqn:E; reflect_bools.
  - exists r. split_and!; try done. intros _ Hnil. rewrite Hnil in E. simpl in E. lia.
  - destruct (rd_spec (impl r) (cap r - length (buf r)) Hok) as (got & e & i & -> & Hok1 & Hs & Hl & Hne). rewrite bind_ret.
    eexists. split; [done|]. unfold buffered_stream. cbn. split_and!; [split_and!; cbn; [done|done|solve_length]|done| |].
    + by rewrite Hs, app_assoc.
    + intros Hnil Habs. apply app_eq_nil in Habs as [Hbn Hgn]. rewrite Hbn in *. simpl in *.
      by apply Hne; [lia| |].
Qed.

Lemma read_spec (r : buffered_reader R) n :
  buffered_ok r -> (ends_with_error \/ (n <= cap r + length (buffered_stream r))%nat) ->
  exists got e r', read r n = Ret (got, e, r') /\ buffered_ok r' /\ cap r' = cap r
    /\ buffered_stream r = got ++ buffered_stream r' /\ (length got <= n)%nat
    /\ ((0 < n)%nat -> buffered_stream r <> [] -> got <> []).
Proof.
  intros Hbok Heof. pose proof Hbok as (Hok & Hc & Hb). unfold read.
  destruct (n =? 0)%nat eqn:E0; reflect_bools.
  { exists [], no_error, r. split_and!; simpl; (done || lia). }
  destruct (n <=? length (buf r))%nat eqn:E1; reflect_bools.
  { do 3 eexists. split; [done|]. unfold buffered_stream. cbn. split_and!; [split_and!; cbn; [done|done|solve_length]|done| |solve_length|].
    - by rewrite app_assoc, take_drop.
    - intros _ _. destruct n; [lia|]. by destruct (buf r); [simpl in E1; lia|]. }
  cbn [set_buf impl cap buf err]. unfold buffered_stream in Heof. rewrite length_app in Heof.
  destruct (read_direct_spec (S n) (impl r) (cap r) (n - length (buf r)) Hok Hc)
    as (got & e & i & -> & Hok1 & Hs & Hl & Hfe & Hte & Hne); [lia|destruct Heof as [?|?]; [by left|right; lia]|]. rewrite bind_ret.
  assert (buffered_stream r = (buf r ++ got) ++ stream i) as Hst by (unfold buffered_stream; by rewrite Hs, app_assoc).
  assert (length (buf r ++ got) <= n)%nat as Hlen by solve_length.
  destruct (failed e) eqn:Ee.
  { do 3 eexists. split; [done|]. split_and!; [split_and!; cbn; [done|done|lia]|done|done|done|].
    intros _ Hnil Habs. apply app_eq_nil in Habs as [Hbn Hgn]. apply (Hne (Hte eq_refl)); [|done].
    intros Hsi. apply Hnil. unfold buffered_stream. by rewrite Hbn, Hsi. }
  specialize (Hfe eq_refl). set (total := buf r ++ got) in *.
  destruct (0 <? n - length total)%nat eqn:E2; reflect_bools.
  2: { do 3 eexists. split; [done|]. split_and!; [split_and!; cbn; [done|done|lia]|done|done|done|].
       intros _ _ Habs. rewrite Habs in E2. simpl in E2. lia. }
  destruct (fill_spec {| impl := i; buf := []; cap := cap r; err := err r |}) as (r1 & -> & Hok2 & Hcap & Hs2 & Hne2);
    [split_and!; cbn; [done|done|lia]|]. rewrite bind_ret. unfold buffered_stream in Hs2 at 2. cbn in Hs2.
  set (available := Nat.min _ _).
  assert (buffered_stream r = (total ++ take available (buf r1)) ++ buffered_stream (set_buf r1 (drop available (buf r1)))) as Hfin.
  { rewrite Hst, <- Hs2. unfold buffered_stream. cbn. rewrite <- app_assoc. f_equal. by rewrite app_assoc, take_drop. }
  assert (buffered_ok (set_buf r1 (drop available (buf r1)))) as Hok3.
  { destruct Hok2 as (? & ? & ?). split_and!; cbn; [done|done|rewrite length_drop; lia]. }
  assert (length (total ++ take available (buf r1)) <= n)%nat as Hlen2.
  { rewrite length_app, length_take. subst available. lia. }
  assert (buffered_stream r <> [] -> total ++ take available (buf r1) <> []) as Hne3.
  { intros Hnil Habs. apply app_eq_nil in Habs as [Ht Hav]. rewrite Hst, Ht in Hnil. simpl in Hnil.
    assert (buf r1 <> []) as Hb1 by (apply Hne2; unfold buffered_stream; simpl; done).
    apply (f_equal length) in Hav. rewrite length_take in Hav. subst available. simpl in Hav.
    destruct (buf r1); [done|]. simpl in Hav. lia. }
  destruct (available <? n - length total)%nat; do 3 eexists; (split; [done|]); split_and!; try done; cbn; congruence.
Qed.
End Spec.

(** Over a reader that reports the end, a buffered reader is a reader of the same stream. *)
#[global] Instance buffered_reader_stream {R} `{StreamReader R} `{!EofReader R} : StreamReader (buffered_reader R).
Proof.
  refine {| stream := buffered_stream; reader_ok := buffered_ok |}.
  intros r n Hok. destruct (read_spec r n Hok) as (got & e & r' & Hr & Hok' & _ & Hs & Hl & Hne); [left; exact rd_eof|].
  exists got, e, r'. done.
Defined.

(** It too reports the end. *)
#[global] Instance buffered_reader_Eof {R} `{StreamReader R} `{!EofReader R} : EofReader (buffered_reader R).
Proof.
  intros r n got e r' (Hok & Hc & Hb) Hs Hn. cbn in Hs. unfold buffered_stream in Hs.
  apply app_eq_nil in Hs as [Hbn Hsn]. unfold rd, buffered_reader_Reader, read. rewrite Hbn.
  rewrite (proj2 (Nat.eqb_neq _ _)) by lia. cbn [length set_buf impl cap buf app err].
  rewrite (proj2 (Nat.leb_gt _ _)) by lia. rewrite Nat.sub_0_r. cbn [read_direct].
  destruct (cap r <? n)%nat eqn:E; reflect_bools.
  - destruct (rd_spec (impl r) (cap r) Hok) as (g & e1 & i & Hr & _). rewrite Hr, bind_ret.
    pose proof (rd_eof (impl r) (cap r) g e1 i Hok Hsn Hc Hr) as He. rewrite He. cbn [obind]. rewrite He.
    intros [= _ <- _]. done.
  - cbn [obind failed]. rewrite Nat.sub_0_r, (proj2 (Nat.ltb_lt _ _)) by lia.
    unfold fill. cbn [buf length cap impl]. rewrite (proj2 (Nat.eqb_neq _ _)) by lia. rewrite Nat.sub_0_r.
    destruct (rd_spec (impl r) (cap r) Hok) as (g & e1 & i & Hr & _ & Hs1 & _). rewrite Hr, !bind_ret.
    pose proof (rd_eof (impl r) (cap r) g e1 i Hok Hsn Hc Hr) as He.
    assert (g = []) as -> by (rewrite Hsn in Hs1; by destruct g). cbn [buf app length].
    rewrite Nat.min_0_r, (proj2 (Nat.ltb_lt _ _)) by lia. intros [= _ <- _]. done.
Qed.

(** ** Lines *)

Section Lines.
Context {R : Type} `{StreamReader R}.

Lemma peek_spec (r : buffered_reader R) :
  buffered_ok r ->
  exists c have r', peek r = Ret (c, have, r') /\ buffered_ok r' /\ buffered_stream r' = buffered_stream r
    /\ match buffered_stream r with
       | [] => have = false
       | c' :: _ => have = true /\ c = c' /\ buf r' <> []
       end.
Proof.
  intros Hok. unfold peek. destruct (buf r) as [|c b] eqn:E.
  - destruct (fill_spec r Hok) as (r1 & -> & Hok1 & _ & Hs & Hne). rewrite bind_ret.
    destruct (buf r1) as [|c b] eqn:E1.
    + exists x00, false, r1. split_and!; try done. destruct (buffered_stream r) as [|c s]; [done|].
      by specialize (Hne ltac:(done)).
    + exists c, true, r1. split_and!; try done. rewrite <- Hs. unfold buffered_stream. rewrite E1. done.
  - exists c, true, r. split_and!; try done. unfold buffered_stream. rewrite E. done.
Qed.

Lemma read_one (r : buffered_reader R) c b :
  buf r = c :: b -> read r 1 = Ret ([c], no_error, set_buf r b).
Proof.
  intros E. unfold read. rewrite E. cbn [Nat.eqb length Nat.leb]. done.
Qed.

(** The shortest prefix that ends with [eol], after [line], and what follows it. *)
Fixpoint cut_line (eol line s : list byte) : list byte * list byte :=
  if ends_with line eol then (line, s)
  else match s with [] => (line, []) | c :: s => cut_line eol (line ++ [c]) s end.

(** The reader after [s] has been read from it as [readline] reads: a
    character at a time, each seen by [peek] before it is taken, so that the
    source is asked for more only when the buffer is empty and a character is
    still to come. *)
Inductive char_reads : buffered_reader R -> list byte -> buffered_reader R -> Prop :=
| char_reads_nil r : char_reads r [] r
| char_reads_cons r r1 c b s r' :
    buffered_ok r -> buffered_stream r <> [] -> peek r = Ret (c, true, r1) -> buf r1 = c :: b ->
    char_reads (set_buf r1 b) s r' -> char_reads r (c :: s) r'.

Lemma char_reads_app r1 s1 r2 s2 r3 : char_reads r1 s1 r2 -> char_reads r2 s2 r3 -> char_reads r1 (s1 ++ s2) r3.
Proof using. induction 1; [done|]. intros Hnext. cbn [app]. econstructor; eauto. Qed.

Lemma readline_loop_spec fuel (r : buffered_reader R) eol line :
  buffered_ok r -> (length (buffered_stream r) < fuel)%nat ->
  exists r', readline_loop fuel r eol line = Ret (no_error, (cut_line eol line (buffered_stream r)).1, r')
    /\ buffered_ok r' /\ buffered_stream r' = (cut_line eol line (buffered_stream r)).2
    /\ (ends_with (cut_line eol line (buffered_stream r)).1 eol = true ->
        exists s, (cut_line eol line (buffered_stream r)).1 = line ++ s /\ char_reads r s r').
Proof.
  revert r line. induction fuel as [|fuel IH]; intros r line Hok Hf; [lia|]. cbn [readline_loop].
  destruct (ends_with line eol) eqn:E.
  { exists r. assert (exists s, line = line ++ s /\ char_reads r s r) by (exists []; rewrite app_nil_r; split; [done|constructor]).
    destruct (buffered_stream r); cbn [cut_line]; by rewrite E. }
  destruct (peek_spec r Hok) as (c & have & r1 & Hpeek & Hok1 & Hs1 & Hm). rewrite Hpeek, bind_ret.
  destruct (buffered_stream r) as [|c' s] eqn:Es; cbn [cut_line]; rewrite E.
  { subst have. exists r1. split_and!; try done. cbn [fst]. congruence. }
  destruct Hm as (-> & -> & Hb). cbn [negb]. destruct (buf r1) as [|d b] eqn:Eb; [done|].
  rewrite (read_one r1 d b Eb), bind_ret. cbn [failed].
  assert (buffered_stream r1 = d :: b ++ stream (impl r1)) as Hst by (unfold buffered_stream; by rewrite Eb).
  rewrite Hs1 in Hst. injection Hst as -> ->.
  destruct Hok1 as (H1 & H2 & H3). rewrite Eb in H3. cbn [length] in H3.
  destruct (IH (set_buf r1 b) (line ++ [d])) as (r' & Hrl & Hok' & Hs' & Hc);
    [split_and!; cbn; [done|done|lia]|unfold buffered_stream; cbn in *; lia|].
  exists r'. split_and!; try done. intros He. destruct (Hc He) as (s & Heq & Hcr). exists (d :: s).
  split; [etrans; [exact Heq|by rewrite <- app_assoc]|]. econstructor; try done. by rewrite Es.
Qed.

(** [line] runs up to the first [eol] of [s], or is all of it. *)
Definition first_line (eol s line rest : list byte) : Prop :=
  (forall k, (k < length line + length eol)%nat -> ends_with (take k (line ++ eol)) eol = false)
  /\ s = line ++ eol ++ rest.

Definition only_line (eol s : list byte) : Prop := forall k, ends_with (take k s) eol = false.

Lemma cut_line_spec eol s line :
  (forall k, (k < length line)%nat -> ends_with (take k line) eol = false) ->
  let (l, rest) := cut_line eol line s in
  (ends_with l eol = true /\ line ++ s = l ++ rest /\ (forall k, (k < length l)%nat -> ends_with (take k l) eol = false))
  \/ (l = line ++ s /\ rest = [] /\ forall k, ends_with (take k l) eol = false).
Proof.
  revert line. induction s as [|c s IH]; intros line Hk; cbn [cut_line]; destruct (ends_with line eol) eqn:E.
  - left. done.
  - right. rewrite app_nil_r. split_and!; try done. intros k.
    destruct (Nat.lt_ge_cases k (length line)); [by apply Hk|by rewrite take_ge].
  - left. done.
  - specialize (IH (line ++ [c])). destruct (cut_line eol (line ++ [c]) s) as [l rest].
    destruct IH as [(H1 & H2 & H3)|(H1 & H2 & H3)].
    + intros k Hlt. rewrite length_app in Hlt. simpl in Hlt. rewrite take_app_le by lia.
      destruct (Nat.lt_ge_cases k (length line)); [by apply Hk|by rewrite take_ge].
    + left. rewrite <- app_assoc in H2. done.
    + right. rewrite <- app_assoc in H1. done.
Qed.

Lemma readline_spec fuel (r : buffered_reader R) eol :
  buffered_ok r -> (length (buffered_stream r) < fuel)%nat ->
  exists line r', readline fuel r eol = Ret (inl line, r') /\ buffered_ok r'
    /\ (first_line eol (buffered_stream r) line (buffered_stream r')
        \/ (line = buffered_stream r /\ buffered_stream r' = [] /\ only_line eol line)).
Proof.
  intros Hok Hf. unfold readline.
  destruct (readline_loop_spec fuel r eol [] Hok Hf) as (r' & -> & Hok' & Hs' & _). rewrite bind_ret. cbn [failed].
  pose proof (cut_line_spec eol (buffered_stream r) [] ltac:(simpl; lia)) as Hcut.
  destruct (cut_line eol [] (buffered_stream r)) as [l rest]. cbn [fst snd] in *. subst rest.
  destruct Hcut as [(H1 & H2 & H3)|(H1 & H2 & H3)].
  - rewrite H1. apply ends_with_spec in H1 as [p Hp]. rewrite Hp in *.
    replace (length (p ++ eol) - length eol)%nat with (length p) by (rewrite length_app; lia). rewrite take_app_length.
    exists p, r'. split_and!; try done. left. split; [|by rewrite app_assoc]. intros k Hk. apply H3. by rewrite length_app.
  - pose proof (H3 (length l)) as Hl. rewrite firstn_all in Hl. rewrite Hl. exists l, r'. split_and!; try done. right.
    split_and!; done.
Qed.

Lemma no_lf_no_crlf line : x0a ∉ line -> ends_with line crlf = false.
Proof using.
  intros Hn. apply not_true_iff_false. intros (p & ->)%ends_with_spec. apply Hn. apply elem_of_app. right.
  right. by left.
Qed.

Lemma cut_line_crlf line l rest :
  x0a ∉ line -> x0a ∉ l -> cut_line crlf line (l ++ crlf ++ rest) = (line ++ l ++ crlf, rest).
Proof using.
  revert line. induction l as [|c l IH]; intros line Hn Hl; cbn [app].
  - unfold crlf at 2. cbn [app cut_line]. rewrite no_lf_no_crlf by done.
    rewrite no_lf_no_crlf by (rewrite elem_of_app, list_elem_of_singleton; naive_solver).
    rewrite <- app_assoc. cbn [app]. fold crlf. destruct rest; cbn [cut_line]; by rewrite ends_with_app.
  - cbn [cut_line]. rewrite no_lf_no_crlf by done. apply not_elem_of_cons in Hl as [Hc Hl].
    rewrite IH; [by rewrite <- app_assoc| |done]. rewrite elem_of_app, list_elem_of_singleton. naive_solver.
Qed.

(** A line without ['\n'] inside, up to its CRLF. *)
Lemma readline_crlf_line fuel (r : buffered_reader R) l rest :
  buffered_ok r -> (length (buffered_stream r) < fuel)%nat -> x0a ∉ l -> buffered_stream r = l ++ crlf ++ rest ->
  exists r', readline fuel r crlf = Ret (inl l, r') /\ buffered_ok r' /\ buffered_stream r' = rest
    /\ char_reads r (l ++ crlf) r'.
Proof.
  intros Hok Hf Hl Hs. unfold readline.
  destruct (readline_loop_spec fuel r crlf [] Hok Hf) as (r' & -> & Hok' & Hs' & Hc). rewrite bind_ret. cbn [failed].
  rewrite Hs, cut_line_crlf in * by (done || apply not_elem_of_nil). cbn [fst snd app] in *.
  rewrite ends_with_app in *. destruct (Hc eq_refl) as (s & <- & Hcr). exists r'. split_and!; try done. do 3 f_equal.
  replace (length (l ++ crlf) - length crlf)%nat with (length l) by (rewrite length_app; lia). apply take_app_length.
Qed.

(** The end of the stream reads as an empty line. *)
Lemma readline_at_end fuel (r : buffered_reader R) :
  buffered_ok r -> (0 < fuel)%nat -> buffered_stream r = [] ->
  exists r', readline fuel r crlf = Ret (inl [], r') /\ buffered_ok r' /\ buffered_stream r' = [].
Proof.
  intros Hok Hf Hs. unfold readline.
  destruct (readline_loop_spec fuel r crlf [] Hok) as (r' & -> & Hok' & Hs' & _); [rewrite Hs; done|].
  rewrite bind_ret. rewrite Hs in *. exists r'. done.
Qed.

(** [readline] called [n] times. *)
Fixpoint readlines (fuel n : nat) (r : buffered_reader R) : outcome (list (list byte + error_condition) * buffered_reader R) :=
  match n with
  | O => Ret ([], r)
  | S n =>
      let* (l, r) := readline fuel r crlf in
      let* (ls, r) := readlines fuel n r in
      Ret (l :: ls, r)
  end.

(** A full reader behind the buffer gives exactly what is asked for. *)
Lemma read_full `{!FullReader R} (r : buffered_reader R) n :
  buffered_ok r -> (n <= cap r + length (buf r))%nat ->
  exists r', read r n = Ret (take n (buffered_stream r), no_error, r') /\ buffered_ok r' /\ cap r' = cap r
    /\ buffered_stream r' = drop n (buffered_stream r).
Proof.
  intros Hbok Hle. pose proof Hbok as (Hok & Hc & Hb). unfold read, buffered_stream.
  destruct (n =? 0)%nat eqn:E0; reflect_bools.
  { exists r. subst n. by rewrite take_0, drop_0. }
  destruct (n <=? length (buf r))%nat eqn:E1; reflect_bools.
  { eexists. rewrite take_app_le, drop_app_le by done. split; [done|]. split; [|done].
    split_and!; cbn; [done|done|rewrite length_drop; lia]. }
  cbn [set_buf impl cap buf err read_direct]. rewrite (proj2 (Nat.ltb_ge _ _)), bind_ret by lia. cbn [failed].
  rewrite app_nil_r, (proj2 (Nat.ltb_lt _ _)) by lia. unfold fill. cbn [buf cap impl length].
  rewrite (proj2 (Nat.eqb_neq _ _)), Nat.sub_0_r by lia.
  destruct (rd_full (impl r) (cap r) Hok) as (i & -> & Hoki & Hsi). rewrite !bind_ret. cbn [buf app set_buf impl cap err].
  set (m := (n - length (buf r))%nat). rewrite length_take.
  assert (take (Nat.min m (Nat.min (cap r) (length (stream (impl r))))) (take (cap r) (stream (impl r))) = take m (stream (impl r))) as ->.
  { rewrite take_take. replace (Nat.min _ (cap r)) with (Nat.min (length (stream (impl r))) m) by (subst m; lia). apply take_min. }
  eexists. split.
  - rewrite take_app_ge by lia. fold m. destruct (_ <? _)%nat; reflexivity.
  - cbn. split; [split_and!; cbn; [done|done|rewrite length_drop, length_take; lia]|]. split; [done|].
    rewrite drop_app_ge by lia. fold m. rewrite Hsi.
    rewrite skipn_firstn_comm. rewrite <- (take_drop (cap r - m) (drop m (stream (impl r)))) at 1.
    rewrite drop_drop. replace (m + (cap r - m))%nat with (cap r) by (subst m; lia).
    destruct (Nat.le_gt_cases m (length (stream (impl r)))) as [Hm|Hm].
    + replace (Nat.min m _) with m by (subst m; lia). done.
    + rewrite !(drop_ge (stream (impl r))) by (subst m; lia). by rewrite !take_nil.
Qed.
End Lines.

(** ** Properties *)

(** C13: a buffered reader of any positive capacity over any reader that
    reports its end delivers the same stream: whatever sizes are read, every
    read is defined and ends, nothing is lost, repeated or reordered, and a
    read of at least one byte gives at least one while there are any. *)
Theorem buffered_reader_faithful {R} `{StreamReader R} `{!EofReader R} (i : R) n sizes :
  reader_ok i -> (0 < n)%nat ->
  exists got r, reads (make i n) sizes = Ret (got, r) /\ stream i = got ++ buffered_stream r
    /\ forall k, (0 < k)%nat -> buffered_stream r <> [] ->
         exists c more e r', read r k = Ret (c :: more, e, r').
Proof.
  intros Hok Hn. assert (buffered_ok (make i n)) as Hbok by (split_and!; simpl; (done || lia)).
  destruct (reads_spec (make i n) sizes) as (got & r & Hr & Hokr & Hs); [exact Hbok|].
  exists got, r. split_and!; [done|exact Hs|]. intros k Hk Hne.
  destruct (read_spec r k Hokr) as (g & e & r' & Hread & _ & _ & _ & _ & Hg); [left; exact rd_eof|].
  destruct g as [|c more]; [by destruct Hg|]. eauto.
Qed.

Lemma buffered_reader_faithful_witness :
  exists got r, reads (make {| content := lit "foobar"; write_at := 0; read_at := 0 |} 2) [1; 7; 3]%nat = Ret (got, r)
    /\ stream {| content := lit "foobar"; write_at := 0; read_at := 0 |} = got ++ buffered_stream r
    /\ forall k, (0 < k)%nat -> buffered_stream r <> [] ->
         exists c more e r', read r k = Ret (c :: more, e, r').
Proof.
  apply (buffered_reader_faithful {| content := lit "foobar"; write_at := 0; read_at := 0 |} 2 [1; 7; 3]%nat); simpl; lia.
Defined.

(** Reading lines: if the stream holds [n] lines without ['\n'] inside,
    each ended by CRLF, then [n] calls of [readline] return exactly these
    lines, without error, and leave exactly what follows them, for any buffer
    size and however the reader splits its data. *)
Lemma readline_lines {R} `{StreamReader R} fuel (r : buffered_reader R) ls rest :
  buffered_ok r -> (length (buffered_stream r) < fuel)%nat -> Forall (fun l => x0a ∉ l) ls ->
  buffered_stream r = concat (map (fun l => l ++ crlf) ls) ++ rest ->
  exists r', readlines fuel (length ls) r = Ret (map inl ls, r') /\ buffered_stream r' = rest.
Proof.
  intros Hok Hf Hls. revert r Hok Hf. induction Hls as [|l ls Hl Hls IH]; intros r Hok Hf Hs; cbn [readlines length map concat] in *.
  - exists r. done.
  - rewrite <- !app_assoc in Hs. destruct (readline_crlf_line fuel r l _ Hok Hf Hl Hs) as (r1 & -> & Hok1 & Hs1 & _).
    rewrite bind_ret. destruct (IH r1 Hok1) as (r2 & -> & Hs2); [rewrite Hs1; rewrite Hs in Hf; rewrite !length_app in *; lia|done|].
    rewrite bind_ret. exists r2. done.
Qed.

Lemma readline_lines_witness :
  exists r', readlines 20 2 (make (string_reader_of (lit "foo" ++ crlf ++ lit "bar" ++ crlf ++ lit "x")) 3)
    = Ret (map inl [lit "foo"; lit "bar"], r') /\ buffered_stream r' = lit "x".
Proof.
  apply (readline_lines 20 (make (string_reader_of (lit "foo" ++ crlf ++ lit "bar" ++ crlf ++ lit "x")) 3)
           [lit "foo"; lit "bar"] (lit "x")).
  - split_and!; simpl; lia.
  - simpl. lia.
  - apply (bool_decide_unpack _). vm_compute. exact I.
  - reflexivity.
Defined.

(** over a reader that ends without an error (a string reader), a read of
    more than a buffer's worth past the end never returns: the loop that reads
    straight into the caller's span has no end. *)
Lemma buffered_reader_diverges fuel (s : list byte) c need :
  (c < need)%nat -> read_direct fuel {| view := s; idx := length s |} c need = OutOfFuel.
Proof.
  intros Hlt. revert need Hlt. induction fuel as [|fuel IH]; intros need Hlt; [done|]. cbn [read_direct].
  rewrite (proj2 (Nat.ltb_lt _ _)) by done. unfold rd, string_reader_Reader, string_reader_read. cbn [idx view].
  rewrite Nat.eqb_refl. cbn [obind failed length]. rewrite Nat.sub_0_r, IH by done. done.
Qed.

Lemma buffered_reader_diverges_witness : read_direct 100 {| view := lit "foo"; idx := length (lit "foo") |} 4 10 = OutOfFuel.
Proof. apply (buffered_reader_diverges 100 (lit "foo") 4 10). lia. Defined.
