(* ===== verification/BufferedWriter.v ===== *)
(** * The buffered writer (src/io/buffered_writer.cpp)

    The buffer is a vector whose capacity stays what the constructor reserved.
    As in the buffered reader, the overlapping [std::copy_backward] of
    [flush_available] is modelled as the [memmove] it is for bytes. *)

From Stdlib Require Import ZArith Strings.Byte Lia String.
From stdpp Require Import prelude list.
From S2P Require Import Prelude CxxStrings Io.

(** ** Definitions *)

Record buffered_writer (W : Type) := { impl : W; buf : list byte; cap : nat }.
Arguments impl {W}.
Arguments buf {W}.
Arguments cap {W}.

Definition make {W} (impl : W) (bufsize : nat) : buffered_writer W := {| impl := impl; buf := []; cap := bufsize |}.

Definition flush_available {W} `{Writer W} (w : buffered_writer W) : outcome (nat * error_condition * buffered_writer W) :=
  let* (k, e, i) := wr (impl w) (buf w) in
  let b := if (k <? length (buf w))%nat then drop k (buf w) else [] in
  Ret (k, e, {| impl := i; buf := b; cap := cap w |}).

(** The loop that bypasses the buffer while more than [capacity] bytes are
    left: how many bytes it wrote. *)
Fixpoint write_direct {W} `{Writer W} (fuel : nat) (i : W) (capacity : nat) (data : list byte)
    : outcome (nat * error_condition * W) :=
  match fuel with
  | O => OutOfFuel
  | S fuel =>
      if (capacity <? length data)%nat then
        let* (k, e, i) := wr i (take capacity data) in
        if failed e then Ret (k, e, i)
        else
          let* (k', e, i) := write_direct fuel i capacity (drop k data) in
          Ret ((k + k')%nat, e, i)
      else Ret (0%nat, no_error, i)
  end.

Definition write {W} `{Writer W} (w : buffered_writer W) (data : list byte)
    : outcome (nat * error_condition * buffered_writer W) :=
  match data with
  | [] => Ret (0%nat, no_error, w)
  | _ =>
      let available := if (length (buf w) <? cap w)%nat then Nat.min (cap w - length (buf w)) (length data) else 0%nat in
      let w := {| impl := impl w; buf := buf w ++ take available data; cap := cap w |} in
      let total := available in
      if (total =? length data)%nat then Ret (length data, no_error, w)
      else
        let* (k, e, w) := if (length (buf w) =? cap w)%nat then flush_available w else Ret (0%nat, no_error, w) in
        if failed e then Ret (k, e, w)
        else
          let* (k, e, i) := write_direct (S (length data)) (impl w) (cap w) (drop total data) in
          let w := {| impl := i; buf := buf w; cap := cap w |} in
          if failed e then Ret ((total + k)%nat, e, w)
          else
            let total := (total + k)%nat in
            let leftover := (length data - total)%nat in
            if (0 <? leftover)%nat
            then Ret ((total + leftover)%nat, no_error, {| impl := impl w; buf := drop total data; cap := cap w |})
            else Ret (total, no_error, w)
  end.

Fixpoint flush_loop {W} `{Writer W} (fuel : nat) (i : W) (b : list byte) : outcome (nat * error_condition * W) :=
  match fuel with
  | O => OutOfFuel
  | S fuel =>
      if (0 <? length b)%nat then
        let* (k, e, i) := wr i b in
        if failed e then Ret (k, e, i)
        else
          let* (k', e, i) := flush_loop fuel i (drop k b) in
          Ret ((k + k')%nat, e, i)
      else Ret (0%nat, no_error, i)
  end.

(** On an error the buffer stays as it is, also what has been written of it. *)
Definition flush {W} `{Writer W} (w : buffered_writer W) : outcome (nat * error_condition * buffered_writer W) :=
  let* (k, e, i) := flush_loop (S (length (buf w))) (impl w) (buf w) in
  Ret (k, e, {| impl := i; buf := if failed e then buf w else []; cap := cap w |}).

Definition size {W} (w : buffered_writer W) : nat := length (buf w).
Definition reset {W} (w : buffered_writer W) : buffered_writer W := {| impl := impl w; buf := []; cap := cap w |}.
Definition reset_to {W} (w : buffered_writer W) (other : option W) : buffered_writer W :=
  reset {| impl := default (impl w) other; buf := buf w; cap := cap w |}.

#[global] Instance buffered_writer_Writer {W} `{Writer W} : Writer (buffered_writer W) := write.

(** ** Order and completeness *)

Section Spec.
Context {W : Type} `{SinkWriter W}.

Definition buffered_ok (w : buffered_writer W) : Prop :=
  writer_ok (impl w) /\ (0 < cap w)%nat /\ (length (buf w) <= cap w)%nat.

(** What has been written, to the writer below or to the buffer. *)
Definition written (w : buffered_writer W) : list byte := sink (impl w) ++ buf w.

Lemma flush_available_spec (w : buffered_writer W) :
  buffered_ok w ->
  exists k e w', flush_available w = Ret (k, e, w') /\ buffered_ok w' /\ cap w' = cap w
    /\ written w' = written w /\ (failed e = false -> buf w' = []).
Proof.
  intros (Hok & Hc & Hb). unfold flush_available.
  destruct (wr_spec (impl w) (buf w) Hok) as (k & e & i & -> & Hok1 & Hk & Hs & Hf). rewrite bind_ret.
  do 3 eexists. split; [done|]. unfold written, buffered_ok. cbn [impl buf cap].
  destruct (k <? length (buf w))%nat eqn:E; reflect_bools; split_and!; try done; try (rewrite ?length_drop; simpl; lia).
  - by rewrite Hs, <- app_assoc, take_drop.
  - by rewrite Hs, app_nil_r, take_ge by lia.
Qed.

Lemma write_direct_spec fuel (i : W) c data :
  writer_ok i -> (0 < c)%nat -> (length data < fuel)%nat ->
  exists k e i', write_direct fuel i c data = Ret (k, e, i') /\ writer_ok i' /\ (k <= length data)%nat
    /\ sink i' = sink i ++ take k data /\ (failed e = false -> (length data - k <= c)%nat).
Proof.
  intros Hok Hc. revert i data Hok. induction fuel as [|fuel IH]; intros i data Hok Hf; [lia|]. cbn [write_direct].
  destruct (c <? length data)%nat eqn:E; reflect_bools.
  2: { exists 0%nat, no_error, i. rewrite take_0, app_nil_r. split_and!; (done || lia). }
  destruct (wr_spec i (take c data) Hok) as (k & e & i1 & -> & Hok1 & Hk & Hs & Hfe). rewrite bind_ret.
  rewrite length_take in Hk. destruct (failed e) eqn:Ee.
  { exists k, e, i1. rewrite take_take, Nat.min_l in Hs by lia. split_and!; try done; [lia|congruence]. }
  specialize (Hfe eq_refl). rewrite length_take, Nat.min_l in Hfe by lia. subst k.
  destruct (IH i1 (drop c data) Hok1) as (k' & e' & i2 & -> & Hok2 & Hk2 & Hs2 & Hf2); [rewrite length_drop; lia|].
  rewrite bind_ret. exists (c + k')%nat, e', i2. rewrite length_drop in *. split_and!; try done; [lia| |].
  - rewrite Hs2, Hs, take_take, Nat.min_id, <- app_assoc. f_equal.
    rewrite <- (take_drop c data) at 3. rewrite take_app_ge by (rewrite length_take; lia).
    rewrite length_take, Nat.min_l by lia. do 2 f_equal. lia.
  - intros He. specialize (Hf2 He). lia.
Qed.

Lemma write_spec (w : buffered_writer W) data :
  buffered_ok w ->
  exists k e w' j, write w data = Ret (k, e, w') /\ buffered_ok w' /\ (j <= length data)%nat
    /\ written w' = written w ++ take j data /\ (failed e = false -> k = length data /\ j = length data).
Proof.
  intros Hbok. pose proof Hbok as (Hok & Hc & Hb). unfold write. destruct data as [|c0 data0] eqn:Ed.
  { exists 0%nat, no_error, w, 0%nat. rewrite take_0, app_nil_r. done. }
  rewrite <- Ed. assert (0 < length data)%nat as Hpos by (subst; simpl; lia). clear Ed c0 data0.
  set (available := if (length (buf w) <? cap w)%nat then _ else _).
  assert (available <= length data /\ length (buf w) + available <= cap w
    /\ (available <> length data -> length (buf w) + available = cap w))%nat as (Ha1 & Ha2 & Ha3).
  { subst available. destruct (length (buf w) <? cap w)%nat eqn:E; reflect_bools; lia. }
  cbn [buf impl cap]. set (w1 := {| impl := impl w; buf := buf w ++ take available data; cap := cap w |}).
  assert (length (buf w1) = length (buf w) + available)%nat as Hl1 by (subst w1; cbn; rewrite length_app, length_take; lia).
  assert (buffered_ok w1) as Hok1 by (split_and!; [done|done|rewrite Hl1; done]).
  assert (written w1 = written w ++ take available data) as Hw1 by (unfold written; cbn; by rewrite app_assoc).
  destruct (available =? length data)%nat eqn:Ea; reflect_bools.
  { exists (length data), no_error, w1, available. split_and!; done. }
  change (buf w ++ take available data) with (buf w1). rewrite Hl1, (proj2 (Nat.eqb_eq _ _)) by auto.
  destruct (flush_available_spec w1 Hok1) as (k & e & w2 & -> & Hok2 & Hcap2 & Hw2 & Hf2). rewrite bind_ret.
  destruct (failed e) eqn:Ee.
  { exists k, e, w2, available. split_and!; try done; [congruence|congruence]. }
  specialize (Hf2 eq_refl). rewrite Hcap2. change (cap w1) with (cap w).
  destruct (write_direct_spec (S (length data)) (impl w2) (cap w) (drop available data) ltac:(apply Hok2) Hc)
    as (k' & e' & i & -> & Hoki & Hk' & Hsi & Hfi); [rewrite length_drop; lia|]. rewrite bind_ret.
  rewrite length_drop in *.
  assert (sink i = written w ++ take (available + k') data) as Hsink.
  { rewrite Hsi. replace (sink (impl w2)) with (written w2) by (unfold written; by rewrite Hf2, app_nil_r).
    rewrite Hw2, Hw1, <- app_assoc. f_equal.
    rewrite <- (take_drop available data) at 3. rewrite take_app_ge by (rewrite length_take; lia).
    rewrite length_take, Nat.min_l by lia. do 2 f_equal. lia. }
  cbn [impl buf cap]. rewrite Hf2. destruct (failed e') eqn:Ee'.
  { do 4 eexists. split; [done|]. split_and!; [split_and!; cbn; [done|done|lia]| | |congruence].
    2: { unfold written. cbn. by rewrite app_nil_r, Hsink. } lia. }
  specialize (Hfi eq_refl). destruct (0 <? length data - (available + k'))%nat eqn:El; reflect_bools.
  - do 4 eexists. split; [done|]. split_and!; [split_and!; cbn; [done|done|rewrite length_drop; lia]| | |].
    2: { unfold written. cbn. rewrite Hsink, <- app_assoc, take_drop. by rewrite <- (firstn_all data) at 1. } lia. lia.
  - do 4 eexists. split; [done|]. split_and!; [split_and!; cbn; [done|done|lia]| | |].
    2: { unfold written. cbn. by rewrite app_nil_r, Hsink. } lia. lia.
Qed.

Lemma flush_loop_spec fuel (i : W) b :
  writer_ok i -> (length b < fuel)%nat ->
  exists k e i', flush_loop fuel i b = Ret (k, e, i') /\ writer_ok i' /\ (k <= length b)%nat
    /\ sink i' = sink i ++ take k b /\ (failed e = false -> k = length b).
Proof.
  intros Hok Hf. destruct fuel as [|fuel]; [lia|]. cbn [flush_loop].
  destruct (0 <? length b)%nat eqn:E; reflect_bools.
  2: { exists 0%nat, no_error, i. rewrite take_0, app_nil_r. split_and!; (done || lia). }
  destruct (wr_spec i b Hok) as (k & e & i1 & -> & Hok1 & Hk & Hs & Hfe). rewrite bind_ret.
  destruct (failed e) eqn:Ee; [exists k, e, i1; split_and!; try done; congruence|].
  specialize (Hfe eq_refl). subst k. destruct fuel as [|fuel]; [lia|]. cbn [flush_loop].
  rewrite (drop_ge b) by lia. cbn. exists (length b), no_error, i1. rewrite Nat.add_0_r. done.
Qed.

Lemma flush_spec (w : buffered_writer W) :
  buffered_ok w ->
  exists k e w', flush w = Ret (k, e, w') /\ buffered_ok w'
    /\ (failed e = false -> sink (impl w') = written w /\ buf w' = [] /\ k = length (buf w))
    /\ (failed e = true -> sink (impl w') `prefix_of` written w /\ buf w' = buf w).
Proof.
  intros (Hok & Hc & Hb). unfold flush.
  destruct (flush_loop_spec (S (length (buf w))) (impl w) (buf w) Hok) as (k & e & i & -> & Hok1 & Hk & Hs & Hf); [lia|].
  rewrite bind_ret. do 3 eexists. split; [done|]. cbn. destruct (failed e) eqn:Ee; split_and!; try done.
  - intros _. split; [|done]. rewrite Hs. unfold written. apply prefix_app. apply prefix_take.
  - split_and!; cbn; [done|done|lia].
  - intros _. rewrite Hs, (Hf eq_refl), firstn_all. done.
Qed.
End Spec.

#[global] Instance buffered_writer_ordered {W} `{SinkWriter W} : OrderedWriter (buffered_writer W).
Proof.
  refine {| osink := written; owriter_ok := buffered_ok |}. apply write_spec.
Defined.

(** Over a writer that reports no errors it reports none either. *)
Section Reliable.
Context {W : Type} `{SinkWriter W} `{!ReliableWriter W}.

Lemma flush_available_reliable (w : buffered_writer W) k e w' :
  buffered_ok w -> flush_available w = Ret (k, e, w') -> failed e = false.
Proof.
  intros (Hok & _) Hf. unfold flush_available in Hf. destruct (wr_spec (impl w) (buf w) Hok) as (k1 & e1 & i & Hw & _).
  rewrite Hw, bind_ret in Hf. injection Hf as _ <- _. by eapply owr_reliable.
Qed.

Lemma write_direct_reliable fuel (i : W) c data k e i' :
  writer_ok i -> write_direct fuel i c data = Ret (k, e, i') -> failed e = false.
Proof.
  revert i data k. induction fuel as [|fuel IH]; intros i data k Hok; cbn [write_direct]; [done|].
  destruct (c <? length data)%nat; [|by intros [= _ <- _]].
  destruct (wr_spec i (take c data) Hok) as (k1 & e1 & i1 & Hw & Hok1 & _). rewrite Hw, bind_ret.
  assert (failed e1 = false) as -> by (eapply owr_reliable; [exact Hok|exact Hw]). destruct (write_direct fuel i1 c (drop k1 data)) as [[[k2 e2] i2]|?| | |] eqn:E; try done.
  cbn [obind]. intros [= _ <- <-]. by eapply IH.
Qed.

#[global] Instance buffered_writer_reliable : ReliableWriter (buffered_writer W).
Proof.
  intros w d k e w' Hok. pose proof Hok as (Hi & Hc & Hb). unfold wr, buffered_writer_Writer, write.
  destruct d as [|c0 d0] eqn:Ed; [by intros [= _ <- _]|]. rewrite <- Ed. clear Ed c0 d0.
  set (available := if (length (buf w) <? cap w)%nat then _ else _). set (w1 := {| impl := impl w; buf := _; cap := cap w |}).
  assert (buffered_ok w1) as Hok1.
  { split_and!; cbn; [done|done|]. rewrite length_app, length_take. subst available. destruct (_ <? _)%nat eqn:E; reflect_bools; lia. }
  destruct (available =? length d)%nat; [by intros [= _ <- _]|].
  assert (exists k e w2, (if (length (buf w1) =? cap w1)%nat then flush_available w1 else Ret (0%nat, no_error, w1)) = Ret (k, e, w2)
    /\ buffered_ok w2 /\ failed e = false) as (k2 & e2 & w2 & -> & Hok2 & He2).
  { destruct (_ =? _)%nat; [|by exists 0%nat, no_error, w1]. destruct (flush_available_spec w1 Hok1) as (k2 & e2 & w2 & Hf & Hok2 & _).
    exists k2, e2, w2. split_and!; try done. eapply flush_available_reliable; [exact Hok1|exact Hf]. }
  rewrite bind_ret, He2. destruct (write_direct_spec (S (length d)) (impl w2) (cap w2) (drop available d)) as (k3 & e3 & i3 & Hd & _);
    [apply Hok2|apply Hok2|rewrite length_drop; lia|]. rewrite Hd, bind_ret.
  rewrite (write_direct_reliable _ _ _ _ _ _ _ (proj1 Hok2) Hd). destruct (0 <? _)%nat; intros; by simplify_eq.
Qed.

Lemma flush_reliable (w : buffered_writer W) k e w' : buffered_ok w -> flush w = Ret (k, e, w') -> failed e = false.
Proof.
  intros (Hok & _) Hf. unfold flush in Hf. cbn [flush_loop] in Hf. destruct (0 <? length (buf w))%nat eqn:E.
  - destruct (wr_spec (impl w) (buf w) Hok) as (k1 & e1 & i & Hw & _ & _ & _ & Hall). rewrite Hw, bind_ret in Hf.
    assert (failed e1 = false) as He by (eapply owr_reliable; [exact Hok|exact Hw]). rewrite He in Hf. rewrite (Hall He), drop_all in Hf.
    destruct (length (buf w)); [done|]. cbn in Hf. by injection Hf as _ <- _.
  - cbn in Hf. by injection Hf as _ <- _.
Qed.
End Reliable.

(** ** Properties *)

(** C14: whatever is written in whatever pieces through a buffered writer of any
    positive capacity, over a writer that writes all it is given or reports an
    error, and then flushed: without an error the writer below has received
    exactly the pieces, in order, the counts are right and the buffer is empty;
    with an error it has received a prefix of them. *)
Theorem buffered_writer_faithful {W} `{SinkWriter W} (i : W) n pieces :
  writer_ok i -> (0 < n)%nat ->
  exists k e w, write_all (make i n) pieces = Ret (k, e, w)
    /\ (failed e = false -> k = length (concat pieces)
        /\ exists k' e' w', flush w = Ret (k', e', w')
             /\ (failed e' = false -> sink (impl w') = sink i ++ concat pieces /\ buf w' = [])
             /\ sink (impl w') `prefix_of` sink i ++ concat pieces)
    /\ sink (impl w) `prefix_of` sink i ++ concat pieces.
Proof.
  intros Hok Hn. assert (buffered_ok (make i n)) as Hbok by (split_and!; simpl; (done || lia)).
  destruct (write_all_spec (make i n) pieces) as (k & e & w & j & Hw & Hokw & Hj & Hs & Hf); [exact Hbok|].
  cbn in Hs. unfold written in Hs. cbn in Hs. rewrite app_nil_r in Hs.
  assert (sink (impl w) ++ buf w `prefix_of` sink i ++ concat pieces) as Hpre.
  { rewrite Hs. apply prefix_app, prefix_take. }
  exists k, e, w. split; [done|]. split.
  - intros He. destruct (Hf He) as [-> ->]. split; [done|]. rewrite firstn_all in Hs.
    destruct (flush_spec w Hokw) as (k' & e' & w' & Hfl & _ & Hnoerr & Herr). exists k', e', w'. split; [done|].
    unfold written in *. rewrite Hs in *. split.
    + intros He'. destruct (Hnoerr He') as (? & ? & _). done.
    + destruct (failed e') eqn:Ee'; [by destruct (Herr eq_refl)|]. destruct (Hnoerr eq_refl) as (-> & _). done.
  - etrans; [|exact Hpre]. by apply prefix_app_r.
Qed.

Lemma buffered_writer_faithful_witness :
  exists k e w, write_all (make string_writer_empty 4) [lit "foo"; lit "bar"; lit "bazquux"] = Ret (k, e, w)
    /\ (failed e = false -> k = length (concat [lit "foo"; lit "bar"; lit "bazquux"])
        /\ exists k' e' w', flush w = Ret (k', e', w')
             /\ (failed e' = false -> sink (impl w') = sink string_writer_empty ++ concat [lit "foo"; lit "bar"; lit "bazquux"] /\ buf w' = [])
             /\ sink (impl w') `prefix_of` sink string_writer_empty ++ concat [lit "foo"; lit "bar"; lit "bazquux"])
    /\ sink (impl w) `prefix_of` sink string_writer_empty ++ concat [lit "foo"; lit "bar"; lit "bazquux"].
Proof. apply (buffered_writer_faithful string_writer_empty 4 [lit "foo"; lit "bar"; lit "bazquux"]); [exact I|lia]. Defined.

(** A writer that takes at most [most] bytes at a time, as a socket may. *)
Record short_writer := { most : nat; taken : list byte }.
#[global] Instance short_writer_Writer : Writer short_writer := fun w d =>
  let k := Nat.min (most w) (length d) in
  Ret (k, no_error, {| most := most w; taken := taken w ++ take k d |}).

(** Over a writer that may write less than it is given, the buffered writer
    loses data: it takes the buffer for empty after one short write. *)
Lemma buffered_writer_short_write_loses :
  (let* (k, e, w) := write (make {| most := 2; taken := [] |} 4) (lit "abcdef") in
   let* (k', e', w) := flush w in
   Ret (k, failed e, taken (impl w))) = Ret (6%nat, false, lit "abef").
Proof. reflexivity. Qed.
