(* ===== verification/Chunked.v ===== *)
(** * Chunked transfer coding (src/http/chunked_reader.cpp, chunked_writer.cpp)

    [chunked_reader] takes the chunk sizes and line ends out of a stream,
    [chunked_writer] puts them in.  Both write the sizes in decimal (the
    protocol has them in hexadecimal), so they understand each other and not
    their peers; the round trip below is about the pair.  [read]'s inner loop
    over the digits of a size runs on the [fuel] of its caller: one step per
    character of the line. *)

From Stdlib Require Import ZArith Strings.Byte Lia String.
From stdpp Require Import prelude list gmap strings.
From S2P Require Import Prelude CxxStrings Io BufferedReader.

(** ** Definitions *)

(** A [size_t] as an integer modulo [2^64]. *)
Record chunked_reader (R : Type) := { parent : R; current_chunk_size : Z }.
Arguments parent {R} _.
Arguments current_chunk_size {R} _.
Arguments Build_chunked_reader {R} _ _.

Definition illegal : error_condition := generic illegal_byte_sequence.

(** The loop of [get_next_chunk_size]. *)
Fixpoint chunk_size_loop {R} `{Reader R} (fuel : nat) (p : R) (size : Z)
    : outcome (error_condition * chunked_reader R) :=
  match fuel with
  | O => OutOfFuel
  | S fuel =>
      let* (next, err, p) := read_char p x00 in
      if failed err then Ret (err, {| parent := p; current_chunk_size := size |})
      else if (48 <=? char_val next) && (char_val next <=? 57) then
        chunk_size_loop fuel p (u64 (u64 (size * 10) + (char_val next - 48)))
      else if byte_eqb next x0d then
        let* (next, err, p) := read_char p next in
        if failed err then Ret (err, {| parent := p; current_chunk_size := size |})
        else if byte_eqb next x0a then Ret (no_error, {| parent := p; current_chunk_size := size |})
        else Ret (illegal, {| parent := p; current_chunk_size := size |})
      else Ret (illegal, {| parent := p; current_chunk_size := size |})
  end.

Definition get_next_chunk_size {R} `{Reader R} (fuel : nat) (r : chunked_reader R)
    : outcome (error_condition * chunked_reader R) :=
  chunk_size_loop fuel (parent r) 0.

(** Two characters in one read; those not read are zero. *)
Definition validate_end_of_chunk {R} `{Reader R} (r : chunked_reader R)
    : outcome (error_condition * chunked_reader R) :=
  let* (got, err, p) := rd (parent r) 2 in
  let r := {| parent := p; current_chunk_size := current_chunk_size r |} in
  if failed err then Ret (err, r)
  else
    let c0 := default x00 (got !! 0%nat) in
    let c1 := default x00 (got !! 1%nat) in
    if negb (byte_eqb c0 x0d) && negb (byte_eqb c1 x0a) then Ret (illegal, r)
    else Ret (no_error, r).

(** The start of a turn of [read]'s loop: the size of the next chunk if none is
    open.  [Some e]: [read] returns here, with [e]. *)
Definition open_chunk {R} `{Reader R} (fuel : nat) (r : chunked_reader R)
    : outcome (option error_condition * chunked_reader R) :=
  if current_chunk_size r =? 0 then
    let* (err, r) := get_next_chunk_size fuel r in
    if failed err then Ret (Some err, r)
    else if current_chunk_size r =? 0 then
      let* (err, r) := validate_end_of_chunk r in
      Ret (Some (if failed err then err else no_error), r)
    else Ret (None, r)
  else Ret (None, r).

(** The loop of [chunked_reader::read]; [got] is what is in [data] so far. *)
Fixpoint read_loop {R} `{Reader R} (turns fuel : nat) (r : chunked_reader R) (n : nat) (got : list byte)
    : outcome (list byte * error_condition * chunked_reader R) :=
  match turns with
  | O => OutOfFuel
  | S turns =>
      if (length got <? n)%nat then
        let* (stop, r) := open_chunk fuel r in
        match stop with
        | Some err => Ret (got, err, r)
        | None =>
            let amount_to_read := Z.min (Z.of_nat (n - length got)) (current_chunk_size r) in
            let* (more, err, p) := rd (parent r) (Z.to_nat amount_to_read) in
            let r := {| parent := p;
                        current_chunk_size := u64 (current_chunk_size r - Z.of_nat (length more)) |} in
            let got := got ++ more in
            if failed err then Ret (got, err, r)
            else if current_chunk_size r =? 0 then
              let* (err, r) := validate_end_of_chunk r in
              if failed err then Ret (got, err, r) else read_loop turns fuel r n got
            else read_loop turns fuel r n got
        end
      else Ret (got, no_error, r)
  end.

Definition read {R} `{Reader R} (fuel : nat) (r : chunked_reader R) (n : nat)
    : outcome (list byte * error_condition * chunked_reader R) :=
  read_loop (S n) fuel r n [].

(** [max_decimal_for_length_digits]: as many nines. *)
Fixpoint max_decimal_for_length_digits (size : nat) : Z :=
  match size with O => 0 | S size => max_decimal_for_length_digits size * 10 + 9 end.

Definition max_chunk_size : Z := max_decimal_for_length_digits 8.

Record chunked_writer (W : Type) := { out : W }.
Arguments out {W} _.
Arguments Build_chunked_writer {W} _.

(** [data.subspan(pos, n)]: undefined if it does not fit. *)
Definition subspan (data : list byte) (pos n : nat) : outcome (list byte) :=
  if (pos + n <=? length data)%nat then Ret (take n (drop pos data)) else Undef.

(** The loop of [chunked_writer::write].  When the buffer for the digits is too
    small [to_chars] leaves [ptr] at its end. *)
Fixpoint write_loop {W} `{Writer W} (fuel : nat) (w : W) (data : list byte) (amount_written : nat)
    : outcome (nat * error_condition * W) :=
  match fuel with
  | O => OutOfFuel
  | S fuel =>
      if (amount_written <? length data)%nat then
        let amount_to_write := Z.min max_chunk_size (Z.of_nat (length data)) in
        let digits := default (replicate 8 x00) (to_chars_n 8 10 amount_to_write) in
        let* (_, err, w) := wr w digits in
        if failed err then Ret (amount_written, err, w)
        else
          let* (_, err, w) := wr w crlf in
          if failed err then Ret (amount_written, err, w)
          else
            let* part := subspan data amount_written (Z.to_nat amount_to_write) in
            let* (k, err, w) := wr w part in
            let amount_written := (amount_written + k)%nat in
            if failed err then Ret (amount_written, err, w)
            else
              let* (_, err, w) := wr w crlf in
              if failed err then Ret (amount_written, err, w)
              else write_loop fuel w data amount_written
      else Ret (amount_written, no_error, w)
  end.

Definition write {W} `{Writer W} (w : chunked_writer W) (data : list byte)
    : outcome (nat * error_condition * chunked_writer W) :=
  let* (k, err, o) := write_loop (S (length data)) (out w) data 0 in
  Ret (k, err, {| out := o |}).

#[global] Instance chunked_writer_Writer {W} `{Writer W} : Writer (chunked_writer W) := write.

(** ** The format *)

(** The text of a chunk, and of the chunk that ends the body. *)
Definition chunk (d : list byte) : list byte := to_chars 10 (Z.of_nat (length d)) ++ crlf ++ d ++ crlf.
Definition last_chunk : list byte := lit "0" ++ crlf ++ crlf.
Definition chunks (pieces : list (list byte)) : list byte := concat (map chunk pieces).

(** ** Reading *)

Section Reading.
Context {R : Type} `{FullReader R}.

Lemma read_char_full (p : R) c0 c s :
  reader_ok p -> stream p = c :: s ->
  exists p', read_char p c0 = Ret (c, no_error, p') /\ reader_ok p' /\ stream p' = s.
Proof.
  intros Hok Hs. unfold read_char. destruct (rd_full p 1 Hok) as (p' & -> & Hok' & Hs').
  rewrite Hs in *. exists p'. done.
Qed.

(** The value of a size being read, digit by digit, without wrapping. *)
Lemma chunk_size_digits ds fuel (p : R) size s :
  reader_ok p -> Forall (fun d => 0 <= d < 10) ds -> 0 <= size ->
  fold_left (fun acc d => acc * 10 + d) ds size < 2 ^ 64 -> (length ds < fuel)%nat ->
  stream p = map digit_char ds ++ crlf ++ s ->
  exists p', chunk_size_loop fuel p size
      = Ret (no_error, {| parent := p'; current_chunk_size := fold_left (fun acc d => acc * 10 + d) ds size |})
    /\ reader_ok p' /\ stream p' = s.
Proof.
  intros Hok Hds. revert fuel p size Hok. induction Hds as [|d ds Hd Hds IH]; intros fuel p size Hok Hsz Hlt Hf Hs;
    (destruct fuel as [|fuel]; [simpl in Hf; lia|]); cbn [chunk_size_loop map fold_left app] in *.
  - destruct (read_char_full p x00 x0d (x0a :: s) Hok Hs) as (p1 & -> & Hok1 & Hs1). rewrite bind_ret. simpl.
    destruct (read_char_full p1 x0d x0a s Hok1 Hs1) as (p2 & -> & Hok2 & Hs2). rewrite bind_ret. simpl. eauto.
  - destruct (read_char_full p x00 _ _ Hok Hs) as (p1 & -> & Hok1 & Hs1). rewrite bind_ret. cbn [failed].
    assert (char_val (digit_char d) = 48 + d) as ->.
    { unfold digit_char, char_val. rewrite (proj2 (Z.ltb_lt d 10)), byte_val_of_Z, Z.mod_small by lia.
      by rewrite (proj2 (Z.ltb_lt _ _)) by lia. }
    rewrite (proj2 (Z.leb_le _ _)), (proj2 (Z.leb_le _ _)) by lia. cbn [andb].
    assert (size * 10 + d < 2 ^ 64) as Hb.
    { rewrite from_digits_cons_acc in Hlt. pose proof (from_digits_bound 10 ds ltac:(lia) Hds) as Hbd.
      assert (0 < 10 ^ Z.of_nat (length ds)) as Hpos by lia. clear -Hlt Hbd Hpos Hsz Hd.
      set (a := size * 10 + d) in *. assert (0 <= a) by lia. set (X := 10 ^ Z.of_nat (length ds)) in *.
      assert (a * 1 <= a * X) by (apply Z.mul_le_mono_nonneg_l; lia). lia. }
    replace (u64 (u64 (size * 10) + (48 + d - 48))) with (size * 10 + d)
      by (unfold u64; rewrite (wrap_small 64 (size * 10)), wrap_small; lia).
    apply IH; try done; cbn [length] in Hf; lia.
Qed.

Lemma next_chunk_size fuel (r : chunked_reader R) n s :
  reader_ok (parent r) -> 0 <= n < 2 ^ 64 -> (length (to_chars 10 n) < fuel)%nat ->
  stream (parent r) = to_chars 10 n ++ crlf ++ s ->
  exists p, get_next_chunk_size fuel r = Ret (no_error, {| parent := p; current_chunk_size := n |})
    /\ reader_ok p /\ stream p = s.
Proof.
  intros Hok Hn Hf Hs. destruct (to_chars_digits 10 n ltac:(lia) ltac:(lia)) as (ds & Heq & _ & Hds & Hval).
  rewrite Heq, length_map in *. unfold get_next_chunk_size. unfold from_digits in Hval.
  destruct (chunk_size_digits ds fuel (parent r) 0 s) as (p & Hp & Hokp & Hsp); try done; [lia|].
  exists p. by rewrite Hp, Hval.
Qed.

Lemma end_of_chunk (r : chunked_reader R) s :
  reader_ok (parent r) -> stream (parent r) = crlf ++ s ->
  exists p, validate_end_of_chunk r = Ret (no_error, {| parent := p; current_chunk_size := current_chunk_size r |})
    /\ reader_ok p /\ stream p = s.
Proof.
  intros Hok Hs. unfold validate_end_of_chunk. destruct (rd_full (parent r) 2 Hok) as (p & -> & Hokp & Hsp).
  rewrite Hs in *. exists p. done.
Qed.

Definition piece_ok (d : list byte) : Prop := d <> [] /\ Z.of_nat (length d) < 2 ^ 64.

(** The reader is inside a well-formed body: it still has [payload] to give,
    and [tail] follows the body. *)
Inductive inside (r : chunked_reader R) (tail : list byte) : list byte -> Prop :=
| inside_between pieces :
    reader_ok (parent r) -> current_chunk_size r = 0 -> Forall piece_ok pieces ->
    stream (parent r) = chunks pieces ++ last_chunk ++ tail -> inside r tail (concat pieces)
| inside_chunk d pieces :
    reader_ok (parent r) -> piece_ok d -> current_chunk_size r = Z.of_nat (length d) -> Forall piece_ok pieces ->
    stream (parent r) = d ++ crlf ++ chunks pieces ++ last_chunk ++ tail -> inside r tail (d ++ concat pieces).

Lemma size_digits n : 0 <= n < 2 ^ 64 -> (length (to_chars 10 n) <= 20)%nat.
Proof. intros Hn. apply (to_chars_bound 10 n 19); [lia|]. change (10 ^ Z.of_nat 20) with (5 * 2 ^ 64 + 7766279631452241920). lia. Qed.

(** Opening a chunk: the end of the body, or a chunk with data left. *)
Lemma open_chunk_spec fuel (r : chunked_reader R) tail payload :
  (20 < fuel)%nat -> inside r tail payload ->
  exists r', (payload = [] /\ open_chunk fuel r = Ret (Some no_error, r')
      /\ reader_ok (parent r') /\ current_chunk_size r' = 0 /\ stream (parent r') = tail)
  \/ (open_chunk fuel r = Ret (None, r') /\ exists d pieces, payload = d ++ concat pieces
      /\ reader_ok (parent r') /\ piece_ok d /\ current_chunk_size r' = Z.of_nat (length d) /\ Forall piece_ok pieces
      /\ stream (parent r') = d ++ crlf ++ chunks pieces ++ last_chunk ++ tail).
Proof.
  intros Hf Hin. unfold open_chunk. destruct Hin as [pieces Hok Hc Hp Hs | d pieces Hok Hd Hc Hp Hs].
  2: { exists r. right. assert (d <> []) as Hne by apply Hd. destruct d as [|c d]; [done|].
       rewrite Hc, (proj2 (Z.eqb_neq _ _)) by (simpl; lia). split; [done|]. exists (c :: d), pieces. done. }
  rewrite Hc, Z.eqb_refl. destruct Hp as [|d pieces Hd Hp].
  - destruct (next_chunk_size fuel r 0 (crlf ++ tail) Hok) as (p & -> & Hokp & Hsp); [lia|change (1 < fuel)%nat; lia| |].
    { rewrite Hs. unfold chunks, last_chunk. simpl. done. }
    rewrite bind_ret. cbn [failed current_chunk_size]. rewrite Z.eqb_refl.
    destruct (end_of_chunk {| parent := p; current_chunk_size := 0 |} tail Hokp Hsp) as (p2 & -> & Hok2 & Hs2).
    rewrite bind_ret. eexists. left. done.
  - destruct Hd as [Hne Hlen]. destruct (next_chunk_size fuel r (Z.of_nat (length d)) (d ++ crlf ++ chunks pieces ++ last_chunk ++ tail) Hok)
      as (p & -> & Hokp & Hsp); [lia| | |].
    { pose proof (size_digits (Z.of_nat (length d))). lia. }
    { rewrite Hs. unfold chunks, chunk. cbn [map concat]. by rewrite <- !app_assoc. }
    rewrite bind_ret. cbn [failed current_chunk_size].
    assert (0 < length d)%nat by (destruct d; [done|simpl; lia]). rewrite (proj2 (Z.eqb_neq _ _)) by lia.
    eexists. right. split; [done|]. exists d, pieces. done.
Qed.

Lemma read_loop_spec turns fuel (r : chunked_reader R) tail payload n got :
  (20 < fuel)%nat -> (length got <= n < turns + length got)%nat -> inside r tail payload ->
  exists r', read_loop turns fuel r n got = Ret (got ++ take (n - length got) payload, no_error, r')
    /\ ((n - length got <= length payload)%nat -> inside r' tail (drop (n - length got) payload))
    /\ ((length payload < n - length got)%nat -> reader_ok (parent r') /\ current_chunk_size r' = 0 /\ stream (parent r') = tail).
Proof.
  intros Hf. revert r payload got. induction turns as [|turns IH]; intros r payload got Hn Hin; [lia|]. cbn [read_loop].
  destruct (length got <? n)%nat eqn:E; reflect_bools.
  2: { exists r. replace (n - length got)%nat with 0%nat by lia. rewrite take_0, drop_0, app_nil_r.
       split_and!; [done|done|lia]. }
  destruct (open_chunk_spec fuel r tail payload Hf Hin)
    as (r1 & [(-> & -> & Hok1 & Hc1 & Hs1) | (-> & d & pieces & -> & Hok1 & Hd & Hc1 & Hp & Hs1)]); rewrite bind_ret.
  { exists r1. rewrite take_nil, app_nil_r. split_and!; [done|simpl; lia|done]. }
  set (k := (n - length got)%nat) in *. rewrite Hc1. replace (Z.to_nat _) with (Nat.min k (length d)) by lia.
  destruct (rd_full (parent r1) (Nat.min k (length d)) Hok1) as (p & -> & Hokp & Hsp). rewrite bind_ret. cbn [failed].
  destruct Hd as [Hne Hlen]. assert (0 < length d)%nat as Hpos by (destruct d; [done|simpl; lia]).
  rewrite Hs1 in *. rewrite take_app_le, drop_app_le in * by lia.
  cbn [current_chunk_size]. rewrite length_take. unfold u64. rewrite wrap_small by lia.
  destruct (Nat.le_gt_cases (length d) k) as [Hle|Hgt].
  - rewrite (Nat.min_r k (length d)) in * by lia. rewrite drop_all in Hsp. rewrite firstn_all, Nat.min_id, Z.sub_diag, Z.eqb_refl.
    destruct (end_of_chunk {| parent := p; current_chunk_size := 0 |} (chunks pieces ++ last_chunk ++ tail) Hokp Hsp)
      as (p2 & -> & Hok2 & Hs2). rewrite bind_ret. cbn [failed current_chunk_size].
    destruct (IH {| parent := p2; current_chunk_size := 0 |} (concat pieces) (got ++ d)) as (r2 & -> & Hin2 & Hend2);
      [rewrite length_app; lia|by apply inside_between|].
    exists r2. rewrite length_app in *. replace (n - (length got + length d))%nat with (k - length d)%nat in * by lia.
    rewrite take_app_ge, drop_app_ge, <- app_assoc by lia. split_and!; [done| |]; rewrite length_app; intros; [apply Hin2|apply Hend2]; lia.
  - rewrite !(Nat.min_l k (length d)) in * by lia. rewrite (proj2 (Z.eqb_neq _ _)) by lia.
    destruct (IH {| parent := p; current_chunk_size := Z.of_nat (length d) - Z.of_nat k |} (drop k d ++ concat pieces) (got ++ take k d))
      as (r2 & -> & Hin2 & Hend2).
    { rewrite length_app, length_take. lia. }
    { apply inside_chunk; try done; [split; [|rewrite length_drop; lia]|cbn; rewrite length_drop; lia].
      intros Hnil. apply (f_equal length) in Hnil. rewrite length_drop in Hnil. simpl in Hnil. lia. }
    exists r2. rewrite !length_app, length_take in *. replace (n - (length got + Nat.min k (length d)))%nat with 0%nat in * by lia.
    rewrite take_0, app_nil_r, drop_0, take_app_le, drop_app_le in * by lia.
    split_and!; [done|intros _; apply Hin2; lia|lia].
Qed.

Lemma chunked_read_spec fuel (r : chunked_reader R) tail payload n :
  (20 < fuel)%nat -> inside r tail payload ->
  exists r', read fuel r n = Ret (take n payload, no_error, r')
    /\ ((n <= length payload)%nat -> inside r' tail (drop n payload))
    /\ ((length payload < n)%nat -> reader_ok (parent r') /\ current_chunk_size r' = 0 /\ stream (parent r') = tail).
Proof.
  intros Hf Hin. destruct (read_loop_spec (S n) fuel r tail payload n [] Hf) as (r' & Hr & Hle & Hgt); [simpl; lia|done|].
  cbn [length app] in *. rewrite Nat.sub_0_r in *. exists r'. done.
Qed.
End Reading.

(** ** Writing *)

Lemma small_digits n : 0 <= n <= max_chunk_size -> to_chars_n 8 10 n = Some (to_chars 10 n).
Proof.
  intros Hn. unfold to_chars_n. rewrite (proj2 (Nat.leb_le _ _)); [done|].
  apply (to_chars_bound 10 n 7); [lia|]. change max_chunk_size with (10 ^ 8 - 1) in Hn. lia.
Qed.

(** One chunk per write, as far as the writer takes it. *)
Lemma chunked_write_spec {W} `{OrderedWriter W} (w : chunked_writer W) d :
  owriter_ok (out w) -> d <> [] -> Z.of_nat (length d) <= max_chunk_size ->
  exists k err w' j, write w d = Ret (k, err, w') /\ owriter_ok (out w')
    /\ osink (out w') = osink (out w) ++ take j (chunk d)
    /\ (failed err = false -> k = length d /\ (length (chunk d) <= j)%nat).
Proof.
  intros Hok Hne Hmax. assert (0 < length d)%nat as Hpos by (destruct d; [done|simpl; lia]).
  unfold write. cbn [write_loop]. rewrite (proj2 (Nat.ltb_lt _ _)) by done.
  rewrite Z.min_r, small_digits by lia. cbn [from_option]. unfold id, chunk. set (ds := to_chars 10 _).
  destruct (owr_spec (out w) ds Hok) as (k1 & e1 & w1 & j1 & -> & Hok1 & Hj1 & Hs1 & Hf1). rewrite bind_ret.
  destruct (failed e1) eqn:E1.
  { do 3 eexists. exists j1. split; [done|]. cbn [out]. rewrite Hs1, take_app_le by lia. split_and!; [done|done|congruence]. }
  destruct (Hf1 eq_refl) as [_ ->]. clear Hf1. rewrite firstn_all in Hs1.
  destruct (owr_spec w1 crlf Hok1) as (k2 & e2 & w2 & j2 & -> & Hok2 & Hj2 & Hs2 & Hf2). rewrite bind_ret.
  destruct (failed e2) eqn:E2.
  { do 3 eexists. exists (length ds + j2)%nat. split; [done|]. cbn [out].
    rewrite Hs2, Hs1, take_app_add, take_app_le, <- app_assoc by lia. split_and!; [done|done|congruence]. }
  destruct (Hf2 eq_refl) as [_ ->]. clear Hf2. rewrite firstn_all in Hs2.
  unfold subspan. rewrite Nat2Z.id, (proj2 (Nat.leb_le _ _)), bind_ret, drop_0, firstn_all by lia.
  destruct (owr_spec w2 d Hok2) as (k3 & e3 & w3 & j3 & -> & Hok3 & Hj3 & Hs3 & Hf3). rewrite bind_ret.
  destruct (failed e3) eqn:E3.
  { do 3 eexists. exists (length ds + (length crlf + j3))%nat. split; [done|]. cbn [out].
    rewrite Hs3, Hs2, Hs1, !take_app_add, take_app_le, <- !app_assoc by lia. split_and!; [done|done|congruence]. }
  destruct (Hf3 eq_refl) as [-> ->]. clear Hf3. rewrite firstn_all in Hs3.
  destruct (owr_spec w3 crlf Hok3) as (k4 & e4 & w4 & j4 & -> & Hok4 & Hj4 & Hs4 & Hf4). rewrite bind_ret.
  assert (osink w4 = osink (out w) ++ take (length ds + (length crlf + (length d + j4))) (ds ++ crlf ++ d ++ crlf)) as Hsink
    by (by rewrite Hs4, Hs3, Hs2, Hs1, !take_app_add, <- !app_assoc).
  destruct (failed e4) eqn:E4.
  { do 3 eexists. exists (length ds + (length crlf + (length d + j4)))%nat. split; [done|]. cbn [out].
    split_and!; [done|done|congruence]. }
  destruct (Hf4 eq_refl) as [_ ->]. destruct (length d) as [|m] eqn:El; [lia|]. cbn [write_loop].
  rewrite El, Nat.add_0_l, (proj2 (Nat.ltb_ge _ _)) by lia. cbn [obind]. do 3 eexists. exists (length ds + (length crlf + (S m + length crlf)))%nat.
  split; [done|]. cbn [out]. split_and!; [done|done|]. intros _. split; [done|]. rewrite !length_app, El. lia.
Qed.

Definition writable (d : list byte) : Prop := d <> [] /\ Z.of_nat (length d) <= max_chunk_size.

Lemma writable_piece d : writable d -> piece_ok d.
Proof. intros [Hne Hl]. split; [done|]. change max_chunk_size with 99999999 in Hl. lia. Qed.

Lemma write_chunks {W} `{OrderedWriter W} (w : chunked_writer W) pieces :
  owriter_ok (out w) -> Forall writable pieces ->
  exists k err w', write_all w pieces = Ret (k, err, w') /\ owriter_ok (out w')
    /\ (failed err = false -> k = length (concat pieces) /\ osink (out w') = osink (out w) ++ chunks pieces).
Proof.
  intros Hok Hp. revert w Hok. induction Hp as [|d pieces [Hne Hl] Hp IH]; intros w Hok; cbn [write_all].
  - exists 0%nat, no_error, w. split_and!; try done. intros _. split; [done|]. by rewrite app_nil_r.
  - change (wr w d) with (write w d).
    destruct (chunked_write_spec w d Hok Hne Hl) as (k & e & w1 & j & -> & Hok1 & Hs & Hf). rewrite bind_ret.
    destruct (failed e) eqn:E; [exists k, e, w1; split_and!; (done || congruence)|].
    destruct (Hf eq_refl) as [-> Hj]. rewrite take_ge in Hs by done.
    destruct (IH w1 Hok1) as (k2 & e2 & w2 & -> & Hok2 & Hf2). rewrite bind_ret.
    do 3 eexists. split; [done|]. split; [done|]. intros He. destruct (Hf2 He) as [-> Hs2].
    cbn [concat]. rewrite length_app, Hs2, Hs, <- app_assoc. done.
Qed.

(** Reads through the chunked reader of at most the payload. *)
Lemma chunked_reads_spec {R} `{FullReader R} fuel (r : chunked_reader R) tail payload sizes :
  (20 < fuel)%nat -> inside r tail payload -> (sum_list sizes <= length payload)%nat ->
  exists r', @reads _ (read fuel) r sizes = Ret (take (sum_list sizes) payload, r')
    /\ inside r' tail (drop (sum_list sizes) payload).
Proof.
  intros Hf. revert r payload. induction sizes as [|n sizes IH]; intros r payload Hin Hle; cbn [reads].
  - exists r. simpl. rewrite drop_0. done.
  - simpl in Hle. unfold rd. destruct (chunked_read_spec fuel r tail payload n Hf Hin) as (r1 & -> & Hin1 & _).
    rewrite bind_ret. destruct (IH r1 (drop n payload)) as (r2 & -> & Hin2); [apply Hin1; lia|rewrite length_drop; lia|].
    rewrite bind_ret. exists r2. simpl. rewrite drop_drop in Hin2. split; [|done].
    do 2 f_equal. rewrite <- take_take_drop. done.
Qed.

(** ** Properties *)



(** data longer than a chunk can be is not cut into chunks that fit: unless
    its length is a multiple of the maximum, the last turn of the loop takes a
    span past the end of the data. *)
Lemma chunked_writer_oversize (w : chunked_writer string_writer) d :
  max_chunk_size < Z.of_nat (length d) -> Z.of_nat (length d) mod max_chunk_size <> 0 -> write w d = Undef.
Proof.
  intros Hlong Hmod. unfold write.
  assert (forall fuel (o : string_writer) a, (a <= length d)%nat -> (length d - a < fuel)%nat ->
    (Z.of_nat (length d) - Z.of_nat a) mod max_chunk_size <> 0 -> write_loop fuel o d a = Undef) as Hloop;
    [|by rewrite Hloop by (rewrite ?Z.sub_0_r; (done || lia))].
  assert (0 < max_chunk_size) as Hpos by done. clear Hmod.
  induction fuel as [|fuel IH]; intros o a Ha Hf Hm; [lia|]. cbn [write_loop].
  assert (a < length d)%nat by (destruct (Nat.eq_dec a (length d)) as [->|]; [by rewrite Z.sub_diag in Hm|lia]).
  rewrite (proj2 (Nat.ltb_lt _ _)), Z.min_l by lia. cbn [obind failed wr string_writer_Writer string_writer_write].
  unfold subspan. destruct (_ <=? _)%nat eqn:E; [|done]. reflect_bools. cbn [obind failed].
  rewrite length_take, length_drop, Nat.min_l by lia. apply IH; [lia|lia|].
  rewrite Nat2Z.inj_add, Z2Nat.id by lia. intros H0. apply Hm. rewrite <- H0.
  replace (Z.of_nat (length d) - Z.of_nat a) with (Z.of_nat (length d) - (Z.of_nat a + max_chunk_size) + 1 * max_chunk_size) by lia.
  apply Z.mod_add. lia.
Qed.

Lemma chunked_writer_oversize_witness :
  write {| out := string_writer_empty |} (replicate (Z.to_nat 100000000) x00) = Undef.
Proof.
  apply chunked_writer_oversize; rewrite length_replicate, Z2Nat.id by lia; vm_compute; congruence.
Defined.
