(* ===== verification/StringMap.v ===== *)
(** * [util::string_map] (include/util/string_map.hpp)

    A [std::unordered_map] with string keys, a hash and an equality that accept
    string views.  The model keeps the elements in a list, in the order the map
    was filled; nothing below depends on it, and code that iterates takes any
    permutation.  An element is found when its key has the hash code of the key
    searched for and the two are equal, as in the library; the class [KeyLaws]
    says what makes that sound (equal keys have equal hash codes), and the
    theorems show that under these laws the map is a finite map on the
    equivalence classes of its keys. *)

From Stdlib Require Import ZArith Strings.Byte Lia String.
From stdpp Require Import prelude list gmap strings.
From S2P Require Import Prelude CxxStrings.

(** [Hash] and [KeyEqual].  A hash may be undefined on some keys. *)
Class KeyOps := {
  key_hash : list byte -> outcome Z;
  key_equal : list byte -> list byte -> bool;
}.

(** What the map needs of them: [canon] picks a representative of each class
    of equal keys, and the hash does not tell equal keys apart. *)
Class KeyLaws `{KeyOps} := {
  canon : list byte -> list byte;
  key_equal_canon : forall a b, key_equal a b = true <-> canon a = canon b;
  key_hash_canon : forall a b, canon a = canon b -> key_hash a = key_hash b;
}.

(** [default_string_map_hasher] and [default_string_map_keyequal], over the
    library's hash of a string. *)
Definition default_string_map_keyequal (lhs rhs : list byte) : bool := bytes_eqb lhs rhs.
Definition default_string_map_hasher (std_hash : list byte -> Z) (key : list byte) : outcome Z := Ret (std_hash key).

Definition default_keys (std_hash : list byte -> Z) : KeyOps := {|
  key_hash := default_string_map_hasher std_hash;
  key_equal := default_string_map_keyequal;
|}.

#[global] Instance default_laws (std_hash : list byte -> Z) : @KeyLaws (default_keys std_hash).
Proof. refine {| canon := id |}; [apply bytes_eqb_eq|intros a b Hab; unfold id in Hab; by subst]. Defined.

Notation string_map T := (list (list byte * T)) (only parsing).

(** ** Operations *)

Section Operations.
Context `{KeyOps} {T : Type}.
Implicit Types (m : string_map T) (k : list byte).

(** The element is in the bucket searched, and its key is the one. *)
Definition found (h : Z) (k : list byte) (e : list byte * T) : bool :=
  match key_hash e.1 with Ret h' => h =? h' | _ => false end && key_equal k e.1.

(** An iterator is a position, [None] the end. *)
Definition find m k : outcome (option nat) :=
  let* h := key_hash k in Ret (find_index (found h k) m).

Definition deref m (it : nat) : outcome (list byte * T) := index m it.

Definition empty m : bool := match m with [] => true | _ => false end.
Definition size m : nat := length m.
Definition clear m : string_map T := [].

(** [insert], [emplace] and [try_emplace] keep an element that is there. *)
Definition emplace m k (v : T) : outcome (bool * string_map T) :=
  let* it := find m k in
  match it with
  | Some _ => Ret (false, m)
  | None => Ret (true, m ++ [(k, v)])
  end.

(** [insert_or_assign] replaces its value, and keeps its key. *)
Definition insert_or_assign m k (v : T) : outcome (bool * string_map T) :=
  let* it := find m k in
  match it with
  | Some i => Ret (false, alter (fun e => (e.1, v)) i m)
  | None => Ret (true, m ++ [(k, v)])
  end.

Definition erase m k : outcome (nat * string_map T) :=
  let* it := find m k in
  match it with
  | Some i => Ret (1%nat, delete i m)
  | None => Ret (0%nat, m)
  end.

(** [at]: a reference, or an exception. *)
Definition at_ m k : outcome T :=
  let* it := find m k in
  match it with
  | Some i => let* e := deref m i in Ret e.2
  | None => Throw out_of_range
  end.

(** [operator[]]: a reference to the value, which [mapped_type{}] fills if it is new. *)
Definition subscript (fresh : T) m k : outcome (nat * string_map T) :=
  let* it := find m k in
  match it with
  | Some i => Ret (i, m)
  | None => Ret (length m, m ++ [(k, fresh)])
  end.

(** [values[k] = f (values[k])], an update through that reference. *)
Definition update_at (fresh : T) m k (f : T -> T) : outcome (string_map T) :=
  let* (i, m) := subscript fresh m k in Ret (alter (fun e => (e.1, f e.2)) i m).

Definition count m k : outcome nat :=
  let* it := find m k in Ret (match it with Some _ => 1%nat | None => 0%nat end).
Definition contains m k : outcome bool :=
  let* it := find m k in Ret (match it with Some _ => true | None => false end).

(** Filling the map from a list: the first element with a key stays. *)
Fixpoint insert_list m (l : list (list byte * T)) : outcome (string_map T) :=
  match l with
  | [] => Ret m
  | (k, v) :: l => let* (_, m) := emplace m k v in insert_list m l
  end.

Definition of_list (init : list (list byte * T)) : outcome (string_map T) := insert_list [] init.

(** [merge]: the nodes whose keys are not there move over, the rest stay. *)
Fixpoint merge m (source : string_map T) : outcome (string_map T * string_map T) :=
  match source with
  | [] => Ret (m, [])
  | (k, v) :: source =>
      let* (inserted, m) := emplace m k v in
      let* (m, kept) := merge m source in
      Ret (m, if inserted : bool then kept else (k, v) :: kept)
  end.

Definition erase_if m (pred : list byte * T -> bool) : nat * string_map T :=
  (length (List.filter pred m), List.filter (fun e => negb (pred e)) m).

(** [swap]: the new contents of the map and of the other one *)
Definition swap m (other : string_map T) : string_map T * string_map T := (other, m).

(** [extract]: a node leaves the map; the handle is empty if there is none. *)
Definition extract m k : outcome (option (list byte * T) * string_map T) :=
  let* it := find m k in
  match it with
  | Some i => let* e := deref m i in Ret (Some e, delete i m)
  | None => Ret (None, m)
  end.

(** [insert(node_type&&)]: the node is given back if its key is there. *)
Definition insert_node m (nh : option (list byte * T)) : outcome (bool * option (list byte * T) * string_map T) :=
  match nh with
  | None => Ret (false, None, m)
  | Some (k, v) => let* (inserted, m) := emplace m k v in Ret (inserted, if inserted : bool then None else Some (k, v), m)
  end.

(** [equal_range]: the positions from the first up to the second, the end twice if there is none *)
Definition equal_range m k : outcome (nat * nat) :=
  let* it := find m k in Ret (match it with Some i => (i, S i) | None => (length m, length m) end).

(** [operator==]: as many elements, and for each of them the one the other map
    finds is the same pair. *)
Section Equality.
Variable value_eq : T -> T -> bool.

Fixpoint all_found (l : list (list byte * T)) (rhs : string_map T) : outcome bool :=
  match l with
  | [] => Ret true
  | (k, v) :: l =>
      let* it := find rhs k in
      match it with
      | None => Ret false
      | Some i => let* e := deref rhs i in
                  if bytes_eqb k e.1 && value_eq v e.2 then all_found l rhs else Ret false
      end
  end.

Definition equal m (rhs : string_map T) : outcome bool :=
  if (length m =? length rhs)%nat then all_found m rhs else Ret false.
End Equality.
End Operations.

(** ** The map it is *)

Section Laws.
Context `{KeyLaws} {T : Type}.
Implicit Types (m : string_map T) (k : list byte).

Definition valid_key (k : list byte) : Prop := returns (key_hash k).

Definition keys (m : string_map T) : list (list byte) := (fun e => canon e.1) <$> m.

Record map_ok m : Prop := { ok_nodup : NoDup (keys m); ok_valid : Forall (fun e => valid_key e.1) m }.

Definition abs m : gmap (list byte) T := list_to_map ((fun e => (canon e.1, e.2)) <$> m).

Lemma keys_fst m : ((fun e => (canon e.1, e.2)) <$> m).*1 = keys m.
Proof. unfold keys. rewrite <- list_fmap_compose. done. Qed.

Lemma found_canon h k (e : list byte * T) : key_hash k = Ret h -> found h k e = true <-> canon k = canon e.1.
Proof.
  intros Hh. unfold found. rewrite andb_true_iff, key_equal_canon. split; [by intros [_ ?]|].
  intros Hc. split; [|done]. by rewrite <- (key_hash_canon _ _ Hc), Hh, Z.eqb_refl.
Qed.

Lemma abs_elem m k v : map_ok m -> abs m !! canon k = Some v <-> exists k', (k', v) ∈ m /\ canon k = canon k'.
Proof.
  intros [Hn _]. unfold abs. rewrite <- elem_of_list_to_map by (by rewrite keys_fst).
  rewrite list_elem_of_fmap. split.
  - intros ([k' v'] & [= -> ->] & Hin). eauto.
  - intros (k' & Hin & Hc). exists (k', v). by rewrite Hc.
Qed.

(** A search finds the element of the key's class, if there is one. *)
Lemma find_spec m k :
  map_ok m -> valid_key k ->
  exists it, find m k = Ret it /\
    match it with
    | Some i => exists k' v, m !! i = Some (k', v) /\ canon k' = canon k /\ abs m !! canon k = Some v
    | None => abs m !! canon k = None
    end.
Proof.
  intros Hok [h Hh]. unfold find. rewrite Hh, bind_ret. eexists. split; [done|].
  destruct (find_index (found h k) m) as [i|] eqn:E.
  - apply find_index_Some in E as (a & [k' v] & b & Em & <- & Hf & _). apply found_canon in Hf; [|done].
    exists k', v. rewrite Em at 1. rewrite list_lookup_middle by done. split_and!; [done|done|].
    apply abs_elem; [done|]. exists k'. rewrite Em. split; [apply elem_of_app; right; left|done].
  - apply find_index_None in E. destruct (abs m !! canon k) as [v|] eqn:Ea; [|done].
    apply abs_elem in Ea as (k' & Hin & Hc); [|done]. rewrite Forall_forall in E. specialize (E _ Hin).
    apply not_true_iff_false in E. destruct E. by apply found_canon.
Qed.

(** A new element at the end, of a key that is not there. *)
Lemma append_ok m k v :
  map_ok m -> valid_key k -> abs m !! canon k = None -> map_ok (m ++ [(k, v)]) /\ abs (m ++ [(k, v)]) = <[canon k := v]> (abs m).
Proof.
  intros Hok Hk Hnone. assert (canon k ∉ keys m) as Hnk.
  { unfold keys. rewrite list_elem_of_fmap. intros ([k' v'] & Hc & Hin).
    enough (abs m !! canon k = Some v') by congruence. apply abs_elem; eauto. }
  pose proof Hok as [Hn Hv]. assert (NoDup (keys (m ++ [(k, v)]))) as Hn'.
  { unfold keys. rewrite fmap_app. apply NoDup_app. split_and!; [done| |apply NoDup_singleton].
    intros c Hc Hc2. apply list_elem_of_singleton in Hc2 as ->. done. }
  split; [constructor; [done|apply Forall_app_2; [done|by constructor]]|].
  unfold abs. rewrite fmap_app, list_to_map_app. cbn. apply map_eq. intros c. rewrite lookup_union.
  destruct (decide (c = canon k)) as [->|Hne].
  - fold (abs m). rewrite Hnone, !lookup_insert_eq. done.
  - rewrite !lookup_insert_ne, lookup_empty by done. by destruct (_ !! c).
Qed.

Lemma keys_alter m f i : keys (alter (fun e => (e.1, f e)) i m) = keys m.
Proof.
  unfold keys. apply list_eq. intros j. rewrite !list_lookup_fmap.
  destruct (decide (i = j)) as [->|]; [rewrite list_lookup_alter_eq|by rewrite list_lookup_alter_ne].
  by destruct (m !! j).
Qed.

(** A new value for an element that is there. *)
Lemma assign_ok m k i k' v f :
  map_ok m -> m !! i = Some (k', v) -> canon k' = canon k ->
  map_ok (alter (fun e => (e.1, f e.2)) i m) /\ abs (alter (fun e => (e.1, f e.2)) i m) = <[canon k := f v]> (abs m).
Proof.
  intros Hok Hi Hc. assert (i < length m)%nat as Hlt by (by apply lookup_lt_Some in Hi).
  destruct Hok as [Hn Hv]. assert (map_ok (alter (fun e => (e.1, f e.2)) i m)) as Hok'.
  { constructor; [by rewrite (keys_alter m (fun e => f e.2))|]. apply Forall_alter; [done|]. intros [a b] _. done. }
  split; [done|]. apply map_eq. intros c. unfold abs. apply option_eq. intros u.
  rewrite <- elem_of_list_to_map by (rewrite keys_fst; apply Hok'). rewrite list_elem_of_fmap.
  destruct (decide (c = canon k)) as [->|Hne].
  - rewrite lookup_insert_eq. split.
    + intros ([k2 v2] & [= Hk ->] & (j & Hj)%list_elem_of_lookup).
      assert (j = i) as ->.
      { eapply (NoDup_lookup (keys m)); [done| |].
        - rewrite <- (keys_alter m (fun e => f e.2) i). unfold keys. rewrite list_lookup_fmap, Hj. simpl. by rewrite <- Hk.
        - unfold keys. rewrite list_lookup_fmap, Hi. simpl. by rewrite Hc. }
      rewrite list_lookup_alter_eq, Hi in Hj. simpl in Hj. congruence.
    + intros [= <-]. exists (k', f v). split; [simpl; by rewrite Hc|]. apply list_elem_of_lookup. exists i.
      by rewrite list_lookup_alter_eq, Hi.
  - rewrite lookup_insert_ne by done. rewrite <- elem_of_list_to_map by (by rewrite keys_fst).
    rewrite list_elem_of_fmap. split; intros ([k2 v2] & [= -> ->] & (j & Hj)%list_elem_of_lookup);
      (exists (k2, v2); split; [done|]); apply list_elem_of_lookup; exists j.
    + destruct (decide (i = j)) as [->|]; [|by rewrite list_lookup_alter_ne in Hj].
      rewrite list_lookup_alter_eq, Hi in Hj. simpl in Hj. congruence.
    + rewrite list_lookup_alter_ne; [done|]. intros ->. congruence.
Qed.

Lemma erase_ok m k i k' v :
  map_ok m -> m !! i = Some (k', v) -> canon k' = canon k ->
  map_ok (delete i m) /\ abs (delete i m) = delete (canon k) (abs m).
Proof.
  intros [Hn Hv] Hi Hc.
  assert (m = take i m ++ (k', v) :: drop (S i) m) as Em by (by rewrite take_drop_middle).
  assert (delete i m = take i m ++ drop (S i) m) as Ed by apply delete_take_drop. rewrite Ed.
  set (a := take i m) in *. set (b := drop (S i) m) in *. clearbody a b. subst m. clear Hi Ed.
  unfold keys in Hn. rewrite fmap_app, fmap_cons in Hn.
  apply NoDup_app in Hn as (Ha & Hab & Hb). apply NoDup_cons in Hb as [Hkb Hb]. cbn in Hab, Hkb.
  apply Forall_app in Hv as [Hva Hvb]. apply Forall_cons in Hvb as [_ Hvb].
  split.
  - constructor; [|by apply Forall_app]. unfold keys. rewrite fmap_app. apply NoDup_app. split_and!; [done| |done].
    intros c Hca Hcb. apply (Hab c Hca). by right.
  - unfold abs. rewrite !fmap_app, fmap_cons, !list_to_map_app. cbn. rewrite Hc in *.
    rewrite delete_union, delete_insert_eq.
    rewrite !delete_id; [done| |]; apply not_elem_of_list_to_map_1; rewrite keys_fst; [done|].
    intros Hin. apply (Hab (canon k)); [|by left]. by unfold keys in Hin.
Qed.

(** *** The operations *)

Lemma find_position m k :
  map_ok m -> valid_key k ->
  (exists i k' v, find m k = Ret (Some i) /\ m !! i = Some (k', v) /\ canon k' = canon k /\ abs m !! canon k = Some v)
  \/ (find m k = Ret None /\ abs m !! canon k = None).
Proof.
  intros Hok Hk. destruct (find_spec m k Hok Hk) as ([i|] & Hf & Hm); [left|by right].
  destruct Hm as (k' & v & Hi & Hc & Ha). by exists i, k', v.
Qed.

Lemma emplace_spec m k v :
  map_ok m -> valid_key k ->
  exists m', emplace m k v = Ret (bool_decide (abs m !! canon k = None), m') /\ map_ok m'
    /\ abs m' = match abs m !! canon k with Some _ => abs m | None => <[canon k := v]> (abs m) end.
Proof.
  intros Hok Hk. unfold emplace. destruct (find_position m k Hok Hk) as [(i & k' & u & -> & Hi & Hc & Ha) | [-> Ha]];
    rewrite bind_ret, Ha; (eexists; split; [done|]); [done|]. by apply append_ok.
Qed.

Lemma insert_or_assign_spec m k v :
  map_ok m -> valid_key k ->
  exists m', insert_or_assign m k v = Ret (bool_decide (abs m !! canon k = None), m') /\ map_ok m'
    /\ abs m' = <[canon k := v]> (abs m).
Proof.
  intros Hok Hk. unfold insert_or_assign. destruct (find_position m k Hok Hk) as [(i & k' & u & -> & Hi & Hc & Ha) | [-> Ha]];
    rewrite bind_ret, Ha; (eexists; split; [done|]).
  - by apply (assign_ok m k i k' u (fun _ => v)).
  - by apply append_ok.
Qed.

Lemma map_erase_spec m k :
  map_ok m -> valid_key k ->
  exists n m', erase m k = Ret (n, m') /\ map_ok m' /\ abs m' = delete (canon k) (abs m)
    /\ n = (if bool_decide (abs m !! canon k = None) then 0%nat else 1%nat).
Proof.
  intros Hok Hk. unfold erase. destruct (find_position m k Hok Hk) as [(i & k' & u & -> & Hi & Hc & Ha) | [-> Ha]];
    rewrite bind_ret, Ha; do 2 eexists; (split; [done|]).
  - destruct (erase_ok m k i k' u Hok Hi Hc). done.
  - split_and!; [done| |done]. by rewrite delete_id.
Qed.

Lemma at_spec m k :
  map_ok m -> valid_key k ->
  at_ m k = match abs m !! canon k with Some v => Ret v | None => Throw out_of_range end.
Proof.
  intros Hok Hk. unfold at_. destruct (find_position m k Hok Hk) as [(i & k' & u & -> & Hi & Hc & Ha) | [-> Ha]];
    rewrite bind_ret, Ha; [|done]. unfold deref, index. by rewrite Hi.
Qed.

Lemma update_at_spec fresh m k f :
  map_ok m -> valid_key k ->
  exists m', update_at fresh m k f = Ret m' /\ map_ok m'
    /\ abs m' = <[canon k := f (default fresh (abs m !! canon k))]> (abs m).
Proof.
  intros Hok Hk. unfold update_at, subscript.
  destruct (find_position m k Hok Hk) as [(i & k' & u & -> & Hi & Hc & Ha) | [-> Ha]]; rewrite !bind_ret, Ha;
    (eexists; split; [done|]).
  - by apply (assign_ok m k i k' u f).
  - destruct (append_ok m k fresh Hok Hk Ha) as [Hok' Habs].
    destruct (assign_ok (m ++ [(k, fresh)]) k (length m) k fresh f) as [Hok2 Habs2]; [done|by apply list_lookup_middle|done|].
    split; [done|]. rewrite Habs2, Habs, insert_insert_eq. done.
Qed.

Lemma subscript_spec fresh m k :
  map_ok m -> valid_key k ->
  exists i k' m', subscript fresh m k = Ret (i, m') /\ m' !! i = Some (k', default fresh (abs m !! canon k)) /\ map_ok m'
    /\ abs m' = match abs m !! canon k with Some _ => abs m | None => <[canon k := fresh]> (abs m) end.
Proof.
  intros Hok Hk. unfold subscript. destruct (find_position m k Hok Hk) as [(i & k' & u & -> & Hi & Hc & Ha) | [-> Ha]];
    rewrite bind_ret, Ha.
  - by exists i, k', m.
  - exists (length m), k, (m ++ [(k, fresh)]). split; [done|]. split; [by apply list_lookup_middle|]. by apply append_ok.
Qed.

Lemma contains_spec m k :
  map_ok m -> valid_key k -> contains m k = Ret (bool_decide (is_Some (abs m !! canon k))).
Proof.
  intros Hok Hk. unfold contains. destruct (find_position m k Hok Hk) as [(i & k' & u & -> & Hi & Hc & Ha) | [-> Ha]];
    by rewrite bind_ret, Ha.
Qed.

Lemma count_spec m k :
  map_ok m -> valid_key k -> count m k = Ret (if bool_decide (abs m !! canon k = None) then 0 else 1)%nat.
Proof.
  intros Hok Hk. unfold count. by destruct (find_position m k Hok Hk) as [(i & k' & u & -> & Hi & Hc & ->) | [-> ->]].
Qed.

Lemma size_spec m : map_ok m -> size m = base.size (abs m).
Proof.
  intros [Hn _]. unfold size, abs. rewrite map_size_list_to_map by (by rewrite keys_fst). by rewrite length_fmap.
Qed.

Lemma empty_map_ok : map_ok [] /\ abs [] = ∅.
Proof. split; [constructor; [apply NoDup_nil_2|done]|done]. Qed.

Lemma insert_list_spec m l :
  map_ok m -> Forall (fun e => valid_key e.1) l ->
  exists m', insert_list m l = Ret m' /\ map_ok m' /\ abs m' = abs m ∪ abs l.
Proof.
  intros Hok Hl. revert m Hok. induction Hl as [|[k v] l Hk Hl IH]; intros m Hok; cbn [insert_list].
  - exists m. split_and!; try done. unfold abs at 3. cbn. by rewrite map_union_empty.
  - destruct (emplace_spec m k v Hok Hk) as (m1 & -> & Hok1 & Ha1). rewrite bind_ret.
    destruct (IH m1 Hok1) as (m2 & -> & Hok2 & Ha2). exists m2. split_and!; [done|done|]. rewrite Ha2, Ha1.
    apply map_eq. intros c. change (abs ((k, v) :: l)) with (<[canon k := v]> (abs l)). rewrite !lookup_union.
    destruct (abs m !! canon k) as [u|] eqn:E; destruct (decide (c = canon k)) as [->|Hne];
      rewrite ?E, ?lookup_insert_eq, ?lookup_insert_ne by done; try done.
    + by destruct (abs l !! canon k).
    + by destruct (abs l !! canon k).
Qed.

Lemma extract_spec m k :
  map_ok m -> valid_key k ->
  exists nh m', extract m k = Ret (nh, m') /\ map_ok m' /\ abs m' = delete (canon k) (abs m)
    /\ snd <$> nh = abs m !! canon k /\ (forall k' v, nh = Some (k', v) -> canon k' = canon k /\ (k', v) ∈ m).
Proof.
  intros Hok Hk. unfold extract. destruct (find_position m k Hok Hk) as [(i & k' & u & -> & Hi & Hc & Ha) | [-> Ha]]; rewrite bind_ret.
  - unfold deref, index. rewrite Hi, bind_ret. do 2 eexists; split; [done|].
    destruct (erase_ok m k i k' u Hok Hi Hc) as [Hok' Ha']. split_and!; [done..|].
    intros k2 v2 [= <- <-]. split; [done|]. by apply list_elem_of_lookup_2 in Hi.
  - do 2 eexists; split; [done|]. rewrite Ha, delete_id by done. split_and!; done.
Qed.

(** A node goes back where it came from. *)
Lemma extract_insert_node m k :
  map_ok m -> valid_key k ->
  exists nh m' b m2, extract m k = Ret (nh, m') /\ insert_node m' nh = Ret (b, None, m2)
    /\ map_ok m2 /\ abs m2 = abs m /\ b = bool_decide (is_Some (abs m !! canon k)).
Proof.
  intros Hok Hk. destruct (extract_spec m k Hok Hk) as (nh & m' & He & Hok' & Ha & Hl & Hin).
  exists nh, m'. destruct nh as [[k' v]|]; cbn in Hl.
  - destruct (Hin k' v eq_refl) as [Hc Hm].
    assert (valid_key k') as Hk' by (unfold valid_key; by rewrite (key_hash_canon k' k Hc)).
    destruct (emplace_spec m' k' v Hok' Hk') as (m2 & Hm2 & Hok2 & Ha2). exists true, m2.
    rewrite Ha, Hc, lookup_delete_eq in Hm2, Ha2. unfold insert_node. rewrite Hm2. rewrite insert_delete_id in Ha2 by done.
    split_and!; [done..|]. by rewrite <- Hl.
  - exists false, m'. rewrite Ha, delete_id by done. split_and!; [done..|]. by rewrite <- Hl.
Qed.

(** The range of a key holds its element, if it has one. *)
Lemma equal_range_spec m k :
  map_ok m -> valid_key k ->
  exists i j, equal_range m k = Ret (i, j) /\ (i <= j <= length m)%nat
    /\ snd <$> take (j - i) (drop i m) = option_list (abs m !! canon k).
Proof.
  intros Hok Hk. unfold equal_range. destruct (find_position m k Hok Hk) as [(i & k' & u & -> & Hi & Hc & Ha) | [-> Ha]];
    rewrite bind_ret, Ha; do 2 eexists; (split; [done|]).
  - pose proof (lookup_lt_Some _ _ _ Hi). split; [lia|]. rewrite (drop_S _ _ _ Hi). by replace (S i - i)%nat with 1%nat by lia.
  - split; [lia|]. by rewrite Nat.sub_diag.
Qed.

Lemma all_found_spec (value_eq : T -> T -> bool) l m :
  (forall a b, value_eq a b = true <-> a = b) -> map_ok m -> Forall (fun e => valid_key e.1) l ->
  exists b, all_found value_eq l m = Ret b /\ (b = true <-> Forall (fun e => e ∈ m) l).
Proof.
  intros Heq Hok. induction l as [|[k v] l IH]; intros Hl; cbn [all_found].
  - exists true. by split.
  - apply Forall_cons in Hl as [Hk Hl]. destruct (IH Hl) as (b & Hb & Hiff). cbn in Hk.
    destruct (find_position m k Hok Hk) as [(i & k' & u & -> & Hi & Hc & Ha) | [-> Ha]]; rewrite bind_ret.
    + unfold deref, index. rewrite Hi, bind_ret. cbn [fst snd].
      assert ((k, v) ∈ m -> v = u) as Hu.
      { intros Hin. assert (abs m !! canon k = Some v) as Hv by (apply abs_elem; [done|]; by exists k). congruence. }
      destruct (bytes_eqb k k' && value_eq v u) eqn:E.
      * exists b. split; [done|]. apply andb_true_iff in E as [->%bytes_eqb_eq ->%Heq]. rewrite Forall_cons, Hiff.
        apply list_elem_of_lookup_2 in Hi. naive_solver.
      * exists false. split; [done|]. split; [done|]. intros [Hin _]%Forall_cons. exfalso.
        pose proof (Hu Hin) as <-. apply list_elem_of_lookup in Hin as [j Hj].
        assert (j = i) as ->.
        { destruct Hok as [Hn _]. apply (proj1 (NoDup_alt _) Hn j i (canon k)); unfold keys; rewrite list_lookup_fmap.
          - by rewrite Hj.
          - by rewrite Hi, <- Hc. }
        rewrite Hj in Hi. injection Hi as <-. rewrite (proj2 (bytes_eqb_eq k k) eq_refl), (proj2 (Heq v v) eq_refl) in E. done.
    + exists false. split; [done|]. split; [done|]. intros [Hin _]%Forall_cons. exfalso.
      assert (abs m !! canon k = Some v) as Hv by (apply abs_elem; [done|]; by exists k). congruence.
Qed.

(** Two maps compare equal exactly when they hold the same pairs, in any order:
    the keys are compared as strings, whatever [KeyEqual] identifies. *)
Lemma equal_spec (value_eq : T -> T -> bool) m m' :
  (forall a b, value_eq a b = true <-> a = b) -> map_ok m -> map_ok m' ->
  exists b, equal value_eq m m' = Ret b /\ (b = true <-> m ≡ₚ m').
Proof.
  intros Heq Hok Hok'. unfold equal. destruct (length m =? length m')%nat eqn:E.
  - destruct (all_found_spec value_eq m m' Heq Hok' (ok_valid m Hok)) as (b & -> & Hb). exists b. split; [done|]. rewrite Hb, Forall_forall.
    apply Nat.eqb_eq in E. split; [|intros Hp x Hx; by rewrite <- Hp].
    intros Hsub. apply submseteq_length_Permutation; [|lia]. apply NoDup_submseteq; [|done].
    apply (NoDup_fmap_1 (fun e => canon e.1)). apply (ok_nodup m Hok).
  - exists false. split; [done|]. split; [done|]. intros Hp. apply Nat.eqb_neq in E. by rewrite Hp in E.
Qed.
End Laws.

(** ** Properties *)

Inductive operation (T : Type) : Type :=
| Assign (k : list byte) (v : T)
| Emplace (k : list byte) (v : T)
| Erase (k : list byte)
| At (k : list byte)
| Contains (k : list byte)
| Count (k : list byte)
| Extract (k : list byte)
| Range (k : list byte)
| Subscript (fresh : T) (k : list byte)
| Clear
| Size.
Arguments Assign {T}. Arguments Emplace {T}. Arguments Erase {T}.
Arguments At {T}. Arguments Contains {T}. Arguments Count {T}. Arguments Extract {T}.
Arguments Range {T}. Arguments Subscript {T}. Arguments Clear {T}. Arguments Size {T}.

Inductive answer (T : Type) : Type :=
| Flag (b : bool)
| Number (n : nat)
| Value (v : option T).
Arguments Flag {T}. Arguments Number {T}. Arguments Value {T}.

Definition key_of {T} (op : operation T) : option (list byte) :=
  match op with
  | Assign k _ | Emplace k _ | Erase k | At k | Contains k | Count k | Extract k | Range k | Subscript _ k => Some k
  | Clear | Size => None
  end.

(** The operation on the map; the exception of [at] is caught. *)
Definition perform `{KeyOps} {T} (m : string_map T) (op : operation T) : outcome (answer T * string_map T) :=
  match op with
  | Assign k v => let* (b, m) := insert_or_assign m k v in Ret (Flag b, m)
  | Emplace k v => let* (b, m) := emplace m k v in Ret (Flag b, m)
  | Erase k => let* (n, m) := erase m k in Ret (Number n, m)
  | At k => match at_ m k with Throw out_of_range => Ret (Value None, m) | r => let* v := r in Ret (Value (Some v), m) end
  | Contains k => let* b := contains m k in Ret (Flag b, m)
  | Count k => let* n := count m k in Ret (Number n, m)
  | Extract k => let* (nh, m) := extract m k in Ret (Value (snd <$> nh), m)
  | Range k => let* (i, j) := equal_range m k in Ret (Value (snd <$> head (take (j - i) (drop i m))), m)
  | Subscript fresh k => let* (i, m) := subscript fresh m k in let* e := deref m i in Ret (Value (Some e.2), m)
  | Clear => Ret (Number 0, clear m)
  | Size => Ret (Number (size m), m)
  end.

Fixpoint run `{KeyOps} {T} (m : string_map T) (ops : list (operation T)) : outcome (list (answer T) * string_map T) :=
  match ops with
  | [] => Ret ([], m)
  | op :: ops =>
      let* (a, m) := perform m op in
      let* (l, m) := run m ops in
      Ret (a :: l, m)
  end.

(** The same operation on a finite map. *)
Definition perform_map `{KeyLaws} {T} (m : gmap (list byte) T) (op : operation T) : answer T * gmap (list byte) T :=
  match op with
  | Assign k v => (Flag (bool_decide (m !! canon k = None)), <[canon k := v]> m)
  | Emplace k v => (Flag (bool_decide (m !! canon k = None)),
                    match m !! canon k with Some _ => m | None => <[canon k := v]> m end)
  | Erase k => (Number (if bool_decide (m !! canon k = None) then 0 else 1)%nat, delete (canon k) m)
  | At k => (Value (m !! canon k), m)
  | Contains k => (Flag (bool_decide (is_Some (m !! canon k))), m)
  | Count k => (Number (if bool_decide (m !! canon k = None) then 0 else 1)%nat, m)
  | Extract k => (Value (m !! canon k), delete (canon k) m)
  | Range k => (Value (m !! canon k), m)
  | Subscript fresh k => (Value (Some (default fresh (m !! canon k))),
                          match m !! canon k with Some _ => m | None => <[canon k := fresh]> m end)
  | Clear => (Number 0, ∅)
  | Size => (Number (base.size m), m)
  end.

Fixpoint run_map `{KeyLaws} {T} (m : gmap (list byte) T) (ops : list (operation T)) : list (answer T) * gmap (list byte) T :=
  match ops with
  | [] => ([], m)
  | op :: ops =>
      let (a, m) := perform_map m op in
      let (l, m) := run_map m ops in
      (a :: l, m)
  end.

Lemma perform_refines `{KeyLaws} {T} (m : string_map T) op :
  map_ok m -> (forall k, key_of op = Some k -> valid_key k) ->
  exists a m', perform m op = Ret (a, m') /\ map_ok m' /\ (a, abs m') = perform_map (abs m) op.
Proof.
  intros Hok Hk. destruct op; cbn [perform perform_map key_of] in *; try specialize (Hk _ eq_refl).
  - destruct (insert_or_assign_spec m k v Hok Hk) as (m' & -> & Hok' & Ha). eexists _, m'. by rewrite Ha.
  - destruct (emplace_spec m k v Hok Hk) as (m' & -> & Hok' & Ha). eexists _, m'. by rewrite Ha.
  - destruct (map_erase_spec m k Hok Hk) as (n & m' & -> & Hok' & Ha & ->). eexists _, m'. by rewrite Ha.
  - rewrite at_spec by done. destruct (abs m !! canon k); eexists _, _; done.
  - rewrite contains_spec by done. eexists _, _. done.
  - rewrite count_spec by done. eexists _, _. done.
  - destruct (extract_spec m k Hok Hk) as (nh & m' & -> & Hok' & Ha & Hl & _). rewrite bind_ret. eexists _, m'. by rewrite Hl, Ha.
  - destruct (equal_range_spec m k Hok Hk) as (i & j & -> & _ & Hr). rewrite bind_ret. eexists _, m. split_and!; [done..|].
    cbn [perform_map]. do 2 f_equal. destruct (abs m !! canon k), (take (j - i) (drop i m)) as [|e [|]]; try done. by injection Hr as <-.
  - destruct (subscript_spec fresh m k Hok Hk) as (i & k' & m' & -> & Hi & Hok' & Ha). rewrite bind_ret. unfold deref, index.
    rewrite Hi, bind_ret. eexists _, m'. by rewrite Ha.
  - destruct (@empty_map_ok _ _ T) as [? ?]. by eexists _, [].
  - rewrite size_spec by done. eexists _, _. done.
Qed.

(** Under the laws of its hash and equality, a [string_map] is a finite map
    on the classes of equal keys: any sequence of operations answers and ends
    as it does on such a map. *)
Lemma string_map_refines_map `{KeyLaws} {T} (ops : list (operation T)) :
  Forall (fun op => forall k, key_of op = Some k -> valid_key k) ops ->
  exists answers m, run [] ops = Ret (answers, m) /\ (answers, abs m) = run_map ∅ ops.
Proof.
  intros Hops. rewrite <- (proj2 (@empty_map_ok _ _ T)). generalize (proj1 (@empty_map_ok _ _ T)).
  generalize (@nil (list byte * T)). induction Hops as [|op ops Hop Hops IH]; intros m Hok; cbn [run run_map].
  - by exists [], m.
  - destruct (perform_refines m op Hok Hop) as (a & m1 & -> & Hok1 & Ha). rewrite bind_ret, <- Ha.
    destruct (IH m1 Hok1) as (l & m2 & -> & Hl). rewrite bind_ret, <- Hl. by exists (a :: l), m2.
Qed.

Example string_map_runs :
  exists answers m, @run (default_keys (fun _ => 7)) Z [] [Assign (lit "a") 1; Emplace (lit "a") 2; Assign (lit "b") 3; Erase (lit "a"); Subscript 9 (lit "c"); At (lit "b")]
      = Ret (answers, m)
    /\ (answers, @abs _ (default_laws (fun _ => 7)) Z m)
       = @run_map _ (default_laws (fun _ => 7)) Z ∅ [Assign (lit "a") 1; Emplace (lit "a") 2; Assign (lit "b") 3; Erase (lit "a"); Subscript 9 (lit "c"); At (lit "b")].
Proof.
  apply (@string_map_refines_map _ (default_laws (fun _ => 7)) Z).
  repeat (apply Forall_cons; split; [intros k [= <-]; by eexists|]). apply Forall_nil_2.
Qed.
