(* ===== verification/Buckets.v ===== *)
(** * The table of a [string_map] (include/util/string_map.hpp)

    The operations of [string_map] that speak of its representation: the
    constructors that take a number of buckets or a range, the buckets and
    their elements, the load factor, [rehash] and [reserve], and the operations
    on iterators (with a hint, by position, by range).  How many buckets a map
    takes and in which of them a hash code falls is the library's choice: the
    class [BucketPolicy], of which [BucketLaws] says what the standard does.
    An iterator is a position in the order of the elements, the end is their
    number.  A factor is the rational number that the [float] stands for;
    [load_factor] is given before it is rounded to a [float].

    The theorems: the buckets are a partition of the elements, looking in the
    bucket of a key is looking in the map, changing the number of buckets
    changes nothing else, and a hint changes nothing at all. *)

From Stdlib Require Import ZArith QArith Qround Strings.Byte Lia Lqa String.
From stdpp Require Import prelude list gmap strings.
From S2P Require Import Prelude CxxStrings StringMap.

Open Scope Z_scope.

Class BucketPolicy := {
  bucket_index : Z -> nat -> nat;
  new_bucket_count : nat -> nat -> Q -> nat;
}.

(** The elements fit in so many buckets. *)
Definition fits (n buckets : nat) (max_load : Q) : Prop := (inject_Z (Z.of_nat n) <= max_load * inject_Z (Z.of_nat buckets))%Q.

#[global] Instance fits_dec n buckets max_load : Decision (fits n buckets max_load).
Proof. unfold fits. destruct (Qlt_le_dec (max_load * inject_Z (Z.of_nat buckets)) (inject_Z (Z.of_nat n))) as [Hlt|Hle]; [right|by left].
  intros Hle. by apply (Qlt_not_le _ _ Hlt). Defined.

(** A bucket for every hash code; at least the number asked for, and enough. *)
Class BucketLaws `{BucketPolicy} := {
  bucket_index_lt : forall h n, (0 < n)%nat -> (bucket_index h n < n)%nat;
  new_bucket_count_enough : forall count size max_load, (0 < max_load)%Q ->
    (count <= new_bucket_count count size max_load)%nat /\ fits size (new_bucket_count count size max_load) max_load;
}.

(** ** Operations *)

Record table (T : Type) := { values : string_map T; bucket_count : nat; max_load_factor : Q }.
Arguments values {T}. Arguments bucket_count {T}. Arguments max_load_factor {T}.

Section Operations.
Context `{KeyOps} `{BucketPolicy} {T : Type}.
Implicit Types (t : table T) (k : list byte).

Definition set_values t m : table T := {| values := m; bucket_count := bucket_count t; max_load_factor := max_load_factor t |}.

(** [string_map(bucket_count, ...)] *)
Definition make_table (count : nat) : table T :=
  {| values := []; bucket_count := new_bucket_count count 0 1; max_load_factor := 1 |}.

Definition rehash t (count : nat) : table T :=
  {| values := values t; bucket_count := new_bucket_count count (length (values t)) (max_load_factor t);
     max_load_factor := max_load_factor t |}.

(** [reserve]: enough buckets for [count] elements *)
Definition reserve t (count : nat) : table T :=
  rehash t (Z.to_nat (Qceiling (inject_Z (Z.of_nat count) / max_load_factor t))).

Definition set_max_load_factor t (ml : Q) : table T :=
  {| values := values t; bucket_count := bucket_count t; max_load_factor := ml |}.

Definition load_factor t : Q := (inject_Z (Z.of_nat (length (values t))) / inject_Z (Z.of_nat (bucket_count t)))%Q.

(** After an insertion there are enough buckets. *)
Definition grow t : table T :=
  if decide (fits (length (values t)) (bucket_count t) (max_load_factor t)) then t else rehash t (S (bucket_count t)).

(** [insert(hint, value)], [emplace], [try_emplace(hint, k, ...)]: the position
    of the element with the key, whether it is new; the hint is not used. *)
Definition emplace_hint (hint : nat) t k (v : T) : outcome (nat * bool * table T) :=
  let* it := find (values t) k in
  match it with
  | Some i => Ret (i, false, t)
  | None => Ret (length (values t), true, grow (set_values t (values t ++ [(k, v)])))
  end.

(** [insert_or_assign(hint, k, obj)] *)
Definition insert_or_assign_hint (hint : nat) t k (v : T) : outcome (nat * bool * table T) :=
  let* it := find (values t) k in
  match it with
  | Some i => Ret (i, false, set_values t (alter (fun e => (e.1, v)) i (values t)))
  | None => Ret (length (values t), true, grow (set_values t (values t ++ [(k, v)])))
  end.

(** [insert(first, last)], [insert_range] *)
Fixpoint insert_range t (l : list (list byte * T)) : outcome (table T) :=
  match l with
  | [] => Ret t
  | (k, v) :: l => let* (_, _, t) := emplace_hint (length (values t)) t k v in insert_range t l
  end.

(** [string_map(first, last, bucket_count, ...)], and from a range or a list *)
Definition table_of_range (l : list (list byte * T)) (count : nat) : outcome (table T) := insert_range (make_table count) l.

(** From a range, with [std::from_range]. *)
Definition table_from_range (rg : list (list byte * T)) (count : nat) : outcome (table T) := table_of_range rg count.

(** [insert(value)] *)
Definition insert_value t (value : list byte * T) : outcome (nat * bool * table T) :=
  emplace_hint (length (values t)) t value.1 value.2.

(** [string_map(other, alloc)] *)
Definition copy_with_allocator t : table T := t.

(** [erase(pos)], [erase(first, last)]: the position of what follows *)
Definition erase_at t (pos : nat) : outcome (nat * table T) :=
  if (pos <? length (values t))%nat then Ret (pos, set_values t (delete pos (values t))) else Undef.

Definition erase_range t (first last : nat) : outcome (nat * table T) :=
  if ((first <=? last) && (last <=? length (values t)))%nat
  then Ret (first, set_values t (take first (values t) ++ drop last (values t))) else Undef.

(** [extract(position)] *)
Definition extract_at t (pos : nat) : outcome (list byte * T * table T) :=
  let* e := deref (values t) pos in Ret (e, set_values t (delete pos (values t))).

(** [begin] and [end] of the map *)
Definition begin_ t : nat := 0.
Definition end_ t : nat := length (values t).

(** [bucket(key)] *)
Definition bucket t k : outcome nat :=
  let* h := key_hash k in
  if (bucket_count t =? 0)%nat then Undef else Ret (bucket_index h (bucket_count t)).

Definition in_bucket (count n : nat) (e : list byte * T) : bool :=
  match key_hash e.1 with Ret h => (bucket_index h count =? n)%nat | _ => false end.

(** The elements from [begin(n)] to [end(n)] *)
Definition bucket_elements t (n : nat) : outcome (list (list byte * T)) :=
  if (n <? bucket_count t)%nat then Ret (List.filter (in_bucket (bucket_count t) n) (values t)) else Undef.

Definition bucket_size t (n : nat) : outcome nat := let* l := bucket_elements t n in Ret (length l).

(** All the buckets, from the first. *)
Fixpoint all_buckets t (ns : list nat) : outcome (list (list (list byte * T))) :=
  match ns with
  | [] => Ret []
  | n :: ns => let* b := bucket_elements t n in let* bs := all_buckets t ns in Ret (b :: bs)
  end.

(** Looking for a key in its bucket only. *)
Definition bucket_find t k : outcome (option (list byte * T)) :=
  let* n := bucket t k in
  let* l := bucket_elements t n in
  Ret (List.find (fun e => key_equal k e.1) l).
End Operations.

(** ** Buckets *)

(** Elements with an index below [n] are split by it. *)
Lemma filter_partition {A} (p : nat -> A -> bool) (i : A -> nat) n (l : list A) :
  (forall x j, x ∈ l -> p j x = (i x =? j)%nat) -> Forall (fun x => (i x < n)%nat) l ->
  concat (map (fun j => List.filter (p j) l) (seq 0 n)) ≡ₚ l.
Proof.
  revert l. induction n as [|n IH]; intros l Hp Hl.
  - destruct l as [|x l]; [done|]. apply Forall_cons in Hl as [Hx _]. lia.
  - rewrite seq_S, map_app, concat_app. cbn [map concat Nat.add]. rewrite app_nil_r.
    set (low := List.filter (fun x => negb (p n x)) l).
    assert (forall x, x ∈ low -> x ∈ l /\ p n x = false) as Hlow.
    { intros x Hx. apply list_elem_of_In, filter_In in Hx as [Hx ?%negb_true_iff]. by rewrite list_elem_of_In. }
    assert (map (fun j => List.filter (p j) l) (seq 0 n) = map (fun j => List.filter (p j) low) (seq 0 n)) as ->.
    { apply map_ext_in. intros j Hj%in_seq. subst low. clear IH Hl Hlow. induction l as [|x l IHl]; [done|]. cbn [List.filter].
      pose proof (Hp x n ltac:(left)) as Hn. pose proof (Hp x j ltac:(left)) as Hj'.
      rewrite IHl by (intros y k Hy; apply Hp; by right). destruct (p n x) eqn:E; cbn [negb List.filter].
      - rewrite Hj'. apply eq_sym, Nat.eqb_eq in Hn. rewrite (proj2 (Nat.eqb_neq _ _)) by lia. done.
      - by destruct (p j x). }
    rewrite IH.
    + subst low. clear IH Hp Hl Hlow. induction l as [|x l IHl]; [done|]. cbn [List.filter]. destruct (p n x); cbn [negb].
      * by rewrite <- Permutation_middle, IHl.
      * cbn [app]. by rewrite IHl.
    + intros x j Hx. apply Hp. by apply Hlow.
    + rewrite Forall_forall in *. intros x [Hx Hf]%Hlow. specialize (Hl x Hx). cbn in Hl. rewrite (Hp x n Hx) in Hf.
      apply Nat.eqb_neq in Hf. lia.
Qed.

Section Laws.
Context `{KeyLaws} `{BucketLaws} {T : Type}.
Implicit Types (t : table T) (k : list byte).

(** Elements of distinct keys, with a bucket to be in. *)
Record table_ok t : Prop := {
  table_map_ok : map_ok (values t);
  table_load : (0 < max_load_factor t)%Q;
  table_buckets : values t <> [] -> (0 < bucket_count t)%nat;
}.

Lemma fits_positive n b ml : (0 < ml)%Q -> fits n b ml -> (0 < n)%nat -> (0 < b)%nat.
Proof.
  intros Hml Hf Hn. destruct b; [|lia]. unfold fits in Hf. change (inject_Z (Z.of_nat 0)) with 0%Q in Hf.
  assert (0 < inject_Z (Z.of_nat n))%Q by (change 0%Q with (inject_Z 0); rewrite <- Zlt_Qlt; lia). lra.
Qed.

Lemma table_fits_ok t :
  map_ok (values t) -> (0 < max_load_factor t)%Q -> fits (length (values t)) (bucket_count t) (max_load_factor t) -> table_ok t.
Proof.
  intros Hm Hl Hf. constructor; [done|done|]. intros Hne. eapply fits_positive; [exact Hl|exact Hf|].
  by destruct (values t); [|simpl; lia].
Qed.

Lemma make_table_ok count : table_ok (make_table count) /\ (count <= bucket_count (make_table (T := T) count))%nat.
Proof.
  destruct (new_bucket_count_enough count 0 1 ltac:(lra)) as [Hc _].
  split; [|done]. constructor; [apply empty_map_ok|cbn; lra|done].
Qed.

(** Changing the number of buckets changes nothing else. *)
Lemma rehash_ok t count :
  table_ok t ->
  table_ok (rehash t count) /\ values (rehash t count) = values t /\ (count <= bucket_count (rehash t count))%nat
  /\ fits (length (values t)) (bucket_count (rehash t count)) (max_load_factor t).
Proof.
  intros [Hm Hl Hb]. destruct (new_bucket_count_enough count (length (values t)) (max_load_factor t) Hl) as [Hc Hf].
  split_and!; [by apply table_fits_ok|done|done|done].
Qed.

Lemma reserve_ok t count :
  table_ok t -> table_ok (reserve t count) /\ values (reserve t count) = values t
  /\ fits count (bucket_count (reserve t count)) (max_load_factor t).
Proof.
  intros Hok. pose proof (table_load t Hok) as Hl. unfold reserve. set (q := (_ / _)%Q).
  destruct (rehash_ok t (Z.to_nat (Qceiling q)) Hok) as (Hok' & Hv & Hc & _). split_and!; [done|done|].
  set (b := bucket_count _) in *. unfold fits. set (n := inject_Z (Z.of_nat count)) in *.
  assert (n == max_load_factor t * q)%Q as -> by (subst q; field; lra).
  apply Qmult_le_l; [done|]. eapply Qle_trans; [apply Qle_ceiling|]. rewrite <- Zle_Qle. lia.
Qed.

Lemma grow_ok t : map_ok (values t) -> (0 < max_load_factor t)%Q ->
  table_ok (grow t) /\ values (grow t) = values t /\ fits (length (values (grow t))) (bucket_count (grow t)) (max_load_factor t).
Proof.
  intros Hm Hl. unfold grow. destruct (decide _) as [Hf|_]; [split_and!; try done; by apply table_fits_ok|].
  destruct (new_bucket_count_enough (S (bucket_count t)) (length (values t)) (max_load_factor t) Hl) as [_ Hf].
  split_and!; [by apply table_fits_ok|done|done].
Qed.

(** A hint changes nothing: the map is the one of [emplace], and the position
    is that of the element with the key. *)
Lemma emplace_hint_spec hint t k v :
  table_ok t -> valid_key k ->
  exists i b t' e, emplace_hint hint t k v = Ret (i, b, t') /\ table_ok t' /\ emplace (values t) k v = Ret (b, values t')
    /\ deref (values t') i = Ret e /\ canon e.1 = canon k /\ abs (values t') !! canon k = Some e.2
    /\ (b = true -> fits (length (values t')) (bucket_count t') (max_load_factor t)).
Proof.
  intros Hok Hk. pose proof Hok as [Hm Hl Hb]. unfold emplace_hint, emplace.
  destruct (find_position (values t) k Hm Hk) as [(i & k' & u & -> & Hi & Hc & Ha) | [-> Ha]]; rewrite !bind_ret.
  - exists i, false, t, (k', u). unfold deref, index. rewrite Hi. split_and!; done.
  - destruct (append_ok (values t) k v Hm Hk Ha) as [Hm' Ha'].
    destruct (grow_ok (set_values t (values t ++ [(k, v)])) Hm' Hl) as (Hok' & Hv & Hf).
    eexists _, true, _, (k, v). rewrite Hv in *. split_and!; [done|done|done| |done|cbn [values set_values fst snd]; by rewrite Ha', lookup_insert_eq|done].
    unfold deref, index. cbn. by rewrite list_lookup_middle.
Qed.

Lemma insert_or_assign_hint_spec hint t k v :
  table_ok t -> valid_key k ->
  exists i b t' k', insert_or_assign_hint hint t k v = Ret (i, b, t') /\ table_ok t'
    /\ insert_or_assign (values t) k v = Ret (b, values t') /\ deref (values t') i = Ret (k', v) /\ canon k' = canon k.
Proof.
  intros Hok Hk. pose proof Hok as [Hm Hl Hb]. unfold insert_or_assign_hint, insert_or_assign.
  destruct (find_position (values t) k Hm Hk) as [(i & k' & u & -> & Hi & Hc & Ha) | [-> Ha]]; rewrite !bind_ret.
  - destruct (assign_ok (values t) k i k' u (fun _ => v) Hm Hi Hc) as [Hm' _].
    eexists i, false, _, k'. split_and!; [done| |done| |done].
    + constructor; [done|done|]. cbn. intros _. apply Hb. by intros Hnil; rewrite Hnil in Hi.
    + unfold deref, index. cbn. by rewrite list_lookup_alter_eq, Hi.
  - destruct (append_ok (values t) k v Hm Hk Ha) as [Hm' Ha'].
    destruct (grow_ok (set_values t (values t ++ [(k, v)])) Hm' Hl) as (Hok' & Hv & _).
    eexists _, true, _, k. rewrite Hv in *. split_and!; [done|done|done| |done].
    unfold deref, index. cbn. by rewrite list_lookup_middle.
Qed.

(** A range fills the table as a list fills the map. *)
Lemma insert_range_spec t l :
  table_ok t -> Forall (fun e => valid_key e.1) l ->
  exists t', insert_range t l = Ret t' /\ table_ok t' /\ insert_list (values t) l = Ret (values t').
Proof.
  intros Hok Hl. revert t Hok. induction Hl as [|[k v] l Hk Hl IH]; intros t Hok; cbn [insert_range insert_list]; [by exists t|].
  destruct (emplace_hint_spec (length (values t)) t k v Hok Hk) as (i & b & t1 & e & -> & Hok1 & -> & _). rewrite !bind_ret. by apply IH.
Qed.

Lemma table_of_range_spec l count :
  Forall (fun e => valid_key e.1) l ->
  exists t, table_of_range l count = Ret t /\ table_ok t /\ abs (values t) = abs l.
Proof.
  intros Hl. destruct (insert_range_spec (make_table count) l) as (t & Ht & Hok & Hi); [apply make_table_ok|done|].
  destruct (insert_list_spec [] l) as (m & Hm & _ & Ha); [apply empty_map_ok|done|]. cbn in Hi. rewrite Hm in Hi. injection Hi as ->.
  exists t. split_and!; [done|done|]. rewrite Ha, (proj2 empty_map_ok). apply map_empty_union.
Qed.

(** *** By position *)

Lemma sublist_table_ok t m : table_ok t -> sublist m (values t) -> table_ok (set_values t m).
Proof.
  intros [[Hn Hv] Hl Hb] Hs. constructor; [|done|].
  - constructor; cbn; [|rewrite Forall_forall in *; intros e He; apply Hv; by eapply elem_of_sublist]. eapply sublist_NoDup; [exact Hn|]. by apply fmap_sublist.
  - cbn. intros Hne. apply Hb. intros Hnil. rewrite Hnil in Hs. apply sublist_nil_r in Hs. done.
Qed.

Lemma erase_at_spec t pos k v :
  table_ok t -> values t !! pos = Some (k, v) ->
  exists t', erase_at t pos = Ret (pos, t') /\ extract_at t pos = Ret ((k, v), t') /\ table_ok t'
    /\ abs (values t') = delete (canon k) (abs (values t)) /\ bucket_count t' = bucket_count t.
Proof.
  intros Hok Hp. unfold erase_at, extract_at, deref, index. rewrite Hp, bind_ret.
  rewrite (proj2 (Nat.ltb_lt _ _)) by (by eapply lookup_lt_Some). eexists. split; [done|]. split; [done|].
  split_and!; [apply sublist_table_ok; [done|apply sublist_delete]| |done].
  by apply (erase_ok (values t) k pos k v (table_map_ok t Hok)).
Qed.

Lemma erase_range_spec t first last :
  table_ok t -> (first <= last <= length (values t))%nat ->
  exists t', erase_range t first last = Ret (first, t') /\ table_ok t'
    /\ values t ≡ₚ values t' ++ take (last - first) (drop first (values t)).
Proof.
  intros Hok Hle. unfold erase_range. rewrite (proj2 (Nat.leb_le _ _)), (proj2 (Nat.leb_le _ _)) by lia. cbn [andb].
  eexists. split; [done|]. assert (values t = take first (values t) ++ take (last - first) (drop first (values t)) ++ drop last (values t)) as Hs.
  { rewrite <- (take_drop first (values t)) at 1. f_equal. rewrite <- (take_drop (last - first) (drop first (values t))) at 1.
    rewrite drop_drop. do 2 f_equal. lia. }
  split.
  - apply sublist_table_ok; [done|]. rewrite Hs at 3. apply sublist_app; [done|]. by apply sublist_inserts_l.
  - cbn. rewrite Hs at 1. rewrite <- app_assoc. apply Permutation_app_head, Permutation_app_comm.
Qed.

(** *** Buckets *)

Lemma all_buckets_map t ns : Forall (fun n => (n < bucket_count t)%nat) ns ->
  all_buckets t ns = Ret (map (fun n => List.filter (in_bucket (bucket_count t) n) (values t)) ns).
Proof.
  induction 1 as [|n ns Hn Hns IH]; [done|]. cbn [all_buckets map]. unfold bucket_elements.
  rewrite (proj2 (Nat.ltb_lt _ _)) by done. by rewrite bind_ret, IH, bind_ret.
Qed.

(** The buckets hold each element once. *)
Lemma buckets_partition t : table_ok t ->
  exists bs, all_buckets t (seq 0 (bucket_count t)) = Ret bs /\ concat bs ≡ₚ values t.
Proof.
  intros [[_ Hv] _ Hb]. eexists. split; [apply all_buckets_map, Forall_seq; lia|].
  apply (filter_partition _ (fun e => match key_hash e.1 with Ret h => bucket_index h (bucket_count t) | _ => 0%nat end)).
  - intros e j He. rewrite Forall_forall in Hv. destruct (Hv e He) as [h Hh]. unfold in_bucket. by rewrite Hh.
  - rewrite Forall_forall in *. intros e He. destruct (Hv e He) as [h ->]. apply bucket_index_lt, Hb. by intros Hnil; rewrite Hnil in He; apply elem_of_nil in He.
Qed.

(** Looking in the bucket of a key is looking in the map. *)
Lemma bucket_find_spec t k :
  table_ok t -> valid_key k -> (0 < bucket_count t)%nat ->
  exists n e, bucket t k = Ret n /\ (n < bucket_count t)%nat /\ bucket_find t k = Ret e
    /\ snd <$> e = abs (values t) !! canon k.
Proof.
  intros Hok [h Hh] Hb. pose proof (table_map_ok t Hok) as Hm. unfold bucket_find, bucket. rewrite Hh, bind_ret.
  rewrite (proj2 (Nat.eqb_neq _ _)), bind_ret by lia. pose proof (bucket_index_lt h _ Hb) as Hlt. unfold bucket_elements.
  rewrite (proj2 (Nat.ltb_lt _ _)), bind_ret by done. do 2 eexists. split_and!; [done|done|done|].
  set (l := List.filter _ _). destruct (List.find _ l) as [[k' v]|] eqn:E.
  - apply List.find_some in E as [Hin Hc]. apply filter_In in Hin as [Hin _]. apply key_equal_canon in Hc.
    symmetry. apply abs_elem; [done|]. exists k'. by rewrite list_elem_of_In.
  - destruct (abs (values t) !! canon k) as [v|] eqn:Ea; [|done]. exfalso.
    apply abs_elem in Ea as (k' & Hin & Hc); [|done].
    assert ((k', v) ∈ l) as Hl.
    { apply list_elem_of_In, filter_In. split; [by rewrite <- list_elem_of_In|]. unfold in_bucket. cbn.
      rewrite <- (key_hash_canon k k' Hc), Hh. apply Nat.eqb_refl. }
    apply list_elem_of_In in Hl. pose proof (List.find_none _ _ E (k', v) Hl) as Hno. cbn in Hno.
    by rewrite (proj2 (key_equal_canon k k') Hc) in Hno.
Qed.
End Laws.

(** ** Any sequence of operations *)

Inductive table_operation (T : Type) : Type :=
| InsertHint (hint : nat) (k : list byte) (v : T)
| AssignHint (hint : nat) (k : list byte) (v : T)
| InsertRange (l : list (list byte * T))
| EraseAt (pos : nat)
| EraseRange (from upto : nat)
| Rehash (count : nat)
| Reserve (count : nat)
| SetMaxLoad (ml : Q).
Arguments InsertHint {T}. Arguments AssignHint {T}. Arguments InsertRange {T}. Arguments EraseAt {T}.
Arguments EraseRange {T}. Arguments Rehash {T}. Arguments Reserve {T}. Arguments SetMaxLoad {T}.

Definition table_perform `{KeyOps} `{BucketPolicy} {T} (t : table T) (op : table_operation T) : outcome (table T) :=
  match op with
  | InsertHint hint k v => let* (_, _, t) := emplace_hint hint t k v in Ret t
  | AssignHint hint k v => let* (_, _, t) := insert_or_assign_hint hint t k v in Ret t
  | InsertRange l => insert_range t l
  | EraseAt pos => let* (_, t) := erase_at t pos in Ret t
  | EraseRange from upto => let* (_, t) := erase_range t from upto in Ret t
  | Rehash count => Ret (rehash t count)
  | Reserve count => Ret (reserve t count)
  | SetMaxLoad ml => Ret (set_max_load_factor t ml)
  end.

Fixpoint table_run `{KeyOps} `{BucketPolicy} {T} (t : table T) (ops : list (table_operation T)) : outcome (table T) :=
  match ops with
  | [] => Ret t
  | op :: ops => let* t := table_perform t op in table_run t ops
  end.

(** The keys can be hashed, and a factor is positive. *)
Definition table_operation_ok `{KeyOps} {T} (op : table_operation T) : Prop :=
  match op with
  | InsertHint _ k _ | AssignHint _ k _ => valid_key k
  | InsertRange l => Forall (fun e => valid_key e.1) l
  | SetMaxLoad ml => (0 < ml)%Q
  | _ => True
  end.

Lemma table_perform_ok `{KeyLaws} `{BucketLaws} {T} (t : table T) op t' :
  table_ok t -> table_operation_ok op -> table_perform t op = Ret t' -> table_ok t'.
Proof.
  intros Hok Hop. destruct op; cbn [table_perform table_operation_ok] in *.
  - destruct (emplace_hint_spec hint t k v Hok Hop) as (? & ? & ? & ? & -> & Hok' & _). rewrite bind_ret. by intros [= <-].
  - destruct (insert_or_assign_hint_spec hint t k v Hok Hop) as (? & ? & ? & ? & -> & Hok' & _). rewrite bind_ret. by intros [= <-].
  - destruct (insert_range_spec t l Hok Hop) as (? & -> & Hok' & _). by intros [= <-].
  - unfold erase_at. destruct (_ <? _)%nat; [|done]. intros [= <-]. apply sublist_table_ok; [done|apply sublist_delete].
  - unfold erase_range. destruct (_ && _)%nat eqn:E; [|done]. reflect_bools.
    destruct (erase_range_spec t from upto Hok ltac:(lia)) as (t1 & Hr & Hok' & _). unfold erase_range in Hr.
    rewrite (proj2 (Nat.leb_le _ _)), (proj2 (Nat.leb_le _ _)) in Hr by lia. injection Hr as <-. by intros [= <-].
  - intros [= <-]. by apply rehash_ok.
  - intros [= <-]. by apply reserve_ok.
  - intros [= <-]. destruct Hok. by constructor.
Qed.

(** Whatever is done to a table, its buckets are a partition of its elements,
    and the bucket of a key holds the element the map has for it. *)
Lemma table_invariant `{KeyLaws} `{BucketLaws} {T} count (ops : list (table_operation T)) t :
  Forall table_operation_ok ops -> table_run (make_table count) ops = Ret t ->
  (exists bs, all_buckets t (seq 0 (bucket_count t)) = Ret bs /\ concat bs ≡ₚ values t)
  /\ forall k, valid_key k -> (0 < bucket_count t)%nat ->
       exists e, bucket_find t k = Ret e /\ snd <$> e = abs (values t) !! canon k.
Proof.
  intros Hops Hrun. assert (table_ok t) as Hok.
  { revert Hrun. generalize (proj1 (make_table_ok (T := T) count)). generalize (make_table (T := T) count).
    induction Hops as [|op ops Hop Hops IH]; intros t0 Hok0; cbn [table_run]; [by intros [= <-]|].
    intros (t1 & Hp & Hr)%bind_Ret_inv. eapply IH; [|exact Hr]. by eapply table_perform_ok. }
  split; [by apply buckets_partition|]. intros k Hk Hb. destruct (bucket_find_spec t k Hok Hk Hb) as (_ & e & _ & _ & Hf). eauto.
Qed.

(** *** A policy, for the example: the remainder, and as few buckets as will do. *)
Definition modulo_policy : BucketPolicy := {|
  bucket_index h n := Z.to_nat (h mod Z.of_nat n);
  new_bucket_count count size ml := Nat.max count (Z.to_nat (Qceiling (inject_Z (Z.of_nat size) / ml)));
|}.

#[global] Instance modulo_laws : @BucketLaws modulo_policy.
Proof.
  constructor; unfold bucket_index, new_bucket_count, modulo_policy.
  - intros h n Hn. pose proof (Z.mod_pos_bound h (Z.of_nat n) ltac:(lia)). lia.
  - intros count size ml Hml. split; [lia|]. unfold fits. set (q := (_ / ml)%Q). set (c := Z.of_nat (Nat.max _ _)).
    assert (inject_Z (Z.of_nat size) == ml * q)%Q as -> by (subst q; field; lra). subst c. apply Qmult_le_l; [done|]. eapply Qle_trans; [apply Qle_ceiling|].
    rewrite <- Zle_Qle. lia.
Qed.

(** Three keys in two buckets, then in five. *)
Lemma table_example :
  let t := @table_run (default_keys (fun k => Z.of_nat (length k))) modulo_policy Z (@make_table modulo_policy Z 2)
      [SetMaxLoad 2; InsertRange [(lit "a", 1); (lit "bb", 2); (lit "ccc", 3)]] in
  (let* t := t in @all_buckets (default_keys (fun k => Z.of_nat (length k))) modulo_policy Z t (seq 0 (bucket_count t)))
    = Ret [[(lit "bb", 2)]; [(lit "a", 1); (lit "ccc", 3)]]
  /\ (let* t := t in let t := @rehash modulo_policy Z t 5 in
      @all_buckets (default_keys (fun k => Z.of_nat (length k))) modulo_policy Z t (seq 0 (bucket_count t)))
    = Ret [[]; [(lit "a", 1)]; [(lit "bb", 2)]; [(lit "ccc", 3)]; []].
Proof. split; vm_compute; reflexivity. Qed.
