(* ===== verification/Headers.v ===== *)
(** * HTTP headers (include/http/headers.hpp, src/http/headers.cpp)

    A [string_map] from names to lists of values, with a hash and an equality
    that ignore case.  [keyhash] passes a [char] to [std::tolower], which is
    undefined for the negative ones but -1 (EOF), so a name with a byte from
    0x80 to 0xfe is outside its domain. *)

From Stdlib Require Import ZArith Strings.Byte Lia String.
From stdpp Require Import prelude list gmap strings.
From S2P Require Import Prelude CxxStrings StringUtil StringMap.

(** ** Definitions *)

(** [std::tolower] of a [char]. *)
Definition tolower_char (c : byte) : outcome Z :=
  if char_val c <? -1 then Undef else Ret (tolower (char_val c)).

Fixpoint keyhash_loop (key : list byte) (result : Z) : outcome Z :=
  match key with
  | [] => Ret result
  | c :: key =>
      let* l := tolower_char c in
      keyhash_loop key (Z.lxor (u64 (result * 16777619)) (u64 l))
  end.

Definition keyhash (key : list byte) : outcome Z := keyhash_loop key 2166136261.
Definition keyequal (lhs rhs : list byte) : bool := equal_ignore_case lhs rhs.

#[global] Instance header_keys : KeyOps := {| key_hash := keyhash; key_equal := keyequal |}.

Notation headers := (string_map (list (list byte))) (only parsing).

Record content_type := { type : list byte; parameters : gmap (list byte) (list byte) }.

Definition charset (c : content_type) : option (list byte) := parameters c !! lit "charset".

Definition make_headers (init : list (list byte * list (list byte))) : outcome headers := of_list init.

Definition set (h : headers) (key val : list byte) : outcome headers :=
  let* (_, h) := insert_or_assign h key [val] in Ret h.

(** [set] with a list of strings, and with a list of views. *)
Definition set_strings (h : headers) (key : list byte) (vals : list (list byte)) : outcome headers :=
  let* (_, h) := insert_or_assign h key vals in Ret h.
Definition set_views (h : headers) (key : list byte) (vals : list (list byte)) : outcome headers :=
  update_at [] h key (fun _ => vals).

Definition add (h : headers) (key val : list byte) : outcome headers :=
  update_at [] h key (fun vals => vals ++ [val]).

(** The overloads that take a key or a value as a view make strings of them. *)
Definition set_key_view (h : headers) (key val : list byte) : outcome headers := set h key val.
Definition set_strings_key_view (h : headers) (key : list byte) (vals : list (list byte)) : outcome headers := set_strings h key vals.
Definition add_key_view (h : headers) (key val : list byte) : outcome headers := add h key val.
Definition add_value_view (h : headers) (key val : list byte) : outcome headers := update_at [] h key (fun vals => vals ++ [val]).
Definition set_both_views (h : headers) (key val : list byte) : outcome headers := set h key val.
Definition set_views_key_view (h : headers) (key : list byte) (vals : list (list byte)) : outcome headers := set_views h key vals.
Definition add_both_views (h : headers) (key val : list byte) : outcome headers := add_value_view h key val.

Definition headers_empty (h : headers) : bool := empty h.
Definition headers_size (h : headers) : nat := size h.

Definition set_content_length (h : headers) (length : Z) : outcome headers :=
  set h (lit "Content-Length") (to_chars 10 length).

(** [order] is the order in which the parameters are iterated. *)
Definition content_type_text (type : list byte) (order : list (list byte * list byte)) : list byte :=
  fold_left (fun ss param => ss ++ lit ": " ++ param.1 ++ lit "=" ++ param.2) order type.

Definition set_content_type (h : headers) (ct : content_type) (order : list (list byte * list byte)) : outcome headers :=
  match type ct with
  | [] => Ret h
  | _ => set h (lit "Content-Type") (content_type_text (type ct) order)
  end.

Definition get (h : headers) (key : list byte) : outcome (option (list byte)) :=
  let* it := find h key in
  match it with
  | None => Ret None
  | Some i =>
      let* e := deref h i in
      match e.2 with
      | [] => Ret None
      | v :: _ => Ret (Some v)
      end
  end.

(** [operator[]] *)
Definition subscript_get (h : headers) (key : list byte) : outcome (option (list byte)) := get h key.

Definition get_all (h : headers) (key : list byte) : outcome (option (list (list byte))) :=
  let* it := find h key in
  match it with
  | None => Ret None
  | Some i => let* e := deref h i in Ret (Some e.2)
  end.

Definition get_content_length (h : headers) : outcome (option Z) :=
  let* maybe := get h (lit "Content-Length") in
  match maybe with
  | None => Ret None
  | Some v =>
      let r := from_chars 10 64 v in
      if bool_decide (fc_ec r = errc_ok) then Ret (fc_value r) else Ret None
  end.

(** [std::unordered_map::emplace] on the parameters. *)
Definition emplace_param (m : gmap (list byte) (list byte)) (k v : list byte) : gmap (list byte) (list byte) :=
  match m !! k with Some _ => m | None => <[k := v]> m end.

(** The lambda [to_lower] over a string. *)
Fixpoint lowercase (s : list byte) : outcome (list byte) :=
  match s with
  | [] => Ret []
  | c :: s =>
      let* l := tolower_char c in
      let* s := lowercase s in
      Ret (byte_of_Z l :: s)
  end.

Fixpoint content_type_params (params : list (list byte)) (out : gmap (list byte) (list byte))
    : outcome (gmap (list byte) (list byte)) :=
  match params with
  | [] => Ret out
  | param :: params =>
      match sv_find param "="%byte 0 with
      | None => content_type_params params (emplace_param out param [])
      | Some kv_split =>
          let* key := sv_substr param 0 kv_split in
          let* key := trim_string key in
          let* val := sv_substr_from param (kv_split + 1) in
          let* val := trim_string val in
          let* val := unquote val in
          if equal_ignore_case key (lit "charset") then
            let* key_v := lowercase key in
            let* val_v := lowercase val in
            content_type_params params (emplace_param out key_v val_v)
          else content_type_params params (emplace_param out key val)
      end
  end.

Definition get_content_type (h : headers) : outcome (option content_type) :=
  let* maybe := get h (lit "Content-Type") in
  match maybe with
  | None => Ret None
  | Some type =>
      match sv_find type ";"%byte 0 with
      | None => Ret (Some {| type := type; parameters := ∅ |})
      | Some split =>
          let* fields := split_string type ";"%byte (split + 1) in
          let* ps := content_type_params fields ∅ in
          Ret (Some {| type := type; parameters := ps |})
      end
  end.

Definition get_content_encoding (h : headers) := get_all h (lit "Content-Encoding").
Definition get_transfer_encoding (h : headers) := get_all h (lit "Transfer-Encoding").

Fixpoint any_chunked (range : list (list byte)) : outcome bool :=
  match range with
  | [] => Ret false
  | val :: range =>
      let* val := trim_string val in
      if equal_ignore_case val (lit "chunked") then Ret true else any_chunked range
  end.

Definition is_chunked (h : headers) : outcome bool :=
  let* range := get_transfer_encoding h in
  match range with None => Ret false | Some vals => any_chunked vals end.

(** ** The hash and the equality *)

(** Every character is in the domain of [std::tolower]. *)
Definition name_char (c : byte) : bool := -1 <=? char_val c.
Definition valid_name (k : list byte) : Prop := Forall (fun c => name_char c = true) k.

#[global] Instance valid_name_dec k : Decision (valid_name k).
Proof. unfold valid_name. apply _. Defined.

Lemma tolower_char_valid c : name_char c = true -> tolower_char c = Ret (tolower (char_val c)).
Proof. unfold name_char, tolower_char. intros Hc. reflect_bools. by rewrite (proj2 (Z.ltb_ge _ _)) by lia. Qed.

Lemma keyhash_valid k : valid_key k <-> valid_name k.
Proof.
  unfold valid_key, valid_name. cbn [key_hash header_keys]. unfold keyhash. generalize 2166136261.
  induction k as [|c k IH]; intros r; cbn [keyhash_loop]; [split; [done|by eexists]|].
  rewrite Forall_cons, <- IH. destruct (name_char c) eqn:E.
  - rewrite tolower_char_valid, bind_ret by done. split; [by intros ?|by intros [_ ?]].
  - unfold name_char in E. unfold tolower_char. reflect_bools. rewrite (proj2 (Z.ltb_lt _ _)) by lia. cbn [obind].
    split; [by intros []|by intros []].
Qed.

(** Characters that are equal but for case go the same way through the hash. *)
Lemma tolower_char_of_lower c : tolower_char (lower c) = tolower_char c.
Proof. destruct c; vm_compute; reflexivity. Qed.

Lemma tolower_char_lower c d : lower c = lower d -> tolower_char c = tolower_char d.
Proof. intros Hl. by rewrite <- (tolower_char_of_lower c), Hl, tolower_char_of_lower. Qed.

Lemma keyhash_lower a b : map lower a = map lower b -> keyhash a = keyhash b.
Proof.
  unfold keyhash. generalize 2166136261. revert b. induction a as [|c a IH]; intros [|d b] r; simpl; try done.
  intros [= Hc Hab]. rewrite (tolower_char_lower c d Hc). destruct (tolower_char d); cbn [obind]; [|done..]. by apply IH.
Qed.

#[global] Instance header_laws : KeyLaws.
Proof. refine {| canon := map lower |}; [apply equal_ignore_case_iff|apply keyhash_lower]. Defined.

(** ** The operations on the abstract map *)

Lemma name_valid k : valid_name k -> valid_key k.
Proof. apply keyhash_valid. Qed.

#[export] Hint Resolve name_valid : cppnet.

Lemma get_all_spec h key : map_ok h -> valid_name key -> get_all h key = Ret (abs h !! canon key).
Proof.
  intros Hok Hk%name_valid. unfold get_all.
  destruct (find_position h key Hok Hk) as [(i & k' & u & -> & Hi & Hc & ->) | [-> ->]]; [|done].
  rewrite bind_ret. unfold deref, index. by rewrite Hi.
Qed.

Lemma header_get_spec h key : map_ok h -> valid_name key -> get h key = Ret (abs h !! canon key ≫= head).
Proof.
  intros Hok Hk%name_valid. unfold get.
  destruct (find_position h key Hok Hk) as [(i & k' & u & -> & Hi & Hc & ->) | [-> ->]]; [|done].
  rewrite bind_ret. unfold deref, index. rewrite Hi. cbn. by destruct u.
Qed.

Lemma header_set_spec h key val :
  map_ok h -> valid_name key ->
  exists h', set h key val = Ret h' /\ map_ok h' /\ abs h' = <[canon key := [val]]> (abs h).
Proof.
  intros Hok Hk%name_valid. unfold set.
  destruct (insert_or_assign_spec h key [val] Hok Hk) as (h' & -> & Hok' & Ha). by exists h'.
Qed.

Lemma header_add_spec h key val :
  map_ok h -> valid_name key ->
  exists h', add h key val = Ret h' /\ map_ok h'
    /\ abs h' = <[canon key := default [] (abs h !! canon key) ++ [val]]> (abs h).
Proof. intros Hok Hk%name_valid. unfold add. by apply (update_at_spec [] h key (fun vals => vals ++ [val])). Qed.

Lemma lookup_same (k k' : list byte) (v : list (list byte)) (m : gmap (list byte) (list (list byte))) :
  <[canon k := v]> m !! canon k' = if equal_ignore_case k k' then Some v else m !! canon k'.
Proof.
  destruct (equal_ignore_case k k') eqn:E.
  - apply equal_ignore_case_iff in E. cbn. by rewrite E, lookup_insert_eq.
  - apply lookup_insert_ne. intros Hc. apply not_true_iff_false in E. destruct E. by apply equal_ignore_case_iff.
Qed.

(** ** Properties *)

(** C9: headers are looked up without regard to case: setting a header makes
    its value the only one under every spelling of its name, adding appends to
    what any spelling finds, and no other header changes. *)
Theorem headers_case_insensitive h k k' v :
  map_ok h -> valid_name k -> valid_name k' ->
  exists h1 h2, set h k v = Ret h1 /\ add h k v = Ret h2 /\ map_ok h1 /\ map_ok h2 /\
    if equal_ignore_case k k' then
      get h1 k' = Ret (Some v) /\ get_all h1 k' = Ret (Some [v])
      /\ exists old, get_all h k = Ret old /\ get_all h2 k' = Ret (Some (default [] old ++ [v]))
    else
      get_all h1 k' = get_all h k' /\ get_all h2 k' = get_all h k'.
Proof.
  intros Hok Hk Hk'. destruct (header_set_spec h k v Hok Hk) as (h1 & H1 & Hok1 & Ha1).
  destruct (header_add_spec h k v Hok Hk) as (h2 & H2 & Hok2 & Ha2). exists h1, h2. do 4 (split; [done|]).
  rewrite !header_get_spec, !get_all_spec, Ha1, Ha2, !lookup_same by done.
  destruct (equal_ignore_case k k'); [|done]. split_and!; [done|done|]. by eexists.
Qed.

Lemma headers_case_insensitive_witness :
  exists h1 h2, set [] (lit "Host") (lit "a") = Ret h1 /\ add [] (lit "Host") (lit "a") = Ret h2 /\ map_ok h1 /\ map_ok h2 /\
    if equal_ignore_case (lit "Host") (lit "HOST") then
      get h1 (lit "HOST") = Ret (Some (lit "a")) /\ get_all h1 (lit "HOST") = Ret (Some [lit "a"])
      /\ exists old, get_all [] (lit "Host") = Ret old /\ get_all h2 (lit "HOST") = Ret (Some (default [] old ++ [lit "a"]))
    else
      get_all h1 (lit "HOST") = get_all [] (lit "HOST") /\ get_all h2 (lit "HOST") = get_all [] (lit "HOST").
Proof.
  apply (headers_case_insensitive [] (lit "Host") (lit "HOST") (lit "a"));
    [apply empty_map_ok|apply (bool_decide_unpack _); vm_compute; exact I..].
Defined.

Lemma valid_literal k : forallb name_char k = true -> valid_name k.
Proof. unfold valid_name. rewrite forallb_forall, Forall_forall. setoid_rewrite list_elem_of_In. done. Qed.

(** [stops] of nothing. *)
Lemma from_chars_all n : 0 <= n < 2 ^ 64 ->
  from_chars 10 64 (to_chars 10 n) = {| fc_ptr := length (to_chars 10 n); fc_ec := errc_ok; fc_value := Some n |}.
Proof. intros Hn. rewrite <- (app_nil_r (to_chars 10 n)) at 1. by apply from_chars_to_chars. Qed.

(** a content length that is set is read back, for every [size_t]. *)
Lemma content_length_roundtrip h n :
  map_ok h -> 0 <= n < 2 ^ 64 ->
  exists h', set_content_length h n = Ret h' /\ map_ok h' /\ get_content_length h' = Ret (Some n).
Proof.
  intros Hok Hn. assert (valid_name (lit "Content-Length")) as Hk by by apply valid_literal.
  destruct (header_set_spec h _ (to_chars 10 n) Hok Hk) as (h' & Hs & Hok' & Ha).
  exists h'. split_and!; [done|done|]. unfold get_content_length. rewrite header_get_spec, Ha, lookup_insert_eq by done.
  cbn [mbind option_bind head obind]. rewrite from_chars_all by done. done.
Qed.

Lemma content_length_roundtrip_witness :
  exists h', set_content_length [] 18446744073709551615 = Ret h' /\ map_ok h'
    /\ get_content_length h' = Ret (Some 18446744073709551615).
Proof. apply content_length_roundtrip; [apply empty_map_ok|lia]. Defined.

(** A text shorter than half of the address space *)
Definition short (v : list byte) : Prop := Z.of_nat (length v) < 2 ^ 63.

(** *** The content type *)

Lemma lowercase_valid s : valid_name s -> lowercase s = Ret (map lower s).
Proof.
  intros Hs. induction Hs as [|c s Hc Hs IH]; [done|]. cbn [lowercase map].
  rewrite tolower_char_valid, bind_ret, IH, bind_ret by done. do 2 f_equal. by destruct c.
Qed.

Definition blank_str (s : list byte) : Prop := Forall (fun c => is_space c = true) s.

Lemma blank_avoids s c : blank_str s -> is_space c = false -> Forall (fun x => byte_eqb c x = false) s.
Proof.
  intros Hs Hc. eapply Forall_impl; [exact Hs|]. intros x Hx. apply byte_eqb_neq. intros ->. cbv beta in Hx. congruence.
Qed.

(** A letter, in either case, is neither a blank nor a delimiter. *)
Lemma lower_plain c : lower c ∈ lit "charset" ->
  is_space c = false /\ byte_eqb "="%byte c = false /\ byte_eqb ";"%byte c = false /\ name_char c = true.
Proof.
  intros Hc. apply mem_elem_of in Hc. revert c Hc.
  assert (forall c, implb (mem (lit "charset") (lower c))
    (negb (is_space c) && negb (byte_eqb "="%byte c) && negb (byte_eqb ";"%byte c) && name_char c) = true) as Hall
    by (apply byte_forall; vm_compute; reflexivity).
  intros c Hc. specialize (Hall c). rewrite Hc in Hall. cbn [implb] in Hall. rewrite !andb_true_iff, !negb_true_iff in Hall. tauto.
Qed.

Lemma charset_name name : equal_ignore_case name (lit "charset") = true ->
  map lower name = lit "charset" /\ trimmed name /\ valid_name name
  /\ Forall (fun x => byte_eqb "="%byte x = false) name /\ Forall (fun x => byte_eqb ";"%byte x = false) name.
Proof.
  intros Hn%equal_ignore_case_iff. change (map lower (lit "charset")) with (lit "charset") in Hn. split; [done|].
  assert (Forall (fun c => lower c ∈ lit "charset") name) as Hall.
  { rewrite <- Hn. clear Hn. apply Forall_forall. intros c Hc. apply list_elem_of_fmap_2. done. }
  assert (Forall (fun c => is_space c = false /\ byte_eqb "="%byte c = false /\ byte_eqb ";"%byte c = false /\ name_char c = true) name) as Hp
    by (eapply Forall_impl; [exact Hall|]; apply lower_plain).
  split_and!; try (eapply Forall_impl; [exact Hp|]; naive_solver).
  do 7 (destruct name as [|? name]; [done|]). destruct name; [|done].
  do 7 (apply Forall_cons in Hp as [(? & _) Hp]).
  exists b, [b0; b1; b2; b3; b4]. split; [right; exists b5; done|done].
Qed.

Lemma trim_trimmed m : trimmed m -> Z.of_nat (length m) < 2 ^ 63 -> trim_string m = Ret m.
Proof. intros Hm Hl. rewrite <- (app_nil_r m) at 1. apply (trim_string_middle [] m []); rewrite ?app_nil_r; done. Qed.

Lemma trim_leading a m : blank_str a -> trimmed m -> Z.of_nat (length (a ++ m)) < 2 ^ 63 -> trim_string (a ++ m) = Ret m.
Proof. intros Ha Hm Hl. rewrite <- (app_nil_r m) at 1. apply (trim_string_middle a m []); rewrite ?app_nil_r; done. Qed.

(** A charset parameter is found under any spelling of its name, with
    blanks around it and quoted or not, and comes back in lower case.  The type
    that comes back with it is the whole header value, parameters included. *)
Lemma content_type_charset h t pre name raw q :
  map_ok h -> ";"%byte ∉ t -> blank_str pre -> equal_ignore_case name (lit "charset") = true ->
  trimmed raw -> ";"%byte ∉ raw -> unquote raw = Ret q -> valid_name q ->
  Z.of_nat (length (pre ++ name ++ lit "=" ++ raw)) < 2 ^ 63 ->
  get h (lit "Content-Type") = Ret (Some (t ++ lit ";" ++ pre ++ name ++ lit "=" ++ raw)) ->
  get_content_type h = Ret (Some {|
    type := t ++ lit ";" ++ pre ++ name ++ lit "=" ++ raw;
    parameters := {[ lit "charset" := map lower q ]} |}).
Proof.
  intros Hok Ht Hpre Hname Hraw Hsemi Hq Hvq Hlen Hget. unfold get_content_type. rewrite Hget, bind_ret.
  destruct (charset_name name Hname) as (Hlow & Htrim & Hvn & Heq & Hns).
  assert (sv_find (t ++ lit ";" ++ pre ++ name ++ lit "=" ++ raw) ";"%byte 0 = Some (length t)) as ->.
  { apply (find_from_0_app (byte_eqb ";"%byte) t); [|done]. apply Forall_forall. intros x Hx. apply byte_eqb_neq. by intros <-. }
  rewrite split_string_spec, (proj2 (Nat.leb_le _ _)), bind_ret by solve_length.
  rewrite drop_app_add. change (drop 1 (lit ";" ++ ?x)) with x. rewrite split_on_none.
  2: { rewrite !Forall_app. split_and!; [by apply blank_avoids|done|by constructor|].
       apply Forall_forall. intros x Hx. apply byte_eqb_neq. by intros <-. }
  cbn [content_type_params]. rewrite (app_assoc pre name), length_app in *.
  assert (sv_find ((pre ++ name) ++ lit "=" ++ raw) "="%byte 0 = Some (length (pre ++ name))) as ->.
  { apply (find_from_0_app (byte_eqb "="%byte) (pre ++ name)); [|done]. apply Forall_app. split; [by apply blank_avoids|done]. }
  rewrite sv_substr_0_app, bind_ret, trim_leading, bind_ret by (done || lia).
  change (lit "=" ++ raw) with ("="%byte :: raw) in *.
  rewrite (sv_substr_from_cons (pre ++ name) "="%byte raw), bind_ret, trim_trimmed, bind_ret, Hq, bind_ret
    by (done || (cbn [length] in Hlen; lia)).
  rewrite Hname, lowercase_valid, bind_ret, lowercase_valid, bind_ret by done. cbn [obind].
  unfold emplace_param. rewrite lookup_empty, Hlow, insert_empty. by rewrite <- !app_assoc.
Qed.

Lemma content_type_charset_witness :
  get_content_type [(lit "content-type", [lit "text/html; Charset='UTF-8'"])]
  = Ret (Some {| type := lit "text/html; Charset='UTF-8'"; parameters := {[ lit "charset" := map lower (lit "UTF-8") ]} |}).
Proof.
  apply (content_type_charset [(lit "content-type", [lit "text/html; Charset='UTF-8'"])]
           (lit "text/html") (lit " ") (lit "Charset") (lit "'UTF-8'") (lit "UTF-8")); try reflexivity;
    try (apply (bool_decide_unpack _); vm_compute; exact I).
  - constructor; [apply NoDup_singleton|]. apply Forall_singleton. apply name_valid, valid_literal. reflexivity.
  - exists x27, (lit "UTF-8"). split; [right; exists x27; split; reflexivity|reflexivity].
Defined.
