(* ===== verification/HeaderMap.v ===== *)
(** * Headers as a multimap

    Sequences of the operations of [headers] (src/http/headers.cpp) against the
    specification of what they are for: a finite map from names in lower case to
    lists of values. *)

From Stdlib Require Import ZArith Strings.Byte Lia String.
From stdpp Require Import prelude list gmap strings.
From S2P Require Import Prelude CxxStrings StringUtil StringMap Headers.

(** ** Definitions *)

(** The specification of [headers]: a finite map from names in lower case to
    lists of values. *)
Notation multimap := (gmap (list byte) (list (list byte))) (only parsing).

Definition lowered (k : list byte) : list byte := map lower k.

Inductive operation :=
| Set_ (k v : list byte) | SetStrings (k : list byte) (vs : list (list byte)) | SetViews (k : list byte) (vs : list (list byte))
| Add (k v : list byte) | SetContentLength (n : Z) | SetContentType (ct : content_type) (order : list (list byte * list byte))
| Get (k : list byte) | GetAll (k : list byte) | GetContentLength | IsChunked | Size.

Inductive answer :=
| Done | First (v : option (list byte)) | All (vs : option (list (list byte))) | Length (n : option Z) | Truth (b : bool) | Number (n : nat).

Definition perform (h : headers) (op : operation) : outcome (answer * headers) :=
  let changed h := let* h := h in Ret (Done, h) in
  match op with
  | Set_ k v => changed (set h k v)
  | SetStrings k vs => changed (set_strings h k vs)
  | SetViews k vs => changed (set_views h k vs)
  | Add k v => changed (add h k v)
  | SetContentLength n => changed (set_content_length h n)
  | SetContentType ct order => changed (set_content_type h ct order)
  | Get k => let* v := get h k in Ret (First v, h)
  | GetAll k => let* vs := get_all h k in Ret (All vs, h)
  | GetContentLength => let* n := get_content_length h in Ret (Length n, h)
  | IsChunked => let* b := is_chunked h in Ret (Truth b, h)
  | Size => Ret (Number (headers_size h), h)
  end.

Fixpoint run (h : headers) (ops : list operation) : outcome (list answer * headers) :=
  match ops with
  | [] => Ret ([], h)
  | op :: ops =>
      let* (a, h) := perform h op in
      let* (l, h) := run h ops in
      Ret (a :: l, h)
  end.

(** A text without the blanks around it *)
Fixpoint skip_blanks (s : list byte) : list byte :=
  match s with
  | c :: r => if is_space c then skip_blanks r else s
  | [] => []
  end.
Definition strip (s : list byte) : list byte := reverse (skip_blanks (reverse (skip_blanks s))).

(** The number a text begins with, if it fits into 64 bits *)
Definition length_value (v : list byte) : option Z :=
  let r := from_chars 10 64 v in if bool_decide (fc_ec r = errc_ok) then fc_value r else None.

Definition chunked_value (v : list byte) : bool := equal_ignore_case (strip v) (lit "chunked").

Definition spec (m : multimap) (op : operation) : answer * multimap :=
  match op with
  | Set_ k v => (Done, <[lowered k := [v]]> m)
  | SetStrings k vs | SetViews k vs => (Done, <[lowered k := vs]> m)
  | Add k v => (Done, <[lowered k := default [] (m !! lowered k) ++ [v]]> m)
  | SetContentLength n => (Done, <[lit "content-length" := [to_chars 10 n]]> m)
  | SetContentType ct order =>
      (Done, match type ct with [] => m | t => <[lit "content-type" := [content_type_text t order]]> m end)
  | Get k => (First (m !! lowered k ≫= head), m)
  | GetAll k => (All (m !! lowered k), m)
  | GetContentLength => (Length ((m !! lit "content-length" ≫= head) ≫= length_value), m)
  | IsChunked => (Truth (existsb chunked_value (default [] (m !! lit "transfer-encoding"))), m)
  | Size => (Number (base.size m), m)
  end.

Fixpoint run_spec (m : multimap) (ops : list operation) : list answer * multimap :=
  match ops with
  | [] => ([], m)
  | op :: ops => let (a, m) := spec m op in let (l, m) := run_spec m ops in (a :: l, m)
  end.

(** The names are in the domain of the hash, and the texts are [short]. *)
Definition operation_ok (op : operation) : Prop :=
  match op with
  | Set_ k v | Add k v => valid_name k /\ short v
  | SetStrings k vs | SetViews k vs => valid_name k /\ Forall short vs
  | SetContentLength n => short (to_chars 10 n)
  | SetContentType ct order => short (content_type_text (type ct) order)
  | Get k | GetAll k => valid_name k
  | GetContentLength | IsChunked | Size => True
  end.

Definition all_short (m : multimap) : Prop := map_Forall (fun _ => Forall short) m.

Lemma skip_blanks_app a s : blank_str a -> skip_blanks (a ++ s) = skip_blanks s.
Proof. induction 1 as [|c a Hc _ IH]; [done|]. cbn [app skip_blanks]. by rewrite Hc. Qed.

Lemma skip_blanks_stop c s : is_space c = false -> skip_blanks (c :: s) = c :: s.
Proof. cbn. by intros ->. Qed.

Lemma strip_blanks s : blank_str s -> strip s = [].
Proof. intros Hs. unfold strip. rewrite <- (app_nil_r s), skip_blanks_app by done. done. Qed.

Lemma strip_middle a m b : blank_str a -> trimmed m -> blank_str b -> strip (a ++ m ++ b) = m.
Proof.
  intros Ha Hm Hb. unfold strip. rewrite skip_blanks_app by done. destruct (trimmed_first m Hm) as (x & r & -> & Hx).
  cbn [app]. rewrite skip_blanks_stop, app_comm_cons, reverse_app by done. rewrite skip_blanks_app by (by apply Forall_reverse).
  destruct (trimmed_last _ Hm) as (r' & y & -> & Hy). rewrite reverse_app. cbn [reverse rev_append app]. change (reverse [y]) with [y]. cbn [app].
  rewrite skip_blanks_stop, reverse_cons, reverse_involutive by done. done.
Qed.

Lemma any_chunked_spec vals : Forall short vals -> any_chunked vals = Ret (existsb chunked_value vals).
Proof.
  induction 1 as [|v vals Hv _ IH]; [done|]. cbn [any_chunked existsb]. unfold chunked_value at 1.
  destruct (blanks_or_trimmed v) as [Hb | (a & m & b & -> & Ha & Hm & Hb)].
  - rewrite trim_string_blanks, bind_ret, strip_blanks by done. destruct v as [|c v]; [exact IH|].
    assert (equal_ignore_case (c :: v) (lit "chunked") = false) as ->; [|exact IH].
    apply not_true_iff_false. intros E%equal_ignore_case_iff. injection E as Ec _. apply Forall_cons in Hb as [Hb _]. by destruct c.
  - rewrite trim_string_middle, bind_ret, strip_middle by done. destruct (equal_ignore_case m _); [done|exact IH].
Qed.

Lemma all_short_insert m k vs : all_short m -> Forall short vs -> all_short (<[k := vs]> m).
Proof. intros Hm Hv. by apply map_Forall_insert_2. Qed.

Lemma all_short_lookup m k : all_short m -> Forall short (default [] (m !! k)).
Proof. intros Hm. destruct (m !! k) as [vs|] eqn:E; [|constructor]. by apply (Hm k). Qed.

#[local] Hint Resolve all_short_insert all_short_lookup : cppnet.

Lemma set_values_spec h k vs :
  map_ok h -> valid_name k ->
  (exists h', set_strings h k vs = Ret h' /\ map_ok h' /\ abs h' = <[lowered k := vs]> (abs h))
  /\ (exists h', set_views h k vs = Ret h' /\ map_ok h' /\ abs h' = <[lowered k := vs]> (abs h)).
Proof.
  intros Hok Hk%name_valid. split.
  - unfold set_strings. destruct (insert_or_assign_spec h k vs Hok Hk) as (h' & -> & Hok' & Ha). by exists h'.
  - destruct (update_at_spec [] h k (fun _ => vs) Hok Hk) as (h' & E & Hok' & Ha). by exists h'.
Qed.

Lemma perform_spec h op :
  map_ok h -> all_short (abs h) -> operation_ok op ->
  exists a h', perform h op = Ret (a, h') /\ map_ok h' /\ all_short (abs h') /\ (a, abs h') = spec (abs h) op.
Proof.
  intros Hok Hs Hop. assert (valid_name (lit "Content-Length") /\ valid_name (lit "Content-Type") /\ valid_name (lit "Transfer-Encoding"))
    as (Hcl & Hct & Hte) by (split_and!; by apply valid_literal).
  destruct op as [k v|k vs|k vs|k v|n|ct order|k|k| | |]; cbn [perform spec operation_ok] in *.
  - destruct Hop as [Hk Hv]. destruct (header_set_spec h k v Hok Hk) as (h' & -> & Hok' & Ha). rewrite bind_ret.
    exists Done, h'. rewrite Ha. split_and!; auto with cppnet.
  - destruct Hop as [Hk Hv]. destruct (set_values_spec h k vs Hok Hk) as [(h' & -> & Hok' & Ha) _]. rewrite bind_ret.
    exists Done, h'. rewrite Ha. split_and!; auto with cppnet.
  - destruct Hop as [Hk Hv]. destruct (set_values_spec h k vs Hok Hk) as [_ (h' & -> & Hok' & Ha)]. rewrite bind_ret.
    exists Done, h'. rewrite Ha. split_and!; auto with cppnet.
  - destruct Hop as [Hk Hv]. destruct (header_add_spec h k v Hok Hk) as (h' & -> & Hok' & Ha). rewrite bind_ret.
    exists Done, h'. rewrite Ha. split_and!; try done. apply all_short_insert; [done|]. apply Forall_app. split; [by apply all_short_lookup|by constructor].
  - destruct (header_set_spec h _ (to_chars 10 n) Hok Hcl) as (h' & Hset & Hok' & Ha). unfold set_content_length. rewrite Hset, bind_ret.
    exists Done, h'. rewrite Ha. split_and!; auto with cppnet.
  - unfold set_content_type. destruct (type ct) as [|c t]; [rewrite bind_ret; by exists Done, h|].
    destruct (header_set_spec h _ (content_type_text (c :: t) order) Hok Hct) as (h' & -> & Hok' & Ha). rewrite bind_ret.
    exists Done, h'. rewrite Ha. split_and!; auto with cppnet.
  - rewrite header_get_spec, bind_ret by done. by eexists _, h.
  - rewrite get_all_spec, bind_ret by done. by eexists _, h.
  - unfold get_content_length. rewrite header_get_spec by done. change (canon (lit "Content-Length")) with (lit "content-length").
    eexists _, h. split_and!; [|done|done|done]. destruct (abs h !! lit "content-length" ≫= head) as [v|]; [|done]. rewrite bind_ret. unfold length_value.
    cbn. by destruct (bool_decide _).
  - unfold is_chunked, get_transfer_encoding. rewrite get_all_spec, bind_ret by done. change (canon (lit "Transfer-Encoding")) with (lit "transfer-encoding").
    pose proof (all_short_lookup (abs h) (lit "transfer-encoding") Hs) as Hv. eexists _, h. split_and!; [|done|done|done].
    destruct (abs h !! lit "transfer-encoding") as [vals|]; [|done]. by rewrite any_chunked_spec.
  - unfold headers_size. rewrite size_spec by done. by eexists _, h.
Qed.

(** C8: [headers] is a multimap whose names ignore case: any sequence of its
    operations, from no headers, is defined and gives the answers it gives on a
    finite map from names in lower case to lists of values; the content length
    is the number its first value begins with, and [is_chunked] says whether a
    value of Transfer-Encoding is "chunked" but for case and blanks around it. *)
Theorem headers_refine_multimap (ops : list operation) :
  Forall operation_ok ops ->
  exists answers h, run [] ops = Ret (answers, h) /\ map_ok h /\ (answers, abs h) = run_spec ∅ ops.
Proof.
  intros Hops. rewrite <- (proj2 (@empty_map_ok _ _ (list (list byte)))).
  assert (all_short (abs ([] : headers))) as Hs by done. revert Hs.
  generalize (proj1 (@empty_map_ok _ _ (list (list byte)))). generalize ([] : headers).
  induction Hops as [|op ops Hop _ IH]; intros h Hok Hs; cbn [run run_spec]; [by exists [], h|].
  destruct (perform_spec h op Hok Hs Hop) as (a & h1 & -> & Hok1 & Hs1 & <-). rewrite bind_ret.
  destruct (IH h1 Hok1 Hs1) as (l & h2 & -> & Hok2 & <-). rewrite bind_ret. by exists (a :: l), h2.
Qed.

Definition sample_operations : list operation :=
  [Set_ (lit "Host") (lit "a"); Add (lit "Accept") (lit "x"); Add (lit "ACCEPT") (lit "y"); SetContentLength 12;
   Set_ (lit "transfer-encoding") (lit " Chunked "); GetAll (lit "accept"); GetContentLength; IsChunked; Size].

Lemma headers_refine_multimap_witness :
  exists answers h, run [] sample_operations = Ret (answers, h) /\ map_ok h /\ (answers, abs h) = run_spec ∅ sample_operations.
Proof.
  apply (headers_refine_multimap sample_operations).
  repeat (apply Forall_cons_2; [cbn [operation_ok]; try split; first [exact I|apply (bool_decide_unpack _); vm_compute; exact I|vm_compute; reflexivity]|]).
  apply Forall_nil_2.
Defined.
