(* ===== verification/Messages.v ===== *)
(** * Messages (include/http/http.hpp, request.hpp, response.hpp, src/http/response.cpp)

    The version, the methods and the status codes of a message, with their
    texts.  [status] is an enum over [uint32_t] that [parse_status] fills with
    whatever number it reads, so it is modelled by its value, the enumerators
    being constants. *)

From Stdlib Require Import ZArith Strings.Byte Lia String.
From stdpp Require Import prelude list gmap strings.
From S2P Require Import Prelude CxxStrings StringUtil.

(** ** Versions *)

Record protocol_version := { major : Z; minor : Z }.

#[global] Instance protocol_version_eq_dec : EqDecision protocol_version.
Proof. solve_decision. Defined.

(** [operator<=>] *)
Definition version_compare (lhs rhs : protocol_version) : comparison :=
  match major lhs ?= major rhs with
  | Eq => minor lhs ?= minor rhs
  | diff => diff
  end.

(** ** Methods *)

Inductive request_method : Type :=
| CONNECT | DELETE | GET | HEAD | OPTIONS | PATCH | POST | PUT | TRACE | NONE.

#[global] Instance request_method_eq_dec : EqDecision request_method.
Proof. solve_decision. Defined.

Definition parse_method (str : list byte) : request_method :=
  if equal_ignore_case str (lit "CONNECT") then CONNECT
  else if equal_ignore_case str (lit "DELETE") then DELETE
  else if equal_ignore_case str (lit "GET") then GET
  else if equal_ignore_case str (lit "HEAD") then HEAD
  else if equal_ignore_case str (lit "OPTIONS") then OPTIONS
  else if equal_ignore_case str (lit "PATCH") then PATCH
  else if equal_ignore_case str (lit "POST") then POST
  else if equal_ignore_case str (lit "PUT") then PUT
  else if equal_ignore_case str (lit "TRACE") then TRACE
  else NONE.

Definition method_string (m : request_method) : list byte :=
  match m with
  | CONNECT => lit "CONNECT"
  | DELETE => lit "DELETE"
  | GET => lit "GET"
  | HEAD => lit "HEAD"
  | OPTIONS => lit "OPTIONS"
  | PATCH => lit "PATCH"
  | POST => lit "POST"
  | PUT => lit "PUT"
  | TRACE => lit "TRACE"
  | NONE => lit "NONE"
  end.

(** ** Status codes *)

Notation status := Z (only parsing).

(** The enumerators, in the order of the source. *)
Definition STATUS_NONE : status := 0.
Definition STATUS_CONTINUE : status := 100.
Definition STATUS_SWITCHING_PROTOCOLS : status := 101.
Definition STATUS_PROCESSING : status := 102.
Definition STATUS_OK : status := 200.
Definition STATUS_CREATED : status := 201.
Definition STATUS_ACCEPTED : status := 202.
Definition STATUS_NON_AUTHORITATIVE_INFORMATION : status := 203.
Definition STATUS_NO_CONTENT : status := 204.
Definition STATUS_RESET_CONTENT : status := 205.
Definition STATUS_PARTIAL_CONTENT : status := 206.
Definition STATUS_MULTI_STATUS : status := 207.
Definition STATUS_ALREADY_REPORTED : status := 208.
Definition STATUS_IM_USED : status := 226.
Definition STATUS_MULTIPLE_CHOICES : status := 300.
Definition STATUS_MOVED_PERMANENTLY : status := 301.
Definition STATUS_FOUND : status := 302.
Definition STATUS_SEE_OTHER : status := 303.
Definition STATUS_NOT_MODIFIED : status := 304.
Definition STATUS_USE_PROXY : status := 305.
Definition STATUS_TEMPORARY_REDIRECT : status := 307.
Definition STATUS_PERMANENT_REDIRECT : status := 308.
Definition STATUS_BAD_REQUEST : status := 400.
Definition STATUS_UNAUTHORIZED : status := 401.
Definition STATUS_PAYMENT_REQUIRED : status := 402.
Definition STATUS_FORBIDDEN : status := 403.
Definition STATUS_NOT_FOUND : status := 404.
Definition STATUS_METHOD_NOT_ALLOWED : status := 405.
Definition STATUS_NOT_ACCEPTABLE : status := 406.
Definition STATUS_PROXY_AUTHENTICATION_REQUIRED : status := 407.
Definition STATUS_REQUEST_TIMEOUT : status := 408.
Definition STATUS_CONFLICT : status := 409.
Definition STATUS_GONE : status := 410.
Definition STATUS_LENGTH_REQUIRED : status := 411.
Definition STATUS_PRECONDITION_FAILED : status := 412.
Definition STATUS_PAYLOAD_TOO_LARGE : status := 413.
Definition STATUS_REQUEST_URI_TOO_LONG : status := 414.
Definition STATUS_UNSUPPORTED_MEDIA_TYPE : status := 415.
Definition STATUS_REQUESTED_RANGE_NOT_SATISFIABLE : status := 416.
Definition STATUS_EXPECTATION_FAILED : status := 417.
Definition STATUS_IM_A_TEAPOT : status := 418.
Definition STATUS_MISDIRECTED_REQUEST : status := 421.
Definition STATUS_UNPROCESSABLE_ENTITY : status := 422.
Definition STATUS_LOCKED : status := 423.
Definition STATUS_FAILED_DEPENDENCY : status := 424.
Definition STATUS_UPGRADE_REQUIRED : status := 426.
Definition STATUS_PRECONDITION_REQUIRED : status := 428.
Definition STATUS_TOO_MANY_REQUESTS : status := 429.
Definition STATUS_REQUEST_HEADER_FIELDS_TOO_LARGE : status := 431.
Definition STATUS_CONNECTION_CLOSED_WITHOUT_RESPONSE : status := 444.
Definition STATUS_UNAVAILABLE_FOR_LEGAL_REASONS : status := 451.
Definition STATUS_CLIENT_CLOSED_REQUEST : status := 499.
Definition STATUS_INTERNAL_SERVER_ERROR : status := 500.
Definition STATUS_NOT_IMPLEMENTED : status := 501.
Definition STATUS_BAD_GATEWAY : status := 502.
Definition STATUS_SERVICE_UNAVAILABLE : status := 503.
Definition STATUS_GATEWAY_TIMEOUT : status := 504.
Definition STATUS_HTTP_VERSION_NOT_SUPPORTED : status := 505.
Definition STATUS_VARIANT_ALSO_NEGOTIATES : status := 506.
Definition STATUS_INSUFFICIENT_STORAGE : status := 507.
Definition STATUS_LOOP_DETECTED : status := 508.
Definition STATUS_NOT_EXTENDED : status := 510.
Definition STATUS_NETWORK_AUTHENTICATION_REQUIRED : status := 511.
Definition STATUS_NETWORK_CONNECT_TIMEOUT_ERROR : status := 599.

(** The known codes and their texts. *)
Definition status_texts : list (status * list byte) := [
  (STATUS_CONTINUE, lit "100 Continue");
  (STATUS_SWITCHING_PROTOCOLS, lit "101 Switching Protocols");
  (STATUS_PROCESSING, lit "102 Processing");
  (STATUS_OK, lit "200 OK");
  (STATUS_CREATED, lit "201 Created");
  (STATUS_ACCEPTED, lit "202 Accepted");
  (STATUS_NON_AUTHORITATIVE_INFORMATION, lit "203 Non-Authoritative Information");
  (STATUS_NO_CONTENT, lit "204 No Content");
  (STATUS_RESET_CONTENT, lit "205 Reset Content");
  (STATUS_PARTIAL_CONTENT, lit "206 Partial Content");
  (STATUS_MULTI_STATUS, lit "207 Multi-Status");
  (STATUS_ALREADY_REPORTED, lit "208 Already Reported");
  (STATUS_IM_USED, lit "226 IM Used");
  (STATUS_MULTIPLE_CHOICES, lit "300 Multiple Choices");
  (STATUS_MOVED_PERMANENTLY, lit "301 Moved Permanently");
  (STATUS_FOUND, lit "302 Found");
  (STATUS_SEE_OTHER, lit "303 See Other");
  (STATUS_NOT_MODIFIED, lit "304 Not Modified");
  (STATUS_USE_PROXY, lit "305 Use Proxy");
  (STATUS_TEMPORARY_REDIRECT, lit "307 Temporary Redirect");
  (STATUS_PERMANENT_REDIRECT, lit "308 Permanent Redirect");
  (STATUS_BAD_REQUEST, lit "400 Bad Request");
  (STATUS_UNAUTHORIZED, lit "401 Unauthorized");
  (STATUS_PAYMENT_REQUIRED, lit "402 Payment Required");
  (STATUS_FORBIDDEN, lit "403 Forbidden");
  (STATUS_NOT_FOUND, lit "404 Not Found");
  (STATUS_METHOD_NOT_ALLOWED, lit "405 Method Not Allowed");
  (STATUS_NOT_ACCEPTABLE, lit "406 Not Acceptable");
  (STATUS_PROXY_AUTHENTICATION_REQUIRED, lit "407 Proxy Authentication Required");
  (STATUS_REQUEST_TIMEOUT, lit "408 Request Timeout");
  (STATUS_CONFLICT, lit "409 Conflict");
  (STATUS_GONE, lit "410 Gone");
  (STATUS_LENGTH_REQUIRED, lit "411 Length Required");
  (STATUS_PRECONDITION_FAILED, lit "412 Precondition Failed");
  (STATUS_PAYLOAD_TOO_LARGE, lit "413 Payload Too Large");
  (STATUS_REQUEST_URI_TOO_LONG, lit "414 Request-Uri Too Long");
  (STATUS_UNSUPPORTED_MEDIA_TYPE, lit "415 Unsupported Media Type");
  (STATUS_REQUESTED_RANGE_NOT_SATISFIABLE, lit "416 Requested Range Not Satisfiable");
  (STATUS_EXPECTATION_FAILED, lit "417 Expectation Failed");
  (STATUS_IM_A_TEAPOT, lit "418 I'm A Teapot");
  (STATUS_MISDIRECTED_REQUEST, lit "421 Misdirected Request");
  (STATUS_UNPROCESSABLE_ENTITY, lit "422 Unprocessable Entity");
  (STATUS_LOCKED, lit "423 Locked");
  (STATUS_FAILED_DEPENDENCY, lit "424 Failed Dependency");
  (STATUS_UPGRADE_REQUIRED, lit "426 Upgrade Required");
  (STATUS_PRECONDITION_REQUIRED, lit "428 Precondition Required");
  (STATUS_TOO_MANY_REQUESTS, lit "429 Too Many Requests");
  (STATUS_REQUEST_HEADER_FIELDS_TOO_LARGE, lit "431 Request Header Fields Too Large");
  (STATUS_CONNECTION_CLOSED_WITHOUT_RESPONSE, lit "444 Connection Closed Without Response");
  (STATUS_UNAVAILABLE_FOR_LEGAL_REASONS, lit "451 Unavailable For Legal Reasons");
  (STATUS_CLIENT_CLOSED_REQUEST, lit "499 Client Closed Request");
  (STATUS_INTERNAL_SERVER_ERROR, lit "500 Internal Server Error");
  (STATUS_NOT_IMPLEMENTED, lit "501 Not Implemented");
  (STATUS_BAD_GATEWAY, lit "502 Bad Gateway");
  (STATUS_SERVICE_UNAVAILABLE, lit "503 Service Unavailable");
  (STATUS_GATEWAY_TIMEOUT, lit "504 Gateway Timeout");
  (STATUS_HTTP_VERSION_NOT_SUPPORTED, lit "505 Http Version Not Supported");
  (STATUS_VARIANT_ALSO_NEGOTIATES, lit "506 Variant Also Negotiates");
  (STATUS_INSUFFICIENT_STORAGE, lit "507 Insufficient Storage");
  (STATUS_LOOP_DETECTED, lit "508 Loop Detected");
  (STATUS_NOT_EXTENDED, lit "510 Not Extended");
  (STATUS_NETWORK_AUTHENTICATION_REQUIRED, lit "511 Network Authentication Required");
  (STATUS_NETWORK_CONNECT_TIMEOUT_ERROR, lit "599 Network Connect Timeout Error")
].

(** [status_text]: the [switch], whose default is for every other number. *)
Definition status_text (s : status) : list byte :=
  match List.find (fun e => e.1 =? s) status_texts with
  | Some e => e.2
  | None => lit "XXX Unknown"
  end.

(** [status_string]: the text without the number. *)
Definition status_string (s : status) : outcome (list byte) := noexcept (sv_substr_from (status_text s) 4).

Definition parse_status (str : list byte) : status :=
  let r := from_chars 10 32 str in
  if bool_decide (fc_ec r = errc_ok) then default 0 (fc_value r) else 0.

Definition status_is_information (s : status) : bool := (STATUS_CONTINUE <=? s) && (s <? STATUS_OK).
Definition status_is_success (s : status) : bool := (STATUS_OK <=? s) && (s <? STATUS_MULTIPLE_CHOICES).
Definition status_is_redirection (s : status) : bool := (STATUS_MULTIPLE_CHOICES <=? s) && (s <? STATUS_BAD_REQUEST).
Definition status_is_client_error (s : status) : bool := (STATUS_BAD_REQUEST <=? s) && (s <? STATUS_INTERNAL_SERVER_ERROR).
Definition status_is_server_error (s : status) : bool := STATUS_INTERNAL_SERVER_ERROR <=? s.

(** ** Lemmas *)

Definition known_statuses : list status := status_texts.*1.

(** The text of a known status: its number in three digits, a space, a reason
    without line ends. *)
Lemma status_text_known s : s ∈ known_statuses ->
  exists reason, status_text s = to_chars 10 s ++ lit " " ++ reason /\ length (to_chars 10 s) = 3%nat
    /\ 100 <= s < 2 ^ 32 /\ x0a ∉ reason.
Proof.
  intros Hs.
  assert (forallb (fun s => bytes_eqb (status_text s) (to_chars 10 s ++ lit " " ++ drop 4 (status_text s))
    && (length (to_chars 10 s) =? 3)%nat && (100 <=? s) && (s <? 2 ^ 32) && negb (mem (drop 4 (status_text s)) x0a)) known_statuses = true) as Hall
    by (vm_compute; reflexivity).
  rewrite forallb_forall in Hall. specialize (Hall s (proj1 (list_elem_of_In _ _) Hs)).
  rewrite !andb_true_iff, bytes_eqb_eq, negb_true_iff in Hall. destruct Hall as ((((Ht & Hl) & H1) & H2) & Hn).
  reflect_bools. apply mem_false in Hn. eexists. split_and!; [exact Ht|done|done|done|done].
Qed.

Lemma parse_method_string m : m <> NONE -> parse_method (method_string m) = m.
Proof. by destruct m. Qed.

Lemma parse_status_text s : s ∈ known_statuses -> parse_status (status_text s) = s.
Proof.
  intros (reason & -> & _ & Hs & _)%status_text_known. unfold parse_status.
  rewrite from_chars_to_chars by (done || lia). by rewrite bool_decide_eq_true_2.
Qed.

(** A method string has neither a space nor a line end in it. *)
Lemma method_string_plain m : Forall (fun c => byte_eqb " "%byte c = false) (method_string m) /\ x0a ∉ method_string m.
Proof.
  split; [destruct m; repeat constructor|]. apply mem_false. destruct m; reflexivity.
Qed.

(** ** Properties *)

(** the texts the library writes are the ones it reads: every method is
    parsed back from its name in any mixture of cases, and every status from
    its text; its reason is the text after the number, and each known status is
    in exactly one of the five classes. *)
Lemma message_texts :
  (forall m s, m <> NONE -> equal_ignore_case s (method_string m) = true -> parse_method s = m)
  /\ (forall s, s ∈ known_statuses -> parse_status (status_text s) = s
        /\ (exists reason, status_string s = Ret reason /\ status_text s = to_chars 10 s ++ lit " " ++ reason)
        /\ length (List.filter (fun c => c s) [status_is_information; status_is_success; status_is_redirection;
             status_is_client_error; status_is_server_error]) = 1%nat).
Proof.
  split.
  - intros m s Hm Hs. assert (forall t, equal_ignore_case s t = equal_ignore_case (method_string m) t) as He.
    { intros t. apply eq_iff_eq_true. rewrite !equal_ignore_case_iff in *. by rewrite Hs. }
    unfold parse_method. rewrite !He. by destruct m.
  - intros s Hs. split; [by apply parse_status_text|]. split.
    + destruct (status_text_known s Hs) as (reason & Ht & Hl & _). exists reason. split; [|done].
      unfold status_string. rewrite Ht. replace 4%nat with (length (to_chars 10 s) + 1)%nat by lia.
      change (lit " " ++ reason) with (" "%byte :: reason). by rewrite (sv_substr_from_cons (to_chars 10 s) " "%byte reason).
    + assert (forallb (fun s => (length (List.filter (fun c => c s) [status_is_information; status_is_success;
        status_is_redirection; status_is_client_error; status_is_server_error]) =? 1)%nat) known_statuses = true) as Hall
        by (vm_compute; reflexivity).
      rewrite forallb_forall in Hall. apply Nat.eqb_eq, Hall. by apply list_elem_of_In.
Qed.

Lemma message_texts_witness :
  parse_method (lit "gEt") = GET /\ parse_status (status_text 404) = 404.
Proof.
  split.
  - apply (proj1 message_texts GET (lit "gEt")); [discriminate|reflexivity].
  - apply (proj2 message_texts 404). apply (bool_decide_unpack _). vm_compute. exact I.
Defined.
