(* ===== verification/Http11.v ===== *)
(** * HTTP/1.1 messages on the wire (src/http/http11.cpp)

    Encoding writes the start line and the headers to a writer; decoding reads
    them from a buffered reader and hands the rest of the stream to the body,
    through a chunked reader or a limit reader.  The loops that read lines run
    on the [fuel] of the caller: a turn for each line and each byte of a line,
    so more than the bytes that are left is enough.  The iteration orders of
    the query and of the headers are arguments of the encoders. *)

From Stdlib Require Import ZArith Strings.Byte Lia String.
From stdpp Require Import prelude list gmap strings.
From S2P Require Import Prelude CxxStrings StringUtil Url Io BufferedReader Chunked StringMap Headers Messages.

(** ** Definitions *)

Notation illegal_sequence := (generic illegal_byte_sequence) (only parsing).

(** [from_chars]: a value or an error code. *)
Definition from_chars_u32 (str : list byte) : Z + errc :=
  let r := from_chars 10 32 str in
  match fc_ec r, fc_value r with
  | errc_ok, Some v => inl v
  | e, _ => inr e
  end.

Definition parse_http_version (str : list byte) : outcome (protocol_version + error_condition) :=
  if negb (starts_with str (lit "HTTP/")) then Ret (inr illegal_sequence)
  else
    let str := drop (length (lit "HTTP/")) str in
    match sv_find str "."%byte 0 with
    | None => Ret (inr illegal_sequence)
    | Some split_idx =>
        let* head := sv_substr str 0 split_idx in
        match from_chars_u32 head with
        | inr e => Ret (inr (generic e))
        | inl major =>
            let* last := sv_substr_from str (split_idx + 1) in
            match from_chars_u32 last with
            | inr e => Ret (inr (generic e))
            | inl minor => Ret (inl {| major := major; minor := minor |})
            end
        end
    end.

(** The status line: version and code, or an error. *)
Definition status_line (line : list byte) : outcome ((protocol_version * status) + error_condition) :=
  match line with
  | [] => Ret (inr (make_error_condition closed))
  | _ =>
      match sv_find line " "%byte 0 with
      | None => Ret (inr illegal_sequence)
      | Some version_end =>
          let* head := sv_substr line 0 version_end in
          let* res := parse_http_version head in
          match res with
          | inr e => Ret (inr e)
          | inl version =>
              let status_start := (version_end + 1)%nat in
              match sv_find line " "%byte status_start with
              | None => Ret (inr illegal_sequence)
              | Some status_end =>
                  let* code := sv_substr line status_start status_end in
                  let status_code := parse_status code in
                  if status_code =? STATUS_NONE then Ret (inr illegal_sequence)
                  else Ret (inl (version, status_code))
              end
          end
      end
  end.

Definition parse_status_line {R} `{Reader R} (fuel : nat) (reader : buffered_reader R)
    : outcome (((protocol_version * status) + error_condition) * buffered_reader R) :=
  let* (result, reader) := readline fuel reader crlf in
  match result with
  | inr e => Ret (inr e, reader)
  | inl line => let* r := status_line line in Ret (r, reader)
  end.

(** The target of a request. *)
Definition request_uri (uri : list byte) : outcome url :=
  if bytes_eqb uri (lit "*") then Ret (set_host empty_url (lit "*"))
  else
    let* res := parse uri in
    match res with
    | inl u => Ret u
    | inr _ => Ret (set_path empty_url (lit "/"))
    end.

Definition request_line (line : list byte) : outcome ((request_method * url * protocol_version) + error_condition) :=
  match line with
  | [] => Ret (inr (make_error_condition closed))
  | _ =>
      match sv_find line " "%byte 0 with
      | None => Ret (inr illegal_sequence)
      | Some method_end =>
          let* head := sv_substr line 0 method_end in
          let method := parse_method head in
          if bool_decide (method = NONE) then Ret (inr illegal_sequence)
          else
            let uri_start := (method_end + 1)%nat in
            match sv_find line " "%byte uri_start with
            | None => Ret (inr illegal_sequence)
            | Some uri_end =>
                let* target := sv_substr line uri_start (uri_end - uri_start) in
                let* uri := request_uri target in
                let* last := sv_substr_from line (uri_end + 1) in
                let* res := parse_http_version last in
                match res with
                | inr e => Ret (inr e)
                | inl version => Ret (inl (method, uri, version))
                end
            end
      end
  end.

Definition parse_request_line {R} `{Reader R} (fuel : nat) (reader : buffered_reader R)
    : outcome (((request_method * url * protocol_version) + error_condition) * buffered_reader R) :=
  let* (result, reader) := readline fuel reader crlf in
  match result with
  | inr e => Ret (inr e, reader)
  | inl line => let* r := request_line line in Ret (r, reader)
  end.

Fixpoint add_values (h : headers) (key : list byte) (vals : list (list byte)) : outcome headers :=
  match vals with
  | [] => Ret h
  | v :: vals => let* h := add h key v in add_values h key vals
  end.

(** A line of the header section; one without a colon is skipped. *)
Definition header_line (h : headers) (line : list byte) : outcome headers :=
  match sv_find line ":"%byte 0 with
  | None => Ret h
  | Some split_idx =>
      let* key := sv_substr line 0 split_idx in
      let* key := trim_string key in
      let* val := sv_substr_from line (split_idx + 1) in
      let* val := trim_string val in
      let* vals := split_string val ","%byte 0 in
      add_values h key vals
  end.

(** The loop of [parse_headers]; [amount_read] is a [size_t]. *)
Fixpoint headers_loop {R} `{Reader R} (turns fuel : nat) (reader : buffered_reader R) (max_read amount_read : Z) (h : headers)
    : outcome (error_condition * headers * buffered_reader R) :=
  match turns with
  | O => OutOfFuel
  | S turns =>
      if amount_read <? max_read then
        let* (maybe_line, reader) := readline fuel reader crlf in
        match maybe_line with
        | inr e => Ret (e, h, reader)
        | inl [] => Ret (no_error, h, reader)
        | inl next_line =>
            let* h := header_line h next_line in
            headers_loop turns fuel reader max_read (u64 (amount_read + Z.of_nat (length next_line))) h
        end
      else Ret (generic value_too_large, h, reader)
  end.

Definition parse_headers {R} `{Reader R} (fuel : nat) (reader : buffered_reader R) (max_read : Z) (h : headers)
    : outcome (error_condition * headers * buffered_reader R) :=
  headers_loop fuel fuel reader max_read 0 h.

(** The pieces one header is written in, each by a write of its own. *)
Definition header_pieces (header : list byte * list (list byte)) : list (list byte) :=
  [header.1; lit ": "]
  ++ match header.2 with
     | [] => []
     | v :: vals => v :: concat (map (fun value => [lit ", "; value]) vals)
     end
  ++ [crlf].

(** [order] is the order in which the headers are iterated. *)
Definition write_headers {W} `{Writer W} (w : W) (order : headers) : outcome (error_condition * W) :=
  let* (_, err, w) := write_all w (concat (map header_pieces order)) in Ret (err, w).

Record client_request := {
  creq_method : request_method; creq_version : protocol_version; creq_uri : url; creq_headers : headers }.

Record server_response := {
  sresp_version : protocol_version; sresp_status : status; sresp_headers : headers }.

Definition digit_of (v : Z) : byte := byte_of_Z (u32 (v + 48)).

(** A version that was not set is 1.0. *)
Definition request_version (v : protocol_version) : protocol_version :=
  if (major v =? 0) && (minor v =? 0) then {| major := 1; minor := 0 |} else v.

Definition version_buf (v : protocol_version) : list byte := [digit_of (major v); "."%byte; digit_of (minor v); " "%byte].

(** The end of both encoders: the headers, and an empty line. *)
Definition encode_headers {W} `{Writer W} (w : W) (order : headers) : outcome ((unit + error_condition) * W) :=
  let* (err, w) := write_headers w order in
  if failed err then Ret (inr err, w)
  else
    let* (_, err, w) := wr w crlf in
    if failed err then Ret (inr err, w) else Ret (inl tt, w).

(** The writes of the start lines. *)
Definition request_start (req : client_request) (query_order : list (list byte * list (list byte))) : list (list byte) :=
  [method_string (creq_method req); lit " "; build (creq_uri req) query_order; lit " HTTP/";
   version_buf (request_version (creq_version req)); crlf].
Definition response_start (resp : server_response) : list (list byte) :=
  [lit "HTTP/"; version_buf (sresp_version resp); status_text (sresp_status resp); crlf].

(** [request_encode]; the body is not written. *)
Definition request_encode {W} `{Writer W} (w : W) (req : client_request)
    (query_order : list (list byte * list (list byte))) (order : headers) : outcome ((unit + error_condition) * W) :=
  let* (_, err, w) := write_all w (request_start req query_order) in
  if failed err then Ret (inr err, w) else encode_headers w order.

Definition response_encode {W} `{Writer W} (w : W) (resp : server_response) (order : headers)
    : outcome ((unit + error_condition) * W) :=
  let* (_, err, w) := write_all w (response_start resp) in
  if failed err then Ret (inr err, w) else encode_headers w order.

(** The reader of a message's body, over what is left of the stream. *)
Inductive body (R : Type) : Type :=
| Chunked (r : chunked_reader (buffered_reader R))
| Limited (r : limit_reader (buffered_reader R)).
Arguments Chunked {R} r.
Arguments Limited {R} r.

Record server_request (R : Type) := {
  req_method : request_method; req_version : protocol_version; req_uri : url; req_headers : headers; req_body : body R }.
Arguments Build_server_request {R}.
Arguments req_method {R}. Arguments req_version {R}. Arguments req_uri {R}. Arguments req_headers {R}. Arguments req_body {R}.

Record client_response (R : Type) := {
  resp_version : protocol_version; resp_status : status; resp_headers : headers; resp_body : body R }.
Arguments Build_client_response {R}.
Arguments resp_version {R}. Arguments resp_status {R}. Arguments resp_headers {R}. Arguments resp_body {R}.

(** How the headers delimit the body. *)
Definition body_of {R} (h : headers) (reader : buffered_reader R) : outcome (body R) :=
  let* chunked := is_chunked h in
  if chunked : bool then Ret (Chunked {| Chunked.parent := reader; current_chunk_size := 0 |})
  else
    let* content_length := get_content_length h in
    Ret (Limited {| Io.parent := reader; limit := Z.to_nat (default 0 content_length); progress := 0 |}).

Definition request_decode {R} `{Reader R} (fuel : nat) (reader : buffered_reader R) (max_header_bytes : Z)
    : outcome (server_request R + error_condition) :=
  let* (start, reader) := parse_request_line fuel reader in
  match start with
  | inr err => Ret (inr err)
  | inl (method, uri, version) =>
      let* (err, h, reader) := parse_headers fuel reader max_header_bytes [] in
      if failed err then Ret (inr err)
      else
        let* host_header := (match host uri with [] => get h (lit "Host") | _ => Ret None end) in
        let uri := match host uri with [] => set_host uri (default [] host_header) | _ => uri end in
        let* b := body_of h reader in
        Ret (inl {| req_method := method; req_version := version; req_uri := uri; req_headers := h; req_body := b |})
  end.

Definition response_decode {R} `{Reader R} (fuel : nat) (reader : buffered_reader R) (max_header_bytes : Z)
    : outcome (client_response R + error_condition) :=
  let* (start, reader) := parse_status_line fuel reader in
  match start with
  | inr err => Ret (inr err)
  | inl (version, status_code) =>
      let* (err, h, reader) := parse_headers fuel reader max_header_bytes [] in
      if failed err then Ret (inr err)
      else
        let* b := body_of h reader in
        Ret (inl {| resp_version := version; resp_status := status_code; resp_headers := h; resp_body := b |})
  end.

(** ** Start lines *)

Lemma digit_of_chars d : 0 <= d <= 9 -> [digit_of d] = to_chars 10 d.
Proof.
  intros Hd. assert (d ∈ seqZ 0 10) as Hin by (apply elem_of_seqZ; lia).
  assert (forallb (fun d => bytes_eqb [digit_of d] (to_chars 10 d)) (seqZ 0 10) = true) as Hall by (vm_compute; reflexivity).
  rewrite forallb_forall in Hall. apply bytes_eqb_eq, Hall. by apply list_elem_of_In.
Qed.

Lemma from_chars_digit d rest : 0 <= d <= 9 -> stops 10 rest -> from_chars_u32 (digit_of d :: rest) = inl d.
Proof.
  intros Hd Hs. unfold from_chars_u32. change (digit_of d :: rest) with ([digit_of d] ++ rest).
  rewrite digit_of_chars by done. by rewrite from_chars_to_chars by (done || lia).
Qed.

Definition version_ok (v : protocol_version) : Prop := 0 <= major v <= 9 /\ 0 <= minor v <= 9.

Lemma digit_not c d : 0 <= d <= 9 -> (byte_val c < 48 \/ 57 < byte_val c) -> byte_eqb c (digit_of d) = false.
Proof.
  intros Hd Hc. apply byte_eqb_neq. intros ->. unfold digit_of, u32 in Hc. rewrite wrap_small, byte_val_of_Z, Z.mod_small in Hc by lia. lia.
Qed.

(** A version as the encoders write it, whatever follows that is not a digit. *)
Lemma parse_version_text v rest :
  version_ok v -> stops 10 rest ->
  parse_http_version (lit "HTTP/" ++ [digit_of (major v); "."%byte; digit_of (minor v)] ++ rest) = Ret (inl v).
Proof.
  intros [Hmaj Hmin] Hs. unfold parse_http_version. rewrite starts_with_app, drop_app_length. cbn [negb app].
  assert (sv_find (digit_of (major v) :: "."%byte :: digit_of (minor v) :: rest) "."%byte 0 = Some 1%nat) as ->.
  { apply (find_from_0_app _ [digit_of (major v)]); [|done]. constructor; [|done]. apply digit_not; [done|left; vm_compute; reflexivity]. }
  change (sv_substr (digit_of (major v) :: ?x) 0 1) with (Ret [digit_of (major v)]). rewrite bind_ret, from_chars_digit by done.
  change (sv_substr_from (digit_of (major v) :: "."%byte :: ?x) (1 + 1)) with (Ret x).
  rewrite bind_ret, from_chars_digit by done. by destruct v.
Qed.

Lemma find_space a b : " "%byte ∉ a -> sv_find (a ++ lit " " ++ b) " "%byte 0 = Some (length a).
Proof.
  intros Ha. apply (find_from_0_app (byte_eqb " "%byte) a); [|done].
  apply Forall_forall. intros x Hx. apply byte_eqb_neq. by intros <-.
Qed.

Lemma find_space_after p a b : " "%byte ∉ a -> sv_find (p ++ lit " " ++ a ++ lit " " ++ b) " "%byte (length p + 1) = Some (length p + 1 + length a)%nat.
Proof.
  intros Ha. rewrite app_assoc. replace (length p + 1)%nat with (length (p ++ lit " ")) by solve_length.
  apply (find_from_app (byte_eqb " "%byte)); [|done]. apply Forall_forall. intros x Hx. apply byte_eqb_neq. by intros <-.
Qed.

Lemma substr_after p a b : sv_substr (p ++ lit " " ++ a ++ b) (length p + 1) (length a) = Ret a.
Proof. rewrite app_assoc. replace (length p + 1)%nat with (length (p ++ lit " ")) by solve_length. apply sv_substr_app. Qed.

(** The line of a request, as the encoder writes it but for the last space. *)
Lemma request_line_text m u order v rest :
  m <> NONE -> url_ok u order -> " "%byte ∉ build u order -> build u order <> lit "*" ->
  version_ok v -> stops 10 rest ->
  request_line (method_string m ++ lit " " ++ build u order ++ lit " " ++ lit "HTTP/"
                ++ [digit_of (major v); "."%byte; digit_of (minor v)] ++ rest) = Ret (inl (m, u, v)).
Proof.
  intros Hm Hu Hsp Hstar Hv Hs. set (t := build u order) in *. set (vt := lit "HTTP/" ++ _).
  assert (" "%byte ∉ method_string m) as Hms.
  { destruct (method_string_plain m) as [Hp _]. rewrite Forall_forall in Hp. intros Hin. by specialize (Hp _ Hin). }
  unfold request_line. destruct (method_string m ++ lit " " ++ t ++ lit " " ++ vt) as [|c l] eqn:El.
  { by destruct (method_string m). }
  rewrite <- El. clear c l El. rewrite find_space by done. rewrite sv_substr_0_app, bind_ret, parse_method_string by done.
  rewrite bool_decide_eq_false_2 by done. rewrite find_space_after by done.
  replace (length (method_string m) + 1 + length t - (length (method_string m) + 1))%nat with (length t) by lia.
  rewrite substr_after, bind_ret. unfold request_uri.
  assert (bytes_eqb t (lit "*") = false) as -> by (by apply not_true_iff_false; rewrite bytes_eqb_eq).
  subst t. rewrite parse_build by done. rewrite !bind_ret.
  rewrite (app_assoc (method_string m)), (app_assoc (method_string m ++ lit " ")).
  replace (length (method_string m) + 1 + length (build u order) + 1)%nat
    with (length ((method_string m ++ lit " ") ++ build u order) + 1)%nat by solve_length.
  rewrite (sv_substr_from_cons _ " "%byte vt), bind_ret. subst vt. rewrite parse_version_text by done. done.
Qed.

Lemma digits_avoid c n : byte_val c < 48 -> 0 <= n -> c ∉ to_chars 10 n.
Proof.
  intros Hc Hn Hin. pose proof (to_chars_Forall 10 n (fun d => negb (byte_eqb c d)) ltac:(lia) Hn) as Hf.
  rewrite Forall_forall in Hf. enough (negb (byte_eqb c c) = true) as Hcc by (by rewrite byte_eqb_refl in Hcc). apply Hf; [|done].
  intros d Hd. apply negb_true_iff, byte_eqb_neq. intros ->. unfold digit_char in Hc. rewrite byte_val_of_Z in Hc.
  destruct (d <? 10) eqn:E; reflect_bools; rewrite Z.mod_small in Hc; lia.
Qed.

Lemma digits_no_space n : 0 <= n -> " "%byte ∉ to_chars 10 n.
Proof. by apply digits_avoid. Qed.

Lemma digits_no_lf n : 0 <= n -> x0a ∉ to_chars 10 n.
Proof. by apply digits_avoid. Qed.

Lemma status_line_text s v :
  s ∈ known_statuses -> version_ok v ->
  status_line (lit "HTTP/" ++ [digit_of (major v); "."%byte; digit_of (minor v)] ++ lit " " ++ status_text s) = Ret (inl (v, s)).
Proof.
  intros Hs Hv. destruct (status_text_known s Hs) as (reason & Ht & Hl & Hrange & _).
  set (vt := lit "HTTP/" ++ [digit_of (major v); "."%byte; digit_of (minor v)]).
  rewrite (app_assoc (lit "HTTP/")). fold vt. unfold status_line.
  destruct (vt ++ lit " " ++ status_text s) as [|c l] eqn:El; [done|]. rewrite <- El. clear c l El.
  assert (" "%byte ∉ vt) as Hvt.
  { subst vt. destruct Hv as [H1 H2]. apply mem_false. unfold mem.
    pose proof (digit_not " "%byte _ H1 ltac:(left; vm_compute; reflexivity)) as D1.
    pose proof (digit_not " "%byte _ H2 ltac:(left; vm_compute; reflexivity)) as D2.
    rewrite existsb_app. cbn [existsb]. rewrite D1, D2. reflexivity. }
  rewrite find_space by done. rewrite sv_substr_0_app, bind_ret. subst vt.
  replace (lit "HTTP/" ++ [digit_of (major v); "."%byte; digit_of (minor v)])
    with (lit "HTTP/" ++ [digit_of (major v); "."%byte; digit_of (minor v)] ++ []) at 1 by (by rewrite app_nil_r).
  rewrite parse_version_text, bind_ret by done. set (vt := lit "HTTP/" ++ _) in *. rewrite Ht.
  pose proof (digits_no_space s ltac:(lia)) as Hn.
  rewrite find_space_after by done. rewrite sv_substr_Ret by solve_length. rewrite bind_ret.
  rewrite app_assoc. replace (length vt + 1)%nat with (length (vt ++ lit " ")) by solve_length. rewrite drop_app_length.
  assert (parse_status (take (length (vt ++ lit " ") + length (to_chars 10 s)) (to_chars 10 s ++ lit " " ++ reason)) = s) as ->.
  { replace (length (vt ++ lit " ") + length (to_chars 10 s))%nat with (length (to_chars 10 s) + length (vt ++ lit " "))%nat by lia.
    rewrite take_app_add. unfold parse_status. rewrite from_chars_to_chars; [by rewrite bool_decide_eq_true_2|lia|lia|].
    rewrite length_app, Nat.add_comm. done. }
  rewrite (proj2 (Z.eqb_neq _ _)) by (unfold STATUS_NONE; lia). done.
Qed.

(** ** Headers *)

(** What arrives of a header's values: after the first they come with the
    space that [write_headers] puts behind the comma. *)
Definition received (vals : list (list byte)) : list (list byte) :=
  match vals with [] => [] | v :: vals => v :: map (fun v => " "%byte :: v) vals end.

Definition header_text (header : list byte * list (list byte)) : list byte :=
  header.1 ++ lit ": " ++ join (lit ",") (received header.2).

(** The headers that travel: a name without colon, a value without commas
    inside, neither with a line end or with blanks around it. *)
Record header_ok (header : list byte * list (list byte)) : Prop := {
  ok_name : trimmed header.1 /\ valid_name header.1 /\ ":"%byte ∉ header.1;
  ok_vals : header.2 <> [] /\ Forall (fun v => ","%byte ∉ v) header.2 /\ trimmed (join (lit ",") (received header.2));
  ok_line : x0a ∉ header_text header /\ Z.of_nat (length (header_text header)) < 2 ^ 63;
}.

Lemma header_pieces_text k vals : vals <> [] -> concat (header_pieces (k, vals)) = header_text (k, vals) ++ crlf.
Proof.
  intros Hne. destruct vals as [|v vals]; [done|]. unfold header_text, header_pieces. cbn [fst snd received].
  rewrite !concat_app. cbn [concat]. rewrite app_nil_r, <- !app_assoc. rewrite ?app_nil_r; do 2 f_equal.
  assert (forall v, v ++ concat (concat (map (fun value => [lit ", "; value]) vals)) ++ crlf
    = join (lit ",") (v :: map (fun v => " "%byte :: v) vals) ++ crlf) as Hj; [|apply Hj].
  clear. induction vals as [|x vals IH]; intros v; [done|]. cbn [map concat].
  rewrite join_cons by done. rewrite <- app_assoc. f_equal. rewrite concat_app. cbn [concat]. rewrite app_nil_r, <- !app_assoc.
  change (lit ", " ++ x ++ ?r) with (lit "," ++ (" "%byte :: x) ++ r). f_equal. apply IH.
Qed.

Lemma map_ok_snoc (h : headers) k vs : map_ok (h ++ [(k, vs)]) <-> map_ok h /\ valid_key k /\ canon k ∉ keys h.
Proof.
  unfold keys. split.
  - intros [Hn Hv]. unfold keys in Hn. rewrite fmap_app in Hn. apply NoDup_app in Hn as (Hn & Hd & _).
    apply Forall_app in Hv as [Hv [Hk _]%Forall_cons]. split_and!; [by constructor|done|].
    intros Hin. apply (Hd _ Hin). by left.
  - intros ([Hn Hv] & Hk & Hnk). constructor.
    + unfold keys. rewrite fmap_app. apply NoDup_app. split_and!; [done| |apply NoDup_singleton].
      intros c Hc ->%list_elem_of_singleton. done.
    + apply Forall_app. split; [done|by constructor].
Qed.

Lemma add_fresh (h : headers) k v : map_ok (h ++ [(k, [v])]) -> add h k v = Ret (h ++ [(k, [v])]).
Proof.
  intros (Hok & Hk & Hnk)%map_ok_snoc. unfold add, update_at, subscript.
  destruct (find_position h k Hok Hk) as [(i & k' & u & _ & Hi & Hc & _) | [-> _]].
  { destruct Hnk. rewrite <- Hc. unfold keys. apply (list_elem_of_fmap_2 (fun e => canon e.1) h (k', u)). by eapply list_elem_of_lookup_2. }
  rewrite !bind_ret. f_equal. replace (length h) with (length h + 0)%nat at 1 by lia. by rewrite alter_app_r.
Qed.

Lemma add_last (h : headers) k vs v : map_ok (h ++ [(k, vs)]) -> add (h ++ [(k, vs)]) k v = Ret (h ++ [(k, vs ++ [v])]).
Proof.
  intros Hok. pose proof (proj1 (map_ok_snoc h k vs) Hok) as (_ & Hk & _). unfold add, update_at, subscript.
  assert ((h ++ [(k, vs)]) !! length h = Some (k, vs)) as Hlast by by apply list_lookup_middle.
  destruct (find_position _ k Hok Hk) as [(i & k' & u & -> & Hi & Hc & _) | [_ Hnone]].
  - assert (i = length h) as ->.
    { destruct Hok as [Hn _]. apply (NoDup_lookup _ i (length h) (canon k) Hn); unfold keys; rewrite list_lookup_fmap, ?Hi, ?Hlast; cbn [fmap option_fmap option_map fst]; [by rewrite Hc|done]. }
    rewrite !bind_ret. f_equal. replace (length h) with (length h + 0)%nat by lia. by rewrite alter_app_r.
  - assert (abs (h ++ [(k, vs)]) !! canon k = Some vs); [|congruence].
    apply abs_elem; [done|]. exists k. split; [by eapply list_elem_of_lookup_2|done].
Qed.

Lemma add_values_last fs (h : headers) k vs : map_ok (h ++ [(k, vs)]) -> add_values (h ++ [(k, vs)]) k fs = Ret (h ++ [(k, vs ++ fs)]).
Proof.
  revert vs. induction fs as [|f fs IH]; intros vs Hok; cbn [add_values]; [by rewrite app_nil_r|].
  rewrite add_last, bind_ret by done. rewrite IH; [by rewrite <- app_assoc|]. apply map_ok_snoc. by apply map_ok_snoc in Hok.
Qed.

Lemma received_split vals : vals <> [] -> Forall (fun v => ","%byte ∉ v) vals ->
  split_string (join (lit ",") (received vals)) ","%byte 0 = Ret (received vals) /\ received vals <> [].
Proof.
  intros Hne Hv. destruct vals as [|v vals]; [done|]. split; [|done]. apply join_split_string; [done|].
  apply Forall_cons in Hv as [Hv Hvs]. cbn [received]. constructor.
  - apply Forall_forall. intros x Hx ->. done.
  - apply Forall_map. eapply Forall_impl; [exact Hvs|]. intros w Hw. cbn. constructor; [done|]. apply Forall_forall. by intros x Hx ->.
Qed.

(** A header line adds its header. *)
Lemma header_line_text (h : headers) k vals :
  header_ok (k, vals) -> map_ok (h ++ [(k, received vals)]) ->
  header_line h (header_text (k, vals)) = Ret (h ++ [(k, received vals)]).
Proof.
  intros [(Htk & Hvk & Hck) (Hne & Hcomma & Htv) [_ Hlen]] Hok. cbn [fst snd] in *. unfold header_line, header_text in *. cbn [fst snd] in *.
  set (t := join (lit ",") (received vals)) in *. rewrite !length_app in Hlen.
  assert (sv_find (k ++ lit ": " ++ t) ":"%byte 0 = Some (length k)) as ->.
  { apply (find_from_0_app (byte_eqb ":"%byte) k); [|done]. apply Forall_forall. intros x Hx. apply byte_eqb_neq. by intros <-. }
  rewrite sv_substr_0_app, bind_ret, trim_trimmed, bind_ret by (done || lia).
  change (lit ": " ++ t) with (":"%byte :: lit " " ++ t). rewrite sv_substr_from_cons, bind_ret.
  rewrite trim_leading, bind_ret; [|by repeat constructor|done|rewrite length_app; simpl in *; lia].
  destruct (received_split vals Hne Hcomma) as [Hsp Hrne]. subst t. rewrite Hsp, bind_ret.
  destruct (received vals) as [|f fs]; [done|]. cbn [add_values].
  assert (map_ok (h ++ [(k, [f])])) as Hok1 by (apply map_ok_snoc; by apply map_ok_snoc in Hok).
  rewrite add_fresh, bind_ret by done. by rewrite add_values_last.
Qed.

Definition received_headers (order : headers) : headers := map (fun e => (e.1, received e.2)) order.

(** A header with one value *)
Definition single (e : list byte * list (list byte)) : Prop := length e.2 = 1%nat.

Lemma received_single order : Forall single order -> received_headers order = order.
Proof.
  induction 1 as [|[k vals] order Hs _ IH]; [done|]. cbn [received_headers map fst snd]. rewrite <- IH at 2. f_equal.
  unfold single in Hs. cbn in Hs. by destruct vals as [|v [|]].
Qed.

Lemma map_ok_prefix (a b : headers) : map_ok (a ++ b) -> map_ok a.
Proof.
  intros [Hn Hv]. unfold keys in Hn. rewrite fmap_app in Hn. apply NoDup_app in Hn as (Hn & _ & _).
  apply Forall_app in Hv as [Hv _]. by constructor.
Qed.

Definition header_size (order : headers) : Z := Z.of_nat (sum_list (map (fun e => length (header_text e)) order)).

(** The loop reads the headers up to the empty line and stops behind it. *)
Lemma headers_loop_text {R} `{StreamReader R} turns fuel (r : buffered_reader R) max_read amount (h order : headers) rest :
  buffered_ok r -> (length (buffered_stream r) < fuel)%nat -> (length order < turns)%nat ->
  Forall header_ok order -> map_ok (h ++ received_headers order) ->
  0 <= amount -> amount + header_size order < max_read -> max_read < 2 ^ 64 ->
  buffered_stream r = concat (map (fun e => header_text e ++ crlf) order) ++ crlf ++ rest ->
  exists r', headers_loop turns fuel r max_read amount h = Ret (no_error, h ++ received_headers order, r')
    /\ buffered_ok r' /\ buffered_stream r' = rest
    /\ char_reads r (concat (map (fun e => header_text e ++ crlf) order) ++ crlf) r'.
Proof.
  intros Hok Hf Ht Hall. revert turns r h amount Hok Hf Ht. induction Hall as [|[k vals] order Hh Hall IH];
    intros turns r h amount Hok Hf Ht Hmap Ham Hmax Hmax2 Hs; (destruct turns as [|turns]; [simpl in Ht; lia|]); cbn [headers_loop].
  - unfold header_size in Hmax. simpl in Hmax. rewrite (proj2 (Z.ltb_lt _ _)) by lia.
    destruct (readline_crlf_line fuel r [] rest Hok Hf) as (r1 & -> & Hok1 & Hs1 & Hc1); [apply not_elem_of_nil|done|].
    rewrite bind_ret, app_nil_r. by exists r1.
  - unfold header_size in *. cbn [map concat sum_list length] in *. change (id ?x) with x in Hmax. rewrite (proj2 (Z.ltb_lt _ _)) by lia.
    rewrite <- !app_assoc in Hs. pose proof (ok_line _ Hh) as [Hlf Hlen].
    destruct (readline_crlf_line fuel r _ _ Hok Hf Hlf Hs) as (r1 & -> & Hok1 & Hs1 & Hc1). rewrite bind_ret.
    destruct (header_text (k, vals)) as [|c l] eqn:El; [by destruct k|]. rewrite <- El in *.
    unfold received_headers in *. cbn [map fst snd] in *. rewrite cons_middle, app_assoc in Hmap.
    rewrite header_line_text, bind_ret; [|done|by eapply map_ok_prefix].
    assert (u64 (amount + Z.of_nat (length (header_text (k, vals)))) = amount + Z.of_nat (length (header_text (k, vals)))) as ->
      by (apply wrap_small; lia).
    destruct (IH turns r1 (h ++ [(k, received vals)]) (amount + Z.of_nat (length (header_text (k, vals))))) as (r2 & -> & Hok2 & Hs2 & Hc2);
      try done; try lia; [rewrite Hs in Hf; rewrite Hs1, !length_app in *; lia|].
    exists r2. rewrite <- app_assoc. split_and!; try done. rewrite <- (app_assoc (_ ++ crlf)). by eapply char_reads_app.
Qed.

(** ** The body *)

(** Values that are not longer than any string can be. *)
Definition short_values (h : headers) : Prop := Forall (fun e => Forall short e.2) h.

Lemma any_chunked_returns vals : Forall short vals -> exists b, any_chunked vals = Ret b.
Proof.
  intros Hv. induction Hv as [|v vals Hv Hvs IH]; cbn [any_chunked]; [by exists false|].
  destruct (trim_string_returns v Hv) as (a & r & b & -> & _). rewrite bind_ret. destruct (equal_ignore_case _ _); eauto.
Qed.

Lemma body_of_returns {R} (h : headers) (r : buffered_reader R) : map_ok h -> short_values h -> exists b, body_of h r = Ret b.
Proof.
  intros Hok Hs. unfold body_of, is_chunked, get_transfer_encoding, get_content_length.
  rewrite get_all_spec, bind_ret by (done || by apply valid_literal).
  assert (exists c, match abs h !! canon (lit "Transfer-Encoding") with None => Ret false | Some vals => any_chunked vals end = Ret c) as [c ->].
  { destruct (abs h !! canon (lit "Transfer-Encoding")) as [vals|] eqn:E; [|eauto]. apply any_chunked_returns.
    apply abs_elem in E as (k & Hin & _); [|done]. unfold short_values in Hs. rewrite Forall_forall in Hs. by apply (Hs (k, vals)). }
  rewrite bind_ret. destruct c; [eauto|].
  rewrite header_get_spec, bind_ret by (done || by apply valid_literal).
  destruct (_ ≫= _); [|eauto]. destruct (bool_decide _); eauto.
Qed.

Lemma join_element_length sep v fs : v ∈ fs -> (length v <= length (join sep fs))%nat.
Proof.
  intros Hin. induction fs as [|f fs IH]; [by apply not_elem_of_nil in Hin|].
  destruct fs as [|g fs]; [apply list_elem_of_singleton in Hin as ->; done|].
  rewrite join_cons by done. rewrite !length_app. apply elem_of_cons in Hin as [->|Hin]; [lia|]. specialize (IH Hin). lia.
Qed.

Lemma received_short order : Forall header_ok order -> short_values (received_headers order).
Proof.
  intros Ho. apply Forall_map. eapply Forall_impl; [exact Ho|]. intros [k vals] Hh. apply Forall_forall. intros v Hin. cbn in Hin.
  pose proof (ok_line _ Hh) as [_ Hl]. unfold header_text in Hl. rewrite !length_app in Hl. cbn [fst snd] in Hl.
  pose proof (join_element_length (lit ",") v (received vals) Hin). unfold short. lia.
Qed.

Lemma received_headers_ok order : map_ok order -> map_ok (received_headers order).
Proof.
  intros [Hn Hv]. constructor.
  - unfold keys, received_headers in *. by rewrite <- list_fmap_compose.
  - by apply Forall_map.
Qed.

Lemma map_ok_perm (a b : headers) : a ≡ₚ b -> map_ok b -> map_ok a.
Proof. intros Hp [Hn Hv]. constructor; [unfold keys; by rewrite Hp|by rewrite Hp]. Qed.

(** ** Encoding *)

Definition headers_text (order : headers) : list byte := concat (map (fun e => header_text e ++ crlf) order).

Lemma pieces_text order : Forall header_ok order -> concat (concat (map header_pieces order)) = headers_text order.
Proof.
  intros Ho. unfold headers_text. induction Ho as [|[k vals] order Hh Ho IH]; [done|]. cbn [map concat].
  rewrite concat_app, IH, header_pieces_text; [done|]. apply (ok_vals _ Hh).
Qed.

Section Encoding.
Context {W : Type} `{OrderedWriter W}.

Lemma encode_headers_spec (w : W) order :
  owriter_ok w -> Forall header_ok order ->
  exists res w', encode_headers w order = Ret (res, w') /\ owriter_ok w'
    /\ (res = inl tt -> osink w' = osink w ++ headers_text order ++ crlf).
Proof.
  intros Hok Ho. unfold encode_headers, write_headers.
  destruct (write_all_spec w (concat (map header_pieces order)) Hok) as (k & e & w1 & j & -> & Hok1 & _ & Hs1 & Hf1).
  rewrite !bind_ret. destruct (failed e); [exists (inr e), w1; split_and!; (done || congruence)|].
  destruct (Hf1 eq_refl) as [_ ->]. rewrite firstn_all, pieces_text in Hs1 by done.
  destruct (owr_spec w1 crlf Hok1) as (k2 & e2 & w2 & j2 & -> & Hok2 & _ & Hs2 & Hf2). rewrite bind_ret.
  destruct (failed e2); [exists (inr e2), w2; split_and!; (done || congruence)|].
  destruct (Hf2 eq_refl) as [_ ->]. rewrite firstn_all in Hs2.
  exists (inl tt), w2. split_and!; try done. intros _. by rewrite Hs2, Hs1, <- app_assoc.
Qed.

(** Writing a start line in pieces, then the headers. *)
Lemma encode_message_spec (w : W) start order :
  owriter_ok w -> Forall header_ok order ->
  exists res w', (let* (_, err, w) := write_all w start in if failed err then Ret (inr err, w) else encode_headers w order) = Ret (res, w')
    /\ owriter_ok w' /\ (res = inl tt -> osink w' = osink w ++ concat start ++ headers_text order ++ crlf).
Proof.
  intros Hok Ho. destruct (write_all_spec w start Hok) as (k & e & w1 & j & -> & Hok1 & _ & Hs1 & Hf1). rewrite bind_ret.
  destruct (failed e); [exists (inr e), w1; split_and!; (done || congruence)|]. destruct (Hf1 eq_refl) as [_ ->]. rewrite firstn_all in Hs1.
  destruct (encode_headers_spec w1 order Hok1 Ho) as (res & w2 & -> & Hok2 & Hs2). exists res, w2. split_and!; try done.
  intros Hr. by rewrite (Hs2 Hr), Hs1, <- app_assoc.
Qed.
End Encoding.

(** ** Decoding *)

Lemma digit_plain d : 0 <= d <= 9 -> digit_of d <> x0a.
Proof. intros Hd Heq. pose proof (digit_not x0a d Hd ltac:(left; vm_compute; reflexivity)) as Hn. rewrite <- Heq, byte_eqb_refl in Hn. done. Qed.

(** A literal without a line end. *)
Lemma lit_plain (c : byte) s : mem s c = false -> c ∉ s.
Proof. apply mem_false. Qed.

Lemma version_plain v : version_ok v -> x0a ∉ [digit_of (major v); "."%byte; digit_of (minor v)].
Proof.
  intros [H1 H2]. rewrite !not_elem_of_cons. split_and!; [apply not_eq_sym; by apply digit_plain|done|apply not_eq_sym; by apply digit_plain|apply not_elem_of_nil].
Qed.

(** Any message whose start line parses and whose headers are well-formed. *)
Lemma parse_headers_text {R} `{StreamReader R} fuel (r : buffered_reader R) max_read order rest :
  buffered_ok r -> (length (buffered_stream r) < fuel)%nat -> Forall header_ok order -> map_ok order ->
  header_size order < max_read < 2 ^ 64 -> buffered_stream r = headers_text order ++ crlf ++ rest ->
  exists r' b, parse_headers fuel r max_read [] = Ret (no_error, received_headers order, r')
    /\ buffered_ok r' /\ buffered_stream r' = rest /\ body_of (received_headers order) r' = Ret b
    /\ char_reads r (headers_text order ++ crlf) r'.
Proof.
  intros Hok Hf Ho Hmap Hmax Hs.
  destruct (headers_loop_text fuel fuel r max_read 0 [] order rest) as (r' & Hr & Hok' & Hs' & Hc'); try done; try lia.
  - rewrite Hs in Hf. unfold headers_text in Hf. rewrite !length_app in Hf.
    assert (length order <= length (concat (map (fun e => header_text e ++ crlf) order)))%nat; [|lia].
    clear. induction order as [|e order IH]; [done|]. cbn [map concat length]. rewrite !length_app. simpl. lia.
  - by apply received_headers_ok.
  - destruct (body_of_returns (received_headers order) r') as [b Hb]; [by apply received_headers_ok|by apply received_short|].
    by exists r', b.
Qed.

(** The requests that survive the wire. *)
Record request_ok (req : client_request) (query_order : list (list byte * list (list byte))) (order : headers) : Prop := {
  ok_method : creq_method req <> NONE;
  ok_uri : url_ok (creq_uri req) query_order /\ host (creq_uri req) <> [];
  ok_target : " "%byte ∉ build (creq_uri req) query_order /\ x0a ∉ build (creq_uri req) query_order
              /\ build (creq_uri req) query_order <> lit "*";
  ok_version : version_ok (creq_version req);
  ok_headers : map_ok (creq_headers req) /\ order ≡ₚ creq_headers req /\ Forall header_ok order;
}.

(** The responses that do. *)
Record response_ok (resp : server_response) (order : headers) : Prop := {
  ok_status : sresp_status resp ∈ known_statuses;
  ok_rversion : version_ok (sresp_version resp);
  ok_rheaders : map_ok (sresp_headers resp) /\ order ≡ₚ sresp_headers resp /\ Forall header_ok order;
}.

(** What the encoders write. *)
Definition request_text (req : client_request) (query_order : list (list byte * list (list byte))) (order : headers) : list byte :=
  concat (request_start req query_order) ++ headers_text order ++ crlf.
Definition response_text (resp : server_response) (order : headers) : list byte :=
  concat (response_start resp) ++ headers_text order ++ crlf.

(** Decoding the text of a request. *)
Lemma request_decode_text {R} `{StreamReader R} req query_order order (r : buffered_reader R) fuel mx rest :
  request_ok req query_order order -> buffered_ok r -> (length (buffered_stream r) < fuel)%nat ->
  header_size order < mx < 2 ^ 64 -> buffered_stream r = request_text req query_order order ++ rest ->
  exists r' b, request_decode fuel r mx = Ret (inl {|
      req_method := creq_method req; req_version := request_version (creq_version req); req_uri := creq_uri req;
      req_headers := received_headers order; req_body := b |})
    /\ buffered_ok r' /\ buffered_stream r' = rest /\ body_of (received_headers order) r' = Ret b
    /\ char_reads r (request_text req query_order order) r'.
Proof.
  intros [Hm [Hu Hhost] (Hsp & Hlf & Hstar) Hv (Hmap & Hperm & Ho)] Hok Hf Hmx Hst.
  assert (version_ok (request_version (creq_version req))) as Hv'.
  { unfold request_version. destruct (_ && _); [split; simpl; lia|done]. }
  unfold request_text, request_start in Hst. set (v := request_version (creq_version req)) in *.
  set (line := method_string (creq_method req) ++ lit " " ++ build (creq_uri req) query_order ++ lit " " ++ lit "HTTP/"
                ++ [digit_of (major v); "."%byte; digit_of (minor v)] ++ lit " ").
  assert (buffered_stream r = line ++ crlf ++ headers_text order ++ crlf ++ rest) as Hst2.
  { rewrite Hst. subst line. cbn [concat]. rewrite <- !app_assoc, ?app_nil_l. reflexivity. }
  unfold request_decode, parse_request_line.
  destruct (readline_crlf_line fuel r line (headers_text order ++ crlf ++ rest) Hok Hf) as (r1 & -> & Hok1 & Hs1 & Hc1); [|done|].
  { subst line. rewrite !not_elem_of_app. split_and!; try done; try (by apply lit_plain);
    [apply (method_string_plain (creq_method req))|by apply version_plain]. }
  assert (request_text req query_order order = (line ++ crlf) ++ headers_text order ++ crlf) as Htext.
  { unfold request_text, request_start. subst line. cbn [concat]. rewrite <- !app_assoc, ?app_nil_l. reflexivity. }
  rewrite bind_ret. subst line. rewrite request_line_text by done. rewrite !bind_ret.
  destruct (parse_headers_text fuel r1 mx order rest Hok1) as (r2 & b & -> & Hok2 & Hs2 & Hb & Hc2); try done.
  { rewrite Hs1. rewrite Hst2, !length_app in Hf. rewrite !length_app. lia. }
  { by eapply map_ok_perm. }
  rewrite bind_ret. cbn [failed]. destruct (host (creq_uri req)) as [|c h] eqn:Eh; [done|]. rewrite bind_ret, Hb, bind_ret.
  exists r2, b. split_and!; try done. rewrite Htext. by eapply char_reads_app.
Qed.

(** Decoding the text of a response. *)
Lemma response_decode_text {R} `{StreamReader R} resp order (r : buffered_reader R) fuel mx rest :
  response_ok resp order -> buffered_ok r -> (length (buffered_stream r) < fuel)%nat ->
  header_size order < mx < 2 ^ 64 -> buffered_stream r = response_text resp order ++ rest ->
  exists r' b, response_decode fuel r mx = Ret (inl {|
      resp_version := sresp_version resp; resp_status := sresp_status resp;
      resp_headers := received_headers order; resp_body := b |})
    /\ buffered_ok r' /\ buffered_stream r' = rest /\ body_of (received_headers order) r' = Ret b.
Proof.
  intros [Hstat Hv (Hmap & Hperm & Ho)] Hok Hf Hmx Hst. unfold response_text, response_start in Hst. set (v := sresp_version resp) in *.
  set (line := lit "HTTP/" ++ [digit_of (major v); "."%byte; digit_of (minor v)] ++ lit " " ++ status_text (sresp_status resp)).
  assert (buffered_stream r = line ++ crlf ++ headers_text order ++ crlf ++ rest) as Hst2.
  { rewrite Hst. subst line. cbn [concat]. rewrite <- !app_assoc, ?app_nil_l. reflexivity. }
  unfold response_decode, parse_status_line.
  destruct (readline_crlf_line fuel r line (headers_text order ++ crlf ++ rest) Hok Hf) as (r1 & -> & Hok1 & Hs1 & _); [|done|].
  { subst line. destruct (status_text_known _ Hstat) as (reason & -> & _ & Hrange & Hreason).
    rewrite !not_elem_of_app. split_and!; try done; try (by apply lit_plain); [by apply version_plain|apply digits_no_lf; lia]. }
  rewrite bind_ret. subst line. rewrite status_line_text by done. rewrite !bind_ret.
  destruct (parse_headers_text fuel r1 mx order rest Hok1) as (r2 & b & -> & Hok2 & Hs2 & Hb & _); try done.
  { rewrite Hs1. rewrite Hst2, !length_app in Hf. rewrite !length_app. lia. }
  { by eapply map_ok_perm. }
  rewrite bind_ret. cbn [failed]. rewrite Hb, bind_ret. by exists r2, b.
Qed.

(** ** Properties *)



Definition sample_headers : headers := [(lit "Host", [lit "a.b"]); (lit "Accept", [lit "text/html"; lit "*/*"])].
Definition sample_request : client_request :=
  {| creq_method := GET; creq_version := {| major := 1; minor := 1 |};
     creq_uri := {| scheme := lit "http"; userinfo := {| username := []; password := [] |}; host := lit "a.b"; port := [];
                    path := lit "/c"; query := ∅; fragment := [] |};
     creq_headers := sample_headers |}.

Lemma trimmed_ends m x y mid : m = x :: mid ++ [y] -> is_space x = false -> is_space y = false -> trimmed m.
Proof. intros -> Hx Hy. exists x, mid. split; [right; exists y|]; done. Qed.

Lemma sample_headers_ok : map_ok sample_headers /\ Forall header_ok sample_headers.
Proof.
  split; [constructor|].
  - apply (bool_decide_unpack _). vm_compute. exact I.
  - repeat (apply Forall_cons; split; [by apply name_valid, valid_literal|]). apply Forall_nil_2.
  - repeat (apply Forall_cons; split); [constructor| constructor|apply Forall_nil_2]; cbn [fst snd]; split_and!;
      try (apply (bool_decide_unpack _); vm_compute; exact I); try discriminate.
    + by apply (trimmed_ends _ "H"%byte "t"%byte (lit "os")).
    + by apply (trimmed_ends _ "a"%byte "b"%byte (lit ".")).
    + by apply (trimmed_ends _ "A"%byte "t"%byte (lit "ccep")).
    + by apply (trimmed_ends _ "t"%byte "*"%byte (lit "ext/html, */")).
Qed.

Lemma sample_request_ok : request_ok sample_request [] sample_headers.
Proof.
  constructor; cbn [sample_request creq_method creq_uri creq_version creq_headers].
  - discriminate.
  - split; [|discriminate]. constructor.
    + split; [discriminate|]. apply (bool_decide_unpack _). vm_compute. exact I.
    + split; apply (bool_decide_unpack _); vm_compute; exact I.
    + apply (bool_decide_unpack _). vm_compute. exact I.
    + apply (bool_decide_unpack _). vm_compute. exact I.
    + split; [apply (bool_decide_unpack _); vm_compute; exact I|right; by eexists].
    + intros ? ? Hl. cbn in Hl. by rewrite lookup_empty in Hl.
    + apply (bool_decide_unpack _). vm_compute. exact I.
    + apply Permutation_refl.
    + intros _. apply (bool_decide_unpack _). vm_compute. exact I.
    + discriminate.
  - split_and!; [apply (bool_decide_unpack _); vm_compute; exact I..|discriminate].
  - split; simpl; lia.
  - destruct sample_headers_ok. by split_and!.
Qed.



(** ** Decoding anything *)

(** The bytes every part of the decoder is defined on. *)
Definition plain_byte (c : byte) : bool := name_char c && negb (byte_eqb c "%"%byte).
Definition plain (s : list byte) : Prop := Forall (fun c => plain_byte c = true) s.

#[global] Instance plain_dec s : Decision (plain s).
Proof. unfold plain. apply _. Defined.

Lemma plain_app a b : plain (a ++ b) <-> plain a /\ plain b.
Proof. apply Forall_app. Qed.
Lemma plain_take n s : plain s -> plain (take n s).
Proof. apply Forall_take. Qed.
Lemma plain_drop n s : plain s -> plain (drop n s).
Proof. apply Forall_drop. Qed.

Lemma plain_name s : plain s -> valid_name s.
Proof. intros Hs. eapply Forall_impl; [exact Hs|]. unfold plain_byte. intros c Hc. reflect_bools. done. Qed.

Lemma plain_no_percent s : plain s -> no_percent s.
Proof. intros Hs Hin. unfold plain in Hs. rewrite Forall_forall in Hs. by specialize (Hs _ Hin). Qed.

Lemma parse_http_version_returns s : returns (parse_http_version s).
Proof.
  unfold parse_http_version, returns. destruct (negb _); [eauto|]. set (t := drop _ s). clearbody t.
  destruct (sv_find t "."%byte 0) as [i|] eqn:E; [|eauto]. apply find_from_Some in E as [_ Hi].
  rewrite sv_substr_Ret, bind_ret by lia. destruct (from_chars_u32 _); [|eauto].
  rewrite sv_substr_from_Ret, bind_ret by lia. destruct (from_chars_u32 _); eauto.
Qed.

Lemma request_uri_returns s : plain s -> returns (request_uri s).
Proof.
  intros Hs. unfold request_uri, returns. destruct (bytes_eqb _ _); [eauto|].
  destruct (parse_settles true s) as [(r & -> & _) | [? _]]; [intros _; by apply no_percent_whole, plain_no_percent| |done].
  rewrite bind_ret. destruct r; eauto.
Qed.

Lemma request_line_returns line : plain line -> returns (request_line line).
Proof.
  intros Hl. unfold request_line, returns. destruct line as [|c l] eqn:El; [eauto|]. rewrite <- El in *. clear c l El.
  destruct (sv_find line " "%byte 0) as [i|] eqn:E; [|eauto]. apply find_from_Some in E as [_ Hi].
  rewrite sv_substr_Ret, bind_ret by lia. destruct (bool_decide _); [eauto|].
  destruct (sv_find line " "%byte (i + 1)) as [j|] eqn:E2; [|eauto]. apply find_from_Some in E2 as [Hij Hj].
  rewrite sv_substr_Ret, bind_ret by lia.
  destruct (request_uri_returns (take (j - (i + 1)) (drop (i + 1) line))) as [u ->]; [by apply plain_take, plain_drop|].
  rewrite bind_ret, sv_substr_from_Ret, bind_ret by lia.
  destruct (parse_http_version_returns (drop (j + 1) line)) as [[v|e] ->]; cbn [obind]; eauto.
Qed.

(** Adding values keeps the map well-formed and its values short. *)
Lemma add_returns (h : headers) k v :
  map_ok h -> short_values h -> valid_name k -> short v ->
  exists h', add h k v = Ret h' /\ map_ok h' /\ short_values h'.
Proof.
  intros Hok Hs Hk Hv. destruct (header_add_spec h k v Hok Hk) as (h' & Ha & Hok' & _). exists h'. split_and!; [done|done|].
  unfold add, update_at, subscript in Ha. apply name_valid in Hk. unfold short_values in *.
  destruct (find_position h k Hok Hk) as [(i & k' & u & Hf & Hi & _) | [Hf _]]; rewrite Hf, !bind_ret in Ha; injection Ha as <-.
  - apply Forall_alter; [done|]. intros e He Hu. cbn. apply Forall_app. split; [done|by constructor].
  - rewrite alter_app_r_alt, Nat.sub_diag by lia. apply Forall_app. split; [done|]. cbn. constructor; [|done]. by constructor.
Qed.

Lemma add_values_returns vals (h : headers) k :
  map_ok h -> short_values h -> valid_name k -> Forall short vals ->
  exists h', add_values h k vals = Ret h' /\ map_ok h' /\ short_values h'.
Proof.
  intros Hok Hs Hk Hv. revert h Hok Hs. induction Hv as [|v vals Hv Hvs IH]; intros h Hok Hs; cbn [add_values]; [eauto|].
  destruct (add_returns h k v Hok Hs Hk Hv) as (h1 & -> & Hok1 & Hs1). rewrite bind_ret. by apply IH.
Qed.

Lemma header_line_returns (h : headers) line :
  map_ok h -> short_values h -> plain line -> short line ->
  exists h', header_line h line = Ret h' /\ map_ok h' /\ short_values h'.
Proof.
  intros Hok Hs Hl Hlen. unfold header_line, short in *. destruct (sv_find line ":"%byte 0) as [i|] eqn:E; [|eauto].
  apply find_from_Some in E as [_ Hi]. rewrite sv_substr_Ret, bind_ret, drop_0 by lia.
  destruct (trim_string_returns (take i line)) as (a & k & b & -> & Hk); [rewrite length_take; lia|]. rewrite bind_ret.
  rewrite sv_substr_from_Ret, bind_ret by lia.
  destruct (trim_string_returns (drop (i + 1) line)) as (a' & t & b' & -> & Ht); [rewrite length_drop; lia|]. rewrite bind_ret.
  rewrite split_string_spec, bind_ret. cbn [Nat.leb]. rewrite drop_0. apply add_values_returns; try done.
  - apply plain_name. pose proof (plain_take i line Hl) as Hp. rewrite Hk, !plain_app in Hp. tauto.
  - apply Forall_forall. intros v Hv. unfold short.
    pose proof (join_element_length [","%byte] v _ Hv) as Hj. rewrite join_split_on in Hj.
    apply (f_equal length) in Ht. rewrite length_drop, !length_app in Ht. lia.
Qed.

Lemma headers_loop_returns {R} `{StreamReader R} turns fuel (r : buffered_reader R) max_read amount (h : headers) :
  buffered_ok r -> (length (buffered_stream r) < fuel)%nat -> (length (buffered_stream r) < turns)%nat ->
  plain (buffered_stream r) -> short (buffered_stream r) -> map_ok h -> short_values h ->
  exists e h' r', headers_loop turns fuel r max_read amount h = Ret (e, h', r') /\ map_ok h' /\ short_values h'.
Proof.
  revert r amount h. induction turns as [|turns IH]; intros r amount h Hok Hf Ht Hp Hsh Hmap Hs; [lia|]. cbn [headers_loop].
  destruct (amount <? max_read); [|by do 3 eexists].
  destruct (readline_spec fuel r crlf Hok Hf) as (line & r1 & -> & Hok1 & Hline). rewrite bind_ret.
  destruct line as [|c l] eqn:El; [by do 3 eexists|]. rewrite <- El in *.
  assert (plain line /\ short line /\ plain (buffered_stream r1) /\ short (buffered_stream r1)
    /\ (length (buffered_stream r1) < length (buffered_stream r))%nat) as (Hpl & Hsl & Hp1 & Hs1 & Hlt).
  { unfold short in *. assert (0 < length line)%nat by (rewrite El; simpl; lia).
    destruct Hline as [[_ Hcut] | (-> & -> & _)].
    - rewrite Hcut in *. rewrite !plain_app, !length_app in *. split_and!; (tauto || lia).
    - split_and!; try done. apply Forall_nil_2. }
  destruct (header_line_returns h line Hmap Hs Hpl Hsl) as (h1 & -> & Hmap1 & Hsv1). rewrite bind_ret. apply IH; (done || lia).
Qed.

(** C5: the request decoder is total and safe on plain bytes: for every stream
    without ['%'] and without the bytes 0x80 to 0xfe, however the reader cuts
    it and whatever it contains, decoding ends and returns a request or an
    error; it never throws and nothing is undefined. *)
Theorem request_decode_total {R} `{StreamReader R} fuel (r : buffered_reader R) max_header_bytes :
  buffered_ok r -> (length (buffered_stream r) < fuel)%nat -> plain (buffered_stream r) -> short (buffered_stream r) ->
  returns (request_decode fuel r max_header_bytes).
Proof.
  intros Hok Hf Hp Hsh. unfold request_decode, parse_request_line, returns.
  destruct (readline_spec fuel r crlf Hok Hf) as (line & r1 & -> & Hok1 & Hline). rewrite bind_ret.
  assert (plain line /\ plain (buffered_stream r1) /\ short (buffered_stream r1)
    /\ (length (buffered_stream r1) <= length (buffered_stream r))%nat) as (Hpl & Hp1 & Hs1 & Hle).
  { unfold short in *. destruct Hline as [[_ Hcut] | (-> & -> & _)].
    - rewrite Hcut in *. rewrite !plain_app, !length_app in *. split_and!; (tauto || lia).
    - split_and!; try done; [apply Forall_nil_2|simpl; lia]. }
  destruct (request_line_returns line Hpl) as [[[[m u] v]|e] ->]; rewrite !bind_ret; [|eauto].
  destruct (headers_loop_returns fuel fuel r1 max_header_bytes 0 []) as (e & h & r2 & Hh & Hmap & Hsv); try done; try lia;
    [apply empty_map_ok|apply Forall_nil_2|].
  unfold parse_headers. rewrite Hh, bind_ret. destruct (failed e); [eauto|].
  destruct (body_of_returns h r2 Hmap Hsv) as [b Hb].
  destruct (host u); [rewrite header_get_spec by (done || by apply valid_literal)|]; rewrite bind_ret, Hb, bind_ret; eauto.
Qed.

Lemma request_decode_total_witness :
  returns (request_decode 100 (make (string_reader_of (lit "BREW / x: y")) 4) 1000).
Proof.
  apply (request_decode_total 100 (make (string_reader_of (lit "BREW / x: y")) 4) 1000).
  - split_and!; simpl; lia.
  - vm_compute. lia.
  - apply (bool_decide_unpack _). vm_compute. exact I.
  - vm_compute. reflexivity.
Defined.

(** The text of a request, decoded through a buffer of 16 bytes. *)
Definition decode_text (s : list byte) : outcome (server_request string_reader + error_condition) :=
  request_decode (S (length s)) (make (string_reader_of s) 16) 1000.

(** outside that domain a request ends the server: an escape cut short in
    the target terminates the process, and a header name with a byte of 0x80
    and above is undefined behaviour.  A stream that stops within its headers,
    by contrast, is accepted as if they were complete. *)
Lemma request_decode_hostile :
  decode_text (lit "GET http://a/%4 HTTP/1.1" ++ crlf ++ crlf) = Terminate
  /\ decode_text (lit "GET http://a/ HTTP/1.1" ++ crlf ++ [x80] ++ lit ": b" ++ crlf ++ crlf) = Undef
  /\ match decode_text (lit "GET http://a/ HTTP/1.1" ++ crlf ++ lit "Content-Length: 1") with
     | Ret (inl req) => get_content_length (req_headers req) = Ret (Some 1)
     | _ => False
     end.
Proof. split_and!; vm_compute; reflexivity. Qed.
