(* ===== verification/Http2.v ===== *)
(** * HTTP/2 (src/http/http2.cpp)

    The types of the file: codes, flags, the frames as packed structures, and
    the state of a connection.  The encoders and decoders have no body; calling
    one is undefined ([Server]).

    A packed structure is the sequence of its fields, each with its width in
    bits.  On the targets of the library (little-endian, with the layout of
    GCC and Clang) the fields follow each other from the least significant bit
    of the first byte on; [encode] and [decode] go between the values of the
    fields and the bytes. *)

From Stdlib Require Import ZArith Lia Strings.Byte String.
From stdpp Require Import prelude list gmap.
From S2P Require Import Prelude.

(** ** Codes *)

Inductive error_code :=
| NO_ERROR | PROTOCOL_ERROR | INTERNAL_ERROR | FLOW_CONTROL_ERROR | SETTINGS_TIMEOUT | STREAM_CLOSED | FRAME_SIZE_ERROR
| REFUSED_STREAM | CANCEL | COMPRESSION_ERROR | CONNECT_ERROR | ENHANCE_YOUR_CALM | INADEQUATE_SECURITY | HTTP_1_1_REQUIRED.

#[global] Instance error_code_eq_dec : EqDecision error_code.
Proof. solve_decision. Defined.

Definition error_code_value (e : error_code) : Z :=
  match e with
  | NO_ERROR => 0x00 | PROTOCOL_ERROR => 0x01 | INTERNAL_ERROR => 0x02 | FLOW_CONTROL_ERROR => 0x03 | SETTINGS_TIMEOUT => 0x04
  | STREAM_CLOSED => 0x05 | FRAME_SIZE_ERROR => 0x06 | REFUSED_STREAM => 0x07 | CANCEL => 0x08 | COMPRESSION_ERROR => 0x09
  | CONNECT_ERROR => 0x0a | ENHANCE_YOUR_CALM => 0x0b | INADEQUATE_SECURITY => 0x0c | HTTP_1_1_REQUIRED => 0x0d
  end.

Inductive frame_type := DATA | HEADERS | FT_PRIORITY | RST_STREAM | SETTINGS | PUSH_PROMISE | PING | GOAWAY | WINDOW_UPDATE | CONTINUATION.

#[global] Instance frame_type_eq_dec : EqDecision frame_type.
Proof. solve_decision. Defined.

Definition frame_type_value (t : frame_type) : Z :=
  match t with
  | DATA => 0x0 | HEADERS => 0x1 | FT_PRIORITY => 0x2 | RST_STREAM => 0x3 | SETTINGS => 0x4 | PUSH_PROMISE => 0x5 | PING => 0x6
  | GOAWAY => 0x7 | WINDOW_UPDATE => 0x8 | CONTINUATION => 0x9
  end.

Inductive frame_flag := END_STREAM | ACK | END_HEADERS | PADDED | FF_PRIORITY.

Definition frame_flag_value (f : frame_flag) : Z :=
  match f with END_STREAM => 0x01 | ACK => 0x01 | END_HEADERS => 0x04 | PADDED => 0x08 | FF_PRIORITY => 0x20 end.

Inductive setting_id :=
| SETTINGS_HEADER_TABLE_SIZE | SETTINGS_ENABLE_PUSH | SETTINGS_MAX_CONCURRENT_STREAMS | SETTINGS_INITIAL_WINDOW_SIZE
| SETTINGS_MAX_FRAME_SIZE | SETTINGS_MAX_HEADER_LIST_SIZE.

Definition setting_id_value (s : setting_id) : Z :=
  match s with
  | SETTINGS_HEADER_TABLE_SIZE => 0x01 | SETTINGS_ENABLE_PUSH => 0x02 | SETTINGS_MAX_CONCURRENT_STREAMS => 0x03
  | SETTINGS_INITIAL_WINDOW_SIZE => 0x04 | SETTINGS_MAX_FRAME_SIZE => 0x05 | SETTINGS_MAX_HEADER_LIST_SIZE => 0x06
  end.

(** ** Frames: the widths of their fields *)

Definition layout : Type := list nat.

Definition frame_header : layout := [24; 8; 8; 1; 31]%nat.    (* length, type, flags, _, stream_identifier *)
Definition data_frame : layout := [8]%nat.                    (* pad_length *)
Definition headers_frame : layout := [8; 1; 31; 8]%nat.       (* pad_length, exclusive, stream_dependency, weight *)
Definition priority_frame : layout := [1; 31; 8]%nat.         (* exclusive, stream_dependency, weight *)
Definition rst_stream_frame : layout := [32]%nat.             (* error_code *)
Definition setting : layout := [16; 32]%nat.                  (* identifier, value *)
Definition settings_frame : layout := [64; 64]%nat.           (* a span: a pointer and a size *)
Definition push_promise_frame : layout := [8; 1; 31]%nat.     (* pad_length, _, stream_dependency *)
Definition ping_frame : layout := replicate 8 8%nat.          (* opaque_data *)
Definition goaway_frame : layout := [1; 31; 32]%nat.          (* _, last_stream_id, error_code *)
Definition window_update_frame : layout := [1; 31]%nat.       (* _, window_size_increment *)

Definition bits (l : layout) : nat := sum_list l.
Definition sizeof (l : layout) : nat := (bits l / 8)%nat.

(** ** Connections *)

Inductive stream_state := idle | reserved_local | reserved_remote | open | half_closed_local | half_closed_remote | closed.

Record stream := { state : stream_state; window : Z }.

Record connection := {
  streams : gmap Z stream;
  header_table_size : Z;
  push_enabled : bool;
  max_concurrent_streams : Z;
  initial_window_size : Z;
  max_frame_size : Z;
  max_header_list_size : Z;
}.

(** ** Bytes *)

(** The fields as one number, the first field lowest *)
Fixpoint pack (l : layout) (vs : list Z) : Z :=
  match l, vs with
  | w :: l, v :: vs => v mod 2 ^ Z.of_nat w + 2 ^ Z.of_nat w * pack l vs
  | _, _ => 0
  end.

Fixpoint unpack (l : layout) (n : Z) : list Z :=
  match l with [] => [] | w :: l => n mod 2 ^ Z.of_nat w :: unpack l (n / 2 ^ Z.of_nat w) end.

(** A number of [k] bytes, the lowest first, and back *)
Definition to_bytes (k : nat) (n : Z) : list Z := unpack (replicate k 8%nat) n.
Definition of_bytes (bs : list Z) : Z := pack (replicate (length bs) 8%nat) bs.

Definition encode (l : layout) (vs : list Z) : list Z := to_bytes (sizeof l) (pack l vs).
Definition decode (l : layout) (bs : list Z) : list Z := unpack l (of_bytes bs).

(** Values that fit their fields *)
Definition fits (l : layout) (vs : list Z) : Prop := Forall2 (fun w v => 0 <= v < 2 ^ Z.of_nat w) l vs.

Lemma pow_split w l : 2 ^ Z.of_nat (bits (w :: l)) = 2 ^ Z.of_nat w * 2 ^ Z.of_nat (bits l).
Proof. change (bits (w :: l)) with (w + bits l)%nat. rewrite Nat2Z.inj_add, Z.pow_add_r; lia. Qed.

Lemma pow_pos w : 0 < 2 ^ Z.of_nat w.
Proof. apply Z.pow_pos_nonneg; lia. Qed.

Lemma pack_range l vs : fits l vs -> 0 <= pack l vs < 2 ^ Z.of_nat (bits l).
Proof.
  induction 1 as [|w v l vs Hv _ IH]; [done|]. cbn [pack]. rewrite pow_split, Z.mod_small by done. pose proof (pow_pos w). nia.
Qed.

Lemma unpack_pack l vs : fits l vs -> unpack l (pack l vs) = vs.
Proof.
  induction 1 as [|w v l vs Hv _ IH]; [done|]. cbn [pack unpack]. pose proof (pow_pos w). rewrite (Z.mod_small v) by done.
  rewrite (Z.mul_comm _ (pack l vs)), Z.mod_add, Z.div_add, (Z.div_small v), Z.mod_small, Z.add_0_l, IH by lia. done.
Qed.

Lemma unpack_fits l n : fits l (unpack l n).
Proof. revert n. induction l as [|w l IH]; intros n; cbn [unpack]; constructor; [|apply IH]. apply Z.mod_pos_bound, pow_pos. Qed.

Lemma pack_unpack l n : 0 <= n < 2 ^ Z.of_nat (bits l) -> pack l (unpack l n) = n.
Proof.
  revert n. induction l as [|w l IH]; intros n; cbn [pack unpack]; [change (bits []) with 0%nat; cbn; lia|].
  rewrite pow_split. intros Hn. pose proof (pow_pos w). rewrite Z.mod_mod by lia. rewrite IH.
  - rewrite Z.add_comm. symmetry. apply Z.div_mod. lia.
  - split; [apply Z.div_pos; lia|]. apply Z.div_lt_upper_bound; lia.
Qed.

Lemma length_unpack l n : length (unpack l n) = length l.
Proof. revert n. induction l as [|w l IH]; intros n; cbn; [done|]. by rewrite IH. Qed.

Lemma bits_bytes k : bits (replicate k 8%nat) = (8 * k)%nat.
Proof. unfold bits. induction k as [|k IH]; cbn [replicate sum_list]; [done|]. cbn in IH |- *. lia. Qed.

(** ** Properties *)

(** Every frame has the values of its fields back from its bytes, when they fit
    and the fields fill whole bytes. *)
Lemma frame_roundtrip l vs : Nat.modulo (bits l) 8 = 0%nat -> fits l vs -> decode l (encode l vs) = vs /\ length (encode l vs) = sizeof l.
Proof.
  intros Hl Hf. unfold decode, encode, of_bytes, to_bytes. rewrite length_unpack, length_replicate. split; [|done].
  rewrite pack_unpack; [by apply unpack_pack|]. rewrite bits_bytes. unfold sizeof.
  replace (8 * (bits l / 8))%nat with (bits l); [by apply pack_range|]. pose proof (Nat.div_mod (bits l) 8 ltac:(lia)). lia.
Qed.

(** The sizes: the header has the nine bytes the file asserts; the fields of the
    frames fill whole bytes. *)
Lemma frame_sizes :
  sizeof frame_header = 9%nat
  /\ map sizeof [data_frame; headers_frame; priority_frame; rst_stream_frame; setting; push_promise_frame; ping_frame; goaway_frame; window_update_frame]
     = [1; 6; 5; 4; 6; 5; 8; 8; 4]%nat
  /\ Forall (fun l => Nat.modulo (bits l) 8 = 0%nat)
       [frame_header; data_frame; headers_frame; priority_frame; rst_stream_frame; setting; settings_frame; push_promise_frame; ping_frame;
        goaway_frame; window_update_frame].
Proof. split_and!; [done|done|]. repeat constructor. Qed.

(** The codes are different numbers that fit their types; two flags share one. *)
Lemma codes_distinct :
  (forall e e', error_code_value e = error_code_value e' -> e = e') /\ (forall e, 0 <= error_code_value e < 2 ^ 32)
  /\ (forall t t', frame_type_value t = frame_type_value t' -> t = t') /\ (forall t, 0 <= frame_type_value t < 2 ^ 8)
  /\ (forall s s', setting_id_value s = setting_id_value s' -> s = s')
  /\ (forall f f', frame_flag_value f = frame_flag_value f' -> f = f' \/ {[f; f']} ⊆@{listset frame_flag} {[END_STREAM; ACK]}).
Proof.
  split_and!; try (intros [] []; done); try (intros []; done).
  intros [] []; try done; intros _; try (by left); right; set_solver.
Qed.

(** On the wire the length is big-endian and the reserved bit is the highest of
    the stream identifier; as laid out, the length is little-endian, and the
    reserved bit is the lowest. *)
Lemma frame_header_not_wire :
  encode frame_header [1; frame_type_value DATA; 0; 0; 1] = [1; 0; 0; 0; 0; 2; 0; 0; 0].
Proof. vm_compute. reflexivity. Qed.
