(* ===== verification/Router.v ===== *)
(** * The request router (include/http/router.hpp, src/http/router.cpp)

    A tree of routers: a child for each literal part of a route, at most one
    for the parts that begin with a colon.  [add] makes the nodes of a route
    and sets a handler at its end; [operator()] walks the parts of a path, the
    literal child before the wildcard, without backtracking.  An exception
    thrown in the middle of [add] leaves the nodes made so far, so the
    operations return the tree together with the exception. *)

From Stdlib Require Import ZArith Strings.Byte Lia String.
From stdpp Require Import prelude list gmap strings.
From S2P Require Import Prelude CxxStrings StringUtil StringMap Messages.

#[global] Instance request_method_countable : Countable request_method.
Proof.
  refine (inj_countable'
    (fun m => match m with CONNECT => 0 | DELETE => 1 | GET => 2 | HEAD => 3 | OPTIONS => 4
                         | PATCH => 5 | POST => 6 | PUT => 7 | TRACE => 8 | NONE => 9 end)%nat
    (fun n => match n with 0 => CONNECT | 1 => DELETE | 2 => GET | 3 => HEAD | 4 => OPTIONS
                         | 5 => PATCH | 6 => POST | 7 => PUT | 8 => TRACE | _ => NONE end)%nat _).
  by intros [].
Defined.

Lemma prefix_cons_iff {A} (t s : A) p q : (t :: p) `prefix_of` (s :: q) <-> t = s /\ p `prefix_of` q.
Proof.
  split; [|intros [-> ?]; by apply prefix_cons].
  intros Hp. split; [by eapply prefix_cons_inv_1|by eapply prefix_cons_inv_2].
Qed.

(** ** Definitions *)

Inductive router (H : Type) : Type := Router {
  method_handlers : gmap request_method H;
  children : string_map (router H);
  wildcard : option (router H);
  wildcard_name : list byte;
}.
Arguments Router {H}.
Arguments method_handlers {H}.
Arguments children {H}.
Arguments wildcard {H}.
Arguments wildcard_name {H}.

Definition empty_router {H} : router H :=
  {| method_handlers := ∅; children := []; wildcard := None; wildcard_name := [] |}.

Definition set_handler {H} (m : request_method) (h : H) (r : router H) : router H :=
  {| method_handlers := <[m := h]> (method_handlers r); children := children r;
     wildcard := wildcard r; wildcard_name := wildcard_name r |}.
Definition set_children {H} (r : router H) (c : string_map (router H)) : router H :=
  {| method_handlers := method_handlers r; children := c; wildcard := wildcard r; wildcard_name := wildcard_name r |}.
Definition set_wildcard {H} (r : router H) (w : router H) (name : list byte) : router H :=
  {| method_handlers := method_handlers r; children := children r; wildcard := Some w; wildcard_name := name |}.

(** The parts of a route or of a path, without its first slash. *)
Definition route_parts (route : list byte) : outcome (list (list byte)) :=
  let* route := (if starts_with route (lit "/") then sv_substr_from route 1 else Ret route) in
  split_string route "/"%byte 0.

(** The answer of [operator()]: a handler to call, or a status to send. *)
Inductive decision (H : Type) : Type :=
| Handle (h : H)
| Send (s : status).
Arguments Handle {H}.
Arguments Send {H}.

Section Operations.
Context {H : Type} (std_hash : list byte -> Z).
#[local] Instance keys_ : KeyOps := default_keys std_hash.

(** [get_subrouter], and what its caller does to the router it returns. *)
Fixpoint update_subrouter (parts : list (list byte)) (current : router H) (f : router H -> router H)
    : outcome (router H * option exn) :=
  match parts with
  | [] => Ret (f current, None)
  | part :: parts =>
      if starts_with part (lit ":") then
        if (length part =? 1)%nat then Ret (current, Some (runtime_error "wildcard name must not be empty"))
        else
          let* name := sv_substr_from part 1 in
          match wildcard current with
          | None =>
              let* (w, ex) := update_subrouter parts empty_router f in
              Ret (set_wildcard current w name, ex)
          | Some w =>
              if bytes_eqb (wildcard_name current) name then
                let* (w, ex) := update_subrouter parts w f in
                Ret (set_wildcard current w (wildcard_name current), ex)
              else Ret (current, Some (runtime_error "mismatched wildcard name"))
          end
      else
        let* (i, cs) := subscript empty_router (children current) part in
        let* e := deref cs i in
        let* (child, ex) := update_subrouter parts e.2 f in
        Ret (set_children current (alter (fun e => (e.1, child)) i cs), ex)
  end.

Definition add (r : router H) (method : request_method) (route : list byte) (h : H) : outcome (router H * option exn) :=
  let* parts := route_parts route in
  update_subrouter parts r (set_handler method h).

(** The members named by a method. *)
Definition add_GET (r : router H) (route : list byte) (h : H) : outcome (router H * option exn) := add r GET route h.
Definition add_POST (r : router H) (route : list byte) (h : H) : outcome (router H * option exn) := add r POST route h.
Definition add_DELETE (r : router H) (route : list byte) (h : H) : outcome (router H * option exn) := add r DELETE route h.
Definition add_PUT (r : router H) (route : list byte) (h : H) : outcome (router H * option exn) := add r PUT route h.
Definition add_PATCH (r : router H) (route : list byte) (h : H) : outcome (router H * option exn) := add r PATCH route h.
Definition add_HEAD (r : router H) (route : list byte) (h : H) : outcome (router H * option exn) := add r HEAD route h.
Definition add_CONNECT (r : router H) (route : list byte) (h : H) : outcome (router H * option exn) := add r CONNECT route h.
Definition add_TRACE (r : router H) (route : list byte) (h : H) : outcome (router H * option exn) := add r TRACE route h.
Definition add_OPTIONS (r : router H) (route : list byte) (h : H) : outcome (router H * option exn) := add r OPTIONS route h.

(** [subrouter]: the builder changes the router of the route, and the function
    runs off its end without the return it promises, which is undefined. *)
Definition subrouter (r : router H) (route : list byte) (sub_builder : router H -> router H) : outcome (router H * option exn) :=
  let* parts := route_parts route in
  let* (r, ex) := update_subrouter parts r sub_builder in
  match ex with Some _ => Ret (r, ex) | None => Undef end.

(** The walk of [operator()]. *)
Fixpoint walk (parts : list (list byte)) (parent : router H) : outcome (option (router H)) :=
  match parts with
  | [] => Ret (Some parent)
  | part :: parts =>
      let* it := find (children parent) part in
      match it with
      | Some i => let* e := deref (children parent) i in walk parts e.2
      | None =>
          match wildcard parent with
          | Some w => walk parts w
          | None => Ret None
          end
      end
  end.

Definition dispatch (r : router H) (method : request_method) (path : list byte) : outcome (decision H) :=
  let* parts := route_parts path in
  let* node := walk parts r in
  match node with
  | None => Ret (Send STATUS_NOT_FOUND)
  | Some node =>
      match method_handlers node !! method with
      | None => Ret (Send STATUS_METHOD_NOT_ALLOWED)
      | Some h => Ret (Handle h)
      end
  end.

(** *** The nodes *)

Inductive seg : Type := Lit (s : list byte) | Wild.

#[global] Instance seg_eq_dec : EqDecision seg.
Proof. solve_decision. Defined.

Definition seg_of (part : list byte) : seg := if starts_with part (lit ":") then Wild else Lit part.

Fixpoint node_at (p : list seg) (r : router H) : option (router H) :=
  match p with
  | [] => Some r
  | Lit s :: p => abs (children r) !! s ≫= node_at p
  | Wild :: p => wildcard r ≫= node_at p
  end.

(** Every node's children are a well-formed map. *)
Definition router_ok (r : router H) : Prop := forall p n, node_at p r = Some n -> map_ok (children n).

(** The handlers at a node; none where there is no node. *)
Definition handlers_at (p : list seg) (r : router H) : gmap request_method H := from_option method_handlers ∅ (node_at p r).

Lemma key_valid k : valid_key k.
Proof. by eexists. Qed.

Lemma empty_router_ok : router_ok empty_router.
Proof. intros [|[s|] p] n; cbn; [intros [= <-]; apply empty_map_ok|by rewrite ?lookup_empty|done]. Qed.

Lemma router_ok_wild r w : router_ok r -> wildcard r = Some w -> router_ok w.
Proof. intros Hok Hw p n Hp. apply (Hok (Wild :: p) n). cbn. by rewrite Hw. Qed.

Lemma router_ok_child r s c : router_ok r -> abs (children r) !! s = Some c -> router_ok c.
Proof. intros Hok Hc p n Hp. apply (Hok (Lit s :: p) n). cbn. by rewrite Hc. Qed.

Lemma empty_nodes p : is_Some (node_at p empty_router) <-> p = [].
Proof. destruct p as [|[s|] p]; cbn; rewrite ?lookup_empty; split; try done; intros []; done. Qed.

Lemma handlers_empty p : handlers_at p empty_router = ∅.
Proof. unfold handlers_at. destruct p as [|[s|] p]; cbn; by rewrite ?lookup_empty. Qed.

(** What it means that [r'] is [r] with the nodes down to [pat], and [g] done
    to the handlers there. *)
Record extended (r r' : router H) (pat : list seg) (g : gmap request_method H -> gmap request_method H) : Prop := {
  ext_ok : router_ok r';
  ext_nodes : forall p, is_Some (node_at p r') <-> is_Some (node_at p r) \/ p `prefix_of` pat;
  ext_handlers : forall p, handlers_at p r' = if decide (p = pat) then g (handlers_at p r) else handlers_at p r;
}.

(** Going down one level, at the segment [s], where [r] has [c] (or nothing)
    and [r'] has [c'], and everything else is the same. *)
Lemma extended_level (r r' c c' : router H) (s : seg) pat g :
  extended c c' pat g -> map_ok (children r') -> router_ok r ->
  (forall p, node_at (s :: p) r' = node_at p c') ->
  (forall p, handlers_at (s :: p) r = handlers_at p c) ->
  (forall p, p <> [] -> is_Some (node_at p c) <-> is_Some (node_at (s :: p) r)) ->
  (forall p t, t <> s -> node_at (t :: p) r' = node_at (t :: p) r) ->
  method_handlers r' = method_handlers r ->
  extended r r' (s :: pat) g.
Proof.
  intros [Hok Hn Hh] Hmap Hokr Hdown Hhdown Hsome Hother Hm. constructor.
  - intros [|t p] n; [by intros [= <-]|]. destruct (decide (t = s)) as [->|Hne]; [rewrite Hdown; apply Hok|].
    rewrite Hother by done. apply Hokr.
  - intros [|t p]; [split; [intros _; left; by eexists|intros _; by eexists]|].
    destruct (decide (t = s)) as [->|Hne].
    + rewrite Hdown, Hn, prefix_cons_iff. destruct p as [|u p].
      * split; [intros _; right; split; [done|apply prefix_nil]|intros _; left; by eexists].
      * rewrite Hsome by done. naive_solver.
    + rewrite Hother, prefix_cons_iff by done. naive_solver.
  - intros [|t p]; [unfold handlers_at; cbn; by rewrite decide_False, Hm by done|].
    destruct (decide (t = s)) as [->|Hne].
    + unfold handlers_at at 1. rewrite Hdown. fold (handlers_at p c'). rewrite Hh, Hhdown.
      destruct (decide (p = pat)) as [->|]; [by rewrite decide_True|by rewrite decide_False by congruence].
    + rewrite decide_False by congruence. unfold handlers_at. by rewrite Hother.
Qed.

(** The nodes below a child that has been replaced, and all the others. *)
Lemma child_level (r c' : router H) cs part :
  abs cs = <[canon part := c']> (abs (children r)) ->
  (forall p, node_at (Lit part :: p) (set_children r cs) = node_at p c')
  /\ (forall p t, t <> Lit part -> node_at (t :: p) (set_children r cs) = node_at (t :: p) r).
Proof.
  intros Habs. split.
  - intros p. cbn [node_at set_children children]. by rewrite Habs, lookup_insert_eq.
  - intros p [s|] Ht; [|done]. cbn [node_at set_children children]. rewrite Habs, lookup_insert_ne; [done|]. cbn. congruence.
Qed.

(** Making the nodes of a route: if no exception, the tree is extended. *)
Lemma update_subrouter_spec parts (r : router H) f g :
  (forall n, router_ok n -> router_ok (f n)) ->
  (forall n p, is_Some (node_at p (f n)) <-> is_Some (node_at p n)) ->
  (forall n p, handlers_at p (f n) = if decide (p = []) then g (handlers_at p n) else handlers_at p n) ->
  router_ok r ->
  exists r' ex, update_subrouter parts r f = Ret (r', ex)
    /\ (ex = None -> extended r r' (map seg_of parts) g).
Proof.
  intros Hf1 Hf2 Hf3. revert r. induction parts as [|part parts IH]; intros r Hok; cbn [update_subrouter map].
  { exists (f r), None. split; [done|]. intros _. constructor; [by apply Hf1| |intros p; rewrite Hf3; by destruct p].
    intros p. rewrite Hf2. split; [by left|]. intros [?|Hp]; [done|]. apply prefix_nil_inv in Hp as ->. by eexists. }
  unfold seg_of at 1. destruct (starts_with part (lit ":")) eqn:Ew.
  - apply starts_with_spec in Ew as [name ->]. destruct (length (lit ":" ++ name) =? 1)%nat; [by do 2 eexists|].
    change (sv_substr_from (lit ":" ++ name) 1) with (Ret name). rewrite bind_ret. destruct (wildcard r) as [w|] eqn:Ewild.
    + destruct (bytes_eqb (wildcard_name r) name); [|by do 2 eexists].
      destruct (IH w (router_ok_wild r w Hok Ewild)) as (w' & ex & -> & Hext). rewrite bind_ret. do 2 eexists. split; [done|].
      intros Hex. apply (extended_level r _ w w'); try done; [by apply Hext|exact (Hok [] r eq_refl)| | |].
      * intros p. unfold handlers_at. cbn. by rewrite Ewild.
      * intros p _. cbn. by rewrite Ewild.
      * by intros p [s|] Ht.
    + destruct (IH empty_router empty_router_ok) as (w' & ex & -> & Hext). rewrite bind_ret. do 2 eexists. split; [done|].
      intros Hex. apply (extended_level r _ empty_router w'); try done; [by apply Hext|exact (Hok [] r eq_refl)| | |].
      * intros p. rewrite handlers_empty. unfold handlers_at. cbn. by rewrite Ewild.
      * intros p Hp. rewrite empty_nodes. cbn. rewrite Ewild. split; [done|by intros []].
      * by intros p [s|] Ht.
  - unfold subscript.
    destruct (find_position (children r) part (Hok [] r eq_refl) (key_valid part)) as [(i & k' & c & -> & Hi & Hc & Ha) | [-> Ha]];
      rewrite !bind_ret.
    + cbn in Hc. subst k'. unfold deref, index. rewrite Hi, bind_ret. cbn [snd].
      destruct (IH c (router_ok_child r part c Hok Ha)) as (c' & ex & -> & Hext). rewrite bind_ret. do 2 eexists. split; [done|].
      destruct (assign_ok (children r) part i part c (fun _ => c') (Hok [] r eq_refl) Hi eq_refl) as [Hok' Habs].
      destruct (child_level r c' _ part Habs) as [Hdown Hother].
      intros Hex. apply (extended_level r _ c c'); try done; [by apply Hext|intros p; unfold handlers_at|intros p _];
        cbn [node_at]; change part with (canon part); by rewrite Ha.
    + assert ((children r ++ [(part, empty_router)]) !! length (children r) = Some (part, empty_router)) as Hi by by apply list_lookup_middle.
      unfold deref, index. rewrite Hi, bind_ret. cbn [snd].
      destruct (IH empty_router empty_router_ok) as (c' & ex & -> & Hext). rewrite bind_ret. do 2 eexists. split; [done|].
      destruct (append_ok (children r) part empty_router (Hok [] r eq_refl) (key_valid part) Ha) as [Hok1 Habs1].
      destruct (assign_ok _ part (length (children r)) part empty_router (fun _ => c') Hok1 Hi eq_refl) as [Hok' Habs].
      rewrite Habs1, insert_insert_eq in Habs.
      destruct (child_level r c' _ part Habs) as [Hdown Hother].
      intros Hex. apply (extended_level r _ empty_router c'); try done; [by apply Hext|intros p; rewrite handlers_empty; unfold handlers_at|intros p Hp].
      * cbn [node_at]. change part with (canon part). by rewrite Ha.
      * rewrite empty_nodes. cbn [node_at]. change part with (canon part). rewrite Ha. split; [done|by intros []].
Qed.

(** *** Routing tables

    What the tree stands for: the routes that were added, newest first. *)

Notation table := (list (request_method * list seg * H)).

Definition node_in (t : table) (p : list seg) : Prop := p = [] \/ Exists (fun e => p `prefix_of` e.1.2) t.

#[global] Instance node_in_dec t p : Decision (node_in t p).
Proof. unfold node_in. apply _. Defined.

Definition handler_in (t : table) (p : list seg) (m : request_method) : option H :=
  snd <$> List.find (fun e => bool_decide (e.1 = (m, p))) t.

(** The route a path is matched with: part by part, a literal before a wildcard. *)
Fixpoint choose (t : table) (p : list seg) (parts : list (list byte)) : option (list seg) :=
  match parts with
  | [] => Some p
  | part :: parts =>
      if bool_decide (node_in t (p ++ [Lit part])) then choose t (p ++ [Lit part]) parts
      else if bool_decide (node_in t (p ++ [Wild])) then choose t (p ++ [Wild]) parts
      else None
  end.

Definition table_dispatch (t : table) (m : request_method) (parts : list (list byte)) : decision H :=
  match choose t [] parts with
  | None => Send STATUS_NOT_FOUND
  | Some p =>
      match handler_in t p m with
      | None => Send STATUS_METHOD_NOT_ALLOWED
      | Some h => Handle h
      end
  end.

Record represents (r : router H) (t : table) : Prop := {
  rep_ok : router_ok r;
  rep_nodes : forall p, is_Some (node_at p r) <-> node_in t p;
  rep_handlers : forall p m, handlers_at p r !! m = handler_in t p m;
}.

Lemma represents_empty : represents empty_router [].
Proof.
  constructor; [apply empty_router_ok| |].
  - intros p. rewrite empty_nodes. unfold node_in. rewrite Exists_nil. tauto.
  - intros p m. by rewrite handlers_empty, lookup_empty.
Qed.

Lemma handlers_at_set n m h p :
  handlers_at p (set_handler m h n) = if decide (p = []) then <[m := h]> (handlers_at p n) else handlers_at p n.
Proof. unfold handlers_at. by destruct p as [|[s|] p]. Qed.

Definition parts_of (route : list byte) : list (list byte) :=
  split_on "/"%byte (if starts_with route (lit "/") then drop 1 route else route).

Lemma route_parts_spec route : route_parts route = Ret (parts_of route).
Proof.
  unfold route_parts, parts_of. destruct (starts_with route (lit "/")) eqn:E.
  - apply starts_with_spec in E as [r ->]. change (sv_substr_from (lit "/" ++ r) 1) with (Ret r). rewrite bind_ret, split_string_spec.
    by rewrite (proj2 (Nat.leb_le _ _)), drop_0 by lia.
  - rewrite bind_ret, split_string_spec. by rewrite (proj2 (Nat.leb_le _ _)), drop_0 by lia.
Qed.

Lemma add_represents r t m route h :
  represents r t ->
  exists r' ex, add r m route h = Ret (r', ex)
    /\ (ex = None -> represents r' ((m, map seg_of (parts_of route), h) :: t)).
Proof.
  intros [Hok Hn Hh]. unfold add. rewrite route_parts_spec, bind_ret. set (pat := map seg_of (parts_of route)).
  destruct (update_subrouter_spec (parts_of route) r (set_handler m h) (insert m h)) as (r' & ex & -> & Hext); try done.
  - intros n Hn' [|[s|] p] x Hx; [|by apply (Hn' (Lit s :: p))|by apply (Hn' (Wild :: p))].
    injection Hx as <-. exact (Hn' [] n eq_refl).
  - intros n [|[s|] p]; [split; intros _; by eexists|done|done].
  - intros n p. apply handlers_at_set.
  - exists r', ex. split; [done|]. intros Hex. destruct (Hext Hex) as [Hok' Hn' Hh']. fold pat in Hn', Hh'. constructor; [done| |].
    + intros p. rewrite Hn', Hn. unfold node_in. rewrite Exists_cons. cbn [fst snd]. tauto.
    + intros p m'. rewrite Hh'. unfold handler_in. cbn [List.find fst snd].
      destruct (decide (p = pat)) as [->|Hne].
      * destruct (decide (m = m')) as [->|Hm].
        -- rewrite lookup_insert_eq, bool_decide_eq_true_2 by done. done.
        -- rewrite lookup_insert_ne, bool_decide_eq_false_2 by congruence. apply Hh.
      * rewrite bool_decide_eq_false_2 by congruence. apply Hh.
Qed.

Lemma node_at_app p q (r : router H) : node_at (p ++ q) r = node_at p r ≫= node_at q.
Proof. revert r. induction p as [|[s|] p IH]; intros r; cbn; [done| |]; [destruct (abs _ !! _)|destruct (wildcard r)]; cbn; auto. Qed.

Lemma node_snoc_lit p s (r n : router H) : node_at p r = Some n -> node_at (p ++ [Lit s]) r = abs (children n) !! canon s.
Proof. intros Hn. rewrite node_at_app, Hn. cbn [mbind option_bind node_at]. change (canon s) with s. by destruct (abs _ !! s). Qed.

Lemma node_snoc_wild p (r n : router H) : node_at p r = Some n -> node_at (p ++ [Wild]) r = wildcard n.
Proof. intros Hn. rewrite node_at_app, Hn. cbn. by destruct (wildcard n). Qed.

(** The walk finds the node of the route chosen. *)
Lemma walk_spec r0 t : represents r0 t -> forall parts p r, node_at p r0 = Some r ->
  walk parts r = Ret (choose t p parts ≫= fun q => node_at q r0)
  /\ forall q, choose t p parts = Some q -> is_Some (node_at q r0).
Proof.
  intros [Hok Hn Hh]. induction parts as [|part parts IH]; intros p r Hp; cbn [walk choose].
  { cbn. rewrite Hp. split; [done|]. intros q [= <-]. by rewrite Hp. }
  pose proof (node_snoc_lit p part r0 r Hp) as Hlit. pose proof (node_snoc_wild p r0 r Hp) as Hwild.
  destruct (find_position (children r) part (Hok p r Hp) (key_valid part)) as [(i & k' & c & -> & Hi & _ & Ha) | [-> Ha]]; rewrite bind_ret.
  - rewrite Ha in Hlit. rewrite bool_decide_eq_true_2 by (by apply Hn; rewrite Hlit). unfold deref, index. rewrite Hi, bind_ret. by apply IH.
  - rewrite Ha in Hlit. rewrite bool_decide_eq_false_2 by (rewrite <- Hn, Hlit; by intros []).
    destruct (wildcard r) as [w|].
    + rewrite bool_decide_eq_true_2 by (by apply Hn; rewrite Hwild). by apply IH.
    + rewrite bool_decide_eq_false_2 by (rewrite <- Hn, Hwild; by intros []). done.
Qed.

Lemma dispatch_spec r t m path : represents r t -> dispatch r m path = Ret (table_dispatch t m (parts_of path)).
Proof.
  intros Hrep. unfold dispatch, table_dispatch. rewrite route_parts_spec, bind_ret.
  destruct (walk_spec r t Hrep (parts_of path) [] r eq_refl) as [-> Hsome]. rewrite bind_ret.
  destruct (choose t [] (parts_of path)) as [p|] eqn:E; [|done]. cbn [mbind option_bind].
  destruct (Hsome p eq_refl) as [n Hnode]. rewrite Hnode.
  pose proof (rep_handlers r t Hrep p m) as Hh. unfold handlers_at in Hh. rewrite Hnode in Hh. cbn [from_option] in Hh.
  rewrite Hh. by destruct (handler_in t p m).
Qed.

(** A chain of [add]s, up to the first exception. *)
Fixpoint add_all (r : router H) (routes : list (request_method * list byte * H)) : outcome (router H * option exn) :=
  match routes with
  | [] => Ret (r, None)
  | (m, route, h) :: routes =>
      let* (r, ex) := add r m route h in
      match ex with
      | Some _ => Ret (r, ex)
      | None => add_all r routes
      end
  end.

Definition table_of (routes : list (request_method * list byte * H)) : table :=
  reverse (map (fun e => (e.1.1, map seg_of (parts_of e.1.2), e.2)) routes).

Lemma add_all_represents routes r t :
  represents r t ->
  exists r' ex, add_all r routes = Ret (r', ex) /\ (ex = None -> represents r' (table_of routes ++ t)).
Proof.
  revert r t. induction routes as [|[[m route] h] routes IH]; intros r t Hrep; cbn [add_all]; [by do 2 eexists|].
  destruct (add_represents r t m route h Hrep) as (r1 & ex & -> & Hr1). rewrite bind_ret.
  destruct ex as [e|]; [by do 2 eexists|].
  destruct (IH r1 _ (Hr1 eq_refl)) as (r2 & ex & -> & Hr2). do 2 eexists. split; [done|]. intros Hex.
  unfold table_of in *. cbn [map]. rewrite reverse_cons, <- app_assoc. by apply Hr2.
Qed.
End Operations.

(** ** Properties *)

(** C7: a router built by any sequence of [add]s that does not throw routes as
    its table of routes says: a path is matched part by part, a literal part
    before a wildcard; without a match the answer is 404, without a handler for
    the method 405, and otherwise the handler added last for that route. *)
Theorem router_refines_table {H} (std_hash : list byte -> Z) (routes : list (request_method * list byte * H)) m path :
  exists r ex, add_all std_hash empty_router routes = Ret (r, ex)
    /\ (ex = None -> dispatch std_hash r m path = Ret (table_dispatch (table_of routes) m (parts_of path))).
Proof.
  destruct (add_all_represents std_hash routes empty_router [] (represents_empty std_hash)) as (r & ex & Ha & Hrep).
  exists r, ex. split; [done|]. intros Hex. rewrite app_nil_r in Hrep. by apply dispatch_spec, Hrep.
Qed.

Lemma router_refines_table_witness :
  exists r ex, add_all (fun _ => 0) empty_router [(GET, lit "/a/:x", 1); (GET, lit "/a/b", 2); (POST, lit "/a/b", 3)] = Ret (r, ex)
    /\ (ex = None -> dispatch (fun _ => 0) r GET (lit "/a/c") = Ret (Handle 1)).
Proof.
  destruct (router_refines_table (fun _ => 0) [(GET, lit "/a/:x", 1); (GET, lit "/a/b", 2); (POST, lit "/a/b", 3)] GET (lit "/a/c"))
    as (r & ex & Ha & Hd).
  exists r, ex. split; [exact Ha|]. intros Hex. rewrite (Hd Hex). vm_compute. reflexivity.
Defined.
