(* ===== verification/Server.v ===== *)
(** * Server and client (src/http/server.cpp, response.cpp, client.cpp)

    A connection is its two halves: a reader of what the peer sends and a
    writer of what is sent to it.  A handler is code of the library's user: a
    function from the request to a reply, the headers it leaves in the
    response, the status and content length it passes to [send], the bytes it
    writes after it, and the request's body as far as it has read it.
    [iterate] is the order in which a header map is walked; the HTTP/2
    functions are declared and have no body, so calling one is undefined. *)

From Stdlib Require Import ZArith Strings.Byte Lia String.
From stdpp Require Import prelude list gmap strings.
From S2P Require Import Prelude CxxStrings StringUtil Url Io BufferedReader BufferedWriter Chunked StringMap Headers Messages Http11 Router.

(** ** Definitions *)

Notation encoder W := (W -> server_response -> headers -> outcome ((unit + error_condition) * W)).

Definition http2_response_encode {W} : encoder W := fun _ _ _ => Undef.
Definition http2_request_encode {W} (w : W) (req : client_request) (query_order : list (list byte * list (list byte)))
    (order : headers) : outcome ((unit + error_condition) * W) := Undef.

Definition http2_request_decode {R} (reader : buffered_reader R) (max_header_bytes : Z) : outcome (server_request R + error_condition) := Undef.
Definition http2_response_decode {R} (reader : buffered_reader R) (max_header_bytes : Z) : outcome (client_response R + error_condition) := Undef.

(** [server::enforce_protocol] is to return a [bool] and has an empty body. *)
Definition enforce_protocol {R} (req : server_request R) (resp : server_response) : outcome bool := Undef.

(** [server::serve_http11] and [serve_http2]: loops without a body, that turn
    until the server stops or the connection is no longer valid; [go_on] is
    what the condition gives at each turn. *)
Fixpoint spin (fuel : nat) (go_on : nat -> bool) (turn : nat) : outcome nat :=
  match fuel with
  | O => OutOfFuel
  | S fuel => if go_on turn then spin fuel go_on (S turn) else Ret turn
  end.
Definition serve_http11 (fuel : nat) (is_serving valid : nat -> bool) : outcome nat := spin fuel (fun t => is_serving t && valid t) 0.
Definition serve_http2 (fuel : nat) (is_serving valid : nat -> bool) : outcome nat := spin fuel (fun t => is_serving t && valid t) 0.

(** [response_writer::send]: the error of the encoder is thrown. *)
Definition send {W} (encode : encoder W) (iterate : headers -> headers) (w : W) (resp : server_response)
    (status_code : status) (content_length : Z) : outcome (W * server_response) :=
  let* h := set_content_length (sresp_headers resp) content_length in
  let resp := {| sresp_version := sresp_version resp; sresp_status := status_code; sresp_headers := h |} in
  let* (res, w) := encode w resp (iterate h) in
  match res with
  | inr _ => Throw thrown_condition
  | inl _ => Ret (w, resp)
  end.

Record reply (R : Type) := {
  reply_headers : headers; reply_status : status; reply_length : Z; reply_data : list byte; reply_rest : body R }.
Arguments reply_headers {R}. Arguments reply_status {R}. Arguments reply_length {R}.
Arguments reply_data {R}. Arguments reply_rest {R}.

Notation handler R := (server_request R -> outcome (reply R)).

(** The reader a body is left with; the connection goes on from its source,
    what is in its buffer is lost with it. *)
Definition body_source {R} (b : body R) : R :=
  match b with
  | Chunked c => BufferedReader.impl (Chunked.parent c)
  | Limited l => BufferedReader.impl (Io.parent l)
  end.

Definition is_protocol_supported (protocol : list byte) : bool := bytes_eqb protocol (lit "HTTP/1.1").

Definition upgrade_to_protocol (h : headers) : outcome (list byte) :=
  let* upgrade := get_all h (lit "Upgrade") in
  match upgrade with
  | None => Ret []
  | Some protocols => Ret (default [] (List.find is_protocol_supported protocols))
  end.

(** A handler's part of a turn: what it sends, then what it writes. *)
Definition run_handler {R W} `{Writer W} (encode : encoder W) (iterate : headers -> headers)
    (h : handler R) (req : server_request R) (w : W) (resp : server_response) : outcome (W * body R) :=
  let* rep := h req in
  let resp := {| sresp_version := sresp_version resp; sresp_status := sresp_status resp; sresp_headers := reply_headers rep |} in
  let* (w, _) := send encode iterate w resp (reply_status rep) (reply_length rep) in
  let* (_, _, w) := wr w (reply_data rep) in
  Ret (w, reply_rest rep).

(** [conn.valid()], asked before each turn of a connection: the socket is open
    and has no pending error.  Asking takes the error from the socket. *)
Class Validity (R : Type) := conn_valid : R -> bool * R.

(** How the service of a connection ends *)
Inductive session_end (W : Type) := Closing (w : W) | Caught (e : exn).
Arguments Closing {W} w.
Arguments Caught {W} e.

Section Serve.
Context {R W : Type} `{Reader R} `{Writer W}.
Context (std_hash : list byte -> Z) (iterate : headers -> headers).

(** The encoder for a version, and whether the version is unsupported. *)
Definition choose_encoder (version : protocol_version) : encoder (buffered_writer W) * bool :=
  if major version =? 1 then (response_encode, false)
  else if major version =? 2 then (http2_response_encode, false)
  else (response_encode, true).

(** The answer to a request: into the writer, with the body that is left. *)
Definition respond (rt : router (handler R)) (req : server_request R) (w : buffered_writer W)
    : outcome (buffered_writer W * body R) :=
  let (encode, unsupported) := choose_encoder (req_version req) in
  let resp := {| sresp_version := req_version req; sresp_status := STATUS_NONE; sresp_headers := [] |} in
  if unsupported : bool then
    let* (w, _) := send encode iterate w resp STATUS_HTTP_VERSION_NOT_SUPPORTED 0 in Ret (w, req_body req)
  else
    let* upgrade_to := upgrade_to_protocol (req_headers req) in
    match upgrade_to with
    | _ :: _ =>
        let* h := set [] (lit "Upgrade") upgrade_to in
        let* h := set h (lit "Connection") (lit "upgrade") in
        let resp := {| sresp_version := req_version req; sresp_status := STATUS_NONE; sresp_headers := h |} in
        let* (w, _) := send encode iterate w resp STATUS_SWITCHING_PROTOCOLS 0 in Ret (w, req_body req)
    | [] =>
        let* d := dispatch std_hash rt (req_method req) (path (req_uri req)) in
        match d with
        | Send s => let* (w, _) := send encode iterate w resp s 0 in Ret (w, req_body req)
        | Handle h => run_handler encode iterate h req w resp
        end
    end.

(** The buffers of a connection, by the default of their constructors. *)
Definition bufsize : nat := Z.to_nat 1024.

(** One turn of [serve_connection]'s loop, with buffers of its own; [None]
    ends the loop. *)
Definition serve_turn (fuel : nat) (max_header_bytes : Z) (rt : router (handler R)) (r : R) (w : W)
    : outcome (option R * W) :=
  let reader := BufferedReader.make r bufsize in
  let writer := BufferedWriter.make w bufsize in
  let* req_result := request_decode fuel reader max_header_bytes in
  match req_result with
  | inr _ => Ret (None, w)
  | inl req =>
      let* (writer, rest) := respond rt req writer in
      let* (_, _, writer) := flush writer in
      Ret (Some (body_source rest), BufferedWriter.impl writer)
  end.

(** The [while] loop of [serve_connection]; [is_serving] is what the flag of the
    server reads at each turn. *)
Fixpoint connection_loop `{Validity R} (turns fuel : nat) (is_serving : nat -> bool) (turn : nat)
    (max_header_bytes : Z) (rt : router (handler R)) (r : R) (w : W) : outcome W :=
  match turns with
  | O => OutOfFuel
  | S turns =>
      if is_serving turn then
        let (v, r) := conn_valid r in
        if v then
          let* (r, w) := serve_turn fuel max_header_bytes rt r w in
          match r with
          | None => Ret w
          | Some r => connection_loop turns fuel is_serving (S turn) max_header_bytes rt r w
          end
        else Ret w
      else Ret w
  end.

(** [serve_connection]: an [std::exception] is caught and logged (an
    [std::error_condition] is none), and what had been written by then is not
    known. *)
Definition serve_connection `{Validity R} (turns fuel : nat) (is_serving : nat -> bool)
    (max_header_bytes : Z) (rt : router (handler R)) (r : R) (w : W) : outcome (session_end W) :=
  match connection_loop turns fuel is_serving 0 max_header_bytes rt r w with
  | Ret w => Ret (Closing w)
  | Throw thrown_condition => Throw thrown_condition
  | Throw e => Ret (Caught e)
  | Terminate => Terminate
  | Undef => Undef
  | OutOfFuel => OutOfFuel
  end.

(** [client::send], on the connection of the host. *)
Definition client_send (fuel : nat) (r : R) (w : W) (request : client_request) (query_order : list (list byte * list (list byte)))
    : outcome ((client_response R + error_condition) * W) :=
  if major (creq_version request) <=? 1 then
    let* (res, w) := request_encode w request query_order (iterate (creq_headers request)) in
    match res with
    | inr e => Ret (inr e, w)
    | inl _ =>
        let* resp := response_decode fuel (BufferedReader.make r bufsize) (2 ^ 64 - 1) in
        Ret (resp, w)
    end
  else if bool_decide (creq_version request = {| major := 2; minor := 0 |}) then Undef
  else Ret (inr (generic not_supported), w).
End Serve.

(** ** Sending *)

Lemma trimmed_of_plain s : s <> [] -> Forall (fun c => is_space c = false) s -> trimmed s.
Proof.
  intros Hne Hs. destruct s as [|x s]; [done|]. apply Forall_cons in Hs as [Hx Hs].
  destruct s as [|y s _] using rev_ind; [exists x, []; split; [by left|done]|].
  apply Forall_app in Hs as [_ Hy]. apply Forall_cons in Hy as [Hy _]. exists x, s. split; [right; by exists y|done].
Qed.

(** The header [send] adds. *)
Definition length_header (n : Z) : list byte * list (list byte) := (lit "Content-Length", [to_chars 10 n]).

Lemma digits_are (p : byte -> bool) n : 0 <= n -> forallb p (map digit_char (seqZ 0 36)) = true -> Forall (fun c => p c = true) (to_chars 10 n).
Proof.
  intros Hn Hp. apply to_chars_Forall; [lia|done|]. intros d Hd. rewrite forallb_forall in Hp. apply Hp.
  apply in_map, list_elem_of_In, elem_of_seqZ. lia.
Qed.

Lemma length_header_ok n : 0 <= n < 2 ^ 64 -> header_ok (length_header n).
Proof.
  intros Hn. assert (0 < length (to_chars 10 n) <= 20)%nat as Hl.
  { apply (to_chars_bound 10 n 19); [lia|]. change (10 ^ Z.of_nat 20) with (5 * 2 ^ 64 + 7766279631452241920). lia. }
  assert (forall c, forallb (fun d => negb (byte_eqb c d)) (map digit_char (seqZ 0 36)) = true -> c ∉ to_chars 10 n) as Havoid.
  { intros c Hc Hin. pose proof (digits_are (fun d => negb (byte_eqb c d)) n ltac:(lia) Hc) as Hall.
    rewrite Forall_forall in Hall. specialize (Hall c Hin). by rewrite byte_eqb_refl in Hall. }
  constructor; cbn [length_header fst snd].
  - split_and!; [|by apply valid_literal|by apply lit_plain]. by apply (trimmed_ends _ "C"%byte "h"%byte (lit "ontent-Lengt")).
  - split_and!; [done|constructor; [by apply Havoid|done]|]. cbn [received map join]. apply trimmed_of_plain.
    + intros Hnil. rewrite Hnil in Hl. simpl in Hl. lia.
    + pose proof (digits_are (fun d => negb (is_space d)) n ltac:(lia) ltac:(vm_compute; reflexivity)) as Hall.
      eapply Forall_impl; [exact Hall|]. intros c Hc. cbv beta in Hc. by apply negb_true_iff in Hc.
  - unfold header_text. cbn [fst snd received map join]. split.
    + rewrite !not_elem_of_app. split_and!; [by apply lit_plain..|by apply Havoid].
    + rewrite !length_app. simpl. lia.
Qed.

Lemma set_content_length_fresh (h : headers) n :
  map_ok (h ++ [length_header n]) -> set_content_length h n = Ret (h ++ [length_header n]).
Proof.
  intros (Hok & Hk & Hnk)%map_ok_snoc. unfold set_content_length, set, insert_or_assign.
  destruct (find_position h _ Hok Hk) as [(i & k' & u & _ & Hi & Hc & _) | [-> _]]; [|done].
  destruct Hnk. rewrite <- Hc. unfold keys. apply (list_elem_of_fmap_2 (fun e => canon e.1) h (k', u)). by eapply list_elem_of_lookup_2.
Qed.

Section Reliable.
Context {W : Type} `{ReliableWriter W}.

Lemma write_all_all (w : W) writes : owriter_ok w ->
  exists k e w', write_all w writes = Ret (k, e, w') /\ failed e = false /\ owriter_ok w' /\ osink w' = osink w ++ concat writes.
Proof.
  intros Hok. destruct (write_all_spec w writes Hok) as (k & e & w' & j & Hw & Hok' & _ & Hs & Hf).
  assert (failed e = false) as He by (eapply write_all_reliable; [exact Hok|exact Hw]). destruct (Hf He) as [_ ->].
  exists k, e, w'. rewrite firstn_all in Hs. done.
Qed.

Lemma wr_all (w : W) d : owriter_ok w ->
  exists k e w', wr w d = Ret (k, e, w') /\ failed e = false /\ owriter_ok w' /\ osink w' = osink w ++ d.
Proof.
  intros Hok. destruct (owr_spec w d Hok) as (k & e & w' & j & Hw & Hok' & _ & Hs & Hf).
  assert (failed e = false) as He by (eapply owr_reliable; [exact Hok|exact Hw]). destruct (Hf He) as [_ ->].
  exists k, e, w'. rewrite firstn_all in Hs. done.
Qed.

Lemma encode_message_all (w : W) start order : owriter_ok w -> Forall header_ok order ->
  exists w', (let* (_, err, w) := write_all w start in if failed err then Ret (inr err, w) else encode_headers w order) = Ret (inl tt, w')
    /\ owriter_ok w' /\ osink w' = osink w ++ concat start ++ headers_text order ++ crlf.
Proof.
  intros Hok Ho. destruct (write_all_all w start Hok) as (k & e & w1 & -> & He & Hok1 & Hs1). rewrite bind_ret, He.
  unfold encode_headers, write_headers.
  destruct (write_all_all w1 (concat (map header_pieces order)) Hok1) as (k2 & e2 & w2 & -> & He2 & Hok2 & Hs2). rewrite !bind_ret, He2.
  destruct (wr_all w2 crlf Hok2) as (k3 & e3 & w3 & -> & He3 & Hok3 & Hs3). rewrite bind_ret, He3.
  exists w3. split_and!; try done. by rewrite Hs3, Hs2, Hs1, pieces_text, <- !app_assoc.
Qed.

(** What [send] writes. *)
Lemma send_all (iterate : headers -> headers) (w : W) resp s n :
  owriter_ok w -> map_ok (sresp_headers resp ++ [length_header n]) ->
  Forall header_ok (iterate (sresp_headers resp ++ [length_header n])) ->
  exists w', send response_encode iterate w resp s n
      = Ret (w', {| sresp_version := sresp_version resp; sresp_status := s; sresp_headers := sresp_headers resp ++ [length_header n] |})
    /\ owriter_ok w'
    /\ osink w' = osink w ++ response_text
        {| sresp_version := sresp_version resp; sresp_status := s; sresp_headers := sresp_headers resp ++ [length_header n] |}
        (iterate (sresp_headers resp ++ [length_header n])).
Proof.
  intros Hok Hmap Ho. unfold send. rewrite set_content_length_fresh, bind_ret by done. unfold response_encode.
  destruct (encode_message_all w (response_start {| sresp_version := sresp_version resp; sresp_status := s;
    sresp_headers := sresp_headers resp ++ [length_header n] |}) _ Hok Ho) as (w' & -> & Hok' & Hs). rewrite bind_ret.
  by exists w'.
Qed.
End Reliable.

(** The empty loops return when the server stops or the connection ends, and
    not before. *)
Lemma spin_returns fuel go_on turn t :
  spin fuel go_on turn = Ret t <-> (turn <= t < turn + fuel)%nat /\ go_on t = false /\ forall i, (turn <= i < t)%nat -> go_on i = true.
Proof.
  revert turn. induction fuel as [|fuel IH]; intros turn; cbn [spin]; [split; [done|intros [? _]; lia]|].
  destruct (go_on turn) eqn:E.
  - rewrite IH. split; intros (Hr & Hf & Hall); (split; [try lia|split; [done|]]).
    + intros i Hi. destruct (decide (i = turn)) as [->|]; [done|apply Hall; lia].
    + destruct (decide (t = turn)) as [->|]; [congruence|lia].
    + intros i Hi. apply Hall. lia.
  - split; [intros [= <-]; split; [lia|split; [done|intros i Hi; lia]]|]. intros (Hr & Hf & Hall). f_equal.
    destruct (decide (turn = t)) as [->|]; [done|]. rewrite (Hall turn) in E by lia. done.
Qed.

Lemma serve_http11_returns fuel is_serving valid t :
  serve_http11 fuel is_serving valid = Ret t <->
  (t < fuel)%nat /\ (is_serving t && valid t = false) /\ forall i, (i < t)%nat -> is_serving i = true /\ valid i = true.
Proof.
  unfold serve_http11. rewrite spin_returns. split; intros (Hr & Hf & Hall); (split; [lia|split; [done|]]); intros i Hi.
  - apply andb_true_iff, Hall. lia.
  - apply andb_true_iff, Hall. lia.
Qed.

(** ** An exchange *)

(** No protocol of the [Upgrade] header is one the server changes to. *)
Definition no_upgrade (h : headers) : Prop := forall vals, abs h !! canon (lit "Upgrade") = Some vals -> lit "HTTP/1.1" ∉ vals.

Lemma upgrade_none (h : headers) : map_ok h -> no_upgrade h -> upgrade_to_protocol h = Ret [].
Proof.
  intros Hok Hno. unfold upgrade_to_protocol. rewrite get_all_spec, bind_ret by (done || by apply valid_literal).
  destruct (abs h !! canon (lit "Upgrade")) as [vals|] eqn:E; [|done]. specialize (Hno vals E).
  destruct (List.find is_protocol_supported vals) as [x|] eqn:Ef; [|done].
  apply List.find_some in Ef as [Hin Hx]. unfold is_protocol_supported in Hx. apply bytes_eqb_eq in Hx as ->.
  destruct Hno. by apply list_elem_of_In.
Qed.

Section Exchange.
Context {R RC W WC : Type} `{StreamReader R} `{StreamReader RC}.
Context `{SinkWriter W} `{!ReliableWriter W} `{OrderedWriter WC} `{!ReliableWriter WC}.
Context (iterate : headers -> headers).

(** The client's side, on the text of a response. *)
Lemma client_send_receives fuel req query_order resp data (rc : RC) (wc : WC) :
  request_ok req query_order (iterate (creq_headers req)) -> major (creq_version req) <= 1 ->
  response_ok resp (iterate (sresp_headers resp)) ->
  header_size (iterate (sresp_headers resp)) < 2 ^ 64 - 1 ->
  (length (response_text resp (iterate (sresp_headers resp)) ++ data) < fuel)%nat ->
  reader_ok rc -> stream rc = response_text resp (iterate (sresp_headers resp)) ++ data -> owriter_ok wc ->
  exists b r' wc', client_send iterate fuel rc wc req query_order = Ret (inl {|
        resp_version := sresp_version resp; resp_status := sresp_status resp;
        resp_headers := received_headers (iterate (sresp_headers resp)); resp_body := b |}, wc')
    /\ osink wc' = osink wc ++ request_text req query_order (iterate (creq_headers req))
    /\ BufferedReader.buffered_ok r' /\ buffered_stream r' = data /\ body_of (received_headers (iterate (sresp_headers resp))) r' = Ret b.
Proof using ReliableWriter1.
  intros Hreq Hver Hresp Hsize Hf Hrc Hs Hwc. unfold client_send. rewrite (proj2 (Z.leb_le _ _)) by done.
  pose proof (ok_headers _ _ _ Hreq) as (_ & _ & Hor). unfold request_encode.
  destruct (encode_message_all wc (request_start req query_order) _ Hwc Hor) as (wc' & -> & _ & Hsink). rewrite bind_ret.
  assert (BufferedReader.buffered_ok (BufferedReader.make rc bufsize)) as Hbr by (split_and!; cbn; [done|unfold bufsize; lia|lia]).
  destruct (response_decode_text resp (iterate (sresp_headers resp)) (BufferedReader.make rc bufsize) fuel (2 ^ 64 - 1) data Hresp Hbr)
    as (r' & b & -> & Hok' & Hr' & Hb); [unfold buffered_stream; cbn [BufferedReader.make BufferedReader.buf BufferedReader.impl app]; by rewrite Hs|lia|done|].
  rewrite bind_ret. by exists b, r', wc'.
Qed.
Context (std_hash : list byte -> Z) (iterate_perm : forall h, iterate h ≡ₚ h).

(** The request as the server sees it, with the body [b]. *)
Definition seen_request (req : client_request) (b : body R) : server_request R :=
  {| req_method := creq_method req; req_version := request_version (creq_version req); req_uri := creq_uri req;
     req_headers := received_headers (iterate (creq_headers req)); req_body := b |}.

(** What a turn answers with [hs], [s], [n] and [data]. *)
Definition answer_text (req : client_request) (hs : headers) (s : status) (n : Z) (data : list byte) : list byte :=
  response_text {| sresp_version := request_version (creq_version req); sresp_status := s; sresp_headers := hs ++ [length_header n] |}
    (iterate (hs ++ [length_header n])) ++ data.

(** The server's answer to a request it has decoded, up to the flush. *)
Lemma respond_answers rt (h : handler R) req query_order b rest hs s n data (w : W) :
  request_ok req query_order (iterate (creq_headers req)) -> major (request_version (creq_version req)) = 1 ->
  no_upgrade (received_headers (iterate (creq_headers req))) ->
  dispatch std_hash rt (creq_method req) (path (creq_uri req)) = Ret (Handle h) ->
  h (seen_request req b) = Ret {| reply_headers := hs; reply_status := s; reply_length := n; reply_data := data; reply_rest := rest |} ->
  map_ok (hs ++ [length_header n]) -> Forall header_ok (hs ++ [length_header n]) -> writer_ok w ->
  exists w2 k e w3, respond std_hash iterate rt (seen_request req b) (BufferedWriter.make w bufsize) = Ret (w2, rest)
    /\ flush w2 = Ret (k, e, w3) /\ writer_ok (BufferedWriter.impl w3)
    /\ sink (BufferedWriter.impl w3) = sink w ++ answer_text req hs s n data.
Proof using iterate_perm ReliableWriter0.
  intros Hreq Hver Hup Hdisp Hh Hmap Ho Hw. unfold respond, choose_encoder. cbn [req_version seen_request]. rewrite Hver. cbn [Z.eqb Pos.eqb].
  pose proof (ok_headers _ _ _ Hreq) as (Hmapr & Hperm & Hor).
  cbn [req_headers seen_request]. rewrite upgrade_none, bind_ret; [|apply received_headers_ok; by eapply map_ok_perm|done].
  cbn [req_method req_uri seen_request]. rewrite Hdisp, bind_ret. unfold run_handler.
  fold (seen_request req b). rewrite Hh, bind_ret. cbn [reply_headers reply_status reply_length reply_data reply_rest sresp_version sresp_status].
  assert (BufferedWriter.buffered_ok (BufferedWriter.make w bufsize)) as Hbw by (split_and!; cbn; [done|unfold bufsize; lia|lia]).
  assert (Forall header_ok (iterate (hs ++ [length_header n]))) as Ho' by (by rewrite iterate_perm).
  destruct (send_all iterate (BufferedWriter.make w bufsize)
    {| sresp_version := request_version (creq_version req); sresp_status := STATUS_NONE; sresp_headers := hs |} s n)
    as (w1 & -> & Hok1 & Hs1); [exact Hbw|done|done|]. rewrite bind_ret. cbn [sresp_version sresp_headers] in Hs1.
  destruct (wr_all w1 data Hok1) as (k & e & w2 & -> & _ & Hok2 & Hs2). rewrite !bind_ret.
  destruct (flush_spec w2 Hok2) as (k3 & e3 & w3 & Hfl & Hok3 & Hall & _).
  destruct (Hall ltac:(eapply flush_reliable; [exact Hok2|exact Hfl])) as (Hsink & _).
  exists w2, k3, e3, w3. split_and!; [done|done|apply Hok3|]. unfold answer_text.
  change (osink w2) with (written w2) in Hs2. change (osink w1) with (written w1) in *.
  rewrite Hsink, Hs2, Hs1, <- app_assoc. change (osink (BufferedWriter.make w bufsize)) with (sink w ++ []). by rewrite app_nil_r.
Qed.

(** A turn of the server on a stream that begins with the text of a request:
    the handler is called with a body that reads on from there. *)
Lemma serve_turn_reads fuel mx rt (h : handler R) req query_order hs s n data (r : R) (w : W) more :
  request_ok req query_order (iterate (creq_headers req)) -> major (request_version (creq_version req)) = 1 ->
  no_upgrade (received_headers (iterate (creq_headers req))) ->
  dispatch std_hash rt (creq_method req) (path (creq_uri req)) = Ret (Handle h) ->
  map_ok (hs ++ [length_header n]) -> Forall header_ok (hs ++ [length_header n]) ->
  header_size (iterate (creq_headers req)) < mx < 2 ^ 64 ->
  (length (stream r) < fuel)%nat ->
  reader_ok r -> stream r = request_text req query_order (iterate (creq_headers req)) ++ more -> writer_ok w ->
  exists r' b, char_reads (BufferedReader.make r bufsize) (request_text req query_order (iterate (creq_headers req))) r'
    /\ BufferedReader.buffered_ok r' /\ body_of (received_headers (iterate (creq_headers req))) r' = Ret b
    /\ forall rest,
        h (seen_request req b) = Ret {| reply_headers := hs; reply_status := s; reply_length := n; reply_data := data; reply_rest := rest |} ->
        exists w', serve_turn std_hash iterate fuel mx rt r w = Ret (Some (body_source rest), w')
          /\ writer_ok w' /\ sink w' = sink w ++ answer_text req hs s n data.
Proof using iterate_perm ReliableWriter0.
  intros Hreq Hver Hup Hdisp Hmap Ho Hmx Hf Hr Hs Hw. unfold serve_turn.
  assert (BufferedReader.buffered_ok (BufferedReader.make r bufsize)) as Hbr by (split_and!; cbn; [done|unfold bufsize; lia|lia]).
  destruct (request_decode_text req query_order (iterate (creq_headers req)) (BufferedReader.make r bufsize) fuel mx more Hreq Hbr)
    as (r' & b & -> & Hok' & _ & Hb & Hc); [done|done|done|].
  exists r', b. split_and!; [done..|]. intros rest Hh. rewrite bind_ret. fold (seen_request req b).
  destruct (respond_answers rt h req query_order b rest hs s n data w) as (w2 & k & e & w3 & -> & Hfl & Hok3 & Hs3); [done..|].
  rewrite bind_ret, Hfl, bind_ret. by exists (BufferedWriter.impl w3).
Qed.

(** A turn of the server on the text of a request. *)
Lemma serve_turn_answers fuel mx rt (h : handler R) req query_order hs s n data (r : R) (w : W) :
  request_ok req query_order (iterate (creq_headers req)) -> major (request_version (creq_version req)) = 1 ->
  no_upgrade (received_headers (iterate (creq_headers req))) ->
  dispatch std_hash rt (creq_method req) (path (creq_uri req)) = Ret (Handle h) ->
  (forall b, exists rest, h (seen_request req b)
     = Ret {| reply_headers := hs; reply_status := s; reply_length := n; reply_data := data; reply_rest := rest |}) ->
  map_ok (hs ++ [length_header n]) -> Forall header_ok (hs ++ [length_header n]) ->
  header_size (iterate (creq_headers req)) < mx < 2 ^ 64 ->
  (length (request_text req query_order (iterate (creq_headers req))) < fuel)%nat ->
  reader_ok r -> stream r = request_text req query_order (iterate (creq_headers req)) -> writer_ok w ->
  exists ro w', serve_turn std_hash iterate fuel mx rt r w = Ret (ro, w') /\ sink w' = sink w ++ answer_text req hs s n data.
Proof using iterate_perm ReliableWriter0.
  intros Hreq Hver Hup Hdisp Hh Hmap Ho Hmx Hf Hr Hs Hw.
  destruct (serve_turn_reads fuel mx rt h req query_order hs s n data r w []) as (r' & b & _ & _ & _ & Hall);
    rewrite ?app_nil_r, ?Hs; try done. destruct (Hh b) as [rest Hrep]. destruct (Hall rest Hrep) as (w' & Hret & _ & Hs'). eauto.
Qed.

End Exchange.

(** ** Properties *)

(** A request, the handler it is routed to and the reply of that handler, all
    of which can be written. *)
Record exchange_ok {R} (std_hash : list byte -> Z) (iterate : headers -> headers) (rt : router (handler R)) (h : handler R)
    (req : client_request) (query_order : list (list byte * list (list byte)))
    (hs : headers) (s : status) (n : Z) (data : list byte) (mx : Z) : Prop := {
  x_request : request_ok req query_order (iterate (creq_headers req));
  x_version : major (creq_version req) = 1;
  x_upgrade : no_upgrade (received_headers (iterate (creq_headers req)));
  x_size : header_size (iterate (creq_headers req)) < mx < 2 ^ 64;
  x_route : dispatch std_hash rt (creq_method req) (path (creq_uri req)) = Ret (Handle h);
  x_reply : forall b, exists rest, h (seen_request iterate req b)
     = Ret {| reply_headers := hs; reply_status := s; reply_length := n; reply_data := data; reply_rest := rest |};
  x_status : s ∈ known_statuses;
  x_headers : map_ok (hs ++ [length_header n]) /\ Forall header_ok (hs ++ [length_header n])
              /\ header_size (iterate (hs ++ [length_header n])) < 2 ^ 64 - 1;
}.


(** A server with one route. *)
Definition hello {R} : handler R := fun req =>
  Ret {| reply_headers := [(lit "Server", [lit "cppnet"])]; reply_status := STATUS_OK; reply_length := 5;
         reply_data := lit "hello"; reply_rest := req_body req |}.

Definition hello_router {R} : router (handler R) :=
  match add (fun _ => 0) empty_router GET (lit "/c") hello with Ret (r, None) => r | _ => empty_router end.

Definition hello_response : list byte :=
  response_text {| sresp_version := {| major := 1; minor := 1 |}; sresp_status := STATUS_OK;
                   sresp_headers := [(lit "Server", [lit "cppnet"])] ++ [length_header 5] |}
    ([(lit "Server", [lit "cppnet"])] ++ [length_header 5]) ++ lit "hello".

Lemma hello_headers_ok :
  map_ok ([(lit "Server", [lit "cppnet"])] ++ [length_header 5]) /\ Forall header_ok ([(lit "Server", [lit "cppnet"])] ++ [length_header 5]).
Proof.
  split; [constructor|].
  - apply (bool_decide_unpack _). vm_compute. exact I.
  - repeat (apply Forall_cons; split; [by apply name_valid, valid_literal|]). apply Forall_nil_2.
  - apply Forall_cons. split; [|constructor; [by apply length_header_ok|done]].
    constructor; cbn [fst snd]; split_and!; try (apply (bool_decide_unpack _); vm_compute; exact I); try discriminate.
    + by apply (trimmed_ends _ "S"%byte "r"%byte (lit "erve")).
    + by apply (trimmed_ends _ "c"%byte "t"%byte (lit "ppne")).
Qed.


(** A text that is read is always valid. *)
#[global] Instance string_reader_Validity : Validity string_reader := fun r => (true, r).

(** What the server writes to a peer that sends [s] and closes. *)
Definition serve_text (s : list byte) : outcome (list byte) :=
  let* e := serve_connection (fun _ => 0) id 5 (S (length s)) (fun _ => true) 8192 hello_router (string_reader_of s) string_writer_empty in
  match e with Closing w => Ret (string_writer_build w) | Caught e => Throw e end.

Definition hello_request : list byte := lit "GET http://a/c HTTP/1.1" ++ crlf ++ crlf.

(** each turn of a connection reads through a new buffer, and what the old
    one had read ahead is gone with it: of two requests sent together only the
    first is answered.  A request of version 2 makes the server call the
    encoder of HTTP/2, which has no body. *)
Lemma server_loses_pipelined :
  serve_text hello_request = Ret hello_response
  /\ serve_text (hello_request ++ hello_request) = Ret hello_response
  /\ serve_text (lit "GET http://a/c HTTP/2.0" ++ crlf ++ crlf) = Undef.
Proof. split_and!; vm_compute; reflexivity. Qed.
