(* ===== verification/Session.v ===== *)
(** * A connection that is kept (src/http/server.cpp)

    [serve_connection] answers one request after another on a connection,
    each through a buffered reader of its own: what a buffer has read ahead
    when its turn ends is lost ([Server.server_loses_pipelined]).  A peer that
    sends a request only after the answer to the one before it loses nothing.
    Such a connection is a [MessageReader]: no read goes past the end of the
    message that is being received.  The theorem of this file is that the
    server answers all the messages of such a connection, in their order, and
    returns when the peer closes. *)

From Stdlib Require Import ZArith Strings.Byte Lia String.
From stdpp Require Import prelude list gmap strings.
From S2P Require Import Prelude CxxStrings StringUtil Url Io BufferedWriter Chunked StringMap Headers Messages Http11 Router Server BufferedReader.

(** ** Messages *)

(** What is left to read when [m] is left of the message being received. *)
Definition leave (m : list byte) (ms : list (list byte)) : list (list byte) :=
  match m with [] => ms | _ => m :: ms end.

Class MessageReader (R : Type) `{StreamReader R} := {
  messages : R -> list (list byte);
  messages_stream : forall r, reader_ok r -> stream r = concat (messages r);
  rd_message : forall r n got err r' m ms,
    reader_ok r -> (0 < n)%nat -> m <> [] -> messages r = m :: ms -> rd r n = Ret (got, err, r') ->
    exists m', m = got ++ m' /\ messages r' = leave m' ms;
}.

Lemma leave_ne m ms : m <> [] -> leave m ms = m :: ms.
Proof. by destruct m. Qed.

Section Position.
Context {R : Type} `{Hm : MessageReader R}.

(** The reader is at [x], the rest of a message, and [ms] are to follow: the
    buffer holds nothing of them. *)
Definition at_message (r : buffered_reader R) (x : list byte) (ms : list (list byte)) : Prop :=
  exists m, x = buf r ++ m /\ messages (impl r) = leave m ms.

Lemma at_message_end r ms : at_message r [] ms -> messages (impl r) = ms.
Proof using. intros (m & Hx & ->). symmetry in Hx. apply app_eq_nil in Hx as [_ ->]. done. Qed.

Lemma at_message_stream r x ms : reader_ok (impl r) -> at_message r x ms -> buffered_stream r = x ++ concat ms.
Proof using.
  intros Hok (m & -> & Hms). unfold buffered_stream. rewrite messages_stream, Hms, <- app_assoc by done. by destruct m.
Qed.

Lemma fill_message r x ms r' :
  buffered_ok r -> at_message r x ms -> (length (buf r) < length x)%nat -> fill r = Ret r' -> at_message r' x ms.
Proof using.
  intros (Hok & Hc & Hb) (m & -> & Hms) Hlt. unfold fill. rewrite length_app in Hlt.
  destruct (length (buf r) =? cap r)%nat eqn:E; reflect_bools; [intros [= <-]; by exists m|].
  destruct (rd_spec (impl r) (cap r - length (buf r)) Hok) as (got & e & i & Hr & _). rewrite Hr, bind_ret. intros [= <-].
  assert (m <> []) as Hne by (destruct m; [simpl in Hlt; lia|done]). rewrite leave_ne in Hms by done.
  destruct (rd_message (impl r) (cap r - length (buf r)) got e i m ms Hok ltac:(lia) Hne Hms Hr) as (m' & -> & Hms').
  exists m'. cbn. by rewrite app_assoc.
Qed.

(** Reading a line does not go past the message. *)
Lemma char_reads_message r s r' x ms : char_reads r s r' -> at_message r (s ++ x) ms -> at_message r' x ms.
Proof using.
  induction 1 as [r|r r1 c b s r' Hok Hne Hpeek Hb Hrest IH]; [done|]. intros Hat. apply IH. clear IH Hrest.
  assert (at_message r1 (c :: s ++ x) ms) as (m & Hx & Hms).
  { unfold peek in Hpeek. destruct (buf r) eqn:E; [|by injection Hpeek as _ <-].
    destruct (fill_spec r Hok) as (r2 & Hfill & _). rewrite Hfill, bind_ret in Hpeek.
    destruct (buf r2) eqn:E2; [done|]. injection Hpeek as _ <-.
    eapply fill_message; [exact Hok|exact Hat| |exact Hfill]. rewrite E. simpl. lia. }
  rewrite Hb in Hx. injection Hx as Hx. exists m. done.
Qed.

Lemma read_direct_message fuel i c need m ms got e i' :
  reader_ok i -> (0 < c)%nat -> messages i = leave m ms -> (need <= length m)%nat ->
  read_direct fuel i c need = Ret (got, e, i') ->
  exists m', m = got ++ m' /\ messages i' = leave m' ms /\ reader_ok i' /\ (length got <= need)%nat.
Proof using.
  intros Hok Hc. revert i need m got Hok. induction fuel as [|fuel IH]; intros i need m got Hok Hms Hle; [done|]. cbn [read_direct].
  destruct (c <? need)%nat eqn:E; reflect_bools; [|intros [= <- _ <-]; exists m; split_and!; (done || simpl; lia)].
  destruct (rd_spec i c Hok) as (g & e1 & i1 & Hr & Hok1 & _ & Hl & _). rewrite Hr, bind_ret.
  assert (m <> []) as Hne by (destruct m; [simpl in Hle; lia|done]). rewrite leave_ne in Hms by done.
  destruct (rd_message i c g e1 i1 m ms Hok Hc Hne Hms Hr) as (m' & -> & Hms').
  destruct (failed e1); [intros [= <- _ <-]; exists m'; split_and!; (done || lia)|].
  intros Hrec. apply bind_Ret_inv in Hrec as ([[more e2] i2] & Hrec & [= <- <- <-]). rewrite length_app in Hle.
  destruct (IH i1 (need - length g)%nat m' more Hok1 Hms' ltac:(lia) Hrec) as (m2 & -> & Hms2 & Hok2 & Hl2).
  exists m2. rewrite app_assoc. split_and!; try done. rewrite length_app. lia.
Qed.

(** Nor does reading what the message still has. *)
Lemma read_message r n x ms got e r' :
  buffered_ok r -> at_message r x ms -> (n <= length x)%nat -> read r n = Ret (got, e, r') ->
  exists x', x = got ++ x' /\ at_message r' x' ms.
Proof using.
  intros (Hok & Hc & Hb) (m & -> & Hms) Hle. rewrite length_app in Hle. unfold read.
  destruct (n =? 0)%nat eqn:E0; reflect_bools; [intros [= <- _ <-]; exists (buf r ++ m); split; [done|by exists m]|].
  destruct (n <=? length (buf r))%nat eqn:E1; reflect_bools.
  { intros [= <- _ <-]. exists (drop n (buf r) ++ m). split; [by rewrite app_assoc, take_drop|by exists m]. }
  cbn [set_buf impl cap buf err]. intros Hr. apply bind_Ret_inv in Hr as ([[g e1] i] & Hd & Hr).
  destruct (read_direct_message (S n) (impl r) (cap r) (n - length (buf r)) m ms g e1 i Hok Hc Hms ltac:(lia) Hd) as (m' & -> & Hms' & Hok' & Hl).
  rewrite length_app in Hle. set (ri := {| impl := i; buf := []; cap := cap r; err := err r |}) in *.
  assert (at_message ri m' ms) as Hat by by exists m'.
  destruct (failed e1); [injection Hr as <- _ <-; exists m'; by rewrite app_assoc|].
  destruct (0 <? n - length (buf r ++ g))%nat eqn:E2; reflect_bools; [|injection Hr as <- _ <-; exists m'; by rewrite app_assoc].
  rewrite length_app in E2. apply bind_Ret_inv in Hr as (r1 & Hfill & Hr).
  destruct (fill_message ri m' ms r1) as (m2 & Hx & Hms2); [split_and!; cbn; (done || lia)|done|cbn; lia|done|].
  set (av := Nat.min _ _) in Hr. exists (drop av (buf r1) ++ m2).
  destruct (av <? _)%nat; injection Hr as <- _ <-;
    (split; [rewrite Hx, <- !app_assoc; do 2 f_equal; by rewrite app_assoc, take_drop|by exists m2]).
Qed.
End Position.

(** ** Bodies *)

Definition body_reader {R} (b : body R) : buffered_reader R :=
  match b with Http11.Chunked c => Chunked.parent c | Limited l => Io.parent l end.

Lemma body_of_reader {R} h (r : buffered_reader R) b : body_of h r = Ret b -> body_reader b = r.
Proof.
  unfold body_of. intros (c & _ & Hb)%bind_Ret_inv. destruct c; [by injection Hb as <-|].
  apply bind_Ret_inv in Hb as (n & _ & [= <-]). done.
Qed.

Lemma body_source_reader {R} (b : body R) : body_source b = impl (body_reader b).
Proof. by destruct b. Qed.

(** ** Turns *)

Section Session.
Context {R W : Type} `{Hm : MessageReader R} `{SinkWriter W} `{HW : !ReliableWriter W}.
Context (std_hash : list byte -> Z) (iterate : headers -> headers) (iterate_perm : forall h, iterate h ≡ₚ h).
Context (mx : Z) (rt : router (handler R)).

(** A request, what is sent after its headers, and the reply to it. *)
Record turn := {
  t_request : client_request; t_query : list (list byte * list (list byte)); t_payload : list byte;
  t_headers : headers; t_status : status; t_length : Z; t_data : list byte;
}.

Definition request_of (t : turn) : list byte :=
  request_text (t_request t) (t_query t) (iterate (creq_headers (t_request t))) ++ t_payload t.
Definition answer_of (t : turn) : list byte := answer_text iterate (t_request t) (t_headers t) (t_status t) (t_length t) (t_data t).

(** The request can be written and is routed to a handler, which reads the
    payload to its end and replies. *)
Record turn_ok (t : turn) : Prop := {
  t_request_ok : request_ok (t_request t) (t_query t) (iterate (creq_headers (t_request t)));
  t_version : major (request_version (creq_version (t_request t))) = 1;
  t_upgrade : no_upgrade (received_headers (iterate (creq_headers (t_request t))));
  t_size : header_size (iterate (creq_headers (t_request t))) < mx < 2 ^ 64;
  t_headers_ok : map_ok (t_headers t ++ [length_header (t_length t)]) /\ Forall header_ok (t_headers t ++ [length_header (t_length t)]);
  t_route : exists h, dispatch std_hash rt (creq_method (t_request t)) (path (creq_uri (t_request t))) = Ret (Handle h)
    /\ forall r b ms, buffered_ok r -> at_message r (t_payload t) ms ->
       body_of (received_headers (iterate (creq_headers (t_request t)))) r = Ret b ->
       exists rest, h (seen_request iterate (t_request t) b) = Ret {| reply_headers := t_headers t; reply_status := t_status t;
           reply_length := t_length t; reply_data := t_data t; reply_rest := rest |}
         /\ buffered_ok (body_reader rest) /\ at_message (body_reader rest) [] ms;
}.

(** One turn takes one message from the connection. *)
Lemma serve_turn_message fuel t (r : R) (w : W) ms :
  turn_ok t -> reader_ok r -> writer_ok w -> messages r = request_of t :: ms -> (length (stream r) < fuel)%nat ->
  exists r' w', serve_turn std_hash iterate fuel mx rt r w = Ret (Some r', w')
    /\ reader_ok r' /\ messages r' = ms /\ writer_ok w' /\ sink w' = sink w ++ answer_of t.
Proof using iterate_perm HW.
  intros [Hreq Hv Hup Hsize (Hmap & Ho) (h & Hroute & Hh)] Hr Hw Hms Hf.
  assert (stream r = request_text (t_request t) (t_query t) (iterate (creq_headers (t_request t))) ++ t_payload t ++ concat ms) as Hs.
  { rewrite messages_stream, Hms by done. cbn [concat]. unfold request_of. by rewrite <- app_assoc. }
  destruct (serve_turn_reads iterate std_hash iterate_perm fuel mx rt h (t_request t) (t_query t) (t_headers t) (t_status t) (t_length t)
    (t_data t) r w (t_payload t ++ concat ms)) as (r1 & b & Hc & Hok1 & Hb & Hturn); [done..|].
  assert (request_of t <> []) as Hne.
  { unfold request_of, request_text. intros Habs. apply (f_equal length) in Habs. rewrite !length_app in Habs. simpl in Habs. lia. }
  assert (at_message r1 (t_payload t) ms) as Hat.
  { eapply char_reads_message; [exact Hc|]. exists (request_of t). split; [done|]. by rewrite leave_ne. }
  destruct (Hh r1 b ms Hok1 Hat Hb) as (rest & Hrep & Hokr & Hend). destruct (Hturn rest Hrep) as (w' & -> & Hok' & Hs').
  exists (body_source rest), w'. rewrite body_source_reader. split_and!; try done; [apply Hokr|by apply at_message_end].
Qed.

(** At the end of the connection the loop ends. *)
Lemma serve_turn_end fuel (r : R) (w : W) :
  reader_ok r -> stream r = [] -> (0 < fuel)%nat -> serve_turn std_hash iterate fuel mx rt r w = Ret (None, w).
Proof using.
  intros Hr Hs Hf. unfold serve_turn, request_decode, parse_request_line.
  destruct (readline_at_end fuel (make r bufsize)) as (r' & -> & _); [split_and!; cbn; [done|unfold bufsize; lia|lia]|done|done|].
  rewrite bind_ret. cbn [request_line]. by rewrite !bind_ret.
Qed.
End Session.

(** ** A handler that reads its body *)

(** The bytes of a body of known length, read [n] at a time until it has ended. *)
Fixpoint drain {R} `{Reader R} (fuel n : nat) (l : limit_reader (buffered_reader R))
    : outcome (list byte * limit_reader (buffered_reader R)) :=
  match fuel with
  | O => OutOfFuel
  | S fuel =>
      if (limit l <=? progress l)%nat then Ret ([], l)
      else
        let* (got, _, l) := rd l n in
        let* (more, l) := drain fuel n l in
        Ret (got ++ more, l)
  end.

Lemma drain_message {R} `{Hm : MessageReader R} fuel n l x ms :
  buffered_ok (Io.parent l) -> at_message (Io.parent l) x ms -> (limit l - progress l)%nat = length x ->
  (0 < n)%nat -> (length x < fuel)%nat ->
  exists l', drain fuel n l = Ret (x, l') /\ buffered_ok (Io.parent l') /\ at_message (Io.parent l') [] ms.
Proof.
  intros Hok Hat Hl Hn Hf. revert l x Hok Hat Hl Hf. induction fuel as [|fuel IH]; intros l x Hok Hat Hl Hf; [lia|]. cbn [drain].
  destruct (limit l <=? progress l)%nat eqn:E; reflect_bools.
  { assert (x = []) as -> by (destruct x; [done|simpl in Hl; lia]). by exists l. }
  unfold rd at 1, limit_reader_Reader, limit_reader_read. rewrite (proj2 (Nat.leb_gt _ _)) by lia.
  pose proof (at_message_stream _ _ _ (proj1 Hok) Hat) as Hs.
  destruct (read_spec (Io.parent l) (Nat.min n (limit l - progress l)) Hok) as (got & e & r' & Hr & Hok' & _ & _ & Hlen & Hne).
  { right. rewrite Hs, length_app. lia. }
  destruct (read_message (Io.parent l) (Nat.min n (limit l - progress l)) x ms got e r' Hok Hat ltac:(lia) Hr) as (x' & -> & Hat').
  unfold rd, buffered_reader_Reader. rewrite Hr, !bind_ret. rewrite length_app in Hl, Hf.
  assert (0 < length got)%nat as Hg.
  { destruct got; [|simpl; lia]. destruct Hne; [lia| |done]. rewrite Hs. cbn [app length] in *. destruct x'; [simpl in Hl; lia|done]. }
  destruct (IH {| Io.parent := r'; limit := limit l; progress := (progress l + length got)%nat |} x') as (l' & -> & Hok2 & Hat2);
    cbn [Io.parent limit progress]; [done|done|lia|lia|]. rewrite bind_ret. by exists l'.
Qed.

(** *** The loop *)

(** Asking whether the connection is valid does not touch what is to be read. *)
Class ValidityLaws (R : Type) `{MessageReader R} `{Validity R} : Prop :=
  valid_keeps : forall r v r', reader_ok r -> conn_valid r = (v, r') -> reader_ok r' /\ messages r' = messages r.

Section Loop.
Context {R W : Type} `{Hm : MessageReader R} `{!Validity R} `{!ValidityLaws R} `{SinkWriter W} `{HW : !ReliableWriter W}.
Context (std_hash : list byte -> Z) (iterate : headers -> headers) (iterate_perm : forall h, iterate h ≡ₚ h).
Context (mx : Z) (rt : router (handler R)) (is_serving : nat -> bool).

(** The connection, when [ts] are still to come, is valid ([v]) or not. *)
Definition found (v : bool) (ts : list turn) : Prop :=
  exists r : R, reader_ok r /\ messages r = map (request_of iterate) ts /\ (conn_valid r).1 = v.

(** Of the turns [ts], from [first] on, [j] are answered: before each of them the
    server serves and the connection is valid, and then one of that fails or
    there are no more. *)
Definition answered (first : nat) (ts : list turn) (j : nat) : Prop :=
  (j <= length ts)%nat
  /\ (forall i, (i < j)%nat -> is_serving (first + i) = true /\ found true (drop i ts))
  /\ (j = length ts \/ is_serving (first + j) = false \/ found false (drop j ts)).

Lemma answered_none first ts : is_serving first = false \/ found false ts -> answered first ts 0.
Proof using.
  intros Hstop. split_and!; [lia|intros i Hi; lia|]. right. by rewrite Nat.add_0_r, drop_0.
Qed.

Lemma answered_more first t ts j :
  is_serving first = true -> found true (t :: ts) -> answered (S first) ts j -> answered first (t :: ts) (S j).
Proof using.
  intros Hs Hf (Hj & Hall & Hend). split_and!; [cbn; lia| |].
  - intros [|i] Hi; [by rewrite Nat.add_0_r|]. rewrite Nat.add_succ_r. apply (Hall i). lia.
  - rewrite Nat.add_succ_r. destruct Hend as [->|Hend]; [by left|by right].
Qed.

Lemma connection_loop_messages ts turns fuel first (r : R) (w : W) :
  Forall (turn_ok std_hash iterate mx rt) ts -> reader_ok r -> messages r = map (request_of iterate) ts -> writer_ok w ->
  (length ts < turns)%nat -> (length (stream r) < fuel)%nat ->
  exists j w', connection_loop std_hash iterate turns fuel is_serving first mx rt r w = Ret w'
    /\ answered first ts j /\ writer_ok w' /\ sink w' = sink w ++ concat (map (answer_of iterate) (take j ts)).
Proof using iterate_perm HW ValidityLaws0.
  intros Hts. revert turns first r w. induction Hts as [|t ts Ht Hts IH]; intros turns first r w Hr Hms Hw Hturns Hf;
    (destruct turns as [|turns]; [simpl in Hturns; lia|]); cbn [connection_loop].
  all: assert (forall v, (conn_valid r).1 = v -> found v _) as Hfound by (intros v Hv; exists r; split_and!; [done|exact Hms|done]).
  all: destruct (is_serving first) eqn:Es;
    [|exists 0%nat, w; split_and!; [done|apply answered_none; by left|done|by rewrite take_0, app_nil_r]].
  all: destruct (conn_valid r) as [v r1] eqn:Ev; destruct (valid_keeps r v r1 Hr Ev) as [Hr1 Hms1];
    destruct v; [|exists 0%nat, w; split_and!; [done|apply answered_none; right; by apply Hfound|done|by rewrite take_0, app_nil_r]].
  - rewrite serve_turn_end, bind_ret; [|done|by rewrite messages_stream, Hms1, Hms|lia].
    exists 0%nat, w. split_and!; [done| |done|by rewrite app_nil_r]. split_and!; [done|intros i Hi; lia|by left].
  - rewrite Hms in Hms1. cbn [map] in Hms1.
    destruct (serve_turn_message std_hash iterate iterate_perm mx rt fuel t r1 w _ Ht Hr1 Hw Hms1) as (r2 & w1 & -> & Hr2 & Hms2 & Hw1 & Hs1).
    { rewrite messages_stream, Hms1 by done. by rewrite messages_stream, Hms in Hf. }
    rewrite bind_ret. destruct (IH turns (S first) r2 w1 Hr2 Hms2 Hw1) as (j & w2 & -> & Hj & Hw2 & Hs2); [simpl in Hturns; lia| |].
    { rewrite messages_stream, Hms2 by done. rewrite messages_stream, Hms in Hf by done. cbn [map concat] in Hf. rewrite length_app in Hf. lia. }
    exists (S j), w2. split_and!; [done|apply answered_more; [done|by apply Hfound|done]|done|]. cbn [take map concat]. by rewrite Hs2, Hs1, <- app_assoc.
Qed.
End Loop.

(** While the server serves and the connection is valid, all are answered. *)
Lemma serve_connection_messages {R W} `{Hm : MessageReader R} `{!Validity R} `{!ValidityLaws R} `{SinkWriter W} `{!ReliableWriter W}
    std_hash (iterate : headers -> headers) mx (rt : router (handler R)) (ts : list turn) turns fuel (r : R) (w : W) :
  (forall h, iterate h ≡ₚ h) -> Forall (turn_ok std_hash iterate mx rt) ts -> (forall r : R, reader_ok r -> (conn_valid r).1 = true) ->
  reader_ok r -> messages r = map (request_of iterate) ts -> writer_ok w ->
  (length ts < turns)%nat -> (length (stream r) < fuel)%nat ->
  exists w', serve_connection std_hash iterate turns fuel (fun _ => true) mx rt r w = Ret (Closing w')
    /\ writer_ok w' /\ sink w' = sink w ++ concat (map (answer_of iterate) ts).
Proof.
  intros Hperm Hts Hv Hr Hms Hw Ht Hf. unfold serve_connection.
  destruct (connection_loop_messages std_hash iterate Hperm mx rt (fun _ => true) ts turns fuel 0 r w) as (j & w' & -> & (_ & _ & Hend) & Hw' & Hs); [done..|].
  exists w'. destruct Hend as [->|[?|(r' & Hr' & _ & Hf')]]; [|done|by rewrite (Hv r' Hr') in Hf']. by rewrite firstn_all in Hs.
Qed.

(** ** Property *)

(** C2: a session: on a connection whose peer sends each request after the
    answer to the one before it, closing after the last, the service of the
    connection returns without an exception, having written exactly the answers
    of the handlers to the first [j] requests, in their order, whatever the sizes
    in which the connection delivers its bytes; requests may have payloads,
    which their handlers read.  Before each of these turns the server is serving
    and the connection valid; requests are left unanswered only if one of the
    two is found false at the turn that would answer the next one. *)
Theorem http_session {R W} `{Hm : MessageReader R} `{!Validity R} `{!ValidityLaws R} `{SinkWriter W} `{!ReliableWriter W}
    std_hash (iterate : headers -> headers) is_serving mx (rt : router (handler R)) (ts : list turn) turns fuel (r : R) (w : W) :
  (forall h, iterate h ≡ₚ h) -> Forall (turn_ok std_hash iterate mx rt) ts ->
  reader_ok r -> messages r = map (request_of iterate) ts -> writer_ok w ->
  (length ts < turns)%nat -> (length (stream r) < fuel)%nat ->
  exists j w', serve_connection std_hash iterate turns fuel is_serving mx rt r w = Ret (Closing w')
    /\ (j <= length ts)%nat /\ sink w' = sink w ++ concat (map (answer_of iterate) (take j ts)) /\ writer_ok w'
    /\ (forall i, (i < j)%nat -> is_serving i = true /\ found (R := R) iterate true (drop i ts))
    /\ (j = length ts \/ is_serving j = false \/ found (R := R) iterate false (drop j ts)).
Proof.
  intros Hperm Hts Hr Hms Hw Ht Hf. unfold serve_connection.
  destruct (connection_loop_messages std_hash iterate Hperm mx rt is_serving ts turns fuel 0 r w) as (j & w' & -> & (Hj & Hall & Hend) & Hw' & Hs); [done..|].
  by exists j, w'.
Qed.

(** *** An example *)

(** A connection that receives messages, and then its end. *)
Definition inbox := list (list byte).
Definition inbox_read (r : inbox) (n : nat) : outcome (list byte * error_condition * inbox) :=
  match r with
  | [] => Ret ([], make_error_condition closed, [])
  | m :: ms => Ret (take n m, no_error, leave (drop n m) ms)
  end.
#[global] Instance inbox_Reader : Reader inbox := inbox_read.

Lemma concat_leave m ms : concat (leave m ms) = m ++ concat ms.
Proof. by destruct m. Qed.

Lemma leave_Forall m ms : Forall (fun m => m <> []) ms -> Forall (fun m : list byte => m <> []) (leave m ms).
Proof. destruct m; [done|]. by constructor. Qed.

#[global] Instance inbox_stream : StreamReader inbox.
Proof.
  refine {| stream := @concat byte; reader_ok := Forall (fun m => m <> []) |}.
  intros [|m ms] n Hok; unfold rd, inbox_Reader, inbox_read; [by exists [], (make_error_condition closed), []; split_and!; simpl; (done || lia)|].
  apply Forall_cons in Hok as [Hm Hms]. do 3 eexists. split; [done|]. rewrite concat_leave, app_assoc, take_drop.
  split_and!; [by apply leave_Forall|done|rewrite length_take; lia|]. intros Hn _. by destruct m, n; try lia.
Defined.

#[global] Instance inbox_messages : MessageReader inbox.
Proof.
  refine {| messages := fun r => r |}; [done|].
  intros r n got e r' m ms _ _ _ -> [= <- _ <-]. exists (drop n m). by rewrite take_drop.
Defined.

#[global] Instance inbox_Validity : Validity inbox := fun r => (true, r).

#[global] Instance inbox_validity : ValidityLaws inbox.
Proof. by intros r v r' Hr [= _ <-]. Qed.

(** Two routes: one that does not read, one that answers with what it is sent. *)
Definition echo {R} `{Reader R} : handler R := fun req =>
  match req_body req with
  | Limited l =>
      let* (data, l) := drain (S (limit l - progress l)) 2 l in
      Ret {| reply_headers := [(lit "Server", [lit "cppnet"])]; reply_status := STATUS_OK; reply_length := Z.of_nat (length data);
             reply_data := data; reply_rest := Limited l |}
  | b => Ret {| reply_headers := []; reply_status := STATUS_OK; reply_length := 0; reply_data := []; reply_rest := b |}
  end.

Definition session_router {R} `{Reader R} : router (handler R) :=
  match add (fun _ => 0) hello_router POST (lit "/c") echo with Ret (r, None) => r | _ => empty_router end.

Definition post_request : client_request :=
  {| creq_method := POST; creq_version := creq_version sample_request; creq_uri := creq_uri sample_request;
     creq_headers := sample_headers ++ [length_header 5] |}.

Definition get_turn : turn := {| t_request := sample_request; t_query := []; t_payload := [];
  t_headers := [(lit "Server", [lit "cppnet"])]; t_status := STATUS_OK; t_length := 5; t_data := lit "hello" |}.
Definition post_turn : turn := {| t_request := post_request; t_query := []; t_payload := lit "abcde";
  t_headers := [(lit "Server", [lit "cppnet"])]; t_status := STATUS_OK; t_length := 5; t_data := lit "abcde" |}.

Lemma get_turn_ok {R} `{Hm : MessageReader R} : turn_ok (fun _ => 0) id 1000 (session_router (R := R)) get_turn.
Proof.
  constructor; cbn [get_turn t_request t_query t_headers t_status t_length t_data t_payload id].
  - apply sample_request_ok.
  - reflexivity.
  - intros vals Hv. vm_compute in Hv. discriminate Hv.
  - vm_compute. split; reflexivity.
  - apply hello_headers_ok.
  - exists hello. split; [vm_compute; reflexivity|]. intros r b ms Hok Hat Hb. exists b. apply body_of_reader in Hb as ->. done.
Qed.

Lemma post_request_ok : request_ok post_request [] (sample_headers ++ [length_header 5]).
Proof.
  destruct sample_request_ok as [_ Hu Ht Hv (_ & _ & Ho)]. constructor; [discriminate|exact Hu|exact Ht|exact Hv|]. split_and!.
  - constructor; [apply (bool_decide_unpack _); vm_compute; exact I|].
    repeat (apply Forall_cons; split; [by apply name_valid, valid_literal|]). apply Forall_nil_2.
  - done.
  - apply Forall_app. split; [exact Ho|]. constructor; [by apply length_header_ok|done].
Qed.

Lemma post_turn_ok {R} `{Hm : MessageReader R} : turn_ok (fun _ => 0) id 1000 (session_router (R := R)) post_turn.
Proof.
  constructor; cbn [post_turn t_request t_query t_headers t_status t_length t_data t_payload id].
  - apply post_request_ok.
  - reflexivity.
  - intros vals Hv. vm_compute in Hv. discriminate Hv.
  - vm_compute. split; reflexivity.
  - apply hello_headers_ok.
  - exists echo. split; [vm_compute; reflexivity|]. intros r b ms Hok Hat Hb.
    assert (b = Limited {| Io.parent := r; limit := 5; progress := 0 |}) as -> by (vm_compute in Hb; by injection Hb as <-).
    unfold echo. cbn [req_body seen_request limit progress Nat.sub].
    destruct (drain_message 6 2 {| Io.parent := r; limit := 5; progress := 0 |} (lit "abcde") ms) as (l & -> & Hokl & Hend);
      [done|done|done|lia|simpl; lia|]. rewrite bind_ret. exists (Limited l). split; [reflexivity|]. split; [exact Hokl|exact Hend].
Qed.

Lemma http_session_witness :
  exists w', serve_connection (fun _ => 0) id 4 400 (fun t => (t <? 2)%nat) 1000 session_router
      (map (request_of id) [get_turn; post_turn; get_turn] : inbox) string_writer_empty = Ret (Closing w')
    /\ sink w' = sink string_writer_empty ++ concat (map (answer_of id) [get_turn; post_turn]).
Proof.
  destruct (http_session (R := inbox) (W := string_writer) (fun _ => 0) id (fun t => (t <? 2)%nat) 1000 session_router [get_turn; post_turn; get_turn] 4 400
    (map (request_of id) [get_turn; post_turn; get_turn]) string_writer_empty) as (j & w' & E & Hj & Hs & _ & Hall & Hend).
  - done.
  - do 3 (apply Forall_cons_2; [first [apply get_turn_ok|apply post_turn_ok]|]). apply Forall_nil_2.
  - repeat constructor; discriminate.
  - reflexivity.
  - exact I.
  - simpl. lia.
  - apply (bool_decide_unpack _). vm_compute. exact I.
  - exists w'. split; [exact E|]. assert (j = 2%nat) as ->; [|exact Hs].
    destruct j as [|[|[|j]]]; [| |done|].
    + destruct Hend as [Hl|[Hl|(x & _ & _ & Hl)]]; discriminate Hl.
    + destruct Hend as [Hl|[Hl|(x & _ & _ & Hl)]]; discriminate Hl.
    + destruct (Hall 2%nat) as [Hl _]; [lia|discriminate Hl].
Defined.
