(* ===== verification/IpAddr.v ===== *)
(** * Addresses (include/ipv4_addr.hpp, include/ipv6_addr.hpp,
    include/ip_addr.hpp, src/ipv4_addr.cpp, src/ipv6_addr.cpp, src/ip_addr.cpp)

    An address is its [data] array, a list of bytes whose length is the type
    invariant ([ipv4_ok], [ipv6_ok]).  The printers write into a fixed buffer
    and the parsers through a pointer that walks backwards over the array: both
    are modelled with the position, and an access outside is undefined.  The
    pointer one before the array, which the parsers form after the last part
    and do not use, is allowed.

    The conversion to [const std::uint8_t*] exposes [data] itself and has no
    model of its own. *)

From Stdlib Require Import ZArith Lia Strings.Byte Strings.String.
From stdpp Require Import prelude list strings.
From S2P Require Import Prelude CxxStrings StringUtil.

(** ** Definitions *)

(** [data[i]] of a [std::array], inside its bounds. *)
Definition array_at (data : list byte) (i : nat) : Z := byte_val (default x00 (data !! i)).

(** *** Parsing *)

(** The loop of both parsers over the parts: [it] walks from the last element
    of [values] towards the first. *)
Fixpoint parse_parts (base bits : Z) (parts : list (list byte)) (values : list Z) (it : Z)
    : outcome (option (list Z)) :=
  match parts with
  | [] => Ret (Some values)
  | part :: parts =>
      if (0 <=? it) && (it <? Z.of_nat (length values)) then
        match fc_value (from_chars base bits part) with
        | Some v => parse_parts base bits parts (<[Z.to_nat it := v]> values) (it - 1)
        | None => Ret None
        end
      else Undef
  end.

(** *** Printing into a buffer of [cap] characters *)

(** [std::to_chars(end, end + room, n, base)]; the contents are unspecified if
    the number does not fit, and [end + room] must lie in the buffer. *)
Definition put_chars (cap room : nat) (base n : Z) (buf : list byte) : outcome (list byte) :=
  if (length buf + room <=? cap)%nat then
    match to_chars_n room base n with
    | Some s => Ret (buf ++ s)
    | None => Undef
    end
  else Undef.

(** [*end++ = c] *)
Definition put_char (cap : nat) (c : byte) (buf : list byte) : outcome (list byte) :=
  if (length buf <? cap)%nat then Ret (buf ++ [c]) else Undef.

(** *** IPv4 *)

Record ipv4_addr := { data4 : list byte }.

Definition ipv4_of_u32 (addr : Z) : ipv4_addr :=
  {| data4 := [byte_of_Z (Z.shiftr addr 24); byte_of_Z (Z.shiftr addr 16);
               byte_of_Z (Z.shiftr addr 8); byte_of_Z (Z.shiftr addr 0)] |}.

Definition ipv4_of_array (parts : list byte) : ipv4_addr := {| data4 := parts |}.

Definition ipv4_of_bytes (b0 b1 b2 b3 : byte) : ipv4_addr := {| data4 := [b0; b1; b2; b3] |}.

Definition ipv4_loopback : ipv4_addr :=
  ipv4_of_bytes (byte_of_Z 127) (byte_of_Z 0) (byte_of_Z 0) (byte_of_Z 1).

Definition ipv4_to_u32 (a : ipv4_addr) : Z :=
  Z.lor (Z.lor (Z.lor (u32 (Z.shiftl (array_at (data4 a) 0) 24)) (u32 (Z.shiftl (array_at (data4 a) 1) 16)))
               (u32 (Z.shiftl (array_at (data4 a) 2) 8)))
        (u32 (Z.shiftl (array_at (data4 a) 3) 0)).

Definition ipv4_is_loopback (a : ipv4_addr) : bool := array_at (data4 a) 0 =? 127.

Definition ipv4_is_private_network (a : ipv4_addr) : bool :=
  (array_at (data4 a) 0 =? 10)
  || ((array_at (data4 a) 0 =? 172) && (Z.land (array_at (data4 a) 1) 240 =? 16))
  || ((array_at (data4 a) 0 =? 192) && (array_at (data4 a) 2 =? 168)).

(** The loop of [operator<=>], for both address types. *)
Fixpoint compare_data (lhs rhs : list byte) : comparison :=
  match lhs, rhs with
  | x :: lhs, y :: rhs =>
      match byte_val x ?= byte_val y with
      | Eq => compare_data lhs rhs
      | c => c
      end
  | _, _ => Eq
  end.

Definition ipv4_compare (lhs rhs : ipv4_addr) : comparison := compare_data (data4 lhs) (data4 rhs).

Definition ipv4_equal (lhs rhs : ipv4_addr) : bool := bytes_eqb (data4 lhs) (data4 rhs).

Definition ipv4_parse (str : list byte) : outcome (option ipv4_addr) :=
  noexcept (
    let* parts := split_string str "."%byte 0 in
    let* values := parse_parts 10 8 parts (replicate 4 0) 3 in
    Ret (option_map (fun vs => ipv4_of_array (map byte_of_Z vs)) values)).

(** [for (auto i = data.size() - 1; i > 0; --i)] *)
Fixpoint ipv4_print_loop (i : nat) (data : list byte) (buf : list byte) : outcome (list byte) :=
  match i with
  | O => Ret buf
  | S i' =>
      let* buf := put_chars 15 3 10 (array_at data i) buf in
      let* buf := put_char 15 "."%byte buf in
      ipv4_print_loop i' data buf
  end.

Definition ipv4_to_string (a : ipv4_addr) : outcome (list byte) :=
  let* buf := ipv4_print_loop 3 (data4 a) [] in
  put_chars 15 3 10 (array_at (data4 a) 0) buf.

(** *** IPv6 *)

Record ipv6_addr := { data6 : list byte }.

(** The eight bytes of a 64-bit word, and the two of a 16-bit one, as the
    initializers narrow them. *)
Definition bytes_of_u64 (w : Z) : list byte :=
  [byte_of_Z (Z.shiftr w 56); byte_of_Z (Z.shiftr w 48); byte_of_Z (Z.shiftr w 40); byte_of_Z (Z.shiftr w 32);
   byte_of_Z (Z.shiftr w 24); byte_of_Z (Z.shiftr w 16); byte_of_Z (Z.shiftr w 8); byte_of_Z (Z.shiftr w 0)].

Definition bytes_of_u16 (p : Z) : list byte := [byte_of_Z (Z.shiftr p 8); byte_of_Z (Z.shiftr p 0)].

Definition ipv6_of_words (subnet interface : Z) : ipv6_addr :=
  {| data6 := bytes_of_u64 subnet ++ bytes_of_u64 interface |}.

Definition ipv6_of_u16_array (parts : list Z) : ipv6_addr := {| data6 := concat (map bytes_of_u16 parts) |}.

Definition ipv6_of_array (parts : list byte) : ipv6_addr := {| data6 := parts |}.

Definition ipv6_of_c_array (parts : list byte) : ipv6_addr :=
  {| data6 := map (fun i => default x00 (parts !! i)) (seq 0 16) |}.

Definition ipv6_of_u16 (p0 p1 p2 p3 p4 p5 p6 p7 : Z) : ipv6_addr :=
  {| data6 := bytes_of_u16 p0 ++ bytes_of_u16 p1 ++ bytes_of_u16 p2 ++ bytes_of_u16 p3
           ++ bytes_of_u16 p4 ++ bytes_of_u16 p5 ++ bytes_of_u16 p6 ++ bytes_of_u16 p7 |}.

Definition ipv6_of_u8 (p0 p1 p2 p3 p4 p5 p6 p7 p8 p9 p10 p11 p12 p13 p14 p15 : byte) : ipv6_addr :=
  {| data6 := [p0; p1; p2; p3; p4; p5; p6; p7; p8; p9; p10; p11; p12; p13; p14; p15] |}.

Definition ipv6_loopback : ipv6_addr := ipv6_of_u16 0 0 0 0 0 0 0 1.

(** [data[k] << 56 | ... | data[k + 7] << 0] *)
Definition word_at (data : list byte) (k : nat) : Z :=
  let byte_at i s := u64 (Z.shiftl (array_at data (k + i)) s) in
  Z.lor (Z.lor (Z.lor (Z.lor (Z.lor (Z.lor (Z.lor
    (byte_at 0%nat 56) (byte_at 1%nat 48)) (byte_at 2%nat 40)) (byte_at 3%nat 32))
    (byte_at 4%nat 24)) (byte_at 5%nat 16)) (byte_at 6%nat 8)) (byte_at 7%nat 0).

Definition subnet_prefix (a : ipv6_addr) : Z := word_at (data6 a) 0.
Definition interface_identifier (a : ipv6_addr) : Z := word_at (data6 a) 8.

Definition is_zero_byte (b : byte) : bool := byte_val b =? 0.

Definition ipv6_is_loopback (a : ipv6_addr) : bool :=
  (byte_val (default x00 (last (data6 a))) =? 1) && forallb is_zero_byte (take (length (data6 a) - 1) (data6 a)).

Definition is_unique_local (a : ipv6_addr) : bool := Z.land (array_at (data6 a) 0) 252 =? 252.

Definition is_link_local (a : ipv6_addr) : bool :=
  (array_at (data6 a) 0 =? 254) && (array_at (data6 a) 1 =? 128)
  && forallb is_zero_byte (take (length (data6 a) - 8 - 2) (drop 2 (data6 a))).

Definition is_multicast (a : ipv6_addr) : bool := array_at (data6 a) 0 =? 255.

Definition ipv6_compare (lhs rhs : ipv6_addr) : comparison := compare_data (data6 lhs) (data6 rhs).

Definition ipv6_equal (lhs rhs : ipv6_addr) : bool := bytes_eqb (data6 lhs) (data6 rhs).

Definition ipv6_parse (str : list byte) : outcome (option ipv6_addr) :=
  noexcept (
    let* parts := split_string str ":"%byte 0 in
    let* values := parse_parts 16 16 parts (replicate 8 0) 7 in
    Ret (option_map ipv6_of_u16_array values)).

(** [data[i] | data[i - 1] << 8], an [int] *)
Definition hexit (data : list byte) (i : nat) : Z :=
  Z.lor (array_at data i) (Z.shiftl (array_at data (i - 1)) 8).

(** [for (auto i = data.size() - 1; i > 1; i -= 2)], at [i = 2 * k + 1]. *)
Fixpoint ipv6_print_loop (k : nat) (data : list byte) (buf : list byte) : outcome (list byte) :=
  match k with
  | O => Ret buf
  | S k' =>
      let* buf := put_chars 39 4 16 (hexit data (2 * k + 1)) buf in
      let* buf := put_char 39 ":"%byte buf in
      ipv6_print_loop k' data buf
  end.

Definition ipv6_to_string (a : ipv6_addr) : outcome (list byte) :=
  let* buf := ipv6_print_loop 7 (data6 a) [] in
  put_chars 39 4 16 (hexit (data6 a) 1) buf.

(** *** Either *)

Inductive ip_addr := ip_v4 (addr : ipv4_addr) | ip_v6 (addr : ipv6_addr).

Definition is_ipv4 (a : ip_addr) : bool := match a with ip_v4 _ => true | _ => false end.
Definition is_ipv6 (a : ip_addr) : bool := match a with ip_v6 _ => true | _ => false end.

Definition to_ipv4 (a : ip_addr) : outcome ipv4_addr :=
  match a with ip_v4 v => Ret v | _ => Throw bad_variant_access end.
Definition to_ipv6 (a : ip_addr) : outcome ipv6_addr :=
  match a with ip_v6 v => Ret v | _ => Throw bad_variant_access end.

Definition ip_to_string (a : ip_addr) : outcome (list byte) :=
  match a with
  | ip_v4 v => ipv4_to_string v
  | ip_v6 v => ipv6_to_string v
  end.

(** [operator<=>]: [None] is [std::partial_ordering::unordered]. *)
Definition ip_compare (lhs rhs : ip_addr) : option comparison :=
  match lhs, rhs with
  | ip_v4 l, ip_v4 r => Some (ipv4_compare l r)
  | ip_v6 l, ip_v6 r => Some (ipv6_compare l r)
  | _, _ => None
  end.

Definition ip_equal (lhs rhs : ip_addr) : bool :=
  match lhs, rhs with
  | ip_v4 l, ip_v4 r => ipv4_equal l r
  | ip_v6 l, ip_v6 r => ipv6_equal l r
  | _, _ => false
  end.

Definition parse_ipv4_branch (str : list byte) : outcome (option ip_addr) :=
  match sv_find str "."%byte 0 with
  | Some _ =>
      let* r := ipv4_parse str in
      match r with Some v => Ret (Some (ip_v4 v)) | None => Ret None end
  | None => Ret None
  end.

Definition ip_parse (str : list byte) : outcome (option ip_addr) :=
  match sv_find str ":"%byte 0 with
  | Some _ =>
      let* r := ipv6_parse str in
      match r with Some v => Ret (Some (ip_v6 v)) | None => parse_ipv4_branch str end
  | None => parse_ipv4_branch str
  end.

Definition ipv4_ok (a : ipv4_addr) : Prop := length (data4 a) = 4%nat.
Definition ipv6_ok (a : ipv6_addr) : Prop := length (data6 a) = 16%nat.
Definition ip_ok (a : ip_addr) : Prop :=
  match a with ip_v4 v => ipv4_ok v | ip_v6 v => ipv6_ok v end.

(** ** Printing *)

Lemma array_at_range data i : 0 <= array_at data i < 256.
Proof. apply byte_val_range. Qed.

Lemma put_chars_fits cap room base n buf :
  2 <= base -> 0 <= n < base ^ Z.of_nat (S room) -> (length buf + S room <= cap)%nat ->
  put_chars cap (S room) base n buf = Ret (buf ++ to_chars base n).
Proof.
  intros Hb Hn Hl. unfold put_chars, to_chars_n. pose proof (to_chars_bound base n room Hb Hn).
  by rewrite (proj2 (Nat.leb_le _ _) Hl), (proj2 (Nat.leb_le (length (to_chars base n)) (S room))) by lia.
Qed.

Lemma put_char_fits cap c buf : (length buf < cap)%nat -> put_char cap c buf = Ret (buf ++ [c]).
Proof. intros H. unfold put_char. by apply Nat.ltb_lt in H as ->. Qed.

(** A part with its separator. *)
Definition part_text (base : Z) (sep : byte) (n : Z) : list byte := to_chars base n ++ [sep].

Lemma join_parts base sep ns n :
  join [sep] (map (to_chars base) (ns ++ [n])) = concat (map (part_text base sep) ns) ++ to_chars base n.
Proof.
  induction ns as [|m ns IH]; [reflexivity|]. rewrite map_cons, <- app_comm_cons, !map_cons, join_cons.
  - rewrite IH. unfold part_text at 2. cbn [concat]. by rewrite <- !app_assoc.
  - rewrite map_app. by destruct ns.
Qed.

Lemma ipv4_print_loop_spec i data buf :
  (length buf + 4 * i + 3 <= 15)%nat ->
  ipv4_print_loop i data buf
  = Ret (buf ++ concat (map (part_text 10 "."%byte) (map (array_at data) (rev (seq 1 i))))).
Proof.
  revert buf. induction i as [|i IH]; intros buf Hl; [by rewrite app_nil_r|].
  pose proof (array_at_range data (S i)) as Hr. pose proof (to_chars_bound 10 (array_at data (S i)) 2 ltac:(lia) ltac:(lia)).
  cbn [ipv4_print_loop]. rewrite put_chars_fits, bind_ret, put_char_fits, bind_ret by solve_length.
  rewrite IH by solve_length. rewrite seq_S, rev_app_distr, !map_app. cbn. by rewrite <- !app_assoc.
Qed.

Lemma hexit_range data i : 0 <= hexit data i < 65536.
Proof.
  unfold hexit. pose proof (array_at_range data i). pose proof (array_at_range data (i - 1)).
  rewrite Z.lor_comm, lor_shiftl_add by lia. lia.
Qed.

Lemma ipv6_print_loop_spec k data buf :
  (length buf + 5 * k + 4 <= 39)%nat ->
  ipv6_print_loop k data buf
  = Ret (buf ++ concat (map (part_text 16 ":"%byte) (map (fun k => hexit data (2 * k + 1)) (rev (seq 1 k))))).
Proof.
  revert buf. induction k as [|k IH]; intros buf Hl; [by rewrite app_nil_r|].
  pose proof (hexit_range data (2 * S k + 1)) as Hr.
  pose proof (to_chars_bound 16 (hexit data (2 * S k + 1)) 3 ltac:(lia) ltac:(lia)).
  cbn [ipv6_print_loop]. rewrite put_chars_fits, bind_ret, put_char_fits, bind_ret by solve_length.
  rewrite IH by solve_length. rewrite seq_S, rev_app_distr, !map_app. cbn. by rewrite <- !app_assoc.
Qed.

Lemma concat_parts_length base sep ns k :
  2 <= base -> Forall (fun n => 0 <= n < base ^ Z.of_nat (S k)) ns ->
  (length (concat (map (part_text base sep) ns)) <= (k + 2) * length ns)%nat.
Proof.
  intros Hb Hns. induction Hns as [|n ns Hn Hns IH]; [simpl; lia|].
  cbn [map concat length]. rewrite length_app. unfold part_text at 1. rewrite length_app. cbn [length].
  pose proof (to_chars_bound base n k Hb Hn). lia.
Qed.

Lemma ipv4_to_string_spec a :
  ipv4_to_string a = Ret (join ["."%byte] (map (to_chars 10) (map (array_at (data4 a)) [3; 2; 1; 0]%nat))).
Proof.
  unfold ipv4_to_string. rewrite ipv4_print_loop_spec by (simpl; lia). rewrite bind_ret.
  change (map (array_at (data4 a)) [3; 2; 1; 0]%nat) with (map (array_at (data4 a)) (rev (seq 1 3)) ++ [array_at (data4 a) 0]).
  rewrite join_parts. set (ns := map (array_at (data4 a)) (rev (seq 1 3))).
  assert (Forall (fun n => 0 <= n < 10 ^ Z.of_nat 3) ns) as Hns.
  { apply Forall_map, Forall_forall. intros i _. pose proof (array_at_range (data4 a) i). simpl. lia. }
  pose proof (concat_parts_length 10 "."%byte ns 2 ltac:(lia) Hns) as Hl. change (length ns) with 3%nat in Hl.
  pose proof (array_at_range (data4 a) 0). apply put_chars_fits; [lia|lia|simpl app; lia].
Qed.

Lemma ipv6_to_string_spec a :
  ipv6_to_string a
  = Ret (join [":"%byte] (map (to_chars 16) (map (hexit (data6 a)) [15; 13; 11; 9; 7; 5; 3; 1]%nat))).
Proof.
  unfold ipv6_to_string. rewrite ipv6_print_loop_spec by (simpl; lia). rewrite bind_ret.
  change (map (hexit (data6 a)) [15; 13; 11; 9; 7; 5; 3; 1]%nat)
    with (map (fun k => hexit (data6 a) (2 * k + 1)) (rev (seq 1 7)) ++ [hexit (data6 a) 1]).
  rewrite join_parts. set (ns := map _ (rev (seq 1 7))).
  assert (Forall (fun n => 0 <= n < 16 ^ Z.of_nat 4) ns) as Hns.
  { apply Forall_map, Forall_forall. intros i _. pose proof (hexit_range (data6 a) (2 * i + 1)). simpl in *. lia. }
  pose proof (concat_parts_length 16 ":"%byte ns 3 ltac:(lia) Hns) as Hl. change (length ns) with 7%nat in Hl.
  pose proof (hexit_range (data6 a) 1). apply put_chars_fits; [lia|lia|simpl app; lia].
Qed.

(** ** Parsing *)

(** What the parsers make of a list of fields: the last array element comes
    from the first field, and only a prefix of each field is read. *)
Fixpoint read_fields (base bits : Z) (fields : list (list byte)) : option (list Z) :=
  match fields with
  | [] => Some []
  | f :: fields =>
      match fc_value (from_chars base bits f), read_fields base bits fields with
      | Some v, Some vs => Some (v :: vs)
      | _, _ => None
      end
  end.

Lemma read_fields_length base bits fields vs : read_fields base bits fields = Some vs -> length vs = length fields.
Proof.
  revert vs. induction fields as [|f fields IH]; intros vs; cbn [read_fields]; [by intros [= <-]|].
  repeat case_match; intros [= <-]. simpl. by rewrite (IH _ eq_refl).
Qed.

(** The loop, with [k] elements of the array still to fill. *)
Lemma parse_parts_spec base bits fields lo hi :
  (length fields <= length lo)%nat ->
  parse_parts base bits fields (lo ++ hi) (Z.of_nat (length lo) - 1)
  = Ret (option_map (fun vs => take (length lo - length fields) lo ++ rev vs ++ hi) (read_fields base bits fields)).
Proof.
  revert lo hi. induction fields as [|f fields IH]; intros lo hi Hl.
  - cbn. by rewrite Nat.sub_0_r, firstn_all.
  - destruct lo as [|x lo _] using rev_ind; [simpl in Hl; lia|]. rewrite length_app in *. cbn [length parse_parts read_fields] in *.
    rewrite (proj2 (Z.leb_le _ _)), (proj2 (Z.ltb_lt _ _)) by solve_length. cbn [andb].
    destruct (fc_value (from_chars base bits f)) as [v|]; [|done].
    replace (Z.to_nat (Z.of_nat (length lo + 1) - 1)) with (length lo) by lia.
    rewrite <- app_assoc. cbn [app]. rewrite insert_app_r_alt, Nat.sub_diag by lia. cbn [insert list_insert].
    replace (Z.of_nat (length lo + 1) - 1 - 1) with (Z.of_nat (length lo) - 1) by lia.
    change (lo ++ v :: hi) with (lo ++ ([v] ++ hi)). rewrite (IH lo) by lia.
    destruct (read_fields base bits fields) as [vs|]; [|done]. cbn. f_equal. f_equal.
    rewrite take_app_le by lia. rewrite <- !app_assoc.
    by replace (length lo + 1 - S (length fields))%nat with (length lo - length fields)%nat by lia.
Qed.

(** One field too many, after fields that are numbers: a write before the array. *)
Lemma parse_parts_overrun base bits fields f rest values it :
  it = Z.of_nat (length fields) - 1 -> it < Z.of_nat (length values) ->
  is_Some (read_fields base bits fields) ->
  parse_parts base bits (fields ++ f :: rest) values it = Undef.
Proof.
  revert values it. induction fields as [|g fields IH]; intros values it -> Hl Hs; [done|].
  cbn [app parse_parts]. cbn [length] in *. rewrite (proj2 (Z.leb_le _ _)), (proj2 (Z.ltb_lt _ _)) by lia. cbn [andb].
  cbn [read_fields] in Hs. destruct (fc_value (from_chars base bits g)) as [v|]; [|by destruct Hs].
  apply IH; [lia|rewrite length_insert; lia|]. destruct (read_fields base bits fields); [eauto|by destruct Hs].
Qed.

Lemma read_fields_printed base bits ns :
  2 <= base <= 36 -> Forall (fun n => 0 <= n < 2 ^ bits) ns ->
  read_fields base bits (map (to_chars base) ns) = Some ns.
Proof.
  intros Hb Hns. induction Hns as [|n ns Hn Hns IH]; [done|]. cbn [map read_fields]. rewrite IH.
  rewrite <- (app_nil_r (to_chars base n)), from_chars_to_chars; done.
Qed.

(** The separators are not digits. *)
Lemma digit_not_sep sep d : byte_val sep < 48 \/ 57 < byte_val sep < 97 -> 0 <= d < 36 -> negb (byte_eqb (digit_char d) sep) = true.
Proof.
  intros Hs Hd. apply negb_true_iff, byte_eqb_neq. intros <-. unfold digit_char in Hs. rewrite byte_val_of_Z in Hs.
  destruct (d <? 10) eqn:E; reflect_bools; rewrite Z.mod_small in Hs by lia; lia.
Qed.

Lemma printed_avoids base sep n :
  2 <= base <= 36 -> 0 <= n -> byte_val sep < 48 \/ 57 < byte_val sep < 97 -> Forall (fun c => c <> sep) (to_chars base n).
Proof.
  intros Hb Hn Hs. eapply Forall_impl;
    [apply (to_chars_Forall base n (fun c => negb (byte_eqb c sep))); [done|done|]|].
  - intros d Hd. by apply digit_not_sep.
  - intros c Hc. by apply negb_true_iff, byte_eqb_neq in Hc.
Qed.

Lemma split_printed base sep ns :
  2 <= base <= 36 -> Forall (fun n => 0 <= n) ns -> byte_val sep < 48 \/ 57 < byte_val sep < 97 -> ns <> [] ->
  split_on sep (join [sep] (map (to_chars base) ns)) = map (to_chars base) ns.
Proof.
  intros Hb Hns Hs Hne. apply split_on_join; [by destruct ns|].
  apply Forall_map. eapply Forall_impl; [exact Hns|]. intros n Hn. by apply printed_avoids.
Qed.

Lemma byte_pair x y : bytes_of_u16 (Z.lor (byte_val y) (Z.shiftl (byte_val x) 8)) = [x; y].
Proof.
  pose proof (byte_val_range x). pose proof (byte_val_range y). unfold bytes_of_u16.
  rewrite Z.lor_comm, lor_shiftl_add by lia. rewrite !Z.shiftr_div_pow2 by lia.
  f_equal; [|f_equal]; apply byte_val_inj; rewrite byte_val_of_Z; lia_div.
Qed.

Lemma ipv4_bytes a : ipv4_ok a -> map byte_of_Z (map (array_at (data4 a)) [0; 1; 2; 3]%nat) = data4 a.
Proof.
  destruct a as [[|b0 [|b1 [|b2 [|b3 [|]]]]]]; intros H; try discriminate H. cbn. unfold array_at. cbn.
  by rewrite !byte_of_val.
Qed.

Lemma ipv6_bytes a :
  ipv6_ok a -> concat (map bytes_of_u16 (map (hexit (data6 a)) [1; 3; 5; 7; 9; 11; 13; 15]%nat)) = data6 a.
Proof.
  intros H. destruct a as [d]. unfold ipv6_ok in H. cbn [data6] in *.
  do 16 (destruct d as [|? d]; [discriminate H|]). destruct d; [|discriminate H].
  cbn [map concat]. unfold hexit, array_at. cbn [Nat.sub lookup list_lookup default id from_option].
  rewrite !byte_pair. reflexivity.
Qed.

Lemma ipv4_parse_spec str :
  (length (split_on "."%byte str) <= 4)%nat ->
  ipv4_parse str = Ret (option_map (fun vs => ipv4_of_array (map byte_of_Z (replicate (4 - length vs) 0 ++ rev vs)))
                          (read_fields 10 8 (split_on "."%byte str))).
Proof.
  intros Hl. unfold ipv4_parse. rewrite split_string_spec. cbn [Nat.leb]. rewrite drop_0, bind_ret.
  rewrite <- (app_nil_r (replicate 4 0)). change 3 with (Z.of_nat (length (replicate 4 0)) - 1).
  rewrite parse_parts_spec by (rewrite length_replicate; done). rewrite length_replicate.
  destruct (read_fields 10 8 (split_on "."%byte str)) as [vs|] eqn:E; [|done]. cbn [option_map obind noexcept].
  rewrite (read_fields_length _ _ _ _ E), app_nil_r, take_replicate. do 6 f_equal. lia.
Qed.

Lemma ipv6_parse_spec str :
  (length (split_on ":"%byte str) <= 8)%nat ->
  ipv6_parse str = Ret (option_map (fun vs => ipv6_of_u16_array (replicate (8 - length vs) 0 ++ rev vs))
                          (read_fields 16 16 (split_on ":"%byte str))).
Proof.
  intros Hl. unfold ipv6_parse. rewrite split_string_spec. cbn [Nat.leb]. rewrite drop_0, bind_ret.
  rewrite <- (app_nil_r (replicate 8 0)). change 7 with (Z.of_nat (length (replicate 8 0)) - 1).
  rewrite parse_parts_spec by (rewrite length_replicate; done). rewrite length_replicate.
  destruct (read_fields 16 16 (split_on ":"%byte str)) as [vs|] eqn:E; [|done]. cbn [option_map obind noexcept].
  rewrite (read_fields_length _ _ _ _ E), app_nil_r, take_replicate. do 5 f_equal. lia.
Qed.

(** ** Addresses as numbers *)

(** The array as a big-endian number. *)
Definition value (data : list byte) : Z := from_digits 256 (map byte_val data).

Lemma value_cons b data : value (b :: data) = byte_val b * 256 ^ Z.of_nat (length data) + value data.
Proof. unfold value. cbn [map]. by rewrite from_digits_cons, length_map. Qed.

Lemma value_bound data : 0 <= value data < 256 ^ Z.of_nat (length data).
Proof.
  unfold value. rewrite <- (length_map byte_val data). apply from_digits_bound; [lia|].
  apply Forall_map, Forall_forall. intros b _. apply byte_val_range.
Qed.

Lemma compare_data_value lhs rhs :
  length lhs = length rhs -> compare_data lhs rhs = (value lhs ?= value rhs).
Proof.
  revert rhs. induction lhs as [|x lhs IH]; intros [|y rhs] Hl; try discriminate Hl; [done|].
  cbn [compare_data]. injection Hl as Hl. rewrite !value_cons, Hl, IH by done.
  pose proof (value_bound lhs) as Hb. pose proof (value_bound rhs) as Hb'. rewrite Hl in Hb.
  set (m := 256 ^ Z.of_nat (length rhs)) in *. destruct (Z.compare_spec (byte_val x) (byte_val y)) as [->|H|H]; symmetry.
  - apply Zcompare_plus_compat.
  - apply Z.compare_lt_iff. nia.
  - apply Z.compare_gt_iff. nia.
Qed.

Lemma compare_data_eq lhs rhs : length lhs = length rhs -> compare_data lhs rhs = Eq <-> lhs = rhs.
Proof.
  revert rhs. induction lhs as [|x lhs IH]; intros [|y rhs] Hl; try discriminate Hl; [done|].
  cbn [compare_data]. injection Hl as Hl. destruct (Z.compare_spec (byte_val x) (byte_val y)) as [H|H|H].
  - apply byte_val_inj in H as ->. rewrite IH by done. split; congruence.
  - split; [done|]. intros [= -> _]. lia.
  - split; [done|]. intros [= -> _]. lia.
Qed.

(** An [|] of parts that do not overlap is their sum. *)
Lemma lor_disjoint n m x y : 0 <= n -> m = 2 ^ n -> x mod m = 0 -> 0 <= y < m -> Z.lor x y = x + y.
Proof.
  intros Hn -> Hx Hy. assert (x = Z.shiftl (x / 2 ^ n) n) as ->.
  { rewrite Z.shiftl_mul_pow2 by done. rewrite (Z.div_mod x (2 ^ n)) at 1 by lia. lia. }
  rewrite lor_shiftl_add by done. rewrite Z.shiftl_mul_pow2 by done. lia.
Qed.

(** Rewrites the innermost [|], whose right operand is below [m = 2 ^ n]. *)
Ltac sum_lor n m :=
  match goal with
  | |- context [Z.lor ?x ?y] =>
      lazymatch x with
      | context [Z.lor _ _] => fail
      | _ => rewrite (lor_disjoint n m x y) by lia_div
      end
  end.

Lemma wrap_shiftl w data i s : 0 <= s -> 256 * 2 ^ s <= 2 ^ w -> wrap w (Z.shiftl (array_at data i) s) = array_at data i * 2 ^ s.
Proof.
  intros Hs Hw. pose proof (array_at_range data i). rewrite Z.shiftl_mul_pow2 by done. apply wrap_small. nia.
Qed.

Lemma ipv4_to_u32_value a : ipv4_ok a -> ipv4_to_u32 a = value (data4 a).
Proof.
  intros H. unfold ipv4_to_u32, u32. rewrite !wrap_shiftl by lia.
  pose proof (array_at_range (data4 a) 0). pose proof (array_at_range (data4 a) 1).
  pose proof (array_at_range (data4 a) 2). pose proof (array_at_range (data4 a) 3).
  sum_lor 24 16777216. sum_lor 16 65536. sum_lor 8 256.
  destruct a as [[|b0 [|b1 [|b2 [|b3 [|]]]]]]; try discriminate H. cbn. unfold array_at. cbn. unfold value, from_digits. cbn. lia.
Qed.

Lemma word_at_value data k :
  word_at data k = value (map (fun i => default x00 (data !! (k + i)%nat)) (seq 0 8)).
Proof.
  unfold word_at. cbv zeta. unfold u64. rewrite !wrap_shiftl by lia.
  assert (forall i, 0 <= array_at data (k + i) < 256) as Hr by (intros; apply array_at_range).
  pose proof (Hr 0%nat). pose proof (Hr 1%nat). pose proof (Hr 2%nat). pose proof (Hr 3%nat).
  pose proof (Hr 4%nat). pose proof (Hr 5%nat). pose proof (Hr 6%nat). pose proof (Hr 7%nat).
  sum_lor 56 72057594037927936. sum_lor 48 281474976710656. sum_lor 40 1099511627776.
  sum_lor 32 4294967296. sum_lor 24 16777216. sum_lor 16 65536.
  sum_lor 8 256. unfold value, from_digits. cbn [seq map fold_left]. unfold array_at. lia.
Qed.

Lemma value_app a b : value (a ++ b) = value a * 256 ^ Z.of_nat (length b) + value b.
Proof.
  induction a as [|x a IH]; [done|]. cbn [app]. rewrite !value_cons, IH, length_app, Nat2Z.inj_add, Z.pow_add_r by lia. ring.
Qed.

Lemma compare_data_app a b c d :
  length a = length c -> compare_data (a ++ b) (c ++ d) = match compare_data a c with Eq => compare_data b d | r => r end.
Proof.
  revert c. induction a as [|x a IH]; intros [|y c] Hl; try discriminate Hl; [done|].
  cbn [app compare_data]. injection Hl as Hl. rewrite IH by done. by destruct (byte_val x ?= byte_val y).
Qed.

Lemma map_lookup_seq (data : list byte) k n :
  (k + n <= length data)%nat -> map (fun i => default x00 (data !! (k + i)%nat)) (seq 0 n) = take n (drop k data).
Proof.
  intros Hl. apply list_eq. intros i. destruct (decide (i < n)%nat) as [Hi|Hi].
  - rewrite list_lookup_fmap, lookup_seq_lt, lookup_take_lt, lookup_drop by lia. cbn.
    destruct (lookup_lt_is_Some_2 data (k + i)) as [x ->]; [lia|done].
  - rewrite lookup_ge_None_2 by (rewrite length_map, length_seq; lia).
    by rewrite lookup_ge_None_2 by (rewrite length_take; lia).
Qed.

Lemma ipv6_words a :
  ipv6_ok a -> exists s i, data6 a = s ++ i /\ length s = 8%nat /\ length i = 8%nat
    /\ subnet_prefix a = value s /\ interface_identifier a = value i.
Proof.
  intros H. unfold ipv6_ok in H. exists (take 8 (data6 a)), (drop 8 (data6 a)).
  rewrite take_drop, length_take, length_drop, H. split_and!; [done..| |]; unfold subnet_prefix, interface_identifier; rewrite word_at_value.
  - by rewrite (map_lookup_seq _ 0) by (rewrite H; lia).
  - rewrite (map_lookup_seq _ 8) by (rewrite H; lia). rewrite take_ge; [done|]. rewrite length_drop, H. lia.
Qed.

Lemma bytes_of_u64_value w : 0 <= w < 2 ^ 64 -> value (bytes_of_u64 w) = w.
Proof.
  intros Hw. unfold value, bytes_of_u64, from_digits. cbn [map fold_left]. rewrite !byte_val_of_Z, !Z.shiftr_div_pow2 by lia.
  lia_div.
Qed.

Lemma value_inj a b : length a = length b -> value a = value b -> a = b.
Proof.
  intros Hl Hv. apply compare_data_eq; [done|]. rewrite compare_data_value by done. rewrite Hv. apply Z.compare_refl.
Qed.

(** ** Properties *)

Lemma find_char_absent s c : Forall (fun x => x <> c) s -> sv_find s c 0 = None.
Proof.
  intros Hs. destruct (sv_find s c 0) as [i|] eqn:E; [|done]. unfold sv_find in E.
  apply find_from_split in E as (a & x & b & Ed & _ & Hx & _). rewrite drop_0 in Ed. subst s.
  apply Forall_app in Hs as [_ Hs]. apply Forall_cons in Hs as [Hs _]. apply byte_eqb_eq in Hx. congruence.
Qed.

Lemma find_first_sep base sep n ns :
  2 <= base <= 36 -> 0 <= n -> byte_val sep < 48 \/ 57 < byte_val sep < 97 -> ns <> [] ->
  is_Some (sv_find (join [sep] (map (to_chars base) (n :: ns))) sep 0).
Proof.
  intros Hb Hn Hs Hne. cbn [map]. rewrite join_cons by (by destruct ns). unfold sv_find. cbn [app].
  rewrite find_from_0_app; [eauto| |apply byte_eqb_refl].
  eapply Forall_impl; [by apply (printed_avoids base sep n)|]. intros c Hc. apply byte_eqb_neq. congruence.
Qed.

Lemma join_avoids c sep fs : c <> sep -> Forall (Forall (fun x => x <> c)) fs -> Forall (fun x => x <> c) (join [sep] fs).
Proof.
  intros Hne Hfs. induction Hfs as [|f fs Hf Hfs IH]; [constructor|]. destruct fs as [|g fs]; [by cbn|].
  rewrite join_cons by done. apply Forall_app. split; [done|]. cbn [app]. constructor; [congruence|done].
Qed.

Lemma ipv4_roundtrip a : ipv4_ok a -> exists s,
  ipv4_to_string a = Ret s /\ ipv4_parse s = Ret (Some a) /\ sv_find s ":"%byte 0 = None /\ is_Some (sv_find s "."%byte 0).
Proof.
  intros Hok. rewrite ipv4_to_string_spec. eexists. split; [done|].
  set (ns := map (array_at (data4 a)) [3; 2; 1; 0]%nat).
  assert (Forall (fun n => 0 <= n < 256) ns) as Hns by (apply Forall_map, Forall_forall; intros; apply array_at_range).
  assert (Forall (fun n => 0 <= n) ns) as Hns0 by (eapply Forall_impl; [exact Hns|]; simpl; lia).
  pose proof (split_printed 10 "."%byte ns ltac:(lia) Hns0 ltac:(left; vm_compute; reflexivity) ltac:(done)) as Hsp.
  split_and!.
  - rewrite ipv4_parse_spec by (rewrite Hsp; done). rewrite Hsp, (read_fields_printed 10 8) by (done || lia).
    cbn [option_map]. do 2 f_equal. destruct a as [d]. unfold ipv4_of_array. f_equal. by apply (ipv4_bytes {| data4 := d |}).
  - apply find_char_absent, join_avoids; [done|]. apply Forall_map. eapply Forall_impl; [exact Hns0|]. intros n Hn.
    apply printed_avoids; [lia|done|]. right. vm_compute. split; reflexivity.
  - apply find_first_sep; [lia|apply array_at_range|left; vm_compute; reflexivity|done].
Qed.

Lemma ipv6_roundtrip a : ipv6_ok a -> exists s,
  ipv6_to_string a = Ret s /\ ipv6_parse s = Ret (Some a) /\ is_Some (sv_find s ":"%byte 0).
Proof.
  intros Hok. rewrite ipv6_to_string_spec. eexists. split; [done|].
  set (ns := map (hexit (data6 a)) [15; 13; 11; 9; 7; 5; 3; 1]%nat).
  assert (Forall (fun n => 0 <= n < 2 ^ 16) ns) as Hns by (apply Forall_map, Forall_forall; intros; apply hexit_range).
  assert (Forall (fun n => 0 <= n) ns) as Hns0 by (eapply Forall_impl; [exact Hns|]; simpl; lia).
  assert (byte_val ":"%byte < 48 \/ 57 < byte_val ":"%byte < 97) as Hsep by (right; vm_compute; split; reflexivity).
  pose proof (split_printed 16 ":"%byte ns ltac:(lia) Hns0 Hsep ltac:(done)) as Hsp.
  split.
  - rewrite ipv6_parse_spec by (rewrite Hsp; done). rewrite Hsp, (read_fields_printed 16 16) by (done || lia).
    cbn [option_map]. do 2 f_equal. destruct a as [d]. unfold ipv6_of_u16_array. f_equal. by apply (ipv6_bytes {| data6 := d |}).
  - apply find_first_sep; [lia|apply hexit_range|done|done].
Qed.

(** C26: printing and parsing are inverse: the text of every address (of either
    family) fits its buffer, and [ip_addr::parse] gives the address back. *)
Theorem ip_addr_roundtrip (a : ip_addr) :
  ip_ok a -> exists s, ip_to_string a = Ret s /\ ip_parse s = Ret (Some a).
Proof.
  destruct a as [a|a]; intros Hok.
  - destruct (ipv4_roundtrip a Hok) as (s & Hs & Hp & Hc & [i Hd]). exists s. split; [done|].
    unfold ip_parse, parse_ipv4_branch. by rewrite Hc, Hd, Hp.
  - destruct (ipv6_roundtrip a Hok) as (s & Hs & Hp & [i Hc]). exists s. split; [done|].
    unfold ip_parse. by rewrite Hc, Hp.
Qed.

Lemma ip_addr_roundtrip_witness :
  exists s, ip_to_string (ip_v6 ipv6_loopback) = Ret s /\ ip_parse s = Ret (Some (ip_v6 ipv6_loopback)).
Proof. apply (ip_addr_roundtrip (ip_v6 ipv6_loopback)). reflexivity. Defined.

(** the byte-wise ordering of addresses is the ordering of the numbers
    they convert to (for IPv6 the subnet prefix, then the interface), it
    decides equality, and addresses of different families are unordered. *)
Lemma ip_order_is_numeric (l r : ip_addr) :
  ip_ok l -> ip_ok r ->
  ip_compare l r
  = match l, r with
    | ip_v4 l, ip_v4 r => Some (ipv4_to_u32 l ?= ipv4_to_u32 r)
    | ip_v6 l, ip_v6 r => Some (match subnet_prefix l ?= subnet_prefix r with
                                | Eq => interface_identifier l ?= interface_identifier r
                                | c => c
                                end)
    | _, _ => None
    end
  /\ (ip_compare l r = Some Eq <-> l = r) /\ (ip_equal l r = true <-> l = r).
Proof.
  destruct l as [[l]|[l]], r as [[r]|[r]]; cbn [ip_ok]; intros Hl Hr; unfold ipv4_ok, ipv6_ok in *; cbn [data4 data6] in *;
    try (split_and!; [done|split; [discriminate|intros [=]]|split; [discriminate|intros [=]]]).
  - assert (length l = length r) as E by congruence. cbn [ip_compare ip_equal]. unfold ipv4_compare, ipv4_equal. cbn [data4]. split_and!.
    + rewrite !ipv4_to_u32_value by done. cbn [data4]. by rewrite compare_data_value.
    + split; [intros [= H]|intros [= H]]; [|by rewrite H, (proj2 (compare_data_eq r r eq_refl) eq_refl)].
      apply compare_data_eq in H as ->; done.
    + rewrite bytes_eqb_eq. split; congruence.
  - assert (length l = length r) as E by congruence. cbn [ip_compare ip_equal]. unfold ipv6_compare, ipv6_equal. cbn [data6]. split_and!.
    + destruct (ipv6_words {| data6 := l |} Hl) as (s & i & Hs & ? & ? & -> & ->).
      destruct (ipv6_words {| data6 := r |} Hr) as (s' & i' & Hs' & ? & ? & -> & ->). cbn [data6] in *. subst l r.
      rewrite compare_data_app, !compare_data_value by congruence. done.
    + split; [intros [= H]|intros [= H]]; [|by rewrite H, (proj2 (compare_data_eq r r eq_refl) eq_refl)].
      apply compare_data_eq in H as ->; done.
    + rewrite bytes_eqb_eq. split; congruence.
Qed.

Lemma ip_order_is_numeric_witness :
  ip_compare (ip_v4 (ipv4_of_u32 1)) (ip_v4 (ipv4_of_u32 256)) = Some Lt.
Proof.
  destruct (ip_order_is_numeric (ip_v4 (ipv4_of_u32 1)) (ip_v4 (ipv4_of_u32 256)) eq_refl eq_refl) as [-> _]. reflexivity.
Defined.

(** the conversions to and from machine words are inverse on their ranges,
    and every constructor yields an address of the right size. *)
Lemma ip_words_roundtrip :
  (forall n, 0 <= n < 2 ^ 32 -> ipv4_to_u32 (ipv4_of_u32 n) = n)
  /\ (forall a, ipv4_ok a -> ipv4_of_u32 (ipv4_to_u32 a) = a /\ 0 <= ipv4_to_u32 a < 2 ^ 32)
  /\ (forall s i, 0 <= s < 2 ^ 64 -> 0 <= i < 2 ^ 64 ->
      subnet_prefix (ipv6_of_words s i) = s /\ interface_identifier (ipv6_of_words s i) = i)
  /\ (forall a, ipv6_ok a -> ipv6_of_words (subnet_prefix a) (interface_identifier a) = a)
  /\ (forall a, ipv6_ok a -> ipv6_of_u16_array (map (hexit (data6 a)) [1; 3; 5; 7; 9; 11; 13; 15]%nat) = a).
Proof.
  assert (forall n, 0 <= n < 2 ^ 32 -> ipv4_to_u32 (ipv4_of_u32 n) = n) as H4.
  { intros n Hn. rewrite ipv4_to_u32_value by reflexivity. unfold value, from_digits. cbn [ipv4_of_u32 data4 map fold_left].
    rewrite !byte_val_of_Z, !Z.shiftr_div_pow2 by lia. lia_div. }
  assert (forall s i, 0 <= s < 2 ^ 64 -> 0 <= i < 2 ^ 64 ->
    subnet_prefix (ipv6_of_words s i) = s /\ interface_identifier (ipv6_of_words s i) = i) as H6.
  { intros s i Hs Hi. unfold subnet_prefix, interface_identifier. rewrite !word_at_value.
    split; [exact (bytes_of_u64_value s Hs)|exact (bytes_of_u64_value i Hi)]. }
  split_and!; [exact H4| |exact H6| |].
  - intros a Ha. assert (0 <= ipv4_to_u32 a < 2 ^ 32) as Hr.
    { rewrite ipv4_to_u32_value by done. pose proof (value_bound (data4 a)) as Hv. rewrite Ha in Hv. exact Hv. }
    split; [|done]. pose proof (H4 _ Hr) as E. rewrite !ipv4_to_u32_value in E by done.
    apply value_inj in E; [|by rewrite Ha]. rewrite <- ipv4_to_u32_value in E by done.
    destruct a as [d]. unfold ipv4_of_u32 in *. f_equal. exact E.
  - intros a Ha. destruct (ipv6_words a Ha) as (s & i & Hd & Hs & Hi & -> & ->).
    pose proof (value_bound s) as Bs. pose proof (value_bound i) as Bi. rewrite Hs in Bs. rewrite Hi in Bi.
    destruct a as [d]. cbn [data6] in Hd. subst d. unfold ipv6_of_words. f_equal.
    f_equal; (apply value_inj; [by rewrite ?Hs, ?Hi|]); by apply bytes_of_u64_value.
  - intros [d] Ha. unfold ipv6_of_u16_array. f_equal. by apply (ipv6_bytes {| data6 := d |}).
Qed.

Lemma ip_words_roundtrip_witness : ipv4_to_u32 (ipv4_of_u32 3232235777) = 3232235777.
Proof. apply (proj1 ip_words_roundtrip 3232235777). lia. Defined.

(** what the parsers accept and where they are undefined: up to four
    (eight) fields, the address is there exactly if every field begins with a
    number in range, missing fields being zero and the text after the number
    ignored; with more fields, the array is left if the first ones are
    numbers. *)
Lemma ip_parse_fields (str : list byte) :
  ((length (split_on "."%byte str) <= 4)%nat ->
   ipv4_parse str = Ret (option_map (fun vs => ipv4_of_array (map byte_of_Z (replicate (4 - length vs) 0 ++ rev vs)))
                           (read_fields 10 8 (split_on "."%byte str))))
  /\ ((4 < length (split_on "."%byte str))%nat -> is_Some (read_fields 10 8 (take 4 (split_on "."%byte str))) ->
      ipv4_parse str = Undef)
  /\ ((length (split_on ":"%byte str) <= 8)%nat ->
      ipv6_parse str = Ret (option_map (fun vs => ipv6_of_u16_array (replicate (8 - length vs) 0 ++ rev vs))
                              (read_fields 16 16 (split_on ":"%byte str))))
  /\ ((8 < length (split_on ":"%byte str))%nat -> is_Some (read_fields 16 16 (take 8 (split_on ":"%byte str))) ->
      ipv6_parse str = Undef).
Proof.
  assert (forall base bits n fields, (n < length fields)%nat -> is_Some (read_fields base bits (take n fields)) ->
    parse_parts base bits fields (replicate n 0) (Z.of_nat n - 1) = Undef) as Hover.
  { intros base bits n fields Hn Hs. rewrite <- (take_drop n fields).
    destruct (drop n fields) as [|f rest] eqn:E; [apply (f_equal length) in E; rewrite length_drop in E; simpl in E; lia|].
    apply parse_parts_overrun; [rewrite length_take; lia|rewrite length_replicate; lia|done]. }
  split_and!; [apply ipv4_parse_spec| |apply ipv6_parse_spec|]; intros Hn Hs.
  - unfold ipv4_parse. rewrite split_string_spec. cbn [Nat.leb]. rewrite drop_0, bind_ret. by rewrite (Hover 10 8 4%nat).
  - unfold ipv6_parse. rewrite split_string_spec. cbn [Nat.leb]. rewrite drop_0, bind_ret. by rewrite (Hover 16 16 8%nat).
Qed.

Lemma ip_parse_fields_witness : ipv4_parse (lit "1.2.3.4.5") = Undef /\ ipv6_parse (lit "1:2:3:4:5:6:7:8:9") = Undef.
Proof.
  split; [apply (ip_parse_fields (lit "1.2.3.4.5"))|apply (ip_parse_fields (lit "1:2:3:4:5:6:7:8:9"))];
    vm_compute; (lia || eauto).
Defined.

(** The array is in the reverse of the order its predicates read: the parser
    puts the first field last, so the text of the loopback address is not that
    of a loopback address, and its constant prints backwards.  Text after a
    number and missing fields are accepted, and 192.168.0.0/16 is tested at
    the wrong byte. *)
Lemma ip_predicates_reversed :
  (exists a, ipv4_parse (lit "127.0.0.1") = Ret (Some a) /\ ipv4_is_loopback a = false)
  /\ ipv4_to_string ipv4_loopback = Ret (lit "1.0.0.127")
  /\ (exists a, ipv6_parse (lit "0:0:0:0:0:0:0:1") = Ret (Some a) /\ ipv6_is_loopback a = false)
  /\ ipv4_is_private_network (ipv4_of_bytes (byte_of_Z 192) (byte_of_Z 168) (byte_of_Z 0) (byte_of_Z 1)) = false
  /\ ipv4_parse (lit "12monkeys") = Ret (Some (ipv4_of_bytes x00 x00 x00 (byte_of_Z 12))).
Proof. split_and!; try (eexists; split); vm_compute; reflexivity. Qed.
