(* ===== verification/ThreadPool.v ===== *)
(** * The thread pool (include/coro/thread_pool.hpp, src/coro/thread_pool.cpp)

    A transition system.  A worker is the place it has reached in
    [thread_pool::worker]; a step of a worker is one access to the shared state
    (an atomic, the mutex, the condition variable) or the run of a coroutine.
    The predicate of [wait] is evaluated with the mutex held and is a step of
    its own, because [shutdown] changes [running] and notifies without the
    mutex.  Callers are modelled by the jobs they have got to each place of
    [resume] and [schedule]; a rejected call changes nothing and is no step.
    [notify_one] wakes any one waiting thread, and a thread may wake
    spuriously.

    A coroutine handle is a number, and is not null.  The memory orders are not
    modelled: the shared accesses are sequentially consistent. *)

From Stdlib Require Import ZArith Lia.
From stdpp Require Import prelude list.
From S2P Require Import Prelude.

(** ** Definitions *)

(** [hardware_concurrency(minus_amount)], with [count] the number the standard
    library reports. *)
Definition hardware_concurrency (count minus_amount : Z) : Z :=
  if minus_amount <? count then u64 (count - minus_amount) else 1.

(** Where a worker is. *)
Inductive worker :=
| w_test              (* at [while (running)] *)
| w_lock              (* about to lock the mutex *)
| w_check             (* holds the mutex, about to test the predicate of [wait] *)
| w_block             (* holds the mutex, the predicate was false: about to wait *)
| w_wait              (* waits *)
| w_woken             (* woken, about to lock the mutex again *)
| w_run (job : nat)   (* in [handle.resume()] *)
| w_done              (* about to decrement [num_jobs] *)
| d_test              (* second loop: at [while (num_jobs > 0)] *)
| d_lock              (* about to lock the mutex *)
| d_run (job : nat)
| d_done
| w_exit.

#[global] Instance worker_eq_dec : EqDecision worker.
Proof. solve_decision. Defined.

(** Where [shutdown] is. *)
Inductive shutdown_pc := s_open | s_notify | s_join | s_closed.

Record thread_pool := {
  threads : list worker;
  wait_mutex : option nat;  (* the worker that holds it between two steps *)
  jobs : list nat;
  running : bool;
  num_jobs : Z;
  cleared : list nat;       (* callers that have seen [running] *)
  announced : list nat;     (* callers that have incremented [num_jobs] *)
  adding : list nat;        (* calls of [resume(range)] that have queued this many *)
  notifying : list nat;     (* and those that have added them to [num_jobs] *)
  closing : shutdown_pc;
  (* history *)
  pushed : list nat;        (* jobs in the order they were queued *)
  started : list nat;       (* jobs in the order workers took them *)
  finished : list nat;
  late : bool;              (* a job was queued, or added to [num_jobs] after
                               it was queued, once [running] was false *)
}.

Definition with_threads (x : list worker) (p : thread_pool) : thread_pool :=
    {| threads := x; wait_mutex := wait_mutex p; jobs := jobs p; running := running p; num_jobs := num_jobs p;
     cleared := cleared p; announced := announced p; adding := adding p; notifying := notifying p; closing :=
     closing p; pushed := pushed p; started := started p; finished := finished p; late := late p |}.
Definition with_wait_mutex (x : option nat) (p : thread_pool) : thread_pool :=
    {| threads := threads p; wait_mutex := x; jobs := jobs p; running := running p; num_jobs := num_jobs p; cleared
     := cleared p; announced := announced p; adding := adding p; notifying := notifying p; closing := closing p;
     pushed := pushed p; started := started p; finished := finished p; late := late p |}.
Definition with_jobs (x : list nat) (p : thread_pool) : thread_pool :=
    {| threads := threads p; wait_mutex := wait_mutex p; jobs := x; running := running p; num_jobs := num_jobs p;
     cleared := cleared p; announced := announced p; adding := adding p; notifying := notifying p; closing :=
     closing p; pushed := pushed p; started := started p; finished := finished p; late := late p |}.
Definition with_running (x : bool) (p : thread_pool) : thread_pool :=
    {| threads := threads p; wait_mutex := wait_mutex p; jobs := jobs p; running := x; num_jobs := num_jobs p;
     cleared := cleared p; announced := announced p; adding := adding p; notifying := notifying p; closing :=
     closing p; pushed := pushed p; started := started p; finished := finished p; late := late p |}.
Definition with_num_jobs (x : Z) (p : thread_pool) : thread_pool :=
    {| threads := threads p; wait_mutex := wait_mutex p; jobs := jobs p; running := running p; num_jobs := x;
     cleared := cleared p; announced := announced p; adding := adding p; notifying := notifying p; closing :=
     closing p; pushed := pushed p; started := started p; finished := finished p; late := late p |}.
Definition with_cleared (x : list nat) (p : thread_pool) : thread_pool :=
    {| threads := threads p; wait_mutex := wait_mutex p; jobs := jobs p; running := running p; num_jobs := num_jobs
     p; cleared := x; announced := announced p; adding := adding p; notifying := notifying p; closing := closing p;
     pushed := pushed p; started := started p; finished := finished p; late := late p |}.
Definition with_announced (x : list nat) (p : thread_pool) : thread_pool :=
    {| threads := threads p; wait_mutex := wait_mutex p; jobs := jobs p; running := running p; num_jobs := num_jobs
     p; cleared := cleared p; announced := x; adding := adding p; notifying := notifying p; closing := closing p;
     pushed := pushed p; started := started p; finished := finished p; late := late p |}.
Definition with_adding (x : list nat) (p : thread_pool) : thread_pool :=
    {| threads := threads p; wait_mutex := wait_mutex p; jobs := jobs p; running := running p; num_jobs := num_jobs
     p; cleared := cleared p; announced := announced p; adding := x; notifying := notifying p; closing := closing p;
     pushed := pushed p; started := started p; finished := finished p; late := late p |}.
Definition with_notifying (x : list nat) (p : thread_pool) : thread_pool :=
    {| threads := threads p; wait_mutex := wait_mutex p; jobs := jobs p; running := running p; num_jobs := num_jobs
     p; cleared := cleared p; announced := announced p; adding := adding p; notifying := x; closing := closing p;
     pushed := pushed p; started := started p; finished := finished p; late := late p |}.
Definition with_closing (x : shutdown_pc) (p : thread_pool) : thread_pool :=
    {| threads := threads p; wait_mutex := wait_mutex p; jobs := jobs p; running := running p; num_jobs := num_jobs
     p; cleared := cleared p; announced := announced p; adding := adding p; notifying := notifying p; closing := x;
     pushed := pushed p; started := started p; finished := finished p; late := late p |}.
Definition with_pushed (x : list nat) (p : thread_pool) : thread_pool :=
    {| threads := threads p; wait_mutex := wait_mutex p; jobs := jobs p; running := running p; num_jobs := num_jobs
     p; cleared := cleared p; announced := announced p; adding := adding p; notifying := notifying p; closing :=
     closing p; pushed := x; started := started p; finished := finished p; late := late p |}.
Definition with_started (x : list nat) (p : thread_pool) : thread_pool :=
    {| threads := threads p; wait_mutex := wait_mutex p; jobs := jobs p; running := running p; num_jobs := num_jobs
     p; cleared := cleared p; announced := announced p; adding := adding p; notifying := notifying p; closing :=
     closing p; pushed := pushed p; started := x; finished := finished p; late := late p |}.
Definition with_finished (x : list nat) (p : thread_pool) : thread_pool :=
    {| threads := threads p; wait_mutex := wait_mutex p; jobs := jobs p; running := running p; num_jobs := num_jobs
     p; cleared := cleared p; announced := announced p; adding := adding p; notifying := notifying p; closing :=
     closing p; pushed := pushed p; started := started p; finished := x; late := late p |}.
Definition with_late (x : bool) (p : thread_pool) : thread_pool :=
    {| threads := threads p; wait_mutex := wait_mutex p; jobs := jobs p; running := running p; num_jobs := num_jobs
     p; cleared := cleared p; announced := announced p; adding := adding p; notifying := notifying p; closing :=
     closing p; pushed := pushed p; started := started p; finished := finished p; late := x |}.

(** The constructor: [concurrency] workers, four if it is zero. *)
Definition make_thread_pool (concurrency : nat) : thread_pool :=
  {| threads := replicate (if (concurrency =? 0)%nat then 4 else concurrency) w_test;
     wait_mutex := None; jobs := []; running := true; num_jobs := 0; cleared := []; announced := []; adding := [];
     notifying := []; closing := s_open; pushed := []; started := []; finished := []; late := false |}.

Definition concurrency (p : thread_pool) : nat := length (threads p).
Definition size (p : thread_pool) : Z := num_jobs p.
Definition empty (p : thread_pool) : bool := size p =? 0.
Definition queue_size (p : thread_pool) : nat := length (jobs p).
Definition queue_empty (p : thread_pool) : bool := (queue_size p =? 0)%nat.

(** *** Workers *)

Definition go (i : nat) (w : worker) (p : thread_pool) : thread_pool := with_threads (<[i := w]> (threads p)) p.

(** [lock] of the mutex by worker [i]: blocked while it is held. *)
Definition lock (i : nat) (p : thread_pool) : option thread_pool :=
  match wait_mutex p with
  | None => Some (with_wait_mutex (Some i) p)
  | Some _ => None
  end.

Definition unlock (p : thread_pool) : thread_pool := with_wait_mutex None p.

(** [auto handle = jobs.front(); jobs.pop_front();] *)
Definition take_job (h : nat) (js : list nat) (p : thread_pool) : thread_pool :=
  with_started (started p ++ [h]) (with_jobs js p).

(** [num_jobs.fetch_sub(1)] *)
Definition job_done (p : thread_pool) : thread_pool := with_num_jobs (u64 (num_jobs p - 1)) p.

(** The next step of worker [i]; [None] if it waits, is blocked or has ended. *)
Definition worker_step (i : nat) (p : thread_pool) : option thread_pool :=
  match threads p !! i with
  | None => None
  | Some w =>
      match w with
      | w_test => Some (go i (if running p then w_lock else d_test) p)
      | w_lock | w_woken => option_map (go i w_check) (lock i p)
      | w_check =>
          match jobs p with
          | h :: js => Some (go i (w_run h) (unlock (take_job h js p)))
          | [] => if running p then Some (go i w_block p) else Some (go i w_test (unlock p))
          end
      | w_block => Some (go i w_wait (unlock p))
      | w_wait => None
      | w_run h => Some (go i w_done (with_finished (finished p ++ [h]) p))
      | w_done => Some (go i w_test (job_done p))
      | d_test => Some (go i (if 0 <? num_jobs p then d_lock else w_exit) p)
      | d_lock =>
          match lock i p with
          | None => None
          | Some p =>
              match jobs p with
              | h :: js => Some (go i (d_run h) (unlock (take_job h js p)))
              | [] => Some (go i w_exit (unlock p))
              end
          end
      | d_run h => Some (go i d_done (with_finished (finished p ++ [h]) p))
      | d_done => Some (go i d_test (job_done p))
      | w_exit => None
      end
  end.

(** *** The condition variable *)

Inductive notify_one : list worker -> list worker -> Prop :=
| notify_nobody ws : w_wait ∉ ws -> notify_one ws ws
| notify_some ws i : ws !! i = Some w_wait -> notify_one ws (<[i := w_woken]> ws).

Inductive notify_times : nat -> list worker -> list worker -> Prop :=
| notify_0 ws : notify_times 0 ws ws
| notify_S n ws ws' ws'' : notify_one ws ws' -> notify_times n ws' ws'' -> notify_times (S n) ws ws''.

Definition wake (w : worker) : worker := match w with w_wait => w_woken | _ => w end.
Definition notify_all (ws : list worker) : list worker := map wake ws.

(** *** Callers *)

(** The test of [running] in [resume(handle)] and in [schedule()]; the second
    throws where the first returns false. *)
Definition accept_job (h : nat) (p : thread_pool) : option thread_pool :=
  if running p then Some (with_cleared (h :: cleared p) p) else None.

(** [schedule(handle)]: [num_jobs.fetch_add(1)] *)
Definition announce (before after : list nat) (h : nat) (p : thread_pool) : thread_pool :=
  with_announced (h :: announced p) (with_num_jobs (u64 (num_jobs p + 1)) (with_cleared (before ++ after) p)).

(** [jobs.emplace_back] of one or more handles, with the mutex held. *)
Definition enqueue (hs : list nat) (p : thread_pool) : thread_pool :=
  with_late (late p || negb (running p)) (with_pushed (pushed p ++ hs) (with_jobs (jobs p ++ hs) p)).

(** [schedule(handle)]: the critical section, without its [notify_one] *)
Definition queue_announced (before after : list nat) (h : nat) (p : thread_pool) : thread_pool :=
  enqueue [h] (with_announced (before ++ after) p).

(** [resume(handles)]: the critical section, for the handles that are not null;
    [num_jobs.fetch_add(new_jobs)]; the notifications *)
Definition queue_range (hs : list nat) (p : thread_pool) : thread_pool :=
  with_adding (length hs :: adding p) (enqueue hs p).

Definition add_range (before after : list nat) (n : nat) (p : thread_pool) : thread_pool :=
  with_late (late p || negb (running p))
    (with_notifying (n :: notifying p) (with_adding (before ++ after) (with_num_jobs (u64 (num_jobs p + Z.of_nat n)) p))).

Inductive notify_range (n : nat) (ws : list worker) : list worker -> Prop :=
| notify_range_all : (length ws <= n)%nat -> notify_range n ws (notify_all ws)
| notify_range_each ws' : (n < length ws)%nat -> notify_times n ws ws' -> notify_range n ws ws'.

(** *** [shutdown] *)

(** [running.exchange(false)], when it returns true *)
Definition begin_shutdown (p : thread_pool) : thread_pool := with_closing s_notify (with_running false p).
Definition shutdown_notify (p : thread_pool) : thread_pool :=
  with_closing s_join (with_threads (notify_all (threads p)) p).
(** Every thread has been joined. *)
Definition shutdown_joined (p : thread_pool) : thread_pool := with_closing s_closed p.

(** ** The transition system *)

(** Workers that have a job that [num_jobs] still counts. *)
Definition counted (w : worker) : nat :=
  match w with w_run _ | w_done | d_run _ | d_done => 1 | _ => 0 end.

(** Fewer than [2^64] jobs exist at a time. *)
Definition load (p : thread_pool) : nat :=
  length (jobs p) + sum_list_with counted (threads p) + length (announced p).
Definition few_jobs (p : thread_pool) (more : nat) : Prop := Z.of_nat (load p + more) < 2 ^ 64.

Inductive step : thread_pool -> thread_pool -> Prop :=
| step_worker i p p' : worker_step i p = Some p' -> step p p'
| step_spurious i p : threads p !! i = Some w_wait -> step p (go i w_woken p)
| step_accept h p p' : accept_job h p = Some p' -> step p p'
| step_announce before after h p :
    cleared p = before ++ h :: after -> few_jobs p 1 -> step p (announce before after h p)
| step_queue before after h p ws :
    announced p = before ++ h :: after -> wait_mutex p = None -> notify_one (threads p) ws ->
    step p (with_threads ws (queue_announced before after h p))
| step_queue_range hs p : wait_mutex p = None -> few_jobs p (length hs) -> step p (queue_range hs p)
| step_add_range before after n p : adding p = before ++ n :: after -> step p (add_range before after n p)
| step_notify_range before after n p ws :
    notifying p = before ++ n :: after -> notify_range n (threads p) ws ->
    step p (with_threads ws (with_notifying (before ++ after) p))
| step_shutdown p : running p = true -> step p (begin_shutdown p)
| step_shutdown_notify p : closing p = s_notify -> step p (shutdown_notify p)
| step_shutdown_join p : closing p = s_join -> Forall (eq w_exit) (threads p) -> step p (shutdown_joined p).

Inductive reachable (n : nat) : thread_pool -> Prop :=
| reach_init : reachable n (make_thread_pool n)
| reach_step p p' : reachable n p -> step p p' -> reachable n p'.

(** ** The invariant *)

Definition holds (w : worker) : bool := match w with w_check | w_block => true | _ => false end.
Definition waiting (w : worker) : nat := match w with w_wait => 1 | _ => 0 end.
(** Workers that will look at the queue before they wait. *)
Definition ready (w : worker) : nat := match w with w_test | w_lock | w_check | w_woken => 1 | _ => 0 end.
(** Workers past the first loop. *)
Definition draining (w : worker) : bool :=
  match w with d_test | d_lock | d_run _ | d_done | w_exit => true | _ => false end.
Definition job_of (w : worker) : option nat := match w with w_run h | d_run h => Some h | _ => None end.
Definition executing (ws : list worker) : list nat := omap job_of ws.

Definition lock_ok (m : option nat) (ws : list worker) : Prop :=
  forall i w, ws !! i = Some w -> holds w = true <-> m = Some i.

Record pool_ok (n : nat) (p : thread_pool) : Prop := {
  ok_size : length (threads p) = n;
  ok_lock : lock_ok (wait_mutex p) (threads p);
  ok_owner : forall i, wait_mutex p = Some i -> (i < length (threads p))%nat;
  ok_block : w_block ∈ threads p -> jobs p = [];
  ok_fifo : pushed p = started p ++ jobs p;
  ok_once : started p ≡ₚ finished p ++ executing (threads p);
  ok_num : num_jobs p = u64 (Z.of_nat (load p) - Z.of_nat (sum_list (adding p)));
  ok_few : Z.of_nat (load p) < 2 ^ 64;
  ok_open : running p = true -> Forall (fun w => draining w = false) (threads p);
  (* while a thread waits, there is a worker, or a notification to come, for
     every queued job *)
  ok_wake : running p = true -> (0 < sum_list_with waiting (threads p))%nat ->
    (length (jobs p) <= sum_list_with ready (threads p) + sum_list (adding p) + sum_list (notifying p))%nat;
  ok_drain : late p = false -> adding p = [] -> w_exit ∈ threads p -> jobs p = [];
}.

(** *** One worker changes *)

Lemma list_split_at (ws : list worker) i w : ws !! i = Some w -> ws = take i ws ++ w :: drop (S i) ws.
Proof. intros. symmetry. by apply take_drop_middle. Qed.

Lemma insert_split (ws : list worker) i w w' : ws !! i = Some w -> <[i := w']> ws = take i ws ++ w' :: drop (S i) ws.
Proof. intros H. apply insert_take_drop. by eapply lookup_lt_Some. Qed.

Lemma sum_insert (f : worker -> nat) ws i w w' :
  ws !! i = Some w -> (sum_list_with f (<[i := w']> ws) + f w = sum_list_with f ws + f w')%nat.
Proof.
  intros H. rewrite (insert_split ws i w w' H). rewrite (list_split_at ws i w H) at 3.
  rewrite !sum_list_with_app. cbn [sum_list_with]. lia.
Qed.

Lemma executing_insert ws i w w' :
  ws !! i = Some w -> exists rest,
    executing ws ≡ₚ option_list (job_of w) ++ rest /\ executing (<[i := w']> ws) ≡ₚ option_list (job_of w') ++ rest.
Proof.
  intros H. exists (executing (take i ws) ++ executing (drop (S i) ws)). unfold executing. split.
  - rewrite (list_split_at ws i w H) at 1. rewrite omap_app. cbn [omap list_omap]. destruct (job_of w); cbn [option_list app]; [|done].
    symmetry. apply (Permutation_middle (omap job_of (take i ws))).
  - rewrite (insert_split ws i w w' H), omap_app. cbn [omap list_omap]. destruct (job_of w'); cbn [option_list app]; [|done].
    symmetry. apply (Permutation_middle (omap job_of (take i ws))).
Qed.

Lemma elem_of_insert (ws : list worker) i x y : x ∈ <[i := y]> ws -> x = y \/ x ∈ ws.
Proof.
  intros H. apply list_elem_of_lookup in H as [j H]. apply list_lookup_insert_Some in H as [(_ & -> & _)|(_ & H)]; [by left|].
  right. by eapply list_elem_of_lookup_2.
Qed.

Lemma lock_ok_keep m ws i w w' :
  lock_ok m ws -> ws !! i = Some w -> holds w' = holds w -> lock_ok m (<[i := w']> ws).
Proof.
  intros Hl Hw Hh j v H. apply list_lookup_insert_Some in H as [(-> & <- & _)|(_ & H)]; [|by apply Hl].
  rewrite Hh. by apply Hl.
Qed.

Lemma lock_ok_acquire ws i w w' :
  lock_ok None ws -> ws !! i = Some w -> holds w' = true -> lock_ok (Some i) (<[i := w']> ws).
Proof.
  intros Hl Hw Hh j v H. apply list_lookup_insert_Some in H as [(-> & <- & _)|(Hne & H)]; [done|].
  rewrite (Hl j v H). split; [done|]. intros [= ->]. done.
Qed.

Lemma lock_ok_release m ws i w w' :
  lock_ok m ws -> ws !! i = Some w -> holds w = true -> holds w' = false -> lock_ok None (<[i := w']> ws).
Proof.
  intros Hl Hw Hh Hh' j v H. pose proof (proj1 (Hl i w Hw) Hh) as ->.
  apply list_lookup_insert_Some in H as [(-> & <- & _)|(Hne & H)]; [by rewrite Hh'|].
  rewrite (Hl j v H). split; [intros [= ->]; done|done].
Qed.

Lemma lock_ok_map m ws : lock_ok m ws -> lock_ok m (notify_all ws).
Proof.
  intros Hl i w H. unfold notify_all in H. apply list_lookup_fmap_Some in H as (v & -> & H).
  rewrite <- (Hl i v H). by destruct v.
Qed.

(** *** Steps of workers *)

Lemma u64_shift (a b : Z) : u64 (u64 a + b) = u64 (a + b).
Proof. unfold u64, wrap. by rewrite Z.add_mod_idemp_l by lia. Qed.

Section Preservation.
Context (n : nat).

Lemma load_go p i w w' :
  threads p !! i = Some w -> (load (go i w' p) + counted w = load p + counted w')%nat.
Proof. intros H. unfold load. cbn. pose proof (sum_insert counted _ i w w' H). lia. Qed.

(** A worker moves on, with nothing else changed but the lock. *)
Lemma move_ok p i w w' m :
  pool_ok n p -> threads p !! i = Some w ->
  lock_ok m (<[i := w']> (threads p)) -> (m = Some i \/ m = None \/ m = wait_mutex p) ->
  counted w' = counted w -> job_of w' = job_of w ->
  (w' = w_block -> jobs p = []) ->
  (running p = true -> draining w' = false /\ ((ready w' < ready w)%nat \/ (waiting w < waiting w')%nat -> jobs p = [])) ->
  (w' = w_exit -> late p = false -> adding p = [] -> jobs p = []) ->
  pool_ok n (go i w' (with_wait_mutex m p)).
Proof using Type.
  intros [Hsz Hlk How Hbl Hff Hon Hnu Hfe Hop Hwa Hdr] Hw Hm Hm' Hc Hj Hb Hr He.
  pose proof (load_go p i w w' Hw) as Hl. pose proof (lookup_lt_Some _ _ _ Hw) as Hi.
  assert (load (go i w' (with_wait_mutex m p)) = load p) as Hl' by (change (load (go i w' (with_wait_mutex m p))) with (load (go i w' p)); lia).
  constructor; rewrite ?Hl'; cbn; try done.
  - by rewrite length_insert.
  - intros j Hj'. rewrite length_insert. destruct Hm' as [Hm'|[Hm'|Hm']]; try congruence. apply How. congruence.
  - intros H. apply elem_of_insert in H as [H|H]; auto.
  - rewrite Hon. f_equiv. destruct (executing_insert (threads p) i w w' Hw) as (rest & -> & ->). by rewrite Hj.
  - intros Hrun. apply Forall_insert; [by apply Hop|]. by apply Hr.
  - intros Hrun Hwt. destruct (Hr Hrun) as [_ Hr']. pose proof (sum_insert ready _ i w w' Hw). pose proof (sum_insert waiting _ i w w' Hw).
    destruct (decide (jobs p = [])) as [->|Hne]; [simpl; lia|].
    assert (~ (ready w' < ready w)%nat /\ ~ (waiting w < waiting w')%nat) as [] by tauto.
    assert (0 < sum_list_with waiting (threads p))%nat as Hpos by lia. specialize (Hwa Hrun Hpos). lia.
  - intros Hla Had H. apply elem_of_insert in H as [H|H]; auto.
Qed.

(** A worker that holds the lock takes the first job. *)
Lemma take_job_ok p i w w' h js :
  pool_ok n p -> threads p !! i = Some w -> jobs p = h :: js ->
  lock_ok None (<[i := w']> (threads p)) ->
  counted w = 0%nat -> counted w' = 1%nat -> job_of w = None -> job_of w' = Some h -> waiting w' = 0%nat ->
  draining w' = draining w -> w' <> w_exit -> w' <> w_block ->
  pool_ok n (go i w' (unlock (take_job h js p))).
Proof using Type.
  intros [Hsz Hlk How Hbl Hff Hon Hnu Hfe Hop Hwa Hdr] Hw Hjs Hm Hc Hc' Hj Hj' Hwt Hd He Hb.
  pose proof (load_go p i w w' Hw) as Hl.
  assert (load (go i w' (unlock (take_job h js p))) = load p) as Hl'.
  { unfold load in *. cbn in *. rewrite Hjs in *. cbn [length] in *. lia. }
  constructor; rewrite ?Hl'; cbn; try done.
  - by rewrite length_insert.
  - intros H. apply elem_of_insert in H as [H|H]; [done|]. specialize (Hbl H). congruence.
  - rewrite Hff, Hjs, <- app_assoc. done.
  - rewrite Hon. destruct (executing_insert (threads p) i w w' Hw) as (rest & -> & ->). rewrite Hj, Hj'. cbn [option_list app].
    rewrite <- app_assoc. f_equiv. symmetry. apply Permutation_cons_append.
  - intros Hrun. apply Forall_insert; [by apply Hop|]. rewrite Hd.
    specialize (Hop Hrun). rewrite Forall_forall in Hop. apply Hop. by eapply list_elem_of_lookup_2.
  - intros Hrun Hpos. pose proof (sum_insert ready _ i w w' Hw). pose proof (sum_insert waiting _ i w w' Hw).
    assert (ready w <= 1)%nat by (destruct w; simpl; lia). specialize (Hwa Hrun ltac:(lia)). rewrite Hjs in Hwa. cbn [length] in Hwa. lia.
  - intros Hla Had H. apply elem_of_insert in H as [H|H]; [done|]. specialize (Hdr Hla Had H). congruence.
Qed.

(** A job ends. *)
Lemma finish_ok p i w w' h :
  pool_ok n p -> threads p !! i = Some w -> job_of w = Some h -> job_of w' = None ->
  counted w' = counted w -> holds w' = holds w -> waiting w' = 0%nat -> ready w' = ready w -> draining w' = draining w ->
  w' <> w_exit -> w' <> w_block ->
  pool_ok n (go i w' (with_finished (finished p ++ [h]) p)).
Proof using Type.
  intros [Hsz Hlk How Hbl Hff Hon Hnu Hfe Hop Hwa Hdr] Hw Hj Hj' Hc Hh Hwt Hr Hd He Hb.
  pose proof (load_go p i w w' Hw) as Hl. pose proof (lookup_lt_Some _ _ _ Hw) as Hi.
  assert (load (go i w' (with_finished (finished p ++ [h]) p)) = load p) as Hl'
    by (change (load (go i w' (with_finished (finished p ++ [h]) p))) with (load (go i w' p)); lia).
  constructor; rewrite ?Hl'; cbn; rewrite ?length_insert; try done.
  - by eapply lock_ok_keep.
  - intros H. apply elem_of_insert in H as [H|H]; auto; done.
  - rewrite Hon. destruct (executing_insert (threads p) i w w' Hw) as (rest & -> & ->). rewrite Hj, Hj'. cbn [option_list app].
    by rewrite <- app_assoc.
  - intros Hrun. apply Forall_insert; [by apply Hop|]. rewrite Hd.
    specialize (Hop Hrun). rewrite Forall_forall in Hop. apply Hop. by eapply list_elem_of_lookup_2.
  - intros Hrun Hpos. pose proof (sum_insert ready _ i w w' Hw). pose proof (sum_insert waiting _ i w w' Hw).
    specialize (Hwa Hrun ltac:(lia)). lia.
  - intros Hla Had H. apply elem_of_insert in H as [H|H]; [done|auto].
Qed.

(** [num_jobs] forgets a job that has ended. *)
Lemma job_done_ok p i w w' :
  pool_ok n p -> threads p !! i = Some w -> counted w = 1%nat -> counted w' = 0%nat -> job_of w = None -> job_of w' = None ->
  holds w' = holds w -> waiting w' = 0%nat -> (ready w <= ready w')%nat -> draining w' = draining w ->
  w' <> w_exit -> w' <> w_block ->
  pool_ok n (go i w' (job_done p)).
Proof using Type.
  intros [Hsz Hlk How Hbl Hff Hon Hnu Hfe Hop Hwa Hdr] Hw Hc Hc' Hj Hj' Hh Hwt Hr Hd He Hb.
  pose proof (load_go p i w w' Hw) as Hl. pose proof (lookup_lt_Some _ _ _ Hw) as Hi.
  assert (load (go i w' (job_done p)) = load p - 1)%nat as Hl' by (change (load (go i w' (job_done p))) with (load (go i w' p)); lia).
  assert (0 < load p)%nat as Hpl by lia. constructor; rewrite ?Hl'; cbn; rewrite ?length_insert; try done.
  - by eapply lock_ok_keep.
  - intros H. apply elem_of_insert in H as [H|H]; auto; done.
  - rewrite Hon. destruct (executing_insert (threads p) i w w' Hw) as (rest & -> & ->). by rewrite Hj, Hj'.
  - rewrite Hnu. replace (u64 (Z.of_nat (load p) - Z.of_nat (sum_list (adding p))) - 1)
      with (u64 (Z.of_nat (load p) - Z.of_nat (sum_list (adding p))) + -1) by lia. rewrite u64_shift. apply (f_equal u64). lia.
  - lia.
  - intros Hrun. apply Forall_insert; [by apply Hop|]. rewrite Hd.
    specialize (Hop Hrun). rewrite Forall_forall in Hop. apply Hop. by eapply list_elem_of_lookup_2.
  - intros Hrun Hpos. pose proof (sum_insert ready _ i w w' Hw). pose proof (sum_insert waiting _ i w w' Hw).
    specialize (Hwa Hrun ltac:(lia)). lia.
  - intros Hla Had H. apply elem_of_insert in H as [H|H]; [done|auto].
Qed.

Lemma with_mutex_same p : with_wait_mutex (wait_mutex p) p = p.
Proof using Type. by destruct p. Qed.

Lemma drained p : pool_ok n p -> num_jobs p <= 0 -> adding p = [] -> jobs p = [].
Proof using Type.
  intros Hok Hn Ha. pose proof (ok_num n p Hok) as Hnu. pose proof (ok_few n p Hok) as Hfe.
  rewrite Ha in Hnu. cbn in Hnu. unfold u64 in Hnu. rewrite wrap_small in Hnu by lia.
  assert (load p = 0%nat) as Hl by lia. unfold load in Hl. destruct (jobs p); [done|simpl in Hl; lia].
Qed.

Lemma worker_ok p i p' : pool_ok n p -> worker_step i p = Some p' -> pool_ok n p'.
Proof using Type.
  intros Hok H. unfold worker_step in H. destruct (threads p !! i) as [w|] eqn:Hw; [|done].
  pose proof (ok_lock n p Hok) as Hlk. pose proof (ok_block n p Hok) as Hbl.
  assert (holds w = true -> wait_mutex p = Some i) as Hown by (apply Hlk; done).
  assert (forall w', holds w' = holds w -> lock_ok (wait_mutex p) (<[i := w']> (threads p))) as Hkeep
    by (intros; by eapply lock_ok_keep).
  assert (forall w', holds w = true -> holds w' = false -> lock_ok None (<[i := w']> (threads p))) as Hrel
    by (intros; by eapply lock_ok_release).
  assert (running p = true -> draining w = false) as Hdr.
  { intros Hr. pose proof (ok_open n p Hok Hr) as Ho. rewrite Forall_forall in Ho. apply Ho. by eapply list_elem_of_lookup_2. }
  destruct w; try (injection H as <-); try done.
  - destruct (running p) eqn:Hr; rewrite <- (with_mutex_same p); (eapply move_ok; [exact Hok|exact Hw|..]); try done;
      try (by apply Hkeep); try (by right; right); [|congruence]. intros _. split; [done|simpl; lia].
  - unfold lock in H. destruct (wait_mutex p) as [o|] eqn:Hm; [done|]. injection H as <-.
    eapply move_ok; [exact Hok|exact Hw|..]; try done; [by eapply lock_ok_acquire|by left|].
    intros _. split; [done|simpl; lia].
  - destruct (jobs p) as [|h js] eqn:Hjs.
    + destruct (running p) eqn:Hr; injection H as <-.
      * rewrite <- (with_mutex_same p). eapply move_ok; [exact Hok|exact Hw|..]; try done; [by apply Hkeep|by right; right].
      * eapply move_ok; [exact Hok|exact Hw|..]; try done; first [by apply Hrel|by right; left|congruence].
    + injection H as <-. by eapply take_job_ok; [exact Hok|exact Hw|exact Hjs|apply Hrel|..].
  - assert (jobs p = []) as Hjs by (apply Hbl; by eapply list_elem_of_lookup_2).
    eapply move_ok; [exact Hok|exact Hw|..]; try done; [by apply Hrel|by right; left].
  - unfold lock in H. destruct (wait_mutex p) as [o|] eqn:Hm; [done|]. injection H as <-.
    eapply move_ok; [exact Hok|exact Hw|..]; try done; [by eapply lock_ok_acquire|by left|].
    intros _. split; [done|simpl; lia].
  - by eapply finish_ok; [exact Hok|exact Hw|..].
  - eapply job_done_ok; [exact Hok|exact Hw|..]; try done. simpl. lia.
  - destruct (0 <? num_jobs p) eqn:E; reflect_bools; rewrite <- (with_mutex_same p); (eapply move_ok; [exact Hok|exact Hw|..]);
      try done; try (by apply Hkeep); try (by right; right); try (intros Hr; by specialize (Hdr Hr)).
    intros _ _ Ha. by apply drained.
  - unfold lock in H. destruct (wait_mutex p) as [o|] eqn:Hm; [done|]. cbn in H.
    destruct (jobs p) as [|h js] eqn:Hjs; injection H as <-.
    + eapply (move_ok p i d_lock w_exit None); [exact Hok|exact Hw|..]; try done; [by apply Hkeep|by right; left|].
      intros Hr. by specialize (Hdr Hr).
    + by eapply (take_job_ok p i d_lock (d_run h) h js); [exact Hok|exact Hw|exact Hjs|apply Hkeep|..].
  - by eapply finish_ok; [exact Hok|exact Hw|..].
  - by eapply job_done_ok; [exact Hok|exact Hw|..].
Qed.
End Preservation.

(** *** Notifications *)

(** Some of the waiting workers are woken. *)
Definition roused : list worker -> list worker -> Prop :=
  Forall2 (fun w w' => w' = w \/ w = w_wait /\ w' = w_woken).

Lemma roused_refl ws : roused ws ws.
Proof. induction ws; constructor; auto. Qed.

Lemma roused_trans ws ws' ws'' : roused ws ws' -> roused ws' ws'' -> roused ws ws''.
Proof.
  intros H. revert ws''. induction H as [|w w' ws ws' Hw H IH]; intros ws'' H2; inversion H2; subst; constructor; [|by apply IH].
  naive_solver.
Qed.

Lemma roused_insert ws i : ws !! i = Some w_wait -> roused ws (<[i := w_woken]> ws).
Proof.
  intros H. rewrite (insert_split ws i w_wait w_woken H). rewrite (list_split_at ws i w_wait H) at 1.
  apply Forall2_app; [apply roused_refl|]. constructor; [by right|apply roused_refl].
Qed.

Lemma roused_all ws : roused ws (notify_all ws).
Proof. induction ws as [|w ws IH]; constructor; [|done]. destruct w; auto. Qed.

Lemma roused_length ws ws' (H : roused ws ws') : length ws' = length ws.
Proof. symmetry. by eapply Forall2_length. Qed.

Lemma roused_lock ws ws' (H : roused ws ws') m : lock_ok m ws -> lock_ok m ws'.
Proof.
  intros Hl i w Hw. destruct (Forall2_lookup_r _ _ _ _ _ H Hw) as (v & Hv & [->|[-> ->]]); [by apply Hl|].
  rewrite <- (Hl i _ Hv). done.
Qed.

Lemma roused_in ws ws' (H : roused ws ws') w : w <> w_woken -> w ∈ ws' -> w ∈ ws.
Proof.
  intros Hne Hin. apply list_elem_of_lookup in Hin as [i Hi].
  destruct (Forall2_lookup_r _ _ _ _ _ H Hi) as (v & Hv & [->|[-> ->]]); [by eapply list_elem_of_lookup_2|done].
Qed.

Lemma roused_executing ws ws' (H : roused ws ws') : executing ws' = executing ws.
Proof.
  unfold executing. induction H as [|w w' l l' [->|[-> ->]] _ IH]; [done|..]; cbn [omap list_omap] in *; by rewrite IH.
Qed.

Lemma roused_counted ws ws' (H : roused ws ws') : sum_list_with counted ws' = sum_list_with counted ws.
Proof. induction H as [|w w' l l' [->|[-> ->]] _ IH]; cbn [sum_list_with counted]; lia. Qed.

Lemma roused_open ws ws' (H : roused ws ws') : Forall (fun w => draining w = false) ws -> Forall (fun w => draining w = false) ws'.
Proof.
  induction H as [|w w' l l' Hw _ IH]; [done|]. rewrite !Forall_cons. intros [? ?].
  split; [|auto]. by destruct Hw as [->|[-> ->]].
Qed.

Lemma roused_ready ws ws' (H : roused ws ws') :
  (sum_list_with ready ws' + sum_list_with waiting ws' = sum_list_with ready ws + sum_list_with waiting ws)%nat
  /\ (sum_list_with waiting ws' <= sum_list_with waiting ws)%nat.
Proof. induction H as [|w w' l l' [->|[-> ->]] _ IH]; cbn [sum_list_with ready waiting]; lia. Qed.

Lemma nobody_waits ws : w_wait ∉ ws -> sum_list_with waiting ws = 0%nat.
Proof.
  induction ws as [|w ws IH]; [done|]. rewrite not_elem_of_cons. intros [Hw Hin]. cbn [sum_list_with]. rewrite IH by done.
  by destruct w.
Qed.

Lemma notify_one_roused ws ws' :
  notify_one ws ws' -> roused ws ws' /\ (sum_list_with waiting ws' = sum_list_with waiting ws - 1)%nat.
Proof.
  intros [ws0 Hn|ws0 i Hi].
  - split; [apply roused_refl|]. by rewrite nobody_waits.
  - split; [by apply roused_insert|]. pose proof (sum_insert waiting _ i _ w_woken Hi) as Hs. cbn [waiting] in Hs. lia.
Qed.

Lemma notify_times_roused n ws ws' :
  notify_times n ws ws' -> roused ws ws' /\ (sum_list_with waiting ws' = sum_list_with waiting ws - n)%nat.
Proof.
  induction 1 as [ws|n ws ws' ws'' H1 _ [IHr IHw]]; [split; [apply roused_refl|lia]|].
  apply notify_one_roused in H1 as [Hr Hw]. split; [by eapply roused_trans|lia].
Qed.

Lemma notify_range_roused n ws ws' :
  notify_range n ws ws' -> roused ws ws'
    /\ (sum_list_with waiting ws' = 0 \/ sum_list_with waiting ws' = sum_list_with waiting ws - n)%nat.
Proof.
  intros [_|ws0 _ Ht]; [|apply notify_times_roused in Ht as [? ?]; auto]. split; [apply roused_all|]. left.
  unfold notify_all. induction ws as [|w ws IH]; [done|]. cbn [map sum_list_with]. rewrite IH. by destruct w.
Qed.

(** *** Steps of callers and of [shutdown] *)

Section Callers.
Context (n : nat).

(** The pool with jobs [js] queued, and the numbers changed to match. *)
Lemma roused_ok p q js :
  pool_ok n p -> roused (threads p) (threads q) -> wait_mutex q = wait_mutex p ->
  jobs q = jobs p ++ js -> pushed q = pushed p ++ js -> started q = started p -> finished q = finished p ->
  running q = running p -> (js <> [] -> wait_mutex p = None) ->
  num_jobs q = u64 (Z.of_nat (load q) - Z.of_nat (sum_list (adding q))) -> Z.of_nat (load q) < 2 ^ 64 ->
  (running p = true -> (0 < sum_list_with waiting (threads q))%nat ->
   (length js + sum_list_with waiting (threads q) + sum_list (adding p) + sum_list (notifying p)
    <= sum_list_with waiting (threads p) + sum_list (adding q) + sum_list (notifying q))%nat) ->
  (running p = false -> late q = false -> adding q = [] -> js = [] /\ late p = false /\ adding p = []) ->
  pool_ok n q.
Proof using Type.
  intros [Hsz Hlk How Hbl Hff Hon Hnu Hfe Hop Hwa Hdr] Hr Em Ej Ep Es Ef Er Hjs Hn Hf Hw Hl.
  constructor; rewrite ?Em, ?Ej, ?Ep, ?Es, ?Ef, ?Er; try done.
  - by rewrite (roused_length _ _ Hr).
  - by eapply roused_lock.
  - by rewrite (roused_length _ _ Hr).
  - intros Hin. apply (roused_in _ _ Hr) in Hin; [|done]. rewrite (Hbl Hin). destruct js as [|h js]; [done|].
    apply list_elem_of_lookup in Hin as [i Hi]. pose proof (proj1 (Hlk i _ Hi) eq_refl) as H. rewrite Hjs in H by done. done.
  - by rewrite Hff, <- app_assoc.
  - by rewrite (roused_executing _ _ Hr).
  - intros Hrun. apply (roused_open _ _ Hr), Hop. done.
  - intros Hrun Hpos. specialize (Hw Hrun Hpos). destruct (roused_ready _ _ Hr) as [H1 H2].
    specialize (Hwa Hrun ltac:(lia)). rewrite length_app. lia.
  - intros Hla Ha Hin. apply (roused_in _ _ Hr) in Hin; [|done]. destruct (running p) eqn:Hrun.
    + specialize (Hop eq_refl). rewrite Forall_forall in Hop. by specialize (Hop _ Hin).
    + destruct (Hl eq_refl Hla Ha) as (-> & Hlp & Hap). by rewrite (Hdr Hlp Hap Hin).
Qed.

Lemma sum_list_middle before k after : (sum_list (before ++ k :: after) = k + sum_list (before ++ after))%nat.
Proof using Type. rewrite !sum_list_with_app. cbn. lia. Qed.

Lemma load_roused p q :
  roused (threads p) (threads q) -> load q = (length (jobs q) + sum_list_with counted (threads p) + length (announced q))%nat.
Proof using Type. intros Hr. unfold load. by rewrite (roused_counted _ _ Hr). Qed.

Lemma spurious_ok p i : pool_ok n p -> threads p !! i = Some w_wait -> pool_ok n (go i w_woken p).
Proof using Type.
  intros Hok Hw. rewrite <- (with_mutex_same p). eapply move_ok; [exact Hok|exact Hw|..]; try done.
  - eapply lock_ok_keep; [apply (ok_lock n p Hok)|exact Hw|done].
  - by right; right.
  - intros _. split; [done|simpl; lia].
Qed.

Lemma announce_ok p before after h :
  pool_ok n p -> cleared p = before ++ h :: after -> few_jobs p 1 -> pool_ok n (announce before after h p).
Proof using Type.
  intros Hok Hc Hf. pose proof (ok_num n p Hok) as Hn. unfold few_jobs in Hf.
  assert (load (announce before after h p) = load p + 1)%nat as Hl by (unfold load; cbn; lia).
  apply (roused_ok p _ []); try done; try (cbn; by rewrite ?app_nil_r); try apply roused_refl; rewrite ?Hl; cbn [adding announce with_cleared with_num_jobs with_announced num_jobs].
  - rewrite Hn, u64_shift. apply (f_equal u64). lia.
  - done.
Qed.

Lemma queue_ok p before after h ws :
  pool_ok n p -> announced p = before ++ h :: after -> wait_mutex p = None -> notify_one (threads p) ws ->
  pool_ok n (with_threads ws (queue_announced before after h p)).
Proof using Type.
  intros Hok Ha Hm Hn. apply notify_one_roused in Hn as [Hr Hw]. pose proof (ok_num n p Hok) as Hnu. pose proof (ok_few n p Hok) as Hfe.
  assert (load (with_threads ws (queue_announced before after h p)) = load p) as Hl.
  { rewrite (load_roused p) by exact Hr. unfold load. cbn. rewrite Ha. rewrite !length_app. simpl. lia. }
  apply (roused_ok p _ [h]); try done; rewrite ?Hl; try done; cbn.
  - intros _ Hpos. lia.
  - intros Hrun. rewrite Hrun. cbn. rewrite orb_true_r. done.
Qed.

Lemma queue_range_ok p hs :
  pool_ok n p -> wait_mutex p = None -> few_jobs p (length hs) -> pool_ok n (queue_range hs p).
Proof using Type.
  intros Hok Hm Hf. pose proof (ok_num n p Hok) as Hnu. unfold few_jobs in Hf.
  assert (load (queue_range hs p) = load p + length hs)%nat as Hl by (unfold load; cbn; rewrite length_app; lia).
  apply (roused_ok p _ hs); try done; try apply roused_refl; rewrite ?Hl; cbn [adding queue_range with_adding sum_list num_jobs enqueue with_late with_pushed with_jobs].
  - rewrite Hnu. apply (f_equal u64). cbn. lia.
  - done.
  - intros _ Hpos. cbn in *. lia.
Qed.

Lemma add_range_ok p before after k :
  pool_ok n p -> adding p = before ++ k :: after -> pool_ok n (add_range before after k p).
Proof using Type.
  intros Hok Ha. pose proof (ok_num n p Hok) as Hnu. pose proof (ok_few n p Hok) as Hfe. pose proof (sum_list_middle before k after) as Hs.
  rewrite <- Ha in Hs.
  apply (roused_ok p _ []); try done; try (cbn; by rewrite ?app_nil_r); try apply roused_refl; cbn [num_jobs add_range with_late with_notifying with_adding with_num_jobs adding].
  - rewrite Hnu, u64_shift. apply (f_equal u64). change (load (add_range before after k p)) with (load p). lia.
  - intros _ Hpos. cbn in *. unfold sum_list in *. lia.
  - intros Hrun. cbn. rewrite Hrun, orb_true_r. done.
Qed.

Lemma notify_range_ok p before after k ws :
  pool_ok n p -> notifying p = before ++ k :: after -> notify_range k (threads p) ws ->
  pool_ok n (with_threads ws (with_notifying (before ++ after) p)).
Proof using Type.
  intros Hok Ha Hn. apply notify_range_roused in Hn as [Hr Hw]. pose proof (ok_num n p Hok) as Hnu. pose proof (ok_few n p Hok) as Hfe.
  pose proof (sum_list_middle before k after) as Hs. rewrite <- Ha in Hs.
  assert (load (with_threads ws (with_notifying (before ++ after) p)) = load p) as Hl by (rewrite (load_roused p) by exact Hr; done).
  apply (roused_ok p _ []); try done; try (cbn; by rewrite ?app_nil_r); rewrite ?Hl; try done; cbn.
  intros _ Hpos. unfold sum_list in *. lia.
Qed.

Lemma shutdown_ok p : pool_ok n p -> running p = true -> pool_ok n (begin_shutdown p).
Proof using Type.
  intros [Hsz Hlk How Hbl Hff Hon Hnu Hfe Hop Hwa Hdr] Hrun. constructor; try done.
Qed.

Lemma shutdown_notify_ok p : pool_ok n p -> pool_ok n (shutdown_notify p).
Proof using Type.
  intros Hok. pose proof (roused_all (threads p)) as Hr.
  assert (load (shutdown_notify p) = load p) as Hl by (rewrite (load_roused p) by exact Hr; done).
  apply (roused_ok p _ []); try done; try (cbn; by rewrite ?app_nil_r); rewrite ?Hl; try apply Hok; cbn.
  intros _ Hpos. destruct (roused_ready _ _ Hr). lia.
Qed.

Lemma pool_step_ok p p' : pool_ok n p -> step p p' -> pool_ok n p'.
Proof using Type.
  intros Hok Hs. destruct Hs; eauto using worker_ok, spurious_ok, announce_ok, queue_ok, queue_range_ok, add_range_ok,
    notify_range_ok, shutdown_ok, shutdown_notify_ok.
  - unfold accept_job in *. destruct (running p) eqn:E; simplify_eq. by destruct Hok.
  - by destruct Hok.
Qed.
End Callers.

Definition pool_threads (n : nat) : nat := if (n =? 0)%nat then 4 else n.

Lemma new_pool_ok n : pool_ok (pool_threads n) (make_thread_pool n).
Proof.
  unfold pool_threads. set (k := if (n =? 0)%nat then 4%nat else n).
  assert (forall f : worker -> nat, f w_test = 0%nat -> sum_list_with f (replicate k w_test) = 0%nat) as Hz.
  { intros f Hf. induction k as [|m IH]; [done|]. cbn. rewrite Hf. exact IH. }
  assert (forall w, w ∈ replicate k w_test -> w = w_test) as Hin by (intros w H; by apply elem_of_replicate in H as [-> _]).
  assert (load (make_thread_pool n) = 0%nat) as Hl by (unfold load; cbn; fold k; by rewrite Hz).
  constructor; rewrite ?Hl; try done; unfold make_thread_pool; cbn; fold k.
  - apply length_replicate.
  - intros i w H. apply lookup_replicate in H as [-> _]. done.
  - clear. induction k as [|m IH]; [done|]. exact IH.
  - intros _. by apply Forall_replicate.
  - intros _. rewrite Hz by done. lia.
Qed.

Lemma reachable_pool_ok n p : reachable n p -> pool_ok (pool_threads n) p.
Proof. induction 1; eauto using new_pool_ok, pool_step_ok. Qed.

(** ** Properties *)

(** C23: in every interleaving of workers, callers and [shutdown], jobs are taken
    in the order they were queued, each by exactly one worker: those taken are
    those finished and those being run.  The mutex has one owner, and
    [num_jobs] counts the jobs announced, queued and run, less those
    [resume(range)] has queued and not yet added. *)
Theorem thread_pool_exactly_once n p :
  reachable n p ->
  pushed p = started p ++ jobs p
  /\ started p ≡ₚ finished p ++ executing (threads p)
  /\ size p = u64 (Z.of_nat (load p) - Z.of_nat (sum_list (adding p)))
  /\ (adding p = [] -> size p = Z.of_nat (load p))
  /\ (forall i j w v, threads p !! i = Some w -> threads p !! j = Some v -> holds w = true -> holds v = true -> i = j).
Proof.
  intros Hr. destruct (reachable_pool_ok n p Hr) as [Hsz Hlk How Hbl Hff Hon Hnu Hfe Hop Hwa Hdr]. unfold size.
  split_and!; try done.
  - intros Ha. rewrite Hnu, Ha. unfold u64. cbn. rewrite wrap_small; lia.
  - intros i j w v Hi Hj Hw Hv. apply (Hlk i w Hi) in Hw. apply (Hlk j v Hj) in Hv. congruence.
Qed.

Definition worker_run : thread_pool -> thread_pool -> Prop := rtc (fun p p' => exists i, worker_step i p = Some p').

Lemma run_step i p p' q : worker_step i p = Some p' -> worker_run p' q -> worker_run p q.
Proof. intros H. apply rtc_l. by exists i. Qed.

Section Starts.
Context (h : nat) (js : list nat).

Definition starts (p : thread_pool) : Prop := exists q, worker_run p q /\ started q = started p ++ [h].

Lemma starts_check p i : threads p !! i = Some w_check -> jobs p = h :: js -> starts p.
Proof using Type.
  intros Hw Hj. eexists. split; [eapply (run_step i); [unfold worker_step; by rewrite Hw, Hj|apply rtc_refl]|done].
Qed.

Lemma starts_lock p i w :
  w = w_lock \/ w = w_woken -> threads p !! i = Some w -> wait_mutex p = None -> jobs p = h :: js -> starts p.
Proof using Type.
  intros Hc Hw Hm Hj. pose proof (lookup_lt_Some _ _ _ Hw) as Hi.
  destruct (starts_check (go i w_check (with_wait_mutex (Some i) p)) i) as (q & Hr & Hs); [by apply list_lookup_insert_eq|done|].
  exists q. split; [|done]. eapply (run_step i); [|exact Hr]. unfold worker_step, lock. rewrite Hw, Hm. by destruct Hc as [->| ->].
Qed.

Lemma starts_test p i :
  threads p !! i = Some w_test -> running p = true -> wait_mutex p = None -> jobs p = h :: js -> starts p.
Proof using Type.
  intros Hw Hr Hm Hj. pose proof (lookup_lt_Some _ _ _ Hw) as Hi.
  destruct (starts_lock (go i w_lock p) i w_lock) as (q & Hq & Hs); [by left|by apply list_lookup_insert_eq|done..|].
  exists q. split; [|done]. eapply (run_step i); [|exact Hq]. unfold worker_step. by rewrite Hw, Hr.
Qed.

Lemma starts_done p i :
  threads p !! i = Some w_done -> running p = true -> wait_mutex p = None -> jobs p = h :: js -> starts p.
Proof using Type.
  intros Hw Hr Hm Hj. pose proof (lookup_lt_Some _ _ _ Hw) as Hi.
  destruct (starts_test (go i w_test (job_done p)) i) as (q & Hq & Hs); [by apply list_lookup_insert_eq|done..|].
  exists q. split; [|done]. eapply (run_step i); [|exact Hq]. unfold worker_step. by rewrite Hw.
Qed.

Lemma starts_run p i k :
  threads p !! i = Some (w_run k) -> running p = true -> wait_mutex p = None -> jobs p = h :: js -> starts p.
Proof using Type.
  intros Hw Hr Hm Hj. pose proof (lookup_lt_Some _ _ _ Hw) as Hi.
  destruct (starts_done (go i w_done (with_finished (finished p ++ [k]) p)) i) as (q & Hq & Hs);
    [by apply list_lookup_insert_eq|done..|].
  exists q. split; [|done]. eapply (run_step i); [|exact Hq]. unfold worker_step. by rewrite Hw.
Qed.
End Starts.

Lemma all_wait ws : Forall (eq w_wait) ws -> sum_list_with waiting ws = length ws /\ sum_list_with ready ws = 0%nat.
Proof. induction 1 as [|w ws <- _ [IH1 IH2]]; [done|]. cbn [sum_list_with waiting ready length]. lia. Qed.

(** C24: no wake-up is lost while the pool runs: unless a [resume(range)] is
    between queueing and notifying, whenever a job is queued the workers alone
    (no caller, no spurious wake-up) can start the oldest one. *)
Theorem thread_pool_job_starts n p h js :
  reachable n p -> running p = true -> adding p = [] -> notifying p = [] -> jobs p = h :: js ->
  exists q, worker_run p q /\ started q = started p ++ [h].
Proof.
  intros Hr Hrun Ha Hn Hj. destruct (reachable_pool_ok n p Hr) as [Hsz Hlk How Hbl Hff Hon Hnu Hfe Hop Hwa Hdr].
  destruct (wait_mutex p) as [o|] eqn:Hm.
  - destruct (lookup_lt_is_Some_2 (threads p) o) as [w Hw]; [by apply How|].
    pose proof (proj2 (Hlk o w Hw) eq_refl) as Hh. destruct w; try done.
    + by eapply starts_check.
    + rewrite Hbl in Hj; [done|]. by eapply list_elem_of_lookup_2.
  - destruct (decide (Forall (eq w_wait) (threads p))) as [Hall|Hnot].
    + destruct (all_wait _ Hall) as [H1 H2]. unfold pool_threads in Hsz.
      assert (0 < length (threads p))%nat as Hpos by (rewrite Hsz; destruct n; simpl; lia).
      specialize (Hwa Hrun ltac:(lia)). rewrite H2, Ha, Hn, Hj in Hwa. simpl in Hwa. lia.
    + apply not_Forall_Exists in Hnot; [|intros w; apply worker_eq_dec]. apply Exists_exists in Hnot as (w & Hin & Hw).
      pose proof (proj1 (Forall_forall _ _) (Hop Hrun) w Hin) as Hd. apply list_elem_of_lookup in Hin as [i Hi].
      assert (holds w = false) as Hh by (destruct (holds w) eqn:E; [by apply (Hlk i w Hi) in E|done]).
      change (starts h p). destruct w; try done.
      * by eapply starts_test.
      * eapply starts_lock; [by left|done..].
      * eapply starts_lock; [by right|done..].
      * by eapply starts_run.
      * by eapply starts_done.
Qed.

(** C25: once every worker has ended, so that [shutdown] has joined them, no job
    is half done or lost: the jobs that were queued, in order, are those that
    were started, each of which has run to its end once, and those still in the
    queue.  Nothing is still in the queue if, after [running] was cleared, no job
    was queued and no count added to [num_jobs], and no call of [resume] with a
    range is between queueing and adding.  (Without this a job may be left:
    [thread_pool_shutdown_races].) *)
Theorem thread_pool_drains n p :
  reachable n p -> Forall (eq w_exit) (threads p) ->
  pushed p = started p ++ jobs p /\ started p ≡ₚ finished p
  /\ (late p = false -> adding p = [] -> jobs p = [] /\ finished p ≡ₚ pushed p).
Proof.
  intros Hr Hall. destruct (reachable_pool_ok n p Hr) as [Hsz Hlk How Hbl Hff Hon Hnu Hfe Hop Hwa Hdr].
  assert (w_exit ∈ threads p) as Hin.
  { destruct (threads p) as [|w ws]; [unfold pool_threads in Hsz; destruct n; simpl in Hsz; lia|].
    apply Forall_cons in Hall as [<- _]. left. }
  assert (executing (threads p) = []) as He.
  { clear -Hall. induction Hall as [|w ws <- _ IH]; [done|]. exact IH. }
  rewrite He, app_nil_r in Hon. split_and!; [done|done|]. intros Hla Ha.
  assert (jobs p = []) as Hj by auto. split; [done|]. by rewrite Hff, Hj, app_nil_r, Hon.
Qed.

(** A run to test the hypotheses on: one worker, one job. *)
Definition steps_of (ids : list nat) (p : thread_pool) : option thread_pool :=
  fold_left (fun q i => match q with Some q => worker_step i q | None => None end) ids (Some p).

Lemma steps_of_reachable n ids p q : reachable n p -> steps_of ids p = Some q -> reachable n q.
Proof.
  unfold steps_of. revert p. induction ids as [|i ids IH]; intros p Hr H; [by injection H as <-|].
  cbn [fold_left] in H. destruct (worker_step i p) as [p'|] eqn:E.
  - apply (IH p'); [|done]. eapply reach_step; [exact Hr|]. by eapply step_worker.
  - exfalso. clear -H. induction ids; [done|]. by cbn [fold_left] in H.
Qed.

(** Job 7 has been accepted, announced and queued. *)
Definition one_job : thread_pool :=
  match accept_job 7 (make_thread_pool 1) with
  | Some p => queue_announced [] [] 7 (announce [] [] 7 p)
  | None => make_thread_pool 1
  end.

Lemma one_job_reachable : reachable 1 one_job.
Proof.
  set (q := announce [] [] 7 (with_cleared [7%nat] (make_thread_pool 1))).
  change one_job with (with_threads [w_test] (queue_announced [] [] 7 q)). apply (reach_step 1 q).
  - eapply reach_step; [eapply reach_step; [apply reach_init|by apply (step_accept 7)]|].
    by apply (step_announce [] [] 7).
  - apply step_queue; [done|done|]. apply notify_nobody. by intros H%list_elem_of_singleton.
Qed.

Lemma thread_pool_exactly_once_witness : size one_job = 1 /\ pushed one_job = [7%nat].
Proof.
  destruct (thread_pool_exactly_once 1 one_job one_job_reachable) as (H1 & _ & _ & H2 & _).
  split; [rewrite (H2 eq_refl); reflexivity|rewrite H1; reflexivity].
Defined.

Lemma thread_pool_job_starts_witness : exists q, worker_run one_job q /\ started q = [7%nat].
Proof. apply (thread_pool_job_starts 1 one_job 7 [] one_job_reachable); reflexivity. Defined.

(** The same pool after the job has run and [shutdown] has ended the worker. *)
Definition drained_pool : thread_pool :=
  default one_job (steps_of [0; 0; 0; 0; 0; 0]%nat (shutdown_notify (begin_shutdown one_job))).

Lemma drained_pool_reachable : reachable 1 drained_pool.
Proof.
  assert (steps_of [0; 0; 0; 0; 0; 0]%nat (shutdown_notify (begin_shutdown one_job)) = Some drained_pool) as H
    by (vm_compute; reflexivity).
  eapply steps_of_reachable; [|exact H].
  eapply reach_step; [eapply reach_step; [exact one_job_reachable|by apply step_shutdown]|by apply step_shutdown_notify].
Qed.

Lemma thread_pool_drains_witness : finished drained_pool ≡ₚ pushed drained_pool.
Proof.
  apply (thread_pool_drains 1 drained_pool drained_pool_reachable); [|vm_compute; reflexivity..].
  replace (threads drained_pool) with [w_exit] by (vm_compute; reflexivity). by repeat constructor.
Defined.

(** three races of [shutdown].  It notifies without the mutex, so a worker
    between its test of the predicate and its wait misses the notification:
    the worker then waits, nothing but a spurious wake-up or another range of
    jobs moves the pool, and the join never ends.  A job whose caller was
    accepted before [shutdown] can be queued after the last worker has ended,
    and one queued by [resume(range)] before [shutdown] is left behind when a
    worker reads [num_jobs] before it is added. *)
Lemma thread_pool_shutdown_races :
  (exists p, reachable 1 p /\ closing p = s_join /\ threads p = [w_wait] /\ jobs p = []
    /\ forall p', step p p' -> p' = go 0 w_woken p \/ exists hs, p' = queue_range hs p)
  /\ (exists p, reachable 1 p /\ closing p = s_closed /\ threads p = [w_exit] /\ jobs p = [7%nat]
    /\ forall i, worker_step i p = None)
  /\ (exists p q, reachable 1 p /\ running p = true /\ pushed p = [7%nat] /\ rtc step p q
    /\ closing q = s_closed /\ jobs q = [7%nat] /\ forall i, worker_step i q = None).
Proof.
  assert (forall n p i p', reachable n p -> worker_step i p = Some p' -> reachable n p') as Hw
    by (intros; eapply reach_step; [eassumption|by eapply step_worker]).
  assert (forall p : thread_pool, threads p = [w_exit] -> forall i, worker_step i p = None) as Hx.
  { intros p Hp [|i]; unfold worker_step; rewrite Hp; done. }
  split_and!.
  - set (q := go 0 w_block (go 0 w_check (with_wait_mutex (Some 0%nat) (go 0 w_lock (make_thread_pool 1))))).
    exists (go 0 w_wait (unlock (shutdown_notify (begin_shutdown q)))). split_and!; try done.
    + apply (Hw 1%nat (shutdown_notify (begin_shutdown q)) 0%nat); [|reflexivity].
      eapply reach_step; [|by apply step_shutdown_notify]. eapply reach_step; [|by apply step_shutdown].
      apply (steps_of_reachable 1 [0; 0; 0]%nat (make_thread_pool 1)); [apply reach_init|reflexivity].
    + intros p' Hs. inversion Hs as [i ? ? Hi|i ? Hi|? ? ? Ha|before|before|hs|before|before| | | ? ? Hj]; subst; try done.
      * destruct i as [|i]; unfold worker_step in Hi; cbn in Hi; done.
      * destruct i as [|i]; [by left|by destruct i].
      * by destruct before.
      * by destruct before.
      * right. by exists hs.
      * by destruct before.
      * by destruct before.
      * cbn in Hj. by apply Forall_cons in Hj as [? _].
  - set (r := shutdown_notify (begin_shutdown (with_cleared [7%nat] (make_thread_pool 1)))).
    set (q := shutdown_joined (go 0 w_exit (go 0 d_test r))).
    exists (with_threads [w_exit] (queue_announced [] [] 7 (announce [] [] 7 q))). split_and!; try done; [|by apply Hx].
    eapply reach_step; [eapply reach_step; [|by apply (step_announce [] [] 7 q)]|].
    + eapply reach_step; [|apply step_shutdown_join; [done|by repeat constructor]].
      apply (Hw 1%nat (go 0 d_test r) 0%nat); [|reflexivity]. apply (Hw 1%nat r 0%nat); [|reflexivity].
      eapply reach_step; [|by apply step_shutdown_notify]. eapply reach_step; [|by apply step_shutdown].
      eapply reach_step; [apply reach_init|by apply (step_accept 7)].
    + apply (step_queue [] [] 7); [done|done|]. apply notify_nobody. by intros H%list_elem_of_singleton.
  - set (p := queue_range [7%nat] (make_thread_pool 1)).
    exists p, (shutdown_joined (go 0 w_exit (go 0 d_test (shutdown_notify (begin_shutdown p))))). split_and!; try done; [| |by apply Hx].
    + eapply reach_step; [apply reach_init|]. by apply step_queue_range.
    + eapply rtc_l; [by apply step_shutdown|]. eapply rtc_l; [by apply step_shutdown_notify|].
      eapply rtc_l; [by apply (step_worker 0)|]. eapply rtc_l; [by apply (step_worker 0)|].
      eapply rtc_l; [|apply rtc_refl]. apply step_shutdown_join; [done|by repeat constructor].
Qed.
