(* ===== verification/Pattern.v ===== *)
(** * Patterns (include/pattern/pattern.hpp, src/pattern/pattern.cpp)

    [expr::parse] is a shunting-yard parser: it moves literals and operators
    to an output queue and then drops the queue, so that no state is ever
    made.  The matcher runs a list of states over a string with an offset.
    Both are modelled with their indices: reading a [string_view] at its length
    is undefined, and [substr] past the end throws out of [noexcept] functions.

    [expr]'s three constructors and [expr::parse] differ in the string type
    only. *)

From Stdlib Require Import ZArith Lia Strings.Byte Strings.String.
From stdpp Require Import prelude list strings.
From S2P Require Import Prelude CxxStrings StringUtil.

(** ** Definitions *)

(** *** Data *)

Inductive repetition := once | zero_or_one | zero_or_more | one_or_more.

#[global] Instance repetition_eq_dec : EqDecision repetition.
Proof. solve_decision. Defined.

Inductive state_types :=
| state_literal (literal : list byte)
| state_string_alternation (choices : list (list byte))
| state_char_alternation (choices : list byte)
| state_wildcard.

Record state := { impl : state_types; rep : repetition }.

Record expr := { states : list state }.

(** By precedence, weakest to strongest. *)
Inductive op :=
| vertical_bar | bracket_open | bracket_close
| period
| asterisk | plus | question_mark
| paren_open | paren_close.

#[global] Instance op_eq_dec : EqDecision op.
Proof. solve_decision. Defined.

(** *** Parsing *)

Definition is_operator (c : byte) : bool := mem (lit "|[].*+?()") c.

(** [is_operator(string_view)] *)
Definition is_operator_view (str : list byte) : outcome bool :=
  if negb (length str =? 1)%nat then Ret false
  else let* c := index str 0 in Ret (is_operator c).

Definition op_to_char (o : op) : list byte :=
  match o with
  | vertical_bar => lit "|"
  | bracket_open => lit "["
  | bracket_close => lit "]"
  | period => lit "."
  | asterisk => lit "*"
  | plus => lit "+"
  | question_mark => lit "?"
  | paren_open => lit "("
  | paren_close => lit ")"
  end.

(** [operator<=] *)
Definition op_le (lhs rhs : op) : bool :=
  match lhs with
  | vertical_bar | bracket_open | bracket_close => true
  | period =>
      match rhs with vertical_bar | bracket_open | bracket_close => false | _ => true end
  | asterisk | plus | question_mark =>
      match rhs with vertical_bar | bracket_open | bracket_close | period => false | _ => true end
  | paren_open | paren_close =>
      match rhs with paren_close | paren_open => true | _ => false end
  end.

(** The output queue, and the operator stack with its top first. *)
Definition yard : Type := list (list byte) * list op.

(** The loop of [handle_op] *)
Fixpoint pop_stronger (o : op) (output : list (list byte)) (operators : list op) : yard :=
  match operators with
  | [] => (output, [])
  | top :: rest =>
      if negb (bool_decide (top = paren_open)) && op_le o top
      then pop_stronger o (output ++ [op_to_char top]) rest
      else (output, operators)
  end.

Definition handle_op (o : op) (y : yard) : yard :=
  let (output, operators) := pop_stronger o y.1 y.2 in (output, o :: operators).

(** The [while] loop and the last [pop] of a closing parenthesis or bracket;
    called with a stack that is not empty. *)
Fixpoint pop_until (opening : op) (mismatch : string) (output : list (list byte)) (operators : list op) : outcome yard :=
  match operators with
  | [] => Throw (runtime_error mismatch)
  | top :: rest =>
      if bool_decide (top = opening) then Ret (output, rest)
      else pop_until opening mismatch (output ++ [op_to_char top]) rest
  end.

Definition close (opening : op) (mismatch : string) (y : yard) : outcome yard :=
  match y.2 with
  | [] => Throw (runtime_error mismatch)
  | _ => pop_until opening mismatch y.1 y.2
  end.

(** [while (i < str.length() && !is_operator(str[i])) { ++i; if (str[i] == '\\') ++i; }] *)
Fixpoint scan_literal (fuel : nat) (str : list byte) (i : nat) : outcome nat :=
  match fuel with
  | O => OutOfFuel
  | S fuel =>
      if (i <? length str)%nat then
        let* c := index str i in
        if is_operator c then Ret i
        else
          let* d := index str (i + 1) in
          scan_literal fuel str (if byte_eqb d "\"%byte then i + 2 else i + 1)
      else Ret i
  end.

(** The [default] case: the literal, and where the scan ended. *)
Definition literal (str : list byte) (first_char : nat) (y : yard) : outcome (nat * yard) :=
  let* i := scan_literal (S (length str)) str first_char in
  let* text := sv_substr str first_char (Nat.min i (length str) - first_char) in
  let* text := replace text (lit "\") [] in
  Ret (i, (y.1 ++ [text], y.2)).

(** The [for] loop; a turn ends at [i] and the next begins at [i + 1]. *)
Fixpoint parse_loop (fuel : nat) (str : list byte) (i : nat) (y : yard) : outcome yard :=
  match fuel with
  | O => OutOfFuel
  | S fuel =>
      if (i <? length str)%nat then
        let* c := index str i in
        let* (i, y) :=
          if byte_eqb c "("%byte then Ret (i, (y.1, paren_open :: y.2))
          else if byte_eqb c ")"%byte then let* y := close paren_open "mismatched parentheses" y in Ret (i, y)
          else if byte_eqb c "|"%byte then Ret (i, handle_op vertical_bar y)
          else if byte_eqb c "["%byte then Ret (i, (y.1, bracket_open :: y.2))
          else if byte_eqb c "]"%byte then let* y := close bracket_open "mismatched brackets" y in Ret (i, y)
          else if byte_eqb c "."%byte then Ret (i, handle_op period y)
          else if byte_eqb c "*"%byte then Ret (i, handle_op asterisk y)
          else if byte_eqb c "+"%byte then Ret (i, handle_op plus y)
          else if byte_eqb c "?"%byte then Ret (i, handle_op question_mark y)
          else literal str i y in
        parse_loop fuel str (i + 1) y
      else Ret y
  end.

(** [while (!operators.empty())] after the loop *)
Fixpoint flush_operators (output : list (list byte)) (operators : list op) : outcome (list (list byte)) :=
  match operators with
  | [] => Ret output
  | (paren_open | paren_close) :: _ => Throw (runtime_error "mismatched parentheses")
  | o :: rest => flush_operators (output ++ [op_to_char o]) rest
  end.

(** The whole parser: the output is drained and [sts] is not touched. *)
Definition parse_states (str : list byte) (sts : list state) : outcome (list state) :=
  let* y := parse_loop (S (length str)) str 0 ([], []) in
  let* output := flush_operators y.1 y.2 in
  Ret sts.

Definition parse (str : list byte) : outcome expr :=
  let* sts := parse_states str [] in Ret {| states := sts |}.

(** *** Matching *)

Definition should_repeat (r : repetition) (current_matches : Z) : bool :=
  match r with
  | once => current_matches <? 1
  | zero_or_one => current_matches <? 1
  | zero_or_more => true
  | one_or_more => true
  end.

Definition repetition_satisfied (r : repetition) (current_matches : Z) : bool :=
  match r with
  | once => current_matches =? 1
  | zero_or_one => current_matches <? 2
  | zero_or_more => true
  | one_or_more => 0 <? current_matches
  end.

(** [str.substr(offset).starts_with(lit)], inside a [noexcept] function *)
Definition starts_at (str text : list byte) (offset : nat) : outcome bool :=
  noexcept (let* rest := sv_substr_from str offset in Ret (starts_with rest text)).

Fixpoint match_strings (choices : list (list byte)) (str : list byte) (offset : nat) : outcome (bool * nat) :=
  match choices with
  | [] => Ret (false, offset)
  | choice :: choices =>
      let* m := starts_at str choice offset in
      if m : bool then Ret (true, (offset + length choice)%nat) else match_strings choices str offset
  end.

Fixpoint match_chars (choices : list byte) (str : list byte) (offset : nat) : outcome (bool * nat) :=
  match choices with
  | [] => Ret (false, offset)
  | choice :: choices =>
      let* c := index str offset in
      if byte_eqb c choice then Ret (true, S offset) else match_chars choices str offset
  end.

(** The [match] members of the alternatives, under [std::visit]. *)
Definition match_impl (m : state_types) (str : list byte) (offset : nat) : outcome (bool * nat) :=
  match m with
  | state_literal text =>
      let* m := starts_at str text offset in
      Ret (if m : bool then (true, (offset + length text)%nat) else (false, offset))
  | state_string_alternation choices => match_strings choices str offset
  | state_char_alternation choices => match_chars choices str offset
  | state_wildcard =>
      let* c := index str offset in
      Ret (if byte_eqb c "."%byte then (true, S offset) else (false, offset))
  end.

(** The [do] loop of [state::match] *)
Fixpoint state_match_loop (fuel : nat) (s : state) (str : list byte) (offset : nat) (match_count : Z)
    : outcome (bool * nat) :=
  match fuel with
  | O => OutOfFuel
  | S fuel =>
      let* (did_match, offset) := match_impl (impl s) str offset in
      let match_count := if did_match : bool then u64 (match_count + 1) else match_count in
      if did_match && should_repeat (rep s) match_count then state_match_loop fuel s str offset match_count
      else Ret (repetition_satisfied (rep s) match_count, offset)
  end.

Definition state_match (fuel : nat) (s : state) (str : list byte) (offset : nat) : outcome (bool * nat) :=
  state_match_loop fuel s str offset 0.

(** The loop of [expr::match] *)
Fixpoint match_loop (fuel : nat) (sts : list state) (input : list byte) (offset : nat) : outcome bool :=
  match sts with
  | [] => Ret true
  | s :: sts =>
      if (offset <? length input)%nat then
        let* (m, offset) := state_match fuel s input offset in
        if m : bool then match_loop fuel sts input offset else Ret false
      else Ret false
  end.

Definition expr_match (fuel : nat) (e : expr) (input : list byte) : outcome bool :=
  match_loop fuel (states e) input 0.

(** ** The parser *)

Definition operator_at (str : list byte) (j : nat) : Prop := exists c, str !! j = Some c /\ is_operator c = true.

(** How the scan of a literal ends: at an operator, behind a backslash that is
    the last character, or past the end of a string without one. *)
Lemma scan_literal_ends fuel str i c :
  (length str - i < fuel)%nat -> (i < length str)%nat -> last str = Some c ->
  (scan_literal fuel str i = Undef /\ is_operator c = false)
  \/ (exists j, scan_literal fuel str i = Ret j /\ (i <= j < length str)%nat /\ operator_at str j)
  \/ (scan_literal fuel str i = Ret (length str) /\ c = "\"%byte).
Proof.
  revert i. induction fuel as [|fuel IH]; intros i Hf Hi Hc; [lia|]. cbn [scan_literal].
  rewrite (proj2 (Nat.ltb_lt _ _) Hi). rewrite last_lookup in Hc. destruct (lookup_lt_is_Some_2 str i Hi) as [x Hx].
  rewrite (index_Some _ _ _ Hx), bind_ret. destruct (is_operator x) eqn:Ex.
  { right; left. exists i. split; [done|]. split; [lia|]. by exists x. }
  destruct (decide (i + 1 < length str)%nat) as [Hi1|Hi1].
  - destruct (lookup_lt_is_Some_2 str (i + 1) Hi1) as [d Hd]. rewrite (index_Some _ _ _ Hd), bind_ret.
    destruct (byte_eqb_spec d "\"%byte) as [->|Hne].
    + destruct (decide (i + 2 < length str)%nat) as [Hi2|Hi2].
      * destruct (IH (i + 2)%nat) as [H|[(j & H & Hj & Ho)|H]]; [lia|lia|by rewrite last_lookup|by left| |by right; right].
        right; left. exists j. split_and!; [done|lia|lia|done].
      * right; right. replace (pred (length str)) with (i + 1)%nat in Hc by lia. rewrite Hd in Hc. injection Hc as <-.
        split; [|done]. replace (i + 2)%nat with (length str) by lia. destruct fuel as [|fuel]; [lia|]. cbn [scan_literal].
        by rewrite Nat.ltb_irrefl.
    + destruct (IH (i + 1)%nat) as [H|[(j & H & Hj & Ho)|H]]; [lia|lia|by rewrite last_lookup|by left| |by right; right].
      right; left. exists j. split_and!; [done|lia|lia|done].
  - left. unfold index. rewrite (lookup_ge_None_2 str (i + 1)) by lia. split; [done|].
    replace (pred (length str)) with i in Hc by lia. congruence.
Qed.

Lemma pop_until_ends opening what output ops :
  (exists y, pop_until opening what output ops = Ret y) \/ pop_until opening what output ops = Throw (runtime_error what).
Proof. revert output. induction ops as [|o ops IH]; intros output; cbn [pop_until]; [by right|]. case_bool_decide; eauto. Qed.

Lemma close_ends opening what y :
  (exists y', close opening what y = Ret y') \/ close opening what y = Throw (runtime_error what).
Proof. unfold close. destruct y.2 as [|o ops]; [by right|]. apply pop_until_ends. Qed.

Lemma flush_ends output ops :
  (exists out, flush_operators output ops = Ret out) \/ exists what, flush_operators output ops = Throw (runtime_error what).
Proof. revert output. induction ops as [|o ops IH]; intros output; cbn [flush_operators]; [eauto|]. destruct o; eauto. Qed.

Lemma literal_ends str i y c :
  (i < length str)%nat -> last str = Some c ->
  (literal str i y = Undef /\ is_operator c = false)
  \/ (exists j y', literal str i y = Ret (j, y') /\ (i <= j)%nat /\ (operator_at str j \/ j = length str /\ c = "\"%byte)).
Proof.
  intros Hi Hc. unfold literal.
  assert (forall j, (i <= j)%nat -> exists y',
    (let* text := sv_substr str i (Nat.min j (length str) - i) in
     let* text := replace text (lit "\") [] in Ret (j, (y.1 ++ [text], y.2))) = Ret (j, y')) as Hrest.
  { intros j Hj. rewrite sv_substr_Ret by lia. rewrite bind_ret.
    match goal with |- context [replace ?t] => destruct (replace_spec t (lit "\") [] ltac:(done)) as (out & -> & _) end. cbn. eauto. }
  destruct (scan_literal_ends (S (length str)) str i c) as [[H Hop]|[(j & H & Hj & Ho)|[H Hb]]]; [lia|done|done|..].
  - left. by rewrite H.
  - right. rewrite H, bind_ret. destruct (Hrest j) as [y' Hy]; [lia|]. exists j, y'. split_and!; [done|lia|by left].
  - right. rewrite H, bind_ret. destruct (Hrest (length str)) as [y' Hy]; [lia|]. exists (length str), y'. split_and!; [done|lia|by right].
Qed.

(** What a parse can come to, on a string that ends in [c]. *)
Definition parse_ends {A} (c : byte) (r : outcome A) : Prop :=
  (exists a, r = Ret a) /\ (is_operator c = true \/ c = "\"%byte)
  \/ r = Undef /\ is_operator c = false
  \/ exists what, r = Throw (runtime_error what).

Lemma parse_loop_ends fuel str i y c :
  (length str - i < fuel)%nat -> (i < length str)%nat -> last str = Some c ->
  parse_ends c (parse_loop fuel str i y).
Proof.
  revert i y. induction fuel as [|fuel IH]; intros i y Hf Hi Hc; [lia|]. cbn [parse_loop].
  rewrite (proj2 (Nat.ltb_lt _ _) Hi). destruct (lookup_lt_is_Some_2 str i Hi) as [x Hx]. rewrite (index_Some _ _ _ Hx), bind_ret.
  (* a turn that ends at an operator, or behind the last character *)
  assert (forall j y', (i <= j)%nat -> operator_at str j \/ j = length str /\ c = "\"%byte ->
    parse_ends c (parse_loop fuel str (j + 1) y')) as Hnext.
  { intros j y' Hj [(d & Hd & Ho)|[-> ->]].
    - pose proof (lookup_lt_Some _ _ _ Hd). destruct (decide (j + 1 < length str)%nat) as [Hl|Hl]; [apply IH; [lia|done|done]|].
      left. rewrite last_lookup in Hc. replace (pred (length str)) with j in Hc by lia. split; [|left; congruence].
      destruct fuel as [|fuel]; [lia|]. cbn [parse_loop]. rewrite (proj2 (Nat.ltb_ge _ _)) by lia. eauto.
    - left. split; [|by right]. destruct fuel as [|fuel]; [lia|]. cbn [parse_loop]. rewrite (proj2 (Nat.ltb_ge _ _)) by lia. eauto. }
  assert (is_operator x = true -> operator_at str i) as Hat by (intros; by exists x).
  repeat match goal with
  | |- context [byte_eqb x ?d] => destruct (byte_eqb_spec x d) as [->|?]
  end; rewrite ?bind_ret; try (apply Hnext; [lia|left; by apply Hat]).
  - destruct (close_ends paren_open "mismatched parentheses" y) as [[y' ->]|Ht]; [apply Hnext; [lia|left; by apply Hat]|].
    rewrite Ht. right; right. by eexists.
  - destruct (close_ends bracket_open "mismatched brackets" y) as [[y' ->]|Ht]; [apply Hnext; [lia|left; by apply Hat]|].
    rewrite Ht. right; right. by eexists.
  - destruct (literal_ends str i y c Hi Hc) as [[-> Ho]|(j & y' & -> & Hj & Hend)].
    + right; left. done.
    + by apply Hnext.
Qed.

Lemma parse_outcome str c : last str = Some c -> parse_ends c (parse str).
Proof.
  intros Hc. assert (0 < length str)%nat as Hl by (destruct str; [done|simpl; lia]).
  unfold parse, parse_states. destruct (parse_loop_ends (S (length str)) str 0 ([], []) c) as [[[y ->] Ho]|[[-> Ho]|[w ->]]]; [lia|done|done|..].
  - rewrite !bind_ret. destruct (flush_ends y.1 y.2) as [[out ->]|[w ->]].
    + left. split; [by eexists|done].
    + right; right. by eexists.
  - right; left. done.
  - right; right. by eexists.
Qed.

Lemma parse_empties str e : parse str = Ret e -> states e = [].
Proof.
  unfold parse, parse_states. intros H. outcome_inv. done.
Qed.

(** the parser ends on every pattern, with an expression, a
    [parse_exception] or (reading past the end) undefined; it is defined on
    the patterns that end in an operator, and on the others it returns only
    if the last character is a backslash.  The expression has no states, so
    it matches every input. *)
Lemma pattern_parse_domain (str : list byte) :
  match last str with
  | None => parse str = Ret {| states := [] |}
  | Some c =>
      ((exists e, parse str = Ret e) /\ (is_operator c = true \/ c = "\"%byte))
      \/ (parse str = Undef /\ is_operator c = false)
      \/ exists what, parse str = Throw (runtime_error what)
  end
  /\ (forall e fuel input, parse str = Ret e -> expr_match fuel e input = Ret true).
Proof.
  split.
  - destruct (last str) as [c|] eqn:Hc; [by apply (parse_outcome str c)|]. apply last_None in Hc as ->. reflexivity.
  - intros e fuel input H. unfold expr_match. by rewrite (parse_empties str e H).
Qed.

Lemma pattern_parse_domain_witness :
  (exists e, parse (lit "a.b.*") = Ret e) /\ forall input, obind (parse (lit "a.b.*")) (fun e => expr_match 0 e input) = Ret true.
Proof.
  destruct (pattern_parse_domain (lit "a.b.*")) as [_ H]. split; [eexists; vm_compute; reflexivity|].
  intros input. destruct (parse (lit "a.b.*")) as [e| | | |] eqn:E; try (vm_compute in E; discriminate E). exact (H e 0%nat input eq_refl).
Defined.

(** The operator behind a literal is skipped, so a group is reported as not
    closed, and a literal at the end is undefined. *)
Example pattern_examples :
  parse (lit "(a)") = Throw (runtime_error "mismatched parentheses") /\ parse (lit "abc") = Undef
  /\ parse (lit "a|") = Ret {| states := [] |} /\ parse (lit ")") = Throw (runtime_error "mismatched parentheses").
Proof. split_and!; vm_compute; reflexivity. Qed.

(** ** The matcher *)

(** *** What a list of states stands for *)

(** The words of an item, in the order in which they are tried. *)
Definition alternatives (m : state_types) : list (list byte) :=
  match m with
  | state_literal text => [text]
  | state_string_alternation choices => choices
  | state_char_alternation choices => map (fun c => [c]) choices
  | state_wildcard => [["."%byte]]
  end.

Definition count_allowed (r : repetition) (k : nat) : Prop :=
  match r with
  | once => k = 1%nat
  | zero_or_one => (k <= 1)%nat
  | zero_or_more => True
  | one_or_more => (1 <= k)%nat
  end.

(** The language of the states: words of the items, as often as is allowed. *)
Definition state_lang (s : state) (w : list byte) : Prop :=
  exists ws, w = concat ws /\ Forall (fun w => w ∈ alternatives (impl s)) ws /\ count_allowed (rep s) (length ws).

Inductive lang : list state -> list byte -> Prop :=
| lang_nil : lang [] []
| lang_cons s sts w w' : state_lang s w -> lang sts w' -> lang (s :: sts) (w ++ w').

(** Greedy matching.  Of the words of an item, the first one with which the
    text begins is taken, *)
Definition takes (m : state_types) (text w : list byte) : Prop :=
  exists before after, alternatives m = before ++ w :: after /\ w `prefix_of` text /\ Forall (fun v => ~ v `prefix_of` text) before.

Inductive take_all (m : state_types) : list byte -> list (list byte) -> list byte -> Prop :=
| take_none text : take_all m text [] text
| take_more w text ws rest : takes m (w ++ text) w -> take_all m text ws rest -> take_all m (w ++ text) (w :: ws) rest.

(** and a state goes on for as long as one more word is there and allowed. *)
Definition greedy_state (s : state) (text : list byte) (ws : list (list byte)) (rest : list byte) : Prop :=
  take_all (impl s) text ws rest /\ count_allowed (rep s) (length ws)
  /\ (count_allowed (rep s) (S (length ws)) -> forall w, ~ takes (impl s) rest w).

Inductive greedy : list state -> list byte -> list (list byte) -> list byte -> Prop :=
| greedy_nil text : greedy [] text [] text
| greedy_cons s sts text ws mid words rest :
    greedy_state s text ws mid -> greedy sts mid words rest -> greedy (s :: sts) text (concat ws :: words) rest.

(** The matcher does not start a state at the end of the input. *)
Definition starts_inside (input : list byte) (words : list (list byte)) : Prop :=
  forall i, (i < length words)%nat -> (length (concat (take i words)) < length input)%nat.

(** *** The loops, on the text that is left *)

Fixpoint ref_choice (choices : list (list byte)) (rest : list byte) : option (list byte) :=
  match choices with
  | [] => None
  | choice :: choices => if starts_with rest choice then Some (drop (length choice) rest) else ref_choice choices rest
  end.

Definition ref_item (m : state_types) (rest : list byte) : option (list byte) :=
  match m with
  | state_literal text => ref_choice [text] rest
  | state_string_alternation choices => ref_choice choices rest
  | state_char_alternation choices => match rest with c :: r => if mem choices c then Some r else None | [] => None end
  | state_wildcard => match rest with c :: r => if byte_eqb c "."%byte then Some r else None | [] => None end
  end.

(** As many items as there are, at most [n]. *)
Fixpoint ref_repeat (n : nat) (m : state_types) (rest : list byte) : nat * list byte :=
  match n with
  | O => (0%nat, rest)
  | S n =>
      match ref_item m rest with
      | None => (0%nat, rest)
      | Some r => let (k, r) := ref_repeat n m r in (S k, r)
      end
  end.

Definition most (r : repetition) (rest : list byte) : nat :=
  match r with once | zero_or_one => 1 | zero_or_more | one_or_more => length rest end.

Definition ref_state (s : state) (rest : list byte) : bool * list byte :=
  let (k, r) := ref_repeat (most (rep s) rest) (impl s) rest in (repetition_satisfied (rep s) (Z.of_nat k), r).

Fixpoint ref_match (sts : list state) (rest : list byte) : bool :=
  match sts with
  | [] => true
  | s :: sts =>
      match rest with
      | [] => false
      | _ => let (b, r) := ref_state s rest in b && ref_match sts r
      end
  end.

(** No text to match is empty, and a single character is not repeated (the
    matcher reads past the end behind the last one). *)
Definition state_safe (s : state) : Prop :=
  match impl s with
  | state_literal text => text <> []
  | state_string_alternation choices => Forall (fun c => c <> []) choices
  | state_char_alternation _ | state_wildcard => rep s = once \/ rep s = zero_or_one
  end.

(** What an item consumes is a non-empty prefix. *)
Definition item_nonempty (m : state_types) : Prop :=
  match m with
  | state_literal text => text <> []
  | state_string_alternation choices => Forall (fun c => c <> []) choices
  | _ => True
  end.

Lemma safe_nonempty s : state_safe s -> item_nonempty (impl s).
Proof. unfold state_safe, item_nonempty. by destruct (impl s). Qed.

Lemma ref_choice_Some choices rest r :
  ref_choice choices rest = Some r -> exists c, c ∈ choices /\ rest = c ++ r.
Proof.
  induction choices as [|c choices IH]; cbn [ref_choice]; [done|]. destruct (starts_with rest c) eqn:E.
  - intros [= <-]. exists c. split; [left|]. apply starts_with_spec in E as [r' ->]. by rewrite drop_app_length.
  - intros H. destruct (IH H) as (d & Hd & ->). exists d. split; [by right|done].
Qed.

Lemma ref_item_shorter m rest r : item_nonempty m -> ref_item m rest = Some r -> exists w, rest = w ++ r /\ w <> [].
Proof.
  intros Hm H. destruct m as [text|choices|choices|]; cbn [ref_item item_nonempty] in *.
  - apply ref_choice_Some in H as (c & Hc & ->). apply list_elem_of_singleton in Hc as ->. eauto.
  - apply ref_choice_Some in H as (c & Hc & ->). rewrite Forall_forall in Hm. exists c. split; [done|by apply Hm].
  - destruct rest as [|c rest]; [done|]. destruct (mem choices c); simplify_eq. by exists [c].
  - destruct rest as [|c rest]; [done|]. destruct (byte_eqb c "."%byte); simplify_eq. by exists [c].
Qed.

(** *** The matcher's items *)

Lemma starts_at_spec str text offset :
  (offset <= length str)%nat -> starts_at str text offset = Ret (starts_with (drop offset str) text).
Proof. intros H. unfold starts_at. by rewrite sv_substr_from_Ret. Qed.

(** [offset] moves to where the rest begins. *)
Definition moved (str : list byte) (offset : nat) (r : option (list byte)) : bool * nat :=
  match r with
  | Some r => (true, (length str - length r)%nat)
  | None => (false, offset)
  end.

Lemma match_strings_spec choices str offset :
  (offset <= length str)%nat -> match_strings choices str offset = Ret (moved str offset (ref_choice choices (drop offset str))).
Proof.
  intros Ho. induction choices as [|c choices IH]; cbn [match_strings ref_choice]; [done|].
  rewrite starts_at_spec, bind_ret by done. destruct (starts_with (drop offset str) c) eqn:E; [|exact IH].
  cbn. apply starts_with_spec in E as [r E]. pose proof (f_equal length E) as Hl.
  rewrite E, drop_app_length. rewrite length_drop, length_app in Hl. do 2 f_equal. lia.
Qed.

Lemma match_chars_spec choices str offset c r :
  drop offset str = c :: r ->
  match_chars choices str offset = Ret (moved str offset (if mem choices c then Some r else None)).
Proof.
  intros Hd. pose proof (f_equal length Hd) as Hl. rewrite length_drop in Hl. cbn [length] in Hl.
  assert (index str offset = Ret c) as Hi.
  { apply index_Some. rewrite <- (Nat.add_0_r offset), <- lookup_drop, Hd. done. }
  induction choices as [|x choices IH]; cbn [match_chars mem existsb]; [done|]. rewrite Hi, bind_ret.
  destruct (byte_eqb c x) eqn:E; cbn [orb]; [cbn; do 2 f_equal; lia|]. rewrite IH. done.
Qed.

Lemma match_impl_spec m str offset :
  (offset <= length str)%nat ->
  match m with state_char_alternation _ | state_wildcard => (offset < length str)%nat | _ => True end ->
  match_impl m str offset = Ret (moved str offset (ref_item m (drop offset str))).
Proof.
  intros Ho Hlt. destruct m as [text|choices|choices|]; cbn [match_impl ref_item].
  - pose proof (match_strings_spec [text] str offset Ho) as H. cbn [match_strings] in H.
    rewrite starts_at_spec, bind_ret in * by done. rewrite <- H. by destruct (starts_with _ _).
  - by apply match_strings_spec.
  - destruct (drop offset str) as [|c r] eqn:Hd; [apply (f_equal length) in Hd; rewrite length_drop in Hd; simpl in Hd; lia|].
    by apply match_chars_spec.
  - destruct (drop offset str) as [|c r] eqn:Hd; [apply (f_equal length) in Hd; rewrite length_drop in Hd; simpl in Hd; lia|].
    pose proof (match_chars_spec ["."%byte] str offset c r Hd) as H. cbn [match_chars mem existsb] in H.
    rewrite (index_Some _ offset c), bind_ret in * by (rewrite <- (Nat.add_0_r offset), <- lookup_drop, Hd; done).
    rewrite orb_false_r in H. rewrite <- H. by destruct (byte_eqb c "."%byte).
Qed.

Lemma drop_suffix (str w r : list byte) offset :
  drop offset str = w ++ r -> (offset <= length str)%nat -> drop (length str - length r) str = r.
Proof.
  intros Hd Ho. pose proof (f_equal length Hd) as Hl. rewrite length_drop, length_app in Hl.
  replace (length str - length r)%nat with (offset + length w)%nat by lia.
  rewrite <- drop_drop, Hd. apply drop_app_length.
Qed.

Lemma ref_repeat_suffix n m rest : item_nonempty m -> exists w, rest = w ++ (ref_repeat n m rest).2.
Proof.
  intros Hm. revert rest. induction n as [|n IH]; intros rest; cbn [ref_repeat]; [by exists []|].
  destruct (ref_item m rest) as [r|] eqn:E; [|by exists []].
  destruct (ref_item_shorter m rest r Hm E) as (w & -> & _). destruct (IH r) as [w' Hw].
  destruct (ref_repeat n m r) as [k r']. cbn in *. exists (w ++ w'). by rewrite <- app_assoc, <- Hw.
Qed.

(** *** The loops *)

Section Matcher.
Context (str : list byte) (Hlen : Z.of_nat (length str) + 1 < 2 ^ 64).

Lemma loop_bounded fuel s offset :
  item_nonempty (impl s) -> rep s = once \/ rep s = zero_or_one -> (offset < length str)%nat ->
  state_match_loop (S fuel) s str offset 0
  = let (b, r) := ref_state s (drop offset str) in Ret (b, (length str - length r)%nat).
Proof using Type.
  intros Hm Hr Ho. cbn [state_match_loop]. rewrite match_impl_spec, bind_ret; [|lia|by destruct (impl s)].
  assert (most (rep s) (drop offset str) = 1%nat) as Hmost by (by destruct Hr as [-> | ->]).
  unfold ref_state. rewrite Hmost. cbn [ref_repeat]. destruct (ref_item (impl s) (drop offset str)) as [r|] eqn:E.
  - cbn [moved]. by destruct Hr as [-> | ->].
  - cbn [moved]. rewrite length_drop. replace (length str - (length str - offset))%nat with offset by lia. by destruct Hr as [-> | ->].
Qed.

Lemma loop_unbounded fuel n s offset c :
  item_nonempty (impl s) -> match impl s with state_literal _ | state_string_alternation _ => True | _ => False end ->
  rep s = zero_or_more \/ rep s = one_or_more ->
  (offset <= length str)%nat -> (length str - offset <= n)%nat -> (length str - offset < fuel)%nat ->
  (c + (length str - offset) <= length str)%nat ->
  state_match_loop fuel s str offset (Z.of_nat c)
  = let (k, r) := ref_repeat n (impl s) (drop offset str) in
    Ret (repetition_satisfied (rep s) (Z.of_nat (c + k)), (length str - length r)%nat).
Proof using Hlen.
  intros Hm Hi Hr. revert n offset c. induction fuel as [|fuel IH]; intros n offset c Ho Hn Hf Hc; [lia|].
  cbn [state_match_loop]. rewrite match_impl_spec, bind_ret; [|lia|by destruct (impl s)].
  assert (forall z, should_repeat (rep s) z = true) as Hs by (by destruct Hr as [-> | ->]).
  destruct (ref_item (impl s) (drop offset str)) as [r|] eqn:E; cbn [moved andb].
  - rewrite Hs. destruct (ref_item_shorter _ _ _ Hm E) as (w & Hw & Hne).
    pose proof (f_equal length Hw) as Hl. rewrite length_drop, length_app in Hl.
    assert (0 < length w)%nat by (destruct w; [done|simpl; lia]).
    destruct n as [|n]; [lia|]. cbn [ref_repeat]. rewrite E.
    replace (u64 (Z.of_nat c + 1)) with (Z.of_nat (c + 1)) by (unfold u64; rewrite wrap_small; lia).
    rewrite (IH n) by lia. rewrite (drop_suffix str w r offset) by (done || lia).
    destruct (ref_repeat n (impl s) r) as [k r']. do 3 f_equal. lia.
  - assert (ref_repeat n (impl s) (drop offset str) = (0%nat, drop offset str)) as -> by (destruct n; cbn [ref_repeat]; by rewrite ?E).
    rewrite Nat.add_0_r, length_drop. do 3 f_equal. lia.
Qed.

Lemma state_match_spec fuel s offset :
  state_safe s -> (offset < length str)%nat -> (length str < fuel)%nat ->
  state_match fuel s str offset = let (b, r) := ref_state s (drop offset str) in Ret (b, (length str - length r)%nat).
Proof using Hlen.
  intros Hs Ho Hf. pose proof (safe_nonempty s Hs) as Hm. unfold state_match.
  destruct (decide (rep s = once \/ rep s = zero_or_one)) as [Hr|Hr].
  - destruct fuel as [|fuel]; [lia|]. by apply loop_bounded.
  - assert (rep s = zero_or_more \/ rep s = one_or_more) as Hr' by (destruct (rep s); naive_solver).
    assert (match impl s with state_literal _ | state_string_alternation _ => True | _ => False end) as Hi
      by (unfold state_safe in Hs; destruct (impl s); naive_solver).
    pose proof (loop_unbounded fuel (length (drop offset str)) s offset 0 Hm Hi Hr' ltac:(lia)) as H.
    rewrite length_drop in H. change 0 with (Z.of_nat 0). rewrite H by lia. unfold ref_state.
    replace (most (rep s) (drop offset str)) with (length str - offset)%nat by (rewrite <- length_drop; by destruct Hr' as [-> | ->]).
    by destruct (ref_repeat _ _ _).
Qed.

Lemma match_loop_spec fuel sts offset :
  Forall state_safe sts -> (offset <= length str)%nat -> (length str < fuel)%nat ->
  match_loop fuel sts str offset = Ret (ref_match sts (drop offset str)).
Proof using Hlen.
  intros Hs. revert offset. induction Hs as [|s sts Hs Hss IH]; intros offset Ho Hf; cbn [match_loop ref_match]; [done|].
  destruct (decide (offset < length str)%nat) as [Hlt|Hge].
  - rewrite (proj2 (Nat.ltb_lt _ _) Hlt), state_match_spec by done.
    assert (forall b : bool, match drop offset str with [] => false | _ => b end = b) as Hd.
    { intros b. destruct (drop offset str) eqn:E; [|done]. apply (f_equal length) in E. rewrite length_drop in E. simpl in E. lia. }
    rewrite Hd.
    destruct (ref_repeat_suffix (most (rep s) (drop offset str)) (impl s) (drop offset str) (safe_nonempty s Hs)) as [w Hw].
    unfold ref_state. destruct (ref_repeat (most (rep s) (drop offset str)) (impl s) (drop offset str)) as [k r']. cbn [snd] in Hw.
    rewrite bind_ret. destruct (repetition_satisfied _ _); [|done]. cbn [andb]. rewrite IH by lia.
    by rewrite (drop_suffix str w r' offset).
  - rewrite (proj2 (Nat.ltb_ge _ _)) by lia. by rewrite drop_ge by lia.
Qed.
End Matcher.

(** *** The loops are greedy *)

Lemma ref_choice_takes choices text :
  match ref_choice choices text with
  | Some r => exists w before after, choices = before ++ w :: after /\ text = w ++ r /\ Forall (fun v => ~ v `prefix_of` text) before
  | None => Forall (fun v => ~ v `prefix_of` text) choices
  end.
Proof.
  induction choices as [|c choices IH]; cbn [ref_choice]; [done|]. destruct (starts_with text c) eqn:E.
  - apply starts_with_spec in E as [r ->]. rewrite drop_app_length. by exists c, [], choices.
  - assert (~ c `prefix_of` text) as Hc by (intros Hp; apply starts_with_spec in Hp; congruence).
    destruct (ref_choice choices text) as [r|]; [|by constructor].
    destruct IH as (w & before & after & -> & Ht & Hb). exists w, (c :: before), after. split_and!; [done|done|by constructor].
Qed.

Lemma ref_item_choice m text : ref_item m text = ref_choice (alternatives m) text.
Proof.
  destruct m as [t|choices|choices|]; cbn [ref_item alternatives]; try done.
  - induction choices as [|x choices IH]; cbn [map ref_choice]; [by destruct text|]. destruct text as [|c text]; [done|].
    cbn [mem existsb starts_with]. destruct (byte_eqb c x); [done|exact IH].
  - destruct text as [|c text]; [done|]. cbn. by destruct (byte_eqb c "."%byte).
Qed.

Lemma takes_unique m text w w' : takes m text w -> takes m text w' -> w = w'.
Proof.
  intros (b & a & E & Hp & Hb) (b' & a' & E' & Hp' & Hb'). rewrite E in E'. clear E.
  revert b' E' Hb'. induction Hb as [|x b Hx Hb IH]; intros [|y b'] E' Hb'; injection E' as E1 E2; subst; try done;
    apply Forall_cons in Hb' as [Hy Hb']; [done|by apply IH with b'].
Qed.

Lemma ref_item_takes m text :
  match ref_item m text with
  | Some r => exists w, text = w ++ r /\ takes m text w
  | None => forall w, ~ takes m text w
  end.
Proof.
  rewrite ref_item_choice. pose proof (ref_choice_takes (alternatives m) text) as H. destruct (ref_choice _ text) as [r|].
  - destruct H as (w & before & after & E & -> & Hb). exists w. split; [done|]. exists before, after. split_and!; [done|by exists r|done].
  - intros w (before & after & E & Hp & _). rewrite E in H. apply Forall_app in H as [_ H]. by apply Forall_cons in H as [H _].
Qed.

Lemma ref_repeat_takes n m text : exists ws,
  take_all m text ws (ref_repeat n m text).2 /\ length ws = (ref_repeat n m text).1 /\ (length ws <= n)%nat
  /\ ((length ws < n)%nat -> forall w, ~ takes m (ref_repeat n m text).2 w).
Proof.
  revert text. induction n as [|n IH]; intros text; cbn [ref_repeat]; [exists []; split_and!; try done; [constructor|cbn; lia]|].
  pose proof (ref_item_takes m text) as H. destruct (ref_item m text) as [r|]; [|exists []; split_and!; try done; [constructor|cbn; lia]].
  destruct H as (w & -> & Hw). destruct (IH r) as (ws & Hws & Hl & Hn & Hmax). destruct (ref_repeat n m r) as [k r']. cbn [fst snd] in *.
  exists (w :: ws). cbn [length]. split_and!; [by constructor|by rewrite Hl|lia|]. intros. apply Hmax. lia.
Qed.

Lemma take_all_text m text ws rest : take_all m text ws rest -> text = concat ws ++ rest.
Proof. induction 1 as [|w text ws rest _ _ IH]; [done|]. cbn [concat]. by rewrite <- app_assoc, <- IH. Qed.

Lemma takes_alternative m text w : takes m text w -> w ∈ alternatives m.
Proof. intros (b & a & -> & _). apply elem_of_app. right. left. Qed.

Lemma take_all_words m text ws rest : take_all m text ws rest -> Forall (fun w => w ∈ alternatives m) ws.
Proof. induction 1; constructor; [by eapply takes_alternative|done]. Qed.

Lemma nonempty_alternatives m w : item_nonempty m -> w ∈ alternatives m -> w <> [].
Proof.
  destruct m as [t|choices|choices|]; cbn [item_nonempty alternatives]; intros Hm Hw.
  - by apply list_elem_of_singleton in Hw as ->.
  - rewrite Forall_forall in Hm. by apply Hm.
  - by apply list_elem_of_fmap in Hw as (c & -> & _).
  - by apply list_elem_of_singleton in Hw as ->.
Qed.

Lemma words_length m ws : item_nonempty m -> Forall (fun w => w ∈ alternatives m) ws -> (length ws <= length (concat ws))%nat.
Proof.
  intros Hm. induction 1 as [|w ws Hw _ IH]; [done|]. cbn [concat length]. rewrite length_app.
  apply (nonempty_alternatives m w Hm) in Hw. destruct w; [done|]. cbn. lia.
Qed.

(** The greedy words of a state are unique: the shorter of two runs could go on. *)
Lemma take_all_unique m r text ws rest ws' rest' :
  take_all m text ws rest -> take_all m text ws' rest' -> count_allowed r (length ws) -> count_allowed r (length ws') ->
  (count_allowed r (S (length ws)) -> forall w, ~ takes m rest w) -> (count_allowed r (S (length ws')) -> forall w, ~ takes m rest' w) ->
  ws = ws' /\ rest = rest'.
Proof.
  intros H H' Hc Hc' Hm Hm'.
  assert (forall k j, count_allowed r k -> count_allowed r j -> (k < j)%nat -> count_allowed r (S k)) as Hnext
    by (destruct r; cbn; intros; lia || done).
  cut (forall i, count_allowed r (i + length ws) -> count_allowed r (i + length ws') ->
    (count_allowed r (S (i + length ws)) -> forall w, ~ takes m rest w) ->
    (count_allowed r (S (i + length ws')) -> forall w, ~ takes m rest' w) -> ws = ws' /\ rest = rest'); [intros Hcut; by apply (Hcut 0%nat)|].
  clear Hc Hc' Hm Hm'. revert ws' H'. induction H as [text|w text ws rest Hw H IH]; intros ws' H' i Hc Hc' Hm Hm'.
  - inversion H' as [|w' text' ws'' rest'' Hw' H'']; subst; [done|]. destruct (Hm (Hnext _ _ Hc Hc' ltac:(cbn; lia)) w' Hw').
  - inversion H' as [text' E1 E2 E3|w' text' ws'' rest'' Hw' H'' E1 E2 E3]; subst.
    + destruct (Hm' (Hnext _ _ Hc' Hc ltac:(cbn; lia)) w Hw).
    + rewrite E1 in Hw'. pose proof (takes_unique _ _ _ _ Hw Hw') as ->. apply app_inv_head in E1 as ->. cbn [length] in *.
      rewrite !Nat.add_succ_r in *. destruct (IH ws'' H'' (S i)) as [-> ->]; done.
Qed.

Lemma ref_state_greedy s text :
  item_nonempty (impl s) ->
  let (b, r) := ref_state s text in
  if b : bool then exists ws, greedy_state s text ws r else forall ws r', ~ greedy_state s text ws r'.
Proof.
  intros Hne. unfold ref_state. destruct (ref_repeat_takes (most (rep s) text) (impl s) text) as (ws & Hws & Hl & Hn & Hmax).
  pose proof (words_length _ ws Hne (take_all_words _ _ _ _ Hws)) as Hlen. pose proof (take_all_text _ _ _ _ Hws) as Ht.
  destruct (ref_repeat (most (rep s) text) (impl s) text) as [k r]. cbn [fst snd] in *. subst k.
  assert (count_allowed (rep s) (S (length ws)) -> forall w, ~ takes (impl s) r w) as Hstop.
  { intros Hal w Hw. destruct (decide (length ws < most (rep s) text)%nat) as [Hlt|Hge]; [by apply (Hmax Hlt w)|].
    destruct (rep s); cbn [most count_allowed] in *; try lia;
      (apply (nonempty_alternatives _ _ Hne (takes_alternative _ _ _ Hw)); destruct Hw as (_ & _ & _ & [r' ->] & _);
       rewrite Ht, !length_app in Hge; destruct w; [done|cbn in Hge; lia]). }
  assert (repetition_satisfied (rep s) (Z.of_nat (length ws)) = true <-> count_allowed (rep s) (length ws)) as Hsat.
  { destruct (rep s); cbn [repetition_satisfied count_allowed most] in *; rewrite ?Z.eqb_eq, ?Z.ltb_lt; lia || done. }
  destruct (repetition_satisfied _ _); [exists ws; split_and!; [done|by apply Hsat|done]|].
  (* a count that is too small is none at all, where there is no word to take *)
  intros ws' r' (Hws' & Hal' & _).
  assert (length ws = 0%nat /\ (0 < length ws')%nat /\ (0 < length text -> 0 < most (rep s) text)%nat) as (H0 & Hpos & Hmost).
  { destruct (rep s); cbn [repetition_satisfied count_allowed most] in *; lia || (exfalso; by apply Bool.diff_false_true, Hsat) || lia. }
  apply nil_length_inv in H0 as ->. inversion Hws as [t E1 E2 E3|]; subst. inversion Hws' as [|w t ws'' rest Hw _]; subst; [cbn in Hpos; lia|].
  pose proof (nonempty_alternatives _ _ Hne (takes_alternative _ _ _ Hw)) as Hw0.
  apply (Hmax ltac:(cbn; apply Hmost; destruct w; [done|cbn; lia]) w Hw).
Qed.

Lemma greedy_text sts text words rest : greedy sts text words rest -> text = concat words ++ rest.
Proof.
  induction 1 as [|s sts text ws mid words rest (Hw & _) _ IH]; [done|]. apply take_all_text in Hw. cbn [concat].
  by rewrite Hw, IH, <- app_assoc.
Qed.

Lemma starts_inside_cons w text words :
  starts_inside (w ++ text) (w :: words) <-> (0 < length (w ++ text))%nat /\ starts_inside text words.
Proof.
  unfold starts_inside. rewrite length_app. split.
  - intros H. split; [apply (H 0%nat); cbn; lia|]. intros i Hi. specialize (H (S i)). cbn in H. rewrite length_app in H. lia.
  - intros [H0 H] [|i] Hi; cbn in *; [lia|]. rewrite length_app. specialize (H i). lia.
Qed.

(** The matcher is greedy matching, which may not start a state at the end. *)
Lemma ref_match_greedy sts text :
  Forall state_safe sts ->
  ref_match sts text = true <-> exists words rest, greedy sts text words rest /\ starts_inside text words.
Proof.
  intros Hs. revert text. induction Hs as [|s sts Hs Hss IH]; intros text; cbn [ref_match].
  { split; [|done]. intros _. exists [], text. split; [constructor|]. intros i Hi. cbn in Hi. lia. }
  destruct text as [|c text].
  { split; [done|]. intros (words & rest & Hg & Hin). inversion Hg; subst. specialize (Hin 0%nat). cbn in Hin. lia. }
  remember (c :: text) as t. pose proof (ref_state_greedy s t (safe_nonempty s Hs)) as Hst. destruct (ref_state s t) as [b r].
  destruct b; [|split; [done|intros (words & rest & Hg & _); inversion Hg; subst; naive_solver]].
  destruct Hst as (ws & Hws). cbn [andb]. rewrite IH. split.
  - intros (words & rest & Hg & Hin). exists (concat ws :: words), rest. split; [by econstructor|].
    rewrite (take_all_text _ _ _ _ (proj1 Hws)), starts_inside_cons. split; [|done].
    rewrite <- (take_all_text _ _ _ _ (proj1 Hws)), Heqt. cbn. lia.
  - intros (words & rest & Hg & Hin). inversion Hg as [|s' sts' text' ws' mid words' rest' Hg1 Hg2]; subst s' sts' text' words rest'.
    destruct (take_all_unique _ (rep s) _ _ _ _ _ (proj1 Hws) (proj1 Hg1)) as [<- <-]; [apply Hws|apply Hg1|apply Hws|apply Hg1|].
    exists words', rest. split; [done|]. rewrite (take_all_text _ _ _ _ (proj1 Hws)) in Hin. by apply starts_inside_cons in Hin as [_ Hin].
Qed.

Lemma greedy_lang sts text words rest : greedy sts text words rest -> lang sts (concat words).
Proof.
  induction 1 as [|s sts text ws mid words rest (Hw & Hc & _) _ IH]; cbn [concat]; constructor; [|done].
  exists ws. split_and!; [done|by eapply take_all_words|done].
Qed.

(** A state that stands for one word at a time: its words do not begin one
    another, and it is not repeated. *)
Definition plain (s : state) : Prop :=
  rep s = once /\ match impl s with state_string_alternation _ => False | _ => True end.

Lemma plain_takes m w text :
  match m with state_string_alternation _ => False | _ => True end -> w ∈ alternatives m -> takes m (w ++ text) w.
Proof.
  intros Hm Hw. pose proof (ref_item_takes m (w ++ text)) as H. destruct (ref_item m (w ++ text)) as [r|].
  - destruct H as (w' & E & Hw'). enough (w = w') as -> by done. pose proof (takes_alternative _ _ _ Hw') as Ha.
    destruct m as [t|choices|choices|]; cbn [alternatives] in *; [|done| |];
      rewrite ?list_elem_of_singleton in *; [congruence| |congruence].
    apply list_elem_of_fmap in Hw as (c & -> & _), Ha as (d & -> & _). by injection E as -> _.
  - destruct (list_elem_of_split _ _ Hw) as (before & after & E).
    pose proof (ref_choice_takes (alternatives m) (w ++ text)) as Hc. exfalso.
    destruct (ref_choice (alternatives m) (w ++ text)) as [r|].
    + destruct Hc as (w' & b & a & E' & E'' & Hb). apply (H w'). exists b, a. split_and!; [done|by exists r|done].
    + rewrite Forall_forall in Hc. apply (Hc w Hw). by exists text.
Qed.

Lemma plain_lang_greedy sts w text :
  Forall plain sts -> Forall state_safe sts -> lang sts w -> exists words, concat words = w /\ greedy sts (w ++ text) words text /\ starts_inside (w ++ text) words.
Proof.
  intros Hp Hs. induction 1 as [|s sts w w' (ws & -> & Hws & Hc) _ IH].
  { exists []. split_and!; [done|constructor|]. intros i Hi. cbn in Hi. lia. }
  apply Forall_cons in Hp as [[Hr Hm] Hp], Hs as [Hs Hss]. destruct (IH Hp Hss) as (words & <- & Hg & Hin). rewrite Hr in Hc. cbn in Hc.
  destruct ws as [|v [|]]; try done. apply Forall_cons in Hws as [Hv _]. exists (v :: words). cbn [concat]. rewrite app_nil_r, <- app_assoc.
  split_and!; [done| |].
  - replace (v :: words) with (concat [v] :: words) by (cbn; by rewrite app_nil_r).
    econstructor; [|exact Hg]. split_and!; [constructor; [by apply plain_takes|constructor]|by rewrite Hr|rewrite Hr; cbn; lia].
  - apply starts_inside_cons. split; [|done]. apply (nonempty_alternatives _ _ (safe_nonempty s Hs)) in Hv. destruct v; [done|]. cbn. lia.
Qed.

(** C27: the matcher decides greedy matching.  On states whose texts are not
    empty and whose characters are not repeated it ends, reads inside the input
    and accepts exactly if each state takes, from where the one before it
    stopped, as many words as it can and may, their number is one its repetition
    allows, and no state starts at the end of the input (where the loop stops
    and the states that are left count as failed, optional ones too).  What it
    accepts begins with a word of the language of the states; for states
    without repetition and without alternatives of strings it accepts exactly
    the inputs that do. *)
Theorem pattern_match_greedy (fuel : nat) (e : expr) (input : list byte) :
  Forall state_safe (states e) -> Z.of_nat (length input) + 1 < 2 ^ 64 -> (length input < fuel)%nat ->
  exists accepted, expr_match fuel e input = Ret accepted
  /\ (accepted = true <-> exists words rest, greedy (states e) input words rest /\ starts_inside input words)
  /\ (accepted = true -> exists w r, input = w ++ r /\ lang (states e) w)
  /\ (Forall plain (states e) -> accepted = true <-> exists w r, input = w ++ r /\ lang (states e) w).
Proof.
  intros Hs Hl Hf. exists (ref_match (states e) input). unfold expr_match. rewrite match_loop_spec by (done || lia). rewrite drop_0.
  pose proof (ref_match_greedy (states e) input Hs) as Hg.
  assert (ref_match (states e) input = true -> exists w r, input = w ++ r /\ lang (states e) w) as Hsound.
  { intros (words & rest & H & _)%Hg. exists (concat words), rest. split; [by eapply greedy_text|by eapply greedy_lang]. }
  split_and!; [done|done|done|]. intros Hp. split; [done|]. intros (w & r & -> & Hw). apply Hg.
  destruct (plain_lang_greedy (states e) w r Hp Hs Hw) as (words & _ & H & Hin). by exists words, r.
Qed.

Definition sample : expr :=
  {| states := [{| impl := state_literal (lit "ab"); rep := one_or_more |};
                {| impl := state_char_alternation (lit "xy"); rep := once |}] |}.

Lemma pattern_match_greedy_witness :
  exists accepted, expr_match 10 sample (lit "ababx") = Ret accepted
  /\ (accepted = true <-> exists words rest, greedy (states sample) (lit "ababx") words rest /\ starts_inside (lit "ababx") words)
  /\ (accepted = true -> exists w r, lit "ababx" = w ++ r /\ lang (states sample) w)
  /\ (Forall plain (states sample) -> accepted = true <-> exists w r, lit "ababx" = w ++ r /\ lang (states sample) w).
Proof.
  apply (pattern_match_greedy 10 sample (lit "ababx")).
  - apply Forall_cons_2; [discriminate|apply Forall_cons_2; [by left|constructor]].
  - simpl. lia.
  - simpl. lia.
Defined.

(** Greedy matching takes "a" for the states a, b*, and so does their language,
    but the matcher does not start the second state. *)
Example pattern_match_rejects_optional :
  let e := {| states := [{| impl := state_literal (lit "a"); rep := once |}; {| impl := state_literal (lit "b"); rep := zero_or_more |}] |} in
  expr_match 10 e (lit "a") = Ret false /\ lang (states e) (lit "a").
Proof.
  split; [vm_compute; reflexivity|]. change (lit "a") with (lit "a" ++ []). cbn [states].
  constructor; [exists [lit "a"]|change (@nil byte) with (@nil byte ++ []); constructor; [exists []|constructor]];
    split_and!; try done; repeat constructor.
Qed.

(** A repeated character at the end of the input is read past it, and an empty
    text is matched for ever. *)
Lemma pattern_match_unsafe :
  expr_match 10 {| states := [{| impl := state_wildcard; rep := zero_or_more |}] |} (lit "..") = Undef
  /\ forall fuel, state_match fuel {| impl := state_literal []; rep := zero_or_more |} (lit "a") 0 = OutOfFuel.
Proof.
  split; [vm_compute; reflexivity|]. intros fuel. unfold state_match.
  assert (forall z, state_match_loop fuel {| impl := state_literal []; rep := zero_or_more |} (lit "a") 0 z = OutOfFuel) as H; [|apply H].
  induction fuel as [|fuel IH]; intros z; [done|]. cbn. apply IH.
Qed.
