(* ===== verification/Doubles.v ===== *)
(** * [double]

    IEEE 754 binary64 numbers, as the specification floats of the Standard
    Library: a precision of 53 bits, exponents below 1024, rounding to nearest
    even.  Comparisons are false on a NaN. *)

From Stdlib Require Import ZArith Lia Floats.SpecFloat.
From stdpp Require Import prelude.
From S2P Require Import Prelude.

Definition double : Type := spec_float.

#[global] Instance double_eq_dec : EqDecision double.
Proof. solve_decision. Defined.

Definition dadd : double -> double -> double := SFadd 53 1024.
Definition dsub : double -> double -> double := SFsub 53 1024.
Definition dmul : double -> double -> double := SFmul 53 1024.
Definition ddiv : double -> double -> double := SFdiv 53 1024.
Definition dlt (x y : double) : bool := SFltb x y.
Definition dgt (x y : double) : bool := dlt y x.
Definition deq (x y : double) : bool := SFeqb x y.

Definition dinf : double := S754_infinity false.
Definition dzero : double := S754_zero false.
(** [static_cast<double>(n)] *)
Definition double_of_Z (n : Z) : double := binary_normalize 53 1024 n 0 false.
(** [m * 10^-e], rounded: a decimal literal *)
Definition decimal (m e : Z) : double := ddiv (double_of_Z m) (double_of_Z (10 ^ e)).

Definition is_nan (x : double) : bool := match x with S754_nan => true | _ => false end.

(** The order of the numbers that are not NaN is lexicographic in a key. *)
Definition key (x : double) : Z * Z * Z :=
  match x with
  | S754_infinity true => (-2, 0, 0)
  | S754_finite true m e => (-1, - e, - Zpos m)
  | S754_zero _ | S754_nan => (0, 0, 0)
  | S754_finite false m e => (1, e, Zpos m)
  | S754_infinity false => (2, 0, 0)
  end.

Definition key_lt (a b : Z * Z * Z) : Prop :=
  a.1.1 < b.1.1 \/ a.1.1 = b.1.1 /\ (a.1.2 < b.1.2 \/ a.1.2 = b.1.2 /\ a.2 < b.2).

Lemma compare_key x y :
  is_nan x = false -> is_nan y = false ->
  exists c, SFcompare x y = Some c /\
    match c with
    | Lt => key_lt (key x) (key y)
    | Gt => key_lt (key y) (key x)
    | Eq => key x = key y
    end.
Proof.
  unfold key_lt. destruct x as [sx|sx| |sx mx ex], y as [sy|sy| |sy my ey]; try discriminate; intros _ _;
    try (destruct sx); try (destruct sy); (eexists; split; [reflexivity|]); cbn; try lia; try done.
  - destruct (Z.compare_spec ex ey); cbn; [|lia..]. subst. change (Pos.compare_cont Eq mx my) with (Pos.compare mx my).
    destruct (Pos.compare_spec mx my); cbn; subst; try done; lia.
  - destruct (Z.compare_spec ex ey); cbn; [|lia..]. subst. change (Pos.compare_cont Eq mx my) with (Pos.compare mx my).
    destruct (Pos.compare_spec mx my); cbn; subst; try done; lia.
Qed.

Lemma dlt_key x y : is_nan x = false -> is_nan y = false -> dlt x y = true <-> key_lt (key x) (key y).
Proof.
  intros Hx Hy. unfold dlt, SFltb. destruct (compare_key x y Hx Hy) as (c & -> & Hc).
  unfold key_lt in *. destruct c; split; try done; try (rewrite Hc); lia.
Qed.

Lemma deq_key x y : is_nan x = false -> is_nan y = false -> deq x y = true <-> key x = key y.
Proof.
  intros Hx Hy. unfold deq, SFeqb. destruct (compare_key x y Hx Hy) as (c & -> & Hc).
  unfold key_lt in Hc. destruct c; split; try done; intros E; rewrite E in Hc; lia.
Qed.

Lemma dlt_not_nan x y : dlt x y = true -> is_nan x = false /\ is_nan y = false.
Proof. unfold dlt, SFltb. destruct x, y; try done; simpl; by destruct s. Qed.

Lemma dlt_trans x y z : dlt x y = true -> dlt y z = true -> dlt x z = true.
Proof.
  intros H1 H2. destruct (dlt_not_nan _ _ H1), (dlt_not_nan _ _ H2). rewrite dlt_key in * by done.
  unfold key_lt in *. lia.
Qed.

Lemma dlt_irrefl x : dlt x x = false.
Proof.
  destruct (is_nan x) eqn:E; [by destruct x|]. apply not_true_iff_false. rewrite dlt_key by done. unfold key_lt. lia.
Qed.

Lemma dlt_trichotomy x y : is_nan x = false -> is_nan y = false -> dlt x y = true \/ deq x y = true \/ dlt y x = true.
Proof.
  intros Hx Hy. rewrite !dlt_key, deq_key by done. unfold key_lt. destruct (key x) as [[a b] c], (key y) as [[a' b'] c']. cbn.
  destruct (Z.lt_trichotomy a a') as [?|[->|?]]; [lia| |lia]. destruct (Z.lt_trichotomy b b') as [?|[->|?]]; [lia| |lia].
  destruct (Z.lt_trichotomy c c') as [?|[->|?]]; [lia|tauto|lia].
Qed.

Lemma deq_lt x y z : deq x y = true -> dlt y z = true -> dlt x z = true.
Proof.
  intros H1 H2. destruct (dlt_not_nan _ _ H2) as [Hy Hz].
  assert (is_nan x = false) as Hx by (destruct x; [done..| |done]; by unfold deq, SFeqb in H1).
  rewrite deq_key in H1 by done. rewrite dlt_key in * by done. by rewrite H1.
Qed.

Lemma deq_not_lt x y : deq x y = true -> dlt x y = false /\ dlt y x = false.
Proof.
  intros H. destruct (is_nan x) eqn:Hx; [by destruct x|]. destruct (is_nan y) eqn:Hy; [by destruct x, y|].
  rewrite deq_key in H by done.
  split; apply not_true_iff_false; rewrite dlt_key by done; rewrite H; unfold key_lt; lia.
Qed.

Example decimal_examples :
  dlt (decimal 5 3) (decimal 1 2) = true /\ deq (decimal 25 1) (ddiv (double_of_Z 5) (double_of_Z 2)) = true
  /\ dlt (double_of_Z 10) dinf = true /\ deq (dadd (double_of_Z 1) (double_of_Z 2)) (double_of_Z 3) = true.
Proof. split_and!; vm_compute; reflexivity. Qed.
