(* ===== verification/Metrics.v ===== *)
(** * Prometheus metrics (include/instrument/prometheus,
    src/instrument/prometheus)

    Counters, gauges, histograms with their bucket layouts, trackers, and the
    registry.  An operation of a metric is modelled as its calls one after the
    other; increments that overlap are in [racing_increments].  The clock is an
    argument: the time of a call, in nanoseconds.  [std::pow] is an argument.

    The text encoders are in [Exposition].  [base_metric::encode] does not get
    to them: it selects one by a concept that no metric satisfies
    ([self_encoder] and [value_encoder] ask for a public member that returns an
    [io::result], and the members are private and return a task), so that it
    runs into [std::unreachable].
    [derive_child], which cannot be instantiated ([metric_labels] has no
    [try_emplace]), is left out. *)

From Stdlib Require Import ZArith Lia Strings.Byte String Floats.SpecFloat Sorted.
From stdpp Require Import prelude list gmap strings.
From S2P Require Import Prelude CxxStrings StringMap Doubles.

(** ** Metrics *)

Inductive metric_type := mt_counter | mt_gauge | mt_histogram | mt_untyped.

#[global] Instance metric_type_eq_dec : EqDecision metric_type.
Proof. solve_decision. Defined.

Definition metric_type_string (type : metric_type) : list byte :=
  match type with
  | mt_counter => lit "counter"
  | mt_gauge => lit "gauge"
  | mt_histogram => lit "histogram"
  | mt_untyped => lit "untyped"
  end.

Definition metric_label : Type := list byte * list byte.
Definition metric_labels : Type := list metric_label.

Record base_metric := {
  name : list byte;
  help : list byte;
  labels : metric_labels;
  last_update : Z; (* seconds *)
}.

Definition make_base (n h : list byte) (ls : metric_labels) : base_metric :=
  {| name := n; help := h; labels := ls; last_update := 0 |}.

(** The copy constructor and copy assignment from another object. *)
Definition copy_base (other : base_metric) : base_metric :=
  {| name := name other; help := help other; labels := labels other; last_update := last_update other |}.

(** The move constructor and move assignment: the new value, and what is left. *)
Definition move_base (other : base_metric) : base_metric * base_metric :=
  ({| name := name other; help := help other; labels := labels other; last_update := last_update other |},
   {| name := []; help := []; labels := []; last_update := 0 |}).

(** [duration_cast] from nanoseconds to seconds and back *)
Definition set_updated_at (timepoint : Z) (b : base_metric) : base_metric :=
  {| name := name b; help := help b; labels := labels b; last_update := Z.quot timepoint 1000000000 |}.
Definition last_updated (b : base_metric) : Z := last_update b * 1000000000.

(** *** Counters and gauges *)

Record counter := { counter_base : base_metric; counter_value : double }.

Definition make_counter (n h : list byte) (ls : metric_labels) : counter :=
  {| counter_base := make_base n h ls; counter_value := dzero |}.
Definition counter_copy (other : counter) : counter :=
  {| counter_base := copy_base (counter_base other); counter_value := counter_value other |}.
Definition counter_move (other : counter) : counter * counter :=
  let (b, rest) := move_base (counter_base other) in
  ({| counter_base := b; counter_value := counter_value other |},
   {| counter_base := rest; counter_value := counter_value other |}).
Definition counter_get (c : counter) : double := counter_value c.

(** The value returned, and the counter. *)
Definition counter_increment (v : double) (now : Z) (c : counter) : double * counter :=
  let current := counter_value c in
  let new_value := dadd current v in
  (new_value, {| counter_base := set_updated_at now (counter_base c); counter_value := new_value |}).

Definition counter_add (v : double) (now : Z) (c : counter) : double * counter := counter_increment v now c.
Definition counter_preinc (now : Z) (c : counter) : double * counter := counter_increment (double_of_Z 1) now c.
Definition counter_postinc (now : Z) (c : counter) : double * counter :=
  let (r, c) := counter_increment (double_of_Z 1) now c in (dsub r (double_of_Z 1), c).

Record gauge := { gauge_base : base_metric; gauge_value : double }.

Definition make_gauge (n h : list byte) (ls : metric_labels) : gauge :=
  {| gauge_base := make_base n h ls; gauge_value := dzero |}.
Definition gauge_copy (other : gauge) : gauge :=
  {| gauge_base := copy_base (gauge_base other); gauge_value := gauge_value other |}.
Definition gauge_move (other : gauge) : gauge * gauge :=
  let (b, rest) := move_base (gauge_base other) in
  ({| gauge_base := b; gauge_value := gauge_value other |}, {| gauge_base := rest; gauge_value := gauge_value other |}).
Definition gauge_get (g : gauge) : double := gauge_value g.

Definition gauge_increment (v : double) (now : Z) (g : gauge) : double * gauge :=
  let new_value := dadd (gauge_value g) v in
  (new_value, {| gauge_base := set_updated_at now (gauge_base g); gauge_value := new_value |}).
Definition gauge_decrement (v : double) (now : Z) (g : gauge) : double * gauge :=
  let new_value := dsub (gauge_value g) v in
  (new_value, {| gauge_base := set_updated_at now (gauge_base g); gauge_value := new_value |}).
Definition gauge_set (v : double) (now : Z) (g : gauge) : gauge :=
  {| gauge_base := set_updated_at now (gauge_base g); gauge_value := v |}.

Definition gauge_add (v : double) (now : Z) (g : gauge) : double * gauge := gauge_increment v now g.
Definition gauge_preinc (now : Z) (g : gauge) : double * gauge := gauge_increment (double_of_Z 1) now g.
Definition gauge_postinc (now : Z) (g : gauge) : double * gauge :=
  let (r, g) := gauge_increment (double_of_Z 1) now g in (dsub r (double_of_Z 1), g).
Definition gauge_sub (v : double) (now : Z) (g : gauge) : double * gauge := gauge_decrement v now g.
Definition gauge_predec (now : Z) (g : gauge) : double * gauge := gauge_decrement (double_of_Z 1) now g.
Definition gauge_postdec (now : Z) (g : gauge) : double * gauge :=
  let (r, g) := gauge_decrement (double_of_Z 1) now g in (dsub r (double_of_Z 1), g).

(** *** Increments that overlap: each is a load and a store *)

Record race := { shared : double; loaded : list double; to_load : list double }.

(** Threads with increments [to_load] still to begin; [loaded] holds the values
    they are about to store. *)
Inductive race_step : race -> race -> Prop :=
| race_load before v after r :
    to_load r = before ++ v :: after ->
    race_step r {| shared := shared r; loaded := dadd (shared r) v :: loaded r; to_load := before ++ after |}
| race_store before x after r :
    loaded r = before ++ x :: after ->
    race_step r {| shared := x; loaded := before ++ after; to_load := to_load r |}.

(** *** Bucket layouts *)

Definition default_buckets : list double :=
  [decimal 5 3; decimal 1 2; decimal 25 3; decimal 5 2; decimal 1 1; decimal 25 2; decimal 5 1; decimal 1 0; decimal 25 1;
   decimal 5 0; decimal 10 0; dinf].

(** The loops that fill [buckets[i]] for [i < n]; [next] is the next bound. *)
Fixpoint fill_buckets (step : double -> double) (n i : nat) (next : double) (buckets : list double) : outcome (list double) :=
  match n with
  | O => Ret buckets
  | S n => let* buckets := store buckets i next in fill_buckets step n (S i) (step next) buckets
  end.

(** [buckets.back() = infinity] *)
Definition set_back (x : double) (l : list double) : outcome (list double) :=
  match l with [] => Undef | _ => store l (length l - 1) x end.

(** [count - 1] turns of a loop; with [count] zero the bound wraps around and
    the first store is out of range. *)
Definition loop_bound (count : nat) : nat := Z.to_nat (u64 (Z.of_nat count - 1)).

Definition linear_buckets (start width : double) (count : nat) : outcome (list double) :=
  let buckets := replicate count dzero in
  if (count =? 0)%nat then store buckets 0 start
  else
    let* buckets := fill_buckets (fun b => dadd b width) (loop_bound count) 0 start buckets in
    set_back dinf buckets.

Definition exponential_buckets (start factor : double) (count : nat) : outcome (list double) :=
  let buckets := replicate count dzero in
  if (count =? 0)%nat then store buckets 0 start
  else
    let* buckets := fill_buckets (fun b => dmul b factor) (loop_bound count) 0 start buckets in
    set_back dinf buckets.

Section Pow.
Context (pow : double -> double -> double).

Fixpoint fill_powers (min factor : double) (n i : nat) (buckets : list double) : outcome (list double) :=
  match n with
  | O => Ret buckets
  | S n =>
      let* buckets := store buckets i (dmul min (pow factor (double_of_Z (Z.of_nat i)))) in
      fill_powers min factor n (S i) buckets
  end.

Definition exponential_buckets_from_range (min max : double) (count : nat) : outcome (list double) :=
  let factor := pow (ddiv max min) (ddiv (double_of_Z 1) (double_of_Z (u64 (Z.of_nat count - 2)))) in
  let buckets := replicate count dzero in
  if (count =? 0)%nat then store buckets 0 (dmul min (pow factor dzero))
  else
    let* buckets := fill_powers min factor (loop_bound count) 0 buckets in
    set_back dinf buckets.
End Pow.

(** *** Histograms *)

Record histogram := {
  histogram_base : base_metric;
  buckets : list double;
  bucket_values : list Z;
  count : Z;
  sum : double;
}.

Definition make_histogram (n h : list byte) (ls : metric_labels) (bs : list double) : outcome histogram :=
  match last bs with
  | None => Undef
  | Some back =>
      let extra := negb (deq back dinf) in
      Ret {| histogram_base := make_base n h ls;
             buckets := if extra then bs ++ [dinf] else bs;
             bucket_values := replicate (length bs) 0 ++ (if extra then [0] else []);
             count := 0; sum := dzero |}
  end.

Definition histogram_copy (other : histogram) : histogram :=
  {| histogram_base := copy_base (histogram_base other); buckets := buckets other; bucket_values := bucket_values other;
     count := count other; sum := sum other |}.

Definition histogram_move (other : histogram) : histogram * histogram :=
  let (b, rest) := move_base (histogram_base other) in
  ({| histogram_base := b; buckets := buckets other; bucket_values := bucket_values other; count := count other; sum := sum other |},
   {| histogram_base := rest; buckets := []; bucket_values := []; count := 0; sum := dzero |}).

(** [while (i < buckets.size() && v > buckets[i]) ++i] *)
Fixpoint first_bucket (v : double) (bs : list double) : nat :=
  match bs with
  | [] => 0
  | b :: bs => if dgt v b then S (first_bucket v bs) else 0
  end.

(** [while (i < buckets.size() && v < buckets[i]) { bucket_values[i] += 1; ++i; }],
    over the buckets from [i] on *)
Fixpoint add_to_buckets (v : double) (bs : list double) (i : nat) (values : list Z) : outcome (list Z) :=
  match bs with
  | [] => Ret values
  | b :: bs =>
      if dlt v b then
        let* x := index values i in
        let* values := store values i (u64 (x + 1)) in
        add_to_buckets v bs (S i) values
      else Ret values
  end.

Definition observe (v : double) (h : histogram) : outcome histogram :=
  let i := first_bucket v (buckets h) in
  let* values := add_to_buckets v (drop i (buckets h)) i (bucket_values h) in
  Ret {| histogram_base := histogram_base h; buckets := buckets h; bucket_values := values;
         count := u64 (count h + 1); sum := dadd (sum h) v |}.

(** [child.buckets = buckets] *)
Definition on_derive (h child : histogram) : histogram :=
  {| histogram_base := histogram_base child; buckets := buckets h; bucket_values := bucket_values child;
     count := count child; sum := sum child |}.

(** *** Trackers: the destructor calls back with the seconds since the start *)

Record tracker := { start : Z }.
Definition make_tracker (now : Z) : tracker := {| start := now |}.
Definition tracker_reset (now : Z) (t : tracker) : tracker := {| start := now |}.
Definition tracker_seconds (now : Z) (t : tracker) : Z := Z.quot (now - start t) 1000000000.
Definition track_gauge (now : Z) (t : tracker) (g : gauge) : gauge := gauge_set (double_of_Z (tracker_seconds now t)) now g.
Definition track_histogram (now : Z) (t : tracker) (h : histogram) : outcome histogram :=
  observe (double_of_Z (tracker_seconds now t)) h.

(** ** The registry *)

Inductive metric := m_counter (c : counter) | m_gauge (g : gauge) | m_histogram (h : histogram).

Definition metric_base (m : metric) : base_metric :=
  match m with
  | m_counter c => counter_base c
  | m_gauge g => gauge_base g
  | m_histogram h => histogram_base h
  end.

(** The alternative of the variant, [T::type()]. *)
Definition type_of (m : metric) : metric_type :=
  match m with m_counter _ => mt_counter | m_gauge _ => mt_gauge | m_histogram _ => mt_histogram end.

(** A [metric_ref] is a position in the deque, which never moves its elements. *)
Record registry := { metrics : list metric; lookup_table : string_map (gmap metric_labels nat) }.

Definition empty_registry : registry := {| metrics := []; lookup_table := [] |}.

(** [registry::get]: the one registry, made at the first call; the second
    component is the static member after it. *)
Definition registry_get (instance : option registry) : registry * option registry :=
  match instance with
  | Some r => (r, Some r)
  | None => (empty_registry, Some empty_registry)
  end.

(** Every call gives the registry of the first. *)
Lemma registry_get_same instance : let (r, instance') := registry_get instance in registry_get instance' = (r, instance').
Proof. by destruct instance. Qed.

(** [std::get<T>] of the metric a reference is to *)
Definition get_as (t : metric_type) (r : registry) (ref : nat) : outcome nat :=
  let* m := index (metrics r) ref in
  if decide (type_of m = t) then Ret ref else Throw bad_variant_access.

Section Registry.
Context (std_hash : list byte -> Z).
#[local] Instance registry_keys : KeyOps := default_keys std_hash.

(** The private [get_metric] *)
Definition get_metric (n : list byte) (ls : metric_labels) (r : registry) : outcome (option nat) :=
  let* it := StringMap.find (lookup_table r) n in
  match it with
  | None => Ret None
  | Some i => let* e := deref (lookup_table r) i in Ret (e.2 !! ls)
  end.

(** The private [register_metric] *)
Definition register_new (n : list byte) (ls : metric_labels) (m : metric) (r : registry) : outcome (nat * registry) :=
  let* found := get_metric n ls r in
  match found with
  | Some ref => Ret (ref, r)
  | None =>
      let ref := length (metrics r) in
      let* table := update_at ∅ (lookup_table r) n
        (fun sub => match sub !! ls with Some _ => sub | None => <[ls := ref]> sub end) in
      Ret (ref, {| metrics := metrics r ++ [m]; lookup_table := table |})
  end.

(** [register_metric<T>]: the registry is changed before [std::get] may throw. *)
Definition register_metric (m : metric) (r : registry) : outcome nat * registry :=
  let b := metric_base m in
  match get_metric (name b) (labels b) r with
  | Ret (Some ref) => (get_as (type_of m) r ref, r)
  | Ret None =>
      match register_new (name b) (labels b) m r with
      | Ret (ref, r) => (get_as (type_of m) r ref, r)
      | Throw e => (Throw e, r)
      | Terminate => (Terminate, r)
      | Undef => (Undef, r)
      | OutOfFuel => (OutOfFuel, r)
      end
  | Throw e => (Throw e, r)
  | Terminate => (Terminate, r)
  | Undef => (Undef, r)
  | OutOfFuel => (OutOfFuel, r)
  end.

(** [get_metric<T>] *)
Definition get_metric_as (t : metric_type) (n : list byte) (ls : metric_labels) (r : registry) : outcome (option nat) :=
  let* found := get_metric n ls r in
  match found with
  | None => Ret None
  | Some ref => let* ref := get_as t r ref in Ret (Some ref)
  end.

(** [encode] of a metric: no alternative satisfies [self_encoder] or
    [value_encoder], and the last branch is [std::unreachable()]. *)
Definition encode (m : metric) : outcome nat := Undef.

(** [record]: the registry, and what its task will write; the lock is given back
    when the task is made. *)
Definition record_of (record_all : list metric -> outcome nat) (instance : option registry) : outcome nat * option registry :=
  let (r, instance) := registry_get instance in (record_all (metrics r), instance).

(** [record_all]: the number of bytes written. *)
Fixpoint record_all (ms : list metric) : outcome nat :=
  match ms with
  | [] => Ret 0%nat
  | m :: ms => let* n := encode m in let* total := record_all ms in Ret (n + total)%nat
  end.

(** *** The registry is a table in which the first registration stays *)

Definition has_key (n : list byte) (ls : metric_labels) (m : metric) : bool :=
  bool_decide (name (metric_base m) = n /\ labels (metric_base m) = ls).

Definition entry (table : string_map (gmap metric_labels nat)) (n : list byte) (ls : metric_labels) : option nat :=
  abs table !! n ≫= fun sub => sub !! ls.

Definition registry_ok (r : registry) : Prop :=
  map_ok (lookup_table r) /\ forall n ls, entry (lookup_table r) n ls = find_index (has_key n ls) (metrics r).

Lemma get_metric_spec n ls r : registry_ok r -> get_metric n ls r = Ret (find_index (has_key n ls) (metrics r)).
Proof.
  intros [Hok He]. rewrite <- He. unfold get_metric, entry.
  destruct (find_position (lookup_table r) n Hok) as [(i & k' & u & -> & Hi & Hc & Ha)|[-> Ha]]; [by eexists|..];
    rewrite bind_ret; cbn in Ha; rewrite Ha; [|done]. unfold deref. by rewrite (index_Some _ _ _ Hi).
Qed.

Lemma find_index_snoc {A} (p : A -> bool) l x :
  find_index p (l ++ [x]) = match find_index p l with Some i => Some i | None => if p x then Some (length l) else None end.
Proof.
  induction l as [|y l IH]; cbn [app find_index length]; [by destruct (p x)|]. destruct (p y); [done|]. rewrite IH.
  destruct (find_index p l); [done|]. by destruct (p x).
Qed.

Lemma has_key_self m n ls : has_key n ls m = true <-> n = name (metric_base m) /\ ls = labels (metric_base m).
Proof. unfold has_key. rewrite bool_decide_eq_true. naive_solver. Qed.

(** A registration: the metric that is there, or the new one at the end. *)
Lemma register_spec m r :
  registry_ok r ->
  match find_index (has_key (name (metric_base m)) (labels (metric_base m))) (metrics r) with
  | Some i => register_metric m r = (get_as (type_of m) r i, r)
  | None => exists r', register_metric m r = (Ret (length (metrics r)), r') /\ metrics r' = metrics r ++ [m] /\ registry_ok r'
  end.
Proof.
  intros Hok. unfold register_metric. rewrite (get_metric_spec _ _ _ Hok). set (b := metric_base m).
  destruct (find_index (has_key (name b) (labels b)) (metrics r)) as [i|] eqn:E; [done|].
  unfold register_new. rewrite get_metric_spec, E, bind_ret by done. pose proof Hok as [Hm He].
  set (f := fun sub : gmap metric_labels nat => match sub !! labels b with Some _ => sub | None => <[labels b := length (metrics r)]> sub end).
  destruct (update_at_spec ∅ (lookup_table r) (name b) f Hm ltac:(by eexists)) as (table & -> & Hm' & Ha). rewrite bind_ret.
  exists {| metrics := metrics r ++ [m]; lookup_table := table |}. split; [|split; [done|split; [done|]]].
  - f_equal. unfold get_as. cbn [metrics]. rewrite index_app_mid, bind_ret. by rewrite decide_True.
  - intros n ls. cbn [lookup_table metrics]. rewrite find_index_snoc, <- He. unfold entry. rewrite Ha. cbn [canon default_laws id].
    specialize (He (name b) (labels b)). unfold entry in He. rewrite E in He.
    destruct (decide (n = name b)) as [->|Hn].
    + change (canon (name b)) with (name b). rewrite lookup_insert_eq. cbn [mbind option_bind]. unfold f.
      destruct (abs (lookup_table r) !! name b) as [sub|]; cbn [default id from_option mbind option_bind] in *; rewrite ?He, ?lookup_empty.
      * destruct (decide (ls = labels b)) as [->|Hl].
        -- rewrite He, lookup_insert_eq. by rewrite (proj2 (has_key_self m _ _)).
        -- rewrite lookup_insert_ne by done. destruct (sub !! ls); [done|].
           destruct (has_key (name b) ls m) eqn:K; [|done]. apply has_key_self in K as [_ K]. done.
      * destruct (decide (ls = labels b)) as [->|Hl].
        -- rewrite lookup_insert_eq. by rewrite (proj2 (has_key_self m _ _)).
        -- rewrite lookup_insert_ne, lookup_empty by done.
           destruct (has_key (name b) ls m) eqn:K; [|done]. apply has_key_self in K as [_ K]. done.
    + change (canon (name b)) with (name b). rewrite lookup_insert_ne by done.
      destruct (abs (lookup_table r) !! n ≫= (fun sub => sub !! ls)); [done|].
      destruct (has_key n ls m) eqn:K; [|done]. apply has_key_self in K as [K _]. done.
Qed.

(** Registering metrics one after the other, whatever comes of each. *)
Definition register_all (ms : list metric) (r : registry) : registry :=
  fold_left (fun r m => (register_metric m r).2) ms r.

Definition first_of (known : list metric) (m : metric) : list metric :=
  match find_index (has_key (name (metric_base m)) (labels (metric_base m))) known with
  | Some _ => known
  | None => known ++ [m]
  end.

Lemma register_all_spec ms r :
  registry_ok r -> registry_ok (register_all ms r) /\ metrics (register_all ms r) = fold_left first_of ms (metrics r).
Proof.
  revert r. unfold register_all. induction ms as [|m ms IH]; intros r Hok; cbn [fold_left]; [done|].
  pose proof (register_spec m r Hok) as Hs. unfold first_of at 2.
  destruct (find_index _ (metrics r)) as [i|].
  - rewrite Hs. cbn [snd]. by apply IH.
  - destruct Hs as (r' & -> & Hr & Hok'). cbn [snd]. rewrite <- Hr. by apply IH.
Qed.

Lemma empty_registry_ok : registry_ok empty_registry.
Proof. split; [apply empty_map_ok|]. intros n ls. reflexivity. Qed.
End Registry.

(** the registry keeps the first metric registered under each name and
    list of labels: registering again returns a reference to it, or throws if
    it is of another type, a new one is appended (so that references stay
    valid), and lookups answer from this table. *)
Lemma registry_first_wins (std_hash : list byte -> Z) (ms : list metric) :
  let r := register_all std_hash ms empty_registry in
  metrics r = fold_left first_of ms []
  /\ (forall t n ls, get_metric_as std_hash t n ls r
      = match find_index (has_key n ls) (metrics r) with
        | None => Ret None
        | Some i => let* ref := get_as t r i in Ret (Some ref)
        end)
  /\ (forall m, match find_index (has_key (name (metric_base m)) (labels (metric_base m))) (metrics r) with
      | Some i => register_metric std_hash m r = (get_as (type_of m) r i, r)
      | None => exists r', register_metric std_hash m r = (Ret (length (metrics r)), r') /\ metrics r' = metrics r ++ [m]
      end).
Proof.
  destruct (register_all_spec std_hash ms empty_registry (empty_registry_ok std_hash)) as [Hok Hms]. cbv zeta.
  split_and!; [exact Hms| |].
  - intros t n ls. unfold get_metric_as. rewrite (get_metric_spec std_hash n ls _ Hok), bind_ret. by destruct (find_index _ _).
  - intros m. pose proof (register_spec std_hash m _ Hok) as H. destruct (find_index _ _); [done|].
    destruct H as (r' & H1 & H2 & _). eauto.
Qed.

(** Recording an empty registry writes nothing; one metric is enough to reach
    [std::unreachable]. *)
Lemma record_unreachable m ms : record_all [] = Ret 0%nat /\ record_all (m :: ms) = Undef.
Proof. done. Qed.

(** ** Histograms *)

(** What [observe] counts a value in: a bucket with a larger bound, unless the
    value is itself a bound. *)
Definition in_bucket (v : double) (bs : list double) (b : double) : bool := dlt v b && negb (existsb (deq v) bs).

Definition bounds_ok (bs : list double) : Prop :=
  StronglySorted (fun a b => dlt a b = true) bs /\ Forall (fun b => is_nan b = false) bs.

Lemma first_bucket_split v bs :
  exists lo hi, bs = lo ++ hi /\ length lo = first_bucket v bs /\ Forall (fun b => dgt v b = true) lo
    /\ match hi with [] => True | b :: _ => dgt v b = false end.
Proof.
  induction bs as [|b bs (lo & hi & -> & Hl & Hlo & Hhi)]; cbn [first_bucket]; [by exists [], []|].
  destruct (dgt v b) eqn:E.
  - exists (b :: lo), hi. split_and!; [done|by cbn; rewrite Hl|by constructor|done].
  - by exists [], (b :: lo ++ hi).
Qed.

Lemma add_to_buckets_all v bs pre values :
  length values = length bs -> Forall (fun b => dlt v b = true) bs ->
  add_to_buckets v bs (length pre) (pre ++ values) = Ret (pre ++ map (fun x => u64 (x + 1)) values).
Proof.
  revert pre values. induction bs as [|b bs IH]; intros pre [|x values] Hl Hb; try done; cbn [add_to_buckets map].
  apply Forall_cons in Hb as [-> Hb]. rewrite index_app_mid, bind_ret, store_app_mid, bind_ret.
  replace (S (length pre)) with (length (pre ++ [u64 (x + 1)])) by solve_length.
  change (pre ++ u64 (x + 1) :: values) with (pre ++ [u64 (x + 1)] ++ values). rewrite app_assoc, IH; [by rewrite <- app_assoc|by injection Hl|done].
Qed.

Lemma sorted_above v b bs :
  StronglySorted (fun a b => dlt a b = true) (b :: bs) -> dlt v b = true -> Forall (fun b => dlt v b = true) (b :: bs).
Proof.
  intros Hs Hv. apply StronglySorted_inv in Hs as [_ Hs]. constructor; [done|].
  eapply Forall_impl; [exact Hs|]. intros c Hc. by eapply dlt_trans.
Qed.

Lemma sorted_app_r (l1 l2 : list double) :
  StronglySorted (fun a b => dlt a b = true) (l1 ++ l2) -> StronglySorted (fun a b => dlt a b = true) l2.
Proof. induction l1 as [|x l1 IH]; [done|]. intros H. apply StronglySorted_inv in H as [H _]. auto. Qed.

Definition bump (v : double) (bs : list double) (b : double) (x : Z) : Z := if in_bucket v bs b then u64 (x + 1) else x.

Lemma zip_bump_none v bs ls values :
  length values = length ls -> Forall (fun b => in_bucket v bs b = false) ls -> zip_with (bump v bs) ls values = values.
Proof.
  revert values. induction ls as [|b ls IH]; intros [|x values] Hl Hb; try done. cbn [zip_with]. apply Forall_cons in Hb as [Hb Hbs].
  unfold bump at 1. rewrite Hb, IH; [done|by injection Hl|done].
Qed.

Lemma zip_bump_all v bs ls values :
  length values = length ls -> Forall (fun b => in_bucket v bs b = true) ls ->
  zip_with (bump v bs) ls values = map (fun x => u64 (x + 1)) values.
Proof.
  revert values. induction ls as [|b ls IH]; intros [|x values] Hl Hb; try done. cbn [zip_with map]. apply Forall_cons in Hb as [Hb Hbs].
  unfold bump at 1. rewrite Hb, IH; [done|by injection Hl|done].
Qed.

Lemma observe_buckets v bs values :
  bounds_ok bs -> is_nan v = false -> length values = length bs ->
  add_to_buckets v (drop (first_bucket v bs) bs) (first_bucket v bs) values = Ret (zip_with (bump v bs) bs values).
Proof.
  intros [Hs Hn] Hv Hl. destruct (first_bucket_split v bs) as (lo & hi & E & Hlo & Hgt & Hhi). rewrite <- Hlo.
  assert (drop (length lo) bs = hi) as -> by (by rewrite E, drop_app_length).
  set (a := take (length lo) values). set (c := drop (length lo) values).
  assert (values = a ++ c) as Ev by (symmetry; apply take_drop).
  assert (length a = length lo) as Ha by (unfold a; rewrite length_take, Hl, E, length_app; lia).
  assert (length c = length hi) as Hc by (unfold c; rewrite length_drop, Hl, E, length_app; lia).
  assert (zip_with (bump v bs) bs values = zip_with (bump v bs) lo a ++ zip_with (bump v bs) hi c) as ->
    by (rewrite E at 2; rewrite Ev; apply zip_with_app; done).
  rewrite (zip_bump_none v bs lo a); [|done|].
  2: { eapply Forall_impl; [exact Hgt|]. intros b Hb. unfold in_bucket. unfold dgt in Hb.
       replace (dlt v b) with false; [done|]. symmetry. apply not_true_iff_false. intros H'.
       pose proof (dlt_trans _ _ _ H' Hb) as H''. by rewrite dlt_irrefl in H''. }
  clearbody a c. rewrite <- Ha, Ev. destruct hi as [|b hi]; [destruct c; [reflexivity|discriminate Hc]|].
  assert (is_nan b = false) as Hnb by (rewrite E in Hn; apply Forall_app in Hn as [_ Hn]; by apply Forall_cons in Hn as [? _]).
  destruct (dlt_trichotomy v b Hv Hnb) as [Hlt|[Heq|Hgt']]; [| |unfold dgt in Hhi; congruence].
  - pose proof (sorted_above v b hi) as Hall. rewrite E in Hs. specialize (Hall (sorted_app_r _ _ Hs) Hlt).
    rewrite add_to_buckets_all by done. rewrite zip_bump_all; [done|done|].
    assert (existsb (deq v) bs = false) as Hne.
    { apply not_true_iff_false. intros H. apply existsb_exists in H as (d & Hin & Hd). rewrite E in Hin. apply in_app_or in Hin as [Hin|Hin].
      - rewrite Forall_forall in Hgt. apply list_elem_of_In, Hgt in Hin. unfold dgt in Hin. destruct (deq_not_lt _ _ Hd). congruence.
      - rewrite Forall_forall in Hall. apply list_elem_of_In, Hall in Hin. destruct (deq_not_lt _ _ Hd). congruence. }
    eapply Forall_impl; [exact Hall|]. intros d Hd. unfold in_bucket. by rewrite Hd, Hne.
  - cbn [add_to_buckets]. rewrite (proj1 (deq_not_lt _ _ Heq)). rewrite zip_bump_none; [done|done|].
    apply Forall_forall. intros d _. unfold in_bucket. apply andb_false_iff. right. apply negb_false_iff. apply existsb_exists.
    exists b. split; [|done]. rewrite E. apply in_or_app. right. by left.
Qed.

Fixpoint observe_all (vs : list double) (h : histogram) : outcome histogram :=
  match vs with
  | [] => Ret h
  | v :: vs => let* h := observe v h in observe_all vs h
  end.

(** How many of the values fall in bucket [b]. *)
Definition tally (bs : list double) (vs : list double) (b : double) : nat := length (List.filter (fun v => in_bucket v bs b) vs).

Lemma zip_with_map_self {A B C} (f : A -> B -> C) (g : A -> B) l : zip_with f l (map g l) = map (fun x => f x (g x)) l.
Proof. induction l as [|x l IH]; [done|]. cbn. by rewrite IH. Qed.

Lemma observe_all_spec vs h k :
  bounds_ok (buckets h) -> Forall (fun v => is_nan v = false) vs ->
  bucket_values h = map (fun b => Z.of_nat (k b)) (buckets h) -> (forall b, Z.of_nat (k b + length vs) < 2 ^ 64) ->
  0 <= count h -> count h + Z.of_nat (length vs) < 2 ^ 64 ->
  exists h', observe_all vs h = Ret h' /\ buckets h' = buckets h
    /\ bucket_values h' = map (fun b => Z.of_nat (k b + tally (buckets h) vs b)) (buckets h)
    /\ count h' = count h + Z.of_nat (length vs) /\ sum h' = fold_left dadd vs (sum h).
Proof.
  intros Hb Hvs. revert h k Hb. induction Hvs as [|v vs Hv Hvs IH]; intros h k Hb Hk Hfit Hc0 Hc; cbn [observe_all].
  - exists h. split_and!; [done|done| |cbn; lia|done]. rewrite Hk. apply map_ext. intros b. unfold tally. cbn. lia.
  - unfold observe at 1. rewrite observe_buckets by (rewrite ?Hk, ?length_map; done). rewrite !bind_ret, Hk, zip_with_map_self.
    cbn [length] in *. edestruct (IH {| histogram_base := histogram_base h; buckets := buckets h;
        bucket_values := map (fun x => bump v (buckets h) x (Z.of_nat (k x))) (buckets h);
        count := u64 (count h + 1); sum := dadd (sum h) v |}
      (fun b => k b + (if in_bucket v (buckets h) b then 1 else 0))%nat) as (h' & -> & Hbs & Hvals & Hcnt & Hsum); cbn; try done.
    + apply map_ext. intros b. unfold bump. destruct (in_bucket v (buckets h) b); [|f_equal; lia].
      unfold u64. specialize (Hfit b). rewrite wrap_small; lia.
    + intros b. specialize (Hfit b). destruct (in_bucket v (buckets h) b); lia.
    + unfold u64. rewrite wrap_small; lia.
    + unfold u64. rewrite wrap_small; lia.
    + exists h'. cbn in *. split_and!; [done|done| | |done].
      * rewrite Hvals. apply map_ext. intros b. unfold tally. cbn. destruct (in_bucket v (buckets h) b); cbn [length]; lia.
      * rewrite Hcnt. unfold u64. rewrite wrap_small; lia.
Qed.

Lemma make_histogram_values n hlp ls bs h :
  make_histogram n hlp ls bs = Ret h ->
  bucket_values h = map (fun _ => 0) (buckets h) /\ count h = 0 /\ sum h = dzero
  /\ (exists b, last (buckets h) = Some b /\ deq b dinf = true) /\ length (bucket_values h) = length (buckets h).
Proof.
  unfold make_histogram. destruct (last bs) as [back|] eqn:Hl; [|done]. intros [= <-]. cbn.
  assert (forall l : list double, replicate (length l) 0 = map (fun _ => 0) l) as Hz by (induction l; [done|cbn; by f_equal]).
  destruct (deq back dinf) eqn:E; cbn.
  - rewrite app_nil_r, Hz, length_map. split_and!; eauto.
  - rewrite map_app, Hz, !length_app, length_map. cbn. split_and!; try done. exists dinf. split; [apply last_snoc|done].
Qed.

(** C28: after any observations (not NaN) of a histogram with increasing bounds,
    each bucket holds the number of values below its bound, not counting
    those that are equal to a bound, the count is their number and the sum
    their sum from left to right. *)
Theorem histogram_counts n hlp ls bs h0 vs :
  make_histogram n hlp ls bs = Ret h0 -> bounds_ok (buckets h0) ->
  Forall (fun v => is_nan v = false) vs -> Z.of_nat (length vs) < 2 ^ 64 ->
  exists h, observe_all vs h0 = Ret h /\ buckets h = buckets h0
    /\ bucket_values h = map (fun b => Z.of_nat (tally (buckets h0) vs b)) (buckets h0)
    /\ count h = Z.of_nat (length vs) /\ sum h = fold_left dadd vs dzero.
Proof.
  intros Hm Hb Hvs Hl. apply make_histogram_values in Hm as (Hv & Hc & Hs & _).
  destruct (observe_all_spec vs h0 (fun _ => 0%nat)) as (h & -> & Hbs & Hvals & Hcnt & Hsum); try done; try lia.
  exists h. rewrite Hc, Hs in *. done.
Qed.

Definition sample_histogram : outcome histogram := make_histogram (lit "test") [] [] [double_of_Z 1; double_of_Z 2].

Lemma histogram_counts_witness :
  exists h0 h, sample_histogram = Ret h0 /\ observe_all [decimal 5 1; decimal 15 1; double_of_Z 1] h0 = Ret h /\ count h = 3
    /\ bucket_values h = [1; 2; 2].
Proof.
  assert (exists h0, sample_histogram = Ret h0) as [h0 E] by (eexists; reflexivity).
  assert (buckets h0 = [double_of_Z 1; double_of_Z 2; dinf]) as Hb by (injection E as <-; reflexivity).
  destruct (histogram_counts (lit "test") [] [] [double_of_Z 1; double_of_Z 2] h0 [decimal 5 1; decimal 15 1; double_of_Z 1] E)
    as (h & Hh & _ & Hv & Hc & _).
  - rewrite Hb. split; [|repeat constructor].
    repeat (apply SSorted_cons; [|repeat constructor]); try apply SSorted_nil; vm_compute; reflexivity.
  - repeat constructor.
  - reflexivity.
  - exists h0, h. split_and!; [done|done|exact Hc|]. rewrite Hv, Hb. vm_compute. reflexivity.
Defined.

(** *** Bucket layouts *)

Fixpoint bounds_from (step : double -> double) (n : nat) (next : double) : list double :=
  match n with O => [] | S n => next :: bounds_from step n (step next) end.

Lemma bounds_from_length step n next : length (bounds_from step n next) = n.
Proof. revert next. induction n as [|n IH]; intros next; [done|]. cbn. by rewrite IH. Qed.

Lemma bounds_from_nth step n next i : (i < n)%nat -> bounds_from step n next !! i = Some (Nat.iter i step next).
Proof.
  revert next i. induction n as [|n IH]; intros next [|i] Hi; try lia; [done|]. cbn. rewrite IH by lia. f_equal.
  clear. induction i as [|i IH]; [done|]. cbn. by rewrite <- IH.
Qed.

Lemma fill_buckets_spec step n pre next rest z :
  fill_buckets step n (length pre) next (pre ++ replicate n z ++ rest) = Ret (pre ++ bounds_from step n next ++ rest).
Proof.
  revert pre next. induction n as [|n IH]; intros pre next; cbn [fill_buckets replicate bounds_from app]; [done|].
  rewrite store_app_mid, bind_ret. replace (S (length pre)) with (length (pre ++ [next])) by solve_length.
  change (pre ++ next :: replicate n z ++ rest) with (pre ++ [next] ++ replicate n z ++ rest).
  rewrite app_assoc, IH, <- app_assoc. done.
Qed.

Lemma layout_spec step n start :
  Z.of_nat n < 2 ^ 64 ->
  (let* bs := fill_buckets step (loop_bound (S n)) 0 start (replicate (S n) dzero) in set_back dinf bs)
  = Ret (bounds_from step n start ++ [dinf]).
Proof.
  intros Hn. assert (loop_bound (S n) = n) as -> by (unfold loop_bound, u64; rewrite wrap_small; lia).
  replace (replicate (S n) dzero) with ([] ++ replicate n dzero ++ [dzero]) by (cbn; by rewrite <- replicate_cons_app).
  rewrite (fill_buckets_spec step n []), bind_ret. cbn [app]. unfold set_back.
  destruct (bounds_from step n start ++ [dzero]) as [|b l] eqn:E; [by destruct (bounds_from step n start)|]. rewrite <- E.
  rewrite length_app. cbn [length]. rewrite Nat.add_sub. apply store_app_mid.
Qed.

(** C29: bucket layouts have the size asked for, the bounds of their
    progression and an infinite last bound, a histogram has one counter per
    bucket and an infinite last bound whatever it is made from, and both are
    undefined without buckets. *)
Theorem bucket_layouts :
  (forall start width n, Z.of_nat n < 2 ^ 64 -> exists bs, linear_buckets start width (S n) = Ret (bs ++ [dinf]) /\ length bs = n
    /\ forall i, (i < n)%nat -> bs !! i = Some (Nat.iter i (fun b => dadd b width) start))
  /\ (forall start factor n, Z.of_nat n < 2 ^ 64 -> exists bs, exponential_buckets start factor (S n) = Ret (bs ++ [dinf]) /\ length bs = n
    /\ forall i, (i < n)%nat -> bs !! i = Some (Nat.iter i (fun b => dmul b factor) start))
  /\ (forall a b, linear_buckets a b 0 = Undef /\ exponential_buckets a b 0 = Undef)
  /\ (forall n hlp ls bs, (make_histogram n hlp ls bs = Undef /\ bs = [])
      \/ exists h, make_histogram n hlp ls bs = Ret h /\ length (bucket_values h) = length (buckets h)
         /\ exists b, last (buckets h) = Some b /\ deq b dinf = true).
Proof.
  split_and!.
  - intros start width n Hn. exists (bounds_from (fun b => dadd b width) n start). rewrite bounds_from_length.
    split_and!; [|done|intros i Hi; by apply bounds_from_nth]. unfold linear_buckets. cbn [Nat.eqb]. by apply layout_spec.
  - intros start factor n Hn. exists (bounds_from (fun b => dmul b factor) n start). rewrite bounds_from_length.
    split_and!; [|done|intros i Hi; by apply bounds_from_nth]. unfold exponential_buckets. cbn [Nat.eqb]. by apply layout_spec.
  - done.
  - intros n hlp ls bs. destruct (make_histogram n hlp ls bs) as [h| | | |] eqn:E.
    + right. exists h. apply make_histogram_values in E as (_ & _ & _ & Hl & Hlen). done.
    + unfold make_histogram in E. by destruct (last bs).
    + unfold make_histogram in E. by destruct (last bs).
    + left. split; [done|]. unfold make_histogram in E. destruct (last bs) eqn:El; [done|]. by apply last_None in El.
    + unfold make_histogram in E. by destruct (last bs).
Qed.

Lemma bucket_layouts_witness : exists bs, linear_buckets (decimal 1 1) (decimal 1 1) 6 = Ret (bs ++ [dinf]) /\ length bs = 5%nat.
Proof.
  destruct (proj1 bucket_layouts (decimal 1 1) (decimal 1 1) 5%nat) as (bs & H & Hl & _); [reflexivity|]. by exists bs.
Defined.

(** Two overlapping increments of one can leave a counter at one; a value equal
    to a bound is in no bucket; [gauge--] returns neither the old nor the new
    value; a child of [on_derive] has more buckets than counters. *)
Lemma metric_flaws :
  (exists r, rtc race_step {| shared := dzero; loaded := []; to_load := [double_of_Z 1; double_of_Z 1] |} r
     /\ loaded r = [] /\ to_load r = [] /\ deq (shared r) (double_of_Z 1) = true)
  /\ (let* h := sample_histogram in let* h := observe (double_of_Z 1) h in Ret (count h, bucket_values h)) = Ret (1, [0; 0; 0])
  /\ (gauge_postdec 0 (gauge_set (double_of_Z 5) 0 (make_gauge [] [] []))).1 = double_of_Z 3
  /\ (let* h := sample_histogram in let* child := make_histogram [] [] [] [dinf] in observe dzero (on_derive h child)) = Undef.
Proof.
  split_and!; [|vm_compute; reflexivity..].
  eexists. split; [|split_and!].
  - eapply rtc_l; [apply (race_load [] (double_of_Z 1) [double_of_Z 1]); reflexivity|].
    eapply rtc_l; [apply (race_load [] (double_of_Z 1) []); reflexivity|].
    eapply rtc_l; [eapply (race_store [] _ [_]); reflexivity|].
    eapply rtc_l; [eapply (race_store [] _ []); reflexivity|]. apply rtc_refl.
  - reflexivity.
  - reflexivity.
  - vm_compute. reflexivity.
Qed.
