(* ===== verification/Exposition.v ===== *)
(** * The text encoders of metrics (include/instrument/prometheus/metric.hpp,
    src/instrument/prometheus), [io::write_all] and [replace_all_to] on a writer

    These functions make tasks, and a task starts when it is awaited: what it
    refers to has to be alive then.  A function that returns the task of another
    one has by then lost its parameters and the temporaries of the expression.
    So a task is a function of the writer, its arguments are texts that may be
    gone, and reading one that is gone is undefined.

    The order of events is the language's: a coroutine keeps a copy of a
    parameter passed by value (a view is copied, not what it shows) and a
    reference for one passed by reference; temporaries live to the end of the
    full expression, so to the end of the await in [co_await write_all(...)] and
    to the return in [return write_all(...)].  Whether the parameters of other
    functions live to the end of the full expression of the call or only until
    the function returns is left to the implementation; here they live to the
    end of the expression, which [write(char)] relies on.

    Not modelled: [encode_timestamp], which returns a task where a result is
    declared and cannot be instantiated, and the locks of the histogram. *)

From Stdlib Require Import ZArith Lia Strings.Byte String.
From stdpp Require Import prelude list gmap strings.
From S2P Require Import Prelude CxxStrings StringUtil Io Doubles Metrics.

(** ** Definitions *)

(** Memory that a view or a reference shows, [None] if it is gone *)
Definition memory (A : Type) : Type := option A.

Section Encoders.
Context {W : Type} `{Writer W}.

(** A task that has not started *)
Definition wtask : Type := W -> outcome (nat * error_condition * W).

(** The overloads of [writer::write] end in the virtual one, a coroutine, on a
    span; the one for a [char] on a span of its parameter.  Every call of that
    one is awaited at once. *)
Definition write_span (data : memory (list byte)) : wtask := fun w => match data with Some d => wr w d | None => Undef end.
Definition write_char (c : byte) : wtask := write_span (Some [c]).

(** [out.write(std::to_string(...))], returned: the string was a temporary. *)
Definition write_temporary (text : list byte) : wtask := write_span None.

(** The arguments of [write_all] *)
Inductive write_arg :=
| w_text (data : memory (list byte)) (* a view, a span or a string *)
| w_char (c : byte)
| w_call (f : wtask)
| w_gone.                            (* a reference to a temporary that is gone *)

Definition start_write (a : write_arg) : wtask :=
  match a with
  | w_text d => write_span d
  | w_char c => write_char c
  | w_call f => f
  | w_gone => fun _ => Undef
  end.

Fixpoint write_args (args : list write_arg) : wtask := fun w =>
  match args with
  | [] => Ret (0%nat, no_error, w)
  | a :: args =>
      let* (k, err, w) := start_write a w in
      if failed err then Ret (k, err, w)
      else
        let* (k', err', w) := write_args args w in
        Ret ((k + k')%nat, err', w)
  end.

(** What is left of the arguments of [return write_all(out, ...)] when the task
    starts: the first parameter is a copy, but for a callable; the others are
    references, here with whether they refer to a temporary. *)
Definition outlived (a : bool * write_arg) : write_arg := if a.1 then w_gone else a.2.

Definition returned (args : list (bool * write_arg)) : list write_arg :=
  match args with
  | [] => []
  | (temporary, w_call f) :: rest => (if temporary : bool then w_gone else w_call f) :: map outlived rest
  | (_, a) :: rest => a :: map outlived rest
  end.

(** [replace_all_to(out, view, replacements)], on texts that are alive *)
Fixpoint replace_all_write (fuel : nat) (view : list byte) (replacements : list (list byte * list byte)) (total : nat) : wtask := fun w =>
  match fuel with
  | O => OutOfFuel
  | S fuel =>
      match view with
      | [] => Ret (total, no_error, w)
      | front :: rest =>
          match first_replacement view replacements with
          | Some (pat, with_this) =>
              let* (k, err, w) := write_span (Some with_this) w in
              let total := (total + k)%nat in
              if failed err then Ret (total, err, w)
              else
                let* view := sv_substr_from view (length pat) in
                replace_all_write fuel view replacements total w
          | None =>
              let* (k, err, w) := write_char front w in
              let total := (total + k)%nat in
              if failed err then Ret (total, err, w) else replace_all_write fuel rest replacements total w
          end
      end
  end.

Definition replace_all_to (view : list byte) (replacements : list (list byte * list byte)) : wtask :=
  replace_all_write (S (length view)) view replacements 0.

Definition sv (text : string) : write_arg := w_text (Some (lit text)).

Definition escapes : list (list byte * list byte) :=
  [([x5c], [x5c; x5c]); ([x22], [x5c; x22]); ([x0a], lit "\n")].

Definition encode_help (b : base_metric) : wtask :=
  match help b with
  | [] => fun w => Ret (0%nat, no_error, w)
  | _ => write_args [sv "# HELP "; w_text (Some (name b)); w_char " "%byte; w_text (Some (help b)); w_char x0a]
  end.

Definition encode_type (t : metric_type) (b : base_metric) : wtask :=
  write_args (returned
    [(true, sv "# TYPE "); (false, w_text (Some (name b))); (true, w_char " "%byte); (true, w_text (Some (metric_type_string t)));
     (true, w_char x0a)]).

(** The callable of the label's value is a temporary of this expression. *)
Definition encode_one_label (label_name : list byte) (label_value : memory (list byte)) : wtask :=
  write_args (returned
    [(true, w_text (Some label_name)); (true, w_text (Some [x3d; x22]));
     (true, w_call (match label_value with Some v => replace_all_to v escapes | None => fun _ => Undef end));
     (true, w_text (Some [x22; x2c]))]).

Fixpoint all_labels_loop (ls : metric_labels) (total : nat) : wtask := fun w =>
  match ls with
  | [] => Ret (total, no_error, w)
  | (label_name, label_value) :: ls =>
      let* (k, err, w) := encode_one_label label_name (Some label_value) w in
      let total := (total + k)%nat in
      if failed err then Ret (total, err, w) else all_labels_loop ls total w
  end.

Definition encode_all_labels (b : base_metric) : wtask := all_labels_loop (labels b) 0.

Definition encode_labels (b : base_metric) : wtask :=
  match labels b with
  | [] => fun w => Ret (0%nat, no_error, w)
  | _ => write_args [w_char "{"%byte; w_call (encode_all_labels b); w_char "}"%byte]
  end.

(** [to_string] is [std::to_string(double)]. *)
Context (to_string : double -> list byte).

Definition counter_encode_value (c : counter) : wtask := write_temporary (to_string (counter_value c)).
Definition gauge_encode_value (g : gauge) : wtask := write_temporary (to_string (gauge_value g)).

(** The loop over the buckets in [encode_self]: the bound of a bucket is a
    temporary string. *)
Fixpoint buckets_loop (b : base_metric) (bs : list (double * Z)) (total : nat) : wtask := fun w =>
  match bs with
  | [] => Ret (total, no_error, w)
  | (bound, val) :: bs =>
      let* (k, err, w) :=
        write_args
          [w_text (Some (name b)); sv "_bucket{"; w_call (encode_one_label (lit "le") None); w_call (encode_all_labels b); sv "} ";
           w_call (write_temporary (to_chars 10 val)); w_char x0a] w in
      let total := (total + k)%nat in
      if failed err then Ret (total, err, w) else buckets_loop b bs total w
  end.

Definition encode_self (h : histogram) : wtask :=
  let b := histogram_base h in
  write_args (returned
    [(true, w_call (encode_help b)); (true, w_call (encode_type mt_histogram b));
     (true, w_call (buckets_loop b (zip (buckets h) (bucket_values h)) 0));
     (false, w_text (Some (name b))); (true, sv "_sum"); (true, w_call (encode_labels b)); (true, w_char " "%byte);
     (true, w_call (write_temporary (to_string (sum h)))); (true, w_char x0a);
     (false, w_text (Some (name b))); (true, sv "_count"); (true, w_call (encode_labels b)); (true, w_char " "%byte);
     (true, w_call (write_temporary (to_chars 10 (count h)))); (true, w_char x0a)]).
End Encoders.

(** ** Properties *)

(** Texts that are alive, up to the first argument that is not *)
Lemma write_args_texts {W} `{ReliableWriter W} (texts : list (list byte)) rest (w : W) :
  owriter_ok w ->
  exists w', owriter_ok w' /\ osink w' = osink w ++ concat texts
    /\ write_args (map (fun t => w_text (Some t)) texts ++ rest) w
       = let* (k, err, w) := write_args rest w' in Ret ((length (concat texts) + k)%nat, err, w).
Proof.
  revert w. induction texts as [|t texts IH]; intros w Hok.
  - exists w. rewrite app_nil_r. split_and!; try done. cbn. by destruct (write_args rest w) as [[[? ?] ?]|?| | |].
  - cbn [map app write_args start_write write_span].
    destruct (owr_spec w t Hok) as (k & err & w1 & j & E & Hok1 & _ & Hs & Hf).
    pose proof (owr_reliable w t k err w1 Hok E) as He. destruct (Hf He) as [-> ->]. rewrite E, bind_ret, He.
    destruct (IH w1 Hok1) as (w' & Hok' & Hs' & E'). exists w'. rewrite Hs', Hs, firstn_all. cbn [concat]. rewrite <- app_assoc.
    split_and!; try done. rewrite E'. destruct (write_args rest w') as [[[k' e'] w2]|?| | |]; try done. cbn. by rewrite length_app, Nat.add_assoc.
Qed.

(** An argument that is gone ends in undefined behaviour, behind the texts
    before it. *)
Lemma write_args_gone {W} `{ReliableWriter W} texts a rest (w : W) :
  owriter_ok w -> (forall w', start_write a w' = Undef) -> write_args (map (fun t => w_text (Some t)) texts ++ a :: rest) w = Undef.
Proof.
  intros Hok Ha. destruct (write_args_texts texts (a :: rest) w Hok) as (w' & _ & _ & ->). cbn [write_args]. by rewrite Ha.
Qed.

(** What is known of an argument that is alive *)
Lemma write_args_cons {W} `{ReliableWriter W} a t rest (w : W) :
  owriter_ok w -> (forall w', start_write a w' = wr w' t) ->
  exists w', owriter_ok w' /\ osink w' = osink w ++ t
    /\ write_args (a :: rest) w = let* (k, err, w) := write_args rest w' in Ret ((length t + k)%nat, err, w).
Proof.
  intros Hok Ha. destruct (write_args_texts [t] rest w Hok) as (w' & Hok' & Hs & E). cbn [map app concat] in *. rewrite app_nil_r in *.
  exists w'. split_and!; try done. rewrite <- E. cbn [write_args start_write write_span]. by rewrite Ha.
Qed.

(** The help line is written whole. *)
Lemma encode_help_spec {W} `{ReliableWriter W} b (w : W) :
  owriter_ok w ->
  let text := match help b with [] => [] | h => lit "# HELP " ++ name b ++ lit " " ++ h ++ [x0a] end in
  exists w', encode_help b w = Ret (length text, no_error, w') /\ osink w' = osink w ++ text.
Proof.
  intros Hok. unfold encode_help. destruct (help b) as [|c l] eqn:E; [exists w; cbn; by rewrite app_nil_r|].
  destruct (write_args_texts [lit "# HELP "; name b] [w_char " "%byte; w_text (Some (c :: l)); w_char x0a] w Hok) as (w1 & Hok1 & Hs1 & E1).
  destruct (write_args_cons (w_char " "%byte) (lit " ") [w_text (Some (c :: l)); w_char x0a] w1 Hok1) as (w2 & Hok2 & Hs2 & E2); [done|].
  destruct (write_args_cons (w_text (Some (c :: l))) (c :: l) [w_char x0a] w2 Hok2) as (w3 & Hok3 & Hs3 & E3); [done|].
  destruct (write_args_cons (w_char x0a) [x0a] [] w3 Hok3) as (w4 & Hok4 & Hs4 & E4); [done|].
  cbn [map app] in E1. exists w4. cbv zeta. unfold sv. rewrite E1, E2, E3, E4. cbn [write_args]. rewrite !bind_ret. split.
  - do 2 f_equal. f_equal. cbn [concat app length]. rewrite !length_app. cbn [length]. rewrite length_app. cbn [length]. lia.
  - rewrite Hs4, Hs3, Hs2, Hs1. cbn [concat]. by rewrite app_nil_r, <- !app_assoc.
Qed.

(** The other encoders do not work, on any metric and any writer that takes
    everything: a value is undefined, and so are the type line, one label, the
    labels of a metric that has some, and a histogram from the start. *)
Lemma text_encoders_undefined {W} `{ReliableWriter W} (to_string : double -> list byte) (w : W) :
  owriter_ok w ->
  (forall c, counter_encode_value to_string c w = Undef) /\ (forall g, gauge_encode_value to_string g w = Undef)
  /\ (forall h, encode_self to_string h w = Undef)
  /\ (forall t b, encode_type t b w = Undef)
  /\ (forall n v, encode_one_label n v w = Undef)
  /\ (forall b, encode_labels b w = match labels b with [] => Ret (0%nat, no_error, w) | _ => Undef end).
Proof.
  intros Hok. assert (forall n v (w : W), owriter_ok w -> encode_one_label n v w = Undef) as Hone
    by (intros n v w1 Hok1; apply (write_args_gone [n] w_gone); done).
  split_and!; try done.
  - intros t b. apply (write_args_gone [lit "# TYPE "; name b] w_gone); done.
  - intros n v. by apply Hone.
  - intros b. unfold encode_labels. destruct (labels b) as [|[n v] ls] eqn:E; [done|].
    destruct (write_args_cons (w_char "{"%byte) (lit "{") [w_call (encode_all_labels b); w_char "}"%byte] w Hok) as (w1 & Hok1 & _ & ->); [done|].
    cbn [write_args start_write]. unfold encode_all_labels. rewrite E. cbn [all_labels_loop]. by rewrite Hone.
Qed.

(** [replace_all_to] on a writer writes what [replace_all] returns, and ends. *)
Lemma replace_all_write_spec {W} `{ReliableWriter W} fuel view rs total (w : W) :
  Forall (fun r => r.1 <> []) rs -> (length view < fuel)%nat -> owriter_ok w ->
  exists out w', replace_all_loop fuel view rs = Ret out
    /\ replace_all_write fuel view rs total w = Ret ((total + length out)%nat, no_error, w') /\ osink w' = osink w ++ out.
Proof.
  intros Hrs. revert view total w. induction fuel as [|fuel IH]; intros view total w Hf Hok; [lia|].
  cbn [replace_all_write replace_all_loop]. destruct view as [|front rest].
  { exists [], w. rewrite app_nil_r. cbn. by rewrite Nat.add_0_r. }
  assert (forall t : list byte, exists e w1, write_span (Some t) w = Ret (length t, e, w1) /\ failed e = false
    /\ owriter_ok w1 /\ osink w1 = osink w ++ t) as Hw.
  { intros t. destruct (owr_spec w t Hok) as (k & e & w1 & j & E & Hok1 & _ & Hs & Hfl). pose proof (owr_reliable w t k e w1 Hok E) as He.
    destruct (Hfl He) as [-> ->]. rewrite firstn_all in Hs. by exists e, w1. }
  destruct (first_replacement (front :: rest) rs) as [[pat with_this]|] eqn:Ef.
  - pose proof (first_replacement_Some _ _ _ _ Ef) as [Hin Hst]. apply starts_with_spec in Hst as [rest' Hv].
    rewrite Forall_forall in Hrs. pose proof (Hrs _ Hin) as Hne. cbn in Hne.
    assert (sv_substr_from (front :: rest) (length pat) = Ret rest') as Hsub.
    { unfold sv_substr_from. rewrite Hv, length_app, (proj2 (Nat.leb_le _ _)) by lia. by rewrite drop_app_length. }
    destruct (Hw with_this) as (e & w1 & -> & He & Hok1 & Hs1). rewrite Hsub, !bind_ret, He, ?bind_ret.
    destruct (IH rest' (total + length with_this)%nat w1) as (out & w' & E1 & E2 & Hs'); [|done|].
    { apply (f_equal length) in Hv. rewrite length_app in Hv. destruct pat; [done|]. cbn in Hv, Hf. lia. }
    exists (with_this ++ out), w'. rewrite E1, bind_ret, E2, Hs', Hs1, length_app, <- app_assoc. by rewrite Nat.add_assoc.
  - unfold write_char. destruct (Hw [front]) as (e & w1 & -> & He & Hok1 & Hs1). rewrite !bind_ret, He.
    destruct (IH rest (total + length [front])%nat w1) as (out & w' & E1 & E2 & Hs'); [cbn in Hf; lia|done|].
    exists (front :: out), w'. rewrite E1, bind_ret, E2, Hs', Hs1, <- app_assoc. split_and!; try done. do 2 f_equal. f_equal. cbn [length]. lia.
Qed.

Lemma replace_all_to_spec {W} `{ReliableWriter W} view rs (w : W) :
  Forall (fun r => r.1 <> []) rs -> owriter_ok w ->
  exists out w', replace_all view rs = Ret out /\ replace_all_to view rs w = Ret (length out, no_error, w') /\ osink w' = osink w ++ out.
Proof. intros Hrs Hok. apply (replace_all_write_spec (S (length view)) view rs 0 w); [done|lia|done]. Qed.
