(* ===== verification/Otel.v ===== *)
(** * The OpenTelemetry data model and its JSON form
    (include/instrument/opentelemetry/protocol.hpp,
    src/instrument/opentelemetry/protocol.cpp)

    The messages of the protocol and the [to_json] and [from_json] overloads
    over them.  The JSON library is not part of the sources: it is the class
    [JsonOps], a type of JSON values with the calls the code makes, and
    [JsonLaws], what the library documents of these.  The overloads of
    [to_json] are the instances of the class [ToJson], as overload resolution
    selects them by type: each is the sequence of its assignments [j[key] = x].

    A struct with one member is that member; an enum whose values are combined
    as bits is the integer; a [time_point] is its count of nanoseconds. *)

From Stdlib Require Import ZArith Lia Strings.Byte String.
From stdpp Require Import prelude list gmap strings.
From S2P Require Import Prelude CxxStrings Hex Base64 Doubles.

(** ** Messages *)

(** [any_value], [array_value] and [key_value_list]; a [key_value] is a pair. *)
Inductive any_value :=
| string_value (s : list byte)
| bool_value (b : bool)
| int_value (i : Z)
| double_value (d : double)
| array_value (values : list any_value)
| kvlist_value (values : list (list byte * any_value))
| bytes_value (b : list byte).

Definition key_value : Type := list byte * any_value.

Record resource := { resource_attributes : list key_value; resource_dropped : Z }.

Definition trace_id_t : Type := list byte.
Definition span_id_t : Type := list byte.

(** *** Flags: the underlying integers *)
Definition span_flags : Type := Z.
Definition flags_zero : span_flags := 0.
Definition flags_sampled : span_flags := 1.
Definition flags_random : span_flags := 2.
Definition flags_w3c_mask : span_flags := 0xff.
Definition flags_and (lhs rhs : span_flags) : span_flags := u8 (Z.land lhs rhs).
Definition flags_or (lhs rhs : span_flags) : span_flags := u8 (Z.lor lhs rhs).

Definition data_point_flags : Type := Z.
Definition no_recorded_value : data_point_flags := 1.
Definition point_flags_and (lhs rhs : data_point_flags) : data_point_flags := u8 (Z.land lhs rhs).
Definition point_flags_or (lhs rhs : data_point_flags) : data_point_flags := u8 (Z.lor lhs rhs).

Inductive span_kind := unspecified | internal | server | client | producer | consumer.
Definition span_kind_code (k : span_kind) : Z :=
  match k with unspecified => 0 | internal => 1 | server => 2 | client => 3 | producer => 4 | consumer => 5 end.

Definition time_point : Type := Z.

Record event := {
  event_time : time_point;
  event_name : list byte;
  event_attributes : list key_value;
  event_dropped : Z;
}.

Record link := {
  link_trace_id : trace_id_t;
  link_span_id : span_id_t;
  link_trace_state : list byte;
  link_attributes : list key_value;
  link_dropped : Z;
  link_flags : span_flags;
}.

Inductive status_code := code_unset | code_ok | code_error.
Definition status_code_code (c : status_code) : Z := match c with code_unset => 0 | code_ok => 1 | code_error => 2 end.

Record status := { message : list byte; code : status_code }.

Record span := {
  version : byte;
  trace_id : trace_id_t;
  parent_span_id : option span_id_t;
  span_id : span_id_t;
  trace_state : list byte;
  flags : span_flags;
  span_name : list byte;
  kind : span_kind;
  start_time : time_point;
  end_time : time_point;
  attributes : list key_value;
  dropped_attributes_count : Z;
  events : list event;
  dropped_events_count : Z;
  links : list link;
  dropped_links_count : Z;
  span_status : status;
}.

Record instrumentation_scope := {
  scope_name : list byte;
  scope_version : list byte;
  scope_attributes : list key_value;
  scope_dropped : Z;
}.

Record scope_spans := { ss_scope : instrumentation_scope; ss_spans : list span; ss_schema_url : list byte }.
Record resource_spans := { rs_resource : resource; rs_scope_spans : list scope_spans; rs_schema_url : list byte }.

(** *** Metrics *)

(** [std::variant<double, std::int64_t>] *)
Inductive number := as_double (d : double) | as_int (i : Z).

Record exemplar := {
  filtered_attributes : list key_value;
  exemplar_time : time_point;
  exemplar_value : number;
  exemplar_span_id : span_id_t;
  exemplar_trace_id : trace_id_t;
}.

Record number_data_point := {
  ndp_attributes : list key_value;
  ndp_start_time : time_point;
  ndp_time : time_point;
  ndp_value : number;
  ndp_exemplars : list exemplar;
  ndp_flags : data_point_flags;
}.

Inductive aggregation_temporality := delta | cumulative.
Definition temporality_code (t : aggregation_temporality) : Z := match t with delta => 1 | cumulative => 2 end.

Record sum_data := { sum_points : list number_data_point; sum_temporality : aggregation_temporality; is_monotonic : bool }.

Record histogram_point := {
  hp_attributes : list key_value;
  hp_start_time : time_point;
  hp_time : time_point;
  hp_count : Z;
  hp_sum : option double;
  hp_bucket_counts : list Z;
  hp_explicit_bounds : list double;
  hp_exemplars : list exemplar;
  hp_flags : data_point_flags;
  hp_min : option double;
  hp_max : option double;
}.

Record histogram := { histogram_points : list histogram_point; histogram_temporality : aggregation_temporality }.

Record exp_buckets := { offset : Z; eb_bucket_counts : list Z }.

Record exp_point := {
  ep_attributes : list key_value;
  ep_start_time : time_point;
  ep_time : time_point;
  ep_count : Z;
  ep_sum : option double;
  scale : Z;
  zero_count : Z;
  positive : exp_buckets;
  negative : exp_buckets;
  ep_flags : data_point_flags;
  ep_exemplars : list exemplar;
  ep_min : option double;
  ep_max : option double;
  zero_threshold : double;
}.

Record exponential_histogram := { exp_points : list exp_point; exp_temporality : aggregation_temporality }.

Record value_at_quantile := { quantile : double; quantile_value : double }.

Record summary_point := {
  sp_attributes : list key_value;
  sp_start_time : time_point;
  sp_time : time_point;
  sp_count : Z;
  sp_sum : double;
  quantile_values : list value_at_quantile;
  sp_flags : data_point_flags;
}.

(** [metric::data_t]; [gauge] and [summary] have one member. *)
Inductive metric_data :=
| data_gauge (data_points : list number_data_point)
| data_sum (s : sum_data)
| data_histogram (h : histogram)
| data_exponential (h : exponential_histogram)
| data_summary (data_points : list summary_point).

Record metric := {
  metric_name : list byte;
  description : list byte;
  unit_ : list byte;
  data : metric_data;
  metadata : list key_value;
}.

Record scope_metrics := { sm_scope : instrumentation_scope; sm_metrics : list metric; sm_schema_url : list byte }.
Record resource_metrics := { rm_resource : resource; rm_scope_metrics : list scope_metrics; rm_schema_url : list byte }.

(** *** Requests and responses *)

Record export_trace_service_request := { req_resource_spans : list resource_spans }.
Record export_metrics_service_request := { req_resource_metrics : list resource_metrics }.

(** [export_trace_partial_success] and [export_metrics_partial_success] *)
Record partial_success := { rejected : Z; error_message : list byte }.

(** ** The JSON library *)

Class JsonOps (J : Type) := {
  json_null : J;
  json_string : list byte -> J;
  json_bool : bool -> J;
  json_int : Z -> J;
  json_double : double -> J;
  json_array : list J -> J;
  json_set : string -> J -> J -> outcome J; (* [j[key] = x] *)
  json_find : string -> J -> option J;
  json_value_int : string -> Z -> J -> outcome Z; (* [j.value(key, 0)]: an [int] *)
  json_value_string : string -> list byte -> J -> outcome (list byte);
}.

(** What the library documents: [operator[]] of null or an object inserts or
    finds a member, and leaves the others; values built from different
    arguments of one type are different; [value] returns the member converted
    to the type of the default, or the default. *)
Class JsonLaws (J : Type) `{JsonOps J} := {
  is_object : J -> Prop;
  null_find k : json_find k json_null = None;
  set_spec k x j : j = json_null \/ is_object j -> exists j',
    json_set k x j = Ret j' /\ is_object j' /\ json_find k j' = Some x
    /\ forall k', k' <> k -> json_find k' j' = json_find k' j;
  json_string_inj a b : json_string a = json_string b -> a = b;
  json_bool_inj a b : json_bool a = json_bool b -> a = b;
  json_int_inj a b : json_int a = json_int b -> a = b;
  json_double_inj a b : json_double a = json_double b -> a = b;
  json_array_inj a b : json_array a = json_array b -> a = b;
  value_int_found k d j n : is_object j -> json_find k j = Some (json_int n) -> - 2 ^ 31 <= n < 2 ^ 31 -> json_value_int k d j = Ret n;
  value_int_absent k d j : is_object j -> json_find k j = None -> json_value_int k d j = Ret d;
  value_int_range k d j n : json_value_int k d j = Ret n -> - 2 ^ 31 <= d < 2 ^ 31 -> - 2 ^ 31 <= n < 2 ^ 31;
  value_string_found k d j t : is_object j -> json_find k j = Some (json_string t) -> json_value_string k d j = Ret t;
  value_string_absent k d j : is_object j -> json_find k j = None -> json_value_string k d j = Ret d;
}.

(** ** Encoders *)

Section AnyInd.
Context (P : any_value -> Prop).
Context (Hs : forall s, P (string_value s)) (Hb : forall b, P (bool_value b)) (Hi : forall i, P (int_value i)).
Context (Hd : forall d, P (double_value d)) (Hy : forall b, P (bytes_value b)).
Context (Ha : forall l, Forall P l -> P (array_value l)) (Hk : forall l, Forall (fun kv => P kv.2) l -> P (kvlist_value l)).

Fixpoint any_value_nested_ind (v : any_value) : P v :=
  match v with
  | string_value s => Hs s
  | bool_value b => Hb b
  | int_value i => Hi i
  | double_value d => Hd d
  | bytes_value b => Hy b
  | array_value l => Ha l ((fix go l := match l return Forall P l with [] => Forall_nil_2 _ | x :: l => Forall_cons_2 _ _ _ (any_value_nested_ind x) (go l) end) l)
  | kvlist_value l =>
      Hk l ((fix go l := match l return Forall (fun kv => P kv.2) l with
                         | [] => Forall_nil_2 _
                         | kv :: l => Forall_cons_2 _ _ _ (any_value_nested_ind kv.2) (go l)
                         end) l)
  end.
End AnyInd.

Section Encoders.
Context {J : Type} `{JsonOps J}.
(** What the cache of base64 decoders holds at a call; encoding does not use it. *)
Context (decoders_cache : gmap (list byte) (list byte)).

(** A sequence of assignments [j[key] = x]. *)
Fixpoint assign (fields : list (string * outcome J)) (j : J) : outcome J :=
  match fields with
  | [] => Ret j
  | (k, m) :: fields => let* x := m in let* j := json_set k x j in assign fields j
  end.

(** The elements of a [std::vector], one after the other. *)
Definition each {A B} (f : A -> outcome B) : list A -> outcome (list B) :=
  fix go l := match l with [] => Ret [] | x :: l => let* y := f x in let* ys := go l in Ret (y :: ys) end.

(** The conversion of a value to JSON: [to_json] on a null value. *)
Class ToJson (A : Type) := json_of : A -> outcome J.

#[local] Instance string_ToJson : ToJson (list byte) := fun s => Ret (json_string s).
#[local] Instance bool_ToJson : ToJson bool := fun b => Ret (json_bool b).
#[local] Instance int_ToJson : ToJson Z := fun n => Ret (json_int n).
#[local] Instance double_ToJson : ToJson double := fun d => Ret (json_double d).
#[local] Instance vector_ToJson {A} `{ToJson A} : ToJson (list A) | 10 :=
  fun l => let* xs := each json_of l in Ret (json_array xs).

(** [encoding::hex::encode(id)] *)
Definition hex_json (id : list byte) : outcome J := let* t := Hex.encode id in Ret (json_string t).

Definition present {A} `{ToJson A} (k : string) (x : option A) : list (string * outcome J) :=
  match x with Some v => [(k, json_of v)] | None => [] end.

Definition bytes_json (b : list byte) : outcome J :=
  let* (enc, _) := Base64.make_encoding decoders_cache Base64.standard_alphabet "="%byte in
  let* encoded := Base64.encode enc b in
  Ret (json_string encoded).

(** [to_json(j, key_value)], given the conversion of its value *)
Definition key_value_with (value_json : any_value -> outcome J) (j : J) (kv : key_value) : outcome J :=
  assign [("key", json_of kv.1); ("value", value_json kv.2)]%string j.

(** [j[outer]["values"] = xs] *)
Definition set_values (outer : string) (xs : list J) (j : J) : outcome J :=
  let* inner := json_set "values" (json_array xs) (default json_null (json_find outer j)) in
  json_set outer inner j.

Fixpoint any_value_to_json (j : J) (v : any_value) : outcome J :=
  match v with
  | string_value s => json_set "stringValue" (json_string s) j
  | bool_value b => json_set "boolValue" (json_bool b) j
  | int_value i => json_set "intValue" (json_int i) j
  | double_value d => json_set "doubleValue" (json_double d) j
  | array_value values => let* xs := each (any_value_to_json json_null) values in set_values "arrayValue" xs j
  | kvlist_value values =>
      let* xs := each (key_value_with (any_value_to_json json_null) json_null) values in set_values "kvlistValue" xs j
  | bytes_value b => let* x := bytes_json b in json_set "bytesValue" x j
  end.
#[local] Instance any_value_ToJson : ToJson any_value := any_value_to_json json_null.

Definition key_value_to_json (j : J) (kv : key_value) : outcome J := key_value_with json_of j kv.
#[local] Instance key_value_ToJson : ToJson key_value := key_value_to_json json_null.

Definition key_value_list_to_json (j : J) (values : list key_value) : outcome J := assign [("values"%string, json_of values)] j.
Definition array_value_to_json (j : J) (values : list any_value) : outcome J := assign [("values"%string, json_of values)] j.

#[local] Open Scope string_scope.

Definition resource_to_json (j : J) (value : resource) : outcome J :=
  assign [("attributes", json_of (resource_attributes value));
          ("droppedAttributesCount", json_of (resource_dropped value))] j.
#[local] Instance resource_ToJson : ToJson resource := resource_to_json json_null.

Definition event_to_json (j : J) (value : event) : outcome J :=
  assign [("timeUnixNano", json_of (event_time value)); ("name", json_of (event_name value));
          ("attributes", json_of (event_attributes value)); ("droppedAttributesCount", json_of (event_dropped value))] j.
#[local] Instance event_ToJson : ToJson event := event_to_json json_null.

Definition link_to_json (j : J) (value : link) : outcome J :=
  assign [("traceId", hex_json (link_trace_id value)); ("spanId", hex_json (link_span_id value));
          ("traceState", json_of (link_trace_state value)); ("attributes", json_of (link_attributes value));
          ("droppedAttributesCount", json_of (link_dropped value)); ("flags", json_of (link_flags value))] j.
#[local] Instance link_ToJson : ToJson link := link_to_json json_null.

Definition status_to_json (j : J) (value : status) : outcome J :=
  assign [("message", json_of (message value)); ("code", json_of (status_code_code (code value)))] j.
#[local] Instance status_ToJson : ToJson status := status_to_json json_null.

Definition span_to_json (j : J) (value : span) : outcome J :=
  assign ([("traceId", hex_json (trace_id value)); ("spanId", hex_json (span_id value)); ("name", json_of (span_name value));
           ("kind", json_of (span_kind_code (kind value)));
           ("startTimeUnixNano", json_of (start_time value)); ("endTimeUnixNano", json_of (end_time value));
           ("attributes", json_of (attributes value)); ("droppedAttributesCount", json_of (dropped_attributes_count value));
           ("events", json_of (events value)); ("droppedEventsCount", json_of (dropped_events_count value));
           ("links", json_of (links value)); ("droppedLinksCount", json_of (dropped_links_count value));
           ("status", json_of (span_status value))]
          ++ (match trace_state value with [] => [] | _ => [("traceState", json_of (trace_state value))] end)
          ++ (match parent_span_id value with Some id => [("parentSpanId", hex_json id)] | None => [] end)
          ++ (if (flags value =? flags_zero)%Z then [] else [("flags", json_of (flags value))])) j.
#[local] Instance span_ToJson : ToJson span := span_to_json json_null.

Definition scope_to_json (j : J) (value : instrumentation_scope) : outcome J :=
  assign [("name", json_of (scope_name value)); ("version", json_of (scope_version value));
          ("attributes", json_of (scope_attributes value)); ("droppedAttributesCount", json_of (scope_dropped value))] j.
#[local] Instance scope_ToJson : ToJson instrumentation_scope := scope_to_json json_null.

Definition scope_spans_to_json (j : J) (value : scope_spans) : outcome J :=
  assign [("scope", json_of (ss_scope value)); ("spans", json_of (ss_spans value)); ("schemaUrl", json_of (ss_schema_url value))] j.
#[local] Instance scope_spans_ToJson : ToJson scope_spans := scope_spans_to_json json_null.

Definition resource_spans_to_json (j : J) (value : resource_spans) : outcome J :=
  assign [("resource", json_of (rs_resource value)); ("scopeSpans", json_of (rs_scope_spans value));
          ("schemaUrl", json_of (rs_schema_url value))] j.
#[local] Instance resource_spans_ToJson : ToJson resource_spans := resource_spans_to_json json_null.

(** The [std::visit] over a number. *)
Definition number_field (n : number) : string * outcome J :=
  match n with as_double v => ("asDouble", json_of v) | as_int v => ("asInt", json_of v) end.

Definition exemplar_to_json (j : J) (value : exemplar) : outcome J :=
  assign [("filteredAttributes", json_of (filtered_attributes value)); ("timeUnixNano", json_of (exemplar_time value));
          number_field (exemplar_value value); ("spanId", hex_json (exemplar_span_id value));
          ("traceId", hex_json (exemplar_trace_id value))] j.
#[local] Instance exemplar_ToJson : ToJson exemplar := exemplar_to_json json_null.

Definition number_data_point_to_json (j : J) (value : number_data_point) : outcome J :=
  assign [("attributes", json_of (ndp_attributes value)); ("startTimeUnixNano", json_of (ndp_start_time value));
          ("timeUnixNano", json_of (ndp_time value)); number_field (ndp_value value);
          ("exemplars", json_of (ndp_exemplars value)); ("flags", json_of (ndp_flags value))] j.
#[local] Instance number_data_point_ToJson : ToJson number_data_point := number_data_point_to_json json_null.

Definition gauge_to_json (j : J) (data_points : list number_data_point) : outcome J :=
  assign [("dataPoints", json_of data_points)] j.

Definition sum_to_json (j : J) (value : sum_data) : outcome J :=
  assign [("dataPoints", json_of (sum_points value));
          ("aggregationTemporality", json_of (temporality_code (sum_temporality value)));
          ("isMonotonic", json_of (is_monotonic value))] j.

Definition histogram_point_to_json (j : J) (value : histogram_point) : outcome J :=
  assign ([("attributes", json_of (hp_attributes value)); ("startTimeUnixNano", json_of (hp_start_time value));
           ("timeUnixNano", json_of (hp_time value)); ("count", json_of (hp_count value))]
          ++ present "sum" (hp_sum value)
          ++ [("bucketCounts", json_of (hp_bucket_counts value)); ("explicitBounds", json_of (hp_explicit_bounds value));
              ("exemplars", json_of (hp_exemplars value)); ("flags", json_of (hp_flags value))]
          ++ present "min" (hp_min value) ++ present "max" (hp_max value)) j.
#[local] Instance histogram_point_ToJson : ToJson histogram_point := histogram_point_to_json json_null.

Definition histogram_to_json (j : J) (value : histogram) : outcome J :=
  assign [("dataPoints", json_of (histogram_points value));
          ("aggregationTemporality", json_of (temporality_code (histogram_temporality value)))] j.

Definition exp_buckets_to_json (j : J) (value : exp_buckets) : outcome J :=
  assign [("offset", json_of (offset value)); ("bucketCounts", json_of (eb_bucket_counts value))] j.
#[local] Instance exp_buckets_ToJson : ToJson exp_buckets := exp_buckets_to_json json_null.

Definition exp_point_to_json (j : J) (value : exp_point) : outcome J :=
  assign ([("attributes", json_of (ep_attributes value)); ("startTimeUnixNano", json_of (ep_start_time value));
           ("timeUnixNano", json_of (ep_time value)); ("count", json_of (ep_count value))]
          ++ present "sum" (ep_sum value)
          ++ [("zeroCount", json_of (zero_count value)); ("positive", json_of (positive value));
              ("negative", json_of (negative value)); ("flags", json_of (ep_flags value));
              ("exemplars", json_of (ep_exemplars value))]
          ++ present "min" (ep_min value) ++ present "max" (ep_max value)
          ++ [("zeroThreshold", json_of (zero_threshold value))]) j.
#[local] Instance exp_point_ToJson : ToJson exp_point := exp_point_to_json json_null.

Definition exponential_histogram_to_json (j : J) (value : exponential_histogram) : outcome J :=
  assign [("dataPoints", json_of (exp_points value));
          ("aggregationTemporality", json_of (temporality_code (exp_temporality value)))] j.

Definition value_at_quantile_to_json (j : J) (value : value_at_quantile) : outcome J :=
  assign [("quantile", json_of (quantile value)); ("value", json_of (quantile_value value))] j.
#[local] Instance value_at_quantile_ToJson : ToJson value_at_quantile := value_at_quantile_to_json json_null.

Definition summary_point_to_json (j : J) (value : summary_point) : outcome J :=
  assign [("attributes", json_of (sp_attributes value)); ("startTimeUnixNano", json_of (sp_start_time value));
          ("timeUnixNano", json_of (sp_time value)); ("count", json_of (sp_count value)); ("sum", json_of (sp_sum value));
          ("quantileValues", json_of (quantile_values value)); ("flags", json_of (sp_flags value))] j.
#[local] Instance summary_point_ToJson : ToJson summary_point := summary_point_to_json json_null.

Definition summary_to_json (j : J) (data_points : list summary_point) : outcome J :=
  assign [("dataPoints", json_of data_points)] j.

(** The [std::visit] over the data of a metric. *)
Definition data_field (d : metric_data) : string * outcome J :=
  match d with
  | data_gauge v => ("gauge", gauge_to_json json_null v)
  | data_sum v => ("sum", sum_to_json json_null v)
  | data_histogram v => ("histogram", histogram_to_json json_null v)
  | data_exponential v => ("exponentialHistogram", exponential_histogram_to_json json_null v)
  | data_summary v => ("summary", summary_to_json json_null v)
  end.

Definition metric_to_json (j : J) (value : metric) : outcome J :=
  assign [("name", json_of (metric_name value)); ("description", json_of (description value)); ("unit", json_of (unit_ value));
          data_field (data value); ("metadata", json_of (metadata value))] j.
#[local] Instance metric_ToJson : ToJson metric := metric_to_json json_null.

Definition scope_metrics_to_json (j : J) (value : scope_metrics) : outcome J :=
  assign [("scope", json_of (sm_scope value)); ("metrics", json_of (sm_metrics value)); ("schemaUrl", json_of (sm_schema_url value))] j.
#[local] Instance scope_metrics_ToJson : ToJson scope_metrics := scope_metrics_to_json json_null.

Definition resource_metrics_to_json (j : J) (value : resource_metrics) : outcome J :=
  assign [("resource", json_of (rm_resource value)); ("scopeMetrics", json_of (rm_scope_metrics value));
          ("schemaUrl", json_of (rm_schema_url value))] j.
#[local] Instance resource_metrics_ToJson : ToJson resource_metrics := resource_metrics_to_json json_null.

Definition trace_request_to_json (j : J) (value : export_trace_service_request) : outcome J :=
  assign [("resourceSpans", json_of (req_resource_spans value))] j.

Definition metrics_request_to_json (j : J) (value : export_metrics_service_request) : outcome J :=
  assign [("resourceMetrics", json_of (req_resource_metrics value))] j.

(** ** Decoders of the responses *)

Definition trace_partial_from_json (j : J) : outcome partial_success :=
  let* n := json_value_int "rejectedSpans" 0 j in
  let* m := json_value_string "errorMessage" [] j in
  Ret {| rejected := n; error_message := m |}.

Definition metrics_partial_from_json (j : J) : outcome partial_success :=
  let* n := json_value_int "rejectedDataPoints" 0 j in
  let* m := json_value_string "errorMessage" [] j in
  Ret {| rejected := n; error_message := m |}.

(** The argument and the result are the member [partial_success] before and
    after: the trace response resets it, the metrics response leaves it. *)
Definition trace_response_from_json (j : J) (value : option partial_success) : outcome (option partial_success) :=
  match json_find "partialSuccess" j with
  | Some x => let* v := trace_partial_from_json x in Ret (Some v)
  | None => Ret None
  end.

Definition metrics_response_from_json (j : J) (value : option partial_success) : outcome (option partial_success) :=
  match json_find "partialSuccess" j with
  | Some x => let* v := metrics_partial_from_json x in Ret (Some v)
  | None => Ret value
  end.

(** ** Objects *)

Context `{!JsonLaws J}.

(** The last assignment to a key. *)
Fixpoint field (k : string) (fs : list (string * outcome J)) : option (outcome J) :=
  match fs with
  | [] => None
  | (k', m) :: fs => match field k fs with Some m' => Some m' | None => if String.eqb k k' then Some m else None end
  end.

Lemma assign_find k fs j0 j :
  j0 = json_null \/ is_object j0 -> assign fs j0 = Ret j ->
  match field k fs with
  | Some m => exists x, m = Ret x /\ json_find k j = Some x
  | None => json_find k j = json_find k j0
  end.
Proof.
  revert j0. induction fs as [|[k' m] fs IH]; cbn [assign field]; intros j0 Hj0 E; [congruence|].
  apply bind_Ret_inv in E as (x & -> & E). destruct (set_spec k' x j0 Hj0) as (j1 & Hs & Ho & Hx & Hk).
  rewrite Hs in E. cbn [obind] in E. specialize (IH j1 (or_intror Ho) E). destruct (field k fs) as [m'|]; [done|].
  destruct (String.eqb_spec k k') as [->|Hne]; [|by rewrite IH, Hk]. exists x. by rewrite IH.
Qed.

Lemma assign_total fs j0 : j0 = json_null \/ is_object j0 -> Forall (fun f => returns f.2) fs -> returns (assign fs j0).
Proof.
  intros Hj0 Hfs. revert j0 Hj0. induction Hfs as [|[k m] fs [x Hx] _ IH]; cbn [assign]; intros j0 Hj0; [by eexists|].
  cbn in Hx. subst m. cbn [obind]. destruct (set_spec k x j0 Hj0) as (j1 & -> & Ho & _). cbn [obind]. auto.
Qed.

(** Objects that are equal have equal fields. *)
Lemma assign_same k fs gs j :
  assign fs json_null = Ret j -> assign gs json_null = Ret j ->
  match field k fs, field k gs with
  | Some m, Some n => exists x, m = Ret x /\ n = Ret x
  | None, None => True
  | _, _ => False
  end.
Proof.
  intros E1 E2. pose proof (assign_find k _ _ _ (or_introl eq_refl) E1) as F1.
  pose proof (assign_find k _ _ _ (or_introl eq_refl) E2) as F2. rewrite !null_find in F1, F2.
  destruct (field k fs), (field k gs); try done.
  - destruct F1 as (x & -> & Hx), F2 as (y & -> & Hy). exists x. split; congruence.
  - destruct F1 as (x & _ & Hx). congruence.
  - destruct F2 as (x & _ & Hx). congruence.
Qed.

(** ** What an encoding keeps

    Every value is encoded, and values with equal JSON are equal in what
    [kept] says. *)
Class Encodes (A : Type) `{ToJson A} (kept : A -> A) := {
  encodes_total a : returns (json_of a);
  encodes_inj a b j : json_of a = Ret j -> json_of b = Ret j -> kept a = kept b;
}.

Lemma encodes_eq {A} `{ToJson A} `{!Encodes A id} a b j : json_of a = Ret j -> json_of b = Ret j -> a = b.
Proof. apply (encodes_inj (kept := id)). Qed.

#[local] Instance string_Encodes : Encodes (list byte) id.
Proof. split; [by eexists|]. intros a b j [= <-] [= E%json_string_inj]. by symmetry. Qed.
#[local] Instance bool_Encodes : Encodes bool id.
Proof. split; [by eexists|]. intros a b j [= <-] [= E%json_bool_inj]. by symmetry. Qed.
#[local] Instance int_Encodes : Encodes Z id.
Proof. split; [by eexists|]. intros a b j [= <-] [= E%json_int_inj]. by symmetry. Qed.
#[local] Instance double_Encodes : Encodes double id.
Proof. split; [by eexists|]. intros a b j [= <-] [= E%json_double_inj]. by symmetry. Qed.

Lemma each_total {A B} (f : A -> outcome B) l : Forall (fun x => returns (f x)) l -> returns (each f l).
Proof.
  induction 1 as [|x l [y Hy] _ [ys IH]]; [by eexists|]. cbn [each]. rewrite Hy. cbn [obind]. fold (each f). rewrite IH. by eexists.
Qed.

Lemma each_inj {A B} (f : A -> outcome B) (kept : A -> A) l l' ys :
  Forall (fun x => forall x' y, f x = Ret y -> f x' = Ret y -> kept x = kept x') l ->
  each f l = Ret ys -> each f l' = Ret ys -> map kept l = map kept l'.
Proof.
  intros Hl. revert l' ys. induction Hl as [|x l Hx _ IH]; intros [|x' l'] ys; cbn [each]; fold (each f); intros E1 E2.
  - done.
  - injection E1 as <-. apply bind_Ret_inv in E2 as (y & _ & E2). by apply bind_Ret_inv in E2 as (? & _ & ?).
  - injection E2 as <-. apply bind_Ret_inv in E1 as (y & _ & E1). by apply bind_Ret_inv in E1 as (? & _ & ?).
  - apply bind_Ret_inv in E1 as (y & Hy & E1). apply bind_Ret_inv in E1 as (zs & Hzs & E1). injection E1 as <-.
    apply bind_Ret_inv in E2 as (y' & Hy' & E2). apply bind_Ret_inv in E2 as (zs' & Hzs' & E2). injection E2 as -> ->.
    cbn [map]. f_equal; [by eapply Hx|by eapply IH].
Qed.

#[local] Instance vector_Encodes A `{ToJson A} (kept : A -> A) : Encodes A kept -> Encodes (list A) (map kept).
Proof.
  intros He. split.
  - intros l. unfold json_of, vector_ToJson. destruct (each_total json_of l) as [ys ->]; [|by eexists].
    apply Forall_true. intros x. apply encodes_total.
  - intros l l' j. unfold json_of, vector_ToJson. intros E1 E2. apply bind_Ret_inv in E1 as (ys & H1 & E1).
    apply bind_Ret_inv in E2 as (zs & H2 & E2). injection E1 as <-. injection E2 as E2%json_array_inj. subst zs.
    eapply each_inj; [|exact H1|exact H2]. apply Forall_true. intros x x' y. apply encodes_inj.
Qed.

#[local] Instance vector_Encodes_id A `{ToJson A} : Encodes A id -> Encodes (list A) id.
Proof.
  intros He. destruct (vector_Encodes A id He) as [Ht Hi]. split; [done|].
  intros a b j E1 E2. specialize (Hi a b j E1 E2). by rewrite !map_id in Hi.
Qed.

Lemma hex_json_total id : returns (hex_json id).
Proof. unfold hex_json. rewrite hex_encode_spec. by eexists. Qed.

Lemma hex_json_inj a b j : hex_json a = Ret j -> hex_json b = Ret j -> a = b.
Proof.
  unfold hex_json. rewrite !hex_encode_spec. intros [= <-] [= E%json_string_inj].
  rewrite <- (hex_bytes_chars a), <- (hex_bytes_chars b). by rewrite E.
Qed.

Lemma standard_encoding : exists e cache',
  Base64.make_encoding decoders_cache Base64.standard_alphabet "="%byte = Ret (e, cache')
  /\ Base64.encoder e = Base64.standard_alphabet /\ Base64.padchar e = "="%byte.
Proof.
  unfold Base64.make_encoding, Base64.build_decoder, Base64.fill_cache, Base64.probe_cache.
  destruct (decoders_cache !! Base64.standard_alphabet) as [m|]; [by repeat eexists|].
  destruct (Base64.decoder_of Base64.standard_alphabet) as [m| | | |] eqn:E; [by repeat eexists|by vm_compute in E..].
Qed.

Lemma bytes_json_total b : returns (bytes_json b).
Proof.
  unfold bytes_json. destruct standard_encoding as (e & c & -> & He & _). cbn [obind].
  rewrite Base64.base64_encode_spec by (by rewrite He). by eexists.
Qed.

Lemma bytes_json_inj a b j : bytes_json a = Ret j -> bytes_json b = Ret j -> a = b.
Proof.
  unfold bytes_json. destruct standard_encoding as (e & c & -> & He & Hp). cbn [obind].
  rewrite !Base64.base64_encode_spec by (by rewrite He). intros [= <-] [= E%json_string_inj]. symmetry in E. revert E.
  apply Base64.b64_inj; rewrite ?He, ?Hp; try done.
  - apply (bool_decide_unpack _). by vm_compute.
  - unfold Base64.pads. by rewrite Hp.
  - apply (bool_decide_unpack _). by vm_compute.
Qed.

(** *** [any_value]: an object with one member, named after the alternative *)

Definition values_json (xs : outcome (list J)) : outcome J :=
  let* xs := xs in assign [("values", Ret (json_array xs))] json_null.

Definition any_field (v : any_value) : string * outcome J :=
  match v with
  | string_value s => ("stringValue", json_of s)
  | bool_value b => ("boolValue", json_of b)
  | int_value i => ("intValue", json_of i)
  | double_value d => ("doubleValue", json_of d)
  | array_value l => ("arrayValue", values_json (each (any_value_to_json json_null) l))
  | kvlist_value l => ("kvlistValue", values_json (each (key_value_with (any_value_to_json json_null) json_null) l))
  | bytes_value b => ("bytesValue", bytes_json b)
  end.

Lemma set_assign k m : assign [(k, m)] json_null = let* x := m in json_set k x json_null.
Proof. cbn [assign]. destruct m as [x| | | |]; try done. cbn [obind]. by destruct (json_set k x json_null). Qed.

Lemma any_value_fields v : any_value_to_json json_null v = assign [any_field v] json_null.
Proof.
  assert (forall k xs, (let* xs := xs in set_values k xs json_null) = assign [(k, values_json xs)] json_null) as Hv.
  { intros k xs. rewrite set_assign. unfold set_values, values_json. rewrite null_find. cbn [default].
    destruct xs as [xs| | | |]; try done. cbn [obind assign]. by destruct (json_set "values" _ json_null). }
  destruct v; unfold any_field; try (by rewrite set_assign); cbn [any_value_to_json]; apply Hv.
Qed.

Lemma values_json_inj xs ys j : values_json xs = Ret j -> values_json ys = Ret j -> exists l, xs = Ret l /\ ys = Ret l.
Proof.
  unfold values_json. intros E1 E2. apply bind_Ret_inv in E1 as (l & -> & E1). apply bind_Ret_inv in E2 as (l' & -> & E2).
  destruct (assign_same "values" _ _ _ E1 E2) as (x & F1 & F2). exists l. split; [done|].
  injection F1 as <-. by injection F2 as ->%json_array_inj.
Qed.

Lemma key_value_total (f : any_value -> outcome J) kv : returns (f kv.2) -> returns (key_value_with f json_null kv).
Proof. intros Hf. apply assign_total; [by left|]. repeat constructor; [by eexists|done]. Qed.

Lemma key_value_inj (f : any_value -> outcome J) kv kv' j :
  (forall v y, f kv.2 = Ret y -> f v = Ret y -> kv.2 = v) ->
  key_value_with f json_null kv = Ret j -> key_value_with f json_null kv' = Ret j -> kv = kv'.
Proof.
  intros Hf E1 E2. destruct (assign_same "key" _ _ _ E1 E2) as (x & F1 & F2).
  destruct (assign_same "value" _ _ _ E1 E2) as (y & G1 & G2). destruct kv, kv'. f_equal; [|by eapply Hf].
  apply (encodes_eq _ _ _ F1 F2).
Qed.

Lemma any_value_total v : returns (any_value_to_json json_null v).
Proof.
  assert (forall xs, returns xs -> returns (values_json xs)) as Hv.
  { intros xs [l ->]. unfold values_json. cbn [obind]. apply assign_total; [by left|]. repeat constructor. by eexists. }
  induction v as [s|b|i|d|b|l IH|l IH] using any_value_nested_ind; rewrite any_value_fields;
    (apply assign_total; [by left|]); repeat constructor; cbn [any_field snd]; try (by eexists).
  - apply bytes_json_total.
  - by apply Hv, each_total.
  - apply Hv, each_total. eapply Forall_impl; [exact IH|]. intros kv. apply key_value_total.
Qed.

Lemma any_value_inj v v' j : any_value_to_json json_null v = Ret j -> any_value_to_json json_null v' = Ret j -> v = v'.
Proof.
  revert v' j. induction v as [s|b|i|d|b|l IH|l IH] using any_value_nested_ind; intros v' j; rewrite !any_value_fields; intros E1 E2;
    match type of E1 with assign [?f] _ = _ => pose proof (assign_same (fst f) _ _ _ E1 E2) as F end;
    cbn in F; destruct v' as [s'|b'|i'|d'|l'|l'|b']; cbn in F; try done; destruct F as (x & F1 & F2); f_equal.
  - apply (encodes_eq _ _ _ F1 F2).
  - apply (encodes_eq _ _ _ F1 F2).
  - apply (encodes_eq _ _ _ F1 F2).
  - apply (encodes_eq _ _ _ F1 F2).
  - by eapply bytes_json_inj.
  - destruct (values_json_inj _ _ _ F1 F2) as (ys & H1 & H2). pose proof (each_inj _ id _ _ _ IH H1 H2) as Hm. by rewrite !map_id in Hm.
  - destruct (values_json_inj _ _ _ F1 F2) as (ys & H1 & H2).
    enough (map id l = map id l') as Hm by (by rewrite !map_id in Hm). eapply each_inj; [|exact H1|exact H2].
    eapply Forall_impl; [exact IH|]. intros kv Hkv kv' y. by apply key_value_inj.
Qed.

#[local] Instance any_value_Encodes : Encodes any_value id.
Proof. split; [apply any_value_total|apply any_value_inj]. Qed.

#[local] Instance key_value_Encodes : Encodes key_value id.
Proof. split; [intros kv; apply key_value_total, any_value_total|]. intros kv kv' j. apply key_value_inj. intros v y. apply any_value_inj. Qed.

(** *** The records *)

Lemma number_field_total n : returns (number_field n).2.
Proof. destruct n; apply encodes_total. Qed.

#[local] Ltac is_total :=
  intros v; (apply assign_total; [by left|]);
  repeat match goal with
  | |- context [match ?x with _ => _ end] => destruct x
  | |- context [if ?x then _ else _] => destruct x
  end; cbn [app present];
  repeat (apply Forall_nil_2 || apply Forall_cons_2); cbn [snd];
  (apply hex_json_total || apply number_field_total || apply encodes_total).

(** The values of the field [k] of two equal objects. *)
#[local] Ltac same k E1 E2 :=
  let F := fresh "F" in let F1 := fresh "F1" in let F2 := fresh "F2" in
  pose proof (assign_same k _ _ _ E1 E2) as F;
  cbn [field fst snd app String.eqb Ascii.eqb Bool.eqb] in F; destruct F as (? & F1 & F2);
  first [apply hex_json_inj with (1 := F1) in F2 | apply encodes_eq with (1 := F1) in F2 | apply (encodes_inj _ _ _ F1) in F2];
  clear F1.

Lemma status_code_inj a b : status_code_code a = status_code_code b -> a = b.
Proof. by destruct a, b. Qed.
Lemma span_kind_inj a b : span_kind_code a = span_kind_code b -> a = b.
Proof. by destruct a, b. Qed.
Lemma temporality_inj a b : temporality_code a = temporality_code b -> a = b.
Proof. by destruct a, b. Qed.

#[local] Ltac all_same :=
  repeat match goal with E : _ = Ret _ |- _ => clear E end; cbn in *;
  repeat match goal with
  | F : status_code_code _ = status_code_code _ |- _ => apply status_code_inj in F
  | F : span_kind_code _ = span_kind_code _ |- _ => apply span_kind_inj in F
  | F : temporality_code _ = temporality_code _ |- _ => apply temporality_inj in F
  end; subst; unfold id; f_equal; (reflexivity || assumption).

#[local] Instance resource_Encodes : Encodes resource id.
Proof.
  split; [is_total|]. intros [] [] j E1 E2. same "attributes" E1 E2. same "droppedAttributesCount" E1 E2. all_same.
Qed.

#[local] Instance event_Encodes : Encodes event id.
Proof.
  split; [is_total|]. intros [] [] j E1 E2. same "timeUnixNano" E1 E2. same "name" E1 E2.
  same "attributes" E1 E2. same "droppedAttributesCount" E1 E2. all_same.
Qed.

#[local] Instance link_Encodes : Encodes link id.
Proof.
  split; [is_total|]. intros [] [] j E1 E2. same "traceId" E1 E2. same "spanId" E1 E2. same "traceState" E1 E2.
  same "attributes" E1 E2. same "droppedAttributesCount" E1 E2. same "flags" E1 E2. all_same.
Qed.

#[local] Instance status_Encodes : Encodes status id.
Proof. split; [is_total|]. intros [] [] j E1 E2. same "message" E1 E2. same "code" E1 E2. all_same. Qed.

#[local] Instance scope_Encodes : Encodes instrumentation_scope id.
Proof.
  split; [is_total|]. intros [] [] j E1 E2. same "name" E1 E2. same "version" E1 E2.
  same "attributes" E1 E2. same "droppedAttributesCount" E1 E2. all_same.
Qed.

(** The fields that are left out when empty, absent or zero. *)
Lemma span_optional a b j :
  span_to_json json_null a = Ret j -> span_to_json json_null b = Ret j ->
  trace_state a = trace_state b /\ parent_span_id a = parent_span_id b /\ flags a = flags b.
Proof.
  unfold span_to_json. intros E1 E2. pose proof (assign_same "traceState" _ _ _ E1 E2) as F.
  pose proof (assign_same "parentSpanId" _ _ _ E1 E2) as G. pose proof (assign_same "flags" _ _ _ E1 E2) as K. clear E1 E2.
  destruct (trace_state a), (trace_state b), (parent_span_id a), (parent_span_id b), (Z.eqb_spec (flags a) flags_zero),
    (Z.eqb_spec (flags b) flags_zero); cbn [field fst snd app String.eqb Ascii.eqb Bool.eqb] in *; try done.
  all: repeat match goal with K : exists x, _ = Ret x /\ _ = Ret x |- _ =>
         let L := fresh "L" in destruct K as (? & K & L);
         first [apply hex_json_inj with (1 := K) in L | apply encodes_eq with (1 := K) in L]; clear K end.
  all: split_and!; congruence.
Qed.

(** All that the JSON of a span holds: the version is not part of it. *)
Definition sent_span (s : span) : span :=
  {| version := x00; trace_id := trace_id s; parent_span_id := parent_span_id s; span_id := span_id s; trace_state := trace_state s;
     flags := flags s; span_name := span_name s; kind := kind s; start_time := start_time s; end_time := end_time s;
     attributes := attributes s; dropped_attributes_count := dropped_attributes_count s; events := events s;
     dropped_events_count := dropped_events_count s; links := links s; dropped_links_count := dropped_links_count s;
     span_status := span_status s |}.

#[local] Instance span_Encodes : Encodes span sent_span.
Proof.
  split; [is_total|]. intros a b j E1 E2. destruct (span_optional a b j E1 E2) as (O1 & O2 & O3).
  destruct a as [? ? pa ? ta fa], b as [? ? pb ? tb fb]. unfold sent_span. cbn [trace_state parent_span_id flags] in *. subst pb tb fb.
  unfold json_of, span_ToJson, span_to_json in E1, E2. cbn [trace_state parent_span_id flags] in *.
  destruct ta, pa, (fa =? flags_zero)%Z; cbn [app] in E1, E2.
  all: same "traceId" E1 E2; same "spanId" E1 E2; same "name" E1 E2; same "kind" E1 E2; same "startTimeUnixNano" E1 E2;
    same "endTimeUnixNano" E1 E2; same "attributes" E1 E2; same "droppedAttributesCount" E1 E2; same "events" E1 E2;
    same "droppedEventsCount" E1 E2; same "links" E1 E2; same "droppedLinksCount" E1 E2; same "status" E1 E2.
  all: all_same.
Qed.

Definition sent_scope_spans (s : scope_spans) : scope_spans :=
  {| ss_scope := ss_scope s; ss_spans := map sent_span (ss_spans s); ss_schema_url := ss_schema_url s |}.

#[local] Instance scope_spans_Encodes : Encodes scope_spans sent_scope_spans.
Proof.
  split; [is_total|]. intros a b j E1 E2. same "scope" E1 E2. same "spans" E1 E2. same "schemaUrl" E1 E2.
  unfold sent_scope_spans. all_same.
Qed.

Definition sent_resource_spans (s : resource_spans) : resource_spans :=
  {| rs_resource := rs_resource s; rs_scope_spans := map sent_scope_spans (rs_scope_spans s); rs_schema_url := rs_schema_url s |}.

#[local] Instance resource_spans_Encodes : Encodes resource_spans sent_resource_spans.
Proof.
  split; [is_total|]. intros a b j E1 E2. same "resource" E1 E2. same "scopeSpans" E1 E2. same "schemaUrl" E1 E2.
  unfold sent_resource_spans. all_same.
Qed.

(** *** Metrics *)

#[local] Ltac number_cases E1 E2 :=
  match type of E1 with context [number_field ?a] =>
  match type of E2 with context [number_field ?b] =>
    destruct a, b; cbn [number_field] in E1, E2;
    try (exfalso; exact (assign_same "asDouble" _ _ _ E1 E2));
    [same "asDouble" E1 E2|same "asInt" E1 E2]
  end end.

#[local] Instance exemplar_Encodes : Encodes exemplar id.
Proof.
  split; [is_total|]. intros [] [] j. unfold json_of, exemplar_ToJson, exemplar_to_json.
  cbn [exemplar_value]. intros E1 E2. number_cases E1 E2.
  all: same "filteredAttributes" E1 E2; same "timeUnixNano" E1 E2; same "spanId" E1 E2; same "traceId" E1 E2; all_same.
Qed.

#[local] Instance number_data_point_Encodes : Encodes number_data_point id.
Proof.
  split; [is_total|]. intros [] [] j. unfold json_of, number_data_point_ToJson, number_data_point_to_json.
  cbn [ndp_value]. intros E1 E2. number_cases E1 E2.
  all: same "attributes" E1 E2; same "startTimeUnixNano" E1 E2; same "timeUnixNano" E1 E2; same "exemplars" E1 E2;
    same "flags" E1 E2; all_same.
Qed.

Lemma present_same {A} `{ToJson A} `{!Encodes A id} k (a b : option A) fs gs j :
  assign fs json_null = Ret j -> assign gs json_null = Ret j ->
  field k fs = option_map json_of a -> field k gs = option_map json_of b -> a = b.
Proof.
  intros E1 E2 F1 F2. pose proof (assign_same k _ _ _ E1 E2) as F. rewrite F1, F2 in F.
  destruct a, b; try done. destruct F as (x & G1 & G2). f_equal. apply (encodes_eq _ _ _ G1 G2).
Qed.

#[local] Ltac statistic k E1 E2 :=
  match goal with |- ?x = ?y => refine (present_same k x y _ _ _ E1 E2 _ _) end; clear E1 E2;
  repeat match goal with |- context [present _ ?x] => destruct x; cbn [present] end;
  cbn [field fst snd app present option_map String.eqb Ascii.eqb Bool.eqb]; reflexivity.

Lemma histogram_point_optional a b j :
  histogram_point_to_json json_null a = Ret j -> histogram_point_to_json json_null b = Ret j ->
  hp_sum a = hp_sum b /\ hp_min a = hp_min b /\ hp_max a = hp_max b.
Proof.
  unfold histogram_point_to_json. intros E1 E2.
  split_and!; [statistic "sum" E1 E2|statistic "min" E1 E2|statistic "max" E1 E2].
Qed.

Lemma exp_point_optional a b j :
  exp_point_to_json json_null a = Ret j -> exp_point_to_json json_null b = Ret j ->
  ep_sum a = ep_sum b /\ ep_min a = ep_min b /\ ep_max a = ep_max b.
Proof.
  unfold exp_point_to_json. intros E1 E2.
  split_and!; [statistic "sum" E1 E2|statistic "min" E1 E2|statistic "max" E1 E2].
Qed.

#[local] Instance histogram_point_Encodes : Encodes histogram_point id.
Proof.
  split.
  { intros v. unfold json_of, histogram_point_ToJson, histogram_point_to_json, present.
    revert v. is_total. }
  intros a b j E1 E2. destruct (histogram_point_optional a b j E1 E2) as (O1 & O2 & O3).
  destruct a as [? ? ? ? sa ? ? ? ? ma xa], b as [? ? ? ? sb ? ? ? ? mb xb]. cbn [hp_sum hp_min hp_max] in *. subst sb mb xb.
  unfold json_of, histogram_point_ToJson, histogram_point_to_json in E1, E2. cbn [hp_sum hp_min hp_max] in *.
  destruct sa, ma, xa; cbn [app present] in E1, E2.
  all: same "attributes" E1 E2; same "startTimeUnixNano" E1 E2; same "timeUnixNano" E1 E2; same "count" E1 E2;
    same "bucketCounts" E1 E2; same "explicitBounds" E1 E2; same "exemplars" E1 E2; same "flags" E1 E2; all_same.
Qed.

#[local] Instance exp_buckets_Encodes : Encodes exp_buckets id.
Proof. split; [is_total|]. intros [] [] j E1 E2. same "offset" E1 E2. same "bucketCounts" E1 E2. all_same. Qed.

(** The scale is not encoded. *)
Definition sent_exp_point (p : exp_point) : exp_point :=
  {| ep_attributes := ep_attributes p; ep_start_time := ep_start_time p; ep_time := ep_time p; ep_count := ep_count p;
     ep_sum := ep_sum p; scale := 0; zero_count := zero_count p; positive := positive p; negative := negative p;
     ep_flags := ep_flags p; ep_exemplars := ep_exemplars p; ep_min := ep_min p; ep_max := ep_max p;
     zero_threshold := zero_threshold p |}.

#[local] Instance exp_point_Encodes : Encodes exp_point sent_exp_point.
Proof.
  split.
  { intros v. unfold json_of, exp_point_ToJson, exp_point_to_json, present. revert v. is_total. }
  intros a b j E1 E2. destruct (exp_point_optional a b j E1 E2) as (O1 & O2 & O3). unfold sent_exp_point.
  destruct a as [? ? ? ? sa ? ? ? ? ? ? ma xa], b as [? ? ? ? sb ? ? ? ? ? ? mb xb]. cbn [ep_sum ep_min ep_max] in *. subst sb mb xb.
  unfold json_of, exp_point_ToJson, exp_point_to_json in E1, E2. cbn [ep_sum ep_min ep_max] in *.
  destruct sa, ma, xa; cbn [app present] in E1, E2.
  all: same "attributes" E1 E2; same "startTimeUnixNano" E1 E2; same "timeUnixNano" E1 E2; same "count" E1 E2;
    same "zeroCount" E1 E2; same "positive" E1 E2; same "negative" E1 E2; same "flags" E1 E2; same "exemplars" E1 E2;
    same "zeroThreshold" E1 E2; all_same.
Qed.

#[local] Instance value_at_quantile_Encodes : Encodes value_at_quantile id.
Proof. split; [is_total|]. intros [] [] j E1 E2. same "quantile" E1 E2. same "value" E1 E2. all_same. Qed.

#[local] Instance summary_point_Encodes : Encodes summary_point id.
Proof.
  split; [is_total|]. intros [] [] j E1 E2. same "attributes" E1 E2. same "startTimeUnixNano" E1 E2. same "timeUnixNano" E1 E2.
  same "count" E1 E2. same "sum" E1 E2. same "quantileValues" E1 E2. same "flags" E1 E2. all_same.
Qed.

(** The alternatives of [metric::data_t], as [json_of] of a type of their own. *)
#[local] Instance sum_ToJson : ToJson sum_data := sum_to_json json_null.
#[local] Instance sum_Encodes : Encodes sum_data id.
Proof.
  split; [is_total|]. intros [] [] j E1 E2. same "dataPoints" E1 E2. same "aggregationTemporality" E1 E2.
  same "isMonotonic" E1 E2. all_same.
Qed.

#[local] Instance histogram_ToJson : ToJson histogram := histogram_to_json json_null.
#[local] Instance histogram_Encodes : Encodes histogram id.
Proof. split; [is_total|]. intros [] [] j E1 E2. same "dataPoints" E1 E2. same "aggregationTemporality" E1 E2. all_same. Qed.

Definition sent_exponential (h : exponential_histogram) : exponential_histogram :=
  {| exp_points := map sent_exp_point (exp_points h); exp_temporality := exp_temporality h |}.

#[local] Instance exponential_ToJson : ToJson exponential_histogram := exponential_histogram_to_json json_null.
#[local] Instance exponential_Encodes : Encodes exponential_histogram sent_exponential.
Proof.
  split; [is_total|]. intros a b j E1 E2. same "dataPoints" E1 E2. same "aggregationTemporality" E1 E2.
  unfold sent_exponential. all_same.
Qed.

Definition sent_data (d : metric_data) : metric_data :=
  match d with data_exponential h => data_exponential (sent_exponential h) | _ => d end.

Lemma data_points_total {A} `{ToJson A} (kept : A -> A) `{!Encodes A kept} (l : list A) :
  returns (assign [("dataPoints", json_of l)] json_null).
Proof. apply assign_total; [by left|]. repeat (apply Forall_nil_2 || apply Forall_cons_2). apply encodes_total. Qed.

Lemma data_field_total d : returns (data_field d).2.
Proof.
  destruct d as [l|x|x|x|l]; cbn [data_field snd].
  - apply (data_points_total id).
  - exact (encodes_total (A := sum_data) x).
  - exact (encodes_total (A := histogram) x).
  - exact (encodes_total (A := exponential_histogram) x).
  - apply (data_points_total id).
Qed.

Lemma data_points_inj {A} `{ToJson A} `{!Encodes A id} (l l' : list A) j :
  assign [("dataPoints", json_of l)] json_null = Ret j -> assign [("dataPoints", json_of l')] json_null = Ret j -> l = l'.
Proof. intros E1 E2. destruct (assign_same "dataPoints" _ _ _ E1 E2) as (x & F1 & F2). apply (encodes_eq _ _ _ F1 F2). Qed.

Lemma metric_data_inj a b j :
  metric_to_json json_null a = Ret j -> metric_to_json json_null b = Ret j -> sent_data (data a) = sent_data (data b).
Proof.
  unfold metric_to_json. intros E1 E2.
  pose proof (assign_same (data_field (data a)).1 _ _ _ E1 E2) as F.
  destruct (data a), (data b); cbn [field fst snd app data_field String.eqb Ascii.eqb Bool.eqb] in F; try done;
    destruct F as (x & F1 & F2); cbn [sent_data]; f_equal.
  - apply (data_points_inj _ _ _ F1 F2).
  - exact (encodes_eq (A := sum_data) _ _ _ F1 F2).
  - exact (encodes_eq (A := histogram) _ _ _ F1 F2).
  - exact (encodes_inj (A := exponential_histogram) _ _ _ F1 F2).
  - apply (data_points_inj _ _ _ F1 F2).
Qed.

Definition sent_metric (m : metric) : metric :=
  {| metric_name := metric_name m; description := description m; unit_ := unit_ m; data := sent_data (data m); metadata := metadata m |}.

#[local] Instance metric_Encodes : Encodes metric sent_metric.
Proof.
  split.
  { intros v. apply assign_total; [by left|]. repeat (apply Forall_nil_2 || apply Forall_cons_2); (apply data_field_total || apply encodes_total). }
  intros a b j E1 E2. pose proof (metric_data_inj a b j E1 E2) as D.
  unfold json_of, metric_ToJson, metric_to_json in E1, E2. unfold sent_metric.
  assert (forall k d, k ∉ ["gauge"; "sum"; "histogram"; "exponentialHistogram"; "summary"] -> String.eqb k (data_field d).1 = false) as Hk.
  { intros k d Hin. apply String.eqb_neq. intros ->. apply Hin. destruct d; set_solver. }
  destruct (data_field (data a)) as [ka ma] eqn:Ka, (data_field (data b)) as [kb mb] eqn:Kb.
  pose proof (fun k => Hk k (data a)) as Ha. rewrite Ka in Ha. pose proof (fun k => Hk k (data b)) as Hb. rewrite Kb in Hb.
  cbn [fst] in Ha, Hb. clear Hk Ka Kb.
  pose proof (assign_same "name" _ _ _ E1 E2) as F1. pose proof (assign_same "description" _ _ _ E1 E2) as F2.
  pose proof (assign_same "unit" _ _ _ E1 E2) as F3. pose proof (assign_same "metadata" _ _ _ E1 E2) as F4. clear E1 E2.
  cbn [field] in F1, F2, F3, F4. rewrite Ha, Hb in F1, F2, F3 by set_solver.
  cbn [String.eqb Ascii.eqb Bool.eqb] in F1, F2, F3, F4.
  destruct F1 as (? & ? & F1), F2 as (? & ? & F2), F3 as (? & ? & F3), F4 as (? & ? & F4).
  f_equal; [..|exact D|]; by eapply encodes_eq.
Qed.

Definition sent_scope_metrics (m : scope_metrics) : scope_metrics :=
  {| sm_scope := sm_scope m; sm_metrics := map sent_metric (sm_metrics m); sm_schema_url := sm_schema_url m |}.

#[local] Instance scope_metrics_Encodes : Encodes scope_metrics sent_scope_metrics.
Proof.
  split; [is_total|]. intros a b j E1 E2. same "scope" E1 E2. same "metrics" E1 E2. same "schemaUrl" E1 E2.
  unfold sent_scope_metrics. all_same.
Qed.

Definition sent_resource_metrics (m : resource_metrics) : resource_metrics :=
  {| rm_resource := rm_resource m; rm_scope_metrics := map sent_scope_metrics (rm_scope_metrics m); rm_schema_url := rm_schema_url m |}.

#[local] Instance resource_metrics_Encodes : Encodes resource_metrics sent_resource_metrics.
Proof.
  split; [is_total|]. intros a b j E1 E2. same "resource" E1 E2. same "scopeMetrics" E1 E2. same "schemaUrl" E1 E2.
  unfold sent_resource_metrics. all_same.
Qed.

(** *** Nothing else is encoded *)

Class Forgets (A : Type) `{ToJson A} (kept : A -> A) := json_of_kept a : json_of (kept a) = json_of a.

#[local] Instance vector_Forgets A `{ToJson A} (kept : A -> A) : Forgets A kept -> Forgets (list A) (map kept).
Proof.
  intros Hk l. unfold json_of, vector_ToJson. f_equal. induction l as [|x l IH]; [done|].
  cbn [map each]. fold (each (A := A) (B := J) json_of). by rewrite IH, json_of_kept.
Qed.

#[local] Instance span_Forgets : Forgets span sent_span.
Proof. done. Qed.
#[local] Instance scope_spans_Forgets : Forgets scope_spans sent_scope_spans.
Proof.
  intros s. unfold json_of, scope_spans_ToJson, scope_spans_to_json, sent_scope_spans.
  cbn [ss_scope ss_spans ss_schema_url]. by rewrite (json_of_kept (ss_spans s)).
Qed.
#[local] Instance resource_spans_Forgets : Forgets resource_spans sent_resource_spans.
Proof.
  intros s. unfold json_of, resource_spans_ToJson, resource_spans_to_json, sent_resource_spans.
  cbn [rs_resource rs_scope_spans rs_schema_url]. by rewrite (json_of_kept (rs_scope_spans s)).
Qed.
#[local] Instance exp_point_Forgets : Forgets exp_point sent_exp_point.
Proof. done. Qed.
#[local] Instance metric_Forgets : Forgets metric sent_metric.
Proof.
  intros [n d u [l|x|x|x|l] m]; try done. unfold json_of, metric_ToJson, metric_to_json, sent_metric.
  cbn [metric_name description unit_ data metadata sent_data data_field]. unfold exponential_histogram_to_json, sent_exponential.
  cbn [exp_points exp_temporality]. by rewrite (json_of_kept (exp_points x)).
Qed.
#[local] Instance scope_metrics_Forgets : Forgets scope_metrics sent_scope_metrics.
Proof.
  intros s. unfold json_of, scope_metrics_ToJson, scope_metrics_to_json, sent_scope_metrics.
  cbn [sm_scope sm_metrics sm_schema_url]. by rewrite (json_of_kept (sm_metrics s)).
Qed.
#[local] Instance resource_metrics_Forgets : Forgets resource_metrics sent_resource_metrics.
Proof.
  intros s. unfold json_of, resource_metrics_ToJson, resource_metrics_to_json, sent_resource_metrics.
  cbn [rm_resource rm_scope_metrics rm_schema_url]. by rewrite (json_of_kept (rm_scope_metrics s)).
Qed.

(** An object with one member. *)
Lemma member_same {A} `{ToJson A} (kept : A -> A) `{!Encodes A kept} `{!Forgets A kept} k (a b : A) :
  returns (assign [(k, json_of a)] json_null)
  /\ (assign [(k, json_of a)] json_null = assign [(k, json_of b)] json_null <-> kept a = kept b).
Proof.
  destruct (encodes_total a) as [x Hx]. assert (returns (assign [(k, json_of a)] json_null)) as Hr.
  { apply assign_total; [by left|]. repeat (apply Forall_nil_2 || apply Forall_cons_2). by exists x. }
  split; [done|]. split.
  - intros E. destruct Hr as [j Hj]. rewrite Hj in E. symmetry in E.
    pose proof (assign_same k _ _ _ Hj E) as F. cbn [field] in F. rewrite String.eqb_refl in F. destruct F as (y & F1 & F2).
    apply (encodes_inj _ _ _ F1 F2).
  - intros E. by rewrite <- (json_of_kept a), <- (json_of_kept b), E.
Qed.

(** ** Properties *)

(** C31: every export request of traces and of metrics is encoded without an
    error, and two requests have the same JSON exactly if they agree in all
    but two fields: the version of each span and the scale of each point of an
    exponential histogram, which are not encoded.  So identifiers, times,
    attributes with their nested values, events, links, bucket counts and
    absent statistics can all be told from the JSON. *)
Theorem otel_export_faithful :
  (forall r r' : export_trace_service_request,
     returns (trace_request_to_json json_null r)
     /\ (trace_request_to_json json_null r = trace_request_to_json json_null r'
         <-> map sent_resource_spans (req_resource_spans r) = map sent_resource_spans (req_resource_spans r')))
  /\ (forall r r' : export_metrics_service_request,
     returns (metrics_request_to_json json_null r)
     /\ (metrics_request_to_json json_null r = metrics_request_to_json json_null r'
         <-> map sent_resource_metrics (req_resource_metrics r) = map sent_resource_metrics (req_resource_metrics r'))).
Proof. split; intros r r'; apply member_same; apply _. Qed.

(** a response without [partialSuccess] has no partial success (or, for
    metrics, leaves what was there); one with it gives the members, or zero
    and the empty text where they are absent; and the 64-bit count is read as
    an [int], so that it is always within 32 bits. *)
Lemma otel_responses (j x : J) (before : option partial_success) :
  (json_find "partialSuccess" j = None ->
     trace_response_from_json j before = Ret None /\ metrics_response_from_json j before = Ret before)
  /\ (json_find "partialSuccess" j = Some x -> is_object x ->
     forall n m,
       (json_find "errorMessage" x = Some (json_string m) \/ json_find "errorMessage" x = None /\ m = []) ->
       - 2 ^ 31 <= n < 2 ^ 31 ->
       ((json_find "rejectedSpans" x = Some (json_int n) \/ json_find "rejectedSpans" x = None /\ n = 0%Z) ->
          trace_response_from_json j before = Ret (Some {| rejected := n; error_message := m |}))
       /\ ((json_find "rejectedDataPoints" x = Some (json_int n) \/ json_find "rejectedDataPoints" x = None /\ n = 0%Z) ->
          metrics_response_from_json j before = Ret (Some {| rejected := n; error_message := m |})))
  /\ (forall p, trace_response_from_json j before = Ret (Some p) -> - 2 ^ 31 <= rejected p < 2 ^ 31).
Proof.
  unfold trace_response_from_json, metrics_response_from_json, trace_partial_from_json, metrics_partial_from_json.
  split_and!; [by intros ->| |].
  - intros -> Ho n m Hm Hn.
    assert (json_value_string "errorMessage" [] x = Ret m) as ->.
    { destruct Hm as [E|[E ->]]; [by apply value_string_found|by apply value_string_absent]. }
    assert (forall k, json_find k x = Some (json_int n) \/ json_find k x = None /\ n = 0%Z -> json_value_int k 0 x = Ret n) as Hk.
    { intros k [E|[E ->]]; [by apply value_int_found|by apply value_int_absent]. }
    split; intros E; by rewrite (Hk _ E).
  - intros p. destruct (json_find "partialSuccess" j) as [y|]; [|done]. intros E.
    apply bind_Ret_inv in E as (v & E & Ep). injection Ep as ->. apply bind_Ret_inv in E as (n & En & E).
    apply bind_Ret_inv in E as (m & _ & E). injection E as <-. cbn [rejected].
    by apply (value_int_range _ _ _ _ En).
Qed.

End Encoders.

(** ** A library that satisfies the laws *)

Inductive json :=
| jnull
| jstring (s : list byte)
| jbool (b : bool)
| jint (n : Z)
| jdouble (d : double)
| jarray (l : list json)
| jobject (members : list (string * json)).

Fixpoint member (k : string) (members : list (string * json)) : option json :=
  match members with
  | [] => None
  | (k', x) :: members => if String.eqb k k' then Some x else member k members
  end.

Definition find_member (k : string) (j : json) : option json :=
  match j with jobject members => member k members | _ => None end.

#[local] Instance sample_JsonOps : JsonOps json := {
  json_null := jnull;
  json_string := jstring;
  json_bool := jbool;
  json_int := jint;
  json_double := jdouble;
  json_array := jarray;
  json_set k x j :=
    match j with
    | jnull => Ret (jobject [(k, x)])
    | jobject members => Ret (jobject ((k, x) :: members))
    | _ => Throw json_type_error
    end;
  json_find := find_member;
  json_value_int k d j :=
    match j with
    | jobject members =>
        match member k members with
        | None => Ret d
        | Some (jint n) => Ret ((n + 2 ^ 31) mod 2 ^ 32 - 2 ^ 31)
        | Some _ => Throw json_type_error
        end
    | _ => Throw json_type_error
    end;
  json_value_string k d j :=
    match j with
    | jobject members =>
        match member k members with
        | None => Ret d
        | Some (jstring s) => Ret s
        | Some _ => Throw json_type_error
        end
    | _ => Throw json_type_error
    end;
}.

#[local] Instance sample_JsonLaws : JsonLaws json.
Proof.
  refine {| is_object j := match j with jobject _ => True | _ => False end |}; cbn.
  - done.
  - intros k x j Hj. destruct j as [| | | | | |members]; try (by destruct Hj); eexists; split_and!; try done; cbn.
    all: rewrite ?String.eqb_refl; try done; intros k' Hk; by apply String.eqb_neq in Hk as ->.
  - by intros ? ? [=].
  - by intros ? ? [=].
  - by intros ? ? [=].
  - by intros ? ? [=].
  - by intros ? ? [=].
  - intros k d [| | |i| | |members] n Ho; try done. cbn. intros -> Hn. f_equal. lia_div.
  - intros k d [| | | | | |members] Ho; try done. cbn. by intros ->.
  - intros k d [| | |i| | |members] n; try done. cbn.
    destruct (member k members) as [[| | |m| | |]|]; try done; intros [= <-] Hd; [lia_div|done].
  - intros k d [| | | | | |members] t Ho; try done. cbn. by intros ->.
  - intros k d [| | | | | |members] Ho; try done. cbn. by intros ->.
Defined.

Definition sample_span (v : byte) (f : span_flags) : span :=
  {| version := v; trace_id := replicate 16 x01; parent_span_id := None; span_id := replicate 8 x02; trace_state := []; flags := f;
     span_name := lit "get"; kind := client; start_time := 10; end_time := 20;
     attributes := [(lit "k", kvlist_value [(lit "a", array_value [int_value 1; bytes_value [x01; x02]])])];
     dropped_attributes_count := 0; events := []; dropped_events_count := 0; links := []; dropped_links_count := 0;
     span_status := {| message := []; code := code_ok |} |}.

Definition sample_request (v : byte) (f : span_flags) : export_trace_service_request :=
  {| req_resource_spans :=
       [{| rs_resource := {| resource_attributes := []; resource_dropped := 0 |};
           rs_scope_spans :=
             [{| ss_scope := {| scope_name := []; scope_version := []; scope_attributes := []; scope_dropped := 0 |};
                 ss_spans := [sample_span v f]; ss_schema_url := [] |}];
           rs_schema_url := [] |}] |}.

(** The flags can be told from the JSON, the version cannot. *)
Lemma otel_export_faithful_witness :
  trace_request_to_json (J := json) ∅ json_null (sample_request x00 1) <> trace_request_to_json (J := json) ∅ json_null (sample_request x00 0)
  /\ trace_request_to_json (J := json) ∅ json_null (sample_request x00 1) = trace_request_to_json (J := json) ∅ json_null (sample_request x05 1).
Proof.
  split.
  - intros E. destruct (otel_export_faithful (J := json) ∅) as [H _]. apply (H (sample_request x00 1) (sample_request x00 0)) in E. discriminate.
  - destruct (otel_export_faithful (J := json) ∅) as [H _]. apply (H (sample_request x00 1) (sample_request x05 1)). reflexivity.
Defined.

Lemma otel_responses_witness :
  trace_response_from_json (jobject [("partialSuccess", jobject [("rejectedSpans", jint 3); ("errorMessage", jstring (lit "full"))])]%string) None
  = Ret (Some {| rejected := 3; error_message := lit "full" |}).
Proof.
  apply (otel_responses (J := json) _ (jobject [("rejectedSpans", jint 3); ("errorMessage", jstring (lit "full"))]%string) None);
    [reflexivity|exact I|left; reflexivity|lia|left; reflexivity].
Defined.

(** A count that needs more than 32 bits does not come back. *)
Example otel_count_truncated :
  trace_response_from_json (jobject [("partialSuccess", jobject [("rejectedSpans", jint (2 ^ 32))])]%string) None
  = Ret (Some {| rejected := 0; error_message := [] |}).
Proof. reflexivity. Qed.
