(* ===== verification/TraceContext.v ===== *)
(** * W3C trace context (src/instrument/opentelemetry/tracecontext.cpp)

    [parse] reads the headers [traceparent] and [tracestate] of a request into
    the span they describe; [inject] writes them.  The members of a span that
    an initializer leaves out are zero. *)

From Stdlib Require Import ZArith Lia Strings.Byte String.
From stdpp Require Import prelude list gmap strings.
From S2P Require Import Prelude CxxStrings Hex StringMap Headers Otel.

(** ** Definitions *)

Definition version_length : nat := 2.
Definition trace_id_00_length : nat := 32.
Definition parent_id_00_length : nat := 16.
Definition flags_00_length : nat := 2.
Definition traceparent_00_length : nat :=
  version_length + 1 + trace_id_00_length + 1 + parent_id_00_length + 1 + flags_00_length.

(** The span that [parse_version_00] makes, with its [kind] and [trace_state]. *)
Definition make_span (tid : trace_id_t) (pid : span_id_t) (f : span_flags) (k : span_kind) (state : list byte) : span :=
  {| version := x00; trace_id := tid; parent_span_id := Some pid; span_id := replicate 8 x00; trace_state := state; flags := f;
     span_name := []; kind := k; start_time := 0; end_time := 0; attributes := []; dropped_attributes_count := 0;
     events := []; dropped_events_count := 0; links := []; dropped_links_count := 0;
     span_status := {| message := []; code := code_unset |} |}.

Definition parse_version_00 (traceparent : list byte) : outcome (option span) :=
  noexcept (
    let expected_length := (trace_id_00_length + 1 + parent_id_00_length + 1 + version_length)%nat in
    if negb (length traceparent =? expected_length)%nat then Ret None
    else
      let* c := index traceparent trace_id_00_length in
      if negb (byte_eqb c "-") then Ret None
      else
        let* c := index traceparent (trace_id_00_length + 1 + parent_id_00_length) in
        if negb (byte_eqb c "-") then Ret None
        else
          let* trace_id_raw := sv_substr traceparent 0 trace_id_00_length in
          let* parent_id_raw := sv_substr traceparent (trace_id_00_length + 1) parent_id_00_length in
          let* flags_raw := sv_substr traceparent (trace_id_00_length + 1 + parent_id_00_length + 1) flags_00_length in
          let* f0 := index flags_raw 0 in
          let* f1 := index flags_raw 1 in
          let f := byte_val (decode_byte f0 f1) in
          let* (valid, tid) := decode_to trace_id_raw (replicate 16 x00) in
          if negb valid then Ret None
          else
            let* (valid, pid) := decode_to parent_id_raw (replicate 8 x00) in
            if negb valid then Ret None else Ret (Some (make_span tid pid f unspecified []))).

(** The function given to [and_then] *)
Definition parse_traceparent (tp : list byte) : outcome (option span) :=
  match sv_find tp "-"%byte 0 with
  | None => Ret None
  | Some version_end =>
      let* version_raw := sv_substr tp 0 version_end in
      let* tp := sv_substr_from tp (version_end + 1) in
      if negb (length version_raw =? version_length)%nat then Ret None
      else
        let* v0 := index version_raw 0 in
        let* v1 := index version_raw 1 in
        if byte_val (decode_byte v0 v1) =? 0 then parse_version_00 tp else Ret None
  end.

(** [s->kind = server; s->trace_state = state] *)
Definition complete (state : list byte) (s : span) : span :=
  {| version := version s; trace_id := trace_id s; parent_span_id := parent_span_id s; span_id := span_id s; trace_state := state;
     flags := flags s; span_name := span_name s; kind := server; start_time := start_time s; end_time := end_time s;
     attributes := attributes s; dropped_attributes_count := dropped_attributes_count s; events := events s;
     dropped_events_count := dropped_events_count s; links := links s; dropped_links_count := dropped_links_count s;
     span_status := span_status s |}.

Definition parse (h : headers) : outcome (option span) :=
  noexcept (
    let* tp := get h (lit "traceparent") in
    let* s := match tp with Some tp => parse_traceparent tp | None => Ret None end in
    match s with
    | None => Ret None
    | Some s => let* state := get h (lit "tracestate") in Ret (Some (complete (default [] state) s))
    end).

(** The offsets behind the first are computed with the length of the whole
    header where the length of the trace id is meant. *)
Definition inject_version_00 (s : span) (h : headers) : outcome headers :=
  noexcept (
    let traceparent := replicate traceparent_00_length "0"%byte in
    let* traceparent := encode_byte_to (version s) traceparent 0 in
    let* traceparent := store traceparent version_length "-"%byte in
    let* traceparent := encode_to (trace_id s) traceparent (version_length + 1) in
    let* traceparent := store traceparent (version_length + 1 + traceparent_00_length) "-"%byte in
    let* traceparent := encode_to (span_id s) traceparent (version_length + 1 + traceparent_00_length + 1) in
    let* traceparent := store traceparent (version_length + 1 + traceparent_00_length + 1 + parent_id_00_length) "-"%byte in
    let* traceparent := encode_byte_to (byte_of_Z (flags s)) traceparent
      (version_length + 1 + traceparent_00_length + 1 + parent_id_00_length + 1) in
    let* h := set h (lit "traceparent") traceparent in
    match trace_state s with [] => Ret h | _ => set h (lit "tracestate") (trace_state s) end).

Definition inject (s : span) (h : headers) : outcome headers :=
  noexcept (if byte_val (version s) =? 0 then inject_version_00 s h else Ret h).

(** ** The form of the header *)

Definition dash : byte := "-"%byte.

(** The text of a header of version 0, behind the version. *)
Definition body_00 (tid pid : list byte) (f0 f1 : byte) : list byte := tid ++ dash :: pid ++ [dash; f0; f1].

Lemma parse_body tid pid f0 f1 :
  length tid = 32%nat -> length pid = 16%nat ->
  parse_version_00 (body_00 tid pid f0 f1)
  = Ret (if forallb is_hex_char tid && forallb is_hex_char pid
         then Some (make_span (hex_bytes tid) (hex_bytes pid) (byte_val (decode_byte f0 f1)) unspecified []) else None).
Proof.
  intros Ht Hp. unfold parse_version_00, trace_id_00_length, parent_id_00_length, version_length, flags_00_length. cbn [Nat.add].
  set (tp := body_00 tid pid f0 f1).
  assert (tp = (tid ++ dash :: pid) ++ dash :: [f0; f1]) as Hs by (unfold tp, body_00; by rewrite <- app_assoc).
  assert (length (tid ++ dash :: pid) = 49%nat) as Hf by (rewrite length_app; cbn [length]; lia).
  assert (length tp = 52%nat) as -> by (rewrite Hs, length_app, Hf; reflexivity).
  assert (index tp 32 = Ret dash) as -> by (unfold tp, body_00; rewrite <- Ht; apply index_app_mid).
  assert (index tp 49 = Ret dash) as -> by (rewrite Hs, <- Hf; apply index_app_mid).
  assert (sv_substr tp 0 32 = Ret tid) as -> by (unfold tp, body_00; rewrite <- Ht; apply sv_substr_0_app).
  assert (sv_substr tp 33 16 = Ret pid) as ->.
  { rewrite Hs. replace ((tid ++ dash :: pid) ++ dash :: [f0; f1]) with ((tid ++ [dash]) ++ pid ++ [dash; f0; f1]).
    - replace 33%nat with (length (tid ++ [dash])) by (rewrite length_app; cbn [length]; lia). rewrite <- Hp. apply sv_substr_app.
    - rewrite <- !app_assoc. reflexivity. }
  assert (sv_substr tp 50 2 = Ret [f0; f1]) as ->.
  { rewrite Hs. replace ((tid ++ dash :: pid) ++ dash :: [f0; f1]) with ((tid ++ dash :: pid ++ [dash]) ++ [f0; f1] ++ []).
    - replace 50%nat with (length (tid ++ dash :: pid ++ [dash])) by (rewrite length_app; cbn [length]; rewrite length_app; cbn [length]; lia).
      apply (sv_substr_app _ [f0; f1] []).
    - rewrite <- !app_assoc. cbn [app]. rewrite <- !app_assoc. reflexivity. }
  change (byte_eqb dash "-") with true. cbn [Nat.eqb negb obind index lookup list_lookup].
  destruct (decode_to_exact tid (replicate 16 x00)) as (t & -> & Ht'); [by rewrite Ht|]. cbn [obind].
  destruct (forallb is_hex_char tid); [|done]. cbn [negb]. rewrite (Ht' eq_refl).
  destruct (decode_to_exact pid (replicate 8 x00)) as (q & -> & Hq); [by rewrite Hp|]. cbn [obind].
  destruct (forallb is_hex_char pid); [|done]. by rewrite (Hq eq_refl).
Qed.

(** Everything else is refused. *)
Lemma parse_not_body tp :
  parse_version_00 tp = Ret None
  \/ exists tid pid f0 f1, length tid = 32%nat /\ length pid = 16%nat /\ tp = body_00 tid pid f0 f1.
Proof.
  unfold parse_version_00, trace_id_00_length, parent_id_00_length, version_length. cbn [Nat.add].
  destruct (length tp =? 52)%nat eqn:Hl; [|by left]. apply Nat.eqb_eq in Hl. cbn [negb].
  destruct (lookup_lt_is_Some_2 tp 32) as [c Hc]; [lia|]. rewrite (index_Some _ _ _ Hc). cbn [obind].
  destruct (byte_eqb c "-") eqn:Ec; [|by left]. apply byte_eqb_eq in Ec as ->.
  destruct (lookup_lt_is_Some_2 tp 49) as [c Hc']; [lia|]. rewrite (index_Some _ _ _ Hc'). cbn [obind negb].
  destruct (byte_eqb c "-") eqn:Ec; [|by left]. apply byte_eqb_eq in Ec as ->. right.
  assert (drop 32 tp = dash :: drop 33 tp) as D1 by (by apply drop_S).
  assert (drop 49 tp = dash :: drop 50 tp) as D2 by (by apply drop_S).
  destruct (drop 50 tp) as [|f0 [|f1 [|x l]]] eqn:D3; try (apply (f_equal length) in D3; rewrite length_drop in D3; cbn in D3; lia).
  exists (take 32 tp), (take 16 (drop 33 tp)), f0, f1. split_and!; [rewrite length_take; lia|rewrite length_take, length_drop; lia|].
  unfold body_00. rewrite <- D2, <- (take_drop 32 tp) at 1. rewrite D1. do 2 f_equal.
  rewrite <- (take_drop 16 (drop 33 tp)) at 1. by rewrite drop_drop.
Qed.

Lemma body_inj tid pid f0 f1 tid' pid' f0' f1' :
  length tid = 32%nat -> length pid = 16%nat -> length tid' = 32%nat -> length pid' = 16%nat ->
  body_00 tid pid f0 f1 = body_00 tid' pid' f0' f1' -> tid = tid' /\ pid = pid' /\ f0 = f0' /\ f1 = f1'.
Proof.
  intros H1 H2 H3 H4 E. unfold body_00 in E. apply app_inj_1 in E as [-> E]; [|lia]. injection E as E.
  apply app_inj_1 in E as [-> E]; [|lia]. by injection E as -> ->.
Qed.

Definition hex_text (s : list byte) : Prop := Forall (fun c => is_hex_char c = true) s.

#[global] Instance hex_text_dec s : Decision (hex_text s).
Proof. unfold hex_text. apply _. Defined.

Lemma hex_text_forallb s : forallb is_hex_char s = true <-> hex_text s.
Proof. unfold hex_text. rewrite forallb_forall, Forall_forall. by setoid_rewrite list_elem_of_In. Qed.

(** The value of a hexadecimal digit of either case, and of a text of them, two
    for each byte *)
Definition digit_value (c : byte) : option Z :=
  match list_find (eq c) (lit "0123456789abcdef"), list_find (eq c) (lit "0123456789ABCDEF") with
  | Some (i, _), _ | None, Some (i, _) => Some (Z.of_nat i)
  | None, None => None
  end.

Definition digits_byte (hi lo : byte) : option byte :=
  match digit_value hi, digit_value lo with Some a, Some b => Some (byte_of_Z (16 * a + b)) | _, _ => None end.

Fixpoint digits_bytes (s : list byte) : option (list byte) :=
  match s with
  | [] => Some []
  | [_] => None
  | hi :: lo :: s => match digits_byte hi lo, digits_bytes s with Some b, Some bs => Some (b :: bs) | _, _ => None end
  end.

(** The header as the W3C recommendation has it, in version 0 *)
Inductive w3c_traceparent : list byte -> trace_id_t -> span_id_t -> byte -> Prop :=
| w3c_00 tid_text pid_text f0 f1 tid pid f :
    digits_bytes tid_text = Some tid -> digits_bytes pid_text = Some pid -> digits_byte f0 f1 = Some f ->
    length tid = 16%nat -> length pid = 8%nat ->
    w3c_traceparent (lit "00-" ++ body_00 tid_text pid_text f0 f1) tid pid f.

(** The pairs of characters that [decode] turns into zero without looking at
    what they are: the upper nibble is cut off on the left, and what is behind
    [F] is taken for a lower-case letter. *)
Definition zero_pair (v0 v1 : byte) : bool :=
  existsb (byte_eqb v0) [x00; x10; " "; "0"; "@"; "P"; "`"; "g"; "w"; x80; x90; xa0; xb0; xc0; xd0; xe0; xf0]%byte
  && existsb (byte_eqb v1) ["0"; "P"]%byte.

(** The headers that are accepted, and their spans *)
Inductive traceparent_of : list byte -> list byte -> span -> Prop :=
| traceparent_00 v0 v1 tid_text pid_text tid pid f0 f1 state :
    zero_pair v0 v1 = true ->
    digits_bytes tid_text = Some tid -> digits_bytes pid_text = Some pid -> length tid = 16%nat -> length pid = 8%nat ->
    traceparent_of (v0 :: v1 :: dash :: body_00 tid_text pid_text f0 f1) state
      (make_span tid pid (byte_val (decode_byte f0 f1)) server state).

Lemma byte_forall_2 (p : byte -> byte -> bool) : forallb (fun a => forallb (p a) all_bytes) all_bytes = true -> forall a b, p a b = true.
Proof. intros H a b. rewrite forallb_forall in H. specialize (H a (all_bytes_complete a)). rewrite forallb_forall in H. apply H, all_bytes_complete. Qed.

Lemma zero_pair_decode v0 v1 : zero_pair v0 v1 = true <-> decode_byte v0 v1 = x00.
Proof.
  assert (eqb (zero_pair v0 v1) (byte_eqb (decode_byte v0 v1) x00) = true) as H.
  { apply (byte_forall_2 (fun a b => eqb (zero_pair a b) (byte_eqb (decode_byte a b) x00))). vm_compute. reflexivity. }
  apply eqb_prop in H. rewrite H. apply byte_eqb_eq.
Qed.

Lemma zero_pair_no_dash v0 v1 : zero_pair v0 v1 = true -> v0 <> dash /\ v1 <> dash.
Proof. intros H. split; intros ->; [done|]. unfold zero_pair in H. by rewrite andb_false_r in H. Qed.

Lemma digits_byte_decode hi lo :
  digits_byte hi lo = if is_hex_char hi && is_hex_char lo then Some (decode_byte hi lo) else None.
Proof.
  assert (forall p : byte -> byte -> bool, p = (fun hi lo =>
      bool_decide (digits_byte hi lo = if is_hex_char hi && is_hex_char lo then Some (decode_byte hi lo) else None)) -> p hi lo = true) as H.
  { intros p Hp. apply byte_forall_2. rewrite Hp. vm_compute. reflexivity. }
  specialize (H _ eq_refl). by apply bool_decide_eq_true in H.
Qed.

Lemma hex_bytes_length s : length (hex_bytes s) = (length s / 2)%nat.
Proof.
  induction s as [s IH] using (induction_ltof1 _ (@length byte)). unfold ltof in IH.
  destruct s as [|hi [|lo s]]; [done|done|]. cbn [hex_bytes length]. rewrite IH by (cbn; lia).
  replace (S (S (length s))) with (length s + 1 * 2)%nat by lia. rewrite Nat.div_add by lia. lia.
Qed.

Lemma digits_bytes_decode s bs :
  digits_bytes s = Some bs <-> length s = (2 * length bs)%nat /\ hex_text s /\ hex_bytes s = bs.
Proof.
  unfold hex_text. revert bs. induction s as [s IH] using (induction_ltof1 _ (@length byte)). unfold ltof in IH. intros bs.
  destruct s as [|hi [|lo s]]; cbn [digits_bytes hex_bytes length].
  - split; [intros [= <-]; by repeat constructor|by intros (_ & _ & <-)].
  - split; [done|]. intros (Hl & _ & <-). cbn in Hl. lia.
  - rewrite digits_byte_decode, !Forall_cons. split.
    + destruct (is_hex_char hi), (is_hex_char lo); cbn [andb]; try done. destruct (digits_bytes s) as [bs'|] eqn:E; [|done].
      intros [= <-]. apply IH in E as (Hl & Hh & <-); [|cbn; lia]. cbn [length]. split_and!; [lia|done..].
    + intros (Hl & (-> & -> & Hh) & <-). cbn [andb length] in *.
      rewrite (proj2 (IH s ltac:(cbn; lia) (hex_bytes s))); [done|]. split_and!; [lia|done..].
Qed.

Lemma find_dash tp i : sv_find tp dash 0 = Some i -> exists a b, tp = a ++ dash :: b /\ length a = i /\ dash ∉ a.
Proof.
  intros E. apply find_from_split in E as (a & x & b & Ed & Hi & Hx & Ha). rewrite drop_0 in Ed. cbn in Hi.
  apply byte_eqb_eq in Hx. subst x tp i. exists a, b. split_and!; [done|done|]. intros Hin.
  rewrite Forall_forall in Ha. specialize (Ha _ Hin). by rewrite byte_eqb_refl in Ha.
Qed.

Lemma traceparent_version (a b state : list byte) s :
  dash ∉ a -> traceparent_of (a ++ dash :: b) state s ->
  exists v0 v1, a = [v0; v1] /\ traceparent_of (v0 :: v1 :: dash :: b) state s.
Proof.
  intros Ha Hs. inversion Hs as [v0 v1 tt pt tid pid f0 f1 state' Hz _ _ _ _ Htp]. exists v0, v1.
  apply zero_pair_no_dash in Hz as [Hv0 Hv1].
  destruct a as [|x [|y [|z a]]]; cbn in Htp; injection Htp; intros; subst; try done. exfalso. apply Ha. set_solver.
Qed.

Lemma parse_traceparent_returns tp : exists r, parse_traceparent tp = Ret r
  /\ forall state s, (exists s0, r = Some s0 /\ complete state s0 = s) <-> traceparent_of tp state s.
Proof.
  assert (forall tp, (forall state s, ~ traceparent_of tp state s) -> exists r, Ret (@None span) = Ret r
    /\ forall state s, (exists s0, r = Some s0 /\ complete state s0 = s) <-> traceparent_of tp state s) as Hnone.
  { intros tp' Hno. exists None. split; [done|]. intros state s. split; [by intros (? & ? & _)|]. by intros ?%Hno. }
  unfold parse_traceparent. change "-"%byte with dash. destruct (sv_find tp dash 0) as [i|] eqn:E.
  2: { apply Hnone. intros state s Hs. destruct Hs as [v0 v1 tt pt tid pid f0 f1 state _ _ _ _ _].
       apply find_from_None in E. rewrite drop_0 in E. do 2 apply Forall_cons in E as [_ E].
       apply Forall_cons in E as [E _]. by rewrite byte_eqb_refl in E. }
  destruct (find_dash tp i E) as (a & b & -> & <- & Ha). rewrite sv_substr_0_app, sv_substr_from_cons. cbn [obind].
  destruct (length a =? version_length)%nat eqn:Hl; cbn [negb].
  2: { apply Hnone. intros state s Hs. by apply traceparent_version in Hs as (v0 & v1 & -> & _). }
  apply Nat.eqb_eq in Hl. destruct a as [|v0 [|v1 [|? ?]]]; try done. cbn [index lookup list_lookup obind app].
  assert (v0 <> dash /\ v1 <> dash) as [H0 H1] by set_solver.
  destruct (byte_val (decode_byte v0 v1) =? 0) eqn:Ev.
  2: { apply Hnone. intros state s Hs. inversion Hs as [? ? tt pt tid pid f0 f1 ? Hv%zero_pair_decode]. subst. by rewrite Hv in Ev. }
  apply Z.eqb_eq in Ev. assert (decode_byte v0 v1 = x00) as Hv by (by apply byte_val_inj). clear E Ha Hl Ev.
  destruct (parse_not_body b) as [Hb|(tid & pid & f0 & f1 & Ht & Hp & ->)].
  - rewrite Hb. apply Hnone. intros state s Hs. inversion Hs as [? ? tt pt tid pid f0 f1 ? _ Xt Xp Ht Hp]. subst.
    apply digits_bytes_decode in Xt as (Lt & Xt & _), Xp as (Lp & Xp & _).
    rewrite parse_body in Hb by lia. apply hex_text_forallb in Xt, Xp. by rewrite Xt, Xp in Hb.
  - rewrite parse_body by done. eexists. split; [done|]. intros state s. split.
    + intros (s0 & Es & <-). destruct (forallb is_hex_char tid) eqn:Xt, (forallb is_hex_char pid) eqn:Xp; try done.
      injection Es as <-. apply hex_text_forallb in Xt, Xp. pose proof (hex_bytes_length tid) as Lt. rewrite Ht in Lt.
      pose proof (hex_bytes_length pid) as Lp. rewrite Hp in Lp. cbn in Lt, Lp.
      apply (traceparent_00 v0 v1 tid pid (hex_bytes tid) (hex_bytes pid)); [by apply zero_pair_decode| | |exact Lt|exact Lp];
        apply digits_bytes_decode; rewrite ?Lt, ?Lp; by split_and!.
    + intros Hs. inversion Hs as [? ? tt pt tid' pid' f0' f1' ? _ Xt Xp Ht' Hp']. subst.
      apply digits_bytes_decode in Xt as (Lt & Xt & <-), Xp as (Lp & Xp & <-).
      match goal with E : body_00 _ _ _ _ = body_00 _ _ _ _ |- _ => apply body_inj in E as (-> & -> & -> & ->); [|lia..] end.
      apply hex_text_forallb in Xt, Xp. rewrite Xt, Xp. by eexists.
Qed.

(** ** Properties *)

Lemma parse_spec h : map_ok h -> exists tp state r,
  get h (lit "traceparent") = Ret tp /\ get h (lit "tracestate") = Ret state /\ parse h = Ret r
  /\ forall s, r = Some s <-> exists t, tp = Some t /\ traceparent_of t (default [] state) s.
Proof.
  intros Hok. unfold parse. rewrite (header_get_spec h (lit "traceparent") Hok), (header_get_spec h (lit "tracestate") Hok)
    by (apply valid_literal; reflexivity). set (tp := _ ≫= head). set (state := _ ≫= head). exists tp, state.
  destruct tp as [t|]; cbn [obind].
  2: { exists None. split_and!; try done. intros s. split; [done|]. by intros (? & ? & _). }
  destruct (parse_traceparent_returns t) as (r & -> & Hr). cbn [obind].
  exists (option_map (complete (default [] state)) r). split_and!; try done.
  - by destruct r.
  - intros s. split.
    + intros Es. exists t. split; [done|]. apply Hr. destruct r as [s0|]; [|done]. injection Es as <-. by eexists.
    + intros (t' & [= <-] & Hs). apply Hr in Hs as (s0 & -> & <-). done.
Qed.

(** C32: [parse] always returns.  A [traceparent] of version 0 as the W3C
    recommendation has it is accepted, with the bytes its ids spell, its flags,
    kind [server] and the [tracestate].  What is accepted is exactly that, except
    that the version and the flags are not checked to be digits: the version may
    be any of 34 pairs of characters, of which [00] is one, and the flags any two
    characters. *)
Theorem tracecontext_parse (h : headers) :
  map_ok h -> exists tp state r,
    get h (lit "traceparent") = Ret tp /\ get h (lit "tracestate") = Ret state /\ parse h = Ret r
    /\ (forall t tid pid f, w3c_traceparent t tid pid f -> tp = Some t ->
           r = Some (make_span tid pid (byte_val f) server (default [] state)))
    /\ (forall s, r = Some s <-> exists t, tp = Some t /\ traceparent_of t (default [] state) s).
Proof.
  intros Hok. destruct (parse_spec h Hok) as (tp & state & r & H1 & H2 & H3 & Hr). exists tp, state, r. split_and!; try done.
  intros t tid pid f Hw E. apply Hr. exists t. split; [exact E|]. destruct Hw as [tt pt f0 f1 tid pid f Ht Hp Hf Lt Lp].
  rewrite digits_byte_decode in Hf. destruct (is_hex_char f0 && is_hex_char f1); [|done]. injection Hf as <-.
  by apply (traceparent_00 "0" "0" tt pt).
Qed.

Definition sample_headers : headers :=
  [(lit "traceparent", [lit "00-4bf92f3577b34da6a3ce929d0e0e4736-00f067aa0ba902b7-01"])].

Lemma tracecontext_parse_witness :
  parse sample_headers = Ret (Some (make_span (hex_bytes (lit "4bf92f3577b34da6a3ce929d0e0e4736")) (hex_bytes (lit "00f067aa0ba902b7")) 1 server [])).
Proof.
  destruct (tracecontext_parse sample_headers) as (tp & state & r & H1 & H2 & -> & Hr & _).
  - split; [cbn; apply NoDup_singleton|]. apply Forall_singleton, name_valid, valid_literal. reflexivity.
  - assert (get sample_headers (lit "traceparent") = Ret (Some (lit "00-4bf92f3577b34da6a3ce929d0e0e4736-00f067aa0ba902b7-01"))) as E1
      by (vm_compute; reflexivity).
    assert (get sample_headers (lit "tracestate") = Ret None) as E2 by (vm_compute; reflexivity).
    rewrite E1 in H1. rewrite E2 in H2. assert (tp = Some (lit "00-4bf92f3577b34da6a3ce929d0e0e4736-00f067aa0ba902b7-01")) as -> by congruence.
    assert (state = None) as -> by congruence. f_equal. refine (Hr _ _ _ x01 _ eq_refl).
    assert (lit "00-4bf92f3577b34da6a3ce929d0e0e4736-00f067aa0ba902b7-01"
      = lit "00-" ++ body_00 (lit "4bf92f3577b34da6a3ce929d0e0e4736") (lit "00f067aa0ba902b7") "0" "1") as -> by (vm_compute; reflexivity).
    constructor; vm_compute; reflexivity.
Defined.

(** A version and flags that are no digits are accepted. *)
Lemma tracecontext_parse_unchecked :
  parse [(lit "traceparent", [lit "wP-4bf92f3577b34da6a3ce929d0e0e4736-00f067aa0ba902b7-zz"])]
  = Ret (Some (make_span (hex_bytes (lit "4bf92f3577b34da6a3ce929d0e0e4736")) (hex_bytes (lit "00f067aa0ba902b7"))
                 (byte_val (decode_byte "z" "z")) server [])).
Proof. vm_compute. reflexivity. Qed.

(** A span of version 0 is never written: the second dash is stored behind the
    end of the string.  A span of another version leaves the headers alone. *)
Lemma tracecontext_inject s h :
  length (trace_id s) = 16%nat -> inject s h = if byte_val (version s) =? 0 then Undef else Ret h.
Proof.
  intros Ht. unfold inject. destruct (byte_val (version s) =? 0) eqn:Ev; [|done].
  unfold inject_version_00, encode_byte_to. destruct (encode_byte (version s)) as [hi lo].
  pose proof (encode_to_window (trace_id s) [hi; lo; dash] (replicate 32 "0"%byte) (replicate 20 "0"%byte)) as Hw.
  rewrite length_replicate, Ht in Hw. specialize (Hw eq_refl).
  change (replicate traceparent_00_length "0"%byte) with (replicate 3 "0"%byte ++ replicate 32 "0"%byte ++ replicate 20 "0"%byte).
  cbn [replicate app length store Nat.ltb Nat.leb Nat.add obind insert list_insert version_length] in Hw |- *.
  change "-"%byte with dash. rewrite Hw. cbn [obind]. unfold store.
  rewrite (proj2 (Nat.ltb_ge _ _)); [done|]. cbn [length]. rewrite length_app, hex_chars_length, Ht.
  cbn. lia.
Qed.
