(* ===== verification/Coro.v ===== *)
(** * Coroutines (include/coro/task.hpp, include/coro/generator.hpp)

    A coroutine has a frame with its promise, a suspension point, and a handle
    that names it.  What the language does with a coroutine (create it
    suspended, resume it, transfer control to the handle an [await_suspend]
    returns, destroy it) is the machine below; what [task] and [promise] make
    of it is one definition for each member.  Coroutine bodies are trees:
    actions on a shared state, awaits of calls, and an end.

    The main theorem is that awaiting a task is calling a function: the rest
    of the development models a task by its result, and this is why it may.

    A task that is kept in a variable may be awaited too: it runs at its first
    await, its frame stays, and later awaits give its result again.

    Three members cannot be used as they are written and have no definition:
    [return_value] of a promise of references stores an address where the
    variant holds no pointer, [operator task<>] calls itself, and the moves of
    a generator exchange its handle for one of another type. *)

From Stdlib Require Import ZArith Lia Strings.Byte String Floats.SpecFloat.
From stdpp Require Import prelude list gmap strings relations.
From S2P Require Import Prelude Doubles.

(** ** Tasks *)

Section Tasks.
Context {V St : Type}.

(** How a coroutine ends: the value or the exception its promise stores. *)
Inductive completion := done_value (v : V) | done_exception (e : exn).

(** The body of a coroutine from a suspension point on.  A [co_await] of a call
    goes on with the completion of the callee: a body without a handler goes
    on with [co_throw] for an exception. *)
Inductive body :=
| co_return (v : V)
| co_throw (e : exn)
| act (f : St -> V * St) (k : V -> body)
| co_await (callee : body) (k : completion -> body)
| co_await_task (t : option nat) (k : completion -> body). (* of a variable that holds the handle [t] *)

(** *** Direct style: a task is a function call *)

(** Only calls are awaited. *)
Fixpoint direct (b : body) : Prop :=
  match b with
  | co_return _ | co_throw _ => True
  | act _ k => forall v, direct (k v)
  | co_await callee k => direct callee /\ forall c, direct (k c)
  | co_await_task _ _ => False
  end.

(** What such a body computes. *)
Fixpoint eval (b : body) (s : St) : completion * St :=
  match b with
  | co_return v => (done_value v, s)
  | co_throw e => (done_exception e, s)
  | act f k => let (v, s) := f s in eval (k v) s
  | co_await callee k => let (c, s) := eval callee s in eval (k c) s
  | co_await_task _ _ => (done_exception (runtime_error "not a call"), s)
  end.

(** *** Frames and the machine *)

(** [std::variant<std::monostate, stored_type, std::exception_ptr> value] and
    the [continuation] of [promise_base] *)
Record promise := { value : option completion; continuation : option nat }.

Inductive point :=
| initial (b : body) (* the initial suspension *)
| awaiting (callee : nat) (k : completion -> body)
| awaiting_task (t : nat) (k : completion -> body)
| executing
| final. (* [handle.done()] *)

Record frame := { at_point : point; frame_promise : promise }.

Record machine := { frames : gmap nat frame; next_handle : nat; shared : St }.

(** Who runs: a coroutine, or whoever resumed the first one again. *)
Inductive control := running (h : nat) (b : body) | resumer.

Definition with_frames (fs : gmap nat frame) (m : machine) : machine :=
  {| frames := fs; next_handle := next_handle m; shared := shared m |}.

(** Any use of a handle whose frame is gone is undefined. *)
Definition frame_of (h : nat) (m : machine) : outcome frame :=
  match frames m !! h with Some f => Ret f | None => Undef end.

Definition set_frame (h : nat) (f : frame) (m : machine) : machine := with_frames (<[h := f]> (frames m)) m.

(** The call of a coroutine: the frame, [get_return_object], [initial_suspend]. *)
Definition call (b : body) (m : machine) : nat * machine :=
  let h := next_handle m in
  (h, {| frames := <[h := {| at_point := initial b; frame_promise := {| value := None; continuation := None |} |}]> (frames m);
         next_handle := S h; shared := shared m |}).

(** [promise::result()] *)
Definition promise_result (p : promise) : completion :=
  match value p with
  | Some c => c
  | None => done_exception (runtime_error "return value never set, coroutine may have never been executed")
  end.

(** [promise<void>::result()]: there is only an exception to look at, so a
    coroutine that was never executed seems to have returned. *)
Definition void_result (nothing : V) (p : promise) : completion :=
  match value p with
  | Some (done_exception e) => done_exception e
  | _ => done_value nothing
  end.

(** [handle.destroy()] of a suspended coroutine *)
Definition destroy (h : nat) (m : machine) : outcome machine :=
  let* f := frame_of h m in
  match at_point f with executing => Undef | _ => Ret (with_frames (delete h (frames m)) m) end.

(** [handle.done()] *)
Definition is_done (h : nat) (m : machine) : outcome bool :=
  let* f := frame_of h m in Ret (match at_point f with final => true | _ => false end).

(** [handle.resume()].  At a [co_await] of a call: [await_resume], then the end
    of the full expression destroys the temporary task; at one of a variable
    [await_resume] alone. *)
Definition resume (h : nat) (m : machine) : outcome (control * machine) :=
  let* f := frame_of h m in
  let go := {| at_point := executing; frame_promise := frame_promise f |} in
  match at_point f with
  | initial b => Ret (running h b, set_frame h go m)
  | awaiting callee k =>
      let* g := frame_of callee m in
      let c := promise_result (frame_promise g) in
      let* m := destroy callee m in
      Ret (running h (k c), set_frame h go m)
  | awaiting_task t k =>
      let* g := frame_of t m in
      Ret (running h (k (promise_result (frame_promise g))), set_frame h go m)
  | executing | final => Undef
  end.

(** [awaitable_base::await_ready] *)
Definition await_ready (h : option nat) (m : machine) : outcome bool :=
  match h with None => Ret true | Some h => is_done h m end.

(** [awaitable_base::await_suspend]: the handle to transfer to *)
Definition await_suspend (h cont : nat) (m : machine) : outcome (nat * machine) :=
  let* f := frame_of h m in
  Ret (h, set_frame h {| at_point := at_point f;
                         frame_promise := {| value := value (frame_promise f); continuation := Some cont |} |} m).

(** [return_value] and [unhandled_exception] *)
Definition store_completion (h : nat) (c : completion) (m : machine) : outcome machine :=
  let* f := frame_of h m in
  Ret (set_frame h {| at_point := at_point f;
                      frame_promise := {| value := Some c; continuation := continuation (frame_promise f) |} |} m).

(** [final_suspend]: the coroutine is done, and [final_awaitable::await_suspend]
    transfers to the continuation, if there is one. *)
Definition final_suspend (h : nat) (m : machine) : outcome (control * machine) :=
  let* f := frame_of h m in
  let m := set_frame h {| at_point := final; frame_promise := frame_promise f |} m in
  match continuation (frame_promise f) with
  | Some cont => resume cont m
  | None => Ret (resumer, m)
  end.

Definition finish (h : nat) (c : completion) (m : machine) : outcome (control * machine) :=
  let* m := store_completion h c m in final_suspend h m.

(** One step of the coroutine that runs. *)
Definition step (h : nat) (b : body) (m : machine) : outcome (control * machine) :=
  match b with
  | co_return v => finish h (done_value v) m
  | co_throw e => finish h (done_exception e) m
  | act f k =>
      let (v, s) := f (shared m) in
      Ret (running h (k v), {| frames := frames m; next_handle := next_handle m; shared := s |})
  | co_await callee k =>
      let (t, m) := call callee m in
      let* ready := await_ready (Some t) m in
      let* f := frame_of h m in
      let m := set_frame h {| at_point := awaiting t k; frame_promise := frame_promise f |} m in
      if ready : bool then resume h m
      else let* (t, m) := await_suspend t h m in resume t m
  | co_await_task t k =>
      let* ready := await_ready t m in
      match t with
      | None => Undef
      | Some t =>
          let* f := frame_of h m in
          let m := set_frame h {| at_point := awaiting_task t k; frame_promise := frame_promise f |} m in
          if ready : bool then resume h m
          else let* (t, m) := await_suspend t h m in resume t m
      end
  end.

Fixpoint run (fuel : nat) (c : control) (m : machine) : outcome machine :=
  match c with
  | resumer => Ret m
  | running h b =>
      match fuel with
      | O => OutOfFuel
      | S fuel => let* (c, m) := step h b m in run fuel c m
      end
  end.

(** [task::resume]: whether the task is still not done *)
Definition task_resume (fuel : nat) (h : nat) (m : machine) : outcome (bool * machine) :=
  let* finished := is_done h m in
  let* m := if finished : bool then Ret m else let* (c, m) := resume h m in run fuel c m in
  let* finished := is_done h m in
  Ret (negb finished, m).

(** [get_promise().result()] *)
Definition task_result (h : nat) (m : machine) : outcome completion :=
  let* f := frame_of h m in Ret (promise_result (frame_promise f)).

(** ** Awaiting is calling *)

Definition machine_ok (m : machine) : Prop := forall h f, frames m !! h = Some f -> (h < next_handle m)%nat.

Definition leaf (c : completion) : body :=
  match c with done_value v => co_return v | done_exception e => co_throw e end.

Lemma step_leaf h c m : step h (leaf c) m = finish h c m.
Proof. by destruct c. Qed.

(** [n] steps, all by coroutines. *)
Fixpoint steps (n : nat) (c : control) (m : machine) : outcome (control * machine) :=
  match n with
  | O => Ret (c, m)
  | S n =>
      match c with
      | running h b => let* (c, m) := step h b m in steps n c m
      | resumer => Undef
      end
  end.

Lemma steps_run n n' c m c' m' : steps n c m = Ret (c', m') -> run (n + n') c m = run n' c' m'.
Proof.
  revert c m. induction n as [|n IH]; intros c m E; cbn in E; [by injection E as -> ->|].
  destruct c as [h b|]; [|done]. cbn [run Nat.add]. apply bind_Ret_inv in E as ([c1 m1] & -> & E). cbn [obind]. by apply IH.
Qed.

Lemma steps_app n n' c m c1 m1 : steps n c m = Ret (c1, m1) -> steps (n + n') c m = steps n' c1 m1.
Proof.
  revert c m. induction n as [|n IH]; intros c m E; cbn in E; [by injection E as -> ->|].
  destruct c as [h b|]; [|done]. cbn [steps Nat.add]. apply bind_Ret_inv in E as ([c2 m2] & -> & E). cbn [obind]. by apply IH.
Qed.

(** The machine after a [co_await] has transferred to the callee, and after the
    callee has transferred back. *)
Lemma await_transfers h p m callee k :
  machine_ok m -> frames m !! h = Some {| at_point := executing; frame_promise := p |} ->
  let t := next_handle m in
  step h (co_await callee k) m
  = Ret (running t callee,
      {| frames := <[t := {| at_point := executing; frame_promise := {| value := None; continuation := Some h |} |}]>
                     (<[h := {| at_point := awaiting t k; frame_promise := p |}]> (frames m));
         next_handle := S t; shared := shared m |}).
Proof.
  intros Hok Hh t. assert (h <> t) as Hne by (specialize (Hok _ _ Hh); lia). unfold step, call. cbn [await_ready]. fold t.
  unfold is_done, frame_of, await_suspend, resume, set_frame, with_frames, frame_of. cbn [frames next_handle shared].
  rewrite lookup_insert_eq. cbn [obind at_point]. rewrite lookup_insert_ne by done. rewrite Hh. cbn [obind frame_promise frames].
  rewrite lookup_insert_ne, lookup_insert_eq by done. cbn [obind at_point frame_promise value frames].
  rewrite lookup_insert_eq. cbn [obind at_point frame_promise]. do 3 f_equal.
  rewrite !insert_insert_eq. rewrite (insert_insert_ne _ h t) by done. by rewrite insert_insert_eq.
Qed.

Lemma finish_returns h p m t k c :
  h <> t -> frames m !! h = Some {| at_point := awaiting t k; frame_promise := p |} ->
  frames m !! t = Some {| at_point := executing; frame_promise := {| value := None; continuation := Some h |} |} ->
  finish t c m
  = Ret (running h (k c), with_frames (<[h := {| at_point := executing; frame_promise := p |}]> (delete t (frames m))) m).
Proof.
  intros Hne Hh Ht. unfold finish, store_completion, final_suspend, resume, destroy, frame_of. rewrite Ht. cbn [obind at_point frame_promise continuation].
  unfold set_frame, with_frames. cbn [frames]. rewrite lookup_insert_eq. cbn [obind at_point frame_promise continuation frames].
  rewrite lookup_insert_ne by done. rewrite lookup_insert_ne by done. rewrite Hh. cbn [obind at_point frame_promise].
  rewrite lookup_insert_eq. cbn [obind at_point frame_promise]. do 3 f_equal. rewrite !delete_insert_eq. done.
Qed.

(** From where a coroutine runs it comes to its end, with what it evaluates to,
    and leaves the frames as they were. *)
Definition runs_to_end (b : body) : Prop := forall h p m,
  machine_ok m -> frames m !! h = Some {| at_point := executing; frame_promise := p |} ->
  exists n m', steps n (running h b) m = Ret (running h (leaf (eval b (shared m)).1), m')
    /\ frames m' = frames m /\ shared m' = (eval b (shared m)).2 /\ (next_handle m <= next_handle m')%nat.

(** An await of such a coroutine. *)
Lemma await_of_runs callee k h p m :
  runs_to_end callee -> machine_ok m -> frames m !! h = Some {| at_point := executing; frame_promise := p |} ->
  exists n m', steps n (running h (co_await callee k)) m = Ret (running h (k (eval callee (shared m)).1), m')
    /\ frames m' = frames m /\ shared m' = (eval callee (shared m)).2 /\ (next_handle m <= next_handle m')%nat.
Proof.
  intros IHc Hok Hh. set (t := next_handle m). assert (h < t)%nat as Hlt by (by apply (Hok _ _ Hh)).
  pose proof (await_transfers h p m callee k Hok Hh) as E1. cbv zeta in E1. fold t in E1. set (m1 := {| frames := _ |}) in E1.
  destruct (IHc t {| value := None; continuation := Some h |} m1) as (n1 & m2 & E2 & Hf2 & Hs2 & Hn2).
  { intros h' f'. cbn [frames m1 next_handle]. intros [[<- _]|[_ [[<- _]|[_ Hl]]%lookup_insert_Some]]%lookup_insert_Some; [lia..|].
    specialize (Hok _ _ Hl). lia. }
  { cbn [frames m1]. by rewrite lookup_insert_eq. }
  change (shared m1) with (shared m) in E2, Hs2. destruct (eval callee (shared m)) as [c s] eqn:Ec. cbn [fst snd] in *.
  pose proof (finish_returns h p m2 t k c ltac:(lia)) as E3. rewrite Hf2 in E3. cbn [frames m1] in E3.
  rewrite lookup_insert_ne, lookup_insert_eq in E3 by lia. specialize (E3 eq_refl). rewrite lookup_insert_eq in E3. specialize (E3 eq_refl).
  rewrite delete_insert_id in E3 by (rewrite lookup_insert_ne by lia; destruct (frames m !! t) eqn:Et; [specialize (Hok _ _ Et); lia|done]).
  rewrite insert_insert_eq, insert_id in E3 by done.
  exists (S (n1 + 1))%nat, (with_frames (frames m) m2). split_and!; [|done|done|cbn in *; lia].
  cbn [steps]. rewrite E1. cbn [obind]. rewrite (steps_app _ _ _ _ _ _ E2). cbn [steps]. rewrite step_leaf, E3. done.
Qed.

Lemma run_body b : direct b -> runs_to_end b.
Proof.
  induction b as [v|e|f k IH|callee IHc k IH|t k _]; intros Hd h p m Hok Hh; cbn [direct] in Hd; [| | |destruct Hd as [Hdc Hd]|done].
  - by exists 0%nat, m.
  - by exists 0%nat, m.
  - cbn [eval]. destruct (f (shared m)) as [v s] eqn:Ef.
    destruct (IH v (Hd v) h p {| frames := frames m; next_handle := next_handle m; shared := s |}) as (n & m' & En & Hf & Hs & Hn); [done..|].
    exists (S n), m'. split_and!; try done. cbn [steps step]. by rewrite Ef.
  - cbn [eval]. destruct (await_of_runs callee k h p m (IHc Hdc) Hok Hh) as (n1 & m1 & E1 & Hf1 & Hs1 & Hn1).
    destruct (eval callee (shared m)) as [c s]. cbn [fst snd] in *.
    destruct (IH c (Hd c) h p m1) as (n2 & m2 & E2 & Hf2 & Hs2 & Hn2); rewrite ?Hf1, ?Hs1 in *; try done.
    { intros h' f'. rewrite Hf1. intros Hl. specialize (Hok _ _ Hl). lia. }
    exists (n1 + n2)%nat, m2. split_and!; [|done|done|lia]. by rewrite (steps_app _ _ _ _ _ _ E1).
Qed.

Lemma await_runs callee h p m k :
  direct callee -> machine_ok m -> frames m !! h = Some {| at_point := executing; frame_promise := p |} ->
  exists n m', steps n (running h (co_await callee k)) m = Ret (running h (k (eval callee (shared m)).1), m')
    /\ frames m' = frames m /\ shared m' = (eval callee (shared m)).2 /\ (next_handle m <= next_handle m')%nat.
Proof. intros Hd. by apply await_of_runs, run_body. Qed.

(** C3: a coroutine that is called and resumed runs to its end: with enough
    steps [task::resume] reports the task done, its promise holds what the
    body evaluates to when every [co_await f()] is a function call, and the
    shared state has seen the same actions in the same order.  Every frame an
    await made has been destroyed, once: destroying the task leaves the frames
    that were there before. *)
Theorem await_is_call (b : body) (m : machine) :
  direct b -> machine_ok m ->
  let (h, m0) := call b m in
  exists fuel m1, (forall more, task_resume (fuel + more) h m0 = Ret (false, m1))
    /\ task_result h m1 = Ret (eval b (shared m)).1
    /\ shared m1 = (eval b (shared m)).2
    /\ exists m2, destroy h m1 = Ret m2 /\ frames m2 = frames m.
Proof.
  intros Hd Hok. unfold call. set (h := next_handle m). set (m0 := {| frames := <[h := _]> _ |}).
  assert (frames m !! h = None) as Hfree by (destruct (frames m !! h) eqn:E; [specialize (Hok _ _ E); lia|done]).
  set (p := {| value := None; continuation := None |}).
  set (mr := {| frames := <[h := {| at_point := executing; frame_promise := p |}]> (frames m); next_handle := S h; shared := shared m |}).
  assert (resume h m0 = Ret (running h b, mr)) as Hr.
  { unfold resume, frame_of, set_frame, with_frames. cbn [frames m0]. rewrite lookup_insert_eq. cbn [obind at_point].
    by rewrite insert_insert_eq. }
  destruct (run_body b Hd h p mr) as (n & m1 & E1 & Hf1 & Hs1 & _).
  { intros h' f'. cbn [frames mr next_handle]. intros [[<- _]|[_ Hl]]%lookup_insert_Some; [lia|]. specialize (Hok _ _ Hl). lia. }
  { cbn [frames mr]. by rewrite lookup_insert_eq. }
  change (shared mr) with (shared m) in E1, Hs1. set (c := (eval b (shared m)).1) in *.
  exists (n + 1)%nat, (set_frame h {| at_point := final; frame_promise := {| value := Some c; continuation := None |} |} m1).
  assert (frames m1 !! h = Some {| at_point := executing; frame_promise := p |}) as Hh1 by (rewrite Hf1; cbn [frames mr]; by rewrite lookup_insert_eq).
  assert (finish h c m1 = Ret (resumer, set_frame h {| at_point := final; frame_promise := {| value := Some c; continuation := None |} |} m1)) as Hfin.
  { unfold finish, store_completion, final_suspend, frame_of, set_frame, with_frames. rewrite Hh1. cbn [obind frames at_point frame_promise continuation p].
    rewrite lookup_insert_eq. cbn [obind frame_promise continuation]. by rewrite insert_insert_eq. }
  split_and!; [|unfold task_result, frame_of; cbn; by rewrite lookup_insert_eq|done|].
  - intros more. unfold task_resume, is_done at 1, frame_of at 1. cbn [frames m0]. rewrite lookup_insert_eq. cbn [obind at_point].
    rewrite Hr. cbn [obind]. rewrite <- Nat.add_assoc, (steps_run _ _ _ _ _ _ E1). cbn [run Nat.add]. rewrite step_leaf, Hfin. cbn [obind].
    assert (forall k m', run k resumer m' = Ret m') as -> by (by intros []). cbn [obind].
    unfold is_done, frame_of. cbn [set_frame with_frames frames]. by rewrite lookup_insert_eq.
  - eexists. unfold destroy, frame_of. cbn [set_frame with_frames frames]. rewrite lookup_insert_eq. cbn [obind at_point]. split; [done|].
    cbn [with_frames frames]. rewrite delete_insert_eq, Hf1. cbn [frames mr]. rewrite delete_insert_eq. by apply delete_id.
Qed.

(** *** A task kept in a variable *)

Definition at_end (t : nat) (c : completion) (m : machine) : Prop :=
  exists cont, frames m !! t = Some {| at_point := final; frame_promise := {| value := Some c; continuation := cont |} |}.

(** An await of a task that has ended gives its result, at once. *)
Lemma await_ended h p t c k m :
  frames m !! h = Some {| at_point := executing; frame_promise := p |} -> at_end t c m ->
  steps 1 (running h (co_await_task (Some t) k)) m = Ret (running h (k c), m).
Proof.
  intros Hh (cont & Ht). assert (h <> t) as Hne by congruence.
  cbn [steps step await_ready]. unfold is_done, frame_of at 1 2. rewrite Ht, Hh. cbn [obind at_point frame_promise].
  unfold resume, frame_of, set_frame, with_frames. cbn [frames]. rewrite lookup_insert_eq. cbn [obind at_point frame_promise frames].
  rewrite lookup_insert_ne by done. rewrite Ht. cbn [obind frame_promise promise_result value frames next_handle shared].
  rewrite insert_insert_eq, insert_id by done. by destruct m.
Qed.

(** The first await runs the task, to the end. *)
Lemma await_first h p t cont b k m :
  direct b -> machine_ok m -> frames m !! h = Some {| at_point := executing; frame_promise := p |} ->
  frames m !! t = Some {| at_point := initial b; frame_promise := {| value := None; continuation := cont |} |} ->
  exists n m', steps n (running h (co_await_task (Some t) k)) m = Ret (running h (k (eval b (shared m)).1), m')
    /\ frames m' = <[t := {| at_point := final; frame_promise := {| value := Some (eval b (shared m)).1; continuation := Some h |} |}]> (frames m)
    /\ shared m' = (eval b (shared m)).2 /\ (next_handle m <= next_handle m')%nat.
Proof.
  intros Hd Hok Hh Ht. assert (h <> t) as Hne by congruence.
  set (m1 := with_frames (<[t := {| at_point := executing; frame_promise := {| value := None; continuation := Some h |} |}]>
               (<[h := {| at_point := awaiting_task t k; frame_promise := p |}]> (frames m))) m).
  assert (step h (co_await_task (Some t) k) m = Ret (running t b, m1)) as E1.
  { cbn [step await_ready]. unfold is_done, frame_of at 1 2. rewrite Ht, Hh. cbn [obind at_point frame_promise].
    unfold await_suspend, resume, frame_of, set_frame, with_frames. cbn [frames]. rewrite lookup_insert_ne by done. rewrite Ht.
    cbn [obind at_point frame_promise value frames]. rewrite lookup_insert_eq. cbn [obind at_point frame_promise]. by rewrite insert_insert_eq. }
  destruct (run_body b Hd t {| value := None; continuation := Some h |} m1) as (n & m2 & E2 & Hf2 & Hs2 & Hn2).
  { intros h' f'. cbn. intros [[<- _]|[_ [[<- _]|[_ Hl]]%lookup_insert_Some]]%lookup_insert_Some; by eapply Hok. }
  { cbn. by rewrite lookup_insert_eq. }
  change (shared m1) with (shared m) in *. set (c := (eval b (shared m)).1) in *.
  exists (S (n + 1))%nat. eexists. split; [cbn [steps]; rewrite E1; cbn [obind]; rewrite (steps_app _ _ _ _ _ _ E2); cbn [steps]; rewrite step_leaf|].
  { unfold finish, store_completion, final_suspend, resume, frame_of, set_frame, with_frames. rewrite Hf2. cbn [frames m1 with_frames].
    rewrite lookup_insert_eq. cbn [obind at_point frame_promise continuation frames]. rewrite lookup_insert_eq.
    cbn [obind at_point frame_promise continuation frames value]. rewrite !lookup_insert_ne by done. rewrite lookup_insert_eq.
    cbn [obind at_point frame_promise frames]. rewrite lookup_insert_eq. cbn [obind frame_promise promise_result value]. reflexivity. }
  cbn [frames shared next_handle]. split_and!; [|done|done].
  rewrite !insert_insert_eq. rewrite (insert_insert_ne _ h t) by done. rewrite insert_insert_eq.
  by rewrite (insert_id (frames m) h).
Qed.

(** A task in a variable is run once: of two awaits of it the first runs its
    body, both go on with what it computes, and its frame stays until the
    variable goes. *)
Lemma kept_task_runs_once h p t cont b k m :
  direct b -> machine_ok m -> frames m !! h = Some {| at_point := executing; frame_promise := p |} ->
  frames m !! t = Some {| at_point := initial b; frame_promise := {| value := None; continuation := cont |} |} ->
  exists n m', steps n (running h (co_await_task (Some t) (fun c1 => co_await_task (Some t) (fun c2 => k c1 c2)))) m
      = Ret (running h (k (eval b (shared m)).1 (eval b (shared m)).1), m')
    /\ at_end t (eval b (shared m)).1 m' /\ shared m' = (eval b (shared m)).2.
Proof.
  intros Hd Hok Hh Ht. assert (h <> t) as Hne by congruence.
  destruct (await_first h p t cont b (fun c1 => co_await_task (Some t) (k c1)) m Hd Hok Hh Ht) as (n & m1 & E1 & Hf & Hs & _).
  assert (at_end t (eval b (shared m)).1 m1) as Hend by (eexists; by rewrite Hf, lookup_insert_eq).
  exists (n + 1)%nat, m1. split_and!; [|done|done]. rewrite (steps_app _ _ _ _ _ _ E1).
  apply (await_ended h p); [|done]. by rewrite Hf, lookup_insert_ne.
Qed.

(** On what a coroutine has stored, the two results agree. *)
Lemma void_result_stored nothing p c :
  value p = Some c -> (forall v, c = done_value v -> v = nothing) -> void_result nothing p = promise_result p.
Proof. unfold void_result, promise_result. intros -> Hv. destruct c as [v|e]; [by rewrite (Hv v eq_refl)|done]. Qed.

(** A variable that holds no task cannot be awaited. *)
Lemma await_null h k m : step h (co_await_task None k) m = Undef.
Proof. done. Qed.

End Tasks.

Arguments completion : clear implicits.
Arguments body : clear implicits.
Arguments machine : clear implicits.

(** Two awaits, one of a coroutine that throws and is caught, with actions on a
    counter. *)
Definition sample_body : body nat nat :=
  co_await (act (fun s => (s, S s)) (fun v => co_return (v + 10)%nat))
    (fun c1 => co_await (act (fun s => (s, S s)) (fun _ => co_throw out_of_range))
       (fun c2 => match c1, c2 with
                  | done_value v, done_exception _ => co_return v
                  | _, _ => co_return 0%nat
                  end)).

Definition sample_machine : machine nat nat := {| frames := ∅; next_handle := 0; shared := 5%nat |}.

(** Two awaits of one variable: the counter is counted once. *)
Definition kept_sample : body nat nat :=
  co_await_task (Some 0%nat) (fun c1 => co_await_task (Some 0%nat) (fun c2 =>
    match c1, c2 with done_value a, done_value b => co_return (a + b)%nat | _, _ => co_return 0%nat end)).

Lemma kept_sample_runs :
  let m := (call kept_sample (call (act (fun s => (s, S s)) (fun v => co_return (v + 10)%nat)) sample_machine).2).2 in
  exists m1, task_resume 10 1 m = Ret (false, m1) /\ task_result 1 m1 = Ret (done_value 30%nat) /\ shared m1 = 6%nat.
Proof. eexists. split; [vm_compute; reflexivity|]. split; vm_compute; reflexivity. Qed.

Lemma await_is_call_witness : exists fuel m1 m2,
  task_resume fuel 0 (call sample_body sample_machine).2 = Ret (false, m1)
  /\ task_result 0 m1 = Ret (done_value 15%nat) /\ shared m1 = 7%nat /\ destroy 0 m1 = Ret m2 /\ frames m2 = ∅.
Proof.
  destruct (await_is_call sample_body sample_machine) as (fuel & m1 & H1 & H2 & H3 & m2 & H4 & H5).
  - cbn. split; [done|]. intros []; (split; [done|]); by intros [].
  - intros h f Hl. cbn in Hl. by rewrite lookup_empty in Hl.
  - exists (fuel + 0)%nat, m1, m2. split_and!; [apply H1|exact H2|exact H3|exact H4|exact H5].
Defined.

(** ** Ownership: the task variables of a program

    [live] are the frames that have not been destroyed; a variable holds a
    handle or null.  Destroying a frame twice is undefined. *)

Record task_store := { vars : gmap nat (option nat); live : gset nat; fresh_handle : nat }.

Definition destroy_live (h : nat) (s : task_store) : outcome task_store :=
  if decide (h ∈ live s) then Ret {| vars := vars s; live := live s ∖ {[h]}; fresh_handle := fresh_handle s |} else Undef.

(** [if (handle != nullptr) handle.destroy()] *)
Definition destroy_handle (h : option nat) (s : task_store) : outcome task_store :=
  match h with Some h => destroy_live h s | None => Ret s end.

Definition set_var (x : nat) (h : option nat) (s : task_store) : task_store :=
  {| vars := <[x := h]> (vars s); live := live s; fresh_handle := fresh_handle s |}.

(** [task()]; a call of a coroutine function initializing [x]; [task(task&&)] *)
Definition task_default (x : nat) (s : task_store) : task_store := set_var x None s.
Definition task_call (x : nat) (s : task_store) : task_store :=
  let h := fresh_handle s in
  set_var x (Some h) {| vars := vars s; live := {[h]} ∪ live s; fresh_handle := S h |}.
Definition task_move (x y : nat) (s : task_store) : outcome task_store :=
  match vars s !! y with Some h => Ret (set_var x h (set_var y None s)) | None => Undef end.

(** [operator=(task&&)] *)
Definition task_move_assign (x y : nat) (s : task_store) : outcome task_store :=
  match vars s !! x, vars s !! y with
  | Some h, Some h' =>
      if (x =? y)%nat then Ret s
      else let* s := destroy_handle h s in Ret (set_var x h' (set_var y None s))
  | _, _ => Undef
  end.

(** [task::destroy]: whether there was a frame *)
Definition task_destroy (x : nat) (s : task_store) : outcome (bool * task_store) :=
  match vars s !! x with
  | Some (Some h) => let* s := destroy_live h s in Ret (true, set_var x None s)
  | Some None => Ret (false, s)
  | None => Undef
  end.

(** [~task] *)
Definition task_destruct (x : nat) (s : task_store) : outcome task_store :=
  match vars s !! x with
  | Some h => let* s := destroy_handle h s in Ret {| vars := delete x (vars s); live := live s; fresh_handle := fresh_handle s |}
  | None => Undef
  end.

(** [task::valid] and [task::get_handle] *)
Definition task_valid (x : nat) (s : task_store) : outcome bool :=
  match vars s !! x with Some h => Ret (match h with Some _ => true | None => false end) | None => Undef end.
Definition task_handle (x : nat) (s : task_store) : outcome (option nat) :=
  match vars s !! x with Some h => Ret h | None => Undef end.

(** [~generator], of a generator that owns its frame as a task does *)
Definition generator_destruct (x : nat) (s : task_store) : outcome task_store :=
  match vars s !! x with
  | Some h => let* s := destroy_handle h s in Ret {| vars := delete x (vars s); live := live s; fresh_handle := fresh_handle s |}
  | None => Undef
  end.

(** A program declares variables, moves between those that exist, and ends
    their lifetime. *)
Inductive task_op :=
| op_default (x : nat) | op_call (x : nat) | op_move (x y : nat) | op_assign (x y : nat) | op_destroy (x : nat) | op_destruct (x : nat).

Definition allowed (o : task_op) (s : task_store) : Prop :=
  match o with
  | op_default x | op_call x => vars s !! x = None
  | op_move x y => vars s !! x = None /\ is_Some (vars s !! y)
  | op_assign x y => is_Some (vars s !! x) /\ is_Some (vars s !! y)
  | op_destroy x | op_destruct x => is_Some (vars s !! x)
  end.

Definition perform (o : task_op) (s : task_store) : outcome task_store :=
  match o with
  | op_default x => Ret (task_default x s)
  | op_call x => Ret (task_call x s)
  | op_move x y => task_move x y s
  | op_assign x y => task_move_assign x y s
  | op_destroy x => let* (_, s) := task_destroy x s in Ret s
  | op_destruct x => task_destruct x s
  end.

(** Every live frame has exactly one owner. *)
Record owned (s : task_store) : Prop := {
  owner_live x h : vars s !! x = Some (Some h) -> h ∈ live s;
  owner_one x y h : vars s !! x = Some (Some h) -> vars s !! y = Some (Some h) -> x = y;
  live_owner h : h ∈ live s -> exists x, vars s !! x = Some (Some h);
  live_fresh h : h ∈ live s -> (h < fresh_handle s)%nat;
}.

Lemma set_var_lookup x h s y : vars (set_var x h s) !! y = if (x =? y)%nat then Some h else vars s !! y.
Proof.
  cbn [vars set_var]. destruct (Nat.eqb_spec x y) as [->|Hne]; [by rewrite lookup_insert_eq|by rewrite lookup_insert_ne].
Qed.

(** Moving a handle from one variable to another that owns none. *)
Lemma moved_owned x y h s :
  owned s -> x <> y -> vars s !! y = Some h -> (forall g, vars s !! x <> Some (Some g)) -> owned (set_var x h (set_var y None s)).
Proof.
  intros [Hl H1 Ho Hf] Hne Hy Hx.
  assert (forall z g, vars (set_var x h (set_var y None s)) !! z = Some (Some g) -> exists w, vars s !! w = Some (Some g)
    /\ (z = x /\ w = y \/ z <> x /\ z <> y /\ w = z)) as Hback.
  { intros z g. rewrite !set_var_lookup. destruct (Nat.eqb_spec x z) as [<-|Hxz].
    - intros [= ->]. exists y. auto.
    - destruct (Nat.eqb_spec y z) as [<-|Hyz]; [done|]. intros Hz. exists z. auto. }
  split.
  - intros z g Hz. apply Hback in Hz as (w & Hw & _). by apply (Hl w).
  - intros z z' g Hz Hz'. apply Hback in Hz as (w & Hw & Hzw), Hz' as (w' & Hw' & Hzw'). pose proof (H1 _ _ _ Hw Hw'). lia.
  - intros g Hg. destruct (Ho g Hg) as [z Hz]. destruct (Nat.eq_dec z y) as [->|Hzy].
    + exists x. rewrite set_var_lookup, Nat.eqb_refl. congruence.
    + exists z. rewrite !set_var_lookup. assert (z <> x) as Hzx by (intros ->; by apply (Hx g)).
      by rewrite (proj2 (Nat.eqb_neq x z)), (proj2 (Nat.eqb_neq y z)) by done.
  - exact Hf.
Qed.

(** Destroying the frame of a variable, which is then cleared or ended. *)
Lemma released_owned x h s vs :
  owned s -> vars s !! x = Some h ->
  (forall z g, vs !! z = Some (Some g) <-> z <> x /\ vars s !! z = Some (Some g)) ->
  exists s', destroy_handle h s = Ret s' /\ vars s' = vars s /\ owned {| vars := vs; live := live s'; fresh_handle := fresh_handle s' |}.
Proof.
  intros [Hl H1 Ho Hf] Hx Hvs.
  assert (forall l, (forall g, g ∈ l <-> g ∈ live s /\ Some g <> h) -> owned {| vars := vs; live := l; fresh_handle := fresh_handle s |}) as Hw.
  { intros l Hlv. split; cbn [vars live fresh_handle].
    - intros z g [Hz Hg]%Hvs. apply Hlv. split; [by apply (Hl z)|]. intros <-. by apply Hz, (H1 _ _ g).
    - intros z z' g [_ Hz]%Hvs [_ Hz']%Hvs. by apply (H1 _ _ g).
    - intros g [Hg Hgh]%Hlv. destruct (Ho g Hg) as [z Hz]. exists z. apply Hvs. split; [intros ->; congruence|done].
    - intros g [Hg _]%Hlv. by apply Hf. }
  destruct h as [h|]; cbn [destroy_handle].
  - unfold destroy_live. rewrite decide_True by (by apply (Hl x)). eexists. split_and!; [done|done|]. apply Hw. cbn [live].
    intros g. rewrite elem_of_difference, elem_of_singleton. split; intros [? ?]; split; congruence.
  - exists s. split_and!; [done|done|]. apply Hw. intros g. split; [done|by intros []].
Qed.

(** A new variable, with a new frame or none. *)
Lemma new_owned x h s :
  owned s -> vars s !! x = None -> (forall g, h = Some g -> g = fresh_handle s) ->
  owned {| vars := <[x := h]> (vars s); live := match h with Some g => {[g]} ∪ live s | None => live s end;
           fresh_handle := match h with Some g => S g | None => fresh_handle s end |}.
Proof.
  intros [Hl H1 Ho Hf] Hx Hh. set (s' := {| vars := _ |}).
  assert (forall z g, vars s' !! z = Some (Some g) <-> z = x /\ h = Some g \/ z <> x /\ vars s !! z = Some (Some g)) as Hv.
  { intros z g. cbn [s' vars]. destruct (decide (z = x)) as [->|Hz]; [rewrite lookup_insert_eq|rewrite lookup_insert_ne by done];
      split; intros; naive_solver. }
  assert (forall g, g ∈ live s' <-> h = Some g \/ g ∈ live s) as Hlv by (intros g; cbn [s' live]; destruct h; set_solver).
  split.
  - intros z g [[_ E]|[_ E]]%Hv; apply Hlv; [by left|right; by apply (Hl z)].
  - intros z z' g [[-> E]|[Hz E]]%Hv [[-> E']|[Hz' E']]%Hv; try done; [| |by apply (H1 _ _ g)].
    + apply Hl, Hf in E'. apply Hh in E. lia.
    + apply Hl, Hf in E. apply Hh in E'. lia.
  - intros g [E|Hg]%Hlv; [exists x; apply Hv; by left|]. destruct (Ho g Hg) as [z Hz]. exists z. apply Hv. right.
    split; [intros ->; congruence|done].
  - intros g [E|Hg%Hf]%Hlv; cbn [s' fresh_handle].
    + subst h. lia.
    + destruct h as [g'|]; [|done]. rewrite (Hh g' eq_refl). lia.
Qed.

Lemma cleared x s z g : (vars (set_var x None s) !! z = Some (Some g)) <-> z <> x /\ vars s !! z = Some (Some g).
Proof. rewrite set_var_lookup. destruct (Nat.eqb_spec x z) as [->|]; naive_solver. Qed.

Lemma perform_owned o s : owned s -> allowed o s -> exists s', perform o s = Ret s' /\ owned s'.
Proof.
  intros Hs. destruct o as [x|x|x y|x y|x|x]; cbn [allowed perform].
  - intros Hx. eexists. split; [done|]. by exact (new_owned x None s Hs Hx ltac:(done)).
  - intros Hx. eexists. split; [done|]. refine (new_owned x (Some (fresh_handle s)) s Hs Hx _). by intros g [= <-].
  - intros [Hx [h Hy]]. unfold task_move. rewrite Hy. eexists. split; [done|].
    apply moved_owned; try done; [intros ->; congruence|intros g; congruence].
  - intros [[h Hx] [h' Hy]]. unfold task_move_assign. rewrite Hx, Hy. destruct (Nat.eqb_spec x y) as [->|Hne]; [by exists s|].
    destruct (released_owned x h s (vars (set_var x None s)) Hs Hx (cleared x s)) as (s' & -> & Hv & Ho). cbn [obind].
    eexists. split; [done|]. set (s1 := {| vars := _ |}) in Ho.
    replace (set_var x h' (set_var y None s')) with (set_var x h' (set_var y None s1)).
    + apply moved_owned; try done; [unfold s1; cbn [vars set_var]; by rewrite lookup_insert_ne|].
      intros g. unfold s1. cbn [vars set_var]. by rewrite lookup_insert_eq.
    + unfold s1, set_var. cbn [vars live fresh_handle]. f_equal. cbn [vars set_var]. rewrite Hv. rewrite (insert_insert_ne _ y x) by done. by rewrite insert_insert_eq.
  - intros [h Hx]. unfold task_destroy. rewrite Hx. destruct h as [h|]; [|by exists s].
    destruct (released_owned x (Some h) s (vars (set_var x None s)) Hs Hx (cleared x s)) as (s' & E & Hv & Ho).
    cbn [destroy_handle] in E. rewrite E. cbn [obind]. eexists. split; [done|]. unfold set_var. by rewrite Hv.
  - intros [h Hx]. unfold task_destruct. rewrite Hx.
    destruct (released_owned x h s (delete x (vars s)) Hs Hx) as (s' & -> & Hv & Ho).
    { intros z g. rewrite lookup_delete_Some. naive_solver. }
    cbn [obind]. eexists. split; [done|]. by rewrite Hv.
Qed.

Inductive program_run : list task_op -> task_store -> task_store -> Prop :=
| run_none s : program_run [] s s
| run_op o os s s' s'' : allowed o s -> perform o s = Ret s' -> program_run os s' s'' -> program_run (o :: os) s s''.

Definition empty_store : task_store := {| vars := ∅; live := ∅; fresh_handle := 0 |}.

Lemma empty_store_owned : owned empty_store.
Proof. split; cbn; intros; set_solver. Qed.

Lemma run_owned os s s' : owned s -> program_run os s s' -> owned s'.
Proof.
  intros Hs Hr. induction Hr as [|o os s s1 s2 Ha Hp _ IH]; [done|]. apply IH.
  destruct (perform_owned o s Hs Ha) as (s1' & E & Ho). congruence.
Qed.

(** C30: whatever a program does with its task variables (declare, call, move,
    assign, destroy, end their lifetime, in any order), no operation is
    undefined: a frame is destroyed at most once.  Every frame that is alive
    has exactly one owner, so when no variables are left no frame is. *)
Theorem task_ownership (os : list task_op) (s : task_store) :
  program_run os empty_store s ->
  (forall o, allowed o s -> returns (perform o s))
  /\ (forall h, h ∈ live s <-> exists x, vars s !! x = Some (Some h))
  /\ (forall x y h, vars s !! x = Some (Some h) -> vars s !! y = Some (Some h) -> x = y)
  /\ (vars s = ∅ -> live s = ∅).
Proof.
  intros Hr. pose proof (run_owned _ _ _ empty_store_owned Hr) as Hs. pose proof Hs as [Hl H1 Ho Hf]. split_and!.
  - intros o Ha. destruct (perform_owned o s Hs Ha) as (s' & -> & _). by eexists.
  - intros h. split; [apply Ho|by intros [x Hx%Hl]].
  - intros x y h. apply H1.
  - intros Hv. apply set_eq. intros h. split; [|set_solver]. intros [x Hx]%Ho. by rewrite Hv, lookup_empty in Hx.
Qed.

Lemma task_ownership_witness :
  let os := [op_call 0; op_call 1; op_assign 0 1; op_assign 0 0; op_destruct 1; op_destruct 0]%nat in
  let s := {| vars := ∅; live := ∅; fresh_handle := 2 |} in
  program_run os empty_store s /\ live s = ∅.
Proof.
  intros os s. assert (program_run os empty_store s) as Hr.
  { do 6 (eapply run_op; [vm_compute; repeat split; eauto|vm_compute; reflexivity|]). apply run_none. }
  split; [exact Hr|]. eapply task_ownership; [exact Hr|reflexivity].
Defined.

(** ** Generators *)

Section Generators.
Context {T : Type}.

(** The body of a generator: what it yields, and its end. *)
Inductive gen_body := g_yield (v : T) (rest : gen_body) | g_return | g_throw (e : exn).

(** [rest] is where the coroutine is suspended ([None]: done), [slot] the
    promise's variant. *)
Record generator := { full : bool; rest : option gen_body; slot : option (T + exn) }.

Definition make_generator (b : gen_body) : generator := {| full := false; rest := Some b; slot := None |}.

Definition gen_done (g : generator) : bool := match rest g with None => true | Some _ => false end.

(** [handle.resume()]: to the next [co_yield], which stores its value
    ([yield_value]), or to the end, which an exception reaches through
    [unhandled_exception]. *)
Definition gen_resume (g : generator) : outcome generator :=
  match rest g with
  | None => Undef
  | Some (g_yield v r) => Ret {| full := full g; rest := Some r; slot := Some (inl v) |}
  | Some g_return => Ret {| full := full g; rest := None; slot := slot g |}
  | Some (g_throw e) => Ret {| full := full g; rest := None; slot := Some (inr e) |}
  end.

(** [std::get<T>(value)] *)
Definition gen_value (g : generator) : outcome T :=
  match slot g with Some (inl v) => Ret v | _ => Throw bad_variant_access end.

Definition gen_begin (g : generator) : outcome generator := gen_resume g.

Definition fill (g : generator) : outcome generator :=
  if full g then Ret g
  else
    let* g := gen_resume g in
    match slot g with
    | Some (inr e) => Throw e
    | _ => Ret {| full := true; rest := rest g; slot := slot g |}
    end.

(** [operator bool] and [operator()] *)
Definition gen_bool (g : generator) : outcome (bool * generator) :=
  let* g := fill g in Ret (negb (gen_done g), g).
Definition gen_call (g : generator) : outcome (T * generator) :=
  let* g := fill g in
  let g := {| full := false; rest := rest g; slot := slot g |} in
  let* v := gen_value g in Ret (v, g).

(** [for (auto v : g)]: the values the loop visits *)
Fixpoint range_loop (fuel : nat) (g : generator) (visited : list T) : outcome (list T) :=
  match fuel with
  | O => OutOfFuel
  | S fuel =>
      if gen_done g then Ret visited
      else let* v := gen_value g in let* g := gen_resume g in range_loop fuel g (visited ++ [v])
  end.
Definition range_for (fuel : nat) (b : gen_body) : outcome (list T) :=
  let* g := gen_begin (make_generator b) in range_loop fuel g [].

(** [while (g) visit(g())] *)
Fixpoint pull_loop (fuel : nat) (g : generator) (visited : list T) : outcome (list T) :=
  match fuel with
  | O => OutOfFuel
  | S fuel =>
      let* (more, g) := gen_bool g in
      if more : bool then let* (v, g) := gen_call g in pull_loop fuel g (visited ++ [v]) else Ret visited
  end.
Definition pull_all (fuel : nat) (b : gen_body) : outcome (list T) := pull_loop fuel (make_generator b) [].

Fixpoint yields (b : gen_body) : list T := match b with g_yield v r => v :: yields r | _ => [] end.
Fixpoint ends (b : gen_body) : option exn :=
  match b with g_yield _ r => ends r | g_return => None | g_throw e => Some e end.

Lemma range_loop_spec fuel b f v visited :
  (S (length (yields b)) < fuel)%nat ->
  range_loop fuel {| full := f; rest := Some b; slot := Some (inl v) |} visited = Ret (visited ++ v :: yields b).
Proof.
  revert b v visited. induction fuel as [|fuel IH]; intros b v visited Hf; [lia|].
  cbn [range_loop gen_done rest gen_value slot obind gen_resume]. destruct b as [w r| |e]; cbn [obind yields length full] in *.
  - rewrite IH by lia. by rewrite <- app_assoc.
  - destruct fuel; [lia|]. done.
  - destruct fuel; [lia|]. done.
Qed.

Lemma pull_loop_spec fuel b sl visited :
  (forall e, sl <> Some (inr e)) -> (length (yields b) < fuel)%nat ->
  pull_loop fuel {| full := false; rest := Some b; slot := sl |} visited
  = match ends b with None => Ret (visited ++ yields b) | Some e => Throw e end.
Proof.
  revert b sl visited. induction fuel as [|fuel IH]; intros b sl visited Hsl Hf; [lia|].
  destruct b as [w r| |e]; cbn [yields ends length] in *.
  - transitivity (pull_loop fuel {| full := false; rest := Some r; slot := Some (inl w) |} (visited ++ [w])); [reflexivity|].
    rewrite IH by (done || lia). by rewrite <- app_assoc.
  - rewrite app_nil_r. destruct sl as [[v|e]|]; [done| |done]. by destruct (Hsl e).
  - done.
Qed.

Lemma range_for_yields (b : gen_body) (fuel : nat) : (S (length (yields b)) < fuel)%nat -> range_for fuel b = Ret (yields b).
Proof.
  intros Hf. unfold range_for, gen_begin, make_generator, gen_resume. cbn [rest full]. destruct b as [v r| |e]; cbn [obind yields length] in *.
  - rewrite range_loop_spec by lia. done.
  - destruct fuel; [lia|done].
  - destruct fuel; [lia|done].
Qed.

(** Both ways to read a generator visit exactly what it yields, in order,
    and end.  An exception of the body comes out of [operator bool]; a range
    [for] ends as if there had been none. *)
Lemma generator_loops (b : gen_body) (fuel : nat) :
  (S (length (yields b)) < fuel)%nat ->
  range_for fuel b = Ret (yields b)
  /\ pull_all fuel b = match ends b with None => Ret (yields b) | Some e => Throw e end.
Proof.
  intros Hf. split; [by apply range_for_yields|apply pull_loop_spec; [done|lia]].
Qed.

End Generators.

Lemma generator_loops_witness :
  range_for 5 (g_yield 1 (g_yield 2 (g_throw out_of_range))) = Ret [1; 2]
  /\ pull_all 5 (g_yield 1 (g_yield 2 (g_throw out_of_range))) = Throw out_of_range.
Proof. apply (generator_loops (g_yield 1 (g_yield 2 (g_throw out_of_range))) 5). cbn. lia. Defined.

(** Resuming a generator that is done is undefined: a second call of
    [operator()] behind the last value. *)
Example generator_overrun :
  (let* (v, g) := gen_call (make_generator (g_yield 1 g_return)) in
   let* (w, g) := gen_call g in gen_call g) = Undef.
Proof. reflexivity. Qed.
