(* ===== verification/TaskGroup.v ===== *)
(** * Task groups (include/coro/task_group.hpp)

    A group keeps the tasks that are started in it: a vector of tasks, the list
    of the indices in use with the first free position, and the positions whose
    tasks have ended and wait to be destroyed.  The positions of
    [tasks_indices] are list iterators, which stay with their element; the
    elements are distinct, so an iterator is its element, and [None] the end.
    The cleanup task that wraps each started task is a coroutine of the machine
    of [Coro], with the group as the state that coroutines share. *)

From Stdlib Require Import ZArith Lia Strings.Byte String Floats.SpecFloat.
From stdpp Require Import prelude list gmap strings relations.
From S2P Require Import Prelude Doubles Coro.

(** ** Definitions *)

Record task_group := {
  num_live_tasks : Z;
  tasks : list (option nat);
  tasks_indices : list nat;
  tasks_to_delete : list nat;
  free_pos : option nat;
  growth_factor : double;
}.

(** [reserve] allocates and does not change the size of [tasks]. *)
Definition make_task_group (reserve_size : nat) (growth : double) : task_group :=
  {| num_live_tasks := 0; tasks := []; tasks_indices := seq 0 reserve_size; tasks_to_delete := [];
     free_pos := head (seq 0 reserve_size); growth_factor := growth |}.

(** [std::next(pos)] *)
Fixpoint next_pos (pos : nat) (l : list nat) : option nat :=
  match l with
  | [] => None
  | x :: l => if (x =? pos)%nat then head l else next_pos pos l
  end.

(** The loop of [collect_garbage_internal]: the element moves to the end of the
    list, and the task is destroyed. *)
Fixpoint collect_loop (to_delete : list nat) (indices : list nat) (ts : list (option nat))
    : outcome (list nat * list (option nat)) :=
  match to_delete with
  | [] => Ret (indices, ts)
  | pos :: to_delete =>
      let* ts := store ts pos None in
      collect_loop to_delete (List.filter (fun x => negb (x =? pos)%nat) indices ++ [pos]) ts
  end.

Definition collect_garbage (g : task_group) : outcome (nat * task_group) :=
  let* (indices, ts) := collect_loop (tasks_to_delete g) (tasks_indices g) (tasks g) in
  Ret (length (tasks_to_delete g),
       {| num_live_tasks := num_live_tasks g; tasks := ts; tasks_indices := indices; tasks_to_delete := [];
          free_pos := free_pos g; growth_factor := growth_factor g |}).

(** [static_cast<std::size_t>] of a double: undefined unless it fits. *)
Definition size_of_double (d : double) : outcome nat :=
  match d with
  | S754_zero _ => Ret 0%nat
  | S754_finite false m e =>
      let n := if 0 <=? e then Z.shiftl (Z.pos m) e else Z.shiftr (Z.pos m) (- e) in
      if n <? 2 ^ 64 then Ret (Z.to_nat n) else Undef
  | _ => Undef
  end.

Definition grow (g : task_group) : outcome task_group :=
  match last (tasks_indices g) with
  | None => Undef (* [std::prev] of the only position *)
  | Some last_pos =>
      let size := length (tasks g) in
      let* new_size := size_of_double (dmul (double_of_Z (Z.of_nat size)) (growth_factor g)) in
      let indices := tasks_indices g ++ seq size (new_size - size) in
      Ret {| num_live_tasks := num_live_tasks g; tasks := take new_size (tasks g) ++ replicate (new_size - size) None;
             tasks_indices := indices; tasks_to_delete := tasks_to_delete g; free_pos := next_pos last_pos indices;
             growth_factor := growth_factor g |}
  end.

(** [start]: the cleanup task, whose handle is [h], is stored at the free
    position and resumed. *)
Definition start (h : nat) (g : task_group) : outcome task_group :=
  let g := {| num_live_tasks := u64 (num_live_tasks g + 1); tasks := tasks g; tasks_indices := tasks_indices g;
              tasks_to_delete := tasks_to_delete g; free_pos := free_pos g; growth_factor := growth_factor g |} in
  let* (_, g) := collect_garbage g in
  let* g := match free_pos g with None => grow g | Some _ => Ret g end in
  match free_pos g with
  | None => Undef
  | Some pos =>
      let* ts := store (tasks g) pos (Some h) in
      Ret {| num_live_tasks := num_live_tasks g; tasks := ts; tasks_indices := tasks_indices g;
             tasks_to_delete := tasks_to_delete g; free_pos := next_pos pos (tasks_indices g); growth_factor := growth_factor g |}
  end.

(** The end of the cleanup task *)
Definition task_finished (pos : nat) (g : task_group) : task_group :=
  {| num_live_tasks := u64 (num_live_tasks g - 1); tasks := tasks g; tasks_indices := tasks_indices g;
     tasks_to_delete := tasks_to_delete g ++ [pos]; free_pos := free_pos g; growth_factor := growth_factor g |}.

Definition group_size (g : task_group) : Z := num_live_tasks g.
Definition group_empty (g : task_group) : bool := group_size g =? 0.
Definition tasks_awaiting_deletion (g : task_group) : nat := length (tasks_to_delete g).
Definition capacity (g : task_group) : nat := length (tasks g).

(** A group never starts a task: the vector of tasks is reserved and empty, so
    the first position is out of range (and without a reserve there is no last
    position to grow from). *)
Lemma task_group_start_undefined h reserve growth : start h (make_task_group reserve growth) = Undef.
Proof. destruct reserve as [|n]; reflexivity. Qed.

Definition no_tasks_awaiting_deletion (g : task_group) : bool := (tasks_awaiting_deletion g =? 0)%nat.

(** [make_cleanup_task]: to an executor, then the task it was given, kept in the
    parameter, then the end; an exception of either ends it there. *)
Definition make_cleanup_task {V} (nothing : V) (schedule : body V task_group) (user_task pos : nat) : body V task_group :=
  co_await schedule (fun c =>
    match c with
    | done_exception e => co_throw e
    | done_value _ =>
        co_await_task (Some user_task) (fun c =>
          match c with
          | done_exception e => co_throw e
          | done_value _ => act (fun g => (nothing, task_finished pos g)) (fun _ => co_return nothing)
          end)
    end).

(** [collect_garbage_until_empty]; [yield] is what other coroutines do while it
    waits. *)
Fixpoint collect_garbage_until_empty (fuel : nat) (yield : task_group -> task_group) (g : task_group) : outcome task_group :=
  match fuel with
  | O => OutOfFuel
  | S fuel =>
      if group_empty g then Ret g
      else let* (_, g) := collect_garbage g in collect_garbage_until_empty fuel yield (yield g)
  end.

(** The loop of the destructor, while no task ends *)
Fixpoint group_destruct (fuel : nat) (g : task_group) : outcome task_group :=
  match fuel with
  | O => OutOfFuel
  | S fuel => if group_empty g then Ret g else let* (_, g) := collect_garbage g in group_destruct fuel g
  end.

(** A task that ends with an exception is not counted down (its cleanup stops at
    the await), and collecting does not change the count: then the destructor
    never returns. *)
Lemma group_destruct_hangs fuel g g' : group_empty g = false -> group_destruct fuel g <> Ret g'.
Proof.
  revert g. induction fuel as [|fuel IH]; intros g Hg; cbn [group_destruct]; [done|]. rewrite Hg. unfold collect_garbage.
  destruct (collect_loop _ _ _) as [[ixs ts]|?| | |]; try done. rewrite !bind_ret. by apply IH.
Qed.

(** The cleanup of a task: the task runs to its end, and only if it ends
    without an exception is it counted down and put on the list of those to
    destroy. *)
Lemma cleanup_counts {V} (nothing : V) (schedule user : body V task_group) h p t cont pos (m : machine V task_group) v :
  direct schedule -> direct user -> machine_ok m ->
  frames m !! h = Some {| at_point := executing; frame_promise := p |} ->
  frames m !! t = Some {| at_point := initial user; frame_promise := {| value := None; continuation := cont |} |} ->
  (eval schedule (shared m)).1 = done_value v ->
  let (c, g) := eval user (eval schedule (shared m)).2 in
  exists n m', steps n (running h (make_cleanup_task nothing schedule t pos)) m
    = Ret (running h (match c with done_value _ => co_return nothing | done_exception e => co_throw e end), m')
    /\ shared m' = match c with done_value _ => task_finished pos g | done_exception _ => g end.
Proof.
  intros Hds Hdu Hok Hh Ht Hs. set (k := fun c : completion V =>
    match c with done_exception e => co_throw e | done_value _ => act (fun g => (nothing, task_finished pos g)) (fun _ => co_return nothing) end).
  destruct (await_runs schedule h p m (fun c => match c with done_exception e => co_throw e | done_value _ => co_await_task (Some t) k end) Hds Hok Hh)
    as (n1 & m1 & E1 & Hf1 & Hs1 & Hn1). rewrite Hs in E1. rewrite <- Hs1.
  destruct (await_first h p t cont user k m1) as (n2 & m2 & E2 & Hf2 & Hs2 & _); try done; try (by rewrite Hf1).
  { intros h' f'. rewrite Hf1. intros Hl. specialize (Hok _ _ Hl). lia. }
  destruct (eval user (shared m1)) as [c g]. cbn [fst snd] in *. destruct c as [v'|e].
  - exists (n1 + (n2 + 1))%nat. eexists. split.
    + unfold make_cleanup_task. fold k. rewrite (steps_app _ _ _ _ _ _ E1), (steps_app _ _ _ _ _ _ E2). cbn [steps step k]. reflexivity.
    + cbn [shared]. by rewrite Hs2.
  - exists (n1 + n2)%nat, m2. split; [|done]. unfold make_cleanup_task. fold k. by rewrite (steps_app _ _ _ _ _ _ E1).
Qed.

(** So a task that throws leaves the group as it was, and the group cannot be
    destroyed. *)
Lemma cleanup_throws {V} (nothing : V) (schedule user : body V task_group) h p t cont pos (m : machine V task_group) v e :
  direct schedule -> direct user -> machine_ok m ->
  frames m !! h = Some {| at_point := executing; frame_promise := p |} ->
  frames m !! t = Some {| at_point := initial user; frame_promise := {| value := None; continuation := cont |} |} ->
  eval schedule (shared m) = (done_value v, shared m) -> eval user (shared m) = (done_exception e, shared m) ->
  group_empty (shared m) = false ->
  exists n m', steps n (running h (make_cleanup_task nothing schedule t pos)) m = Ret (running h (co_throw e), m')
    /\ forall fuel g', group_destruct fuel (shared m') <> Ret g'.
Proof.
  intros Hds Hdu Hok Hh Ht Hs Hu Hne.
  pose proof (cleanup_counts nothing schedule user h p t cont pos m v Hds Hdu Hok Hh Ht) as Hc. rewrite Hs in Hc. cbn [fst snd] in Hc. rewrite Hu in Hc.
  destruct (Hc eq_refl) as (n & m' & Hn & Hm'). exists n, m'. split; [done|]. intros fuel g'. rewrite Hm'. by apply group_destruct_hangs.
Qed.

(** While tasks end, the garbage is collected until none is left: one turn for
    each of them that ends while it waits. *)
Lemma collect_until_empty_ends (yield : task_group -> task_group) (rank : task_group -> nat) (good : task_group -> Prop) fuel g :
  (forall g, good g -> group_empty g = false -> exists n g1, collect_garbage g = Ret (n, g1) /\ good (yield g1) /\ (rank (yield g1) < rank g)%nat) ->
  good g -> (rank g < fuel)%nat ->
  exists g', collect_garbage_until_empty fuel yield g = Ret g' /\ group_empty g' = true.
Proof.
  intros Hstep. revert g. induction fuel as [|fuel IH]; intros g Hg Hf; [lia|]. cbn [collect_garbage_until_empty].
  destruct (group_empty g) eqn:E; [by exists g|]. destruct (Hstep g Hg E) as (n & g1 & -> & Hg1 & Hr). rewrite bind_ret.
  apply IH; [done|lia].
Qed.
