(* ===== verification/Scheduler.v ===== *)
(** * The scheduler (src/io/scheduler.cpp, include/io/scheduler.hpp)

    The list of tasks over the coroutines of [Coro].  The thread pool is its
    queue of handles and its flag ([ThreadPool] models its threads); the event
    loop and the turns of [run] are in [EpollLoop] and [KqueueLoop], with the
    race of [run] and [shutdown].  A task is its handle, or null. *)

From Stdlib Require Import ZArith Lia Strings.Byte String.
From stdpp Require Import prelude list gmap strings.
From S2P Require Import Prelude Coro.

Section Scheduler.
Context {V St : Type}.

(** ** Definitions *)

Record scheduler := { tasks : list (option nat); running : bool; jobs : list nat; pool_running : bool }.

Definition make_scheduler (pool_running : bool) : scheduler :=
  {| tasks := []; running := false; jobs := []; pool_running := pool_running |}.

(** [workers->resume(handle)] *)
Definition workers_resume (h : option nat) (s : scheduler) : bool * scheduler :=
  match h with
  | None => (false, s)
  | Some h => if pool_running s then (true, {| tasks := tasks s; running := running s; jobs := jobs s ++ [h]; pool_running := true |}) else (false, s)
  end.

(** [schedule(task)]: the task is moved to the end of the list and queued. *)
Definition schedule_task (t : option nat) (s : scheduler) : bool * scheduler :=
  workers_resume t {| tasks := tasks s ++ [t]; running := running s; jobs := jobs s; pool_running := pool_running s |}.

(** [resume(handle)] *)
Definition scheduler_resume (h : option nat) (s : scheduler) : bool * scheduler :=
  match h with
  | None => (false, s)
  | Some _ => if running s then workers_resume h s else (false, s)
  end.

(** A worker takes the first handle and resumes it. *)
Definition run_job (fuel : nat) (s : scheduler) (m : machine V St) : outcome (scheduler * machine V St) :=
  match jobs s with
  | [] => Ret (s, m)
  | h :: rest =>
      let* (c, m) := resume h m in
      let* m := run fuel c m in
      Ret ({| tasks := tasks s; running := running s; jobs := rest; pool_running := pool_running s |}, m)
  end.

(** The body of the loop of [shutdown] *)
Definition shutdown_task (fuel : nat) (t : option nat) (m : machine V St) : outcome (option nat * machine V St) :=
  match t with
  | None => Ret (None, m)
  | Some h =>
      let* (more, m) := task_resume fuel h m in
      if more : bool then Ret (Some h, m) else let* m := destroy h m in Ret (None, m)
  end.

Fixpoint shutdown_tasks (fuel : nat) (ts : list (option nat)) (m : machine V St) : outcome (list (option nat) * machine V St) :=
  match ts with
  | [] => Ret ([], m)
  | t :: ts =>
      let* (t, m) := shutdown_task fuel t m in
      let* (ts, m) := shutdown_tasks fuel ts m in
      Ret (t :: ts, m)
  end.

(** [shutdown], behind the shutdown of the event loop; it is [noexcept]. *)
Definition scheduler_shutdown (fuel : nat) (s : scheduler) (m : machine V St) : outcome (scheduler * machine V St) :=
  if running s then
    let* (ts, m) := shutdown_tasks fuel (tasks s) m in
    Ret ({| tasks := ts; running := false; jobs := jobs s; pool_running := pool_running s |}, m)
  else Ret (s, m).

(** [run_to_completion] makes and schedules the wrapper, a coroutine that awaits
    the task it keeps, calls [shutdown] and keeps the value; the handle of the
    wrapper, or the exception if the pool does not take it. *)
Definition run_to_completion_start (task : option nat) (s : scheduler) (m : machine V St) : outcome (nat * scheduler * machine V St) :=
  let wrapper := co_await_task task leaf in
  let (h, m) := call wrapper m in
  let (scheduled, s) := schedule_task (Some h) s in
  if scheduled : bool then Ret (h, s, m) else Throw (runtime_error "0").

(** The same of a task without a value. *)
Definition run_to_completion_void_start (nothing : V) (task : option nat) (s : scheduler) (m : machine V St)
    : outcome (nat * scheduler * machine V St) :=
  let wrapper := co_await_task task (fun c => match c with done_value _ => co_return nothing | done_exception e => co_throw e end) in
  let (h, m) := call wrapper m in
  let (scheduled, s) := schedule_task (Some h) s in
  if scheduled : bool then Ret (h, s, m) else Throw (runtime_error "0").

(** ** Properties *)

Definition finished (h : nat) (m : machine V St) : Prop := exists p, frames m !! h = Some {| at_point := final; frame_promise := p |}.

Lemma shutdown_finished fuel h m : finished h m -> shutdown_task fuel (Some h) m = Ret (None, with_frames (delete h (frames m)) m).
Proof.
  intros [p Hf]. unfold shutdown_task, task_resume, is_done, destroy, frame_of. rewrite Hf, !bind_ret. cbn [at_point]. rewrite !bind_ret, Hf, !bind_ret.
  cbn [negb at_point]. by rewrite Hf, !bind_ret.
Qed.

(** Tasks that have completed are destroyed, each once, and their handles
    become null; no other frame is touched. *)
Lemma shutdown_destroys fuel hs m :
  NoDup hs -> Forall (fun h => finished h m) hs ->
  exists m', shutdown_tasks fuel (Some <$> hs) m = Ret (replicate (length hs) None, m')
    /\ frames m' = filter (fun e => e.1 ∉ hs) (frames m).
Proof.
  intros Hnd. revert m. induction Hnd as [|h hs Hh Hnd IH]; intros m Hall.
  - exists m. split; [done|]. symmetry. apply map_filter_id. intros i x _. cbn. apply not_elem_of_nil.
  - apply Forall_cons in Hall as [Hf Hall]. cbn [fmap list_fmap shutdown_tasks length replicate].
    rewrite shutdown_finished by done. rewrite bind_ret.
    destruct (IH (with_frames (delete h (frames m)) m)) as (m' & E & Hfr).
    { apply Forall_forall. intros x Hx. rewrite Forall_forall in Hall. destruct (Hall x Hx) as [p Hp]. exists p. cbn.
      rewrite lookup_delete_ne by (intros ->; done). done. }
    change (list_fmap _ _ Some hs) with (Some <$> hs). rewrite E, bind_ret. exists m'. split; [done|]. rewrite Hfr. cbn.
    rewrite map_filter_delete. apply map_eq. intros i. destruct (decide (i = h)) as [->|Hne].
    + rewrite lookup_delete_eq. symmetry. apply map_lookup_filter_None_2. right. intros x _ Hx. apply Hx. by left.
    + rewrite lookup_delete_ne by done. rewrite !map_lookup_filter. destruct (frames m !! i); [|done]. cbn.
      repeat case_guard; try done; set_solver.
Qed.

(** A task that waits for another coroutine, an event of the loop included, is
    resumed as if that had completed: it gets the exception of a promise
    without a value.  A body that lets it through ends, and both frames are
    destroyed, while the loop may still hold the handle of the awaited one. *)
Lemma shutdown_resumes_waiting fuel h c k e g m :
  h <> c ->
  frames m !! h = Some {| at_point := awaiting c k; frame_promise := {| value := None; continuation := None |} |} ->
  frames m !! c = Some g -> at_point g <> executing -> value (frame_promise g) = None ->
  k (done_exception (runtime_error "return value never set, coroutine may have never been executed")) = co_throw e ->
  exists m', shutdown_task (S fuel) (Some h) m = Ret (None, m') /\ frames m' !! h = None /\ frames m' !! c = None.
Proof.
  intros Hne Hh Hc Hg Hv Hk. unfold shutdown_task, task_resume, is_done, frame_of. rewrite Hh, bind_ret. cbn [at_point]. rewrite bind_ret.
  unfold resume at 1, frame_of. rewrite Hh, bind_ret. cbn [at_point frame_promise]. rewrite Hc, bind_ret.
  unfold destroy at 1, frame_of. rewrite Hc, bind_ret. assert (promise_result (frame_promise g)
    = done_exception (runtime_error "return value never set, coroutine may have never been executed")) as -> by (unfold promise_result; by rewrite Hv).
  rewrite Hk.
  assert ((match at_point g with executing => Undef | _ => Ret (with_frames (delete c (frames m)) m) end)
    = Ret (with_frames (delete c (frames m)) m)) as -> by (by destruct (at_point g)).
  rewrite !bind_ret. cbn [run step]. unfold finish, store_completion, final_suspend, frame_of.
  assert (forall m : machine V St, run fuel resumer m = Ret m) as Hrun by (by destruct fuel).
  repeat first [progress cbn [set_frame with_frames frames at_point frame_promise continuation value negb]
               | rewrite lookup_insert_eq | rewrite bind_ret | rewrite Hrun | progress unfold destroy, frame_of].
  eexists. split; [done|]. cbn [set_frame with_frames frames]. split; [apply lookup_delete_eq|].
  rewrite lookup_delete_ne, !lookup_insert_ne by done. apply lookup_delete_eq.
Qed.

(** A task that a worker is executing is resumed a second time, which is
    undefined; so is what comes before it in the list, if that does not end. *)
Lemma shutdown_executing fuel ts h ts' p m m1 r :
  shutdown_tasks fuel ts m = Ret (r, m1) -> frames m1 !! h = Some {| at_point := executing; frame_promise := p |} ->
  shutdown_tasks fuel (ts ++ Some h :: ts') m = Undef.
Proof.
  revert m r. induction ts as [|t ts IH]; intros m r; cbn [shutdown_tasks app].
  - intros [= _ <-] Hh. unfold shutdown_task, task_resume, is_done, resume, frame_of. rewrite Hh, !bind_ret. cbn [at_point]. done.
  - intros ([t1 m2] & -> & E)%bind_Ret_inv Hh. rewrite bind_ret. apply bind_Ret_inv in E as ([ts1 m3] & E & [= _ <-]). by rewrite (IH m2 ts1).
Qed.

(** [run_to_completion] on a running scheduler: the wrapper is the last of the
    list; when it calls [shutdown] it is executing, so the shutdown, which
    comes to it after the tasks before it, is undefined. *)
Lemma run_to_completion_undefined fuel task s m h s1 m1 m2 r m3 p :
  run_to_completion_start task s m = Ret (h, s1, m1) -> running s = true ->
  shutdown_tasks fuel (tasks s) m2 = Ret (r, m3) -> frames m3 !! h = Some {| at_point := executing; frame_promise := p |} ->
  h = next_handle m /\ scheduler_shutdown fuel s1 m2 = Undef.
Proof.
  unfold run_to_completion_start, schedule_task, workers_resume. cbn [call pool_running tasks running jobs].
  destruct (pool_running s); [|done]. intros [= <- <- _] Hr Hs Hh. split; [done|]. unfold scheduler_shutdown. cbn [running tasks]. rewrite Hr.
  by rewrite (shutdown_executing fuel (tasks s) (next_handle m) [] p m2 m3 r Hs Hh).
Qed.

(** Up to there the wrapper does what it should: resumed by a worker, it runs the
    task it keeps and goes on with its value. *)
Lemma run_to_completion_awaits task t cont b s m h s1 m1 :
  task = Some t -> direct b -> machine_ok m ->
  frames m !! t = Some {| at_point := initial b; frame_promise := {| value := None; continuation := cont |} |} ->
  run_to_completion_start task s m = Ret (h, s1, m1) ->
  exists m2, resume h m1 = Ret (Coro.running h (co_await_task task leaf), m2)
    /\ exists n m3, steps n (Coro.running h (co_await_task task leaf)) m2
         = Ret (Coro.running h (leaf (eval b (shared m)).1), m3) /\ shared m3 = (eval b (shared m)).2.
Proof.
  intros -> Hd Hok Ht. unfold run_to_completion_start, schedule_task, workers_resume. cbn [call pool_running tasks running jobs].
  destruct (pool_running s); [|done]. intros [= <- _ <-]. set (h := next_handle m) in *.
  assert (t <> h) as Hne by (specialize (Hok _ _ Ht); lia). eexists. split.
  { unfold resume, frame_of. cbn [frames]. rewrite lookup_insert_eq. cbn [obind at_point frame_promise]. reflexivity. }
  set (m2 := set_frame _ _ _). destruct (await_first h {| value := None; continuation := None |} t cont b leaf m2) as (n & m3 & E & _ & Hs & _).
  - done.
  - intros h' f'. cbn. intros [[<- _]|[_ [[<- _]|[_ Hl]]%lookup_insert_Some]]%lookup_insert_Some; [lia..|]. specialize (Hok _ _ Hl). lia.
  - cbn. by rewrite lookup_insert_eq.
  - cbn. by rewrite !lookup_insert_ne.
  - change (shared m2) with (shared m) in E, Hs. exists n, m3. by split.
Qed.

(** Until the shutdown the list holds every task ever scheduled: nothing takes
    one away, and what the pool refuses stays as well. *)
Lemma tasks_kept ts s :
  tasks (fold_left (fun s t => (schedule_task t s).2) ts s) = tasks s ++ ts.
Proof.
  revert s. induction ts as [|t ts IH]; intros s; cbn [fold_left]; [by rewrite app_nil_r|]. rewrite IH.
  assert (tasks (schedule_task t s).2 = tasks s ++ [t]) as -> by (unfold schedule_task, workers_resume; destruct t; cbn; [destruct (pool_running s)|]; done).
  by rewrite <- app_assoc.
Qed.
End Scheduler.
