(* ===== verification/EpollLoop.v ===== *)
(** * The epoll event loop (src/io/epoll_loop.cpp, include/io/epoll_loop.hpp,
    src/io/poll.cpp, and the dispatching loop of src/io/scheduler.cpp)

    The kernel is a class: a state with the system calls the loop makes, and
    what is documented of them.  [epoll_event::data] is a union, modelled by its
    64 bits: a pointer, or a descriptor in the low half over a null pointer.
    [dispatch] is a generator, modelled by what it yields and how it ends
    ([gen_body]); the thread that drives it only hands coroutines over, so no
    call of the loop runs inside one of its own.  What a handle is good for is
    an argument, the coroutine frames there are: [done], [promise] and [resume]
    are undefined on an address with no frame.

    Not modelled: logging. *)

From Stdlib Require Import ZArith Lia Strings.Byte String Sorted.
From stdpp Require Import prelude list gmap strings.
From S2P Require Import Prelude CxxStrings Io Coro.

(** ** poll_op *)

Definition poll_op : Type := Z.
Definition poll_read : poll_op := 1.
Definition poll_write : poll_op := 2.
Definition poll_read_write : poll_op := Z.lor poll_read poll_write.
Definition poll_and (lhs rhs : poll_op) : poll_op := u8 (Z.land lhs rhs).
Definition poll_or (lhs rhs : poll_op) : poll_op := u8 (Z.lor lhs rhs).
Definition is_readable (op : poll_op) : bool := poll_and op poll_read =? poll_read.
Definition is_writable (op : poll_op) : bool := poll_and op poll_write =? poll_write.

(** ** The kernel *)

Definition EPOLLIN : Z := 0x1.
Definition EPOLLOUT : Z := 0x4.
Definition EPOLLERR : Z := 0x8.
Definition EPOLLHUP : Z := 0x10.
Definition EPOLLRDHUP : Z := 0x2000.
Definition EPOLLONESHOT : Z := 0x40000000.
Definition EEXIST : Z := 17.
Definition ENOENT : Z := 2.
Definition FIONREAD : Z := 0x541B.
Definition TIOCOUTQ : Z := 0x5411.

Record epoll_event := { ev_events : Z; ev_data : Z }.
Inductive ctl_op := ctl_add | ctl_del | ctl_mod.

(** A call returns zero or the [errno] it sets. *)
Class Kernel (K : Type) := {
  epoll_ctl : ctl_op -> Z -> epoll_event -> K -> Z * K;
  epoll_wait : K -> (Z + list epoll_event) * K;
  timerfd_settime : Z * Z -> K -> Z * K; (* seconds and nanoseconds *)
  eventfd_write : K -> K;
  clock_now : K -> Z * K; (* nanoseconds *)
  ioctl_int : Z -> Z -> K -> option Z;
  errno : K -> Z;
}.

(** The data of the descriptors in the interest list: a successful [epoll_ctl]
    adds or replaces one entry, and [epoll_wait] reports entries of the list. *)
Class KernelLaws (K : Type) `{Kernel K} := {
  interest : K -> list Z;
  ctl_interest op fd ev k e k' : epoll_ctl op fd ev k = (e, k') -> interest k' ⊆ ev_data ev :: interest k;
  wait_interest k evs k' : epoll_wait k = (inr evs, k') -> Forall (fun ev => ev_data ev ∈ interest k) evs;
  wait_keeps k r k' : epoll_wait k = (r, k') -> interest k' = interest k;
  settime_keeps v k e k' : timerfd_settime v k = (e, k') -> interest k' = interest k;
  write_keeps k : interest (eventfd_write k) = interest k;
  clock_keeps k t k' : clock_now k = (t, k') -> interest k' = interest k;
}.

(** ** The loop *)

Record timeout_operation := { op_handle : Z; timeout_at : Z }.

(** The descriptors, the addresses of the members [timer_fd] and
    [shutdown_fd], and the priority queue as the list of its elements in the
    order [top] and [pop] take them: latest first, by [operator<]. *)
Record epoll_loop := {
  timer_fd : Z;
  shutdown_fd : Z;
  timer_addr : Z;
  shutdown_addr : Z;
  running : bool;
  timeout_list : list timeout_operation;
}.

Definition with_timeouts (l : list timeout_operation) (p : epoll_loop) : epoll_loop :=
  {| timer_fd := timer_fd p; shutdown_fd := shutdown_fd p; timer_addr := timer_addr p; shutdown_addr := shutdown_addr p;
     running := running p; timeout_list := l |}.

(** [timeout_list.push] *)
Fixpoint push (o : timeout_operation) (l : list timeout_operation) : list timeout_operation :=
  match l with
  | [] => [o]
  | x :: l => if timeout_at x <? timeout_at o then o :: x :: l else x :: push o l
  end.

(** [io::result] *)
Record event_result := { result_count : Z; result_err : error_condition }.
Record event := { event_handle : Z; result : event_result }.

Section Loop.
Context {K : Type} `{Kernel K}.
(** The coroutine frames while a turn runs: whether the one at an address is
    done, if there is one *)
Context (frames : Z -> option bool).

Definition convert_poll_op (op : poll_op) : outcome Z :=
  if op =? poll_read then Ret EPOLLIN
  else if op =? poll_write then Ret EPOLLOUT
  else if op =? poll_read_write then Ret (Z.lor EPOLLIN EPOLLOUT)
  else Throw (runtime_error "invalid poll_op value").

Definition roughly_get_socket_buffer_size (fd : Z) (op : poll_op) (k : K) : Z :=
  let request :=
    if is_readable op then Some FIONREAD else if is_writable op then Some TIOCOUTQ else None in
  match request with
  | None => 0
  | Some request => match ioctl_int fd request k with None => 0 | Some v => u64 v end
  end.

(** The constructor, its descriptors made: [ev.data.fd = fd] over a null pointer *)
Definition make_epoll_loop (tfd sfd taddr saddr : Z) (k : K) : outcome (epoll_loop * K) :=
  let (e, k) := epoll_ctl ctl_add tfd {| ev_events := EPOLLIN; ev_data := tfd |} k in
  if negb (e =? 0) then Throw (system_error e)
  else
    let (e, k) := epoll_ctl ctl_add sfd {| ev_events := EPOLLIN; ev_data := sfd |} k in
    if negb (e =? 0) then Throw (system_error e)
    else Ret ({| timer_fd := tfd; shutdown_fd := sfd; timer_addr := taddr; shutdown_addr := saddr; running := true; timeout_list := [] |}, k).

Definition register_handle (fd : Z) (k : K) : outcome K :=
  let (e, k) := epoll_ctl ctl_add fd {| ev_events := 0; ev_data := 0 |} k in
  if negb (e =? 0) && negb (e =? EEXIST) then Throw (system_error e) else Ret k.

Definition deregister_handle (fd : Z) (k : K) : outcome K :=
  let (e, k) := epoll_ctl ctl_del fd {| ev_events := 0; ev_data := 0 |} k in
  if negb (e =? 0) && negb (e =? ENOENT) then Throw (system_error e) else Ret k.

Definition disable_events (fd : Z) (k : K) : outcome K :=
  let (e, k) := epoll_ctl ctl_mod fd {| ev_events := 0; ev_data := 0 |} k in
  if negb (e =? 0) then Throw (system_error e) else Ret k.

(** [timeout] in milliseconds; [duration_cast] truncates towards zero. *)
Definition timer_value (timeout : Z) : Z * Z :=
  let sec := Z.quot timeout 1000 in (sec, timeout * 1000000 - sec * 1000000000).

Definition update_timer (timeout : Z) (k : K) : outcome K :=
  let (e, k) := timerfd_settime (timer_value timeout) k in
  if negb (e =? 0) then Throw (system_error e) else Ret k.

(** [queue(awaiting, handle, op, timeout)] *)
Definition queue (awaiting fd : Z) (op : poll_op) (timeout : Z) (p : epoll_loop) (k : K) : outcome (epoll_loop * K) :=
  let* evs := convert_poll_op op in
  let (e, k) := epoll_ctl ctl_mod fd {| ev_events := Z.lor (Z.lor evs EPOLLONESHOT) EPOLLRDHUP; ev_data := awaiting |} k in
  if negb (e =? 0) then Throw (system_error e)
  else if 0 <? timeout then
    let (now, k) := clock_now k in
    let at_ := timeout * 1000000 + now in
    let* k := if match timeout_list p with [] => true | top :: _ => at_ <? timeout_at top end then update_timer timeout k else Ret k in
    Ret (with_timeouts (push {| op_handle := awaiting; timeout_at := at_ |} (timeout_list p)) p, k)
  else Ret (p, k).

Definition shutdown (p : epoll_loop) (k : K) : epoll_loop * K :=
  ({| timer_fd := timer_fd p; shutdown_fd := shutdown_fd p; timer_addr := timer_addr p; shutdown_addr := shutdown_addr p;
      running := false; timeout_list := timeout_list p |}, eventfd_write k).

(** The destructor: [shutdown], then the descriptors it closes. *)
Definition epoll_destruct (epoll_fd : Z) (p : epoll_loop) (k : K) : list Z * epoll_loop * K :=
  let (p, k) := shutdown p k in
  (List.filter (fun fd => negb (fd =? -1)) [epoll_fd; timer_fd p; shutdown_fd p], p, k).

(** [operation::await_ready] and [await_resume], given the promise's result *)
Definition await_ready (fd : Z) (op : poll_op) (k : K) : bool := 0 <? roughly_get_socket_buffer_size fd op k.

Definition await_resume (res : event_result) (fd : Z) (op : poll_op) (k : K) : outcome (event_result * K) :=
  let* k := match result_err res with status timed_out => disable_events fd k | _ => Ret k end in
  let count := roughly_get_socket_buffer_size fd op k in
  Ret (if 0 <? count then {| result_count := count; result_err := result_err res |} else res, k).

Definition has_event (evs flag : Z) : bool := Z.land evs flag =? flag.

(** The result that an event stands for *)
Definition event_status (ev : epoll_event) (k : K) : event_result :=
  {| result_count := 0;
     result_err :=
       if has_event (ev_events ev) EPOLLERR then errno_condition (errno k)
       else if has_event (ev_events ev) EPOLLRDHUP then status closed
       else if has_event (ev_events ev) EPOLLHUP then status closed
       else no_error |}.

(** The loop over the events: what it yields, and [dispatch_timeouts] *)
Fixpoint dispatch_events (p : epoll_loop) (k : K) (evs : list epoll_event) : list event * bool :=
  match evs with
  | [] => ([], false)
  | ev :: evs =>
      let (out, timeouts) := dispatch_events p k evs in
      if ev_data ev =? timer_addr p then (out, true)
      else if ev_data ev =? shutdown_addr p then (out, timeouts)
      else ({| event_handle := ev_data ev; result := event_status ev k |} :: out, timeouts)
  end.

(** The operations whose time has come, from the top of the queue: what is
    yielded, and what stays *)
Fixpoint expire (now : Z) (l : list timeout_operation) : outcome (list event * list timeout_operation) :=
  match l with
  | [] => Ret ([], [])
  | o :: rest =>
      if timeout_at o <=? now then
        let* (out, l) := expire now rest in
        if op_handle o =? 0 then Ret (out, l)
        else
          match frames (op_handle o) with
          | None => Undef
          | Some true => Ret (out, l)
          | Some false =>
              Ret ({| event_handle := op_handle o; result := {| result_count := 0; result_err := status timed_out |} |} :: out, l)
          end
      else Ret ([], l)
  end.

Fixpoint yield_all (evs : list event) (b : @gen_body event) : @gen_body event :=
  match evs with [] => b | e :: evs => g_yield e (yield_all evs b) end.

Definition dispatch (p : epoll_loop) (k : K) : outcome (@gen_body event * epoll_loop * K) :=
  if negb (running p) then Ret (g_return, p, k)
  else
    let (r, k) := epoll_wait k in
    match r with
    | inl e => Ret (g_throw (system_error e), p, k)
    | inr evs =>
        let (out, dispatch_timeouts) := dispatch_events p k evs in
        if dispatch_timeouts then
          let (now, k) := clock_now k in
          let* (expired, l) := expire now (timeout_list p) in
          let p := with_timeouts l p in
          match l with
          | [] => Ret (yield_all (out ++ expired) g_return, p, k)
          | top :: _ =>
              let (now, k) := clock_now k in
              match update_timer (Z.quot (timeout_at top - now) 1000000) k with
              | Ret k => Ret (yield_all (out ++ expired) g_return, p, k)
              | Throw e => Ret (yield_all (out ++ expired) (g_throw e), p, k)
              | _ => Ret (yield_all (out ++ expired) g_return, p, k)
              end
          end
        else Ret (yield_all out g_return, p, k)
    end.

Definition suspended (a : Z) : bool := match frames a with Some false => true | _ => false end.

(** The body of the loop in [scheduler::run], for each event in turn:
    [handle.promise().return_value(result)], for which there has to be a
    frame, and [workers->resume(handle)], which has a worker resume it: that is
    undefined if it is done.  The events are those whose result is in the
    promise and whose coroutine is with the workers. *)
Fixpoint hand_over (evs : list event) : outcome (list event) :=
  match evs with
  | [] => Ret []
  | ev :: evs => if suspended (event_handle ev) then let* evs := hand_over evs in Ret (ev :: evs) else Undef
  end.

(** One turn of [scheduler::run]: the range [for] over [dispatch()], with the
    events that were handed over.  At most 16 come from the kernel, and
    one for each timeout. *)
Definition run_turn (p : epoll_loop) (k : K) : outcome (list event * epoll_loop * K) :=
  let* (b, p, k) := dispatch p k in
  let* evs := range_for (2 + length (yields b)) b in
  let* evs := hand_over evs in
  Ret (evs, p, k).

(** The event for the coroutine at address [a], from the turns of the scheduler
    while no other coroutine does anything *)
Fixpoint wait_for (fuel : nat) (a : Z) (p : epoll_loop) (k : K) : outcome (event_result * epoll_loop * K) :=
  match fuel with
  | O => OutOfFuel
  | S fuel =>
      let* (evs, p, k) := run_turn p k in
      match List.find (fun ev => event_handle ev =? a) evs with
      | Some ev => Ret (result ev, p, k)
      | None => wait_for fuel a p k
      end
  end.

(** [co_await operation{this, handle, op, timeout}] of [epoll_loop::queue],
    which [scheduler::schedule] returns.  When [await_ready] holds,
    [await_suspend] has not set [awaiting], and [await_resume] asks a null
    handle for its promise. *)
Definition epoll_schedule (fuel : nat) (a fd : Z) (op : poll_op) (timeout : Z) (p : epoll_loop) (k : K) : outcome (event_result * epoll_loop * K) :=
  if await_ready fd op k then Undef
  else
    let* (p, k) := queue a fd op timeout p k in
    let* (res, p, k) := wait_for fuel a p k in
    let* (res, k) := await_resume res fd op k in
    Ret (res, p, k).

Lemma hand_over_spec evs : hand_over evs = if forallb (fun ev => suspended (event_handle ev)) evs then Ret evs else Undef.
Proof.
  induction evs as [|ev evs IH]; cbn [hand_over forallb]; [done|]. destruct (suspended _); [|done]. rewrite IH. by destruct (forallb _ evs).
Qed.

Lemma hand_over_same evs evs' : hand_over evs = Ret evs' -> evs' = evs.
Proof. rewrite hand_over_spec. destruct (forallb _ evs); [|done]. by intros [= <-]. Qed.

End Loop.

(** ** What is registered *)

Section Registered.
Context {K : Type} `{KernelLaws K}.

(** The states the loop reaches; [frame] are the addresses of the coroutines
    that are queued.  Frames come and go between the turns. *)
Inductive reachable (frame : Z -> Prop) : epoll_loop -> K -> Prop :=
| reach_make tfd sfd taddr saddr k p k' :
    interest k = [] -> make_epoll_loop tfd sfd taddr saddr k = Ret (p, k') -> reachable frame p k'
| reach_register fd p k k' : reachable frame p k -> register_handle fd k = Ret k' -> reachable frame p k'
| reach_deregister fd p k k' : reachable frame p k -> deregister_handle fd k = Ret k' -> reachable frame p k'
| reach_disable fd p k k' : reachable frame p k -> disable_events fd k = Ret k' -> reachable frame p k'
| reach_queue a fd op timeout p k p' k' :
    reachable frame p k -> frame a -> queue a fd op timeout p k = Ret (p', k') -> reachable frame p' k'
| reach_shutdown p k : reachable frame p k -> reachable frame (shutdown p k).1 (shutdown p k).2
| reach_turn frames p k evs p' k' : reachable frame p k -> run_turn frames p k = Ret (evs, p', k') -> reachable frame p' k'.

(** What a descriptor is registered with. *)
Definition known (frame : Z -> Prop) (p : epoll_loop) (d : Z) : Prop :=
  frame d \/ d = 0 \/ d = timer_fd p \/ d = shutdown_fd p.

Definition same_fds (p p' : epoll_loop) : Prop := timer_fd p' = timer_fd p /\ shutdown_fd p' = shutdown_fd p.

Lemma known_same frame p p' d : same_fds p p' -> known frame p d -> known frame p' d.
Proof. unfold known. by intros [-> ->]. Qed.

Lemma ctl_known frame p op fd ev k e k' :
  epoll_ctl op fd ev k = (e, k') -> known frame p (ev_data ev) -> Forall (known frame p) (interest k) -> Forall (known frame p) (interest k').
Proof.
  intros E Hev Hk. apply Forall_forall. intros d Hd. apply (ctl_interest _ _ _ _ _ _ E) in Hd.
  apply elem_of_cons in Hd as [->|Hd]; [done|]. by apply (proj1 (Forall_forall _ _) Hk).
Qed.

Lemma ctl_zero frame p op fd k e k' :
  epoll_ctl op fd {| ev_events := 0; ev_data := 0 |} k = (e, k') -> Forall (known frame p) (interest k) -> Forall (known frame p) (interest k').
Proof. intros E. eapply ctl_known; [exact E|]. right. by left. Qed.

Lemma update_timer_keeps t k k' : update_timer t k = Ret k' -> interest k' = interest k.
Proof.
  unfold update_timer. destruct (timerfd_settime (timer_value t) k) as [e k1] eqn:E. apply settime_keeps in E.
  destruct (negb (e =? 0)); [done|]. by intros [= <-].
Qed.

Lemma dispatch_keeps frames p k b p' k' : dispatch frames p k = Ret (b, p', k') -> interest k' = interest k /\ same_fds p p'.
Proof.
  unfold dispatch. destruct (negb (running p)); [by intros [= _ <- <-]|].
  destruct (epoll_wait k) as [r k1] eqn:Ew. apply wait_keeps in Ew.
  destruct r as [e|evs]; [by intros [= _ <- <-]|]. destruct (dispatch_events p k1 evs) as [out [|]]; [|by intros [= _ <- <-]].
  destruct (clock_now k1) as [now k2] eqn:Ec. apply clock_keeps in Ec. intros E. apply bind_Ret_inv in E as ([ex l] & _ & E). revert E.
  destruct l as [|top l]; [intros [= _ <- <-]; split; [congruence|done]|].
  destruct (clock_now k2) as [now' k3] eqn:Ec'. apply clock_keeps in Ec'.
  destruct (update_timer _ k3) as [k4|e| | |] eqn:Eu; intros [= _ <- <-]; (split; [|done]); try congruence.
  apply update_timer_keeps in Eu. congruence.
Qed.

Lemma queue_keeps frame a fd op timeout p k p' k' :
  frame a -> queue a fd op timeout p k = Ret (p', k') -> Forall (known frame p) (interest k) ->
  Forall (known frame p') (interest k').
Proof.
  intros Ha E Hk. unfold queue in E. apply bind_Ret_inv in E as (evs & _ & E).
  destruct (epoll_ctl _ _ _ k) as [e k1] eqn:Ec. apply (ctl_known frame p) in Ec; [|by left|done].
  destruct (negb (e =? 0)); [done|]. destruct (0 <? timeout); [|by injection E as <- <-].
  destruct (clock_now k1) as [now k2] eqn:En. apply clock_keeps in En.
  apply bind_Ret_inv in E as (k3 & Eu & E). injection E as <- <-. assert (interest k3 = interest k2) as ->.
  { destruct (match timeout_list p with [] => true | _ :: _ => _ end); [by apply update_timer_keeps in Eu|by injection Eu as <-]. }
  rewrite En. done.
Qed.

Lemma reachable_known frame p k : reachable frame p k -> Forall (known frame p) (interest k).
Proof.
  induction 1 as [tfd sfd taddr saddr k p k' Hk E|fd p k k' _ IH E|fd p k k' _ IH E|fd p k k' _ IH E|a fd op timeout p k p' k' _ IH Ha E
    |p k _ IH|frames p k evs p' k' _ IH E].
  - unfold make_epoll_loop in E. destruct (epoll_ctl ctl_add tfd _ k) as [e1 k1] eqn:E1. destruct (negb (e1 =? 0)); [done|].
    destruct (epoll_ctl ctl_add sfd _ k1) as [e2 k2] eqn:E2. destruct (negb (e2 =? 0)); [done|]. injection E as <- <-.
    apply (ctl_known frame _ _ _ _ _ _ _ E2); [cbn; unfold known; tauto|]. apply (ctl_known frame _ _ _ _ _ _ _ E1); [cbn; unfold known; tauto|].
    by rewrite Hk.
  - unfold register_handle in E. destruct (epoll_ctl _ _ _ k) as [e k1] eqn:E1. apply (ctl_zero frame p) in E1; [|done].
    destruct (_ && _); [done|]. by injection E as <-.
  - unfold deregister_handle in E. destruct (epoll_ctl _ _ _ k) as [e k1] eqn:E1. apply (ctl_zero frame p) in E1; [|done].
    destruct (_ && _); [done|]. by injection E as <-.
  - unfold disable_events in E. destruct (epoll_ctl _ _ _ k) as [e k1] eqn:E1. apply (ctl_zero frame p) in E1; [|done].
    destruct (negb _); [done|]. by injection E as <-.
  - by eapply queue_keeps.
  - cbn. rewrite write_keeps. eapply Forall_impl; [exact IH|]. intros d. by apply known_same.
  - unfold run_turn in E. apply bind_Ret_inv in E as ([[b p1] k1] & Ed & E). apply bind_Ret_inv in E as (l & _ & E).
    apply bind_Ret_inv in E as (l' & _ & E). injection E as <- <- <-.
    apply dispatch_keeps in Ed as [-> Hs]. eapply Forall_impl; [exact IH|]. intros d. by apply known_same.
Qed.

Lemma dispatch_events_all p k evs :
  Forall (fun ev => ev_data ev <> timer_addr p /\ ev_data ev <> shutdown_addr p) evs ->
  dispatch_events p k evs = (map (fun ev => {| event_handle := ev_data ev; result := event_status ev k |}) evs, false).
Proof.
  induction 1 as [|ev evs [H1 H2] _ IH]; [done|]. cbn [dispatch_events map]. rewrite IH.
  by rewrite (proj2 (Z.eqb_neq _ _) H1), (proj2 (Z.eqb_neq _ _) H2).
Qed.

Lemma yields_all evs b : yields (yield_all evs b) = evs ++ yields b.
Proof. induction evs as [|e evs IH]; cbn; congruence. Qed.

(** C33: in every state the loop reaches, [dispatch] yields one event for each
    entry the kernel reports ready, in their order and with the error their
    flags stand for, and never a timeout.  The turn ends, with their results in
    the promises and the coroutines with the workers, if each handle is the
    address of a suspended coroutine, and is undefined otherwise.  A handle is
    a queued coroutine, null (a descriptor registered and not queued), or one of
    the numbers of the timer and shutdown descriptors: the registration stores
    the descriptor and [dispatch] compares with the address of the member, so
    those are taken for coroutines.  Where there is no frame at these, a turn in
    which one of them is ready is undefined.  A failure of [epoll_wait] is lost
    in the range [for]. *)
Theorem epoll_turn (frame : Z -> Prop) (frames : Z -> option bool) (p : epoll_loop) (k : K) :
  reachable frame p k -> running p = true -> ~ known frame p (timer_addr p) -> ~ known frame p (shutdown_addr p) ->
  match epoll_wait k with
  | (inr evs, k') =>
      let out := map (fun ev => {| event_handle := ev_data ev; result := event_status ev k' |}) evs in
      dispatch frames p k = Ret (yield_all out g_return, p, k')
      /\ run_turn frames p k = (if forallb (fun ev => suspended frames (ev_data ev)) evs then Ret (out, p, k') else Undef)
      /\ Forall (fun ev => known frame p (ev_data ev)) evs
      /\ Forall (fun ev => result_err (result ev) <> status timed_out) out
      /\ (frames 0 = None -> frames (timer_fd p) = None -> frames (shutdown_fd p) = None ->
          Exists (fun ev => ~ frame (ev_data ev)) evs -> run_turn frames p k = Undef)
  | (inl e, k') => run_turn frames p k = Ret ([], p, k')
  end.
Proof.
  intros Hr Hrun Ht Hs. apply reachable_known in Hr. unfold run_turn, dispatch. rewrite Hrun. cbn [negb].
  destruct (epoll_wait k) as [[e|evs] k'] eqn:Ew; [done|].
  assert (Forall (fun ev => known frame p (ev_data ev)) evs) as Hk.
  { eapply Forall_impl; [exact (wait_interest _ _ _ Ew)|]. intros ev Hev. by apply (proj1 (Forall_forall _ _) Hr). }
  rewrite dispatch_events_all by (eapply Forall_impl; [exact Hk|]; intros ev Hev; split; intros E; [apply Ht|apply Hs]; rewrite <- E; exact Hev).
  cbn zeta. set (out := map _ evs).
  assert (forallb (fun ev => suspended frames (event_handle ev)) out = forallb (fun ev => suspended frames (ev_data ev)) evs) as Hout.
  { unfold out. clear. induction evs as [|ev evs IH]; cbn; congruence. }
  cbn [obind]. rewrite range_for_yields by lia. cbn [obind]. rewrite yields_all. cbn [yields]. rewrite app_nil_r, hand_over_spec, Hout.
  split_and!; [done|by destruct (forallb _ evs)|done| |].
  - unfold out. apply Forall_map, Forall_true. intros ev. cbn. repeat case_match; congruence.
  - intros Hnull Htf Hsf Hex. assert (forallb (fun ev => suspended frames (ev_data ev)) evs = false) as ->; [|done].
    apply not_true_iff_false. rewrite forallb_forall. intros Hall. apply Exists_exists in Hex as (ev & Hin & Hnf).
    pose proof (proj1 (Forall_forall _ _) Hk ev Hin) as Hkn. specialize (Hall ev (proj1 (list_elem_of_In _ _) Hin)).
    unfold suspended in Hall. destruct Hkn as [Hf|[E|[E|E]]]; [done|rewrite E in Hall..].
    + by rewrite Hnull in Hall.
    + by rewrite Htf in Hall.
    + by rewrite Hsf in Hall.
Qed.

End Registered.

(** ** A kernel, for the examples: every registered descriptor is ready; it
    records the entries, the time and what the timer was last set to. *)

Record sample_kernel := { entries : list (Z * Z); time : Z; timer : Z * Z }.

Definition set_entries (l : list (Z * Z)) (k : sample_kernel) : sample_kernel := {| entries := l; time := time k; timer := timer k |}.

#[local] Instance sample_Kernel : Kernel sample_kernel := {
  epoll_ctl op fd ev k :=
    match op with
    | ctl_add => (0, set_entries ((fd, ev_data ev) :: entries k) k)
    | ctl_mod => (0, set_entries ((fd, ev_data ev) :: List.filter (fun e => negb (e.1 =? fd)) (entries k)) k)
    | ctl_del => (0, set_entries (List.filter (fun e => negb (e.1 =? fd)) (entries k)) k)
    end;
  epoll_wait k := (inr (map (fun e => {| ev_events := EPOLLIN; ev_data := e.2 |}) (entries k)), k);
  timerfd_settime v k := (0, {| entries := entries k; time := time k; timer := v |});
  eventfd_write k := k;
  clock_now k := (time k, k);
  ioctl_int fd r k := Some 0;
  errno k := 0;
}.

#[local] Instance sample_KernelLaws : KernelLaws sample_kernel.
Proof.
  assert (forall fd (l : list (Z * Z)), map snd (List.filter (fun e => negb (e.1 =? fd)) l) ⊆ map snd l) as Hf.
  { intros fd l d. induction l as [|e l IH]; cbn; [done|]. destruct (negb _); cbn; set_solver. }
  refine {| interest k := map snd (entries k) |}; cbn.
  - intros op fd ev k e k'. destruct op; intros [= _ <-]; cbn; specialize (Hf fd (entries k)); set_solver.
  - intros k evs k' [= <- _]. apply Forall_map, Forall_forall. intros e He. cbn. by apply list_elem_of_fmap_2.
  - by intros k r k' [= _ <-].
  - by intros v k e k' [= _ <-].
  - done.
  - by intros k t k' [= _ <-].
Defined.

Definition kernel0 : sample_kernel := {| entries := []; time := 0; timer := (0, 0) |}.

(** A coroutine at address 4096 waits for descriptor 7, which is ready; the
    timer is 4 and the shutdown descriptor 5, and the kernel reports all three.
    Without the other two the coroutine is handed over. *)
Definition one_frame (a : Z) : option bool := if a =? 4096 then Some false else None.

Lemma epoll_turn_witness :
  let k := {| entries := [(7, 4096); (5, 5); (4, 4)]; time := 0; timer := (0, 0) |} in
  let k7 := {| entries := [(7, 4096)]; time := 0; timer := (0, 0) |} in
  let p := {| timer_fd := 4; shutdown_fd := 5; timer_addr := 1000; shutdown_addr := 1004; running := true; timeout_list := [] |} in
  run_turn one_frame p k = Undef
  /\ run_turn one_frame p k7 = Ret ([{| event_handle := 4096; result := {| result_count := 0; result_err := no_error |} |}], p, k7).
Proof.
  intros k k7 p. assert (reachable (K := sample_kernel) (fun a => a = 4096) p k) as Hr.
  { eapply (reach_queue _ 4096 7 poll_read 0 p {| entries := [(7, 0); (5, 5); (4, 4)]; time := 0; timer := (0, 0) |}); [|reflexivity|reflexivity].
    eapply (reach_register _ 7 p {| entries := [(5, 5); (4, 4)]; time := 0; timer := (0, 0) |}); [|reflexivity].
    by apply (reach_make _ 4 5 1000 1004 kernel0). }
  assert (reachable (K := sample_kernel) (fun a => a = 4096) p k7) as Hr7.
  { eapply (reach_deregister _ 4 p {| entries := [(7, 4096); (4, 4)]; time := 0; timer := (0, 0) |}); [|reflexivity].
    eapply (reach_deregister _ 5); [exact Hr|reflexivity]. }
  assert (~ known (fun a => a = 4096) p 1000 /\ ~ known (fun a => a = 4096) p 1004) as [H1 H2] by (unfold known; cbn; lia).
  pose proof (epoll_turn (K := sample_kernel) _ one_frame p k Hr eq_refl H1 H2) as Ht. cbn [epoll_wait sample_Kernel] in Ht.
  pose proof (epoll_turn (K := sample_kernel) _ one_frame p k7 Hr7 eq_refl H1 H2) as Ht7. cbn [epoll_wait sample_Kernel] in Ht7.
  split; [|exact (proj1 (proj2 Ht7))].
  apply Ht; try reflexivity. right. left. cbn. lia.
Defined.

(** The timer is set exactly: seconds and nanoseconds of a time that is not
    negative. *)
Lemma timer_value_exact t : 0 <= t ->
  let (sec, nsec) := timer_value t in 0 <= sec /\ 0 <= nsec < 1000000000 /\ sec * 1000000000 + nsec = t * 1000000.
Proof. intros Ht. unfold timer_value. rewrite Z.quot_div_nonneg by lia. lia_div. Qed.

(** The queue gives out the latest timeout first: with 10 ms and 100 ms
    waiting, a third operation of 50 ms sets the timer back from 10 ms. *)
Example timer_forgets_earliest :
  exists p k p' k',
    (let* (p, k) := queue 1 7 poll_read 100 {| timer_fd := 4; shutdown_fd := 5; timer_addr := 1000; shutdown_addr := 1004;
                                              running := true; timeout_list := [] |} kernel0 in
     queue 2 8 poll_read 10 p k) = Ret (p, k)
    /\ timer k = (0, 10000000) /\ map timeout_at (timeout_list p) = [100000000; 10000000]
    /\ queue 3 9 poll_read 50 p k = Ret (p', k') /\ timer k' = (0, 50000000).
Proof. do 4 eexists. split_and!; reflexivity. Qed.
