(* ===== verification/KqueueLoop.v ===== *)
(** * The kqueue event loop (src/io/kqueue_loop.cpp, include/io/kqueue_loop.hpp),
    and the end of [scheduler::run] and [scheduler::shutdown]

    The kernel is a class, as in [EpollLoop]: [kevent] changes the list of
    registered events, or waits for some of them.  [dispatch] is a generator,
    modelled by what it yields and how it ends.  The coroutine frames there are
    while a turn runs are an argument, as in [EpollLoop]; they do not change
    during the turn, in which a worker may already run a coroutine that was
    handed over.

    Not modelled: logging. *)

From Stdlib Require Import ZArith Lia Strings.Byte String.
From stdpp Require Import prelude list strings.
From S2P Require Import Prelude CxxStrings Io Coro EpollLoop.

(** ** The kernel *)

Definition EVFILT_READ : Z := -1.
Definition EVFILT_WRITE : Z := -2.
Definition EVFILT_TIMER : Z := -7.
Definition EVFILT_USER : Z := -10.
Definition EV_ADD : Z := 0x1.
Definition EV_ONESHOT : Z := 0x10.
Definition EV_CLEAR : Z := 0x20.
Definition EV_DISPATCH : Z := 0x80.
Definition EV_ERROR : Z := 0x4000.
Definition EV_EOF : Z := 0x8000.
Definition NOTE_TRIGGER : Z := 0x01000000.
Definition NOTE_NSECONDS : Z := 0x4.
Definition NOTE_ABSOLUTE : Z := 0x8.
Definition NOTE_CRITICAL : Z := 0x20.

Record kevent := { ident : Z; filter : Z; flags : Z; fflags : Z; data : Z; udata : Z }.

(** A call returns zero or the [errno] it sets. *)
Class KQueue (K : Type) := {
  kevent_change : list kevent -> K -> Z * K;
  kevent_wait : nat -> K -> (Z + list kevent) * K;
  kqueue_now : K -> Z * K; (* nanoseconds *)
}.

(** The registered events: a change adds to them, and waiting reports some of
    them, as many as there is room for, with the filter and the [udata] they
    were registered with. *)
Definition same_registration (e r : kevent) : Prop := filter e = filter r /\ udata e = udata r.

Class KQueueLaws (K : Type) `{KQueue K} := {
  registered : K -> list kevent;
  change_registered evs k e k' : kevent_change evs k = (e, k') -> registered k' ⊆ evs ++ registered k;
  wait_registered n k evs k' :
    kevent_wait n k = (inr evs, k') -> Forall (fun e => exists r, r ∈ registered k /\ same_registration e r) evs;
  wait_room n k evs k' : kevent_wait n k = (inr evs, k') -> (length evs <= n)%nat;
  wait_keeps_registered n k r k' : kevent_wait n k = (r, k') -> registered k' ⊆ registered k;
  now_keeps_registered k t k' : kqueue_now k = (t, k') -> registered k' = registered k;
}.

(** ** The loop *)

Definition shutdown_ident : Z := 0x65786974.

Record kqueue_loop := { kq_running : bool; descriptor : Z; timeout_id : Z }.

Definition is_set (v : Z) : bool := 0 <? v.

Section Loop.
Context {K : Type} `{KQueue K}.
Context (frames : Z -> option bool).

Definition shutdown_event : kevent :=
  {| ident := shutdown_ident; filter := EVFILT_USER;
     flags := Z.lor EV_ADD (Z.lor EV_DISPATCH (Z.lor EV_ONESHOT EV_CLEAR)); fflags := 0; data := 0; udata := 0 |}.

(** The constructor; [kqueue()] gave a descriptor, or -1 and [err]. *)
Definition make_kqueue_loop (kq err : Z) (k : K) : outcome (kqueue_loop * K) :=
  if kq =? -1 then Throw (system_error err)
  else
    let (e, k) := kevent_change [shutdown_event] k in
    if negb (e =? 0) then Throw (system_error e)
    else Ret ({| kq_running := true; descriptor := kq; timeout_id := 1 |}, k).

(** [register_handle] and [deregister_handle] do nothing. *)
Definition kq_register_handle (fd : Z) (k : K) : outcome K := Ret k.
Definition kq_deregister_handle (fd : Z) (k : K) : outcome K := Ret k.

Definition make_io_kevent (awaiting fd filt : Z) : kevent :=
  {| ident := u64 fd; filter := filt;
     flags := Z.lor EV_ADD (Z.lor EV_DISPATCH (Z.lor EV_ONESHOT (Z.lor EV_CLEAR EV_EOF)));
     fflags := 0; data := 0; udata := awaiting |}.

(** [timeout] in milliseconds; each [clock::now()] reads the clock again. *)
Definition make_timeout_kevent (awaiting timeout : Z) (p : kqueue_loop) (k : K) : kevent * kqueue_loop * K :=
  let (now, k) := kqueue_now k in
  let expires_at := timeout * 1000000 + now in
  let (now, k) := kqueue_now k in
  let (expires_at, k) := if expires_at <? now then kqueue_now k else (expires_at, k) in
  ({| ident := timeout_id p; filter := EVFILT_TIMER; flags := Z.lor EV_ADD EV_ONESHOT;
      fflags := Z.lor NOTE_ABSOLUTE NOTE_CRITICAL; data := expires_at; udata := awaiting |},
   {| kq_running := kq_running p; descriptor := descriptor p; timeout_id := u64 (timeout_id p + 1) |}, k).

(** [queue(awaiting, fd, op, timeout)]: a failure is only logged. *)
Definition kq_queue (awaiting fd : Z) (op : poll_op) (timeout : Z) (p : kqueue_loop) (k : K) : kqueue_loop * K :=
  let evs := if is_readable op then [make_io_kevent awaiting fd EVFILT_READ] else [] in
  let evs := evs ++ if is_writable op then [make_io_kevent awaiting fd EVFILT_WRITE] else [] in
  let '(evs, p, k) :=
    if is_set timeout then
      let '(ev, p, k) := make_timeout_kevent awaiting timeout p k in (evs ++ [ev], p, k)
    else (evs, p, k) in
  if descriptor p =? -1 then (p, k)
  else let (_, k) := kevent_change evs k in (p, k).

Definition flag_set (flags flag : Z) : bool := negb (Z.land flags flag =? 0).

Definition kevent_result (ev : kevent) : event_result :=
  if flag_set (flags ev) EV_ERROR then {| result_count := 0; result_err := errno_condition (data ev) |}
  else
    {| result_count := u64 (data ev);
       result_err :=
         if filter ev =? EVFILT_TIMER then make_error_condition timed_out
         else if (filter ev =? EVFILT_READ) || (filter ev =? EVFILT_WRITE) then
           if flag_set (flags ev) EV_EOF then
             if negb (fflags ev =? 0) then errno_condition (fflags ev) else make_error_condition closed
           else no_error
         else no_error |}.

(** [handle.done()] is undefined if there is no frame. *)
Definition translate_kevent (ev : kevent) : outcome (option event) :=
  match frames (udata ev) with
  | None => Undef
  | Some true => Ret None
  | Some false => Ret (Some {| event_handle := udata ev; result := kevent_result ev |})
  end.

(** The loop over the events: what it yields, and [notify_shutdown] *)
Fixpoint kq_dispatch_events (evs : list kevent) : outcome (list event * bool) :=
  match evs with
  | [] => Ret ([], false)
  | kev :: evs =>
      if filter kev =? EVFILT_USER then
        let* (out, notify_shutdown) := kq_dispatch_events evs in
        if ident kev =? shutdown_ident then Ret (out, true) else Ret (out, notify_shutdown)
      else
        let* translated := translate_kevent kev in
        let* (out, notify_shutdown) := kq_dispatch_events evs in
        match translated with
        | Some ev => Ret (ev :: out, notify_shutdown)
        | None => Ret (out, notify_shutdown)
        end
  end.

Definition kq_stop (p : kqueue_loop) : kqueue_loop :=
  {| kq_running := false; descriptor := descriptor p; timeout_id := timeout_id p |}.

(** [dispatch]: an error is only logged; with no events and [running] cleared
    meanwhile there is nothing to yield. *)
Definition kq_dispatch (p : kqueue_loop) (k : K) : outcome (@gen_body event * kqueue_loop * K) :=
  if (descriptor p =? -1) || negb (kq_running p) then Ret (g_return, p, k)
  else
    let (r, k) := kevent_wait 16 k in
    match r with
    | inl _ => Ret (g_return, p, k)
    | inr evs =>
        let* (out, notify_shutdown) := kq_dispatch_events evs in
        Ret (yield_all out g_return, if notify_shutdown then kq_stop p else p, k)
    end.

(** A turn of [scheduler::run] over this loop *)
Definition kq_run_turn (p : kqueue_loop) (k : K) : outcome (list event * kqueue_loop * K) :=
  let* (b, p, k) := kq_dispatch p k in
  let* evs := range_for (2 + length (yields b)) b in
  let* evs := hand_over frames evs in
  Ret (evs, p, k).

(** The event for the coroutine at address [a], while no other one does anything *)
Fixpoint kq_wait_for (fuel : nat) (a : Z) (p : kqueue_loop) (k : K) : outcome (event_result * kqueue_loop * K) :=
  match fuel with
  | O => OutOfFuel
  | S fuel =>
      let* (evs, p, k) := kq_run_turn p k in
      match List.find (fun ev => event_handle ev =? a) evs with
      | Some ev => Ret (result ev, p, k)
      | None => kq_wait_for fuel a p k
      end
  end.

(** [co_await operation{this, fd, op, timeout}] of [kqueue_loop::queue]: it is
    never ready, and resumes with the result in the promise. *)
Definition kq_schedule (fuel : nat) (a fd : Z) (op : poll_op) (timeout : Z) (p : kqueue_loop) (k : K) : outcome (event_result * kqueue_loop * K) :=
  let (p, k) := kq_queue a fd op timeout p k in kq_wait_for fuel a p k.

Definition trigger_shutdown : kevent :=
  {| ident := shutdown_ident; filter := EVFILT_USER; flags := 0; fflags := NOTE_TRIGGER; data := 0; udata := 0 |}.

(** [shutdown]: the flag says that it waits for [running] to become false. *)
Definition kq_shutdown (p : kqueue_loop) (k : K) : bool * kqueue_loop * K :=
  if negb (kq_running p) then (false, p, k)
  else
    let (e, k) := kevent_change [trigger_shutdown] k in
    if negb (e =? 0) then (false, kq_stop p, k) else (true, p, k).

(** The destructor: [shutdown], then the descriptors it closes. *)
Definition kq_destruct (p : kqueue_loop) (k : K) : bool * list Z * kqueue_loop * K :=
  let '(waits, p, k) := kq_shutdown p k in
  (waits, if descriptor p =? -1 then [] else [descriptor p], p, k).

(** What a turn hands over of the events the kernel reports *)
Definition deliver (e : kevent) : option event :=
  if (filter e =? EVFILT_USER) || negb (suspended frames (udata e)) then None
  else Some {| event_handle := udata e; result := kevent_result e |}.

Definition has_frame (a : Z) : bool := match frames a with Some _ => true | None => false end.

(** The loop's own events need no frame. *)
Definition answerable (e : kevent) : bool := (filter e =? EVFILT_USER) || has_frame (udata e).

Definition is_shutdown (e : kevent) : bool := (filter e =? EVFILT_USER) && (ident e =? shutdown_ident).

Lemma kq_dispatch_events_spec evs :
  kq_dispatch_events evs = if forallb answerable evs then Ret (omap deliver evs, existsb is_shutdown evs) else Undef.
Proof.
  induction evs as [|e evs IH]; [done|]. cbn [kq_dispatch_events omap list_omap existsb forallb]. rewrite IH.
  unfold translate_kevent. replace (deliver e) with (if (filter e =? EVFILT_USER) || negb (suspended frames (udata e)) then None
    else Some {| event_handle := udata e; result := kevent_result e |}) by done.
  replace (is_shutdown e) with ((filter e =? EVFILT_USER) && (ident e =? shutdown_ident)) by done.
  replace (answerable e) with ((filter e =? EVFILT_USER) || has_frame (udata e)) by done. unfold has_frame, suspended.
  destruct (filter e =? EVFILT_USER); cbn [orb andb]; [destruct (forallb _ evs); [|done]; by destruct (ident e =? shutdown_ident)|].
  destruct (frames (udata e)) as [[|]|]; [by destruct (forallb _ evs)..|done].
Qed.

Lemma deliver_suspended evs : hand_over frames (omap deliver evs) = Ret (omap deliver evs).
Proof.
  rewrite hand_over_spec. rewrite (proj2 (forallb_forall _ _)); [done|]. intros ev Hin.
  apply list_elem_of_In, list_elem_of_omap in Hin as (e & _ & He). unfold deliver in He.
  destruct (_ || _) eqn:E; [done|]. injection He as <-. cbn. by apply orb_false_iff in E as [_ E%negb_false_iff].
Qed.

Lemma kq_run_turn_spec p k :
  kq_run_turn p k =
    if (descriptor p =? -1) || negb (kq_running p) then Ret ([], p, k)
    else match kevent_wait 16 k with
         | (inl _, k) => Ret ([], p, k)
         | (inr evs, k) =>
             if forallb answerable evs then Ret (omap deliver evs, if existsb is_shutdown evs then kq_stop p else p, k) else Undef
         end.
Proof.
  unfold kq_run_turn, kq_dispatch. destruct (_ || _); [done|]. destruct (kevent_wait 16 k) as [[e|evs] k']; [done|].
  rewrite kq_dispatch_events_spec. destruct (forallb _ evs); [|done]. cbn [obind]. rewrite range_for_yields by lia. cbn [obind].
  by rewrite yields_all, app_nil_r, deliver_suspended.
Qed.

End Loop.

(** ** What is registered *)

Section Registered.
Context {K : Type} `{KQueueLaws K}.

Inductive kq_reachable (frame : Z -> Prop) : kqueue_loop -> K -> Prop :=
| kq_reach_make kq err k p k' :
    registered k = [] -> make_kqueue_loop kq err k = Ret (p, k') -> kq_reachable frame p k'
| kq_reach_queue a fd op timeout p k p' k' :
    kq_reachable frame p k -> frame a -> kq_queue a fd op timeout p k = (p', k') -> kq_reachable frame p' k'
| kq_reach_shutdown p k w p' k' :
    kq_reachable frame p k -> kq_shutdown p k = (w, p', k') -> kq_reachable frame p' k'
| kq_reach_turn frames p k evs p' k' :
    kq_reachable frame p k -> kq_run_turn frames p k = Ret (evs, p', k') -> kq_reachable frame p' k'.

(** An event is the loop's own, or belongs to a queued coroutine. *)
Definition kq_known (frame : Z -> Prop) (e : kevent) : Prop := filter e = EVFILT_USER \/ frame (udata e).

Definition kq_inv (frame : Z -> Prop) (p : kqueue_loop) (k : K) : Prop :=
  descriptor p <> -1 /\ Forall (kq_known frame) (registered k).

Lemma change_known frame evs k e k' :
  kevent_change evs k = (e, k') -> Forall (kq_known frame) evs -> Forall (kq_known frame) (registered k) ->
  Forall (kq_known frame) (registered k').
Proof.
  intros E Hevs Hk. apply Forall_forall. intros x Hx. apply (change_registered _ _ _ _ E) in Hx.
  apply elem_of_app in Hx as [Hx|Hx]; [by apply (proj1 (Forall_forall _ _) Hevs)|by apply (proj1 (Forall_forall _ _) Hk)].
Qed.

Lemma kq_queue_inv frame a fd op timeout p k p' k' :
  frame a -> kq_queue a fd op timeout p k = (p', k') -> kq_inv frame p k -> kq_inv frame p' k'.
Proof.
  intros Ha E [Hd Hk]. unfold kq_queue in E.
  set (evs := (if is_readable op then _ else _) ++ _) in E.
  assert (Forall (kq_known frame) evs) as Hevs.
  { unfold evs. destruct (is_readable op), (is_writable op); cbn; repeat (apply Forall_cons_2; [by right|]); apply Forall_nil_2. }
  clearbody evs. destruct (is_set timeout).
  - unfold make_timeout_kevent in E. destruct (kqueue_now k) as [t1 k1] eqn:E1. destruct (kqueue_now k1) as [t2 k2] eqn:E2.
    set (c := if _ <? t2 then _ else _) in E. assert (registered c.2 = registered k) as Hc.
    { apply now_keeps_registered in E1, E2. unfold c. destruct (_ <? t2); cbn; [|congruence].
      destruct (kqueue_now k2) as [t3 k3] eqn:E3. apply now_keeps_registered in E3. cbn. congruence. }
    destruct c as [t k3]. cbn in Hc, E. rewrite (proj2 (Z.eqb_neq _ _) Hd) in E.
    destruct (kevent_change _ k3) as [e k4] eqn:E4. injection E as <- <-. split; [done|].
    apply (change_known frame) in E4; [done| |by rewrite Hc].
    apply Forall_app. split; [done|]. apply Forall_cons_2; [by right|apply Forall_nil_2].
  - rewrite (proj2 (Z.eqb_neq _ _) Hd) in E. destruct (kevent_change evs k) as [e k1] eqn:E1. injection E as <- <-.
    split; [done|]. by apply (change_known frame) in E1.
Qed.

Lemma kq_reachable_inv frame p k : kq_reachable frame p k -> kq_inv frame p k.
Proof.
  induction 1 as [kq err k p k' Hk E|a fd op timeout p k p' k' _ IH Ha E|p k w p' k' _ [Hd Hk] E|frames p k evs p' k' _ [Hd Hk] E].
  - unfold make_kqueue_loop in E. destruct (kq =? -1) eqn:Hkq; [done|]. destruct (kevent_change _ k) as [e k1] eqn:E1.
    destruct (negb (e =? 0)); [done|]. injection E as <- <-. split; [by reflect_bools|].
    apply (change_known frame) in E1; [done| |by rewrite Hk]. apply Forall_cons_2; [by left|apply Forall_nil_2].
  - by eapply kq_queue_inv.
  - unfold kq_shutdown in E. destruct (negb (kq_running p)); [by injection E as _ <- <-|].
    destruct (kevent_change _ k) as [e k1] eqn:E1. apply (change_known frame) in E1; [|apply Forall_cons_2; [by left|apply Forall_nil_2]|done].
    destruct (negb (e =? 0)); by injection E as _ <- <-.
  - rewrite kq_run_turn_spec in E. destruct (_ || _); [by injection E as _ <- <-|].
    destruct (kevent_wait 16 k) as [r k1] eqn:Ew. apply wait_keeps_registered in Ew.
    assert (Forall (kq_known frame) (registered k1)) as Hk1.
    { apply Forall_forall. intros x Hx. by apply (proj1 (Forall_forall _ _) Hk), Ew. }
    destruct r as [e|l]; [by injection E as _ <- <-|]. destruct (forallb _ l); [|done].
    destruct (existsb _ l); by injection E as _ <- <-.
Qed.

(** C39: in every state the loop reaches, a turn of the scheduler ends, and
    hands over, in the order of the kernel, exactly the events that are not the
    loop's own and whose coroutine has not finished; it is undefined exactly if
    one of them is for a frame that is gone.  Every handle is one that
    was queued; an event without an error carries the number the kernel
    reports, and an end of file or an error of the kernel is an error of the
    result.  The loop stops after the turn that sees the shutdown event, whose
    other events are handed over first, and a failure of [kevent] leaves it as
    it was. *)
Theorem kqueue_turn (frame : Z -> Prop) (frames : Z -> option bool) (p : kqueue_loop) (k : K) :
  kq_reachable frame p k -> kq_running p = true ->
  match kevent_wait 16 k with
  | (inr evs, k') =>
      kq_run_turn frames p k
      = (if forallb (answerable frames) evs
         then Ret (omap (deliver frames) evs, if existsb is_shutdown evs then kq_stop p else p, k') else Undef)
      /\ Forall (fun ev => frame (event_handle ev)) (omap (deliver frames) evs)
      /\ (forall e ev, deliver frames e = Some ev -> failed (result_err (result ev)) = false -> flag_set (flags e) EV_ERROR = false ->
            result_count (result ev) = u64 (data e) /\ filter e <> EVFILT_TIMER
            /\ (filter e = EVFILT_READ \/ filter e = EVFILT_WRITE -> flag_set (flags e) EV_EOF = false))
  | (inl _, k') => kq_run_turn frames p k = Ret ([], p, k')
  end.
Proof.
  intros Hr Hrun. apply kq_reachable_inv in Hr as [Hd Hk]. rewrite kq_run_turn_spec, Hrun, (proj2 (Z.eqb_neq _ _) Hd). cbn [orb negb].
  destruct (kevent_wait 16 k) as [[e|evs] k'] eqn:Ew; [done|]. split_and!; [done| |].
  - apply Forall_forall. intros ev (e & He & Hev)%list_elem_of_omap.
    destruct (proj1 (Forall_forall _ _) (wait_registered _ _ _ _ Ew) e He) as (r & Hreg & Hf & Hu).
    unfold deliver in Hev. destruct (filter e =? EVFILT_USER) eqn:Hfe; [done|]. reflect_bools.
    destruct (negb _); [done|]. injection Hev as <-. cbn. rewrite Hu.
    destruct (proj1 (Forall_forall _ _) Hk r Hreg) as [Hf'|]; [congruence|done].
  - intros e ev. unfold deliver, kevent_result. destruct (filter e =? EVFILT_USER); [done|]. destruct (negb _); [done|].
    intros [= <-]. cbn [result result_err result_count]. intros Hf Hfl. rewrite Hfl in *. cbn [result_err result_count] in *.
    destruct (filter e =? EVFILT_TIMER) eqn:Ht; [done|]. reflect_bools. split_and!; [done|done|].
    intros Hrw. assert ((filter e =? EVFILT_READ) || (filter e =? EVFILT_WRITE) = true) as Hor.
    { apply orb_true_iff. by rewrite !Z.eqb_eq. }
    rewrite Hor in Hf. destruct (flag_set _ EV_EOF); [|done]. destruct (fflags e =? 0) eqn:E0; cbn in Hf; [done|].
    by rewrite E0 in Hf.
Qed.

End Registered.

(** ** A kernel, for the examples: every registered event is ready, with 5 bytes. *)

#[local] Instance sample_KQueue : KQueue (list kevent) := {
  kevent_change evs k := (0, evs ++ k);
  kevent_wait n k :=
    (inr (take n (map (fun e => {| ident := ident e; filter := filter e; flags := 0; fflags := 0; data := 5; udata := udata e |}) k)), k);
  kqueue_now k := (0, k);
}.

#[local] Instance sample_KQueueLaws : KQueueLaws (list kevent).
Proof.
  refine {| registered k := k |}; cbn.
  - by intros evs k e k' [= _ <-].
  - intros n k evs k' [= <- _]. apply Forall_take, Forall_map, Forall_forall. intros e He. by exists e.
  - intros n k evs k' [= <- _]. rewrite length_take. lia.
  - by intros n k r k' [= _ <-].
  - by intros k t k' [= _ <-].
Defined.

(** A coroutine at address 4096 waits to read descriptor 7, and the shutdown
    event is reported with it. *)
Lemma kqueue_turn_witness :
  let p := {| kq_running := true; descriptor := 3; timeout_id := 1 |} in
  let k := [make_io_kevent 4096 7 EVFILT_READ; shutdown_event] in
  kq_run_turn (fun _ => Some false) p k
  = Ret ([{| event_handle := 4096; result := {| result_count := 5; result_err := no_error |} |}], kq_stop p, k).
Proof.
  intros p k. assert (kq_reachable (K := list kevent) (fun a => a = 4096) p k) as Hr.
  { eapply (kq_reach_queue _ 4096 7 poll_read 0 p [shutdown_event]); [|reflexivity|reflexivity].
    by apply (kq_reach_make _ 3 0 []). }
  exact (proj1 (kqueue_turn (K := list kevent) _ (fun _ => Some false) p k Hr eq_refl)).
Defined.

(** The timer event counts nanoseconds, and does not say so: without
    [NOTE_NSECONDS] the kernel takes milliseconds. *)
Lemma timeout_unit {K} `{KQueue K} (a timeout : Z) (p : kqueue_loop) (k : K) :
  let '(ev, _, _) := make_timeout_kevent a timeout p k in
  flag_set (fflags ev) NOTE_NSECONDS = false
  /\ (let (t1, k1) := kqueue_now k in let (t2, k2) := kqueue_now k1 in t2 <= timeout * 1000000 + t1 -> data ev = timeout * 1000000 + t1).
Proof.
  unfold make_timeout_kevent. destruct (kqueue_now k) as [t1 k1]. destruct (kqueue_now k1) as [t2 k2] eqn:E2.
  destruct (_ <? t2) eqn:Hlt; [destruct (kqueue_now k2) as [t3 k3]|]; (split; [done|]); intros Hle; [|done]. apply Z.ltb_lt in Hlt. lia.
Qed.

(** ** [scheduler::run] and [scheduler::shutdown] in two threads

    The thread in [run] tests the flag of the scheduler and then sits in
    [dispatch], until the kernel reports an event; the other one clears that
    flag, triggers the event and waits for the flag of the loop. *)

Inductive run_pc := run_test | run_dispatch | run_done.
Inductive shutdown_pc := sd_start | sd_cleared | sd_wait | sd_done.

Record two_threads := {
  scheduler_running : bool;
  loop_running : bool;
  triggered : bool;
  runner : run_pc;
  stopper : shutdown_pc;
}.

Inductive two_step : two_threads -> two_threads -> Prop :=
| step_test s l t d : two_step (Build_two_threads s l t run_test d) (Build_two_threads s l t (if s then run_dispatch else run_done) d)
| step_other s t d : (* other events are reported, or the shutdown event is not yet *)
    two_step (Build_two_threads s true t run_dispatch d) (Build_two_threads s true t run_test d)
| step_seen s d : two_step (Build_two_threads s true true run_dispatch d) (Build_two_threads s false false run_test d)
| step_stopped s t d : two_step (Build_two_threads s false t run_dispatch d) (Build_two_threads s false t run_test d)
| step_clear l t r : two_step (Build_two_threads true l t r sd_start) (Build_two_threads false l t r sd_cleared)
| step_trigger s t r : two_step (Build_two_threads s true t r sd_cleared) (Build_two_threads s true true r sd_wait)
| step_no_trigger s t r : two_step (Build_two_threads s false t r sd_cleared) (Build_two_threads s false t r sd_done)
| step_awake s t r : two_step (Build_two_threads s false t r sd_wait) (Build_two_threads s false t r sd_done).

(** If [run] sees the cleared flag before it dispatches the shutdown event,
    nobody clears the flag of the loop, and [shutdown] waits for ever. *)
Lemma scheduler_shutdown_hangs :
  exists s, rtc two_step (Build_two_threads true true false run_test sd_start) s
    /\ stopper s = sd_wait /\ runner s = run_done /\ (forall s', ~ two_step s s').
Proof.
  exists (Build_two_threads false true true run_done sd_wait). split_and!; [|done|done|intros s' Hs; by inversion Hs].
  eapply rtc_l; [apply step_clear|]. eapply rtc_l; [apply step_test|]. eapply rtc_l; [apply step_trigger|]. apply rtc_refl.
Qed.

(** Any other time the shutdown ends: a state where nothing can happen is one
    where both threads are done, or that one. *)
Lemma scheduler_shutdown_stuck s :
  rtc two_step (Build_two_threads true true false run_test sd_start) s -> (forall s', ~ two_step s s') ->
  runner s = run_done /\ (stopper s = sd_done \/ (stopper s = sd_wait /\ loop_running s = true)).
Proof.
  intros Hs Hstuck. assert (stopper s = sd_start -> scheduler_running s = true) as Hinv.
  { remember (Build_two_threads true true false run_test sd_start) as s0 eqn:E0.
    assert (stopper s0 = sd_start -> scheduler_running s0 = true) as H0 by (by subst).
    clear E0. induction Hs as [|s1 s2 s3 H12 _ IH]; [done|]. apply IH; [done|]. by destruct H12. }
  destruct s as [s l t [] d]; cbn in *.
  - exfalso. eapply Hstuck, step_test.
  - exfalso. destruct l; eapply Hstuck; [apply step_other|apply step_stopped].
  - split; [done|]. destruct d.
    + exfalso. rewrite (Hinv eq_refl) in Hstuck. eapply Hstuck, step_clear.
    + exfalso. destruct l; eapply Hstuck; [apply step_trigger|apply step_no_trigger].
    + right. destruct l; [done|]. exfalso. eapply Hstuck, step_awake.
    + by left.
Qed.
