(* ===== verification/Sockets.v ===== *)
(** * Sockets (include/socket.hpp, src/socket.cpp, src/tcp.cpp, src/udp.cpp,
    src/exception.cpp) and listeners (src/listen.cpp)

    The operations run in a monad over the state of the kernel and the
    scheduler, which a thrown exception leaves behind.  [Scheduler] is what the
    sockets use of [io::scheduler]; [Net] are the system calls.  [Connection]
    states what reading and writing rely on: an awaited operation says how many
    bytes it is ready for.  The kqueue loop keeps it ([kq_connection]); the
    epoll loop does not ([sockets_on_epoll]).

    Not modelled: [inet_ntop] and the layout of [sockaddr] (arguments). *)

From Stdlib Require Import ZArith Lia Strings.Byte String.
From stdpp Require Import prelude list gmap strings.
From S2P Require Import Prelude CxxStrings Io Coro EpollLoop KqueueLoop.

(** ** Effects *)

Definition io (K A : Type) : Type := K -> outcome A * K.

Definition io_ret {K A} (a : A) : io K A := fun k => (Ret a, k).
Definition io_throw {K A} (e : exn) : io K A := fun k => (Throw e, k).
Definition io_bind {K A B} (m : io K A) (f : A -> io K B) : io K B := fun k =>
  match m k with
  | (Ret a, k) => f a k
  | (Throw e, k) => (Throw e, k)
  | (Terminate, k) => (Terminate, k)
  | (Undef, k) => (Undef, k)
  | (OutOfFuel, k) => (OutOfFuel, k)
  end.
(** A system call, which always comes back *)
Definition call {K A} (f : K -> A * K) : io K A := fun k => let (a, k) := f k in (Ret a, k).
(** The body of a [noexcept] function *)
Definition io_noexcept {K A} (m : io K A) : io K A := fun k => let (r, k) := m k in (noexcept r, k).

Notation "'let!' x := m 'in' f" := (io_bind m (fun x => f))
  (at level 200, x pattern, m at level 100, f at level 200, right associativity) : cpp_scope.

(** ** What the sockets use *)

Class Scheduler (K : Type) := {
  register_fd : Z -> io K unit;
  deregister_fd : Z -> io K unit;
  schedule : Z -> poll_op -> Z -> io K event_result;
}.

Inductive sockopt := SO_REUSEADDR | SO_KEEPALIVE | SO_RCVTIMEO (sec usec : Z) | SO_LINGER (seconds : Z).

Definition EAGAIN : Z := 11.
Definition EWOULDBLOCK : Z := EAGAIN.

Record addrinfo := { ai_family : Z; ai_socktype : Z; ai_protocol : Z; ai_addr : list byte }.
Record hints := { hint_flags : Z; hint_family : Z; hint_socktype : Z }.

(** A call gives its result, or the [errno] it sets. *)
Class Net (K : Type) := {
  sys_recv : Z -> Z -> K -> (Z + list byte) * K;
  sys_send : Z -> list byte -> K -> (Z + Z) * K;
  sys_so_error : Z -> K -> (Z + Z) * K;
  sys_setsockopt : Z -> sockopt -> K -> (Z + unit) * K;
  sys_close : Z -> K -> unit * K;
  sys_getaddrinfo : option (list byte) -> list byte -> hints -> K -> (Z + list addrinfo) * K;
  sys_socket : Z -> Z -> Z -> K -> (Z + Z) * K;
  sys_connect : Z -> list byte -> K -> (Z + unit) * K;
  sys_bind : Z -> list byte -> K -> (Z + unit) * K;
  sys_listen : Z -> Z -> K -> (Z + unit) * K;
  sys_accept : Z -> K -> (Z + Z) * K;
  sys_getname : bool -> Z -> K -> (Z + Z * list byte) * K; (* of the peer or the socket: family, address *)
  sys_inet_ntop : Z -> list byte -> Z + list byte;
  sys_errno : K -> Z;
}.

Definition invalid_fd : Z := -1.

(** [class socket]: whether the pointer to the scheduler is set, and [fd] *)
Record socket := { scheduler : bool; fd : Z }.

Section Sockets.
Context {K : Type} `{Scheduler K, Net K}.

Definition make_socket (fd : Z) : io K socket :=
  let! _ := register_fd fd in io_ret {| scheduler := true; fd := fd |}.

Definition moved_from : socket := {| scheduler := false; fd := invalid_fd |}.

(** The move constructor: the new socket, and the old one *)
Definition move_socket (other : socket) : socket * socket := (other, moved_from).

(** Move assignment, of another object *)
Definition move_assign_socket (this other : socket) : io K (socket * socket) :=
  let! _ := if negb (fd this =? invalid_fd) then call (sys_close (fd this)) else io_ret tt in
  io_ret (other, moved_from).

Definition valid (s : socket) : io K bool :=
  if (fd s =? invalid_fd) || negb (scheduler s) then io_ret false
  else
    let! r := call (sys_so_error (fd s)) in
    io_ret match r with inl _ => false | inr error_code => error_code =? 0 end.

Definition set_option (fd : Z) (opt : sockopt) : io K (Z + unit) := call (sys_setsockopt fd opt).

(** [close(graceful, graceful_timeout)], which is [noexcept] and [const] *)
Definition close (graceful : bool) (graceful_timeout : Z) (s : socket) : io K unit :=
  io_noexcept
    (let! v := valid s in
     if negb v then io_ret tt
     else
       let! _ := if graceful then let! _ := set_option (fd s) (SO_LINGER graceful_timeout) in io_ret tt else io_ret tt in
       let! _ := deregister_fd (fd s) in
       call (sys_close (fd s))).

Definition destroy_socket (s : socket) : io K unit := close true 5 s.

(** [addr_name]: the text, and the rest of the buffer it is written to *)
Definition AF_UNSPEC : Z := 0.
Definition AF_INET : Z := 2.
Definition AF_INET6 : Z := 10.
Definition INET_ADDRSTRLEN : nat := 16.
Definition INET6_ADDRSTRLEN : nat := 46.

Definition addr_name (ss_family : Z) (addr : list byte) : io K (list byte) :=
  let ret :=
    if ss_family =? AF_INET then Some (replicate INET_ADDRSTRLEN x00)
    else if ss_family =? AF_INET6 then Some (replicate INET6_ADDRSTRLEN x00)
    else None in
  match ret with
  | None => fun k => (Undef, k)
  | Some ret =>
      match sys_inet_ntop ss_family addr with
      | inl e => io_throw (system_error e)
      | inr text => io_ret (take (length ret) (text ++ [x00]) ++ drop (length text + 1) ret)
      end
  end.

Definition local_addr (s : socket) : io K (list byte) :=
  let! r := call (sys_getname false (fd s)) in
  match r with inl e => io_throw (system_error e) | inr (family, addr) => addr_name family addr end.

Definition remote_addr (s : socket) : io K (list byte) :=
  let! r := call (sys_getname true (fd s)) in
  match r with inl e => io_throw (system_error e) | inr (family, addr) => addr_name family addr end.

Definition again (e : Z) : bool := (e =? EAGAIN) || (e =? EWOULDBLOCK).

(** [read]: [got] are the first [received] bytes of the span. *)
Fixpoint socket_read (fuel : nat) (s : socket) (size : Z) (got : list byte) : io K (event_result * list byte) :=
  match fuel with
  | O => fun k => (OutOfFuel, k)
  | S fuel =>
      let received := Z.of_nat (length got) in
      if received <? size then
        let! res := schedule (fd s) poll_read 0 in
        if failed (result_err res) && (result_count res =? 0) then io_ret (res, got)
        else
          let read_amount := Z.min (result_count res) (size - received) in
          let! num := call (sys_recv (fd s) read_amount) in
          match num with
          | inl e =>
              if again e then socket_read fuel s size got
              else io_ret ({| result_count := received; result_err := errno_condition e |}, got)
          | inr [] => io_ret ({| result_count := received; result_err := make_error_condition closed |}, got)
          | inr bytes =>
              io_ret ({| result_count := received + Z.of_nat (length bytes); result_err := no_error |}, got ++ bytes)
          end
      else io_ret ({| result_count := received; result_err := no_error |}, got)
  end.

Fixpoint socket_write (fuel : nat) (s : socket) (data : list byte) (total_written : Z) : io K event_result :=
  match fuel with
  | O => fun k => (OutOfFuel, k)
  | S fuel =>
      let size := Z.of_nat (length data) in
      if total_written <? size then
        let! res := schedule (fd s) poll_write 0 in
        if failed (result_err res) && (result_count res =? 0) then io_ret res
        else
          let write_amount := Z.min (result_count res) (size - total_written) in
          let! num := call (sys_send (fd s) (take (Z.to_nat write_amount) (drop (Z.to_nat total_written) data))) in
          match num with
          | inl e =>
              if again e then socket_write fuel s data total_written
              else io_ret {| result_count := total_written; result_err := errno_condition e |}
          | inr n =>
              if n =? 0 then io_ret {| result_count := total_written; result_err := make_error_condition closed |}
              else socket_write fuel s data (total_written + n)
          end
      else io_ret {| result_count := total_written; result_err := no_error |}
  end.

(** ** Opening sockets *)

Inductive protocol := not_care | ipv4 | ipv6.
Definition family_of (proto : protocol) : Z := match proto with not_care => AF_UNSPEC | ipv4 => AF_INET | ipv6 => AF_INET6 end.

Definition SOCK_STREAM : Z := 1.
Definition SOCK_DGRAM : Z := 2.
Definition AI_PASSIVE : Z := 1.

(** [throw_for_gai_error]: true for an error that may pass *)
Definition EAI_AGAIN : Z := -3.
Definition EAI_SYSTEM : Z := -11.
Definition gai_messages : list (Z * string) :=
  [(-9, "address family for hostname not supported"); (-1, "internal error: bad ai_flags value");
   (-4, "non-recoverable failure in name resolution"); (-6, "selected protocol is not supported");
   (-10, "memory allocation failure"); (-5, "no address associated with hostname");
   (-2, "at least one of host and port must be specified"); (-8, "unsupported port for selected network type");
   (-7, "selected network is not supported"); (-12, "internal error: argument buffer overflow")]%string.

Definition throw_for_gai_error (err : Z) : io K bool :=
  if err =? 0 then io_ret false
  else if err =? EAI_AGAIN then io_ret true
  else if err =? EAI_SYSTEM then fun k => (Throw (system_error (sys_errno k)), k)
  else
    match List.find (fun m => m.1 =? err) gai_messages with
    | Some m => io_throw (runtime_error m.2)
    | None => io_throw (runtime_error "EAI error code")
    end.

(** [getaddrinfo], and [throw_for_gai_error] of its status: no list if it may pass *)
Definition lookup_addresses (host port : list byte) (h : hints) : io K (list addrinfo) :=
  let! r := call (sys_getaddrinfo (match host with [] => None | _ => Some host end) port h) in
  match r with
  | inl sts => let! _ := throw_for_gai_error sts in io_ret []
  | inr servinfo => io_ret servinfo
  end.

(** A socket option, or the socket is closed and the error thrown. *)
Definition require_option (fd : Z) (opt : sockopt) : io K unit :=
  let! r := set_option fd opt in
  match r with
  | inl err => let! _ := call (sys_close fd) in io_throw (system_error err)
  | inr _ => io_ret tt
  end.

(** The options of a new socket; [timeout] in microseconds *)
Definition tcp_options (keepalive : bool) (timeout fd : Z) : io K unit :=
  let! _ := require_option fd SO_REUSEADDR in
  let! _ :=
    if negb (timeout =? 0) then
      let sec := Z.quot timeout 1000000 in require_option fd (SO_RCVTIMEO sec (timeout - sec * 1000000))
    else io_ret tt in
  if keepalive then require_option fd SO_KEEPALIVE else io_ret tt.

Fixpoint tcp_try (keepalive : bool) (timeout : Z) (servinfo : list addrinfo) (last_err : Z) : io K Z :=
  match servinfo with
  | [] => io_throw (system_error last_err)
  | info :: servinfo =>
      let! r := call (sys_socket (ai_family info) (ai_socktype info) (ai_protocol info)) in
      match r with
      | inl err => tcp_try keepalive timeout servinfo err
      | inr fd =>
          let! _ := tcp_options keepalive timeout fd in
          let! r := call (sys_connect fd (ai_addr info)) in
          match r with
          | inr _ => io_ret fd
          | inl err => let! _ := call (sys_close fd) in tcp_try keepalive timeout servinfo err
          end
      end
  end.

(** [tcp_socket::open] *)
Definition tcp_open (host port : list byte) (proto : protocol) (keepalive : bool) (timeout : Z) : io K Z :=
  let! servinfo := lookup_addresses host port {| hint_flags := AI_PASSIVE; hint_family := family_of proto; hint_socktype := SOCK_STREAM |} in
  tcp_try keepalive timeout servinfo 0.

(** The constructors of [tcp_socket]; the first two are [noexcept]. *)
Definition tcp_socket_none : io K socket := io_noexcept (make_socket invalid_fd).
Definition tcp_socket_fd (fd : Z) : io K socket := io_noexcept (make_socket fd).
Definition tcp_socket_open (host port : list byte) (proto : protocol) (keepalive : bool) (timeout : Z) : io K socket :=
  let! fd := tcp_open host port proto keepalive timeout in make_socket fd.

Fixpoint udp_try (servinfo : list addrinfo) : io K Z :=
  match servinfo with
  | [] => io_throw (runtime_error "failed to bind")
  | info :: servinfo =>
      let! r := call (sys_socket (ai_family info) (ai_socktype info) (ai_protocol info)) in
      match r with inl _ => udp_try servinfo | inr fd => io_ret fd end
  end.

(** [udp_socket::open] and its constructors *)
Definition passive (host : list byte) : Z := match host with [] => AI_PASSIVE | _ => 0 end.

Definition udp_open (host port : list byte) (proto : protocol) : io K Z :=
  let! servinfo := lookup_addresses host port {| hint_flags := passive host; hint_family := family_of proto; hint_socktype := SOCK_DGRAM |} in
  udp_try servinfo.

Definition udp_socket_fd (fd : Z) : io K socket := io_noexcept (make_socket fd).
Definition udp_socket_open (host port : list byte) (proto : protocol) : io K socket :=
  let! fd := udp_open host port proto in make_socket fd.
Definition udp_socket_port (port : list byte) (proto : protocol) : io K socket := udp_socket_open [] port proto.

(** ** [listener] *)

Inductive network := net_tcp | net_udp.
Definition socktype_of (net : network) : Z := match net with net_tcp => SOCK_STREAM | net_udp => SOCK_DGRAM end.

Record listener := { l_scheduler : bool; is_listening : bool; main_fd : Z }.

(** The first address a socket can be bound to, or [errno] of the last failure *)
Fixpoint listener_try (servinfo : list addrinfo) : io K Z :=
  match servinfo with
  | [] => fun k => (Throw (system_error (sys_errno k)), k)
  | info :: servinfo =>
      let! r := call (sys_socket (ai_family info) (ai_socktype info) (ai_protocol info)) in
      match r with
      | inl _ => listener_try servinfo
      | inr fd =>
          let! r := set_option fd SO_REUSEADDR in
          match r with
          | inl _ => let! _ := call (sys_close fd) in listener_try servinfo
          | inr _ =>
              let! r := call (sys_bind fd (ai_addr info)) in
              match r with
              | inl _ => let! _ := call (sys_close fd) in listener_try servinfo
              | inr _ => io_ret fd
              end
          end
      end
  end.

Definition make_listener (host port : list byte) (net : network) (proto : protocol) : io K listener :=
  let! servinfo := lookup_addresses host port {| hint_flags := passive host; hint_family := family_of proto; hint_socktype := socktype_of net |} in
  let! fd := listener_try servinfo in
  let! _ := register_fd fd in
  io_ret {| l_scheduler := true; is_listening := false; main_fd := fd |}.

Definition make_listener_port (port : list byte) (net : network) (proto : protocol) : io K listener := make_listener [] port net proto.

(** [listen]: the listener, and whether it returns or throws *)
Definition listen (max_backlog : Z) (l : listener) : io K (listener * option exn) :=
  let l' := {| l_scheduler := l_scheduler l; is_listening := true; main_fd := main_fd l |} in
  if is_listening l then io_ret (l', None)
  else
    let! r := call (sys_listen (main_fd l) max_backlog) in
    io_ret (l', match r with inl e => Some (system_error e) | inr _ => None end).

(** [accept], while nothing else changes the listener *)
Definition accept (l : listener) : io K socket :=
  if negb (is_listening l) then io_throw (runtime_error "not listening")
  else
    let! res := schedule (main_fd l) poll_read 0 in
    if failed (result_err res) then io_throw thrown_condition
    else if result_count res =? 0 then tcp_socket_none
    else
      let! r := call (sys_accept (main_fd l)) in
      match r with
      | inl e => io_throw (system_error e)
      | inr inc_fd => tcp_socket_fd inc_fd
      end.

(** [shutdown], which is [noexcept] *)
Definition listener_shutdown (l : listener) : io K listener :=
  let l' := {| l_scheduler := l_scheduler l; is_listening := false; main_fd := main_fd l |} in
  if is_listening l && negb (main_fd l =? invalid_fd) then
    io_noexcept
      (let! _ := call (sys_close (main_fd l)) in
       let! _ := deregister_fd (main_fd l) in
       io_ret {| l_scheduler := l_scheduler l; is_listening := false; main_fd := invalid_fd |})
  else io_ret l'.

Definition destroy_listener (l : listener) : io K unit := let! _ := listener_shutdown l in io_ret tt.

Definition moved_listener : listener := {| l_scheduler := false; is_listening := false; main_fd := invalid_fd |}.
Definition move_listener (other : listener) : listener * listener := (other, moved_listener).
Definition move_assign_listener (this other : listener) : io K (listener * listener) :=
  let! _ := listener_shutdown this in io_ret (other, moved_listener).

End Sockets.

(** ** A connection *)

(** What the calls on an open descriptor promise, while the peer behaves:
    [incoming] is what can still be received, [outgoing] what was taken for
    sending, and [spurious] how often a call can still have to be repeated.  A
    scheduled operation ends; without an error it is ready for some bytes, and
    reading has an error and nothing ready only at the end. *)
Class Connection (K : Type) `{Scheduler K, Net K} (d : Z) := {
  conn_ok : K -> Prop;
  incoming : K -> list byte;
  outgoing : K -> list byte;
  spurious : K -> nat;
  schedule_law op k : op = poll_read \/ op = poll_write -> conn_ok k ->
    exists res k', schedule d op 0 k = (Ret res, k') /\ conn_ok k' /\ incoming k' = incoming k /\ outgoing k' = outgoing k
      /\ (spurious k' <= spurious k)%nat /\ 0 <= result_count res /\ (failed (result_err res) = false -> 0 < result_count res)
      /\ (op = poll_read -> failed (result_err res) = true -> result_count res = 0 -> incoming k = []);
  recv_law n k r k' : 0 < n -> conn_ok k -> sys_recv d n k = (r, k') ->
    conn_ok k' /\ outgoing k' = outgoing k
    /\ match r with
       | inl e => incoming k' = incoming k /\ if again e then (spurious k' < spurious k)%nat else incoming k = [] /\ e <> 0
       | inr got => incoming k = got ++ incoming k' /\ Z.of_nat (length got) <= n /\ (got = [] -> incoming k = [])
       end;
  send_law b k r k' : b <> [] -> conn_ok k -> sys_send d b k = (r, k') ->
    conn_ok k' /\ incoming k' = incoming k
    /\ match r with
       | inl e => outgoing k' = outgoing k /\ e <> 0 /\ (again e = true -> (spurious k' < spurious k)%nat)
       | inr n => 0 <= n <= Z.of_nat (length b) /\ outgoing k' = outgoing k ++ take (Z.to_nat n) b /\ (spurious k' <= spurious k)%nat
       end;
}.

(** The operations of the socket as those of [io::reader] and [io::writer] *)
Record conn (K : Type) (d : Z) := Conn { kern : K }.
Arguments Conn {K d}. Arguments kern {K d}.

Section Streams.
Context {K : Type} {d : Z} `{Connection K d}.

Definition sock : socket := {| scheduler := true; fd := d |}.

#[global] Instance socket_Reader : Reader (conn K d) := fun c n =>
  let (r, k) := socket_read (S (spurious (kern c))) sock (Z.of_nat n) [] (kern c) in
  let* (res, got) := r in Ret (got, result_err res, Conn k).

#[global] Instance socket_Writer : Writer (conn K d) := fun c data =>
  let (r, k) := socket_write (S (spurious (kern c) + length data)) sock data 0 (kern c) in
  let* res := r in Ret (Z.to_nat (result_count res), result_err res, Conn k).

Lemma bind_call {A B} (f : K -> A * K) (g : A -> io K B) k : io_bind (call f) g k = let (a, k) := f k in g a k.
Proof. unfold io_bind, call. by destruct (f k). Qed.

Lemma bind_Ret {A B} (m : io K A) (g : A -> io K B) k a k' : m k = (Ret a, k') -> io_bind m g k = g a k'.
Proof. intros E. unfold io_bind. by rewrite E. Qed.

Lemma bind_eq {A B} (m : io K A) (g : A -> io K B) k r k' : m k = (r, k') ->
  io_bind m g k = match r with
                  | Ret a => g a k' | Throw e => (Throw e, k') | Terminate => (Terminate, k')
                  | Undef => (Undef, k') | OutOfFuel => (OutOfFuel, k')
                  end.
Proof. intros E. unfold io_bind. rewrite E. by destruct r. Qed.

Lemma socket_read_spec fuel n k :
  conn_ok k -> (spurious k < fuel)%nat -> 0 <= n ->
  exists res got k', socket_read fuel sock n [] k = (Ret (res, got), k')
    /\ conn_ok k' /\ incoming k = got ++ incoming k' /\ outgoing k' = outgoing k
    /\ result_count res = Z.of_nat (length got) /\ Z.of_nat (length got) <= n
    /\ (0 < n -> incoming k <> [] -> got <> []) /\ (0 < n -> got = [] -> failed (result_err res) = true).
Proof.
  revert k. induction fuel as [|fuel IH]; intros k Hok Hf Hn; [lia|]. cbn [socket_read length].
  destruct (Z.of_nat 0 <? n) eqn:Hlt; reflect_bools.
  2: { do 3 eexists. split; [done|]. cbn. split_and!; try done; lia. }
  destruct (schedule_law poll_read k (or_introl eq_refl) Hok) as (res & k1 & E1 & Hok1 & Hi1 & Ho1 & Hs1 & Hc & Hpos & Hend).
  cbn [fd sock]. erewrite bind_Ret by exact E1. destruct (failed (result_err res) && (result_count res =? 0)) eqn:Hfail; reflect_bools.
  { do 3 eexists. split; [done|]. split_and!; try done; try (intros _ Hne; by destruct Hne; apply Hend). }
  assert (0 < result_count res) as Hcount.
  { destruct (failed (result_err res)); [|by apply Hpos]. cbn in Hfail. reflect_bools. lia. }
  rewrite bind_call. destruct (sys_recv d _ k1) as [r k2] eqn:E2.
  apply recv_law in E2 as (Hok2 & Ho2 & Hr); [|lia|done]. destruct r as [e|got].
  - destruct Hr as [Hi2 Hr]. destruct (again e).
    + destruct (IH k2 Hok2) as (res' & got & k3 & -> & Hok3 & Hi3 & Ho3 & Hrest); [lia..|].
      do 3 eexists. split; [done|]. rewrite Hi1 in Hi2. rewrite Hi2 in Hi3, Hrest. destruct Hrest as (? & ? & ? & ?). split_and!; try done. congruence.
    + do 3 eexists. split; [done|]. destruct Hr as [Hr Hne]. rewrite Hi1 in Hr, Hi2. cbn. split_and!; try done; try lia; try congruence.
  - destruct Hr as (Hi2 & Hlen & Hemp). rewrite Hi1 in *. destruct got as [|b got].
    + do 3 eexists. split; [done|]. cbn. split_and!; try done; try lia; try congruence. intros _ Hne. by destruct Hne; apply Hemp.
    + do 3 eexists. split; [done|]. cbn [result_count result_err app]. split_and!; try done; try (cbn in *; lia); congruence.
Qed.

(** A failed read has read nothing. *)
Lemma socket_read_error fuel s n got k res got' k' :
  socket_read fuel s n got k = (Ret (res, got'), k') -> failed (result_err res) = true -> got' = got.
Proof.
  revert k. induction fuel as [|fuel IH]; intros k; cbn [socket_read]; [done|]. destruct (_ <? n); [|by intros [= <- <- _]].
  unfold io_bind, call. destruct (schedule _ _ _ k) as [[r|?| | |] k1]; try done. destruct (_ && _); [by intros [= _ <- _]|].
  destruct (sys_recv _ _ k1) as [[e|[|b bytes]] k2]; [destruct (again e); [by apply IH|by intros [= _ <- _]]|by intros [= _ <- _]|by intros [= <- _ _]].
Qed.

(** [j] bytes are out when [write] ends. *)
Lemma socket_write_spec fuel data t k :
  conn_ok k -> (t <= length data)%nat -> (spurious k + (length data - t) < fuel)%nat ->
  exists res k' j, socket_write fuel sock data (Z.of_nat t) k = (Ret res, k')
    /\ conn_ok k' /\ incoming k' = incoming k /\ (t <= j <= length data)%nat
    /\ outgoing k' = outgoing k ++ take (j - t) (drop t data)
    /\ (result_count res = Z.of_nat j \/ result_count res = 0 /\ failed (result_err res) = true)
    /\ (failed (result_err res) = false -> j = length data).
Proof.
  revert t k. induction fuel as [|fuel IH]; intros t k Hok Ht Hf; [lia|]. cbn [socket_write].
  destruct (Z.of_nat t <? Z.of_nat (length data)) eqn:Hlt; reflect_bools.
  2: { do 2 eexists. exists t. split; [done|]. rewrite Nat.sub_diag, app_nil_r. cbn. split_and!; try done; try lia. }
  destruct (schedule_law poll_write k (or_intror eq_refl) Hok) as (res & k1 & E1 & Hok1 & Hi1 & Ho1 & Hs1 & Hc & Hpos & _).
  cbn [fd sock]. erewrite bind_Ret by exact E1. destruct (failed (result_err res) && (result_count res =? 0)) eqn:Hfail; reflect_bools.
  { exists res, k1, t. split; [done|]. rewrite Nat.sub_diag, app_nil_r. split_and!; try done; [by right|congruence]. }
  assert (0 < result_count res) as Hcount.
  { destruct (failed (result_err res)); [|by apply Hpos]. cbn in Hfail. reflect_bools. lia. }
  rewrite bind_call, Nat2Z.id. set (w := Z.to_nat _). destruct (sys_send d _ k1) as [r k2] eqn:E2.
  assert (0 < w <= length data - t)%nat as Hw by lia.
  apply send_law in E2 as (Hok2 & Hi2 & Hr); [| |done].
  2: { intros E. apply (f_equal length) in E. rewrite length_take, length_drop in E. cbn in E. lia. }
  rewrite Ho1 in Hr. rewrite Hi1 in Hi2. destruct r as [e|n].
  - destruct Hr as (Ho2 & Hne & Hag). destruct (again e).
    + destruct (IH t k2 Hok2 Ht) as (res' & k3 & j & -> & Hok3 & Hi3 & Hj & Ho3 & Hrest); [specialize (Hag eq_refl); lia|].
      exists res', k3, j. rewrite <- Ho2, <- Hi2. done.
    + do 2 eexists. exists t. split; [done|]. rewrite Nat.sub_diag, app_nil_r. cbn. split_and!; try done; [by left|lia].
  - destruct Hr as (Hn & Ho2 & Hs2). rewrite length_take, length_drop in Hn.
    destruct (n =? 0) eqn:E0; reflect_bools.
    + do 2 eexists. exists t. split; [done|]. rewrite Nat.sub_diag. subst n. cbn in *. split_and!; try done; by left.
    + replace (Z.of_nat t + n) with (Z.of_nat (t + Z.to_nat n)) by lia.
      destruct (IH (t + Z.to_nat n)%nat k2 Hok2) as (res' & k3 & j & -> & Hok3 & Hi3 & Hj & Ho3 & Hrest); [lia..|].
      exists res', k3, j. split_and!; try done; [congruence|lia..| |apply Hrest|apply Hrest].
      rewrite Ho3, Ho2, <- app_assoc. f_equal. rewrite take_take, Nat.min_l by lia.
      replace (j - t)%nat with (Z.to_nat n + (j - (t + Z.to_nat n)))%nat by lia.
      by rewrite <- take_take_drop, drop_drop.
Qed.

#[global] Instance socket_StreamReader : StreamReader (conn K d).
Proof.
  refine {| stream c := incoming (kern c); reader_ok c := conn_ok (kern c) |}.
  intros [k] n Hok. cbn in Hok. destruct (socket_read_spec (S (spurious k)) (Z.of_nat n) k Hok) as (res & got & k' & E & Hok' & Hi & _ & _ & Hl & Hne & _); [lia..|].
  exists got, (result_err res), (Conn k'). unfold rd, socket_Reader. cbn [kern]. rewrite E.
  split_and!; [done..|lia|]. intros Hn. apply Hne. lia.
Defined.

#[global] Instance socket_EofReader : EofReader (conn K d).
Proof.
  intros [k] n got err [k'] Hok Hs Hn. cbn in Hok, Hs.
  destruct (socket_read_spec (S (spurious k)) (Z.of_nat n) k Hok) as (res & got' & k2 & E & _ & Hi & _ & _ & _ & _ & He); [lia..|].
  unfold rd, socket_Reader. cbn [kern]. rewrite E. intros [= <- <- _]. apply He; [lia|]. rewrite Hs in Hi. by destruct got'.
Qed.

#[global] Instance socket_OrderedWriter : OrderedWriter (conn K d) | 100.
Proof.
  refine {| osink c := outgoing (kern c); owriter_ok c := conn_ok (kern c) |}.
  intros [k] b Hok. cbn in Hok. destruct (socket_write_spec (S (spurious k + length b)) b 0 k Hok) as (res & k' & j & E & Hok' & _ & Hj & Ho & Hc & Hf); [lia..|].
  exists (Z.to_nat (result_count res)), (result_err res), (Conn k'), j. unfold wr, socket_Writer. cbn [kern]. change 0 with (Z.of_nat 0). rewrite E.
  rewrite Nat.sub_0_r in Ho. split_and!; [done|done|lia|done|]. intros He. rewrite (Hf He) in *. destruct Hc as [->|[_ Hc]]; [|congruence]. lia.
Defined.
(** A connection that takes everything *)
Class ReliableConnection : Prop := {
  schedule_reliable k res k' : conn_ok k -> schedule d poll_write 0 k = (Ret res, k') -> failed (result_err res) = false;
  send_reliable b k r k' : b <> [] -> conn_ok k -> sys_send d b k = (r, k') -> match r with inl e => again e = true | inr n => 0 < n end;
}.

Context `{ReliableConnection}.

Lemma socket_write_reliable fuel data t k :
  conn_ok k -> (t <= length data)%nat -> (spurious k + (length data - t) < fuel)%nat ->
  exists k', socket_write fuel sock data (Z.of_nat t) k = (Ret {| result_count := Z.of_nat (length data); result_err := no_error |}, k').
Proof.
  revert t k. induction fuel as [|fuel IH]; intros t k Hok Ht Hf; [lia|]. cbn [socket_write].
  destruct (Z.of_nat t <? Z.of_nat (length data)) eqn:Hlt; reflect_bools; [|exists k; unfold io_ret; repeat f_equal; lia].
  destruct (schedule_law poll_write k (or_intror eq_refl) Hok) as (res & k1 & E1 & Hok1 & _ & _ & Hs1 & _ & Hpos & _).
  pose proof (schedule_reliable _ _ _ Hok E1) as Hnf. specialize (Hpos Hnf).
  cbn [fd sock]. erewrite bind_Ret by exact E1. rewrite Hnf. cbn [andb].
  rewrite bind_call, Nat2Z.id. set (w := Z.to_nat _). destruct (sys_send d _ k1) as [r k2] eqn:E2.
  assert (0 < w <= length data - t)%nat as Hw by lia.
  assert (take w (drop t data) <> []) as Hne.
  { intros E. apply (f_equal length) in E. rewrite length_take, length_drop in E. cbn in E. lia. }
  pose proof (send_reliable _ _ _ _ Hne Hok1 E2) as Hr. apply send_law in E2 as (Hok2 & _ & Hlaw); [|done|done]. destruct r as [e|n].
  - rewrite Hr in *. destruct Hlaw as (_ & _ & Hag). apply IH; [done|done|]. specialize (Hag eq_refl). lia.
  - destruct Hlaw as (Hn & _ & Hs2). rewrite length_take, length_drop in Hn. destruct (n =? 0) eqn:E0; reflect_bools; [lia|].
    replace (Z.of_nat t + n) with (Z.of_nat (t + Z.to_nat n)) by lia. apply IH; [done|lia..].
Qed.

Lemma socket_wr_reliable c b : conn_ok (kern c) -> exists k', wr c b = Ret (length b, no_error, Conn k').
Proof.
  intros Hok. destruct (socket_write_reliable (S (spurious (kern c) + length b)) b 0 (kern c) Hok) as (k' & E); [lia..|].
  exists k'. unfold wr, socket_Writer. change 0 with (Z.of_nat 0). rewrite E. cbn. by rewrite Nat2Z.id.
Qed.

#[global] Instance socket_SinkWriter : SinkWriter (conn K d).
Proof.
  refine {| sink c := outgoing (kern c); writer_ok c := conn_ok (kern c) |}.
  intros c b Hok. destruct (socket_wr_reliable c b Hok) as (k' & E).
  destruct (@owr_spec _ _ socket_OrderedWriter c b Hok) as (n & err & c' & j & E' & Hok' & Hj & Ho & Hf). rewrite E in E'. injection E' as <- <- <-.
  destruct (Hf eq_refl) as [_ ->]. exists (length b), no_error, (Conn k'). split_and!; try done.
Defined.

#[global] Instance socket_ReliableWriter : ReliableWriter (conn K d).
Proof.
  intros c b n err c' Hok E. destruct (socket_wr_reliable c b Hok) as (k' & E'). rewrite E in E'. by injection E' as -> -> ->.
Qed.
End Streams.
Arguments sock : clear implicits.
Arguments ReliableConnection K d {_ _ _}.

(** C35: over a scheduler and system calls that keep [Connection], a read ends,
    delivers the next bytes the peer sent and how many they are, at least one
    while there are any and an error when there are none; and a write ends, and
    has handed over a first part of the data in order, all of it if there is no
    error.  With an error the count is that part, or zero when the error is the
    scheduler's, which forgets what was already written. *)
Theorem socket_streams {K : Type} {d : Z} `{Connection K d} (k : K) (n : nat) (data : list byte) :
  conn_ok k ->
  (exists res got k', socket_read (S (spurious k)) (sock d) (Z.of_nat n) [] k = (Ret (res, got), k')
     /\ conn_ok k' /\ incoming k = got ++ incoming k' /\ outgoing k' = outgoing k
     /\ result_count res = Z.of_nat (length got) /\ (length got <= n)%nat
     /\ ((0 < n)%nat -> incoming k <> [] -> got <> [])
     /\ ((0 < n)%nat -> incoming k = [] -> failed (result_err res) = true))
  /\ (exists res k' j, socket_write (S (spurious k + length data)) (sock d) data 0 k = (Ret res, k')
     /\ conn_ok k' /\ incoming k' = incoming k /\ (j <= length data)%nat /\ outgoing k' = outgoing k ++ take j data
     /\ (failed (result_err res) = false -> j = length data /\ result_count res = Z.of_nat j)
     /\ (result_count res = Z.of_nat j \/ result_count res = 0)).
Proof.
  intros Hok. split.
  - destruct (socket_read_spec (S (spurious k)) (Z.of_nat n) k Hok) as (res & got & k' & E & Hok' & Hi & Ho & Hc & Hl & Hne & He); [lia..|].
    exists res, got, k'. split_and!; try done; [lia|intros Hn; apply Hne; lia|].
    intros Hn Hemp. apply He; [lia|]. rewrite Hemp in Hi. by destruct got.
  - destruct (socket_write_spec (S (spurious k + length data)) data 0 k Hok) as (res & k' & j & E & Hok' & Hi & Hj & Ho & Hc & Hf); [lia..|].
    exists res, k', j. change 0 with (Z.of_nat 0). rewrite Nat.sub_0_r in Ho. split_and!; try done; [lia| |destruct Hc as [Hc|[Hc _]]; auto].
    intros He. split; [by apply Hf|]. destruct Hc as [Hc|[_ Hc]]; [done|congruence].
Qed.

(** ** Descriptors *)

(** What is documented of the calls that make and end descriptors; [dialled]
    are the addresses connected to, and whether they answered. *)
Class FdLaws (K : Type) `{Net K} := {
  open_fds : K -> gset Z;
  dialled : K -> list (list byte * bool);
  socket_fds f t p k r k' : sys_socket f t p k = (r, k') ->
    dialled k' = dialled k
    /\ match r with
       | inl _ => open_fds k' = open_fds k
       | inr fd => 0 <= fd /\ fd ∉ open_fds k /\ open_fds k' = {[fd]} ∪ open_fds k
       end;
  close_fds fd k u k' : sys_close fd k = (u, k') -> open_fds k' = open_fds k ∖ {[fd]} /\ dialled k' = dialled k;
  setsockopt_fds fd o k r k' : sys_setsockopt fd o k = (r, k') -> open_fds k' = open_fds k /\ dialled k' = dialled k;
  connect_fds fd a k r k' : sys_connect fd a k = (r, k') ->
    open_fds k' = open_fds k /\ dialled k' = dialled k ++ [(a, match r with inr _ => true | inl _ => false end)];
  bind_fds fd a k r k' : sys_bind fd a k = (r, k') -> open_fds k' = open_fds k /\ dialled k' = dialled k;
  getaddrinfo_fds h p hs k r k' : sys_getaddrinfo h p hs k = (r, k') -> open_fds k' = open_fds k /\ dialled k' = dialled k;
}.

Section Descriptors.
Context {K : Type} `{FdLaws K}.

(** A program in its state before, and its result in the state after *)
Definition triple {A} (m : io K A) (P : K -> Prop) (Q : outcome A -> K -> Prop) : Prop :=
  forall k, P k -> Q (m k).1 (m k).2.

Lemma triple_bind {A B} (m : io K A) (f : A -> io K B) P R Q :
  triple m P R -> (forall a, triple (f a) (R (Ret a)) Q) ->
  (forall e k, R (Throw e) k -> Q (Throw e) k) -> (forall k, R Terminate k -> Q Terminate k) ->
  (forall k, R Undef k -> Q Undef k) -> (forall k, R OutOfFuel k -> Q OutOfFuel k) ->
  triple (io_bind m f) P Q.
Proof.
  intros Hm Hf Ht Hte Hu Ho k HP. specialize (Hm k HP). unfold io_bind. destruct (m k) as [[a|e| | |] k']; cbn in *; auto.
  by apply Hf.
Qed.

(** The open descriptors, and the addresses dialled so far *)
Definition opened (s : gset Z) (l : list (list byte * bool)) (k : K) : Prop := open_fds k = s /\ dialled k = l.

(** A new descriptor stays open, or it is closed and an exception thrown. *)
Definition guarded (d : Z) (s : gset Z) (l : list (list byte * bool)) {A} (r : outcome A) (k : K) : Prop :=
  match r with
  | Ret _ => opened ({[d]} ∪ s) l k
  | Throw _ => opened s l k
  | _ => False
  end.

(** One more descriptor if a number comes out, and none if an exception does *)
Definition opens (s : gset Z) (r : outcome Z) (k : K) : Prop :=
  match r with
  | Ret fd => 0 <= fd /\ fd ∉ s /\ open_fds k = {[fd]} ∪ s
  | Throw _ => open_fds k = s
  | _ => False
  end.

(** The addresses of the list that did not answer, in order, up to one that did *)
Definition dials (addrs : list (list byte)) (l : list (list byte * bool)) (r : outcome Z) (k : K) : Prop :=
  match r with
  | Ret _ => exists missed a, (missed ++ [a]) `sublist_of` addrs /\ dialled k = l ++ map (fun x => (x, false)) missed ++ [(a, true)]
  | _ => exists missed, missed `sublist_of` addrs /\ dialled k = l ++ map (fun x => (x, false)) missed
  end.

Lemma dials_skip x addrs l r k : dials addrs l r k -> dials (x :: addrs) l r k.
Proof. destruct r; cbn; intros (missed & Hd); exists missed; [destruct Hd as (b & ? & ?); exists b|destruct Hd..]; split; try done; by constructor. Qed.

Lemma dials_miss x addrs l r k : dials addrs (l ++ [(x, false)]) r k -> dials (x :: addrs) l r k.
Proof.
  destruct r; cbn; intros (missed & Hd); exists (x :: missed); [destruct Hd as (b & Hs & Hl); exists b|destruct Hd as [Hs Hl]..];
    rewrite <- app_assoc in Hl; split; try done; by constructor.
Qed.

Lemma close_new d s l k u k' : d ∉ s -> opened ({[d]} ∪ s) l k -> sys_close d k = (u, k') -> opened s l k'.
Proof. intros Hd [Hs Hl] E. apply close_fds in E as [Es El]. split; [rewrite Es, Hs; set_solver|by rewrite El]. Qed.

Lemma guarded_bind {A B} d s l (m : io K A) (f : A -> io K B) :
  triple m (opened ({[d]} ∪ s) l) (guarded d s l) -> (forall a, triple (f a) (opened ({[d]} ∪ s) l) (guarded d s l)) ->
  triple (io_bind m f) (opened ({[d]} ∪ s) l) (guarded d s l).
Proof. intros Hm Hf. by apply (triple_bind _ _ _ _ _ Hm). Qed.

Lemma guarded_ret {A} d s l (a : A) : triple (io_ret a) (opened ({[d]} ∪ s) l) (guarded d s l).
Proof. by intros k Hk. Qed.

Lemma require_option_guarded d s l opt : d ∉ s -> triple (require_option d opt) (opened ({[d]} ∪ s) l) (guarded d s l).
Proof.
  intros Hd k Hk. unfold require_option, set_option. rewrite bind_call.
  destruct (sys_setsockopt d opt k) as [r k1] eqn:E1. apply setsockopt_fds in E1 as [Es El].
  assert (opened ({[d]} ∪ s) l k1) as Hk1 by (unfold opened in *; by rewrite Es, El).
  destruct r as [err|]; [|done]. rewrite bind_call. destruct (sys_close d k1) as [u k2] eqn:E2. by apply (close_new d s l) in E2.
Qed.

Lemma tcp_options_guarded keepalive timeout d s l :
  d ∉ s -> triple (tcp_options keepalive timeout d) (opened ({[d]} ∪ s) l) (guarded d s l).
Proof.
  intros Hd. unfold tcp_options. repeat (apply guarded_bind; [|intros _]); try by apply require_option_guarded.
  - case_match; [by apply require_option_guarded|apply guarded_ret].
  - destruct keepalive; [by apply require_option_guarded|apply guarded_ret].
Qed.

Lemma tcp_try_spec keepalive timeout infos last_err s l :
  triple (tcp_try keepalive timeout infos last_err) (opened s l) (fun r k => opens s r k /\ dials (map ai_addr infos) l r k).
Proof.
  revert last_err l. induction infos as [|info infos IH]; intros last_err l k [Hs Hl]; cbn [tcp_try map].
  { split; [done|]. exists []. by rewrite app_nil_r. }
  rewrite bind_call. destruct (sys_socket _ _ _ k) as [r k1] eqn:E1. apply socket_fds in E1 as [El1 Hr]. rewrite Hs in Hr. rewrite Hl in El1.
  destruct r as [err|d].
  { destruct (IH err l k1 (conj Hr El1)) as [Ho Hd]. split; [done|].
    by apply dials_skip. }
  destruct Hr as (Hpos & Hnew & Hs1).
  pose proof (tcp_options_guarded keepalive timeout d s l Hnew k1 (conj Hs1 El1)) as Hg.
  destruct (tcp_options keepalive timeout d k1) as [[u|e| | |] k2] eqn:E2; cbn [guarded fst snd] in Hg; try done; rewrite (bind_eq _ _ _ _ _ E2).
  2: { destruct Hg as [Hs2 Hl2]. split; [done|]. exists []. rewrite app_nil_r. split; [apply sublist_nil_l|done]. }
  destruct Hg as [Hs2 Hl2]. rewrite bind_call. destruct (sys_connect d (ai_addr info) k2) as [r k3] eqn:E3. apply connect_fds in E3 as [Es3 El3].
  rewrite Hs2 in Es3. rewrite Hl2 in El3. destruct r as [err|].
  - rewrite bind_call. destruct (sys_close d k3) as [u' k4] eqn:E4. apply (close_new d s _ _ _ _ Hnew (conj Es3 El3)) in E4.
    destruct (IH err _ k4 E4) as [Ho Hd]. split; [done|].
    by apply dials_miss.
  - split; [done|]. exists [], (ai_addr info). split; [|done]. constructor. apply sublist_nil_l.
Qed.

Lemma gai_error_pure err k :
  (exists b, throw_for_gai_error err k = (Ret b, k)) \/ (exists e, throw_for_gai_error err k = (Throw e, k)).
Proof.
  unfold throw_for_gai_error. repeat case_match; eauto.
Qed.

Lemma lookup_addresses_keeps host port h s l :
  triple (lookup_addresses host port h) (opened s l)
    (fun r k => opened s l k /\ match r with Ret _ | Throw _ => True | _ => False end).
Proof.
  intros k [Hs Hl]. unfold lookup_addresses. rewrite bind_call. destruct (sys_getaddrinfo _ _ _ k) as [r k1] eqn:E.
  apply getaddrinfo_fds in E as [Es El]. assert (opened s l k1) as Hk1 by (split; congruence).
  destruct r as [sts|infos]; [|done]. destruct (gai_error_pure sts k1) as [[b Eb]|[e Ee]];
    [rewrite (bind_eq _ _ _ _ _ Eb)|rewrite (bind_eq _ _ _ _ _ Ee)]; done.
Qed.

(** What [getaddrinfo] gives *)
Definition addresses (host port : list byte) (h : hints) (k : K) : list addrinfo :=
  match sys_getaddrinfo (match host with [] => None | _ => Some host end) port h k with
  | (inr infos, _) => infos
  | (inl _, _) => []
  end.

(** The lookup ends in those addresses, or in an exception without any. *)
Lemma lookup_addresses_spec host port h k :
  exists k', opened (open_fds k) (dialled k) k'
    /\ (lookup_addresses host port h k = (Ret (addresses host port h k), k') \/ exists e, lookup_addresses host port h k = (Throw e, k')).
Proof.
  unfold lookup_addresses, addresses. rewrite bind_call. destruct (sys_getaddrinfo _ _ _ k) as [[sts|infos] k'] eqn:E;
    apply getaddrinfo_fds in E as [Es El]; exists k'; (split; [done|]); [|by left].
  destruct (gai_error_pure sts k') as [[b Eb]|[e Ee]]; [left; by rewrite (bind_eq _ _ _ _ _ Eb)|right; exists e; by rewrite (bind_eq _ _ _ _ _ Ee)].
Qed.

Lemma udp_try_spec infos s l :
  triple (udp_try infos) (opened s l) (fun r k => opens s r k /\ dialled k = l).
Proof.
  induction infos as [|info infos IH]; intros k [Hs Hl]; cbn [udp_try]; [done|].
  rewrite bind_call. destruct (sys_socket _ _ _ k) as [[err|d] k1] eqn:E1; apply socket_fds in E1 as [El1 Hr]; rewrite Hs in Hr; rewrite Hl in El1.
  - by apply IH.
  - done.
Qed.

Lemma listener_try_spec infos s l :
  triple (listener_try infos) (opened s l) (fun r k => opens s r k /\ dialled k = l).
Proof.
  induction infos as [|info infos IH]; intros k [Hs Hl]; cbn [listener_try]; [done|].
  rewrite bind_call. destruct (sys_socket _ _ _ k) as [[err|d] k1] eqn:E1; apply socket_fds in E1 as [El1 Hr]; rewrite Hs in Hr; rewrite Hl in El1; [by apply IH|].
  destruct Hr as (Hpos & Hnew & Hs1). unfold set_option. rewrite bind_call.
  destruct (sys_setsockopt d _ k1) as [r k2] eqn:E2. apply setsockopt_fds in E2 as [Es2 El2].
  assert (opened ({[d]} ∪ s) l k2) as Hk2 by (split; congruence). clear Es2 El2. destruct r as [err|].
  - rewrite bind_call. destruct (sys_close d k2) as [u k3] eqn:E3. apply (close_new d s l) in E3; [|done|done]. by apply IH.
  - rewrite bind_call. destruct (sys_bind d _ k2) as [r k3] eqn:E3. apply bind_fds in E3 as [Es3 El3].
    assert (opened ({[d]} ∪ s) l k3) as Hk3 by (destruct Hk2; split; congruence). clear Es3 El3. destruct r as [err|].
    + rewrite bind_call. destruct (sys_close d k3) as [w k4] eqn:E4. apply (close_new d s l) in E4; [|done|done]. by apply IH.
    + destruct Hk3. done.
Qed.
End Descriptors.

(** What a scheduler promises of descriptors: registering one and removing
    one return or throw, and open and close none.  Both loops keep it (see
    [Network]). *)
Definition keeps_fds {K A} `{FdLaws K} (k : K) (r : outcome A * K) : Prop :=
  match r with
  | (Ret _, k') | (Throw _, k') => open_fds k' = open_fds k
  | _ => False
  end.

Class SchedulerLaws (K : Type) `{Scheduler K, FdLaws K} := {
  register_law d k : keeps_fds k (register_fd d k);
  deregister_law d k : keeps_fds k (deregister_fd d k);
}.

Lemma make_listener_fds {K : Type} `{SchedulerLaws K} (host port : list byte) (net : network) (proto : protocol) (k : K) :
  match make_listener host port net proto k with
  | (Ret l, k') => 0 <= main_fd l /\ main_fd l ∉ open_fds k /\ open_fds k' = {[main_fd l]} ∪ open_fds k /\ is_listening l = false
  | (Throw e, k') =>
      open_fds k' = open_fds k
      \/ exists d k1, d ∉ open_fds k /\ register_fd d k1 = (Throw e, k') /\ open_fds k' = {[d]} ∪ open_fds k
  | _ => False
  end.
Proof.
  unfold make_listener. set (h := Build_hints _ _ _). destruct (lookup_addresses_spec host port h k) as (k1 & Hk1 & [E|[e E]]);
    rewrite (bind_eq _ _ _ _ _ E); [|left; by destruct Hk1].
  pose proof (listener_try_spec (addresses host port h k) _ _ k1 Hk1) as [Ht _].
  destruct (listener_try _ k1) as [[d|e| | |] k2] eqn:E2; cbn in Ht; try done; rewrite (bind_eq _ _ _ _ _ E2); [|by left].
  destruct Ht as (Hpos & Hnew & Hs). pose proof (register_law d k2) as Hreg.
  destruct (register_fd d k2) as [[u|e| | |] k3] eqn:E3; cbn in Hreg; try done; rewrite (bind_eq _ _ _ _ _ E3); cbn; rewrite Hreg, Hs; [done|].
  right. by exists d, k2.
Qed.

(** C36: what opening leaves open.  [tcp_socket::open] dials the addresses the
    lookup gave one after the other, in their order, until one answers, and
    ends with exactly one more open descriptor, the one it returns; if it
    throws, for whatever reason, there is none more.  The same holds of
    [udp_socket::open], which dials nothing.  The constructor of [listener]
    ends with one more, which is its own; if it throws, there is none more,
    except when it is the scheduler that throws as the bound descriptor is
    registered: then that descriptor is left open, and nobody has it. *)
Theorem descriptors_balanced {K : Type} `{SchedulerLaws K} (host port : list byte) (proto : protocol) (keepalive : bool) (timeout : Z) (net : network) (k : K) :
  (let (r, k') := tcp_open host port proto keepalive timeout k in
   opens (open_fds k) r k'
   /\ dials (map ai_addr (addresses host port {| hint_flags := AI_PASSIVE; hint_family := family_of proto; hint_socktype := SOCK_STREAM |} k)) (dialled k) r k')
  /\ (let (r, k') := udp_open host port proto k in opens (open_fds k) r k' /\ dialled k' = dialled k)
  /\ match make_listener host port net proto k with
     | (Ret l, k') => 0 <= main_fd l /\ main_fd l ∉ open_fds k /\ open_fds k' = {[main_fd l]} ∪ open_fds k /\ is_listening l = false
     | (Throw e, k') =>
         open_fds k' = open_fds k
         \/ exists d k1, d ∉ open_fds k /\ register_fd d k1 = (Throw e, k') /\ open_fds k' = {[d]} ∪ open_fds k
     | _ => False
     end.
Proof.
  split_and!.
  - unfold tcp_open. set (h := Build_hints _ _ _). destruct (lookup_addresses_spec host port h k) as (k1 & Hk1 & [E|[e E]]);
      rewrite (bind_eq _ _ _ _ _ E).
    + pose proof (tcp_try_spec keepalive timeout (addresses host port h k) 0 _ _ k1 Hk1) as Ht.
      by destruct (tcp_try _ _ _ _ k1).
    + destruct Hk1 as [Hs Hl]. split; [done|]. exists []. rewrite app_nil_r. split; [apply sublist_nil_l|done].
  - unfold udp_open. set (h := Build_hints _ _ _). destruct (lookup_addresses_spec host port h k) as (k1 & Hk1 & [E|[e E]]);
      rewrite (bind_eq _ _ _ _ _ E).
    + pose proof (udp_try_spec (addresses host port h k) _ _ k1 Hk1) as Ht. by destruct (udp_try _ k1).
    + by destruct Hk1.
  - apply make_listener_fds.
Qed.

(** ** A network, for the examples: it gives three bytes at a time and takes
    four, and of the two addresses of every host the first does not answer. *)

Record sample_net := { s_in : list byte; s_out : list byte; s_fds : gset Z; s_dialled : list (list byte * bool) }.

Definition set_fds (f : gset Z) (k : sample_net) : sample_net :=
  {| s_in := s_in k; s_out := s_out k; s_fds := f; s_dialled := s_dialled k |}.
Definition sample_addresses : list addrinfo :=
  map (fun ad => {| ai_family := AF_INET; ai_socktype := SOCK_STREAM; ai_protocol := 0; ai_addr := lit ad |}) ["down"; "up"]%string.
(** A number that is not in use *)
Definition fresh_fd (k : sample_net) : Z := Z.of_nat (S (fold_right Nat.max 0%nat (map Z.to_nat (elements (s_fds k))))).

#[local] Instance sample_Net : Net sample_net := {
  sys_recv d n k := (inr (take (Nat.min (Z.to_nat n) 3) (s_in k)),
    {| s_in := drop (Nat.min (Z.to_nat n) 3) (s_in k); s_out := s_out k; s_fds := s_fds k; s_dialled := s_dialled k |});
  sys_send d b k := (inr (Z.of_nat (length (take 4 b))),
    {| s_in := s_in k; s_out := s_out k ++ take 4 b; s_fds := s_fds k; s_dialled := s_dialled k |});
  sys_so_error d k := (inr 0, k);
  sys_setsockopt d o k := (inr tt, k);
  sys_close d k := (tt, set_fds (s_fds k ∖ {[d]}) k);
  sys_getaddrinfo h p hs k := (inr sample_addresses, k);
  sys_socket f t p k := (inr (fresh_fd k), set_fds ({[fresh_fd k]} ∪ s_fds k) k);
  sys_connect d ad k := let ok := negb (bytes_eqb ad (lit "down")) in
    (if ok then inr tt else inl 111,
     {| s_in := s_in k; s_out := s_out k; s_fds := s_fds k; s_dialled := s_dialled k ++ [(ad, ok)] |});
  sys_bind d ad k := (inr tt, k);
  sys_listen d n k := (inr tt, k);
  sys_accept d k := (inl EAGAIN, k);
  sys_getname peer d k := (inr (AF_INET, []), k);
  sys_inet_ntop f ad := inr [];
  sys_errno k := 0;
}.

#[local] Instance sample_Scheduler : Scheduler sample_net := {
  register_fd d := io_ret tt;
  deregister_fd d := io_ret tt;
  schedule d op timeout k :=
    (Ret (if op =? poll_read then
            {| result_count := Z.of_nat (length (s_in k)); result_err := match s_in k with [] => status closed | _ => no_error end |}
          else {| result_count := 1000; result_err := no_error |}), k);
}.

#[local] Instance sample_Connection : Connection sample_net 7.
Proof.
  refine {| conn_ok _ := True; incoming := s_in; outgoing := s_out; spurious _ := 0%nat |}; cbn.
  - intros op k [-> | ->] _; eexists _, k; (split; [done|]); cbn; split_and!; try done; destruct (s_in k); cbn; try done; lia.
  - intros n k r k' Hn _ [= <- <-]. cbn. split_and!; try done; [by rewrite take_drop|rewrite length_take; lia|].
    intros E. apply (f_equal length) in E. rewrite length_take in E. cbn in E. destruct (s_in k); [done|]. cbn in E. lia.
  - intros b k r k' Hb _ [= <- <-]. cbn -[take]. rewrite Nat2Z.id, length_take. split_and!; try done; try lia.
    f_equal. destruct (Nat.le_ge_cases 4 (length b)); [by rewrite Nat.min_l|by rewrite Nat.min_r, !take_ge].
Defined.

Lemma fresh_fd_new k : fresh_fd k ∉ s_fds k.
Proof.
  assert (forall n l, In n l -> (n <= fold_right Nat.max 0 l)%nat) as Hmax.
  { intros n l. induction l as [|m l IH]; cbn; [done|]. intros [->|Hn]; [lia|]. specialize (IH Hn). lia. }
  intros Hin. apply elem_of_elements, list_elem_of_In, (in_map Z.to_nat), Hmax in Hin. unfold fresh_fd in Hin. lia.
Qed.

#[local] Instance sample_FdLaws : FdLaws sample_net.
Proof.
  refine {| open_fds := s_fds; dialled := s_dialled |}; cbn.
  - intros f t p k r k' [= <- <-]. cbn. split_and!; try done. apply fresh_fd_new.
  - by intros d k u k' [= _ <-].
  - by intros d o k r k' [= _ <-].
  - intros d ad k r k' [= <- <-]. cbn. by destruct (negb _).
  - by intros d ad k r k' [= _ <-].
  - by intros h p hs k r k' [= _ <-].
Defined.

#[local] Instance sample_SchedulerLaws : SchedulerLaws sample_net.
Proof.
  by constructor.
Defined.

Definition net0 : sample_net := {| s_in := lit "hello"; s_out := []; s_fds := {[0; 1; 2]}; s_dialled := [] |}.

Lemma socket_streams_witness :
  exists res k' j, socket_write 12 (sock 7) (lit "hello world") 0 net0 = (Ret res, k')
    /\ s_out k' = take j (lit "hello world") /\ (failed (result_err res) = false -> j = 11%nat).
Proof.
  pose proof (socket_streams (d := 7) net0 5 (lit "hello world")) as Hw. destruct (proj2 (Hw I)) as (res & k' & j & E & _ & _ & _ & Ho & Hf & _).
  exists res, k', j. split_and!; [exact E|exact Ho|]. intros Hn. apply (Hf Hn).
Defined.

(** The second address answers; the socket of the first one is closed again.
    A listener has the descriptor it bound. *)
Lemma descriptors_balanced_witness :
  (let (r, k') := tcp_open (lit "host") (lit "80") not_care true 0 net0 in
   opens {[0; 1; 2]} r k' /\ dials [lit "down"; lit "up"] [] r k')
  /\ exists l k', make_listener (lit "host") (lit "80") net_tcp not_care net0 = (Ret l, k') /\ s_fds k' = {[main_fd l]} ∪ {[0; 1; 2]}.
Proof.
  pose proof (descriptors_balanced (lit "host") (lit "80") not_care true 0 net_tcp net0) as (Ht & _ & Hl). split; [exact Ht|].
  destruct (make_listener (lit "host") (lit "80") net_tcp not_care net0) as [[l|e| | |] k'] eqn:E.
  - exists l, k'. split; [reflexivity|]. apply Hl.
  - exfalso. apply (f_equal fst) in E. vm_compute in E. discriminate.
  - destruct Hl.
  - destruct Hl.
  - destruct Hl.
Defined.

Example tcp_open_second :
  (tcp_open (lit "host") (lit "80") not_care true 0 net0).1 = Ret 3
  /\ s_dialled (tcp_open (lit "host") (lit "80") not_care true 0 net0).2 = [(lit "down", false); (lit "up", true)].
Proof. split; vm_compute; reflexivity. Qed.

(** A scheduler that cannot take another descriptor (ENOSPC): the constructor
    of [listener] throws, and descriptor 3 stays open. *)
Definition refusing_Scheduler : Scheduler sample_net :=
  {| register_fd d := io_throw (system_error 28); deregister_fd d := io_ret tt; schedule := @schedule _ sample_Scheduler |}.

Example listener_registration_leaks :
  exists k', make_listener (H := refusing_Scheduler) (lit "host") (lit "80") net_tcp not_care net0 = (Throw (system_error 28), k')
    /\ s_fds k' = {[3]} ∪ s_fds net0.
Proof. eexists. split; [vm_compute; reflexivity|]. vm_compute. reflexivity. Qed.

(** A listener that was made and destroyed without [listen] keeps its
    descriptor open; one that listened closes it, and the process ends if the
    scheduler does not like to remove it. *)
Lemma listener_lifetime {K : Type} `{SchedulerLaws K} (l : listener) (k : K) :
  main_fd l <> invalid_fd ->
  (is_listening l = false -> destroy_listener l k = (Ret tt, k))
  /\ (is_listening l = true ->
      let (r, k') := destroy_listener l k in
      open_fds k' = open_fds k ∖ {[main_fd l]}
      /\ (r = Ret tt \/ (r = Terminate /\ exists k1 e, deregister_fd (main_fd l) k1 = (Throw e, k')))).
Proof.
  intros Hd. unfold destroy_listener, listener_shutdown. split; intros ->; [done|].
  rewrite (proj2 (Z.eqb_neq _ _) Hd). cbn [andb negb]. unfold io_noexcept, io_bind, call.
  destruct (sys_close (main_fd l) k) as [u k1] eqn:E1. apply close_fds in E1 as [Hc _].
  pose proof (deregister_law (main_fd l) k1) as Hl. destruct (deregister_fd (main_fd l) k1) as [[[]|e| | |] k2] eqn:E2; cbn in Hl |- *; try done;
    (split; [congruence|]); [by left|right]. split; [done|]. by exists k1, e.
Qed.

(** [close] of a socket with a pending error does nothing: [valid] is false. *)
Lemma close_pending_error {K : Type} `{Scheduler K, Net K} (graceful : bool) (timeout : Z) (s : socket) (e : Z) (k k' : K) :
  fd s <> invalid_fd -> scheduler s = true -> sys_so_error (fd s) k = (inr e, k') -> e <> 0 -> close graceful timeout s k = (Ret tt, k').
Proof.
  intros Hfd Hs E He. unfold close, valid, io_noexcept. rewrite (proj2 (Z.eqb_neq _ _) Hfd), Hs. cbn [orb negb].
  unfold io_bind, call. rewrite E. cbn. by rewrite (proj2 (Z.eqb_neq _ _) He).
Qed.

(** The text of an address is as long as the buffer, whatever the address. *)
Lemma addr_name_length {K : Type} `{Net K} (addr text : list byte) (k : K) :
  (sys_inet_ntop AF_INET addr = inr text -> (length text < INET_ADDRSTRLEN)%nat ->
   exists name, addr_name AF_INET addr k = (Ret name, k) /\ length name = INET_ADDRSTRLEN /\ take (length text) name = text)
  /\ (sys_inet_ntop AF_INET6 addr = inr text -> (length text < INET6_ADDRSTRLEN)%nat ->
   exists name, addr_name AF_INET6 addr k = (Ret name, k) /\ length name = INET6_ADDRSTRLEN /\ take (length text) name = text).
Proof.
  split; intros E Hl; unfold addr_name; cbn [Z.eqb]; rewrite E; eexists; (split; [done|]);
    rewrite length_replicate, (take_ge (text ++ [x00])) by (rewrite length_app; cbn; unfold INET_ADDRSTRLEN, INET6_ADDRSTRLEN in *; lia);
    (split; [rewrite !length_app, length_drop, length_replicate; cbn; unfold INET_ADDRSTRLEN, INET6_ADDRSTRLEN in *; lia|]);
    by rewrite <- app_assoc, take_app_length.
Qed.
