(* ===== verification/Serve.v ===== *)
(** * Accepting connections (server::server, close and serve of src/http/server.cpp)

    The loop of [serve] over the operations of [Sockets].  [serving] reads the
    flag [is_serving], which another thread may clear; scheduling a connection
    hands its socket to [serve_connection] ([Server]), and the sockets handed
    over are the result.  Logging is left out, but not the calls that make its
    arguments. *)

From Stdlib Require Import ZArith Lia Strings.Byte String.
From stdpp Require Import prelude list gmap strings.
From S2P Require Import Prelude CxxStrings Io Coro EpollLoop KqueueLoop Sockets.

(** ** Definitions *)

Record server_config := { cfg_host : list byte; cfg_port : list byte; cfg_max_header_bytes : Z; cfg_max_pending_connections : Z }.
Definition default_config : server_config :=
  {| cfg_host := []; cfg_port := lit "8080"; cfg_max_header_bytes := 8192; cfg_max_pending_connections := 512 |}.

Record server := { srv_listener : listener; is_serving : bool; max_header_bytes : Z; max_pending_connections : Z }.

Section Serve.
Context {K : Type} `{Scheduler K, Net K} (serving : K -> bool).

Definition make_server (cfg : server_config) : io K server :=
  let! l := make_listener (cfg_host cfg) (cfg_port cfg) net_tcp not_care in
  io_ret {| srv_listener := l; is_serving := false; max_header_bytes := cfg_max_header_bytes cfg;
            max_pending_connections := cfg_max_pending_connections cfg |}.

(** [close], and the destructor *)
Definition server_close (s : server) : io K server :=
  if is_serving s then
    let! l := listener_shutdown (srv_listener s) in
    io_ret {| srv_listener := l; is_serving := false; max_header_bytes := max_header_bytes s; max_pending_connections := max_pending_connections s |}
  else io_ret s.

(** A scope that owns a socket: an exception destroys it on its way. *)
Definition with_socket {A} (s : socket) (m : io K A) : io K A := fun k =>
  match m k with
  | (Throw e, k) => let (r, k) := destroy_socket s k in (match r with Ret _ => Throw e | Throw _ | Terminate => Terminate | Undef => Undef | OutOfFuel => OutOfFuel end, k)
  | r => r
  end.

(** The body of the [try]: a socket to serve, or [None] for [co_return] *)
Definition serve_accept (l : listener) : io K (option socket) :=
  let! s := accept l in
  with_socket s
    (let! _ := remote_addr s in
     let! _ := local_addr s in
     let! v := valid s in
     if v then io_ret (Some s)
     else fun k => if negb (serving k) then (let! _ := destroy_socket s in io_ret None) k
                   else (Throw (runtime_error "listener unexpected closed"), k)).

(** How a turn of the loop ends *)
Inductive turn := Scheduled (s : socket) | Logged | Returned.

(** [catch (const std::exception&)] does not catch an [std::error_condition]. *)
Definition serve_loop_turn (l : listener) : io K turn := fun k =>
  match serve_accept l k with
  | (Ret (Some s), k) => (Ret (Scheduled s), k)
  | (Ret None, k) => (Ret Returned, k)
  | (Throw thrown_condition, k) => (Throw thrown_condition, k)
  | (Throw _, k) => (Ret Logged, k)
  | (Terminate, k) => (Terminate, k)
  | (Undef, k) => (Undef, k)
  | (OutOfFuel, k) => (OutOfFuel, k)
  end.

(** The loop: the sockets it schedules *)
Fixpoint serve_loop (fuel : nat) (l : listener) : io K (list socket) := fun k =>
  match fuel with
  | O => (OutOfFuel, k)
  | S fuel =>
      if negb (serving k) then (Ret [], k)
      else
        (let! t := serve_loop_turn l in
         match t with
         | Scheduled s => let! rest := serve_loop fuel l in io_ret (s :: rest)
         | Logged => serve_loop fuel l
         | Returned => io_ret []
         end) k
  end.

Definition serve (fuel : nat) (s : server) : io K (list socket) :=
  if is_serving s then io_throw (runtime_error "already serving")
  else
    let! (l, failure) := listen (max_pending_connections s) (srv_listener s) in
    match failure with
    | Some e => io_throw e
    | None => serve_loop fuel l
    end.

(** ** Properties *)

Lemma serve_loop_S fuel l k :
  serving k = true ->
  serve_loop (S fuel) l k = (let! t := serve_loop_turn l in
         match t with
         | Scheduled s => let! rest := serve_loop fuel l in io_ret (s :: rest)
         | Logged => serve_loop fuel l
         | Returned => io_ret []
         end) k.
Proof. intros Hs. cbn [serve_loop]. by rewrite Hs. Qed.

(** A connection to be accepted: what each call of a turn gives *)
Record arrives (l : listener) (k : K) (s : socket) (k' : K) : Prop := {
  arrive_serving : serving k = true;
  arrive_turn : exists k1 k2 k3 a b, accept l k = (Ret s, k1) /\ remote_addr s k1 = (Ret a, k2) /\ local_addr s k2 = (Ret b, k3)
    /\ valid s k3 = (Ret true, k');
}.

Lemma arrives_turn l k s k' : arrives l k s k' -> serve_loop_turn l k = (Ret (Scheduled s), k').
Proof.
  intros [_ (k1 & k2 & k3 & a & b & E1 & E2 & E3 & E4)]. unfold serve_loop_turn, serve_accept.
  rewrite (bind_Ret _ _ _ _ _ E1). unfold with_socket. rewrite (bind_Ret _ _ _ _ _ E2), (bind_Ret _ _ _ _ _ E3), (bind_Ret _ _ _ _ _ E4). done.
Qed.

(** The sockets arrive one after the other, then the flag is cleared. *)
Inductive arrivals (l : listener) : K -> list socket -> K -> Prop :=
| arrivals_end k : serving k = false -> arrivals l k [] k
| arrivals_next k s k' ss k'' : arrives l k s k' -> arrivals l k' ss k'' -> arrivals l k (s :: ss) k''.

(** [serve] schedules every connection that arrives, in order, and ends when the
    server is closed. *)
Lemma serve_schedules l k ss k' fuel : arrivals l k ss k' -> (length ss < fuel)%nat -> serve_loop fuel l k = (Ret ss, k').
Proof.
  intros Ha. revert fuel. induction Ha as [k Hs|k s k1 ss k2 H1 _ IH]; intros fuel Hf; (destruct fuel as [|fuel]; [cbn in Hf; lia|]).
  - cbn [serve_loop]. by rewrite Hs.
  - rewrite serve_loop_S by (by destruct H1). rewrite (bind_Ret _ _ _ _ _ (arrives_turn _ _ _ _ H1)).
    rewrite (bind_Ret _ _ _ _ _ (IH fuel ltac:(cbn in Hf; lia))). done.
Qed.

(** An error of the awaited operation is thrown as an [std::error_condition]
    and ends [serve]. *)
Lemma serve_error_ends l k res k1 fuel :
  serving k = true -> Sockets.is_listening l = true -> schedule (main_fd l) poll_read 0 k = (Ret res, k1) -> failed (result_err res) = true ->
  serve_loop (S fuel) l k = (Throw thrown_condition, k1).
Proof.
  intros Hs Hl E Hf. rewrite serve_loop_S by done. assert (serve_loop_turn l k = (Throw thrown_condition, k1)) as Ht.
  { unfold serve_loop_turn, serve_accept. assert (accept l k = (Throw thrown_condition, k1)) as Ea.
    { unfold accept. rewrite Hl. cbn [negb]. rewrite (bind_Ret _ _ _ _ _ E), Hf. done. }
    by rewrite (bind_eq _ _ _ _ _ Ea). }
  by rewrite (bind_eq _ _ _ _ _ Ht).
Qed.

(** A connection the peer has reset: its name cannot be had, the exception is
    logged, and its descriptor is not closed, because the pending error makes
    [valid] false. *)
Lemma serve_reset_leaks l k s k1 e k2 e' k3 :
  serving k = true -> accept l k = (Ret s, k1) -> fd s <> invalid_fd -> scheduler s = true ->
  sys_getname true (fd s) k1 = (inl e, k2) -> sys_so_error (fd s) k2 = (inr e', k3) -> e' <> 0 ->
  serve_loop_turn l k = (Ret Logged, k3).
Proof.
  intros Hs Ea Hfd Hsch En Ee He. unfold serve_loop_turn, serve_accept. rewrite (bind_Ret _ _ _ _ _ Ea). unfold with_socket.
  assert (remote_addr s k1 = (Throw (system_error e), k2)) as Er by (unfold remote_addr; rewrite bind_call, En; done).
  rewrite (bind_eq _ _ _ _ _ Er). unfold destroy_socket. by rewrite (close_pending_error true 5 s e' k2 k3).
Qed.
End Serve.
