(* ===== verification/Network.v ===== *)
(** * Sockets over the two event loops

    The scheduler of [Sockets] made of the kqueue loop and of the epoll loop:
    one coroutine, at address [a], awaits its operations while no other one
    does anything.  Over kqueue the sockets are streams ([kq_connection]); over
    epoll a read of waiting bytes, the first write, [listener::accept] and
    [listener::shutdown] go wrong ([sockets_on_epoll]). *)

From Stdlib Require Import ZArith Lia Strings.Byte String.
From stdpp Require Import prelude list gmap strings.
From S2P Require Import Prelude CxxStrings Io Coro EpollLoop KqueueLoop Sockets.
From S2P Require Import StringMap Headers Messages Http11 Router Server.

(** The system calls do not touch the state of the loop. *)
Definition under {L K A} (f : K -> A * K) : L * K -> A * (L * K) :=
  fun '(p, k) => let (r, k) := f k in (r, (p, k)).

#[global] Instance under_Net {L K} `{Net K} : Net (L * K) := {
  sys_recv d n := under (sys_recv d n);
  sys_send d b := under (sys_send d b);
  sys_so_error d := under (sys_so_error d);
  sys_setsockopt d o := under (sys_setsockopt d o);
  sys_close d := under (sys_close d);
  sys_getaddrinfo h p hs := under (sys_getaddrinfo h p hs);
  sys_socket f t p := under (sys_socket f t p);
  sys_connect d ad := under (sys_connect d ad);
  sys_bind d ad := under (sys_bind d ad);
  sys_listen d n := under (sys_listen d n);
  sys_accept d := under (sys_accept d);
  sys_getname peer d := under (sys_getname peer d);
  sys_inet_ntop := sys_inet_ntop;
  sys_errno s := sys_errno s.2;
}.

(** An operation of the loop, which keeps its state when it throws *)
Definition of_loop {L K A} (f : L -> K -> outcome (A * L * K)) : io (L * K) A :=
  fun '(p, k) =>
    match f p k with
    | Ret (r, p, k) => (Ret r, (p, k))
    | Throw e => (Throw e, (p, k))
    | Terminate => (Terminate, (p, k))
    | Undef => (Undef, (p, k))
    | OutOfFuel => (OutOfFuel, (p, k))
    end.

(** The descriptors are the kernel's. *)
#[global] Instance under_FdLaws {L K} `{FdLaws K} : FdLaws (L * K).
Proof.
  refine {| open_fds s := open_fds s.2; dialled s := dialled s.2 |}; intros;
    repeat match goal with s : (L * K)%type |- _ => destruct s end; cbn [snd] in *;
    match goal with E : _ = (_, _) |- _ =>
      cbn in E; unfold under in E; match type of E with context [let (_, _) := ?c in _] => destruct c eqn:Ec end; injection E as <- _ <- end;
    eauto using socket_fds, close_fds, setsockopt_fds, connect_fds, bind_fds, getaddrinfo_fds.
Defined.

(** ** kqueue *)

Section Kqueue.
Context {K : Type} `{KQueue K, Net K} (frames : Z -> option bool) (a d : Z).

#[local] Instance kq_Scheduler : Scheduler (kqueue_loop * K) := {
  register_fd d := of_loop (fun p k => let* k := kq_register_handle d k in Ret (tt, p, k));
  deregister_fd d := of_loop (fun p k => let* k := kq_deregister_handle d k in Ret (tt, p, k));
  schedule d op timeout := of_loop (kq_schedule frames 1 a d op timeout);
}.

(** What is documented of the filters of an open socket: the event is reported
    when there are bytes to read or room to write, with how many, at the end of
    the stream with EV_EOF and what is left, or with an error. *)
Class KQueueSocket := {
  ks_ok : K -> Prop;
  ks_incoming : K -> list byte;
  ks_outgoing : K -> list byte;
  ks_spurious : K -> nat;
  ks_poll filt k : filt = EVFILT_READ \/ filt = EVFILT_WRITE -> ks_ok k ->
    exists k1 ev k2, kevent_change [make_io_kevent a d filt] k = (0, k1) /\ kevent_wait 16 k1 = (inr [ev], k2)
      /\ ks_ok k2 /\ ks_incoming k2 = ks_incoming k /\ ks_outgoing k2 = ks_outgoing k /\ (ks_spurious k2 <= ks_spurious k)%nat
      /\ filter ev = filt /\ udata ev = a /\ 0 <= data ev < 2 ^ 63
      /\ (flag_set (flags ev) EV_ERROR = true -> data ev <> 0 /\ (filt = EVFILT_READ -> ks_incoming k = []))
      /\ (flag_set (flags ev) EV_EOF = false -> 0 < data ev)
      /\ (data ev = 0 -> filt = EVFILT_READ -> ks_incoming k = []);
  ks_recv n k r k' : 0 < n -> ks_ok k -> sys_recv d n k = (r, k') ->
    ks_ok k' /\ ks_outgoing k' = ks_outgoing k
    /\ match r with
       | inl e => ks_incoming k' = ks_incoming k /\ if again e then (ks_spurious k' < ks_spurious k)%nat else ks_incoming k = [] /\ e <> 0
       | inr got => ks_incoming k = got ++ ks_incoming k' /\ Z.of_nat (length got) <= n /\ (got = [] -> ks_incoming k = [])
       end;
  ks_send b k r k' : b <> [] -> ks_ok k -> sys_send d b k = (r, k') ->
    ks_ok k' /\ ks_incoming k' = ks_incoming k
    /\ match r with
       | inl e => ks_outgoing k' = ks_outgoing k /\ e <> 0 /\ (again e = true -> (ks_spurious k' < ks_spurious k)%nat)
       | inr n => 0 <= n <= Z.of_nat (length b) /\ ks_outgoing k' = ks_outgoing k ++ take (Z.to_nat n) b /\ (ks_spurious k' <= ks_spurious k)%nat
       end;
}.

Context `{KQueueSocket} (waiting : frames a = Some false).

Definition kq_filter (op : poll_op) : Z := if is_readable op then EVFILT_READ else EVFILT_WRITE.

(** The await of one operation: the event is queued, a turn of the scheduler
    delivers it, and the coroutine resumes with its result. *)
Lemma kq_schedule_result op p k :
  op = poll_read \/ op = poll_write -> kq_running p = true -> descriptor p <> -1 -> ks_ok k ->
  exists k1 ev k', kevent_change [make_io_kevent a d (kq_filter op)] k = (0, k1) /\ kevent_wait 16 k1 = (inr [ev], k')
    /\ kq_schedule frames 1 a d op 0 p k
      = Ret (kevent_result ev, p, k')
    /\ ks_ok k' /\ ks_incoming k' = ks_incoming k /\ ks_outgoing k' = ks_outgoing k /\ (ks_spurious k' <= ks_spurious k)%nat
    /\ filter ev = kq_filter op /\ udata ev = a /\ 0 <= data ev < 2 ^ 63
    /\ (flag_set (flags ev) EV_ERROR = true -> data ev <> 0 /\ (op = poll_read -> ks_incoming k = []))
    /\ (flag_set (flags ev) EV_EOF = false -> 0 < data ev)
    /\ (data ev = 0 -> op = poll_read -> ks_incoming k = []).
Proof.
  intros Hop Hrun Hd Hok.
  assert (kq_filter op = EVFILT_READ \/ kq_filter op = EVFILT_WRITE) as Hfilt by (destruct Hop as [-> | ->]; [by left|by right]).
  destruct (ks_poll (kq_filter op) k Hfilt Hok) as (k1 & ev & k2 & E1 & E2 & Hok2 & Hi & Ho & Hs & Hf & Hu & Hrange & Herr & Heof & Hend).
  assert (op = poll_read -> kq_filter op = EVFILT_READ) as Hr by (by intros ->).
  exists k1, ev, k2. split; [done|]. split; [done|]. split; [|split_and!; try done; try lia; try (intros E; destruct (Herr E); split); auto].
  assert (kq_queue a d op 0 p k = (p, k1)) as Eq.
  { unfold kq_queue. change (is_set 0) with false. cbv beta iota. rewrite (proj2 (Z.eqb_neq _ _) Hd).
    destruct Hop as [-> | ->]; [change (is_readable poll_read) with true; change (is_writable poll_read) with false
      |change (is_readable poll_write) with false; change (is_writable poll_write) with true]; cbn [app]; unfold kq_filter in E1; [change (is_readable poll_read) with true in E1|change (is_readable poll_write) with false in E1]; by rewrite E1. }
  unfold kq_schedule. rewrite Eq. cbn [kq_wait_for]. rewrite kq_run_turn_spec, Hrun, (proj2 (Z.eqb_neq _ _) Hd). cbn [orb negb].
  rewrite E2. cbn [omap list_omap existsb forallb].
  assert ((filter ev =? EVFILT_USER) = false) as Hnu by (rewrite Hf; destruct Hfilt as [-> | ->]; done).
  unfold answerable, deliver, is_shutdown, has_frame, suspended. rewrite Hnu, Hu, waiting. cbn. by rewrite Z.eqb_refl.
Qed.

#[local] Instance kq_connection : Connection (kqueue_loop * K) d.
Proof.
  refine {| conn_ok s := kq_running s.1 = true /\ descriptor s.1 <> -1 /\ ks_ok s.2;
            incoming s := ks_incoming s.2; outgoing s := ks_outgoing s.2; spurious s := ks_spurious s.2 |}.
  - intros op [p k] Hop (Hrun & Hd & Hok). cbn in Hrun, Hd, Hok.
    destruct (kq_schedule_result op p k Hop Hrun Hd Hok) as (k1 & ev & k' & _ & _ & E & Hok' & Hi & Ho & Hs & Hf & Hu & Hrange & Herr & Heof & Hend).
    eexists _, (p, k'). cbn [schedule kq_Scheduler of_loop]. rewrite E. split; [done|].
    unfold kevent_result. cbn [snd fst].
    assert (u64 (data ev) = data ev) as Hu64 by (apply wrap_small; lia).
    destruct (flag_set (flags ev) EV_ERROR) eqn:Ee; cbn [result result_count result_err].
    + destruct (Herr eq_refl) as [Hne Hin]. split_and!; try done; cbn; [intros Hfail; by apply negb_false_iff, Z.eqb_eq in Hfail|intros Hop' _ _; by apply Hin].
    + rewrite Hu64. split_and!; try done; try lia.
      * intros Hfail. apply Heof. assert (filter ev <> EVFILT_TIMER /\ ((filter ev =? EVFILT_READ) || (filter ev =? EVFILT_WRITE) = true)) as [Ht Hrw].
        { rewrite Hf. unfold kq_filter. by destruct (is_readable op). }
        rewrite (proj2 (Z.eqb_neq _ _) Ht), Hrw in Hfail. destruct (flag_set (flags ev) EV_EOF); [|done].
        destruct (fflags ev =? 0) eqn:E0; cbn in Hfail; [done|]. by rewrite E0 in Hfail.
      * intros -> _ Hz. by apply Hend.
  - intros n [p k] r k2 Hn (Hrun & Hd & Hok) E. cbn in *. destruct (sys_recv d n k) as [r' k'] eqn:E'. injection E as <- <-.
    apply ks_recv in E' as (Hok' & Ho & Hr); [|done|done]. cbn. split_and!; done.
  - intros b [p k] r k2 Hb (Hrun & Hd & Hok) E. cbn in *. destruct (sys_send d b k) as [r' k'] eqn:E'. injection E as <- <-.
    apply ks_send in E' as (Hok' & Ho & Hr); [|done|done]. cbn. split_and!; done.
Defined.

(** A peer that takes everything *)
Class KQueueReliable : Prop := {
  kr_poll k k1 ev k2 : ks_ok k -> kevent_change [make_io_kevent a d EVFILT_WRITE] k = (0, k1) -> kevent_wait 16 k1 = (inr [ev], k2) ->
    flag_set (flags ev) EV_ERROR = false /\ flag_set (flags ev) EV_EOF = false;
  kr_send b k r k' : b <> [] -> ks_ok k -> sys_send d b k = (r, k') -> match r with inl e => again e = true | inr n => 0 < n end;
}.

Context `{KQueueReliable}.

#[local] Instance kq_reliable : ReliableConnection (kqueue_loop * K) d.
Proof.
  constructor.
  - intros [p k] res s' (Hrun & Hd & Hok) E. cbn in Hrun, Hd, Hok.
    destruct (kq_schedule_result poll_write p k (or_intror eq_refl) Hrun Hd Hok) as (k1 & ev & k' & E1 & E2 & Es & _ & _ & _ & _ & Hf & Hu & _).
    change (kq_filter poll_write) with EVFILT_WRITE in *. destruct (kr_poll _ _ _ _ Hok E1 E2) as [He Heof].
    cbn [schedule kq_Scheduler of_loop] in E. rewrite Es in E. injection E as <- _. unfold kevent_result. rewrite He, Heof, Hf. done.
  - intros b [p k] r s' Hb (_ & _ & Hok) E. cbn in *. destruct (sys_send d b k) as [r' k'] eqn:E'. injection E as <- <-.
    by apply kr_send in E'.
Qed.

(** The loop runs and the connection is open. *)
Definition loop_ok (s : kqueue_loop * K) : Prop := kq_running s.1 = true /\ descriptor s.1 <> -1 /\ ks_ok s.2.

(** C34: an HTTP exchange through sockets whose coroutines wait on the kqueue
    loop: a server whose socket receives the text of a request answers it with
    the response of the handler its router has for it, and a client whose socket
    receives that text sends the request and returns the handler's status and
    headers, with a body that reads the handler's data. *)
Theorem http_over_sockets std_hash (iterate : headers -> headers) rt (h : handler (conn (kqueue_loop * K) d))
    req query_order hs s n data mx fuel (request response : list byte) :
  (forall h, iterate h ≡ₚ h) ->
  exchange_ok std_hash iterate rt h req query_order hs s n data mx ->
  request = request_text req query_order (iterate (creq_headers req)) ->
  response = response_text {| sresp_version := creq_version req; sresp_status := s; sresp_headers := hs ++ [length_header n] |}
               (iterate (hs ++ [length_header n])) ++ data ->
  (length request < fuel)%nat -> (length response < fuel)%nat ->
  (forall rs ws : kqueue_loop * K, loop_ok rs -> loop_ok ws -> ks_incoming rs.2 = request ->
     exists ro w', serve_turn std_hash iterate fuel mx rt (Conn rs) (Conn ws) = Ret (ro, w')
       /\ ks_outgoing (kern w').2 = ks_outgoing ws.2 ++ response)
  /\ (forall rs ws : kqueue_loop * K, loop_ok rs -> loop_ok ws -> ks_incoming rs.2 = response ->
     exists b r' w', client_send (R := conn (kqueue_loop * K) d) (W := conn (kqueue_loop * K) d) iterate fuel (Conn rs) (Conn ws) req query_order
         = Ret (inl {| resp_version := creq_version req; resp_status := s;
                       resp_headers := received_headers (iterate (hs ++ [length_header n])); resp_body := b |}, w')
       /\ ks_outgoing (kern w').2 = ks_outgoing ws.2 ++ request
       /\ BufferedReader.buffered_ok r' /\ BufferedReader.buffered_stream r' = data /\ body_of (received_headers (iterate (hs ++ [length_header n]))) r' = Ret b).
Proof.
  intros Hperm [Hreq Hver Hup Hsize Hroute Hrep Hstat (Hmap & Ho & Hhs)] -> -> Hf1 Hf2.
  assert (request_version (creq_version req) = creq_version req) as Hv by (unfold request_version; by rewrite Hver).
  split; intros rs ws Hr Hw Hi.
  - destruct (serve_turn_answers (W := conn (kqueue_loop * K) d) iterate std_hash Hperm fuel mx rt h req query_order hs s n data (Conn rs) (Conn ws))
      as (ro & w' & E & Hs); try done; [by rewrite Hv|]. unfold answer_text in Hs. rewrite Hv in Hs. by exists ro, w'.
  - destruct (client_send_receives (RC := conn (kqueue_loop * K) d) (WC := conn (kqueue_loop * K) d) iterate fuel req query_order
      {| sresp_version := creq_version req; sresp_status := s; sresp_headers := hs ++ [length_header n] |} data (Conn rs) (Conn ws))
      as (b & r' & w' & E & Hs & Hb); try done; [lia| |by exists b, r', w'].
    constructor; cbn [sresp_status sresp_version sresp_headers]; [done|apply (ok_version _ _ _ Hreq)|].
    split_and!; [done|apply Hperm|by rewrite Hperm].
Qed.
End Kqueue.

(** *** A kernel, for the examples: three bytes are ready at a time, and the
    peer takes everything. *)

Record wire := { w_in : list byte; w_out : list byte; w_event : option kevent }.

#[local] Instance wire_KQueue : KQueue wire := {
  kevent_change evs k := (0, {| w_in := w_in k; w_out := w_out k; w_event := head evs |});
  kevent_wait n k :=
    (inr (match w_event k with
          | None => []
          | Some e =>
              let reading := filter e =? EVFILT_READ in
              [{| ident := ident e; filter := filter e; flags := if reading && bool_decide (w_in k = []) then EV_EOF else 0; fflags := 0;
                  data := if reading then Z.of_nat (length (take 3 (w_in k))) else 100; udata := udata e |}]
          end), {| w_in := w_in k; w_out := w_out k; w_event := None |});
  kqueue_now k := (0, k);
}.

#[local] Instance wire_Net : Net wire := {
  sys_recv d n k := (inr (take (Z.to_nat n) (w_in k)), {| w_in := drop (Z.to_nat n) (w_in k); w_out := w_out k; w_event := w_event k |});
  sys_send d b k := (inr (Z.of_nat (length b)), {| w_in := w_in k; w_out := w_out k ++ b; w_event := w_event k |});
  sys_so_error d k := (inr 0, k);
  sys_setsockopt d o k := (inr tt, k);
  sys_close d k := (tt, k);
  sys_getaddrinfo h p hs k := (inr [], k);
  sys_socket f t p k := (inl 97, k);
  sys_connect d ad k := (inr tt, k);
  sys_bind d ad k := (inr tt, k);
  sys_listen d n k := (inr tt, k);
  sys_accept d k := (inl EAGAIN, k);
  sys_getname peer d k := (inr (AF_INET, []), k);
  sys_inet_ntop f ad := inr [];
  sys_errno k := 0;
}.

#[local] Instance wire_socket : KQueueSocket (K := wire) 4096 7.
Proof.
  refine {| ks_ok _ := True; ks_incoming := w_in; ks_outgoing := w_out; ks_spurious _ := 0%nat |}.
  - intros filt k Hf _. do 3 eexists. split; [reflexivity|]. split; [reflexivity|]. cbn [w_in w_out filter udata data flags].
    assert (forall l : list byte, 0 <= Z.of_nat (length (take 3 l)) < 2 ^ 63) as Hlen.
    { intros l. rewrite length_take. lia. }
    assert (Z.of_nat (length (take 3 (w_in k))) = 0 -> w_in k = []) as Hnil by (by destruct (w_in k)).
    destruct Hf as [-> | ->]; cbn [Z.eqb andb make_io_kevent filter EVFILT_READ EVFILT_WRITE Pos.eqb]; split_and!; try done; try apply Hlen.
    + by destruct (bool_decide _).
    + case_bool_decide as Hw; [done|]. intros _. specialize (Hlen (w_in k)). destruct (Z.eq_dec (Z.of_nat (length (take 3 (w_in k)))) 0); [tauto|lia].
    + auto.
  - intros n k r k' Hn _ [= <- <-]. cbn. split_and!; try done; [by rewrite take_drop|rewrite length_take; lia|].
    intros E. apply (f_equal length) in E. rewrite length_take in E. cbn in E. destruct (w_in k); [done|]. cbn in E. lia.
  - intros b k r k' Hb _ [= <- <-]. cbn. rewrite Nat2Z.id, firstn_all. split_and!; try done; lia.
Defined.

#[local] Instance wire_reliable : KQueueReliable (K := wire) 4096 7.
Proof.
  constructor.
  - intros k k1 ev k2 _ [= <-] [= <- _]. done.
  - intros b k r k' Hb _ [= <- _]. destruct b; [done|]. cbn. lia.
Qed.

#[local] Instance wire_Scheduler : Scheduler (kqueue_loop * wire) := kq_Scheduler (fun _ => Some false) 4096.
#[local] Instance wire_connection : Connection (kqueue_loop * wire) 7 := kq_connection (fun _ => Some false) 4096 7 eq_refl.

Definition wire_of (input : list byte) : kqueue_loop * wire :=
  ({| kq_running := true; descriptor := 3; timeout_id := 1 |}, {| w_in := input; w_out := []; w_event := None |}).

Lemma http_over_sockets_witness :
  exists ro w', serve_turn (R := conn (kqueue_loop * wire) 7) (W := conn (kqueue_loop * wire) 7) (fun _ => 0) id 200 1000 hello_router
      (Conn (wire_of (request_text sample_request [] sample_headers))) (Conn (wire_of [])) = Ret (ro, w')
    /\ w_out (kern w').2 = hello_response.
Proof.
  pose proof (http_over_sockets (K := wire) (fun _ => Some false) 4096 7 eq_refl (fun _ => 0) id hello_router hello sample_request []
           [(lit "Server", [lit "cppnet"])] STATUS_OK 5 (lit "hello") 1000 200
           (request_text sample_request [] sample_headers) hello_response) as Hw.
  apply Hw.
  - done.
  - constructor.
    + apply sample_request_ok.
    + reflexivity.
    + intros vals Hv. vm_compute in Hv. discriminate Hv.
    + vm_compute. split; reflexivity.
    + vm_compute. reflexivity.
    + intros b. by eexists.
    + apply (bool_decide_unpack _). vm_compute. exact I.
    + destruct hello_headers_ok as [Hm Ho]. split_and!; [exact Hm|exact Ho|vm_compute; reflexivity].
  - reflexivity.
  - reflexivity.
  - vm_compute. lia.
  - vm_compute. lia.
  - done.
  - done.
  - reflexivity.
Defined.

(** *** The descriptors: registering does nothing, so a listener that cannot be
    made leaves none. *)

Section KqueueFds.
Context {K : Type} `{KQueue K, FdLaws K} (frames : Z -> option bool) (a : Z).

#[local] Instance loop_Scheduler : Scheduler (kqueue_loop * K) := kq_Scheduler frames a.

#[local] Instance kq_SchedulerLaws : SchedulerLaws (kqueue_loop * K).
Proof. constructor; by intros d [p k]. Defined.

Lemma listener_on_kqueue host port net proto (s : kqueue_loop * K) e s' :
  make_listener host port net proto s = (Throw e, s') -> open_fds s' = open_fds s.
Proof.
  intros E. pose proof (make_listener_fds host port net proto s) as Hl. rewrite E in Hl. destruct Hl as [?|(d & [p k] & _ & Hr & _)]; [done|].
  by cbn in Hr.
Qed.
End KqueueFds.

(** ** epoll *)

Definition EBADF : Z := 9.

Lemma dispatch_events_counts {K} `{Kernel K} p (k : K) evs : Forall (fun ev => result_count (result ev) = 0) (dispatch_events p k evs).1.
Proof.
  induction evs as [|ev evs IH]; cbn [dispatch_events]; [done|]. destruct (dispatch_events p k evs) as [out t]. cbn in IH.
  destruct (_ =? _); [done|]. destruct (_ =? _); [done|]. by constructor.
Qed.

Lemma expire_counts frames now l out rest :
  expire frames now l = Ret (out, rest) -> Forall (fun ev => result_count (result ev) = 0) out.
Proof.
  revert out rest. induction l as [|o l IH]; cbn [expire]; intros out rest; [by intros [= <- _]|].
  destruct (timeout_at o <=? now); [|by intros [= <- _]]. intros ([out' rest'] & He & E)%bind_Ret_inv. apply IH in He.
  destruct (op_handle o =? 0); [by injection E as <- _|]. destruct (frames (op_handle o)) as [[|]|]; [| |done]; injection E as <- _; by repeat constructor.
Qed.

(** The events of the epoll loop do not say how many bytes are ready. *)
Lemma dispatch_counts {K} `{Kernel K} frames p (k : K) b p' k' :
  EpollLoop.dispatch frames p k = Ret (b, p', k') -> Forall (fun ev => result_count (result ev) = 0) (yields b).
Proof.
  unfold EpollLoop.dispatch. destruct (negb (running p)); [by intros [= <- _ _]|].
  destruct (epoll_wait k) as [[e|l] k2]; [by intros [= <- _ _]|].
  pose proof (dispatch_events_counts p k2 l) as Hd. destruct (dispatch_events p k2 l) as [out t]. cbn in Hd.
  destruct t; [|intros [= <- _ _]; by rewrite yields_all, app_nil_r].
  destruct (clock_now k2) as [now k3]. intros ([ex rest] & He & E)%bind_Ret_inv. apply expire_counts in He. revert E.
  assert (Forall (fun ev => result_count (result ev) = 0) ((out ++ ex) ++ [])) as Hall by (rewrite app_nil_r; by apply Forall_app).
  destruct rest as [|top rest]; [intros [= <- _ _]; by rewrite yields_all|].
  destruct (clock_now k3) as [now' k4]. destruct (update_timer _ k4); intros [= <- _ _]; by rewrite yields_all.
Qed.

Lemma run_turn_counts {K} `{Kernel K} frames p (k : K) evs p' k' :
  run_turn frames p k = Ret (evs, p', k') -> Forall (fun ev => result_count (result ev) = 0) evs.
Proof.
  unfold run_turn. intros ([[b p1] k1] & Hd & E)%bind_Ret_inv. rewrite range_for_yields in E by lia. cbn [obind] in E.
  apply bind_Ret_inv in E as (evs' & Hh%hand_over_same & E). injection E as <- _ _. subst. by eapply dispatch_counts.
Qed.

Lemma wait_for_count {K} `{Kernel K} frames fuel a p (k : K) res p' k' :
  wait_for frames fuel a p k = Ret (res, p', k') -> result_count res = 0.
Proof.
  revert p k. induction fuel as [|fuel IH]; intros p k; cbn [wait_for]; [done|].
  intros ([[evs p1] k1] & Ht & E)%bind_Ret_inv. destruct (List.find _ evs) as [ev|] eqn:Ef; [|by apply IH in E].
  injection E as <- _ _. apply List.find_some in Ef as [Hin _]. apply run_turn_counts in Ht.
  by apply (proj1 (Forall_forall _ _) Ht), list_elem_of_In.
Qed.

(** A resumed operation knows of the bytes only through [ioctl]. *)
Lemma epoll_schedule_count {K} `{Kernel K} frames fuel a d op timeout p (k : K) res p' k' :
  epoll_schedule frames fuel a d op timeout p k = Ret (res, p', k') -> roughly_get_socket_buffer_size d op k' = 0 -> result_count res = 0.
Proof.
  unfold epoll_schedule. destruct (await_ready d op k); [done|].
  intros ([p1 k1] & _ & E)%bind_Ret_inv. apply bind_Ret_inv in E as ([[res1 p2] k2] & Hw & E). apply wait_for_count in Hw.
  apply bind_Ret_inv in E as ([res2 k3] & Ha & E). injection E as <- _ <-. intros Hz.
  unfold await_resume in Ha. apply bind_Ret_inv in Ha as (k4 & _ & Ha). injection Ha as <- <-. by rewrite Hz.
Qed.

Section Epoll.
Context {K : Type} `{Kernel K, Net K} (frames : Z -> option bool) (fuel : nat) (a d : Z).

#[local] Instance epoll_Scheduler : Scheduler (epoll_loop * K) := {
  register_fd d := of_loop (fun p k => let* k := register_handle d k in Ret (tt, p, k));
  deregister_fd d := of_loop (fun p k => let* k := deregister_handle d k in Ret (tt, p, k));
  schedule d op timeout := of_loop (epoll_schedule frames fuel a d op timeout);
}.

Lemma epoll_schedule_step op p k res p' k' :
  epoll_schedule frames fuel a d op 0 p k = Ret (res, p', k') -> schedule d op 0 (p, k) = (Ret res, (p', k')).
Proof. intros E. cbn [schedule epoll_Scheduler of_loop]. by rewrite E. Qed.

(** C37: what goes wrong on the epoll loop.  A read while bytes wait is undefined:
    the operation is ready at once, and asks a null handle for its promise.  A
    write while the kernel holds no unsent bytes fails: the loop takes the
    length of the send queue for the room in it, zero bytes are sent, and the
    answer zero is taken for a closed connection.  Accepting ends the process:
    [FIONREAD] fails on a listening socket, the count is zero, and the socket
    that should say so registers the descriptor -1 in a [noexcept] constructor.
    So does shutting a listener down: its descriptor is closed before it is
    removed from the loop, which throws in a [noexcept] function. *)
Theorem sockets_on_epoll (p : epoll_loop) (k : K) (f : nat) :
  (forall n, 0 < n -> 0 < roughly_get_socket_buffer_size d poll_read k ->
     socket_read (S f) (sock d) n [] (p, k) = (Undef, (p, k)))
  /\ (forall data res p' k' k'', data <> [] -> epoll_schedule frames fuel a d poll_write 0 p k = Ret (res, p', k') ->
     failed (result_err res) = false -> roughly_get_socket_buffer_size d poll_write k' = 0 -> sys_send d [] k' = (inr 0, k'') ->
     socket_write (S f) (sock d) data 0 (p, k) = (Ret {| result_count := 0; result_err := make_error_condition closed |}, (p', k'')))
  /\ (forall l res p' k', is_listening l = true -> main_fd l = d -> epoll_schedule frames fuel a d poll_read 0 p k = Ret (res, p', k') ->
     failed (result_err res) = false -> roughly_get_socket_buffer_size d poll_read k' = 0 ->
     (epoll_ctl ctl_add invalid_fd {| ev_events := 0; ev_data := 0 |} k').1 = EBADF -> (accept l (p, k)).1 = Terminate)
  /\ (forall l u k', is_listening l = true -> main_fd l = d -> d <> invalid_fd -> sys_close d k = (u, k') ->
     (epoll_ctl ctl_del d {| ev_events := 0; ev_data := 0 |} k').1 = EBADF -> (listener_shutdown l (p, k)).1 = Terminate).
Proof.
  split_and!.
  - intros n Hn Hr. cbn [socket_read length]. rewrite (proj2 (Z.ltb_lt _ _)) by lia. cbn [fd sock].
    unfold io_bind. cbn [schedule epoll_Scheduler of_loop]. unfold epoll_schedule, await_ready. by rewrite (proj2 (Z.ltb_lt _ _) Hr).
  - intros b res p' k' k'' Hb E Hf Hz Hs. pose proof (epoll_schedule_count _ _ _ _ _ _ _ _ _ _ _ E Hz) as Hc.
    cbn [socket_write]. rewrite (proj2 (Z.ltb_lt _ _)) by (destruct b; [done|cbn; lia]). cbn [fd sock].
    rewrite (bind_Ret _ _ _ _ _ (epoll_schedule_step _ _ _ _ _ _ E)), Hf, Hc. cbn [andb].
    rewrite Z.min_l by lia. rewrite bind_call. cbn [sys_send under_Net under].
    change (take (Z.to_nat 0) (drop (Z.to_nat 0) b)) with (@nil byte). by rewrite Hs.
  - intros l res p' k' Hl Hm E Hf Hz Hctl. pose proof (epoll_schedule_count _ _ _ _ _ _ _ _ _ _ _ E Hz) as Hc.
    unfold accept. rewrite Hl, Hm. cbn [negb]. rewrite (bind_Ret _ _ _ _ _ (epoll_schedule_step _ _ _ _ _ _ E)), Hf, Hc. cbn [Z.eqb].
    unfold tcp_socket_none, io_noexcept, make_socket, io_bind. cbn [register_fd epoll_Scheduler of_loop].
    unfold register_handle. destruct (epoll_ctl _ _ _ k') as [e k2]. cbn in Hctl. by rewrite Hctl.
  - intros l u k' Hl Hm Hd Hc Hctl. unfold listener_shutdown. rewrite Hl, Hm, (proj2 (Z.eqb_neq _ _) Hd). cbn [andb negb].
    unfold io_noexcept, io_bind, call. cbn [sys_close under_Net under]. rewrite Hc. cbn [deregister_fd epoll_Scheduler of_loop].
    unfold deregister_handle. destruct (epoll_ctl _ _ _ k') as [e k2]. cbn in Hctl. by rewrite Hctl.
Qed.
End Epoll.

(** *** The descriptors: [epoll_ctl] opens and closes none, and may fail. *)

Class EpollFds (K : Type) `{Kernel K, FdLaws K} := {
  ctl_fds op d ev (k : K) e k' : epoll_ctl op d ev k = (e, k') -> open_fds k' = open_fds k;
}.

Section EpollFds.
Context {K : Type} `{EpollFds K} (frames : Z -> option bool) (fuel : nat) (a : Z).

#[local] Instance epoll_loop_Scheduler : Scheduler (epoll_loop * K) := epoll_Scheduler frames fuel a.

#[local] Instance epoll_SchedulerLaws : SchedulerLaws (epoll_loop * K).
Proof.
  constructor; intros d [p k]; cbn; unfold register_handle, deregister_handle;
    destruct (epoll_ctl _ _ _ k) as [e k'] eqn:E; apply ctl_fds in E; by destruct (_ && _).
Defined.

(** A listener whose descriptor cannot be registered leaves it open. *)
Lemma listener_on_epoll host port net proto (p : epoll_loop) (k : K) e p' k' :
  make_listener host port net proto (p, k) = (Throw e, (p', k')) ->
  open_fds k' = open_fds k \/ exists d, d ∉ open_fds k /\ open_fds k' = {[d]} ∪ open_fds k.
Proof.
  intros E. pose proof (make_listener_fds host port net proto (p, k)) as Hl. rewrite E in Hl.
  destruct Hl as [?|(d & k1 & Hd & _ & Hk)]; [by left|right; by exists d].
Qed.
End EpollFds.

(** *** A kernel, for the examples: the coroutine at 4096 is told that descriptor
    7 is ready; no bytes wait to be sent, or to be read. *)

#[local] Instance quiet_Kernel : Kernel wire := {
  epoll_ctl op d ev k := (match op with ctl_mod => 0 | _ => EBADF end, k);
  epoll_wait k := (inr [{| ev_events := Z.lor EPOLLIN EPOLLOUT; ev_data := 4096 |}], k);
  timerfd_settime v k := (0, k);
  eventfd_write k := k;
  clock_now k := (0, k);
  ioctl_int d r k := if r =? FIONREAD then None else Some 0;
  errno k := 0;
}.

Lemma sockets_on_epoll_witness :
  let p := {| timer_fd := 4; shutdown_fd := 5; timer_addr := 1000; shutdown_addr := 1004; running := true; timeout_list := [] |} in
  let k := {| w_in := []; w_out := []; w_event := None |} in
  let l := {| l_scheduler := true; is_listening := true; main_fd := 7 |} in
  socket_write (H := epoll_Scheduler (fun _ => Some false) 1 4096) 5 (sock 7) (lit "hi") 0 (p, k)
    = (Ret {| result_count := 0; result_err := make_error_condition closed |}, (p, k))
  /\ (accept (H := epoll_Scheduler (fun _ => Some false) 1 4096) l (p, k)).1 = Terminate
  /\ (listener_shutdown (H := epoll_Scheduler (fun _ => Some false) 1 4096) l (p, k)).1 = Terminate.
Proof.
  intros p k l. pose proof (sockets_on_epoll (K := wire) (fun _ => Some false) 1 4096 7 p k 4) as (_ & Hw & Ha & Hs). split_and!.
  - by eapply Hw.
  - by eapply Ha.
  - by eapply Hs.
Defined.
