(* ===== verification/SessionNet.v ===== *)
(** * A kept connection over sockets

    The session of [Session] through the sockets of [Sockets] and the kqueue
    loop: a connection is paced when what one call of [recv] gives belongs to
    one message of the peer, which waits for each answer.  A read of a socket
    is one successful [recv], so the socket is a [MessageReader], and the server
    answers all the requests that arrive at its descriptor. *)

From Stdlib Require Import ZArith Strings.Byte Lia String.
From stdpp Require Import prelude list gmap strings.
From S2P Require Import Prelude CxxStrings Io Coro EpollLoop KqueueLoop Sockets.
From S2P Require Import StringMap Headers Messages Http11 Router Server Session Network.

(** ** Paced connections *)

Section Paced.
Context {K : Type} {d : Z} `{Hc : Connection K d}.

Class PacedConnection := {
  arriving : K -> list (list byte);
  arriving_incoming k : conn_ok k -> incoming k = concat (arriving k);
  arriving_schedule k res k' : conn_ok k -> schedule d poll_read 0 k = (Ret res, k') -> arriving k' = arriving k;
  arriving_recv n k r k' m ms : 0 < n -> conn_ok k -> m <> [] -> arriving k = m :: ms -> sys_recv d n k = (r, k') ->
    match r with
    | inl _ => arriving k' = arriving k
    | inr got => exists m', m = got ++ m' /\ arriving k' = leave m' ms
    end;
  arriving_so_error k r k' : conn_ok k -> sys_so_error d k = (r, k') -> conn_ok k' /\ arriving k' = arriving k;
}.

Context `{Hp : PacedConnection}.

Lemma socket_read_message fuel n k res got k' m ms :
  conn_ok k -> 0 < n -> m <> [] -> arriving k = m :: ms -> socket_read fuel (sock d) n [] k = (Ret (res, got), k') ->
  exists m', m = got ++ m' /\ arriving k' = leave m' ms.
Proof.
  intros Hok Hn Hne. revert k Hok. induction fuel as [|fuel IH]; intros k Hok Ha; cbn [socket_read length]; [done|].
  rewrite (proj2 (Z.ltb_lt _ _)) by lia.
  destruct (schedule_law poll_read k (or_introl eq_refl) Hok) as (sres & k1 & E1 & Hok1 & _ & _ & _ & Hcnt & Hpos & _).
  pose proof (arriving_schedule k sres k1 Hok E1) as Ha1. rewrite Ha in Ha1. cbn [fd sock]. erewrite bind_Ret by exact E1.
  assert (exists m', m = [] ++ m' /\ leave m ms = leave m' ms) as Hstay by by exists m.
  rewrite <- (leave_ne m ms) in Ha1 by done.
  destruct (failed (result_err sres) && (result_count sres =? 0)) eqn:Hfail; reflect_bools.
  { intros [= _ <- <-]. rewrite Ha1. done. }
  assert (0 < result_count sres) as Hcount.
  { destruct (failed (result_err sres)); [|by apply Hpos]. cbn in Hfail. reflect_bools. lia. }
  rewrite bind_call. destruct (sys_recv d _ k1) as [r k2] eqn:E2. rewrite leave_ne in Ha1 by done.
  assert (0 < Z.min (result_count sres) (n - Z.of_nat 0)) as Hmin by lia.
  pose proof (arriving_recv _ k1 r k2 m ms Hmin Hok1 Hne Ha1 E2) as Hr.
  apply recv_law in E2 as (Hok2 & _ & _); [|lia|done]. destruct r as [e|bytes].
  - rewrite Ha1 in Hr. destruct (again e); [by apply IH|]. intros [= _ <- <-]. rewrite Hr, <- (leave_ne m ms) by done. done.
  - destruct bytes as [|c bytes]; intros [= _ <- <-]; exact Hr.
Qed.

#[global] Instance socket_MessageReader : MessageReader (conn K d).
Proof.
  refine {| messages c := arriving (kern c) |}.
  - intros c Hok. by apply arriving_incoming.
  - intros c n got err c' m ms Hok Hn Hne Ha. unfold rd, socket_Reader.
    destruct (socket_read _ (sock d) (Z.of_nat n) [] (kern c)) as [r k'] eqn:E. intros ([res g] & -> & [= <- _ <-])%bind_Ret_inv.
    eapply socket_read_message; [exact Hok| |exact Hne|exact Ha|exact E]. lia.
Defined.
(** [socket::valid] of the connection *)
#[global] Instance conn_Validity : Validity (conn K d) :=
  fun c => let (r, k) := valid (sock d) (kern c) in (match r with Ret v => v | _ => false end, Conn k).

#[global] Instance conn_validity : ValidityLaws (conn K d).
Proof.
  intros [k] v [k'] Hok. unfold conn_valid, conn_Validity, valid. cbn [kern fd scheduler sock].
  destruct (_ || _); [by intros [= _ <-]|]. rewrite bind_call. destruct (sys_so_error d k) as [r k1] eqn:E.
  destruct (arriving_so_error k r k1 Hok E) as [Hok' Ha]. by intros [= _ <-].
Qed.

Lemma conn_valid_open (c : conn K d) : d <> invalid_fd -> (sys_so_error d (kern c)).1 = inr 0 -> (conn_valid c).1 = true.
Proof.
  intros Hd He. unfold conn_valid, conn_Validity, valid. cbn [fd scheduler sock]. rewrite (proj2 (Z.eqb_neq _ _) Hd). cbn [orb negb].
  rewrite bind_call. destruct (sys_so_error d (kern c)) as [r k1]. cbn in He. by subst r.
Qed.
End Paced.
Arguments PacedConnection K d {_ _ _}.

(** ** Over kqueue *)

Section Kqueue.
Context {K : Type} `{KQueue K, Net K} (frames : Z -> option bool) (a d : Z).
Context `{Hs : !KQueueSocket (K := K) a d} `{Hr : !KQueueReliable (K := K) a d} (waiting : frames a = Some false).

(** The kernel hands over one message at a time. *)
Class KQueuePaced := {
  ks_arriving : K -> list (list byte);
  kp_incoming k : ks_ok a d k -> ks_incoming a d k = concat (ks_arriving k);
  kp_poll k k1 ev k2 : ks_ok a d k -> kevent_change [make_io_kevent a d EVFILT_READ] k = (0, k1) -> kevent_wait 16 k1 = (inr [ev], k2) ->
    ks_arriving k2 = ks_arriving k;
  kp_recv n k r k' m ms : 0 < n -> ks_ok a d k -> m <> [] -> ks_arriving k = m :: ms -> sys_recv d n k = (r, k') ->
    match r with
    | inl _ => ks_arriving k' = ks_arriving k
    | inr got => exists m', m = got ++ m' /\ ks_arriving k' = leave m' ms
    end;
  kp_so_error k r k' : ks_ok a d k -> sys_so_error d k = (r, k') -> ks_ok a d k' /\ ks_arriving k' = ks_arriving k;
}.

Context `{Hk : KQueuePaced}.

#[local] Instance loop_Scheduler : Scheduler (kqueue_loop * K) := kq_Scheduler frames a.
#[local] Instance loop_connection : Connection (kqueue_loop * K) d := kq_connection frames a d waiting.
#[local] Instance loop_reliable : ReliableConnection (kqueue_loop * K) d := kq_reliable frames a d waiting.

#[local] Instance kq_paced : PacedConnection (kqueue_loop * K) d.
Proof.
  refine {| arriving (s : kqueue_loop * K) := ks_arriving s.2 |}.
  - intros [p k] (_ & _ & Hok). by apply kp_incoming.
  - intros [p k] res [p' k'] (Hrun & Hd & Hok) E. cbn in *.
    destruct (kq_schedule_result frames a d waiting poll_read p k (or_introl eq_refl) Hrun Hd Hok) as (k1 & ev & k2 & E1 & E2 & E3 & _).
    rewrite E3 in E. injection E as _ _ <-. by eapply kp_poll.
  - intros n [p k] r k2 m ms Hn (_ & _ & Hok) Hne Ha E. cbn in *. destruct (sys_recv d n k) as [r' k'] eqn:E'. injection E as <- <-.
    by eapply kp_recv.
  - intros [p k] r k2 (Hrun & Hd & Hok) E. cbn in *. destruct (sys_so_error d k) as [r' k'] eqn:E'. injection E as <- <-.
    by apply kp_so_error in E' as [Hok' Ha].
Defined.

(** The server answers every request that arrives at its descriptor, whatever
    the kernel makes ready at a time and as long as there is no pending error,
    and its coroutine returns when the peer closes. *)
Lemma session_over_sockets std_hash (iterate : headers -> headers) mx (rt : router (handler (conn (kqueue_loop * K) d)))
    (ts : list turn) turns fuel (rs ws : kqueue_loop * K) :
  (forall h, iterate h ≡ₚ h) -> Forall (turn_ok std_hash iterate mx rt) ts ->
  d <> invalid_fd -> (forall k, ks_ok a d k -> (sys_so_error d k).1 = inr 0) ->
  loop_ok a d rs -> loop_ok a d ws -> ks_arriving rs.2 = map (request_of iterate) ts ->
  (length ts < turns)%nat -> (length (ks_incoming a d rs.2) < fuel)%nat ->
  exists w', serve_connection std_hash iterate turns fuel (fun _ => true) mx rt (Conn rs) (Conn ws) = Ret (Closing w')
    /\ ks_outgoing a d (kern w').2 = ks_outgoing a d ws.2 ++ concat (map (answer_of iterate) ts).
Proof.
  intros Hperm Hts Hd He Hrs Hws Ha Ht Hf.
  destruct (serve_connection_messages (W := conn (kqueue_loop * K) d) std_hash iterate mx rt ts turns fuel (Conn rs) (Conn ws))
    as (w' & E & _ & Hsink); [done..| |done|done|done|done|done|by exists w'].
  intros [[p k]] (_ & _ & Hok). apply conn_valid_open; [done|]. cbn. specialize (He k Hok). by destruct (sys_so_error d k).
Qed.
End Kqueue.

(** *** A kernel, for the example: three bytes of a message are ready at a time,
    none of the next one before it has been read, and the peer takes
    everything. *)

Record post := { p_in : inbox; p_out : list byte; p_event : option kevent }.

Definition post_ready (i : inbox) : list byte := match i with [] => [] | m :: _ => take 3 m end.

#[local] Instance post_KQueue : KQueue post := {
  kevent_change evs k := (0, {| p_in := p_in k; p_out := p_out k; p_event := head evs |});
  kevent_wait n k :=
    (inr (match p_event k with
          | None => []
          | Some e =>
              let reading := filter e =? EVFILT_READ in
              [{| ident := ident e; filter := filter e; flags := if reading && bool_decide (p_in k = []) then EV_EOF else 0; fflags := 0;
                  data := if reading then Z.of_nat (length (post_ready (p_in k))) else 100; udata := udata e |}]
          end), {| p_in := p_in k; p_out := p_out k; p_event := None |});
  kqueue_now k := (0, k);
}.

#[local] Instance post_Net : Net post := {
  sys_recv d n k :=
    match p_in k with
    | [] => (inr [], k)
    | m :: ms => (inr (take (Z.to_nat n) m), {| p_in := leave (drop (Z.to_nat n) m) ms; p_out := p_out k; p_event := p_event k |})
    end;
  sys_send d b k := (inr (Z.of_nat (length b)), {| p_in := p_in k; p_out := p_out k ++ b; p_event := p_event k |});
  sys_so_error d k := (inr 0, k);
  sys_setsockopt d o k := (inr tt, k);
  sys_close d k := (tt, k);
  sys_getaddrinfo h p hs k := (inr [], k);
  sys_socket f t p k := (inl 97, k);
  sys_connect d ad k := (inr tt, k);
  sys_bind d ad k := (inr tt, k);
  sys_listen d n k := (inr tt, k);
  sys_accept d k := (inl EAGAIN, k);
  sys_getname peer d k := (inr (AF_INET, []), k);
  sys_inet_ntop f ad := inr [];
  sys_errno k := 0;
}.

#[local] Instance post_socket : KQueueSocket (K := post) 4096 7.
Proof.
  refine {| ks_ok k := Forall (fun m => m <> []) (p_in k); ks_incoming k := concat (p_in k); ks_outgoing := p_out; ks_spurious _ := 0%nat |}.
  - intros filt k Hf Hok. do 3 eexists. split; [reflexivity|]. split; [reflexivity|]. cbn [p_in p_out filter udata data flags].
    assert (Z.of_nat (length (post_ready (p_in k))) <= 3) as Hlen by (unfold post_ready; destruct (p_in k); [done|rewrite length_take; lia]).
    assert (Z.of_nat (length (post_ready (p_in k))) = 0 -> p_in k = []) as Hnil.
    { unfold post_ready. destruct Hok as [|m ms Hm _]; [done|]. destruct m; [done|]. cbn. lia. }
    destruct Hf as [-> | ->]; cbn [Z.eqb andb make_io_kevent filter EVFILT_READ EVFILT_WRITE Pos.eqb]; split_and!; try done; try lia.
    + by destruct (bool_decide _).
    + case_bool_decide as Hw; [done|]. intros _. destruct (Z.eq_dec (Z.of_nat (length (post_ready (p_in k)))) 0); [tauto|lia].
    + intros Hz _. by rewrite (Hnil Hz).
  - intros n k r k' Hn Hok E. unfold sys_recv, post_Net in E. destruct (p_in k) as [|m ms] eqn:Ek.
    { injection E as <- <-. rewrite Ek. split_and!; (done || cbn; lia). }
    injection E as <- <-. apply Forall_cons in Hok as [Hm Hms]. cbn [p_in p_out concat]. rewrite concat_leave, app_assoc, take_drop.
    split_and!; [by apply leave_Forall|done|done|rewrite length_take; lia|].
    intros E. apply (f_equal length) in E. rewrite length_take in E. destruct m; [done|]. cbn in E. lia.
  - intros b k r k' Hb Hok [= <- <-]. cbn. rewrite Nat2Z.id, firstn_all. split_and!; try done; lia.
Defined.

#[local] Instance post_reliable : KQueueReliable (K := post) 4096 7.
Proof.
  constructor.
  - intros k k1 ev k2 _ [= <-] [= <- _]. done.
  - intros b k r k' Hb _ [= <- _]. destruct b; [done|]. cbn. lia.
Qed.

#[local] Instance post_paced : KQueuePaced (K := post) 4096 7.
Proof.
  refine {| ks_arriving := p_in |}.
  - done.
  - intros k k1 ev k2 _ [= <-] [= _ <-]. done.
  - intros n k r k' m ms _ _ _ Ha E. unfold sys_recv, post_Net in E. rewrite Ha in E. injection E as <- <-.
    exists (drop (Z.to_nat n) m). by rewrite take_drop.
  - intros k r k' Hok [= _ <-]. done.
Defined.

Definition post_of (input : inbox) : kqueue_loop * post :=
  ({| kq_running := true; descriptor := 3; timeout_id := 1 |}, {| p_in := input; p_out := []; p_event := None |}).

#[local] Instance post_Scheduler : Scheduler (kqueue_loop * post) := kq_Scheduler (fun _ => Some false) 4096.
#[local] Instance post_connection : Connection (kqueue_loop * post) 7 := kq_connection (fun _ => Some false) 4096 7 eq_refl.

(** Two requests without a payload and one with it, over one descriptor. *)
Example session_over_sockets_post :
  exists w', serve_connection (fun _ => 0) id 4 400 (fun _ => true) 1000 (session_router (R := conn (kqueue_loop * post) 7))
      (Conn (post_of (map (request_of id) [get_turn; post_turn; get_turn]))) (Conn (post_of [])) = Ret (Closing w')
    /\ p_out (kern w').2 = concat (map (answer_of id) [get_turn; post_turn; get_turn]).
Proof.
  pose proof (session_over_sockets (K := post) (fun _ => Some false) 4096 7 eq_refl (fun _ => 0) id 1000 session_router
    [get_turn; post_turn; get_turn] 4 400 (post_of (map (request_of id) [get_turn; post_turn; get_turn])) (post_of [])) as Hs.
  apply Hs.
  - done.
  - do 3 (apply Forall_cons_2; [first [apply get_turn_ok|apply post_turn_ok]|]). apply Forall_nil_2.
  - done.
  - done.
  - split_and!; [done|done|]. repeat constructor; discriminate.
  - split_and!; [done|done|]. constructor.
  - reflexivity.
  - simpl. lia.
  - apply (bool_decide_unpack _). vm_compute. exact I.
Qed.
