(* ===== verification/Examples.v ===== *)
(** * The example programs (example/)

    The echo server over the operations of [Sockets], the handler and the
    request of the HTTP examples over [Server], and what becomes of them on the
    kqueue loop of [Network].  Logging and printing are left out, but not the
    calls that make their arguments; so are the main functions but for what
    they set up, and for the waiting of http-get. *)

From Stdlib Require Import ZArith Lia Strings.Byte String.
From stdpp Require Import prelude list gmap strings.
From S2P Require Import Prelude CxxStrings Url Io Coro EpollLoop KqueueLoop Sockets Serve.
From S2P Require Import StringMap Headers Messages BufferedReader Chunked Http11 Router Server Network.

(** ** tcp-echo-server *)

(** *** Definitions *)

Section Echo.
Context {K : Type} `{Scheduler K, Net K}.

(** [fuel] are the turns a read or a write may take, in the state it starts in. *)
Context (fuel : K -> nat).

Definition buf_size : nat := 1024.

(** [std::span{buf}.subspan(0, count)] *)
Definition subspan (buf : list byte) (count : Z) : outcome (list byte) :=
  if count <=? Z.of_nat (length buf) then Ret (take (Z.to_nat count) buf) else Undef.

Definition lift {A} (r : outcome A) : io K A := fun k => (r, k).

(** The loop of [serve_connection] *)
Fixpoint echo_loop (turns : nat) (s : socket) (buf : list byte) : io K unit :=
  match turns with
  | O => fun k => (OutOfFuel, k)
  | S turns =>
      let! v := valid s in
      if negb v then io_ret tt
      else
        let! _ := remote_addr s in
        let! (res, got) := (fun k => socket_read (fuel k) s (Z.of_nat (length buf)) [] k) in
        let buf := got ++ drop (length got) buf in
        if failed (result_err res) then io_ret tt
        else
          let! _ := remote_addr s in
          let! data := lift (subspan buf (result_count res)) in
          let! res := (fun k => socket_write (fuel k) s data 0 k) in
          if failed (result_err res) then io_ret tt else echo_loop turns s buf
  end.

(** The body of [serve_connection] *)
Definition echo_connection (turns : nat) (s : socket) : io K unit :=
  let! _ := local_addr s in
  let! _ := remote_addr s in
  echo_loop turns s (replicate buf_size x00).

(** [serve_connection]: the socket is destroyed with the frame of the coroutine. *)
Definition echo_serve_connection (turns : nat) (s : socket) : io K unit := fun k =>
  let (r, k) := echo_connection turns s k in
  let (r', k) := destroy_socket s k in
  (match r' with Ret _ => r | _ => r' end, k).

(** The body of the [try] in [run_echo_server]; a socket to serve, or [None]
    for [co_return] *)
Definition echo_accept (l : listener) : io K (option socket) :=
  let! s := accept l in
  with_socket s
    (let! v := valid s in
     if negb v then let! _ := destroy_socket s in io_ret None
     else
       let! _ := local_addr s in
       let! _ := remote_addr s in
       io_ret (Some s)).

Definition echo_turn (l : listener) : io K turn := fun k =>
  match echo_accept l k with
  | (Ret (Some s), k) => (Ret (Scheduled s), k)
  | (Ret None, k) => (Ret Returned, k)
  | (Throw thrown_condition, k) => (Throw thrown_condition, k)
  | (Throw _, k) => (Ret Logged, k)
  | (Terminate, k) => (Terminate, k)
  | (Undef, k) => (Undef, k)
  | (OutOfFuel, k) => (OutOfFuel, k)
  end.

(** The loop of [run_echo_server]: the sockets it schedules.  [run] reads the
    flag that main clears. *)
Fixpoint echo_server_loop (run : K -> bool) (turns : nat) (l : listener) : io K (list socket) := fun k =>
  match turns with
  | O => (OutOfFuel, k)
  | S turns =>
      if negb (run k) then (Ret [], k)
      else
        (let! t := echo_turn l in
         match t with
         | Scheduled s => let! rest := echo_server_loop run turns l in io_ret (s :: rest)
         | Logged => echo_server_loop run turns l
         | Returned => io_ret []
         end) k
  end.

Definition run_echo_server (run : K -> bool) (turns : nat) (l : listener) : io K (list socket) :=
  let! (l, failure) := listen 512 l in
  match failure with
  | Some e => io_throw e
  | None => echo_server_loop run turns l
  end.
End Echo.

(** *** Properties *)

(** The calls that ask about a connection do not change what it carries. *)
Class QuietConnection (K : Type) (d : Z) `{Connection K d} : Prop := {
  so_error_quiet k r k' : conn_ok k -> sys_so_error d k = (r, k') -> conn_ok k' /\ incoming k' = incoming k /\ outgoing k' = outgoing k;
  getname_quiet peer k r k' : conn_ok k -> sys_getname peer d k = (r, k') ->
    conn_ok k' /\ incoming k' = incoming k /\ outgoing k' = outgoing k
    /\ match r with inr (f, _) => f = AF_INET \/ f = AF_INET6 | inl _ => True end;
}.

(** They find an open connection with names. *)
Class NamedConnection (K : Type) (d : Z) `{Connection K d} : Prop := {
  so_error_none k : conn_ok k -> (sys_so_error d k).1 = inr 0;
  getname_some peer k : conn_ok k -> exists f a text, (sys_getname peer d k).1 = inr (f, a) /\ sys_inet_ntop f a = inr text;
}.

Section EchoProperties.
Context {K : Type} {d : Z} `{Hc : Connection K d} {Hquiet : QuietConnection K d} (Hd : d <> invalid_fd).
Context (fuel : K -> nat) (enough : forall k, (spurious k + buf_size < fuel k)%nat).

(** Nothing has happened to the stream but that the state has moved on. *)
Definition same_stream (k k' : K) : Prop := conn_ok k' /\ incoming k' = incoming k /\ outgoing k' = outgoing k.

Lemma name_spec peer k :
  conn_ok k -> exists r k', (if peer : bool then remote_addr (sock d) else local_addr (sock d)) k = (r, k') /\ same_stream k k'
    /\ ((exists text, r = Ret text) \/ (exists e, r = Throw (system_error e)) /\ ~ NamedConnection K d).
Proof.
  intros Hok. assert ((if peer : bool then remote_addr (sock d) else local_addr (sock d)) k
    = io_bind (call (sys_getname peer d)) (fun r => match r with inl e => io_throw (system_error e) | inr (f, a) => addr_name f a end) k) as ->
    by (by destruct peer).
  rewrite bind_call. destruct (sys_getname peer d k) as [r k'] eqn:E. pose proof (getname_quiet _ _ _ _ Hok E) as (Hok' & Hi & Ho & Hf).
  destruct r as [e|[f a]].
  - exists (Throw (system_error e)), k'. split_and!; try done. right. split; [by eexists|]. intros Hn.
    destruct (getname_some peer k Hok) as (f & a & t & Hg & _). by rewrite E in Hg.
  - unfold addr_name. destruct (sys_inet_ntop f a) as [e|text] eqn:Et; destruct Hf as [-> | ->]; cbn [Z.eqb AF_INET AF_INET6 Pos.eqb]; eexists _, k';
      (split; [done|]; split; [done|]); try (left; by eexists); right; (split; [by eexists|]); intros Hn;
      destruct (getname_some peer k Hok) as (f & a' & t & Hg & Ht); rewrite E in Hg; injection Hg as <- <-; by rewrite Ht in Et.
Qed.

Lemma valid_spec k :
  conn_ok k -> exists v k', valid (sock d) k = (Ret v, k') /\ same_stream k k' /\ (v = false -> ~ NamedConnection K d).
Proof using Hd Hquiet.
  intros Hok. unfold valid. cbn [fd scheduler sock]. rewrite (proj2 (Z.eqb_neq _ _) Hd). cbn [orb negb]. rewrite bind_call.
  destruct (sys_so_error d k) as [r k'] eqn:E. destruct (so_error_quiet _ _ _ Hok E) as (Hok' & Hi & Ho).
  eexists _, k'. split; [done|]. split; [done|]. intros Hv Hn. pose proof (so_error_none k Hok) as He. rewrite E in He. cbn in He. by subst r.
Qed.

(** What has been echoed: a first part of what came in, all of it if the
    connection lasts and the peer takes everything *)
Definition echoes (k : K) (r : outcome unit) (k' : K) : Prop :=
  (r = Ret tt \/ exists e, r = Throw (system_error e))
  /\ exists j, outgoing k' = outgoing k ++ take j (incoming k)
    /\ (NamedConnection K d -> ReliableConnection K d -> r = Ret tt /\ take j (incoming k) = incoming k).

Lemma echoes_stop k r k' : (r = Ret tt \/ exists e, r = Throw (system_error e)) -> outgoing k' = outgoing k ->
  (NamedConnection K d -> ReliableConnection K d -> r = Ret tt /\ incoming k = []) -> echoes k r k'.
Proof.
  intros Hr Ho Hn. split; [done|]. exists 0%nat. rewrite take_0, app_nil_r. split; [done|]. intros Hna Hre. by destruct (Hn Hna Hre) as [-> ->].
Qed.

Lemma echoes_same k k1 r k' : same_stream k k1 -> echoes k1 r k' -> echoes k r k'.
Proof. intros (_ & Hi & Ho). unfold echoes. by rewrite Hi, Ho. Qed.

(** A piece of the stream was written, and the rest is echoed. *)
Lemma echoes_more k got k1 r k' :
  incoming k = got ++ incoming k1 -> outgoing k1 = outgoing k ++ got -> echoes k1 r k' -> echoes k r k'.
Proof.
  intros Hi Ho (Hr & j & Hj & Hall). split; [done|]. exists (length got + j)%nat. rewrite Hi, take_app_add, Hj, Ho, <- app_assoc. split; [done|].
  intros Hna Hre. destruct (Hall Hna Hre) as [-> ->]. done.
Qed.

Lemma echo_loop_spec turns buf k :
  length buf = buf_size -> conn_ok k -> (length (incoming k) < turns)%nat ->
  exists r k', echo_loop fuel turns (sock d) buf k = (r, k') /\ echoes k r k'.
Proof using Hd Hquiet enough.
  revert buf k. induction turns as [|turns IH]; intros buf k Hb Hok Ht; [lia|]. cbn [echo_loop].
  destruct (valid_spec k Hok) as (v & k1 & E1 & S1 & Hv). rewrite (bind_Ret _ _ _ _ _ E1). destruct v; cbn [negb].
  2: { eexists _, k1. split; [done|]. apply (echoes_same _ _ _ _ S1), echoes_stop; [by left|done|]. intros Hn. by destruct (Hv eq_refl). }
  destruct (name_spec true k1 (proj1 S1)) as (r2 & k2 & E2 & S2 & Hr2). rewrite (bind_eq _ _ _ _ _ E2).
  destruct Hr2 as [[text ->] | [[e ->] Hn2]].
  2: { eexists _, k2. split; [done|]. apply (echoes_same _ _ _ _ S1), (echoes_same _ _ _ _ S2), echoes_stop; [right; by eexists|done|tauto]. }
  destruct (socket_read_spec (fuel k2) (Z.of_nat (length buf)) k2 (proj1 S2)) as (res & got & k3 & E3 & Hok3 & Hi3 & Ho3 & Hcount & Hl & Hne & Hend);
    [specialize (enough k2); lia|lia|].
  erewrite bind_Ret by exact E3. cbv beta iota. destruct (failed (result_err res)) eqn:Hfail.
  { assert (got = []) as -> by (by eapply socket_read_error in E3). eexists _, k3. split; [done|].
    apply (echoes_same _ _ _ _ S1), (echoes_same _ _ _ _ S2), echoes_stop; [by left|done|]. intros _ _. split; [done|].
    destruct (incoming k2) eqn:Ei; [done|]. exfalso. apply Hne; [unfold buf_size in Hb; lia|done|done]. }
  assert (got <> []) as Hgot by (intros Hg; unfold buf_size in Hb; specialize (Hend ltac:(lia) Hg); done).
  destruct (name_spec true k3 Hok3) as (r4 & k4 & E4 & S4 & Hr4). rewrite (bind_eq _ _ _ _ _ E4).
  destruct Hr4 as [[text' ->] | [[e ->] Hn4]].
  2: { eexists _, k4. split; [done|]. apply (echoes_same _ _ _ _ S1), (echoes_same _ _ _ _ S2), echoes_stop; [right; by eexists|..|tauto].
       destruct S4 as (_ & _ & ->). done. }
  assert (lift (subspan (got ++ drop (length got) buf) (result_count res)) k4 = (Ret got, k4)) as E5.
  { unfold lift, subspan. rewrite Hcount, length_app, length_drop, Nat2Z.id, take_app_length. by rewrite (proj2 (Z.leb_le _ _)) by lia. }
  rewrite (bind_Ret _ _ _ _ _ E5). clear E5.
  destruct (socket_write_spec (fuel k4) got 0 k4 (proj1 S4)) as (res6 & k6 & j & E6 & Hok6 & Hi6 & Hj & Ho6 & _ & Hf6);
    [lia|unfold buf_size in *; specialize (enough k4); lia|].
  rewrite Nat.sub_0_r, drop_0 in Ho6. destruct S4 as (Hok4 & Hi4 & Ho4). rewrite Hi4 in Hi6. rewrite Ho4, Ho3 in Ho6.
  change (Z.of_nat 0) with 0 in E6. erewrite bind_Ret by exact E6. cbv beta. destruct (failed (result_err res6)) eqn:Hfail6.
  { eexists _, k6. split; [done|]. apply (echoes_same _ _ _ _ S1), (echoes_same _ _ _ _ S2). split; [by left|]. exists j.
    rewrite Hi3, take_app_le by lia. split; [done|]. intros _ Hre. exfalso.
    destruct (socket_write_reliable (fuel k4) got 0 k4 Hok4) as (k7 & E7); [lia|unfold buf_size in *; specialize (enough k4); lia|].
    change (Z.of_nat 0) with 0 in E7. rewrite E6 in E7. injection E7 as -> _. done. }
  rewrite (Hf6 eq_refl), firstn_all in Ho6.
  destruct (IH (got ++ drop (length got) buf) k6) as (r & k' & E & Hec).
  - rewrite length_app, length_drop. lia.
  - done.
  - destruct S1 as (_ & Hi1 & _), S2 as (_ & Hi2 & _). apply (f_equal length) in Hi3. rewrite Hi2, Hi1, length_app in Hi3.
    rewrite Hi6. destruct got; [done|]. cbn in Hi3. lia.
  - exists r, k'. split; [done|]. apply (echoes_same _ _ _ _ S1), (echoes_same _ _ _ _ S2). eapply (echoes_more k2 got k6); [by rewrite Hi6|done|done].
Qed.
End EchoProperties.

(** C38: the echo server writes back what it reads: a connection is served to its
    end, or until an address cannot be had; what it has written is a first part
    of what the peer sent, in order; and all of it if the connection stays valid
    and the peer takes what it is sent. *)
Theorem echo_server_echoes {K : Type} {d : Z} `{QuietConnection K d} (fuel : K -> nat) (turns : nat) (k : K) :
  d <> invalid_fd -> (forall k, (spurious k + buf_size < fuel k)%nat) -> conn_ok k -> (length (incoming k) < turns)%nat ->
  exists r k', echo_connection fuel turns (sock d) k = (r, k')
    /\ (r = Ret tt \/ exists e, r = Throw (system_error e))
    /\ (exists j, outgoing k' = outgoing k ++ take j (incoming k))
    /\ (NamedConnection K d -> ReliableConnection K d -> r = Ret tt /\ outgoing k' = outgoing k ++ incoming k).
Proof.
  intros Hd enough Hok Ht. unfold echo_connection.
  assert (forall r k', echoes k r k' -> (r = Ret tt \/ exists e, r = Throw (system_error e))
    /\ (exists j, outgoing k' = outgoing k ++ take j (incoming k))
    /\ (NamedConnection K d -> ReliableConnection K d -> r = Ret tt /\ outgoing k' = outgoing k ++ incoming k)) as Hechoes.
  { intros r k' (Hr & j & Hj & Hall). split_and!; [done|by exists j|]. intros Hna Hre. destruct (Hall Hna Hre) as [-> Htk]. split; [done|]. by rewrite Hj, Htk. }
  destruct (name_spec false k Hok) as (r1 & k1 & E1 & S1 & Hr1). rewrite (bind_eq _ _ _ _ _ E1).
  destruct Hr1 as [[text ->] | [[e ->] Hn1]].
  2: { eexists _, k1. split; [done|]. apply Hechoes, (echoes_same _ _ _ _ S1), echoes_stop; [right; by eexists|done|tauto]. }
  destruct (name_spec true k1 (proj1 S1)) as (r2 & k2 & E2 & S2 & Hr2). rewrite (bind_eq _ _ _ _ _ E2).
  destruct Hr2 as [[text' ->] | [[e ->] Hn2]].
  2: { eexists _, k2. split; [done|]. apply Hechoes, (echoes_same _ _ _ _ S1), (echoes_same _ _ _ _ S2), echoes_stop; [right; by eexists|done|tauto]. }
  destruct (echo_loop_spec Hd fuel enough turns (replicate buf_size x00) k2) as (r & k' & E & Hec); [by rewrite length_replicate|apply S2| |].
  - destruct S1 as (_ & Hi1 & _), S2 as (_ & Hi2 & _). by rewrite Hi2, Hi1.
  - exists r, k'. split; [exact E|]. by apply Hechoes, (echoes_same _ _ _ _ S1), (echoes_same _ _ _ _ S2).
Qed.

(** On the kqueue loop, with the kernel of [Network] *)
#[local] Existing Instances wire_KQueue wire_Net wire_socket wire_reliable wire_Scheduler wire_connection.

#[local] Instance wire_quiet : QuietConnection (kqueue_loop * wire) 7.
Proof. constructor; [by intros [p k] r k' Hok [= <- <-]|]. intros peer [p k] r k' Hok [= <- <-]. split_and!; try done. by left. Qed.

#[local] Instance wire_named : NamedConnection (kqueue_loop * wire) 7.
Proof. constructor; [by intros [p k]|]. intros peer [p k] _. by exists AF_INET, [], []. Qed.

Lemma echo_server_echoes_witness :
  exists k', echo_connection (fun _ => 2000%nat) 20 (sock 7) (wire_of (lit "hello, echo")) = (Ret tt, k') /\ w_out k'.2 = lit "hello, echo".
Proof.
  pose proof (echo_server_echoes (d := 7) (fun _ => 2000%nat) 20 (wire_of (lit "hello, echo"))) as Hw.
  destruct Hw as (r & k' & E & _ & _ & Hall); [done|intros k; cbn; unfold buf_size; lia|done|cbn; lia|].
  destruct Hall as [-> Ho]; [apply wire_named|exact (kq_reliable (fun _ => Some false) 4096 7 eq_refl)|].
  exists k'. split; [exact E|exact Ho].
Defined.

(** ** http-server *)

(** The handler of "/" *)
Definition hello_world {R} : handler R := fun req =>
  let* h := set [] (lit "X-Msg") (lit "Hello") in
  let* h := set h (lit "Content-Type") (lit "text/plain") in
  let msg := lit "hello world" ++ crlf in
  Ret {| reply_headers := h; reply_status := STATUS_OK; reply_length := Z.of_nat (length msg); reply_data := msg; reply_rest := req_body req |}.

(** The router main sets up *)
Definition example_router {R} (std_hash : list byte -> Z) : outcome (router (handler R) * option exn) :=
  add std_hash empty_router GET (lit "/") hello_world.

(** ** http-get *)

(** What main makes of its argument: the URL with the scheme and the port that
    are missing, or where the parser failed *)
Definition complete_url (u : url) : url :=
  let scheme := match scheme u with [] => lit "http" | s => s end in
  let port := match port u with
              | [] => if bytes_eqb scheme (lit "http") then lit "80" else if bytes_eqb scheme (lit "https") then lit "443" else []
              | p => p
              end in
  {| Url.scheme := scheme; userinfo := userinfo u; host := host u; Url.port := port; path := path u; query := query u; fragment := fragment u |}.

Definition get_url (arg : list byte) : outcome (url + url_parse_failure) :=
  let* parse_result := Url.parse arg in
  Ret match parse_result with inl u => inl (complete_url u) | inr err => inr err end.

Definition get_headers : headers := [(lit "User-Agent", [lit "cppnet/http/client"]); (lit "Accept", [lit "*/*"])].

Definition get_request (u : url) : client_request :=
  {| creq_method := GET; creq_version := {| major := 1; minor := 1 |}; creq_uri := u; creq_headers := get_headers |}.

(** One read of the body *)
Definition body_read {R} `{Reader R} (fuel : nat) (b : body R) (n : nat) : outcome (list byte * error_condition) :=
  match b with
  | Http11.Chunked c => let* (got, err, _) := Chunked.read fuel c n in Ret (got, err)
  | Limited l => let* (got, err, _) := rd l n in Ret (got, err)
  end.

(** [run_request]: what it sets [success] to, the status it prints, and what it
    prints of the body *)
Definition run_request {R W} `{Reader R, Writer W} (iterate : headers -> headers) (fuel : nat) (r : R) (w : W) (req : client_request)
    (query_order : list (list byte * list (list byte))) : outcome (bool * option status * list byte * W) :=
  let* (get_result, w) := client_send iterate fuel r w req query_order in
  match get_result with
  | inr _ => Ret (false, None, [], w)
  | inl resp =>
      let* (got, err) := body_read fuel (resp_body resp) 512 in
      if failed err then Ret (false, Some (resp_status resp), [], w)
      else Ret (true, Some (resp_status resp), got, w)
  end.

(** *** http-get against http-server *)

Lemma example_router_spec {R} std_hash :
  exists rt : router (handler R), example_router std_hash = Ret (rt, None) /\ dispatch std_hash rt GET (lit "/") = Ret (Handle hello_world).
Proof.
  destruct (add_represents (H := handler R) std_hash empty_router [] GET (lit "/") hello_world (represents_empty std_hash)) as (rt & ex & Ha & Hrep).
  assert (ex = None) as -> by (vm_compute in Ha; congruence). exists rt. split; [exact Ha|].
  rewrite (dispatch_spec _ _ _ GET (lit "/") (Hrep eq_refl)). vm_compute. reflexivity.
Qed.

Lemma get_headers_ok : map_ok get_headers /\ Forall header_ok get_headers.
Proof.
  split; [constructor|].
  - apply (bool_decide_unpack _). vm_compute. exact I.
  - repeat (apply Forall_cons; split; [by apply name_valid, valid_literal|]). apply Forall_nil_2.
  - apply Forall_cons. split; [|apply Forall_cons; split; [|done]];
      constructor; cbn [fst snd]; split_and!; try (apply (bool_decide_unpack _); vm_compute; exact I); try discriminate.
    + by apply (trimmed_ends _ "U"%byte "t"%byte (lit "ser-Agen")).
    + by apply (trimmed_ends _ "c"%byte "t"%byte (lit "ppnet/http/clien")).
    + by apply (trimmed_ends _ "A"%byte "t"%byte (lit "ccep")).
    + by apply (trimmed_ends _ "*"%byte "*"%byte (lit "/")).
Qed.

(** The headers and the body of the reply *)
Definition hello_headers : headers := [(lit "X-Msg", [lit "Hello"]); (lit "Content-Type", [lit "text/plain"])].
Definition hello_data : list byte := lit "hello world" ++ crlf.

Lemma hello_world_headers_ok :
  map_ok (hello_headers ++ [length_header 13]) /\ Forall header_ok (hello_headers ++ [length_header 13]).
Proof.
  split; [constructor|].
  - apply (bool_decide_unpack _). vm_compute. exact I.
  - repeat (apply Forall_cons; split; [by apply name_valid, valid_literal|]). apply Forall_nil_2.
  - apply Forall_cons. split; [|apply Forall_cons; split; [|constructor; [by apply length_header_ok|done]]];
      constructor; cbn [fst snd]; split_and!; try (apply (bool_decide_unpack _); vm_compute; exact I); try discriminate.
    + by apply (trimmed_ends _ "X"%byte "g"%byte (lit "-Ms")).
    + by apply (trimmed_ends _ "H"%byte "o"%byte (lit "ell")).
    + by apply (trimmed_ends _ "C"%byte "e"%byte (lit "ontent-Typ")).
    + by apply (trimmed_ends _ "t"%byte "n"%byte (lit "ext/plai")).
Qed.

(** A URL of the example server that http-get can be asked for: any that can be
    written, with a host and the path "/" *)
Record root_url (u : url) (query_order : list (list byte * list (list byte))) : Prop := {
  root_ok : url_ok u query_order;
  root_host : host u <> [];
  root_path : path u = lit "/";
  root_plain : " "%byte ∉ build u query_order /\ x0a ∉ build u query_order /\ build u query_order <> lit "*";
}.

(** Only two orders of the request headers, whatever the hash table does *)
Lemma get_headers_order (iterate : headers -> headers) : (forall h, iterate h ≡ₚ h) ->
  iterate get_headers = get_headers \/ iterate get_headers = [(lit "Accept", [lit "*/*"]); (lit "User-Agent", [lit "cppnet/http/client"])].
Proof. intros Hp. by apply Permutation_length_2_inv, Permutation_sym, Hp. Qed.

Lemma get_exchange_ok {R} std_hash iterate (rt : router (handler R)) u query_order :
  (forall h, iterate h ≡ₚ h) -> root_url u query_order -> dispatch std_hash rt GET (lit "/") = Ret (Handle hello_world) ->
  exchange_ok std_hash iterate rt hello_world (get_request u) query_order hello_headers STATUS_OK 13 hello_data 8192.
Proof.
  intros Hp [Hu Hh Hpath Hb] Hd. destruct get_headers_ok as [Hm Ho]. destruct hello_world_headers_ok as [Hm' Ho'].
  constructor; cbn [get_request creq_headers creq_method creq_version creq_uri major].
  - constructor; cbn [get_request creq_headers creq_method creq_version creq_uri]; try done. split_and!; [done|apply Hp|by rewrite Hp].
  - done.
  - destruct (get_headers_order iterate Hp) as [-> | ->]; intros vals Hv; vm_compute in Hv; discriminate Hv.
  - destruct (get_headers_order iterate Hp) as [-> | ->]; vm_compute; done.
  - by rewrite Hpath.
  - intros b. eexists. vm_compute. reflexivity.
  - apply (bool_decide_unpack _). vm_compute. exact I.
  - split_and!; [done|done|]. unfold header_size. rewrite Hp. vm_compute. reflexivity.
Qed.

(** The body of the reply is a limit reader of 13 bytes, in whatever order the
    headers came. *)
Lemma hello_body {R} (iterate : headers -> headers) (r : buffered_reader R) b :
  (forall h, iterate h ≡ₚ h) -> body_of (received_headers (iterate (hello_headers ++ [length_header 13]))) r = Ret b ->
  b = Limited {| Io.parent := r; limit := 13; progress := 0 |}.
Proof.
  intros Hp. specialize (Hp (hello_headers ++ [length_header 13])). apply Permutation_sym, permutations_Permutation in Hp.
  assert (Forall (fun h => body_of (received_headers h) r = Ret (Limited {| Io.parent := r; limit := 13; progress := 0 |}))
    (permutations (hello_headers ++ [length_header 13]))) as Hall.
  { match goal with |- Forall _ ?l => let l' := eval vm_compute in l in change l with l' end.
    repeat (apply Forall_cons; split; [vm_compute; reflexivity|]). apply Forall_nil_2. }
  rewrite Forall_forall in Hall. rewrite (Hall _ Hp). congruence.
Qed.

(** [http-get] against http-server, for every URL with the path "/" that can be
    written, over connections that carry every byte, and in any order of the
    headers: the router main sets up has the handler; a turn of the server on
    the request of http-get writes the response of that handler; and on that
    response http-get prints the status 200 and, if its one read of the body
    does not fail, a first part of "hello world". *)
Lemma http_get_http_server {R RC W WC} `{StreamReader R} `{StreamReader RC} `{!EofReader RC} `{SinkWriter W} `{!ReliableWriter W}
    `{OrderedWriter WC} `{!ReliableWriter WC} std_hash (iterate : headers -> headers) u query_order fuel (request response : list byte) :
  (forall h, iterate h ≡ₚ h) -> root_url u query_order ->
  request = request_text (get_request u) query_order (iterate get_headers) ->
  response = response_text {| sresp_version := {| major := 1; minor := 1 |}; sresp_status := STATUS_OK;
                              sresp_headers := hello_headers ++ [length_header 13] |}
               (iterate (hello_headers ++ [length_header 13])) ++ hello_data ->
  (length request < fuel)%nat -> (length response < fuel)%nat ->
  (exists rt, example_router std_hash = Ret (rt, None)
     /\ forall (r : R) (w : W), reader_ok r -> stream r = request -> writer_ok w ->
          exists ro w', serve_turn std_hash iterate fuel 8192 rt r w = Ret (ro, w') /\ sink w' = sink w ++ response)
  /\ (forall (rc : RC) (wc : WC), reader_ok rc -> stream rc = response -> owriter_ok wc ->
        exists success got wc', run_request iterate fuel rc wc (get_request u) query_order = Ret (success, Some STATUS_OK, got, wc')
          /\ osink wc' = osink wc ++ request
          /\ (success = true -> got <> [] /\ got `prefix_of` hello_data)).
Proof.
  intros Hp Hu -> -> Hf1 Hf2. destruct (example_router_spec (R := R) std_hash) as (rt & Ert & Hd).
  pose proof (get_exchange_ok std_hash iterate rt u query_order Hp Hu Hd) as [Hreq Hver Hup Hsize Hroute Hrep Hstat (Hmap & Ho & Hhs)].
  split.
  - exists rt. split; [exact Ert|]. intros r w Hr Hs Hw.
    by apply (serve_turn_answers iterate std_hash Hp fuel 8192 rt hello_world (get_request u) query_order hello_headers STATUS_OK 13 hello_data r w).
  - intros rc wc Hrc Hs Hwc. unfold run_request.
    destruct (client_send_receives iterate fuel (get_request u) query_order
      {| sresp_version := {| major := 1; minor := 1 |}; sresp_status := STATUS_OK; sresp_headers := hello_headers ++ [length_header 13] |}
      hello_data rc wc) as (b & r' & wc' & -> & Hsink & Hok' & Hst & Hb); try done.
    { constructor; cbn [sresp_status sresp_version sresp_headers]; [done|apply (ok_version _ _ _ Hreq)|]. split_and!; [done|apply Hp|by rewrite Hp]. }
    rewrite bind_ret. cbn [resp_body resp_status]. apply hello_body in Hb as ->; [|done]. unfold body_read, rd, limit_reader_Reader.
    assert (reader_ok r') as Hrok by exact Hok'.
    destruct (limit_reader_spec (R := buffered_reader RC) {| Io.parent := r'; limit := 13; progress := 0 |} 512 Hrok) as (got & err & l' & -> & _ & Hl & _ & Hne).
    rewrite bind_ret. unfold limit_stream in Hl, Hne. cbn [Io.parent limit progress] in Hl, Hne. change (stream r') with (buffered_stream r') in Hl, Hne.
    rewrite Hst in Hl, Hne. change (take (13 - 0) hello_data) with hello_data in Hl, Hne. cbn [obind].
    destruct (failed err); do 3 eexists; (split; [reflexivity|]; split; [done|]); [done|]. intros _. split; [|by eexists].
    apply Hne; [lia|discriminate].
Qed.

Definition root_sample : url :=
  {| scheme := lit "http"; userinfo := {| username := []; password := [] |}; host := lit "localhost"; port := lit "8080"; path := lit "/";
     query := ∅; fragment := [] |}.

Lemma root_sample_ok : root_url root_sample [].
Proof.
  constructor; [|discriminate|done|split_and!; [apply (bool_decide_unpack _); vm_compute; exact I..|discriminate]].
  constructor.
  - split; [discriminate|]. apply (bool_decide_unpack _). vm_compute. exact I.
  - split; apply (bool_decide_unpack _); vm_compute; exact I.
  - apply (bool_decide_unpack _). vm_compute. exact I.
  - apply (bool_decide_unpack _). vm_compute. exact I.
  - split; [apply (bool_decide_unpack _); vm_compute; exact I|right; by eexists].
  - intros ? ? Hl. cbn in Hl. by rewrite lookup_empty in Hl.
  - apply (bool_decide_unpack _). vm_compute. exact I.
  - apply Permutation_refl.
  - intros _. apply (bool_decide_unpack _). vm_compute. exact I.
  - discriminate.
Qed.

Definition root_response : list byte :=
  response_text {| sresp_version := {| major := 1; minor := 1 |}; sresp_status := STATUS_OK; sresp_headers := hello_headers ++ [length_header 13] |}
    (hello_headers ++ [length_header 13]) ++ hello_data.

Lemma http_get_http_server_witness :
  exists success got wc', run_request (R := conn (kqueue_loop * wire) 7) (W := string_writer) id 200 (Conn (wire_of root_response)) string_writer_empty
      (get_request root_sample) [] = Ret (success, Some STATUS_OK, got, wc')
    /\ (success = true -> got <> [] /\ got `prefix_of` hello_data).
Proof.
  pose proof (http_get_http_server (R := string_reader) (RC := conn (kqueue_loop * wire) 7) (W := string_writer) (WC := string_writer)
    (fun _ => 0) id root_sample [] 200 (request_text (get_request root_sample) [] get_headers) root_response) as Hw.
  destruct Hw as [_ Hc]; [done|apply root_sample_ok|done|done|vm_compute; lia|vm_compute; lia|].
  destruct (Hc (Conn (wire_of root_response)) string_writer_empty) as (success & got & wc' & E & _ & Hg); [done|done|done|].
  exists success, got, wc'. split; [exact E|exact Hg].
Defined.

(** The argument of http-get gives that URL; and because the body is read once,
    http-get prints what was received with the headers, here three bytes at a
    time, and not the rest. *)
Example http_get_reads_once :
  get_url (lit "http://localhost:8080/") = Ret (inl root_sample)
  /\ exists wc', run_request (R := conn (kqueue_loop * wire) 7) (W := string_writer) id 200 (Conn (wire_of root_response)) string_writer_empty
       (get_request root_sample) [] = Ret (true, Some STATUS_OK, lit "hello", wc').
Proof. split; [vm_compute; reflexivity|eexists; vm_compute; reflexivity]. Qed.

(** What main completes: the scheme, and the port of the two schemes it knows *)
Lemma complete_url_spec u :
  let u' := complete_url u in
  scheme u' <> [] /\ (port u <> [] -> port u' = port u)
  /\ (scheme u' = lit "http" \/ scheme u' = lit "https" -> port u' <> [])
  /\ host u' = host u /\ path u' = path u /\ query u' = query u.
Proof.
  unfold complete_url. cbv zeta. cbn [scheme port host path query].
  assert (match scheme u with [] => lit "http" | s => s end <> []) as Hne by (by destruct (scheme u)).
  split_and!; try done; [by destruct (port u)|]. destruct (port u); [|done]. by intros [-> | ->].
Qed.

(** *** Waiting for the request

    main waits on a condition variable without looking at a flag, and
    [run_request] notifies it without the mutex. *)

Inductive main_pc := main_starts | main_waits | main_done.
Record get_state := { main_at : main_pc; request_done : bool }.

Inductive get_step : get_state -> get_state -> Prop :=
| get_wait s : main_at s = main_starts -> get_step s {| main_at := main_waits; request_done := request_done s |}
| get_notify s : request_done s = false ->
    get_step s {| main_at := match main_at s with main_waits => main_done | pc => pc end; request_done := true |}.

Inductive get_reachable : get_state -> Prop :=
| get_init : get_reachable {| main_at := main_starts; request_done := false |}
| get_next s s' : get_reachable s -> get_step s s' -> get_reachable s'.

(** If the request is answered before main waits, nothing wakes it up (but a
    spurious wake-up); main ends exactly if it was waiting. *)
Lemma http_get_hangs :
  get_reachable {| main_at := main_waits; request_done := true |}
  /\ (forall s', ~ get_step {| main_at := main_waits; request_done := true |} s')
  /\ (forall s, get_reachable s -> main_at s = main_done -> request_done s = true).
Proof.
  split_and!.
  - eapply get_next; [eapply get_next; [apply get_init|by apply get_notify]|by apply (get_wait {| main_at := main_starts; request_done := true |})].
  - intros s' Hs. by inversion Hs.
  - intros s Hr. induction Hr as [|s s' _ IH Hs]; [done|]. destruct Hs as [s Hm|s Hd]; [done|done].
Qed.
