(* ===== verification/Dns.v ===== *)
(** * DNS (src/dns.cpp, include/dns/message.hpp, include/dns/resolver.hpp)

    [dns_lookup] is a generator over the list [getaddrinfo] gives, modelled by
    what it yields.  The hash of an integer is an argument, as is [getaddrinfo]
    (through [Net]); an address is read from the [sockaddr] as its bytes in
    network order, and as an integer on a little-endian machine.

    The messages are declared and nothing is done with them: the types, with
    the values and the widths that the declarations give, are here. *)

From Stdlib Require Import ZArith Lia Strings.Byte String.
From stdpp Require Import prelude list gmap strings.
From S2P Require Import Prelude CxxStrings StringUtil IpAddr Io Coro EpollLoop Sockets.

(** ** Messages *)

Module Message.

Inductive message_type := mt_query | mt_reply.
Definition message_type_code (t : message_type) : Z := match t with mt_query => 0 | mt_reply => 1 end.

Inductive opcode := op_query | op_inverse_query | op_status.
Definition opcode_code (o : opcode) : Z := match o with op_query => 0 | op_inverse_query => 1 | op_status => 2 end.

Inductive response := rc_no_error | rc_format_error | rc_server_failure | rc_name_error | rc_not_implemented | rc_refused.
Definition rc_nonexistent_domain : response := rc_name_error.
Definition rc_nxdomain : response := rc_name_error.
Definition response_code (r : response) : Z :=
  match r with
  | rc_no_error => 0 | rc_format_error => 1 | rc_server_failure => 2 | rc_name_error => 3 | rc_not_implemented => 4 | rc_refused => 5
  end.

Inductive resource_record_type :=
| A | NS | MD | MF | CNAME | SOA | MB | MG | MR | NULL_ | WKS | PTR | HINFO | MINFO | MX | TXT
| AXFR | MAILB | MAILA | ALL.

Definition resource_record_type_code (t : resource_record_type) : Z :=
  match t with
  | A => 1 | NS => 2 | MD => 3 | MF => 4 | CNAME => 5 | SOA => 6 | MB => 7 | MG => 8 | MR => 9 | NULL_ => 10
  | WKS => 11 | PTR => 12 | HINFO => 13 | MINFO => 14 | MX => 15 | TXT => 16
  | AXFR => 252 | MAILB => 253 | MAILA => 254 | ALL => 255
  end.

Inductive class_type := IN | CS | CH | HS | ANY.
Definition class_type_code (c : class_type) : Z := match c with IN => 1 | CS => 2 | CH => 3 | HS => 4 | ANY => 255 end.

Record message_header := {
  message_id : Z;
  type : message_type;
  header_opcode : opcode;
  authoritative_answer : bool;
  truncation : bool;
  recursion_desired : bool;
  recursion_available : bool;
  zero : Z;
  header_response_code : response;
  num_questions : Z;
  num_answers : Z;
  num_name_server : Z;
  num_additional : Z;
}.

(** The members in order, with their widths in bits *)
Definition header_fields (h : message_header) : list (Z * Z) :=
  [(message_id h, 16); (message_type_code (type h), 1); (opcode_code (header_opcode h), 4); (Z.b2z (authoritative_answer h), 1);
   (Z.b2z (truncation h), 1); (Z.b2z (recursion_desired h), 1); (Z.b2z (recursion_available h), 1); (zero h, 3);
   (response_code (header_response_code h), 4); (num_questions h, 16); (num_answers h, 16); (num_name_server h, 16); (num_additional h, 16)].

Inductive resource_record_data :=
| cname_rdata (cname : list byte)
| hinfo_rdata (cpu os : list byte)
| mb_rdata (madname : list byte)
| md_rdata (madname : list byte)
| mf_rdata (madname : list byte)
| mg_rdata (mgmname : list byte)
| minfo_rdata (rmailbx emailbx : list byte)
| mr_rdata (newname : list byte)
| mx_rdata (preference : Z) (exchange : list byte)
| null_rdata (anything : list byte)
| ns_rdata (nsdname : list byte)
| ptr_rdata (ptrdname : list byte)
| soa_rdata (mname rname : list byte) (serial refresh retry expire minimum : Z)
| txt_rdata (data : list (list byte))
| a_rdata (address : ipv4_addr)
| aaaa_rdata (address : ipv6_addr)
| wks_rdata (address : ipv4_addr) (protocol : Z) (bitmap : list Z).

Record question := { qname : list byte; qtype : resource_record_type; qclass : class_type }.

Record resource_record := {
  name : list byte;
  record_type : resource_record_type;
  class_code : class_type;
  ttl : Z;
  rdata_length : Z;
  rdata : resource_record_data;
}.

Record message := {
  header : message_header;
  questions : list question;
  answers : list resource_record;
  authorities : list resource_record;
  additional : list resource_record;
}.

(** The type whose records hold such data, by their names *)
Definition type_of_rdata (d : resource_record_data) : option resource_record_type :=
  match d with
  | cname_rdata _ => Some CNAME | hinfo_rdata _ _ => Some HINFO | mb_rdata _ => Some MB | md_rdata _ => Some MD | mf_rdata _ => Some MF
  | mg_rdata _ => Some MG | minfo_rdata _ _ => Some MINFO | mr_rdata _ => Some MR | mx_rdata _ _ => Some MX | null_rdata _ => Some NULL_
  | ns_rdata _ => Some NS | ptr_rdata _ => Some PTR | soa_rdata _ _ _ _ _ _ _ => Some SOA | txt_rdata _ => Some TXT
  | a_rdata _ => Some A | wks_rdata _ _ _ => Some WKS
  | aaaa_rdata _ => None
  end.

(** Every value has a place in its field, the fields fill twelve bytes, and the
    codes tell the record types apart. *)
Lemma message_layout (h : message_header) :
  0 <= message_id h < 2 ^ 16 -> 0 <= zero h < 2 ^ 3 ->
  Forall (fun n => 0 <= n < 2 ^ 16) [num_questions h; num_answers h; num_name_server h; num_additional h] ->
  Forall (fun f => 0 <= f.1 < 2 ^ f.2) (header_fields h) /\ fold_right Z.add 0 (header_fields h).*2 = 12 * 8
  /\ (forall t u, resource_record_type_code t = resource_record_type_code u -> t = u).
Proof.
  intros Hid Hz Hn. split_and!; [|done|by intros [] [] E].
  apply Forall_cons in Hn as [H1 Hn]. apply Forall_cons in Hn as [H2 Hn]. apply Forall_cons in Hn as [H3 Hn]. apply Forall_cons in Hn as [H4 _].
  destruct h as [id ty op aa tc rd ra z rc nq na ns nd]. cbn in *.
  unfold header_fields. repeat apply Forall_cons_2; try apply Forall_nil_2; cbn; try lia;
    [destruct ty|destruct op|destruct aa|destruct tc|destruct rd|destruct ra|destruct rc]; cbn; lia.
Qed.

(** The data of every type of record has an alternative, and the one for the
    address of an IPv6 host has no type. *)
Lemma rdata_types :
  (forall t, 252 <= resource_record_type_code t \/ exists d, type_of_rdata d = Some t)
  /\ (forall d, type_of_rdata d = None -> exists a, d = aaaa_rdata a).
Proof.
  split.
  - intros t. destruct t; try (left; cbn; lia); right.
    all: first [by exists (a_rdata ipv4_loopback)|by exists (ns_rdata [])|by exists (md_rdata [])|by exists (mf_rdata [])|by exists (cname_rdata [])
      |by exists (soa_rdata [] [] 0 0 0 0 0)|by exists (mb_rdata [])|by exists (mg_rdata [])|by exists (mr_rdata [])|by exists (null_rdata [])
      |by exists (wks_rdata ipv4_loopback 0 [])|by exists (ptr_rdata [])|by exists (hinfo_rdata [] [])|by exists (minfo_rdata [] [])
      |by exists (mx_rdata 0 [])|by exists (txt_rdata [])].
  - intros [] E; try done. by eexists.
Qed.
End Message.

(** ** The resolver *)

Inductive transport := transport_udp | transport_tcp.
Record resolver := { mode : transport; servers : list ip_addr }.
Definition make_resolver (m : transport) (s : list ip_addr) : resolver := {| mode := m; servers := s |}.

(** ** Looking up a name *)

(** [pow(base, exponent)]: one factor more than the exponent says *)
Fixpoint pow_loop (base result : Z) (i : nat) : Z :=
  match i with O => result | S i => pow_loop base (result * base) i end.
Definition pow (base : Z) (exponent : nat) : Z := pow_loop base base exponent.

(** [inv_phi * pow(2, sizeof(std::size_t) * 4 - 1)], truncated: [inv_phi] is
    (sqrt 5 - 1) / 2, and 64 bits of it are enough for the 32 that are kept. *)
Definition hash_seed : Z := let p := pow 2 (8 * 4 - 1) in (Z.sqrt (5 * (p * p)) - p) / 2.

Section Lookup.
(** [std::hash] of an integer of 32 bits, and of 8 *)
Context (hash_u32 hash_u8 : Z -> Z).

(** [std::hash<T (&)[N]>] *)
Definition array_hash (data : list byte) : Z :=
  fold_left (fun result b =>
    let next := hash_u8 (byte_val b) in
    Z.lxor result (u64 (u64 (u64 (next + hash_seed) + u64 (Z.shiftl result 6)) + Z.shiftr result 2))) data 0.

(** [sin_addr.s_addr]: the bytes of the address, read as an integer *)
Definition s_addr (bytes : list byte) : Z := IpAddr.value (rev bytes).

(** The hash of an entry, and the address it yields *)
Definition entry_hash (info : addrinfo) : outcome Z :=
  if ai_family info =? AF_INET then Ret (hash_u32 (s_addr (ai_addr info)))
  else if ai_family info =? AF_INET6 then Ret (array_hash (ai_addr info))
  else Undef.

Definition entry_addr (info : addrinfo) : ip_addr :=
  if ai_family info =? AF_INET then ip_v4 (ipv4_of_u32 (s_addr (ai_addr info))) else ip_v6 (ipv6_of_c_array (ai_addr info)).

(** The loop over the list: the rest of the generator *)
Fixpoint lookup_loop (prev_hash : Z) (servinfo : list addrinfo) : outcome (@gen_body ip_addr) :=
  match servinfo with
  | [] => Ret g_return
  | next :: servinfo =>
      let* hash := entry_hash next in
      let* rest := lookup_loop hash servinfo in
      Ret (if negb (hash =? prev_hash) then g_yield (entry_addr next) rest else rest)
  end.

Definition AI_ADDRCONFIG : Z := 0x20.

(** [dns_lookup]: an error that may pass yields nothing. *)
Definition dns_lookup {K} `{Net K} (hostname : list byte) (k : K) : outcome (@gen_body ip_addr) * K :=
  let (r, k) := sys_getaddrinfo (Some hostname) [] {| hint_flags := AI_ADDRCONFIG; hint_family := AF_UNSPEC; hint_socktype := 0 |} k in
  match r with
  | inl sts =>
      match throw_for_gai_error sts k with
      | (Throw e, k) => (Ret (g_throw e), k)
      | (_, k) => (lookup_loop 0 [], k)
      end
  | inr servinfo => (lookup_loop 0 servinfo, k)
  end.

(** ** Properties *)

Definition entry_ok (info : addrinfo) : Prop :=
  (ai_family info = AF_INET /\ length (ai_addr info) = 4%nat) \/ (ai_family info = AF_INET6 /\ length (ai_addr info) = 16%nat).

(** Runs of equal elements made one *)
Fixpoint dedup_adjacent (prev : option ip_addr) (l : list ip_addr) : list ip_addr :=
  match l with
  | [] => []
  | a :: l => if match prev with Some b => ip_equal a b | None => false end then dedup_adjacent (Some a) l else a :: dedup_adjacent (Some a) l
  end.

Lemma ip_equal_eq a b : ip_equal a b = true <-> a = b.
Proof.
  destruct a as [[a]|[a]], b as [[b]|[b]]; cbn; unfold ipv4_equal, ipv6_equal; cbn; rewrite ?bytes_eqb_eq; split; congruence.
Qed.

Lemma entry_hash_total info : entry_ok info -> exists h, entry_hash info = Ret h.
Proof. unfold entry_hash. intros [[-> _] | [-> _]]; by eexists. Qed.

(** The hashes tell the addresses of the answer apart, and none is zero. *)
Definition no_collision (servinfo : list addrinfo) : Prop :=
  Forall (fun i => entry_hash i <> Ret 0) servinfo
  /\ forall i j, i ∈ servinfo -> j ∈ servinfo -> entry_hash i = entry_hash j -> entry_addr i = entry_addr j.

Lemma s_addr_range bytes : length bytes = 4%nat -> 0 <= s_addr bytes < 2 ^ 32.
Proof. intros Hl. pose proof (value_bound (rev bytes)) as Hv. rewrite length_rev, Hl in Hv. exact Hv. Qed.

Lemma c_array_data bytes : length bytes = 16%nat -> data6 (ipv6_of_c_array bytes) = bytes.
Proof.
  intros Hl. pose proof (map_lookup_seq bytes 0 16 ltac:(lia)) as E. rewrite drop_0, take_ge in E by lia. exact E.
Qed.

Lemma entry_hash_addr i j : entry_ok i -> entry_ok j -> entry_addr i = entry_addr j -> entry_hash i = entry_hash j.
Proof.
  unfold entry_ok, entry_addr, entry_hash.
  intros [[-> Hi] | [-> Hi]] [[-> Hj] | [-> Hj]]; cbn [Z.eqb AF_INET AF_INET6 Pos.eqb]; intros E.
  - do 2 f_equal. apply (f_equal (fun a => match a with ip_v4 a => ipv4_to_u32 a | _ => 0 end)) in E. cbn beta iota in E.
    by rewrite !(proj1 ip_words_roundtrip) in E by (by apply s_addr_range).
  - discriminate.
  - discriminate.
  - do 2 f_equal. apply (f_equal (fun a => match a with ip_v6 a => data6 a | _ => [] end)) in E. cbn beta iota in E.
    by rewrite !c_array_data in E by done.
Qed.

(** What the generator yields is the runs of the answers. *)
Lemma lookup_loop_total servinfo prev : Forall entry_ok servinfo ->
  exists body, lookup_loop prev servinfo = Ret body /\ ends body = None /\ yields body `sublist_of` map entry_addr servinfo.
Proof.
  intros Hok. revert prev. induction Hok as [|i servinfo Hi Hok IH]; intros prev; cbn [lookup_loop map].
  - by exists g_return.
  - destruct (entry_hash_total i Hi) as [h ->]. rewrite bind_ret. destruct (IH h) as (body & -> & He & Hs). rewrite bind_ret.
    destruct (negb (h =? prev)); eexists; (split; [done|]); cbn [ends yields]; split; try done; by constructor.
Qed.

Lemma lookup_loop_dedup servinfo prev i0 :
  Forall entry_ok servinfo -> entry_ok i0 -> entry_hash i0 = Ret prev -> no_collision (i0 :: servinfo) ->
  exists body, lookup_loop prev servinfo = Ret body /\ yields body = dedup_adjacent (Some (entry_addr i0)) (map entry_addr servinfo).
Proof.
  intros Hok. revert prev i0. induction Hok as [|i servinfo Hi Hok IH]; intros prev i0 H0 Hprev [Hz Hc]; cbn [lookup_loop map dedup_adjacent].
  - by exists g_return.
  - destruct (entry_hash_total i Hi) as [h Hh]. destruct (IH h i Hi Hh) as (body & Eb & Hy).
    { split; [by apply Forall_cons in Hz as [_ Hz]|]. intros x y Hx Hy. apply Hc; by right. }
    rewrite Hh, bind_ret, Eb, bind_ret. eexists. split; [done|].
    destruct (ip_equal (entry_addr i) (entry_addr i0)) eqn:Ee.
    + apply ip_equal_eq, entry_hash_addr in Ee; [|done|done]. rewrite Hh, Hprev in Ee. injection Ee as ->. by rewrite Z.eqb_refl.
    + destruct (h =? prev) eqn:Ehp; [|by cbn; rewrite Hy]. apply Z.eqb_eq in Ehp as ->.
      assert (entry_addr i = entry_addr i0) as Ea by (apply Hc; [right; by left|by left|congruence]).
      apply ip_equal_eq in Ea. congruence.
Qed.

Lemma ipv4_entry_data bytes : length bytes = 4%nat -> data4 (ipv4_of_u32 (s_addr bytes)) = rev bytes.
Proof.
  intros Hl. apply value_inj; [by rewrite length_rev, Hl|].
  rewrite <- ipv4_to_u32_value by done. by apply ip_words_roundtrip, s_addr_range.
Qed.

(** The fields of the text of an address, first to last *)
Definition address_fields (info : addrinfo) : list (list byte) :=
  if ai_family info =? AF_INET then map (fun b => to_chars 10 (byte_val b)) (ai_addr info)
  else map (fun i => to_chars 16 (hexit (ai_addr info) i)) [1; 3; 5; 7; 9; 11; 13; 15]%nat.

Lemma entry_text info : entry_ok info ->
  ip_to_string (entry_addr info)
  = Ret (if ai_family info =? AF_INET then join ["."%byte] (address_fields info) else join [":"%byte] (rev (address_fields info))).
Proof.
  unfold entry_addr, address_fields. intros [[-> Hl] | [-> Hl]]; cbn [Z.eqb AF_INET AF_INET6 Pos.eqb]; cbn [ip_to_string].
  - rewrite ipv4_to_string_spec, ipv4_entry_data by done. destruct (ai_addr info) as [|a [|b [|c [|d [|]]]]]; done.
  - by rewrite ipv6_to_string_spec, c_array_data by done.
Qed.

(** C40: for the addresses that [getaddrinfo] gives, [dns_lookup] ends and yields
    some of them in their order: if no two of them have the same hash, and none
    the hash 0, exactly one of each run of equal addresses.  Their texts are
    those of the addresses for IPv4; for IPv6 the groups are in reverse. *)
Theorem dns_lookup_addresses {K} `{Net K} (hostname : list byte) (servinfo : list addrinfo) (k k' : K) :
  sys_getaddrinfo (Some hostname) [] {| hint_flags := AI_ADDRCONFIG; hint_family := AF_UNSPEC; hint_socktype := 0 |} k = (inr servinfo, k') ->
  Forall entry_ok servinfo ->
  exists body, dns_lookup hostname k = (Ret body, k') /\ ends body = None
    /\ yields body `sublist_of` map entry_addr servinfo
    /\ (no_collision servinfo -> yields body = dedup_adjacent None (map entry_addr servinfo))
    /\ Forall (fun info => ip_to_string (entry_addr info)
         = Ret (if ai_family info =? AF_INET then join ["."%byte] (address_fields info) else join [":"%byte] (rev (address_fields info)))) servinfo.
Proof.
  intros E Hok. destruct (lookup_loop_total servinfo 0 Hok) as (body & Eb & He & Hs). exists body. unfold dns_lookup. rewrite E, Eb.
  split_and!; try done; [|by eapply Forall_impl; [exact Hok|apply entry_text]].
  intros Hc. destruct Hok as [|i rest Hi Hok]; [by injection Eb as <-|]. cbn [lookup_loop] in Eb.
  destruct (entry_hash_total i Hi) as [h Hh]. destruct (lookup_loop_dedup rest h i Hok Hi Hh Hc) as (body' & Eb' & Hy).
  rewrite Hh, bind_ret, Eb', bind_ret in Eb. injection Eb as <-. cbn [map dedup_adjacent].
  assert (h <> 0) as Hz by (intros ->; destruct Hc as [Hz _]; by apply Forall_cons in Hz as [Hz _]).
  rewrite (proj2 (Z.eqb_neq _ _) Hz). cbn [negb yields]. by rewrite Hy.
Qed.
End Lookup.

Definition dns_answer : list addrinfo :=
  map (fun ad => {| ai_family := AF_INET; ai_socktype := SOCK_STREAM; ai_protocol := 0; ai_addr := map byte_of_Z ad |})
    [[10; 0; 0; 1]; [10; 0; 0; 1]; [10; 0; 0; 2]].

#[local] Instance answering_Net : Net unit := {
  sys_recv d n k := (inr [], k);
  sys_send d b k := (inr 0, k);
  sys_so_error d k := (inr 0, k);
  sys_setsockopt d o k := (inr tt, k);
  sys_close d k := (tt, k);
  sys_getaddrinfo h p hs k := (inr dns_answer, k);
  sys_socket f t p k := (inl 97, k);
  sys_connect d ad k := (inr tt, k);
  sys_bind d ad k := (inr tt, k);
  sys_listen d n k := (inr tt, k);
  sys_accept d k := (inl EAGAIN, k);
  sys_getname peer d k := (inr (AF_INET, []), k);
  sys_inet_ntop f ad := inr [];
  sys_errno k := 0;
}.

(** Two of the three, with the hash of an integer that is the integer *)
Lemma dns_lookup_addresses_witness :
  exists body, dns_lookup id id (lit "example.com") tt = (Ret body, tt)
    /\ yields body = dedup_adjacent None (map entry_addr dns_answer).
Proof.
  pose proof (dns_lookup_addresses id id (lit "example.com") dns_answer tt tt eq_refl) as Hw.
  destruct Hw as (body & E & _ & _ & Hd & _).
  - repeat (apply Forall_cons; split; [by left|]). apply Forall_nil_2.
  - exists body. split; [exact E|]. apply Hd. split.
    + repeat (apply Forall_cons; split; [vm_compute; congruence|]). apply Forall_nil_2.
    + intros i j Hi Hj. repeat (apply elem_of_cons in Hi as [->|Hi]; [|]); try (by apply not_elem_of_nil in Hi);
        repeat (apply elem_of_cons in Hj as [->|Hj]; [|]); try (by apply not_elem_of_nil in Hj); vm_compute; congruence.
Defined.

(** The first address is dropped when its hash is 0, as that of 0.0.0.0 is where
    the hash of an integer is the integer; the seed is the usual one; and the
    text of an IPv6 address is backwards. *)
Example dns_lookup_edges :
  lookup_loop id id 0 [{| ai_family := AF_INET; ai_socktype := 0; ai_protocol := 0; ai_addr := [x00; x00; x00; x00] |}] = Ret g_return
  /\ hash_seed = 0x9e3779b9
  /\ ip_to_string (entry_addr {| ai_family := AF_INET6; ai_socktype := 0; ai_protocol := 0; ai_addr := replicate 15 x00 ++ [x01] |})
     = Ret (lit "1:0:0:0:0:0:0:0").
Proof. split_and!; vm_compute; reflexivity. Qed.
