(* ===== verification/Platform.v ===== *)
(** * The platform, and what is only begun (include/config.hpp,
    include/io/event_loop.hpp, src/net.cpp, src/instrument/system.cpp,
    src/crypto/aes.cpp, include/prefix_path_array.hpp)

    Which event loop and which readings a target gets, the name of the host,
    and three parts of the program that have no content yet: the readings of
    the process are constants on every platform, the ciphers have no body, and
    the array of path prefixes keeps nothing.  A function that is to return a
    value and has no return statement is undefined when it is called. *)

From Stdlib Require Import ZArith Lia Strings.Byte String.
From stdpp Require Import prelude list gmap strings.
From S2P Require Import Prelude CxxStrings Io.

(** ** Targets (config.hpp) *)

(** The macros the compilers of these targets define. *)
Inductive target := linux | apple_mach | freebsd | netbsd | openbsd | bsdi | dragonfly | win32 | win64 | cygwin | other_target.

Inductive os := IS_LINUX | IS_OSX | IS_BSD | IS_WINDOWS.
Inductive poller := HAS_EPOLL | HAS_KQUEUE | HAS_COMPLETION_PORTS.

(** The macros [config.hpp] defines; [None] is its [#error]. *)
Definition config (t : target) : option (poller * os) :=
  match t with
  | linux => Some (HAS_EPOLL, IS_LINUX)
  | apple_mach => Some (HAS_KQUEUE, IS_OSX)
  | freebsd | netbsd | openbsd | bsdi | dragonfly => Some (HAS_KQUEUE, IS_BSD)
  | win32 | win64 | cygwin => Some (HAS_COMPLETION_PORTS, IS_WINDOWS)
  | other_target => None
  end.

(** [detail::event_loop]; the header of the loop for completion ports is not in
    the repository. *)
Inductive event_loop := epoll_loop | kqueue_loop.
Definition event_loop_of (p : poller) : option event_loop :=
  match p with
  | HAS_EPOLL => Some epoll_loop
  | HAS_KQUEUE => Some kqueue_loop
  | HAS_COMPLETION_PORTS => None
  end.

(** ** Readings (system.cpp) *)

(** A reading that is taken from the system. *)
Inductive reading :=
| process_cpu_seconds | process_open_fds | process_max_fds | process_virtual_memory | process_virtual_memory_max
| process_resident_memory | process_heap | process_start_time | process_threads.

#[global] Instance reading_eq_dec : EqDecision reading.
Proof. solve_decision. Defined.

(** [time_point::min()]: the least number of ticks *)
Definition time_point_min : Z := - 2 ^ 63.

Definition linux_reading (r : reading) : Z :=
  match r with
  | process_cpu_seconds => 0
  | process_open_fds => 0
  | process_max_fds => 0
  | process_virtual_memory => 0
  | process_virtual_memory_max => 0
  | process_resident_memory => 0
  | process_heap => 0
  | process_start_time => time_point_min
  | process_threads => 0
  end.

Definition osx_reading (r : reading) : Z :=
  match r with
  | process_cpu_seconds => 0
  | process_open_fds => 0
  | process_max_fds => 0
  | process_virtual_memory => 0
  | process_virtual_memory_max => 0
  | process_resident_memory => 0
  | process_heap => 0
  | process_start_time => time_point_min
  | process_threads => 0
  end.

Definition bsd_reading (r : reading) : Z :=
  match r with
  | process_cpu_seconds => 0
  | process_open_fds => 0
  | process_max_fds => 0
  | process_virtual_memory => 0
  | process_virtual_memory_max => 0
  | process_resident_memory => 0
  | process_heap => 0
  | process_start_time => time_point_min
  | process_threads => 0
  end.

Definition windows_reading (r : reading) : Z :=
  match r with
  | process_cpu_seconds => 0
  | process_open_fds => 0
  | process_max_fds => 0
  | process_virtual_memory => 0
  | process_virtual_memory_max => 0
  | process_resident_memory => 0
  | process_heap => 0
  | process_start_time => time_point_min
  | process_threads => 0
  end.

Definition read_system (o : os) : reading -> Z :=
  match o with IS_LINUX => linux_reading | IS_OSX => osx_reading | IS_BSD => bsd_reading | IS_WINDOWS => windows_reading end.

(** The readings do not depend on the platform, and say nothing: a running
    process has a thread. *)
Lemma readings_constant o r : read_system o r = if decide (r = process_start_time) then time_point_min else 0.
Proof. by destruct o, r. Qed.

(** ** The host's name (net.cpp) *)

Section Hostname.
(** [sysconf(_SC_HOST_NAME_MAX)], and [gethostname]: what it writes to the start
    of a buffer of that size, and its result. *)
Context (host_name_max : Z) (gethostname : nat -> list byte * Z).

(** The length is unsigned, so the test for a negative one is never true; the
    result of [gethostname] is not used. *)
Definition hostname_length : Z :=
  let len := u64 (host_name_max + 1) in
  if len <? 0 then 255 else len.

Definition hostname : list byte :=
  let len := Z.to_nat hostname_length in
  let (written, _) := gethostname len in
  let name := written ++ drop (length written) (replicate len x00) in
  match sv_find name x00 0 with
  | Some finish => take finish name
  | None => name
  end.

(** The name with its zero is what is returned, up to the zero. *)
Lemma hostname_returns h err more :
  0 <= host_name_max < 2 ^ 64 - 1 -> gethostname (Z.to_nat (host_name_max + 1)) = (h ++ x00 :: more, err) ->
  x00 ∉ h -> hostname = h.
Proof.
  intros Hm Hg Hz. unfold hostname, hostname_length. assert (u64 (host_name_max + 1) = host_name_max + 1) as -> by (apply wrap_small; lia).
  rewrite (proj2 (Z.ltb_ge _ _)) by lia. rewrite Hg.
  rewrite <- app_assoc. cbn [app]. unfold sv_find. rewrite find_from_0_app; [apply take_app_length| |apply byte_eqb_refl].
  apply Forall_forall. intros c Hc. apply not_true_iff_false. intros <-%byte_eqb_eq. done.
Qed.

(** Without a limit ([sysconf] gives -1) the buffer is empty, and so is the
    name, not of the default length the source names. *)
Lemma hostname_no_limit : host_name_max = -1 -> hostname_length = 0.
Proof. unfold hostname_length. intros ->. done. Qed.
End Hostname.

(** ** The cipher (aes.cpp) *)

Definition num_rounds (key_length_bits : Z) : Z := key_length_bits / 32 + 6.
Definition buffer_size (key_length_bits : Z) : Z := key_length_bits / 8 + 28.
Definition substitution_box_forward (value : Z) : Z := Z.lxor value 0.

(** [state<key_bits>]: a key of [key_bits] bytes, and the words of the key
    schedule *)
Record aes_state (key_bits : Z) := { master_key : list byte; aes_buffer : list Z }.

Definition key_schedule : outcome (list byte) := Undef.

(** [encrypt] and [decrypt], for a key of any of the three lengths *)
Definition aes_encrypt {R W} (input : R) (output : W) (key : list byte) : outcome (error_condition * R * W) := Undef.
Definition aes_decrypt {R W} (input : R) (output : W) (key : list byte) : outcome (error_condition * R * W) := Undef.

(** The sizes are those of the standard: a round key of four words for each
    round, and one more. *)
Lemma aes_sizes key_bits : key_bits mod 32 = 0 -> buffer_size key_bits = 4 * (num_rounds key_bits + 1).
Proof. unfold buffer_size, num_rounds. intros Hk. assert (key_bits / 8 = 4 * (key_bits / 32)) as ->; [|lia]. Z.div_mod_to_equations. lia. Qed.

Lemma aes_rounds : num_rounds 128 = 10 /\ num_rounds 192 = 12 /\ num_rounds 256 = 14.
Proof. done. Qed.

(** The substitution box replaces nothing. *)
Lemma substitution_box_identity value : substitution_box_forward value = value.
Proof. apply Z.lxor_0_r. Qed.

(** ** The array of path prefixes (prefix_path_array.hpp) *)

Record path_elem (V : Type) := { elem_tail : list byte; elem_value : V }.
Record prefix_path_array (V : Type) := { prefices : list (list byte); path_values : list (path_elem V) }.

Definition path_insert {V} (a : prefix_path_array V) (path : list byte) (value : V) : prefix_path_array V := a.
Definition path_lookup {V} (a : prefix_path_array V) (path : list byte) : outcome (option V) := Undef.
