(* ===== verification/Programs.v ===== *)
(** * The main functions of the examples (example/*/main.cpp)

    What each program does with its arguments and in which order it calls the
    library; [Examples] has what the calls do.  A program is modelled by what
    it writes to the two output streams and its exit status.  Two main
    functions wait for a signal: their parameter is the result of [sigwait]
    (which the system only defines when the signals have been blocked before,
    and no program blocks them). *)

From Stdlib Require Import ZArith Lia Strings.Byte String.
From stdpp Require Import prelude list gmap strings.
From S2P Require Import Prelude CxxStrings StringUtil Url IpAddr Io Coro EpollLoop Sockets StringMap Headers Messages Http11 Router Server.
From S2P Require Import BufferedReader Session Examples Dns.

Record program_result := { std_out : list byte; std_err : list byte; exit_status : Z }.

Definition newline : list byte := [x0a].

(** ** ip-resolv *)

Definition address_line (addr : ip_addr) : outcome (list byte) :=
  let* text := ip_to_string addr in
  Ret ((if is_ipv4 addr then lit "IPv4: " else lit "IPv6: ") ++ text ++ newline).

Fixpoint address_lines (addrs : list ip_addr) : outcome (list byte) :=
  match addrs with
  | [] => Ret []
  | a :: addrs => let* l := address_line a in let* ls := address_lines addrs in Ret (l ++ ls)
  end.

Section Resolv.
Context (hash_word : Z -> Z) (hash_byte : Z -> Z).

(** The range [for] over the lookup, with [argc - 1] arguments of which the first
    is [arg] *)
Definition ip_resolv_main {K} `{Net K} (fuel argc : nat) (arg : list byte) (k : K) : outcome program_result * K :=
  if negb (argc =? 2)%nat
  then (Ret {| std_out := []; std_err := lit "Must provide a single hostname to resolve" ++ newline; exit_status := 1 |}, k)
  else
    let (lookup, k) := dns_lookup hash_word hash_byte arg k in
    (let* body := lookup in
     let* addrs := range_for fuel body in
     let* out := address_lines addrs in
     Ret {| std_out := out; std_err := []; exit_status := 0 |}, k).

Lemma address_lines_texts addrs texts :
  Forall2 (fun a t => ip_to_string a = Ret t) addrs texts ->
  address_lines addrs = Ret (concat (zip_with (fun a t => (if is_ipv4 a then lit "IPv4: " else lit "IPv6: ") ++ t ++ newline) addrs texts)).
Proof using.
  induction 1 as [|a t addrs texts Ha Hrest IH]; [done|]. cbn [address_lines zip_with concat]. unfold address_line. by rewrite Ha, !bind_ret, IH, bind_ret.
Qed.

Lemma ip_to_string_returns a : exists t, ip_to_string a = Ret t.
Proof using. destruct a; cbn; [rewrite ipv4_to_string_spec|rewrite ipv6_to_string_spec]; eauto. Qed.

(** A line for each address that the lookup yields, in that order, and status 0,
    whether the lookup ends well or with an exception. *)
Lemma ip_resolv_lines {K} `{Net K} fuel arg (k k' : K) body :
  dns_lookup hash_word hash_byte arg k = (Ret body, k') -> (S (length (yields body)) < fuel)%nat ->
  exists texts, Forall2 (fun a t => ip_to_string a = Ret t) (yields body) texts
    /\ ip_resolv_main fuel 2 arg k = (Ret {| std_out := concat (zip_with (fun a t => (if is_ipv4 a then lit "IPv4: " else lit "IPv6: ") ++ t ++ newline)
         (yields body) texts); std_err := []; exit_status := 0 |}, k').
Proof using.
  intros E Hf. assert (exists texts, Forall2 (fun a t => ip_to_string a = Ret t) (yields body) texts) as [texts Ht].
  { generalize (yields body). intros l. induction l as [|a l [ts IH]]; [by exists []|]. destruct (ip_to_string_returns a) as [t Hx].
    exists (t :: ts). by constructor. }
  exists texts. split; [done|]. unfold ip_resolv_main. cbn [Nat.eqb negb]. rewrite E, bind_ret, range_for_yields, bind_ret by done.
  by rewrite (address_lines_texts _ _ Ht), bind_ret.
Qed.

(** A name that cannot be resolved is not reported: nothing is written and the
    status is 0. *)
Lemma ip_resolv_silent {K} `{Net K} fuel arg (k k1 k2 : K) sts e :
  (2 <= fuel)%nat ->
  sys_getaddrinfo (Some arg) [] {| hint_flags := AI_ADDRCONFIG; hint_family := AF_UNSPEC; hint_socktype := 0 |} k = (inl sts, k1) ->
  throw_for_gai_error sts k1 = (Throw e, k2) ->
  ip_resolv_main fuel 2 arg k = (Ret {| std_out := []; std_err := []; exit_status := 0 |}, k2).
Proof using.
  intros Hf Hg Ht. assert (dns_lookup hash_word hash_byte arg k = (Ret (g_throw e), k2)) as E by (unfold dns_lookup; by rewrite Hg, Ht).
  destruct (ip_resolv_lines fuel arg k k2 (g_throw e) E) as (texts & _ & ->); [simpl; lia|]. by destruct texts.
Qed.
End Resolv.

(** ** http-get *)

(** What is written before the request *)
Definition fetching_from (u : url) : list byte :=
  lit "fetching from:" ++ newline
  ++ lit "scheme: " ++ scheme u ++ newline
  ++ lit "userinfo: " ++ username (userinfo u) ++ newline
  ++ lit "host: " ++ host u ++ newline
  ++ lit "port: " ++ port u ++ newline
  ++ lit "path: " ++ path u ++ newline.

(** [run] is what the coroutine of the request leaves in [success] when the wait
    for it has ended ([Examples.get_step] has the wait). *)
Definition http_get_main (argc : nat) (arg : list byte) (run : client_request -> bool) : outcome program_result :=
  if negb (argc =? 2)%nat
  then Ret {| std_out := []; std_err := lit "Must provide a single url to GET." ++ newline; exit_status := 1 |}
  else
    let* parsed := get_url arg in
    match parsed with
    | inr err =>
        Ret {| std_out := []; std_err := lit "Invalid url: unexpected character at " ++ to_chars 10 (Z.of_nat (failed_index err))
                 ++ lit " in " ++ url_parse_state_to_string (failed_at err) ++ newline;
               exit_status := 1 |}
    | inl u =>
        Ret {| std_out := fetching_from u ++ lit "building request..." ++ newline; std_err := [];
               exit_status := if run (get_request u) then 0 else 1 |}
    end.

(** The status is 0 exactly if the request of the completed URL succeeds. *)
Lemma http_get_status argc arg run res :
  http_get_main argc arg run = Ret res ->
  exit_status res = 0 <-> argc = 2%nat /\ exists u, Url.parse arg = Ret (inl u) /\ run (get_request (complete_url u)) = true.
Proof.
  unfold http_get_main, get_url. destruct (argc =? 2)%nat eqn:Ea; reflect_bools; cbn [negb].
  - intros (p & Hp & Hr)%bind_Ret_inv. apply bind_Ret_inv in Hp as (q & Hq & [= <-]). destruct q as [u|err]; injection Hr as <-; cbn [exit_status].
    + destruct (run _) eqn:Er; (split; [try done|]).
      * intros _. split; [done|]. by exists u.
      * done.
      * intros (_ & u' & Hu & Hrun). congruence.
    + split; [done|]. intros (_ & u & Hu & _). congruence.
  - intros [= <-]. cbn. split; [done|]. intros [-> _]. done.
Qed.

Example http_get_examples :
  http_get_main 1 [] (fun _ => true) = Ret {| std_out := []; std_err := lit "Must provide a single url to GET." ++ newline; exit_status := 1 |}
  /\ (let* r := http_get_main 2 (lit "http://a.b/c") (fun _ => true) in Ret (exit_status r)) = Ret 0.
Proof. split; vm_compute; reflexivity. Qed.

(** ** The servers *)

(** The calls of a main function, in their order *)
Inductive main_call :=
| schedule_serving     (* [scheduler.schedule(server.serve())], [run_echo_server] *)
| start_run_thread     (* a thread that calls [scheduler.run] *)
| wait_for_signal
| close_server         (* [server.close()], or [running = false; listener.shutdown()] *)
| schedule_encoding    (* [scheduler.schedule(request_times.encode(buf))] *)
| print_buffer (text : list byte)
| shutdown_scheduler
| join_run_thread.

(** http-server; [buffered] is what the buffer holds when it is printed. *)
Definition http_server_main (sigwait_result : Z) (buffered : list byte) : outcome (list main_call * Z) :=
  if negb (sigwait_result =? 0) then Terminate
  else Ret ([schedule_serving; start_run_thread; wait_for_signal; close_server; schedule_encoding;
             print_buffer (buffered ++ newline); shutdown_scheduler; join_run_thread], 0).

Definition echo_server_main (sigwait_result : Z) : outcome (list main_call * Z) :=
  if negb (sigwait_result =? 0) then Terminate
  else Ret ([schedule_serving; start_run_thread; wait_for_signal; close_server; shutdown_scheduler; join_run_thread], 0).

(** *** A session of http-server *)

(** A request of http-get for a URL of the server, and its answer *)
Definition root_turn (e : url * list (list byte * list (list byte))) : turn :=
  {| t_request := get_request e.1; t_query := e.2; t_payload := []; t_headers := hello_headers; t_status := STATUS_OK;
     t_length := 13; t_data := hello_data |}.

Lemma root_turn_ok {R} `{MessageReader R} std_hash iterate (rt : router (handler R)) u query_order :
  (forall h, iterate h ≡ₚ h) -> root_url u query_order -> dispatch std_hash rt GET (lit "/") = Ret (Handle hello_world) ->
  turn_ok std_hash iterate 8192 rt (root_turn (u, query_order)).
Proof.
  intros Hp Hu Hd. destruct (get_exchange_ok std_hash iterate rt u query_order Hp Hu Hd) as [Hreq Hver Hup Hsize Hroute _ _ (Hmap & Ho & _)].
  constructor; cbn [root_turn t_request t_query t_payload t_headers t_status t_length t_data fst snd]; try done.
  exists hello_world. split; [exact Hroute|]. intros r b ms Hok Hat Hb. exists b. split; [vm_compute; reflexivity|].
  apply body_of_reader in Hb as ->. done.
Qed.

(** On a connection that is kept and stays valid, http-server answers each such
    request, in any number, and returns when the peer closes. *)
Lemma http_server_session {R W} `{MessageReader R} `{!Validity R} `{!ValidityLaws R} `{SinkWriter W} `{!ReliableWriter W} std_hash (iterate : headers -> headers)
    (us : list (url * list (list byte * list (list byte)))) turns fuel (r : R) (w : W) :
  (forall h, iterate h ≡ₚ h) -> Forall (fun e => root_url e.1 e.2) us -> (forall r : R, reader_ok r -> (conn_valid r).1 = true) ->
  reader_ok r -> messages r = map (fun e => request_text (get_request e.1) e.2 (iterate get_headers)) us -> writer_ok w ->
  (length us < turns)%nat -> (length (stream r) < fuel)%nat ->
  exists rt w', example_router std_hash = Ret (rt, None) /\ serve_connection std_hash iterate turns fuel (fun _ => true) 8192 rt r w = Ret (Closing w')
    /\ sink w' = sink w ++ concat (replicate (length us)
         (response_text {| sresp_version := {| major := 1; minor := 1 |}; sresp_status := STATUS_OK; sresp_headers := hello_headers ++ [length_header 13] |}
            (iterate (hello_headers ++ [length_header 13])) ++ hello_data)).
Proof.
  intros Hp Hus Hv Hr Hms Hw Ht Hf. destruct (example_router_spec (R := R) std_hash) as (rt & Ert & Hd).
  destruct (serve_connection_messages std_hash iterate 8192 rt (map root_turn us) turns fuel r w) as (w' & Hs & _ & Hsink).
  - done.
  - apply Forall_map. eapply Forall_impl; [exact Hus|]. intros [u q] Hu. by apply root_turn_ok.
  - done.
  - done.
  - rewrite Hms, map_map. apply map_ext. intros [u q]. unfold request_of. cbn [root_turn t_request t_query t_payload fst snd]. by rewrite app_nil_r.
  - done.
  - by rewrite length_map.
  - done.
  - exists rt, w'. split_and!; [done..|]. rewrite Hsink. do 2 f_equal. clear. induction us as [|[u q] us IH]; [done|]. cbn [map length replicate]. by f_equal.
Qed.
